(* ===== verification/_CoqProject ===== *)
-Q . S2P
Prelude.v
Ieee.v
Containers.v
Events.v
Folds.v
Infra.v
Predicates.v
By.v
Windows.v
Filters.v
Aggregates.v
Streams.v
Rules.v
Scheduler.v
ThreadPools.v
Timers.v
RealScheduler.v
StreamLib.v
Dispatch.v
Codec.v
Tcp.v
WebSocket.v
Index.v
Query.v
Lalr.v
ParserTypes.v
Flex.v
Location.v
FlexBuffer.v
FlexStack.v
ParserRun.v
Instrumentation.v
Reports.v
Metrics.v
External.v
System.v
TcpPool.v
AsyncLoop.v
Sockets.v
ClientPool.v
Outlets.v
RiemannPool.v
UdpPool.v
Core.v
Process.v
WsPool.v
Subscriptions.v
EndToEnd.v
RuleTester.v
CurlPool.v
