(* ===== verification/Prelude.v ===== *)
(** * Cavalieri: a verification development

    Cavalieri is an event stream processor.  Events arrive over TCP in the Riemann
    protocol, are pushed through the rules, which are streams built by combinators and
    loaded from shared libraries, and end in an index that websocket clients query, in
    mails, pages and graphite lines.  This library models the program in Gallina and
    proves what makes its parts correct.

    ** The parts and where they are modelled

    The files build on one another in this order.

    - [Prelude] (this file): results of C++ calls ([result]: a value, an exception or
      undefined behaviour), machine integers, tactics, hint databases and the list lemmas
      that the components share.
    - [Ieee]: [double] and [float] as IEEE binary64 and binary32 on [spec_float] of the
      core library, conversions included, and when sums and comparisons are exact.
    - [Containers]: what the program relies on of [std::priority_queue],
      [std::unordered_map] and [boost::circular_buffer], as classes of operations
      with their laws; the instances [heap], [hash_map] and (in [Tcp]) [ring] show that
      the laws can be had.
    - [Events]: common/event.cpp, proto.proto and [set_event_value] of util/util.cpp.
      An [Event] is the protobuf message with its optional fields and attribute list.
    - [Folds]: folds/folds.cpp.
    - [Infra]: streams/stream_infra.cpp.  A node of a stream is a [machine]: a state, what
      its initialisation does, one operation per event and one per periodic task.  The
      operations live in the monad [M], which reads the clock, passes the state, collects
      the effects on the outside and may throw.  [join] is [>>], [init_streams] gives each
      node the factory of the nodes behind it, [chain_push] is [push_event].
    - [Predicates]: predicates/predicates.cpp.
    - [By], [Windows], [Filters], [Aggregates]: streams/stream_functions_lock.cpp, one
      step function per stream; each body runs under the mutex of its stream and is one
      atomic step.
    - [Streams]: streams/stream_functions.cpp, the combinators that rules are written
      with; [split], [where], [with], [default_to], [svec] and the like.
    - [Rules]: rules/common.cpp, the ready-made rules, composed of the streams above.
    - [Scheduler]: scheduler/mock_scheduler.cpp, whose tasks may add tasks.
    - [ThreadPools]: pool/async_thread_pool.cpp, threads that wait in event loops for signals,
      and pool/executor_thread_pool.cpp, threads with a queue of tasks each; the steps of
      all threads are interleaved.
    - [Timers]: the task queue of async/real_async_loop.cpp.
    - [RealScheduler]: scheduler/real_scheduler.cpp, two such loops that get tasks and requests
      to remove the tasks of a library through queues, and answer with promises.
    - [StreamLib]: streams/lib.cpp, the reference counter that keeps a rule library
      loaded while worker threads are inside, as a step relation of any number of workers
      and the loader, with the 32 bits of the counter.
    - [Dispatch]: the class [streams] of streams/stream_functions.cpp and
      rules_loader.cpp: which stream gets an event, and how a directory of libraries
      is brought up to date.
    - [Codec]: [base64Encode] and [parse_uri] of util/util.cpp.
    - [Tcp]: transport/tcp_connection.cpp, riemann_tcp_connection.cpp and the frame
      of external/riemann_tcp_client_pool.cpp.
    - [WebSocket]: transport/ws_util.cpp and transport/ws_connection.cpp.
    - [Index]: index/real_index.cpp and pub_sub/pub_sub.cpp; the operations of all threads
      are interleaved at the granularity of the mutexes, the turns of the destructor included.
    - [Query]: query/scanner.ll, query/parser.yy and query/expression.cpp, from the text of
      a query to its value on an event: the rules of the scanner and of the grammar.
    - [Lalr]: query/parser.cpp and query/parser.h, the automaton that bison made of the
      grammar: tables, stack, actions, error recovery.
    - [ParserTypes]: the stack of that automaton typed by the members of the union of
      semantic values that the grammar declares.
    - [Flex]: query/scanner.cpp, the automaton that flex made of the rules, and
      query/driver.cpp, which joins both.
    - [Location]: query/position.hh, query/location.hh and query/stack.hh.
    - [FlexBuffer]: the scanner as it runs, on a buffer that is filled in blocks, moved and
      enlarged while a token is matched, with the locations of the tokens.
    - [FlexStack]: pushing characters back, several buffers on a stack, and start conditions, which the
      generated scanner has as well.
    - [ParserRun]: the parser as it runs, with located symbols on its stack, the lookahead, the
      error status, and the texts of its error messages.
    - [Instrumentation]: instrumentation/ (rates, gauges, reservoirs, snapshots) and the
      stream [percentiles], which uses a reservoir.
    - [Reports]: the dispatcher of [Dispatch] with the rate and the latencies that it reports.
    - [Metrics]: the same with the snapshots that are taken every few seconds
      (core/real_core_helper.cpp), and instrumentation/mem.cpp.
    - [External]: external/ without the pools: the texts of graphite lines, mails and pages,
      [real_external] with its rates and [mock_external].
    - [System]: the dispatcher, the index and the external services together: what the rules ask for
      is done, and expired events come back to the rules (core/real_core.cpp).
    - [TcpPool]: transport/tcp_pool.cpp, with the functions of its user as variables.
    - [AsyncLoop]: the rest of async/real_async_loop.cpp: descriptors with their watchers, signals, the
      set of loops and the main loop.  libev is a class of operations with laws ([EvIo], [EvSig]).
    - [Sockets]: how sockets are made, in transport/listen_tcp_socket.cpp, transport/udp_pool.cpp
      and transport/tcp_client_pool.cpp.
    - [ClientPool]: transport/tcp_client_pool.cpp, external/graphite.cpp and
      external/riemann_tcp_client.cpp: queues of events, batches, connections.
    - [Outlets]: the client pools of all hosts, together with the calls of the rules ([System]).
    - [RiemannPool]: riemann_tcp_pool.cpp on top of [TcpPool] and [Tcp], and
      the callback of transport/udp_pool.cpp.
    - [UdpPool]: the rest of transport/udp_pool.cpp, and riemann_udp_pool.cpp, on top of [AsyncLoop] and [Sockets].
    - [Core]: core/real_core_helper.cpp, the servers, the executor and the dispatcher at work
      together.
    - [Process]: config/config.cpp, the command line (util/util.cpp), websocket/worker_threads.cpp and
      core/real_core.cpp: the services are stopped one after the other while the others go on.
    - [WsPool]: websocket/websocket_pool.cpp and websocket/worker_pool.cpp: clients with their
      queries, the workers that match events, and the queues between them.
    - [Subscriptions]: [System] and [WsPool] together, joined by publish and subscribe: from the rules through the index to
      websocket clients ([init_ws_server] of core/real_core_helper.cpp).
    - [EndToEnd]: [Core] and [Subscriptions] as one process: from the sockets of the senders to the clients.
    - [RuleTester]: rule_tester.cpp and rule_tester_util.cpp with the mock core: libraries are loaded,
      events are sorted and replayed on the mock scheduler ([Scheduler], [Dispatch], [Infra]).
    - [CurlPool]: transport/curl_pool.cpp on top of [TcpPool], through which mails and pages go.
      libcurl is the environment: each call into it comes with a script of the callbacks it makes,
      and [libcurl] says which scripts keep to its interface.

    The pools are records of what their threads share, one operation per callback or call from
    outside, and [run] over any list of operations: a theorem about [run] is about
    every interleaving.  What a pool does is put out as a list, which the invariants relate to
    its state.

    ** What the theorems show

    - Streams.  [by] gives every key a copy of its own that sees exactly the events of
      that key ([by_isolated]); pushing through [a >> b] is pushing through [a] and then
      what it yields through [b] ([push_event_join]); windows, [coalesce], [project],
      [stable], [rate], [throttle], [percentiles] and [svec] are related to
      descriptions over the whole list of events that arrived ([fixed_time_window_spec],
      [moving_time_window_spec], [coalesce_spec], [stable_spec], ...).  Rules
      are proved as compositions of these ([ratio_spec], [max_critical_hosts_spec],
      [stable_metric_latched], [pagerduty_pages_changes]).
    - Time.  The mock scheduler runs every task that is due, in order and at its time, those
      included that are added meanwhile, and gets to the new time ([set_time_spec]); a run of the
      rule tester is a timeline of events and tasks ([rule_tester_timeline]); the timer callback of the event loop
      likewise ([timer_callback_spec]).  Once the real scheduler has answered that the tasks of
      a library are removed, no loop has one ([removed_namespace_clean]), and it answers when
      each loop has handled its signal ([remove_ns_answered]).
    - Event loops.  A loop is a table from descriptors to what they wait for and who is told
      ([event_loop_table]); a descriptor is closed once for every time it was added
      ([descriptors_closed_once]); a periodic task of the main loop gets its timer
      ([main_tasks_kept]).
    - Threads.  After [stop_threads] no hook runs and all threads end
      ([stop_threads_joins]); tasks are dealt in turn, executed in order and once
      ([executor_round_robin], [executor_stop]).  The services are stopped in order, and nothing that a TCP
      client sends reaches the rules once the executor is stopped ([late_messages_lost]).
    - Libraries.  No worker pushes into a library after it was unloaded, and the loader
      unloads only when no worker is inside, in every interleaving
      ([no_push_after_unload], [close_waits_for_workers]); a reload leaves exactly the
      libraries of the directory loaded ([load_rules_spec]); an exception in one rule
      neither escapes nor keeps events from the others ([dispatch_isolated]).  The reports of the dispatcher
      change nothing up to a number of samples at which they are undefined ([dispatcher_reports]); with
      snapshots that many are allowed in every interval ([metrics_defined]).
    - Wire.  However the network cuts the bytes, every message is handed on once, in
      order, and acknowledged ([riemann_delivery]); a frame made by a client is decoded
      to its payload ([decode_frame_spec]); a request is answered with the key that the
      protocol asks for ([ws_handshake]); base64 and URIs round trip; the lines for graphite
      can be read back ([graphite_lines]) and a mail is uploaded whole ([payload_uploaded]).
    - Pools.  Whatever other clients do, the messages of a client that keeps to the protocol are
      handed on, and it is not dropped ([riemann_pool_delivery], [riemann_pool_keeps]);
      each of them reaches the rules exactly once ([core_end_to_end]).  The client pool
      sends the events of a queue in order while nothing breaks ([client_pool_fifo]); so what the
      rules send to graphite are the bytes that its socket gets ([graphite_delivery]), and what they forward is
      what the other server reads ([forward_delivery]).  Datagrams are handed over in order
      ([udp_in_order]).  A
      websocket client gets only events that match its query, never those of the client that
      had its descriptor before ([ws_pool_matches]), and only events that a rule has indexed, or their
      expiry ([clients_get_indexed]); in the process as a whole these are events that senders have sent
      ([senders_to_clients]).  It is waited for while there is
      something to send ([ws_pool_awake]).  The HTTP pool and libcurl agree on requests and
      descriptors, whatever order their callbacks come in ([curl_pool_safe]), and every event
      accepted is made a request once, in order ([curl_pool_submits]).
    - Index and queries.  A query finds the latest events of the messages ([messages_found]), and all that the
      rules ask for is done in order ([requests_performed]).  What a query returns are the latest events of their keys that
      match, whatever the expiration thread is doing ([index_query_spec]); a pass of
      that thread takes out what had expired and reports it ([index_expire_pass]);
      the generated scanner finds the tokens of the rules ([flex_scan_correct]), whatever the
      size of its buffer and of the blocks it reads ([buffered_scan_correct]), where they are
      ([token_locations]), and from a stack of inputs those of each of them ([scanner_stack]); what is pushed back is
      read next ([unput_input]); the generated parser accepts what the grammar derives, with its tree, and ends
      ([yyparse_grammar]), it is type safe ([parser_type_safe]), and both together, as they
      run, agree with the automata on lists ([parse_stream_correct]).  A text that is no query
      gets one message, which names the token and what was expected ([parser_reports]), and the parser gives up at
      a token that nothing behind it could mend ([error_found_at_once]).  A printed query is read back as its
      meaning ([query_roundtrip]).
    - Defects.  Some theorems state what the code does where it seems to mean
      something else: [throttle_starves], [split_stateful_throws], [mean_min_max_stale],
      [ws_never_consumes], [create_frame_spec], [percentiles_spec], [write_error_fatal],
      [client_without_query_fatal], [unload_race], [sigterm_not_watched], [late_messages_lost],
      [connect_descriptors], [no_ttl_lost], [mem_usage_shifted].

    ** Integers, floats and fuel

    Times are [Z] with the wrap-around of [int64_t] written out ([i64_add]); theorems
    that need it assume that no sum leaves the range.  The reference counter has 32 bits,
    frame lengths 16 or 64, counters of a rate 32.  Metrics are IEEE doubles throughout.

    Loops that are not structural have fuel, and the fuel is shown to be enough: the
    read loop of a connection takes a byte in every turn but the last
    ([Tcp]; for any bytes [RiemannPool.read_loop_total]), the scanner a character per token and
    the parser at most three calls per token ([Query], [scan_total] and [parse_stable]),
    the generated parser two turns per token and six more ([Lalr]), a call of the scanner on its
    buffer a turn per character and one per filling ([FlexBuffer]), the loops of the
    schedulers run only tasks that are due ([Scheduler], [Timers]).

    ** What stands for code outside

    Regular expressions, [stod], [std::hash] and the order of hash maps, SHA-1, libcurl, libev, the JSON and the protobuf codec, random numbers, the host name, the dynamic
    linker and what system calls return are arguments of the definitions that use them.

    ** What is not modelled

    The debugging output of the generated code; functions that only print or
    forward ([log_config], os/, cavalieri.cpp, the accessors of the core); destructors and failing
    allocations, except where a file says so; rules/util.cpp, which is not part of the build.  The compositions
    ([EndToEnd], [Outlets], [Metrics], [Process]) each join some of the components: [EndToEnd] has the way of an event
    from its sender to the clients, but not the outgoing connections, the instrumentation and the end of the process.  Threads interleave at the granularity of callbacks and mutexes; a
    message goes through the dispatcher in one step. *)

From Stdlib Require Export ZArith Lia Ascii.
From stdpp Require Export base list gmap strings sorting numbers.

(** ** Notation scope and hint databases of the development *)

Declare Scope cav_scope.
Delimit Scope cav_scope with cav.
Create HintDb cav.
Create Rewrite HintDb cavrw.

(** ** Errors as values

    A C++ call returns normally, throws, or runs into undefined behaviour;
    the model keeps the three apart. *)

Inductive exn : Type :=
| bad_function_call            (** calling an empty [std::function] *)
| regex_error                  (** [std::regex] on a malformed pattern *)
| undefined_behaviour          (** e.g. [events[0]] on an empty vector, [x % 0] *)
| user_exception (what : string).

Inductive result (A : Type) : Type :=
| Ok (a : A)
| Throw (x : exn).
Arguments Ok {A} a.
Arguments Throw {A} x.

#[export] Instance exn_eq_dec : EqDecision exn.
Proof. solve_decision. Defined.

Definition res_bind {A B} (f : A -> result B) (r : result A) : result B :=
  match r with Ok a => f a | Throw x => Throw x end.
Definition res_map {A B} (f : A -> B) (r : result A) : result B :=
  match r with Ok a => Ok (f a) | Throw x => Throw x end.

(** ** Machine integers *)

Definition two63 : Z := 2 ^ 63.
Definition two64 : Z := 2 ^ 64.
Definition two32 : Z := 2 ^ 32.

(** [int64_t] (and [time_t]): two's complement wrap-around into
    [-2^63, 2^63). *)
Definition wrap64 (z : Z) : Z := (z + two63) mod two64 - two63.
Definition i64_add (a b : Z) : Z := wrap64 (a + b).
Definition i64_sub (a b : Z) : Z := wrap64 (a - b).

(** [unsigned int] *)
Definition wrap32 (z : Z) : Z := z mod two32.
Lemma wrap32_add a b : wrap32 (wrap32 a + b) = wrap32 (a + b).
Proof. unfold wrap32. by rewrite Zplus_mod_idemp_l. Qed.

Definition in_i64 (z : Z) : Prop := (- two63 <= z < two63)%Z.

(** ** Tactics *)

(** Case analysis on the scrutinee of the first [match]/[if] of the goal. *)
Ltac case_scrut :=
  match goal with
  | |- context [match ?x with _ => _ end] => destruct x eqn:?
  end.

(** Turn boolean comparisons on [Z] and [nat] in the context into
    propositions, so that [lia] sees them. *)
Ltac bool_to_prop :=
  repeat match goal with
  | H : Z.ltb _ _ = true |- _ => apply Z.ltb_lt in H
  | H : Z.ltb _ _ = false |- _ => apply Z.ltb_ge in H
  | H : Z.leb _ _ = true |- _ => apply Z.leb_le in H
  | H : Z.leb _ _ = false |- _ => apply Z.leb_gt in H
  | H : Z.eqb _ _ = true |- _ => apply Z.eqb_eq in H
  | H : Z.eqb _ _ = false |- _ => apply Z.eqb_neq in H
  | H : Nat.eqb _ _ = true |- _ => apply Nat.eqb_eq in H
  | H : Nat.eqb _ _ = false |- _ => apply Nat.eqb_neq in H
  | H : Nat.ltb _ _ = true |- _ => apply Nat.ltb_lt in H
  | H : Nat.ltb _ _ = false |- _ => apply Nat.ltb_ge in H
  | H : Nat.leb _ _ = true |- _ => apply Nat.leb_le in H
  | H : Nat.leb _ _ = false |- _ => apply Nat.leb_gt in H
  end.

Ltac blia := bool_to_prop; lia.

(** A decidable proposition about a concrete input, by evaluation. *)
Ltac by_decide := apply (bool_decide_unpack _); vm_compute; exact I.

#[export] Instance in_i64_dec z : Decision (in_i64 z).
Proof. unfold in_i64. apply _. Defined.

(** ** Arithmetic lemmas *)

Lemma wrap64_id z : in_i64 z -> wrap64 z = z.
Proof.
  unfold in_i64, wrap64, two63, two64. intros H.
  rewrite Z.mod_small; lia.
Qed.

Lemma wrap64_range z : in_i64 (wrap64 z).
Proof.
  unfold in_i64, wrap64, two63, two64.
  pose proof (Z.mod_pos_bound (z + 2 ^ 63) (2 ^ 64)). lia.
Qed.

Lemma i64_add_exact a b : in_i64 (a + b) -> i64_add a b = (a + b)%Z.
Proof. apply wrap64_id. Qed.

Lemma i64_sub_exact a b : in_i64 (a - b) -> i64_sub a b = (a - b)%Z.
Proof. apply wrap64_id. Qed.

#[export] Hint Resolve wrap64_range : cav.

(** ** Lists *)

Lemma filter_all {A} (P : A -> Prop) `{!forall x, Decision (P x)} l :
  Forall P l -> filter P l = l.
Proof.
  induction 1 as [|x l Hx _ IH]; [done|]. rewrite filter_cons, decide_True by done.
  by rewrite IH.
Qed.

Lemma filter_none {A} (P : A -> Prop) `{!forall x, Decision (P x)} l :
  Forall (fun x => ~ P x) l -> filter P l = [].
Proof.
  induction 1 as [|x l Hx _ IH]; [done|]. by rewrite filter_cons, decide_False.
Qed.

Lemma StronglySorted_snoc {A} (R : A -> A -> Prop) l x :
  StronglySorted R l -> Forall (fun y => R y x) l -> StronglySorted R (l ++ [x]).
Proof.
  induction 1 as [|y l _ IH Hy]; intros HF; simpl; [repeat constructor|].
  apply Forall_cons_iff in HF as [? ?]. constructor; [auto|].
  apply Forall_app. repeat constructor; auto.
Qed.

(** ** Finite maps *)

Lemma map_to_list_filter {A} (P : string * A -> Prop) `{!forall x, Decision (P x)}
    (g : gmap string A) :
  map_to_list (filter P g) ≡ₚ filter P (map_to_list g).
Proof.
  apply NoDup_Permutation; [apply NoDup_map_to_list| |].
  - apply list.NoDup_filter, NoDup_map_to_list.
  - intros [k v]. rewrite elem_of_map_to_list, list_elem_of_filter, elem_of_map_to_list.
    rewrite map_lookup_filter_Some. tauto.
Qed.
