(* ===== verification/Ieee.v ===== *)
(** * IEEE-754 numbers

    The C++ code computes on [double] (metrics), [float] (ttl, [metric_f]) and
    converts between them and 64-bit integers.  Both formats are modelled by the
    executable specification floats of the standard library ([SpecFloat]):
    binary64 is [prec = 53, emax = 1024], binary32 is [prec = 24, emax = 128],
    round to nearest even; NaN payloads are not represented.  The file defines
    the operations and conversions the sources use and proves the order and
    exactness lemmas the components need. *)

From Corelib Require Export SpecFloat.
From stdpp Require Import pretty.
From S2P Require Import Prelude.

Local Open Scope Z_scope.

(** ** Conversions, generic in the format *)

Definition sf_of_Z (prec emax z : Z) : spec_float :=
  binary_normalize prec emax z 0 false.

(** Conversion of a finite value of another format (exact value, rounded). *)
Definition sf_convert (prec emax : Z) (x : spec_float) : spec_float :=
  match x with
  | S754_finite s m e => binary_round prec emax s m e
  | _ => x
  end.

(** Truncation toward zero; [None] on NaN and infinities. *)
Definition sf_trunc (x : spec_float) : option Z :=
  match x with
  | S754_zero _ => Some 0
  | S754_finite s m e =>
      let a := if 0 <=? e then Z.pos m * 2 ^ e else Z.pos m / 2 ^ (- e) in
      Some (if s then - a else a)
  | _ => None
  end.

(** ** binary64 and binary32 *)

Abbreviation double := spec_float (only parsing).
Abbreviation float := spec_float (only parsing).

Definition d_of_Z (z : Z) : double := sf_of_Z 53 1024 z.
Definition f_of_Z (z : Z) : float := sf_of_Z 24 128 z.
Definition d_of_f (x : float) : double := sf_convert 53 1024 x.
Definition f_of_d (x : double) : float := sf_convert 24 128 x.

Definition d_add (x y : double) : double := SFadd 53 1024 x y.
Definition d_sub (x y : double) : double := SFsub 53 1024 x y.
Definition d_mul (x y : double) : double := SFmul 53 1024 x y.
Definition d_div (x y : double) : double := SFdiv 53 1024 x y.
Definition f_mul (x y : float) : float := SFmul 24 128 x y.

(** [static_cast<int64_t>] of a floating value: truncation; the x86 conversion
    instruction gives [INT64_MIN] where the value does not fit. *)
Definition i64_of_sf (x : spec_float) : Z :=
  match sf_trunc x with
  | Some z => if (- two63 <=? z) && (z <? two63) then z else - two63
  | None => - two63
  end.

(** The comparison operators of C++ ([false] as soon as one side is NaN). *)
Definition sf_lt (x y : spec_float) : bool := SFltb x y.
Definition sf_gt (x y : spec_float) : bool := SFltb y x.
Definition sf_le (x y : spec_float) : bool := SFleb x y.
Definition sf_ge (x y : spec_float) : bool := SFleb y x.
Definition sf_eq (x y : spec_float) : bool := SFeqb x y.

Definition is_nan (x : spec_float) : bool :=
  match x with S754_nan => true | _ => false end.

Definition d_zero : double := S754_zero false.

(** ** Decimal text *)

(** The quotient nearest to [n / d], ties to even. *)
Definition div_even (n d : Z) : Z :=
  let q := n / d in
  match 2 * (n mod d) ?= d with
  | Lt => q
  | Gt => q + 1
  | Eq => if Z.even q then q else q + 1
  end.

(** [m * 2 ^ e] in millionths. *)
Definition micros (m : positive) (e : Z) : Z :=
  if 0 <=? e then Z.pos m * 2 ^ e * 1000000 else div_even (Z.pos m * 1000000) (2 ^ (- e)).

(** [n] with zeros in front, [k] digits. *)
Fixpoint digits (k : nat) (n : Z) : string :=
  match k with
  | O => ""
  | S k' => digits k' (n / 10) +:+ pretty (n mod 10)
  end.

(** [std::to_string(double)], which prints with [%f]: the exact value, rounded to six
    places.  The sign of a NaN is not represented. *)
Definition d_to_string (x : double) : string :=
  let sign (s : bool) := if s then "-" else "" in
  match x with
  | S754_zero s => sign s +:+ "0.000000"
  | S754_infinity s => sign s +:+ "inf"
  | S754_nan => "nan"
  | S754_finite s m e =>
      let n := micros m e in
      sign s +:+ pretty (n / 1000000) +:+ "." +:+ digits 6 (n mod 1000000)
  end.

(** The double nearest to [n / d]. *)
Definition d_of_ratio (n : Z) (d : positive) : double :=
  match n with
  | Z0 => d_zero
  | Zpos m => SFdiv 53 1024 (S754_finite false m 0) (S754_finite false d 0)
  | Zneg m => SFdiv 53 1024 (S754_finite true m 0) (S754_finite false d 0)
  end.

Example d_to_string_half : d_to_string (d_of_ratio (-5) 2) = "-2.500000".
Proof. reflexivity. Qed.
Example d_to_string_carry : d_to_string (d_of_ratio 9999999 10000000) = "1.000000".
Proof. reflexivity. Qed.
Example d_of_ratio_tenth : d_of_ratio 1 10 = d_div (d_of_Z 1) (d_of_Z 10).
Proof. reflexivity. Qed.

#[export] Instance spec_float_eq_dec : EqDecision spec_float.
Proof. solve_decision. Defined.

(** ** Order lemmas *)

(** Case analysis on the comparisons left in a goal. *)
Ltac cmp_cases :=
  repeat match goal with
  | |- context [Z.compare ?a ?b] => destruct (Z.compare_spec a b); subst; simpl
  | |- context [Pos.compare_cont Eq ?a ?b] =>
      change (Pos.compare_cont Eq a b) with (Pos.compare a b);
      destruct (Pos.compare_spec a b); subst; simpl
  end.

Lemma sf_compare_swap x y :
  SFcompare y x = option_map CompOpp (SFcompare x y).
Proof.
  destruct x as [[]|[]| |[] m1 e1], y as [[]|[]| |[] m2 e2]; simpl; try reflexivity;
  cmp_cases; try reflexivity; exfalso; lia.
Qed.

Lemma sf_compare_none x y :
  SFcompare x y = None -> is_nan x = true \/ is_nan y = true.
Proof. destruct x, y; simpl; auto; discriminate. Qed.

Lemma sf_le_total x y :
  is_nan x = false -> is_nan y = false -> sf_le x y = true \/ sf_lt y x = true.
Proof.
  unfold sf_le, sf_lt, SFleb, SFltb. rewrite (sf_compare_swap x y).
  destruct (SFcompare x y) as [[]|] eqn:E; simpl; auto.
  intros. destruct (sf_compare_none _ _ E); congruence.
Qed.

Lemma sf_le_not_nan x y : sf_le x y = true -> is_nan x = false /\ is_nan y = false.
Proof. destruct x, y; simpl; split; try reflexivity; discriminate. Qed.

Lemma sf_lt_le x y : sf_lt x y = true -> sf_le x y = true.
Proof.
  unfold sf_le, sf_lt, SFleb, SFltb. destruct (SFcompare x y) as [[]|]; auto.
Qed.

Lemma sf_lt_not_le x y : sf_lt x y = true -> sf_le y x = false.
Proof.
  unfold sf_le, sf_lt, SFleb, SFltb. rewrite (sf_compare_swap x y).
  destruct (SFcompare x y) as [[]|]; simpl; congruence.
Qed.

Lemma sf_le_refl x : is_nan x = false -> sf_le x x = true.
Proof.
  intros. destruct (sf_le_total x x) as [?|Hlt]; auto.
  apply sf_lt_le, Hlt.
Qed.

(** Transitivity: [SFcompare] is lexicographic on (sign, exponent, mantissa). *)
Lemma sf_le_trans x y z : sf_le x y = true -> sf_le y z = true -> sf_le x z = true.
Proof.
  unfold sf_le, SFleb. destruct x, y, z; simpl; try discriminate; auto;
  repeat match goal with s : bool |- _ => destruct s end; simpl;
  try discriminate; auto;
  cmp_cases; intros; try discriminate; auto; lia.
Qed.

(** ** Exactness of the conversion of small integers *)

Lemma digits2_bounds m :
  2 ^ (Z.pos (digits2_pos m) - 1) <= Z.pos m < 2 ^ Z.pos (digits2_pos m).
Proof.
  assert (Hs : forall p, 2 ^ Z.pos (Pos.succ p) = 2 * 2 ^ Z.pos p).
  { intros p. rewrite Pos2Z.inj_succ, Z.pow_succ_r; lia. }
  assert (Hp : forall p, 2 ^ Z.pos p = 2 * 2 ^ (Z.pos p - 1)).
  { intros p. rewrite <- Z.pow_succ_r by lia. f_equal. lia. }
  induction m as [m IH|m IH|]; cbn [digits2_pos]; [| |cbn; lia];
  rewrite Hs; replace (Z.pos (Pos.succ (digits2_pos m)) - 1)
    with (Z.pos (digits2_pos m)) by lia;
  rewrite (Hp (digits2_pos m)) in *; lia.
Qed.

Lemma digits2_unique m d :
  0 < d -> 2 ^ (d - 1) <= Z.pos m < 2 ^ d -> Z.pos (digits2_pos m) = d.
Proof.
  intros Hd Hm. pose proof (digits2_bounds m) as Hb.
  destruct (Z.lt_trichotomy (Z.pos (digits2_pos m)) d) as [H|[H|H]]; auto; exfalso.
  - assert (2 ^ Z.pos (digits2_pos m) <= 2 ^ (d - 1)) by (apply Z.pow_le_mono_r; lia). lia.
  - assert (2 ^ d <= 2 ^ (Z.pos (digits2_pos m) - 1)) by (apply Z.pow_le_mono_r; lia). lia.
Qed.

Lemma pos_iter_xO m k : Z.pos (Pos.iter xO m k) = Z.pos m * 2 ^ Z.pos k.
Proof.
  induction k as [|k IH] using Pos.peano_ind.
  - cbn. lia.
  - rewrite Pos.iter_succ, Pos2Z.inj_succ, Z.pow_succ_r by lia.
    rewrite Pos2Z.inj_xO, IH. ring.
Qed.

Section exactness.
Context (prec emax : Z) (Hprec : 1 <= prec) (Hemax : prec < emax).

Lemma fexp_small d : 1 <= d -> fexp prec emax d = d - prec.
Proof. unfold fexp, emin. lia. Qed.

(** A mantissa of exactly [prec] digits at an exponent that needs no shift is
    already rounded. *)
Lemma binary_round_aux_exact s m e :
  Z.pos (digits2_pos m) = prec -> 1 - prec <= e <= emax - prec ->
  binary_round_aux prec emax s (Z.pos m) e loc_Exact = S754_finite s m e.
Proof.
  intros Hd He.
  assert (Hsh : shr_fexp prec emax (Z.pos m) e loc_Exact
                = (Build_shr_record (Z.pos m) false false, e)).
  { unfold shr_fexp, Zdigits2. rewrite Hd, fexp_small by lia.
    replace (prec + e - prec - e) with 0 by lia. reflexivity. }
  unfold binary_round_aux. rewrite Hsh. simpl. rewrite Hsh. simpl.
  destruct (Z.leb_spec e (emax - prec)); [reflexivity|lia].
Qed.

Lemma binary_round_int s p :
  Z.pos p < 2 ^ prec ->
  let d := Z.pos (digits2_pos p) in
  exists m, binary_round prec emax s p 0 = S754_finite s m (d - prec)
            /\ Z.pos m = Z.pos p * 2 ^ (prec - d) /\ 1 <= d <= prec.
Proof.
  intros Hp d. pose proof (digits2_bounds p) as Hb. fold d in Hb.
  assert (Hdp : 1 <= d <= prec).
  { split; [lia|]. destruct (Z.le_gt_cases d prec) as [|Hgt]; auto.
    assert (2 ^ prec <= 2 ^ (d - 1)) by (apply Z.pow_le_mono_r; lia). lia. }
  unfold binary_round. fold d. rewrite Z.add_0_r, fexp_small by lia.
  assert (Hsh : exists m, shl_align p 0 (d - prec) = (m, d - prec)
                          /\ Z.pos m = Z.pos p * 2 ^ (prec - d)).
  { unfold shl_align. rewrite Z.sub_0_r.
    destruct (d - prec) as [|k|k] eqn:E; [|lia|].
    - exists p. split; [f_equal; lia|]. replace (prec - d) with 0 by lia. lia.
    - eexists. split; [reflexivity|]. rewrite pos_iter_xO. do 2 f_equal. lia. }
  destruct Hsh as (m & -> & Hm). exists m. split; [|auto].
  apply binary_round_aux_exact; [|lia].
  apply digits2_unique; [lia|].
  rewrite Hm. replace (2 ^ prec) with (2 ^ d * 2 ^ (prec - d))
    by (rewrite <- Z.pow_add_r by lia; f_equal; lia).
  replace (2 ^ (prec - 1)) with (2 ^ (d - 1) * 2 ^ (prec - d))
    by (rewrite <- Z.pow_add_r by lia; f_equal; lia).
  assert (0 < 2 ^ (prec - d)) by (apply Z.pow_pos_nonneg; lia). nia.
Qed.

Definition sf_small (z : Z) : Prop := - 2 ^ prec < z < 2 ^ prec.

(** The image of a small integer, in closed form. *)
Lemma sf_of_Z_form z :
  sf_small z ->
  (z = 0 /\ sf_of_Z prec emax z = S754_zero false)
  \/ exists p m (s : bool), z = (if s then Z.neg p else Z.pos p)
       /\ sf_of_Z prec emax z = S754_finite s m (Z.pos (digits2_pos p) - prec)
       /\ Z.pos m = Z.pos p * 2 ^ (prec - Z.pos (digits2_pos p))
       /\ 1 <= Z.pos (digits2_pos p) <= prec.
Proof.
  unfold sf_small. intros Hz. destruct z as [|p|p]; [left; split; reflexivity| |];
  right; exists p.
  - destruct (binary_round_int false p) as (m & H1 & H2 & H3); [lia|].
    exists m, false. auto.
  - destruct (binary_round_int true p) as (m & H1 & H2 & H3); [lia|].
    exists m, true. auto.
Qed.

Lemma sf_trunc_of_Z z : sf_small z -> sf_trunc (sf_of_Z prec emax z) = Some z.
Proof.
  intros Hz. destruct (sf_of_Z_form z Hz) as [[-> ->]|(p & m & s & -> & -> & Hm & Hd)];
    [reflexivity|]. simpl.
  set (d := Z.pos (digits2_pos p)) in *.
  assert (Ha : (if 0 <=? d - prec then Z.pos m * 2 ^ (d - prec)
                else Z.pos m / 2 ^ (- (d - prec))) = Z.pos p).
  { destruct (Z.leb_spec 0 (d - prec)).
    - replace d with prec in * by lia. rewrite Hm, !Z.sub_diag. lia.
    - rewrite Hm. replace (- (d - prec)) with (prec - d) by lia.
      apply Z.div_mul. apply Z.pow_nonzero; lia. }
  rewrite Ha. destruct s; reflexivity.
Qed.

Lemma finite_compare p1 p2 m1 m2 :
  let d1 := Z.pos (digits2_pos p1) in let d2 := Z.pos (digits2_pos p2) in
  Z.pos m1 = Z.pos p1 * 2 ^ (prec - d1) -> Z.pos m2 = Z.pos p2 * 2 ^ (prec - d2) ->
  match d1 - prec ?= d2 - prec with
  | Eq => Pos.compare_cont Eq m1 m2 | c => c end = (Z.pos p1 ?= Z.pos p2).
Proof.
  intros d1 d2 H1 H2. pose proof (digits2_bounds p1) as B1.
  pose proof (digits2_bounds p2) as B2. fold d1 in B1. fold d2 in B2.
  destruct (Z.compare_spec (d1 - prec) (d2 - prec)) as [E|E|E].
  - change (Pos.compare_cont Eq m1 m2) with (Z.pos m1 ?= Z.pos m2).
    rewrite H1, H2. replace d2 with d1 by lia.
    destruct (Z.le_gt_cases d1 prec) as [Hle|Hgt].
    + assert (0 < 2 ^ (prec - d1)) by (apply Z.pow_pos_nonneg; lia).
      destruct (Z.compare_spec (Z.pos p1) (Z.pos p2)) as [Hc|Hc|Hc];
        [rewrite Hc; apply Z.compare_refl|apply Z.compare_lt_iff; nia
        |apply Z.compare_gt_iff; nia].
    + rewrite (Z.pow_neg_r 2 (prec - d1)) in H1 by lia. lia.
  - symmetry. apply Z.compare_lt_iff.
    assert (2 ^ d1 <= 2 ^ (d2 - 1)) by (apply Z.pow_le_mono_r; lia). lia.
  - symmetry. apply Z.compare_gt_iff.
    assert (2 ^ d2 <= 2 ^ (d1 - 1)) by (apply Z.pow_le_mono_r; lia). lia.
Qed.

(** Converted integers compare as the integers do. *)
Lemma sf_compare_of_Z a b :
  sf_small a -> sf_small b ->
  SFcompare (sf_of_Z prec emax a) (sf_of_Z prec emax b) = Some (a ?= b).
Proof.
  intros Ha Hb.
  destruct (sf_of_Z_form a Ha) as [[-> ->]|(p1 & m1 & s1 & -> & -> & Hm1 & Hd1)];
  destruct (sf_of_Z_form b Hb) as [[-> ->]|(p2 & m2 & s2 & -> & -> & Hm2 & Hd2)];
  try (destruct s1); try (destruct s2); try reflexivity; simpl;
  pose proof (finite_compare p1 p2 m1 m2 Hm1 Hm2) as HC; simpl in HC;
  rewrite <- HC; destruct (_ ?= _); reflexivity.
Qed.
Lemma sf_lt_of_Z a b :
  sf_small a -> sf_small b ->
  sf_lt (sf_of_Z prec emax a) (sf_of_Z prec emax b) = (a <? b).
Proof.
  intros. unfold sf_lt, SFltb. rewrite sf_compare_of_Z by auto.
  unfold Z.ltb. destruct (a ?= b); reflexivity.
Qed.

Lemma i64_of_sf_of_Z z :
  prec <= 63 -> sf_small z -> i64_of_sf (sf_of_Z prec emax z) = z.
Proof.
  intros Hp Hz. unfold i64_of_sf. rewrite sf_trunc_of_Z by auto.
  unfold sf_small in Hz.
  assert (2 ^ prec <= 2 ^ 63) by (apply Z.pow_le_mono_r; lia).
  unfold two63. destruct (Z.leb_spec (- 2 ^ 63) z), (Z.ltb_spec z (2 ^ 63));
    simpl; lia.
Qed.
End exactness.

Lemma d_lt_of_Z a b :
  sf_small 53 a -> sf_small 53 b -> sf_lt (d_of_Z a) (d_of_Z b) = (a <? b).
Proof. apply sf_lt_of_Z; lia. Qed.

Lemma d_trunc_of_Z z : sf_small 53 z -> i64_of_sf (d_of_Z z) = z.
Proof. apply i64_of_sf_of_Z; lia. Qed.

Lemma f_lt_of_Z a b :
  sf_small 24 a -> sf_small 24 b -> sf_lt (f_of_Z a) (f_of_Z b) = (a <? b).
Proof. apply sf_lt_of_Z; lia. Qed.

Lemma f_trunc_of_Z z : sf_small 24 z -> i64_of_sf (f_of_Z z) = z.
Proof. apply i64_of_sf_of_Z; lia. Qed.

(** Sanity checks of the arithmetic on exactly representable values and on the
    classical rounding example [0.1 + 0.2]. *)
Example d_add_1_2 : d_add (d_of_Z 1) (d_of_Z 2) = d_of_Z 3.
Proof. reflexivity. Qed.
Example d_div_1_0 : d_div (d_of_Z 1) (d_of_Z 0) = S754_infinity false.
Proof. reflexivity. Qed.
Example d_add_tenths :
  sf_eq (d_add (d_div (d_of_Z 1) (d_of_Z 10)) (d_div (d_of_Z 2) (d_of_Z 10)))
        (d_div (d_of_Z 3) (d_of_Z 10)) = false.
Proof. vm_compute. reflexivity. Qed.

