(* ===== verification/Containers.v ===== *)
(** * Standard-library containers, as interfaces

    [std::priority_queue] and [std::unordered_map] leave something open that the
    code can observe: which of several elements with the same priority is on
    top, and in which order a hash map is walked.  Each container is therefore a
    type class of operations with the laws the C++ standard gives; the
    components are verified against the laws, for every implementation, and the
    instances at the end make the models executable.  Every priority queue
    of the sources orders its elements by a time (smallest on top), so the
    interface is parameterised by an integer key. *)

From S2P Require Import Prelude.

(** ** Interfaces *)

(** [std::priority_queue<A, std::vector<A>, cmp>] with [cmp l r = key l > key r]. *)
Class PriorityQueue (Q : Type -> Type) := {
  pq_empty : forall {A}, Q A;
  pq_push : forall {A} (key : A -> Z), A -> Q A -> Q A;
  (** [top] and [pop] at once; [None] on an empty queue *)
  pq_pop : forall {A} (key : A -> Z), Q A -> option (A * Q A);
  pq_elems : forall {A}, Q A -> list A;
}.

Class PriorityQueueLaws (Q : Type -> Type) `{PriorityQueue Q} : Prop := {
  pq_elems_empty : forall A, pq_elems (pq_empty : Q A) = [];
  pq_elems_push : forall A (key : A -> Z) a (q : Q A),
    pq_elems (pq_push key a q) ≡ₚ a :: pq_elems q;
  pq_pop_None : forall A (key : A -> Z) (q : Q A),
    pq_pop key q = None -> pq_elems q = [];
  pq_pop_Some : forall A (key : A -> Z) (q q' : Q A) a,
    pq_pop key q = Some (a, q') ->
    pq_elems q ≡ₚ a :: pq_elems q'
    /\ Forall (fun b => key a <= key b)%Z (pq_elems q);
}.

(** [std::unordered_map<std::string, A>]. *)
Class UnorderedMap (U : Type -> Type) := {
  um_empty : forall {A}, U A;
  um_find : forall {A}, string -> U A -> option A;
  um_insert : forall {A}, string -> A -> U A -> U A;     (** [m[k] = v] *)
  um_erase : forall {A}, string -> U A -> U A;
  um_items : forall {A}, U A -> list (string * A);       (** iteration order *)
}.

Class UnorderedMapLaws (U : Type -> Type) `{UnorderedMap U} : Prop := {
  um_find_empty : forall A k, um_find k (um_empty : U A) = None;
  um_find_insert : forall A k k' (v : A) (m : U A),
    um_find k' (um_insert k v m) = if decide (k = k') then Some v else um_find k' m;
  um_find_erase : forall A k k' (m : U A),
    um_find k' (um_erase k m) = if decide (k = k') then None else um_find k' m;
  um_items_find : forall A k (v : A) (m : U A),
    (k, v) ∈ um_items m <-> um_find k m = Some v;
  um_items_nodup : forall A (m : U A), NoDup (um_items m).*1;
}.

(** ** Instances *)

Section list_pq.
Context {A : Type} (key : A -> Z).

(** The first element with the smallest key, and the others. *)
Fixpoint select_min (x : A) (l : list A) : A * list A :=
  match l with
  | [] => (x, [])
  | y :: l' =>
      if (key x <=? key y)%Z
      then let '(m, r) := select_min x l' in (m, y :: r)
      else let '(m, r) := select_min y l' in (m, x :: r)
  end.
End list_pq.

(** A queue as the list of its elements in the order they were pushed. *)
Definition heap (A : Type) : Type := list A.
Definition hash_map (A : Type) : Type := gmap string A.

#[export] Instance list_pq : PriorityQueue heap := {|
  pq_empty A := [];
  pq_push A key a q := q ++ [a];
  pq_pop A key q := match q with [] => None | x :: l => Some (select_min key x l) end;
  pq_elems A q := q
|}.

#[export] Instance gmap_umap : UnorderedMap hash_map := {|
  um_empty A := (∅ : gmap string A);
  um_find A k m := (m : gmap string A) !! k;
  um_insert A k v m := <[k := v]> (m : gmap string A);
  um_erase A k m := delete k (m : gmap string A);
  um_items A m := map_to_list (m : gmap string A)
|}.

(** ** The loop [while (!pq.empty() && P(pq.top())) { use(pq.top()); pq.pop(); }]

    The elements popped, in order, and the queue that is left.  Each turn pops
    one element, so [length (pq_elems q)] turns are always enough. *)
Fixpoint pq_loop {Q A} `{PriorityQueue Q} (key : A -> Z) (P : A -> bool)
    (fuel : nat) (q : Q A) : list A * Q A :=
  match fuel with
  | O => ([], q)
  | S fuel' =>
      match pq_pop key q with
      | None => ([], q)
      | Some (a, q') =>
          if P a
          then let '(l, q'') := pq_loop key P fuel' q' in (a :: l, q'')
          else ([], q)
      end
  end.

Definition pq_pop_while {Q A} `{PriorityQueue Q} (key : A -> Z) (P : A -> bool)
    (q : Q A) : list A * Q A := pq_loop key P (length (pq_elems q)) q.

(** Everything, smallest first. *)
Definition pq_drain {Q A} `{PriorityQueue Q} (key : A -> Z) (q : Q A) : list A :=
  (pq_pop_while key (fun _ => true) q).1.

(** ** Lemmas *)

Lemma select_min_perm {A} (key : A -> Z) x l m r :
  select_min key x l = (m, r) -> x :: l ≡ₚ m :: r.
Proof.
  revert x m r. induction l as [|y l IH]; simpl; intros x m r H; [by inv H|].
  destruct (key x <=? key y)%Z;
    [destruct (select_min key x l) as [m' r'] eqn:E
    |destruct (select_min key y l) as [m' r'] eqn:E];
    inv H; specialize (IH _ _ _ E).
  - rewrite (Permutation_swap y x), IH. apply Permutation_swap.
  - rewrite IH. apply Permutation_swap.
Qed.

Lemma select_min_le {A} (key : A -> Z) x l m r :
  select_min key x l = (m, r) -> Forall (fun b => key m <= key b)%Z (x :: l).
Proof.
  revert x m r. induction l as [|y l IH]; simpl; intros x m r H.
  { inv H. repeat constructor. lia. }
  destruct (key x <=? key y)%Z eqn:Hc;
    [destruct (select_min key x l) as [m' r'] eqn:E
    |destruct (select_min key y l) as [m' r'] eqn:E];
    inv H; pose proof (IH _ _ _ E) as HF; inv HF; repeat constructor; auto; blia.
Qed.

#[export] Instance list_pq_laws : PriorityQueueLaws heap.
Proof.
  constructor; simpl; intros.
  - reflexivity.
  - by rewrite Permutation_app_comm.
  - by destruct q.
  - destruct q as [|x l]; [discriminate|].
    destruct (select_min key x l) as [m r] eqn:E. inv H.
    split; [by eapply select_min_perm|by eapply select_min_le].
Qed.

#[export] Instance gmap_umap_laws : UnorderedMapLaws hash_map.
Proof.
  constructor; simpl; intros.
  - apply lookup_empty.
  - apply lookup_insert.
  - apply lookup_delete.
  - apply elem_of_map_to_list.
  - apply NoDup_fst_map_to_list.
Qed.

(** ** What the popping loop does *)

Section pq_loop_facts.
Context {Q : Type -> Type} `{PriorityQueueLaws Q} {A : Type} (key : A -> Z).

Lemma pq_loop_spec (P : A -> bool) fuel (q : Q A) l q' :
  (length (pq_elems q) <= fuel)%nat ->
  (forall a b, key a <= key b -> P b = true -> P a = true)%Z ->
  pq_loop key P fuel q = (l, q') ->
  pq_elems q ≡ₚ l ++ pq_elems q'
  /\ Forall (fun a => P a = true) l
  /\ Forall (fun a => P a = false) (pq_elems q')
  /\ StronglySorted (fun a b => key a <= key b)%Z l.
Proof.
  intros Hfuel HP. revert q l q' Hfuel.
  induction fuel as [|fuel IH]; simpl; intros q l q' Hfuel Hl.
  { inv Hl. destruct (pq_elems q'); [|simpl in Hfuel; lia].
    repeat split; constructor. }
  destruct (pq_pop key q) as [[a q1]|] eqn:E.
  2:{ inv Hl. rewrite (pq_pop_None _ _ _ E). repeat split; constructor. }
  apply pq_pop_Some in E as [Hperm Hmin].
  destruct (P a) eqn:HPa.
  - destruct (pq_loop key P fuel q1) as [l1 q2] eqn:El. inv Hl.
    destruct (IH q1 l1 q') as (H1 & H2 & H3 & H4); auto.
    { apply Permutation_length in Hperm. simpl in Hperm. lia. }
    repeat split; auto.
    + by rewrite Hperm, H1.
    + constructor; auto. rewrite Hperm, H1 in Hmin.
      by apply Forall_inv_tail, Forall_app in Hmin as [? _].
  - inv Hl. split; [done|]. split; [constructor|]. split; [|constructor].
    revert Hmin. apply Forall_impl. intros b Hb.
    destruct (P b) eqn:Hb'; auto. by rewrite (HP a b Hb Hb') in HPa.
Qed.

Lemma pq_pop_while_spec (P : A -> bool) (q : Q A) l q' :
  (forall a b, key a <= key b -> P b = true -> P a = true)%Z ->
  pq_pop_while key P q = (l, q') ->
  pq_elems q ≡ₚ l ++ pq_elems q'
  /\ Forall (fun a => P a = true) l
  /\ Forall (fun a => P a = false) (pq_elems q')
  /\ StronglySorted (fun a b => key a <= key b)%Z l.
Proof. intros HP Hl. by apply (pq_loop_spec P (length (pq_elems q)) q). Qed.

(** The loop splits the elements by the condition. *)
Lemma pq_pop_while_filter (P : A -> bool) (q : Q A) l q' :
  (forall a b, key a <= key b -> P b = true -> P a = true)%Z ->
  pq_pop_while key P q = (l, q') ->
  l ≡ₚ filter (fun a => P a = true) (pq_elems q)
  /\ pq_elems q' ≡ₚ filter (fun a => P a = false) (pq_elems q)
  /\ StronglySorted (fun a b => key a <= key b)%Z l.
Proof.
  intros HP Hl. apply pq_pop_while_spec in Hl as (H1 & H2 & H3 & H4); [|done].
  rewrite H1, !list.filter_app, (filter_all _ l H2), (filter_all _ (pq_elems q') H3).
  rewrite (filter_none (fun a => P a = true) (pq_elems q')), app_nil_r,
    (filter_none (fun a => P a = false) l); [done| |].
  - revert H2. apply Forall_impl. by intros a ->.
  - revert H3. apply Forall_impl. by intros a ->.
Qed.

Lemma pq_drain_perm (q : Q A) : pq_drain key q ≡ₚ pq_elems q.
Proof.
  unfold pq_drain. destruct (pq_pop_while key (fun _ => true) q) as [l q'] eqn:E.
  apply pq_pop_while_spec in E as (H1 & _ & H3 & _); [|done]. simpl.
  destruct (pq_elems q') as [|a r]; [by rewrite H1, app_nil_r|]. by inv H3.
Qed.

Lemma pq_drain_sorted (q : Q A) :
  StronglySorted (fun a b => key a <= key b)%Z (pq_drain key q).
Proof.
  unfold pq_drain. destruct (pq_pop_while key (fun _ => true) q) as [l q'] eqn:E.
  by apply pq_pop_while_spec in E as (_ & _ & _ & H4).
Qed.
End pq_loop_facts.

(** ** Hash maps as finite maps *)

Section um_facts.
Context {U : Type -> Type} `{UnorderedMapLaws U}.

(** The hash map represents the finite map. *)
Definition um_rep {A} (m : U A) (g : gmap string A) : Prop :=
  forall k, um_find k m = g !! k.

Lemma um_items_perm {A} (m : U A) g : um_rep m g -> um_items m ≡ₚ map_to_list g.
Proof.
  intros Hg. apply NoDup_Permutation.
  - eapply NoDup_fmap_1, um_items_nodup.
  - apply NoDup_map_to_list.
  - intros [k v]. by rewrite um_items_find, elem_of_map_to_list, Hg.
Qed.

Lemma um_find_erase_all {A} (ks : list string) (m : U A) k :
  um_find k (foldl (fun m k => um_erase k m) m ks) =
  if decide (k ∈ ks) then None else um_find k m.
Proof.
  revert m. induction ks as [|k' ks IH]; intros m; cbn [foldl].
  { by rewrite decide_False by (apply not_elem_of_nil). }
  rewrite IH, um_find_erase.
  destruct (decide (k ∈ ks)) as [Hin|Hin].
  { by rewrite decide_True by (by right). }
  destruct (decide (k' = k)) as [He|He].
  - by rewrite decide_True by (subst; left).
  - rewrite decide_False; [done|]. rewrite elem_of_cons. intros [?|?]; congruence.
Qed.
End um_facts.
