(* ===== verification/Events.v ===== *)
(** * Events

    [src/proto.proto] (message [Event] and [Attribute]), the wrapper class of
    [include/common/event.h] and [src/common/event.cpp], and the field setters
    [set_event_value] of [src/util/util.cpp].  An optional protobuf field is an
    [option]; reading an unset field gives the protobuf default ([""], [0]). *)

From S2P Require Import Prelude Ieee.

(** ** The protobuf message *)

(** [message Attribute]: a required key and an optional value. *)
Record Attribute : Type := MkAttribute {
  a_key : string;
  a_value : option string
}.

(** [message Event]. *)
Record riemann_Event : Type := MkEvent {
  p_time : option Z;
  p_state : option string;
  p_service : option string;
  p_host : option string;
  p_description : option string;
  p_tags : list string;
  p_ttl : option float;
  p_attributes : list Attribute;
  p_metric_sint64 : option Z;
  p_metric_d : option double;
  p_metric_f : option float
}.

#[export] Instance Attribute_eq_dec : EqDecision Attribute.
Proof. solve_decision. Defined.
#[export] Instance riemann_Event_eq_dec : EqDecision riemann_Event.
Proof. solve_decision. Defined.

(** The class [Event] holds one message, [event_]. *)
Abbreviation Event := riemann_Event (only parsing).

Definition k_default_metric : double := d_zero.
Definition k_empty_value : string := "nil".

Module Event.

(** The default constructor: no field set. *)
Definition empty : Event := MkEvent None None None None None [] None [] None None None.

Definition copy (e : Event) : Event := e.

(** *** String fields *)

Definition host (e : Event) : string := default "" (p_host e).
Definition set_host (v : string) (e : Event) : Event :=
  MkEvent (p_time e) (p_state e) (p_service e) (Some v) (p_description e) (p_tags e)
    (p_ttl e) (p_attributes e) (p_metric_sint64 e) (p_metric_d e) (p_metric_f e).
Definition has_host (e : Event) : bool := bool_decide (is_Some (p_host e)).
Definition clear_host (e : Event) : Event :=
  MkEvent (p_time e) (p_state e) (p_service e) None (p_description e) (p_tags e)
    (p_ttl e) (p_attributes e) (p_metric_sint64 e) (p_metric_d e) (p_metric_f e).

Definition service (e : Event) : string := default "" (p_service e).
Definition set_service (v : string) (e : Event) : Event :=
  MkEvent (p_time e) (p_state e) (Some v) (p_host e) (p_description e) (p_tags e)
    (p_ttl e) (p_attributes e) (p_metric_sint64 e) (p_metric_d e) (p_metric_f e).
Definition has_service (e : Event) : bool := bool_decide (is_Some (p_service e)).
Definition clear_service (e : Event) : Event :=
  MkEvent (p_time e) (p_state e) None (p_host e) (p_description e) (p_tags e)
    (p_ttl e) (p_attributes e) (p_metric_sint64 e) (p_metric_d e) (p_metric_f e).

Definition state (e : Event) : string := default "" (p_state e).
Definition set_state (v : string) (e : Event) : Event :=
  MkEvent (p_time e) (Some v) (p_service e) (p_host e) (p_description e) (p_tags e)
    (p_ttl e) (p_attributes e) (p_metric_sint64 e) (p_metric_d e) (p_metric_f e).
Definition has_state (e : Event) : bool := bool_decide (is_Some (p_state e)).
Definition clear_state (e : Event) : Event :=
  MkEvent (p_time e) None (p_service e) (p_host e) (p_description e) (p_tags e)
    (p_ttl e) (p_attributes e) (p_metric_sint64 e) (p_metric_d e) (p_metric_f e).

Definition description (e : Event) : string := default "" (p_description e).
Definition set_description (v : string) (e : Event) : Event :=
  MkEvent (p_time e) (p_state e) (p_service e) (p_host e) (Some v) (p_tags e)
    (p_ttl e) (p_attributes e) (p_metric_sint64 e) (p_metric_d e) (p_metric_f e).
Definition has_description (e : Event) : bool := bool_decide (is_Some (p_description e)).
Definition clear_description (e : Event) : Event :=
  MkEvent (p_time e) (p_state e) (p_service e) (p_host e) None (p_tags e)
    (p_ttl e) (p_attributes e) (p_metric_sint64 e) (p_metric_d e) (p_metric_f e).

(** *** Time and ttl *)

Definition time (e : Event) : Z := default 0%Z (p_time e).
Definition set_time (v : Z) (e : Event) : Event :=
  MkEvent (Some v) (p_state e) (p_service e) (p_host e) (p_description e) (p_tags e)
    (p_ttl e) (p_attributes e) (p_metric_sint64 e) (p_metric_d e) (p_metric_f e).
Definition has_time (e : Event) : bool := bool_decide (is_Some (p_time e)).
Definition clear_time (e : Event) : Event :=
  MkEvent None (p_state e) (p_service e) (p_host e) (p_description e) (p_tags e)
    (p_ttl e) (p_attributes e) (p_metric_sint64 e) (p_metric_d e) (p_metric_f e).

Definition ttl (e : Event) : float := default (S754_zero false) (p_ttl e).
Definition set_ttl (v : float) (e : Event) : Event :=
  MkEvent (p_time e) (p_state e) (p_service e) (p_host e) (p_description e) (p_tags e)
    (Some v) (p_attributes e) (p_metric_sint64 e) (p_metric_d e) (p_metric_f e).
Definition has_ttl (e : Event) : bool := bool_decide (is_Some (p_ttl e)).
Definition clear_ttl (e : Event) : Event :=
  MkEvent (p_time e) (p_state e) (p_service e) (p_host e) (p_description e) (p_tags e)
    None (p_attributes e) (p_metric_sint64 e) (p_metric_d e) (p_metric_f e).

(** *** The three metric fields *)

(** [clear_metrics] of the anonymous namespace. *)
Definition clear_metrics (e : Event) : Event :=
  MkEvent (p_time e) (p_state e) (p_service e) (p_host e) (p_description e) (p_tags e)
    (p_ttl e) (p_attributes e) None None None.

(** [metric()] looks at [metric_f], then [metric_sint64], then [metric_d]. *)
Definition metric (e : Event) : double :=
  match p_metric_f e with
  | Some f => d_of_f f
  | None =>
      match p_metric_sint64 e with
      | Some i => d_of_Z i
      | None => match p_metric_d e with Some d => d | None => k_default_metric end
      end
  end.

(** [metric_f()] returns [event_.has_metric_f()], as the source has it. *)
Definition metric_f (e : Event) : float :=
  if bool_decide (is_Some (p_metric_f e)) then f_of_Z 1 else f_of_Z 0.
Definition set_metric_f (v : float) (e : Event) : Event :=
  MkEvent (p_time e) (p_state e) (p_service e) (p_host e) (p_description e) (p_tags e)
    (p_ttl e) (p_attributes e) (p_metric_sint64 e) (p_metric_d e) (Some v).
Definition has_metric_f (e : Event) : bool := bool_decide (is_Some (p_metric_f e)).
Definition clear_metric_f (e : Event) : Event :=
  MkEvent (p_time e) (p_state e) (p_service e) (p_host e) (p_description e) (p_tags e)
    (p_ttl e) (p_attributes e) (p_metric_sint64 e) (p_metric_d e) None.

(** [metric_d()] is declared [float]: the double is narrowed. *)
Definition metric_d (e : Event) : float := f_of_d (default d_zero (p_metric_d e)).
Definition set_metric_d (v : double) (e : Event) : Event :=
  MkEvent (p_time e) (p_state e) (p_service e) (p_host e) (p_description e) (p_tags e)
    (p_ttl e) (p_attributes e) (p_metric_sint64 e) (Some v) (p_metric_f e).
Definition has_metric_d (e : Event) : bool := bool_decide (is_Some (p_metric_d e)).
Definition clear_metric_d (e : Event) : Event :=
  MkEvent (p_time e) (p_state e) (p_service e) (p_host e) (p_description e) (p_tags e)
    (p_ttl e) (p_attributes e) (p_metric_sint64 e) None (p_metric_f e).

Definition metric_sint64 (e : Event) : Z := default 0%Z (p_metric_sint64 e).
Definition set_metric_sint64 (v : Z) (e : Event) : Event :=
  MkEvent (p_time e) (p_state e) (p_service e) (p_host e) (p_description e) (p_tags e)
    (p_ttl e) (p_attributes e) (Some v) (p_metric_d e) (p_metric_f e).
Definition has_metric_sint64 (e : Event) : bool :=
  bool_decide (is_Some (p_metric_sint64 e)).
Definition clear_metric_sint64 (e : Event) : Event :=
  MkEvent (p_time e) (p_state e) (p_service e) (p_host e) (p_description e) (p_tags e)
    (p_ttl e) (p_attributes e) None (p_metric_d e) (p_metric_f e).

Definition set_metric (v : double) (e : Event) : Event := set_metric_d v (clear_metrics e).
Definition has_metric (e : Event) : bool :=
  has_metric_f e || has_metric_d e || has_metric_sint64 e.
Definition metric_to_str (e : Event) : string :=
  if has_metric e then d_to_string (metric e) else k_empty_value.
Definition clear_metric (e : Event) : Event := clear_metrics e.

(** *** Tags *)

Fixpoint in_tags (tag : string) (tags : list string) : bool :=
  match tags with
  | [] => false
  | t :: ts => if decide (t = tag) then true else in_tags tag ts
  end.
Definition has_tag (tag : string) (e : Event) : bool := in_tags tag (p_tags e).
Definition set_tags (l : list string) (e : Event) : Event :=
  MkEvent (p_time e) (p_state e) (p_service e) (p_host e) (p_description e) l
    (p_ttl e) (p_attributes e) (p_metric_sint64 e) (p_metric_d e) (p_metric_f e).
Definition add_tag (tag : string) (e : Event) : Event := set_tags (p_tags e ++ [tag]) e.
Definition clear_tags (e : Event) : Event := set_tags [] e.

(** *** Attributes *)

Fixpoint find_attr (k : string) (l : list Attribute) : option Attribute :=
  match l with
  | [] => None
  | a :: l' => if decide (a_key a = k) then Some a else find_attr k l'
  end.
Definition has_attr (k : string) (e : Event) : bool :=
  bool_decide (is_Some (find_attr k (p_attributes e))).
Definition attr (k : string) (e : Event) : string :=
  match find_attr k (p_attributes e) with
  | Some a => default "" (a_value a)
  | None => k_empty_value
  end.
Definition set_attributes (l : list Attribute) (e : Event) : Event :=
  MkEvent (p_time e) (p_state e) (p_service e) (p_host e) (p_description e) (p_tags e)
    (p_ttl e) l (p_metric_sint64 e) (p_metric_d e) (p_metric_f e).
Definition overwrite_attr (k v : string) (a : Attribute) : Attribute :=
  if decide (a_key a = k) then MkAttribute (a_key a) (Some v) else a.
(** Every attribute with the key is overwritten; without one, it is appended. *)
Definition set_attr (k v : string) (e : Event) : Event :=
  if has_attr k e
  then set_attributes (map (overwrite_attr k v) (p_attributes e)) e
  else set_attributes (p_attributes e ++ [MkAttribute k (Some v)]) e.
Definition attrs (e : Event) : list (string * string) :=
  (fun a => (a_key a, default "" (a_value a))) <$> p_attributes e.
Definition clear_attrs (e : Event) : Event := set_attributes [] e.

(** *** Access by field name *)

Definition value_to_str (key : string) (e : Event) : string :=
  if decide (key = "host") then host e
  else if decide (key = "service") then service e
  else if decide (key = "description") then description e
  else if decide (key = "state") then state e
  else if has_attr key e then attr key e
  else k_empty_value.

Definition has_field_set (key : string) (e : Event) : bool :=
  if decide (key = "host") then has_host e
  else if decide (key = "service") then has_service e
  else if decide (key = "description") then has_description e
  else if decide (key = "state") then has_state e
  else if decide (key = "metric") then has_metric e
  else if decide (key = "ttl") then has_ttl e
  else has_attr key e.

End Event.

(** ** JSON view

    [json_str()] builds a [Json::Value] object and prints it with JsonCpp's
    [toStyledString()], which is a parameter.  Object members are assigned with
    [event[name] = v], so a later assignment to the same name wins. *)

Inductive jvalue : Type :=
| JString (s : string)
| JUInt64 (z : Z)
| JDouble (d : double)
| JStrings (l : list string).

Section json.
Variable toStyledString : gmap string jvalue -> string.

Definition json_opt (b : bool) (k : string) (v : jvalue) (o : gmap string jvalue)
  : gmap string jvalue := if b then <[k := v]> o else o.

Definition json_attr (o : gmap string jvalue) (a : Attribute) : gmap string jvalue :=
  match a_value a with Some v => <[a_key a := JString v]> o | None => o end.

Definition json_value (e : Event) : gmap string jvalue :=
  let o := json_opt (Event.has_host e) "host" (JString (Event.host e)) ∅ in
  let o := json_opt (Event.has_service e) "service" (JString (Event.service e)) o in
  let o := json_opt (Event.has_description e) "description"
             (JString (Event.description e)) o in
  let o := json_opt (Event.has_state e) "state" (JString (Event.state e)) o in
  let o := json_opt (Event.has_time e) "time" (JUInt64 (Event.time e mod two64)) o in
  let o := json_opt (Event.has_metric e) "metric" (JDouble (Event.metric e)) o in
  let o := foldl json_attr o (p_attributes e) in
  json_opt (bool_decide (0 < length (p_tags e))%nat) "tags" (JStrings (p_tags e)) o.

Definition json_str (e : Event) : string := toStyledString (json_value e).
End json.

(** ** [set_event_value]

    Four overloads; the last one takes a [boost::variant]. *)

Inductive change_value_t : Type :=
| CVString (s : string)
| CVInt (i : Z)
| CVDouble (d : double).

Definition set_event_value_string (key value : string) (replace : bool) (e : Event) : Event :=
  if decide (key = "host") then
    if replace || negb (Event.has_host e) then Event.set_host value e else e
  else if decide (key = "service") then
    if replace || negb (Event.has_service e) then Event.set_service value e else e
  else if decide (key = "description") then
    if replace || negb (Event.has_description e) then Event.set_description value e else e
  else if decide (key = "state") then
    if replace || negb (Event.has_state e) then Event.set_state value e else e
  else Event.set_attr key value e.

(** An unknown key is only logged. *)
Definition set_event_value_int (key : string) (value : Z) (replace : bool) (e : Event) : Event :=
  if decide (key = "metric") then
    if replace then Event.set_metric_sint64 value (Event.clear_metric e)
    else if negb (Event.has_metric e) then Event.set_metric_sint64 value e else e
  else if decide (key = "ttl") then
    if replace || negb (Event.has_ttl e) then Event.set_ttl (f_of_Z value) e else e
  else if decide (key = "time") then
    if replace || negb (Event.has_time e) then Event.set_time value e else e
  else e.

Definition set_event_value_double (key : string) (value : double) (replace : bool)
    (e : Event) : Event :=
  if decide (key = "metric") then
    if replace then
      Event.set_metric_d value (Event.clear_metric_f (Event.clear_metric_sint64 e))
    else if negb (Event.has_metric e) then Event.set_metric_d value e else e
  else e.

Definition set_event_value (key : string) (val : change_value_t) (replace : bool)
    (e : Event) : Event :=
  match val with
  | CVString s => set_event_value_string key s replace e
  | CVInt i => set_event_value_int key i replace e
  | CVDouble d => set_event_value_double key d replace e
  end.

(** ** Lemmas *)

Lemma in_tags_spec t l : Event.in_tags t l = true <-> t ∈ l.
Proof.
  induction l as [|x l IH]; simpl.
  - split; [discriminate|by intros ?%not_elem_of_nil].
  - rewrite elem_of_cons, <- IH. case_decide as E; [|split; [by right|by intros [->|?]]].
    subst. split; auto.
Qed.

Lemma has_tag_spec t e : Event.has_tag t e = true <-> t ∈ p_tags e.
Proof. apply in_tags_spec. Qed.

Lemma find_attr_app k l1 l2 :
  Event.find_attr k (l1 ++ l2) =
  match Event.find_attr k l1 with Some a => Some a | None => Event.find_attr k l2 end.
Proof. induction l1 as [|a l1 IH]; simpl; [done|]. by case_decide. Qed.

Lemma find_attr_overwrite k k' v l :
  Event.find_attr k' (map (Event.overwrite_attr k v) l)
  = if decide (k = k')
    then (fun a => MkAttribute (a_key a) (Some v)) <$> Event.find_attr k' l
    else Event.find_attr k' l.
Proof.
  induction l as [|a l IH]; simpl.
  - by case_decide.
  - rewrite IH. unfold Event.overwrite_attr.
    destruct (decide (a_key a = k)), (decide (k = k')); simpl;
      case_decide; simpl; congruence.
Qed.

(** [set_attr] is an update of the attribute map, whatever duplicates it holds. *)
Lemma attr_set_attr k v k' e :
  Event.attr k' (Event.set_attr k v e) = if decide (k = k') then v else Event.attr k' e.
Proof.
  unfold Event.set_attr, Event.has_attr, Event.attr.
  case_bool_decide as Hs; simpl.
  - rewrite find_attr_overwrite. case_decide as E; [|done]. subst.
    destruct Hs as [a ->]. done.
  - rewrite find_attr_app. apply eq_None_not_Some in Hs. simpl.
    case_decide; [subst; by rewrite Hs|]. by destruct (Event.find_attr k' _).
Qed.

Lemma has_attr_set_attr k v k' e :
  Event.has_attr k' (Event.set_attr k v e)
  = (bool_decide (k = k') || Event.has_attr k' e).
Proof.
  unfold Event.set_attr. destruct (Event.has_attr k e) eqn:E.
  - unfold Event.has_attr in *. simpl. rewrite find_attr_overwrite.
    case_decide; [subst|by rewrite (bool_decide_eq_false_2 (k = k')) by done].
    rewrite E, orb_true_r. apply bool_decide_eq_true in E as [a ->].
    by rewrite bool_decide_eq_true_2 by (simpl; eauto).
  - unfold Event.has_attr in *. simpl. rewrite find_attr_app. simpl.
    destruct (Event.find_attr k' (p_attributes e)) eqn:E'.
    + rewrite bool_decide_eq_true_2 by eauto. by rewrite orb_true_r.
    + rewrite (bool_decide_eq_false_2 (is_Some None)) by apply is_Some_None.
      rewrite orb_false_r. apply bool_decide_ext.
      case_decide; split; intros Hx; try done; by destruct Hx.
Qed.

Lemma metric_set_metric m e : Event.metric (Event.set_metric m e) = m.
Proof. reflexivity. Qed.

Lemma time_set_time t e : Event.time (Event.set_time t e) = t.
Proof. reflexivity. Qed.

#[export] Hint Rewrite attr_set_attr has_attr_set_attr metric_set_metric time_set_time : cavrw.
