(* ===== verification/Folds.v ===== *)
(** * Fold functions

    [src/folds/folds.cpp]: the functions that reduce a window of events to one
    event.  Metrics are doubles; the time of the result is computed as a double
    too ([max_time] returns [double]) and converted back to [int64_t]. *)

From S2P Require Import Prelude Ieee Events.

Local Open Scope Z_scope.

(** [fold_fn_t]: a fold may throw or read out of range. *)
Abbreviation fold_fn_t := (list Event -> result Event).
Abbreviation reduce_fn_t := (double -> double -> double).

(** ** The functions *)

Module Folds.

(** [reduce] reads [events[0]] and folds the rest. *)
Definition reduce (f : reduce_fn_t) (events : list Event) : result double :=
  match events with
  | [] => Throw undefined_behaviour
  | e :: es => Ok (foldl (fun t x => f t (Event.metric x)) (Event.metric e) es)
  end.

Definition sum_fn (x y : double) : double := d_add x y.
Definition product_fn (x y : double) : double := d_mul x y.
Definition difference_fn (x y : double) : double := d_sub x y.

Definition max_time_step (t : double) (e : Event) : double :=
  if sf_gt (d_of_Z (Event.time e)) t then d_of_Z (Event.time e) else t.
Definition max_time (events : list Event) : double := foldl max_time_step d_zero events.

Definition fold (f : reduce_fn_t) (events : list Event) : result Event :=
  match events with
  | [] => Ok Event.empty
  | front :: _ =>
      res_map (fun m => Event.set_time (i64_of_sf (max_time events))
                          (Event.set_metric m (Event.copy front)))
        (reduce f events)
  end.

Definition sum : fold_fn_t := fold sum_fn.
Definition product : fold_fn_t := fold product_fn.
Definition difference : fold_fn_t := fold difference_fn.

(** [mean], [minimum] and [maximum] write [metric_d] without clearing the other
    two metric fields of the copied event. *)
Definition mean (events : list Event) : result Event :=
  match events with
  | [] => Ok Event.empty
  | front :: _ =>
      res_map (fun s =>
          Event.set_time (i64_of_sf (max_time events))
            (Event.set_metric_d (d_div s (d_of_Z (Z.of_nat (length events)))) front))
        (reduce sum_fn events)
  end.

Definition min_step (m : double) (e : Event) : double :=
  if sf_lt (Event.metric e) m then Event.metric e else m.
Definition max_step (m : double) (e : Event) : double :=
  if sf_gt (Event.metric e) m then Event.metric e else m.

Definition minimum (events : list Event) : result Event :=
  match events with
  | [] => Ok Event.empty
  | front :: _ =>
      Ok (Event.set_time (i64_of_sf (max_time events))
            (Event.set_metric_d (foldl min_step (Event.metric front) events) front))
  end.

Definition maximum (events : list Event) : result Event :=
  match events with
  | [] => Ok Event.empty
  | front :: _ =>
      Ok (Event.set_time (i64_of_sf (max_time events))
            (Event.set_metric_d (foldl max_step (Event.metric front) events) front))
  end.

Definition count (events : list Event) : result Event :=
  match events with
  | [] => Ok Event.empty
  | front :: _ =>
      Ok (Event.set_time (i64_of_sf (max_time events))
            (Event.set_metric (d_of_Z (Z.of_nat (length events))) (Event.copy front)))
  end.

End Folds.

(** ** Lemmas *)

(** The latest time of a window, 0 for an empty one. *)
Definition latest (events : list Event) : Z :=
  foldl (fun t e => Z.max t (Event.time e)) 0 events.

(** Times that a double represents exactly. *)
Definition times_exact (events : list Event) : Prop :=
  Forall (fun e => sf_small 53 (Event.time e)) events.

Lemma max_time_acc t events :
  sf_small 53 t -> times_exact events ->
  foldl Folds.max_time_step (d_of_Z t) events
  = d_of_Z (foldl (fun t e => Z.max t (Event.time e)) t events)
  /\ sf_small 53 (foldl (fun t e => Z.max t (Event.time e)) t events).
Proof.
  intros Ht Hes. revert t Ht. induction Hes as [|e es He Hes IH]; simpl; intros t Ht.
  { done. }
  unfold Folds.max_time_step at 2. unfold sf_gt. fold (sf_lt (d_of_Z t) (d_of_Z (Event.time e))).
  rewrite d_lt_of_Z by done. destruct (Z.ltb_spec t (Event.time e)).
  - rewrite Z.max_r by lia. auto.
  - rewrite Z.max_l by lia. auto.
Qed.

Lemma max_time_exact events :
  times_exact events -> i64_of_sf (Folds.max_time events) = latest events.
Proof.
  intros H. destruct (max_time_acc 0 events) as [E Hs]; [|done|].
  - unfold sf_small. lia.
  - unfold Folds.max_time. change d_zero with (d_of_Z 0). rewrite E.
    by apply d_trunc_of_Z.
Qed.

Lemma latest_ge events t :
  t <= foldl (fun t e => Z.max t (Event.time e)) t events.
Proof.
  revert t. induction events as [|e es IH]; simpl; intros t; [lia|].
  specialize (IH (Z.max t (Event.time e))). lia.
Qed.

(** A running extremum: [R x y] reads "[x] is at least as extreme as [y]". *)
Section extremum.
Context (R : double -> double -> Prop) (step : double -> Event -> double).
Context (R_trans : forall x y z, R x y -> R y z -> R x z).
Context (step_spec : forall m e,
  is_nan m = false -> is_nan (Event.metric e) = false ->
  R (step m e) m /\ R (step m e) (Event.metric e)
  /\ is_nan (step m e) = false
  /\ (step m e = m \/ step m e = Event.metric e)).

Lemma foldl_extremum m events :
  is_nan m = false -> Forall (fun e => is_nan (Event.metric e) = false) events ->
  let r := foldl step m events in
  (R r m \/ r = m) /\ Forall (fun e => R r (Event.metric e)) events
  /\ (r = m \/ r ∈ Event.metric <$> events).
Proof.
  intros Hm Hes. revert m Hm.
  induction Hes as [|e es He Hes IH]; cbn [foldl]; intros m Hm; [by auto|].
  destruct (step_spec m e Hm He) as (H1 & H2 & H3 & H4).
  destruct (IH (step m e) H3) as (I1 & I2 & I3). cbn zeta.
  set (r := foldl step (step m e) es) in *. rewrite fmap_cons, elem_of_cons.
  assert (Htr : forall y, R (step m e) y -> R r y).
  { intros y Hy. destruct I1 as [I1|I1]; [eauto|by rewrite I1]. }
  split; [left; auto|]. split; [constructor; auto|].
  destruct I3 as [I3|I3]; [|by auto]. rewrite I3. destruct H4 as [H4|H4]; rewrite H4; auto.
Qed.
End extremum.

Lemma min_step_spec m e :
  is_nan m = false -> is_nan (Event.metric e) = false ->
  sf_le (Folds.min_step m e) m = true
  /\ sf_le (Folds.min_step m e) (Event.metric e) = true
  /\ is_nan (Folds.min_step m e) = false
  /\ (Folds.min_step m e = m \/ Folds.min_step m e = Event.metric e).
Proof.
  intros Hm He. unfold Folds.min_step.
  destruct (sf_lt (Event.metric e) m) eqn:E.
  - repeat split; auto using sf_le_refl, sf_lt_le.
  - repeat split; auto using sf_le_refl.
    destruct (sf_le_total m (Event.metric e)) as [H|H]; congruence.
Qed.

Lemma max_step_spec m e :
  is_nan m = false -> is_nan (Event.metric e) = false ->
  sf_le m (Folds.max_step m e) = true
  /\ sf_le (Event.metric e) (Folds.max_step m e) = true
  /\ is_nan (Folds.max_step m e) = false
  /\ (Folds.max_step m e = m \/ Folds.max_step m e = Event.metric e).
Proof.
  intros Hm He. unfold Folds.max_step, sf_gt.
  fold (sf_lt m (Event.metric e)). destruct (sf_lt m (Event.metric e)) eqn:E.
  - repeat split; auto using sf_le_refl, sf_lt_le.
  - repeat split; auto using sf_le_refl.
    destruct (sf_le_total (Event.metric e) m) as [H|H]; congruence.
Qed.

(** ** Properties *)

(** A window without NaN metrics. *)
Definition metrics_ordered (events : list Event) : Prop :=
  Forall (fun e => is_nan (Event.metric e) = false) events.

(** [sum] on a non-empty window returns the first event with its metric
    replaced by the left-to-right double sum of all metrics and its time by the
    latest time of the window; no other field changes.  The times must be ones a
    double represents exactly, because [max_time] goes through [double]. *)
Theorem sum_spec (e : Event) (es : list Event) :
  times_exact (e :: es) ->
  Folds.sum (e :: es)
  = Ok (Event.set_time (latest (e :: es))
          (Event.set_metric
             (foldl d_add (Event.metric e) (Event.metric <$> es)) e)).
Proof.
  intros H. unfold Folds.sum, Folds.fold. cbn [Folds.reduce res_map].
  rewrite max_time_exact by done. do 3 f_equal.
  generalize (Event.metric e). clear. induction es as [|x es IH]; simpl; auto.
Qed.

Lemma sum_spec_witness :
  let e := Event.set_time 7 (Event.set_metric (d_of_Z 2) Event.empty) in
  let e' := Event.set_time 9 (Event.set_metric (d_of_Z 3) Event.empty) in
  times_exact [e; e'] /\
  Folds.sum [e; e'] = Ok (Event.set_time 9 (Event.set_metric (d_of_Z 5) e)).
Proof.
  intros e e'.
  assert (H : times_exact [e; e']) by (repeat constructor; vm_compute; congruence).
  split; [exact H|]. rewrite (sum_spec e [e'] H). reflexivity.
Defined.

(** [minimum] is a lower bound of the window's metrics and one of them, when
    no metric is NaN. *)
Theorem minimum_spec (e : Event) (es : list Event) (r : Event) (m : double) :
  metrics_ordered (e :: es) ->
  Folds.minimum (e :: es) = Ok r -> p_metric_d r = Some m ->
  Forall (fun x => sf_le m (Event.metric x) = true) (e :: es)
  /\ m ∈ Event.metric <$> e :: es.
Proof.
  intros Hn [= <-] [= <-].
  destruct (foldl_extremum (fun x y => sf_le x y = true) Folds.min_step)
    with (m := Event.metric e) (events := e :: es) as (_ & H2 & H3);
    eauto using sf_le_trans, min_step_spec.
  { by inv Hn. }
  split; [exact H2|]. cbn [foldl] in H3.
  destruct H3 as [->|H3]; [by left|exact H3].
Qed.

Lemma minimum_spec_witness :
  let e := Event.set_metric (d_of_Z 5) Event.empty in
  let e' := Event.set_metric (d_of_Z 3) Event.empty in
  exists r, Folds.minimum [e; e'] = Ok r
    /\ p_metric_d r = Some (d_of_Z 3)
    /\ Forall (fun x => sf_le (d_of_Z 3) (Event.metric x) = true) [e; e'].
Proof.
  intros e e'. eexists. split; [reflexivity|]. split; [reflexivity|].
  refine (proj1 (minimum_spec e [e'] _ (d_of_Z 3) _ eq_refl _)).
  - repeat constructor.
  - reflexivity.
Defined.

(** [mean], [minimum] and [maximum] are lost on a window whose first event
    carries [metric_f] or [metric_sint64]: they store their result in [metric_d]
    and leave the old field in place, which [metric()] prefers, so the metric a
    client reads is that of the first event. *)
Theorem mean_min_max_stale (f : fold_fn_t) (e : Event) (es : list Event) (r : Event) :
  f ∈ [Folds.mean; Folds.minimum; Folds.maximum] ->
  Event.has_metric_f e || Event.has_metric_sint64 e = true ->
  f (e :: es) = Ok r ->
  Event.metric r = Event.metric e.
Proof.
  intros Hf He Hr.
  assert (Hset : forall t d, Event.metric (Event.set_time t (Event.set_metric_d d e))
                             = Event.metric e).
  { intros t d. unfold Event.has_metric_f, Event.has_metric_sint64 in He.
    destruct e as [? ? ? ? ? ? ? ? [] ? []]; try reflexivity. done. }
  rewrite !elem_of_cons in Hf. destruct Hf as [->|[->|[->|Hf]]];
    [..|by apply not_elem_of_nil in Hf]; inversion Hr; apply Hset.
Qed.

Lemma mean_min_max_stale_witness :
  let e := Event.set_metric_sint64 5 Event.empty in
  let e' := Event.set_metric_sint64 3 Event.empty in
  exists r, Folds.mean [e; e'] = Ok r /\ Event.metric r = d_of_Z 5.
Proof.
  intros e e'. eexists. split; [reflexivity|].
  refine (mean_min_max_stale Folds.mean e [e'] _ _ _ _); [|reflexivity..].
  by left.
Defined.
