(* ===== verification/Infra.v ===== *)
(** * Stream infrastructure

    [include/streams/stream_infra.h] and [src/streams/stream_infra.cpp].

    In the code a stream is a vector of nodes; a node is a pair of closures,
    [on_init] and [on_event], and the mutable state of a node (a counter, a
    window, a map of sub-streams) lives in shared pointers captured by
    [on_event].  Every call of [on_init] makes a fresh state.  Here

    - a computation that may change a state [S], perform effects through the
      global core and throw is a value of the monad [M S];
    - an initialised node ([on_event] after [init_streams]) is a [machine]: the
      type of the state its closure captures and its behaviour on an event and on
      a periodic task it registered;
    - [fwd_new_stream_fn_t], the factory that [on_init] receives, is a [fwd]:
      how to make a fresh initialised copy of the rest of the stream, and how to
      push events into one such copy;
    - a node is [on_init : fwd -> machine] together with the [on_event] that
      [create_stream] stores in it, empty for the stateful nodes.

    The clock ([g_core->sched().unix_time()]) is a parameter of a computation:
    one event is processed at one clock reading. *)

From S2P Require Import Prelude Ieee Events.

(** ** Effects *)

(** Where a periodic task sits in a tree of initialised streams. *)
Inductive hop : Type :=
| HNode (i : nat)          (** [i]-th node of a stream *)
| HFwd                     (** the forward copy held by a node *)
| HKey (k : string)        (** the copy [by] made for a key *)
| HAlt (i : nat).          (** [i]-th stream of an [svec] *)

(** What a closure does to the world through [g_core] and the log. *)
Inductive effect : Type :=
| EPrn (prefix : string) (e : Event)
| EIndex (e : Event)
| EGraphite (host : string) (port : Z) (e : Event)
| EForward (host : string) (port : Z) (e : Event)
| EEmail (server from : string) (to : list string) (e : Event)
| EPagerduty (action key : string) (e : Event)
| EAddPeriodicTask (path : list hop) (interval : Z).

(** A registration made below [h] is seen from above with [h] in front. *)
Definition at_hop (h : hop) (x : effect) : effect :=
  match x with
  | EAddPeriodicTask p i => EAddPeriodicTask (h :: p) i
  | _ => x
  end.

(** ** The monad *)

Abbreviation clock := Z (only parsing).
Definition M (S A : Type) : Type := clock -> S -> S * list effect * result A.

Definition ret {S A} (a : A) : M S A := fun _ s => (s, [], Ok a).
Definition throw {S A} (x : exn) : M S A := fun _ s => (s, [], Throw x).
Definition bind {S A B} (m : M S A) (f : A -> M S B) : M S B :=
  fun now s =>
    match m now s with
    | (s1, w1, Ok a) => let '(s2, w2, r) := f a now s1 in (s2, w1 ++ w2, r)
    | (s1, w1, Throw x) => (s1, w1, Throw x)
    end.
Definition lift {S A} (r : result A) : M S A := fun _ s => (s, [], r).
Definition tell {S} (x : effect) : M S unit := fun _ s => (s, [x], Ok ()).
Definition getm {S} : M S S := fun _ s => (s, [], Ok s).
Definition putm {S} (s : S) : M S unit := fun _ _ => (s, [], Ok ()).
Definition ask {S} : M S clock := fun now s => (s, [], Ok now).

Notation "x <- m ;; k" := (bind m (fun x => k))
  (at level 100, m at next level, right associativity) : cav_scope.
Notation "m ;;; k" := (bind m (fun _ => k))
  (at level 100, right associativity) : cav_scope.
Local Open Scope cav_scope.

(** Running a computation on a component of a product state. *)
Definition on_fst {S T A} (m : M S A) : M (S * T) A :=
  fun now st => let '(s', w, r) := m now st.1 in ((s', st.2), w, r).
Definition on_snd {S T A} (m : M T A) : M (S * T) A :=
  fun now st => let '(t', w, r) := m now st.2 in ((st.1, t'), w, r).
(** Relabelling the tasks registered below a hop. *)
Definition below {S A} (h : hop) (m : M S A) : M S A :=
  fun now s => let '(s', w, r) := m now s in (s', at_hop h <$> w, r).

(** A step that only reads the clock and updates its own state. *)
Definition stepM {S} (f : clock -> S -> Event -> S * result (list Event)) (e : Event)
  : M S (list Event) :=
  fun now s => let '(s', r) := f now s e in (s', [], r).

(** [for (x : l) res += f(x)], in order. *)
Fixpoint concatM {S A B} (f : A -> M S (list B)) (l : list A) : M S (list B) :=
  match l with
  | [] => ret []
  | a :: l' => b <- f a ;; bs <- concatM f l' ;; ret (b ++ bs)
  end.
Fixpoint forM {S A} (f : A -> M S unit) (l : list A) : M S unit :=
  match l with
  | [] => ret ()
  | a :: l' => f a ;;; forM f l'
  end.

(** ** Machines and streams *)

Abbreviation next_events_t := (list Event) (only parsing).

Record machine : Type := Machine {
  m_state : Type;
  m_init : clock -> m_state * list effect;
  m_event : Event -> M m_state next_events_t;
  m_timer : list hop -> M m_state unit
}.

(** [fwd_new_stream_fn_t]. *)
Record fwd : Type := Fwd {
  f_state : Type;
  f_new : clock -> f_state * list effect;
  f_send : list Event -> M f_state unit;
  f_timer : list hop -> M f_state unit
}.

(** [stream_node_t]. *)
Record stream_node_t : Type := MkNode {
  on_init : fwd -> machine;
  on_event : option (Event -> M unit next_events_t)
}.

Abbreviation streams_t := (list stream_node_t) (only parsing).

(** *** [create_stream], three overloads *)

(** A stateless closure as a machine. *)
Definition stateless (fn : Event -> M unit next_events_t) : machine :=
  Machine unit (fun _ => ((), [])) fn (fun _ => ret ()).

(** The machine of a closure with a captured state and no tasks. *)
Definition step_machine {S} (s0 : S)
    (f : clock -> S -> Event -> S * result (list Event)) : machine :=
  Machine S (fun _ => (s0, [])) (stepM f) (fun _ => ret ()).

Definition create_stream (fn : Event -> M unit next_events_t) : streams_t :=
  [MkNode (fun _ => stateless fn) (Some fn)].
Definition create_stream_simple (fn : machine) : streams_t :=
  [MkNode (fun _ => fn) None].
Definition create_stream_init (fn : fwd -> machine) : streams_t :=
  [MkNode fn None].

(** *** Streams in sequence *)

(** [operator>>] is [join]. *)
Definition join (left right : streams_t) : streams_t := left ++ right.
Notation "l >> r" := (join l r) (at level 65, right associativity) : cav_scope.

(** The captured states of the nodes of an initialised stream. *)
Fixpoint chain_state (c : list machine) : Type :=
  match c with
  | [] => unit
  | m :: c' => m_state m * chain_state c'
  end.

(** [init_streams] initialises the nodes from the last to the first; tasks are
    registered with the position of the node. *)
Fixpoint chain_init (i : nat) (c : list machine) (now : clock)
  : chain_state c * list effect :=
  match c with
  | [] => ((), [])
  | m :: c' =>
      let '(s', w') := chain_init (S i) c' now in
      let '(s, w) := m_init m now in
      ((s, s'), w' ++ (at_hop (HNode i) <$> w))
  end.

(** The loop of [push_event].  [next_events] is empty in the first turn only,
    because the loop returns as soon as a node yields nothing. *)
Fixpoint push_loop (i : nat) (c : list machine) (event : Event)
    (next_events : list Event) : M (chain_state c) next_events_t :=
  match c return M (chain_state c) next_events_t with
  | [] => ret next_events
  | m :: c' =>
      next <- on_fst (below (HNode i)
                (match next_events with
                 | [] => m_event m event
                 | _ => concatM (m_event m) next_events
                 end)) ;;
      match next with
      | [] => ret []
      | _ => on_snd (push_loop (S i) c' event next)
      end
  end.

Definition chain_push (c : list machine) (event : Event) : M (chain_state c) next_events_t :=
  push_loop 0 c event [].

(** A periodic task of the [i]-th node, or of something below it. *)
Fixpoint chain_timer_at (j i : nat) (c : list machine) (p : list hop)
  : M (chain_state c) unit :=
  match c return M (chain_state c) unit with
  | [] => ret ()
  | m :: c' =>
      if decide (i = j) then on_fst (below (HNode j) (m_timer m p))
      else on_snd (chain_timer_at (S j) i c' p)
  end.
Definition chain_timer (c : list machine) (p : list hop) : M (chain_state c) unit :=
  match p with
  | HNode i :: p' => chain_timer_at 0 i c p'
  | _ => ret ()
  end.

(** [forward(begin, end)]: the factory copies the nodes, initialises the copy and
    returns the closure that pushes each event, dropping the results. *)
Definition forward (c : list machine) : fwd :=
  Fwd (chain_state c) (chain_init 0 c)
      (forM (fun e => chain_push c e ;;; ret ()))
      (chain_timer c).

(** [init_streams]: node [i] gets the factory of the nodes after it. *)
Fixpoint init_streams (s : streams_t) : list machine :=
  match s with
  | [] => []
  | n :: s' => let c := init_streams s' in on_init n (forward c) :: c
  end.

(** [push_event] on a stream whose nodes hold the [on_event] of [create_stream]
    (streams that nothing initialised): an empty [std::function] throws. *)
Definition call_on_event (n : stream_node_t) (e : Event) : M unit next_events_t :=
  match on_event n with
  | Some fn => fn e
  | None => throw bad_function_call
  end.
Fixpoint push_event_loop (s : streams_t) (event : Event) (next_events : list Event)
  : M unit next_events_t :=
  match s with
  | [] => ret next_events
  | n :: s' =>
      next <- match next_events with
              | [] => call_on_event n event
              | _ => concatM (call_on_event n) next_events
              end ;;
      match next with
      | [] => ret []
      | _ => push_event_loop s' event next
      end
  end.
Definition push_event (s : streams_t) (event : Event) : M unit next_events_t :=
  push_event_loop s event [].

(** ** Sequences of events

    Events reach an initialised stream one after the other, each at its own clock
    reading; an exception ends the processing of its event only ([push_stream]
    catches it). *)
Fixpoint run_events {S} (step : Event -> M S next_events_t)
    (es : list (clock * Event)) (s : S) : S * list effect * list (result (list Event)) :=
  match es with
  | [] => (s, [], [])
  | (now, e) :: es' =>
      let '(s1, w1, r) := step e now s in
      let '(s2, w2, rs) := run_events step es' s1 in
      (s2, w1 ++ w2, r :: rs)
  end.

(** The same for a pure step. *)
Fixpoint run_steps {S R} (f : clock -> S -> Event -> S * R)
    (es : list (clock * Event)) (s : S) : S * list R :=
  match es with
  | [] => (s, [])
  | (now, e) :: es' =>
      let '(s1, r) := f now s e in
      let '(s2, rs) := run_steps f es' s1 in (s2, r :: rs)
  end.

(** ** Reference semantics of a pushed batch *)

(** Each node handles the whole batch before the next node runs; an empty batch
    stops. *)
Fixpoint chain_batch (i : nat) (c : list machine) (es : list Event)
  : M (chain_state c) next_events_t :=
  match c return M (chain_state c) next_events_t with
  | [] => ret es
  | m :: c' =>
      next <- on_fst (below (HNode i) (concatM (m_event m) es)) ;;
      match next with
      | [] => ret []
      | _ => on_snd (chain_batch (S i) c' next)
      end
  end.

(** The state of two streams in sequence. *)
Fixpoint chain_split (c1 c2 : list machine)
  : chain_state (c1 ++ c2) -> chain_state c1 * chain_state c2 :=
  match c1 return chain_state (c1 ++ c2) -> chain_state c1 * chain_state c2 with
  | [] => fun st => ((), st)
  | m :: c1' => fun st => let '(s1, s2) := chain_split c1' c2 st.2 in ((st.1, s1), s2)
  end.
Fixpoint chain_glue (c1 c2 : list machine)
  : chain_state c1 -> chain_state c2 -> chain_state (c1 ++ c2) :=
  match c1 return chain_state c1 -> chain_state c2 -> chain_state (c1 ++ c2) with
  | [] => fun _ s2 => s2
  | m :: c1' => fun s1 s2 => (s1.1, chain_glue c1' c2 s1.2 s2)
  end.

(** The nodes of [l] in front of an already initialised stream. *)
Fixpoint init_before (l : streams_t) (c : list machine) : list machine :=
  match l with
  | [] => []
  | n :: l' => let c' := init_before l' c in on_init n (forward (c' ++ c)) :: c'
  end.

(** Rewrite a run of the goal with an equation that matches it up to conversion (the
    types of states compute). *)
Ltac rewrite_run H :=
  match goal with
  | |- context [run_events ?f ?es ?s] =>
      assert (run_events f es s = _) as -> by exact H
  end.

(** ** Lemmas *)

(** Runs are extended at their end. *)
Lemma run_steps_app {S R} (f : clock -> S -> Event -> S * R) es es' s :
  run_steps f (es ++ es') s =
  let '(s1, rs) := run_steps f es s in
  let '(s2, rs') := run_steps f es' s1 in (s2, rs ++ rs').
Proof.
  revert s. induction es as [|[t x] es IH]; intros s; simpl.
  { by destruct (run_steps f es' s). }
  destruct (f t s x) as [s1 r1]. rewrite IH.
  destruct (run_steps f es s1) as [s2 rs]. by destruct (run_steps f es' s2).
Qed.

Lemma run_steps_snoc {S R} (f : clock -> S -> Event -> S * R) es now e s :
  run_steps f (es ++ [(now, e)]) s =
  let '(s1, rs) := run_steps f es s in
  let '(s2, r) := f now s1 e in (s2, rs ++ [r]).
Proof.
  rewrite run_steps_app. destruct (run_steps f es s) as [s1 rs]. simpl.
  by destruct (f now s1 e).
Qed.

(** The machine of a pure step runs the step. *)
Lemma run_events_step {S} (s0 s : S) f es :
  run_events (m_event (step_machine s0 f)) es s =
  let '(s', rs) := run_steps f es s in (s', [], rs).
Proof.
  revert s. induction es as [|[t x] es IH]; intros s; [done|].
  cbn [run_events run_steps]. simpl. unfold stepM at 1.
  destruct (f t s x) as [s1 r1]. simpl in IH. rewrite IH.
  by destruct (run_steps f es s1) as [s2 rs].
Qed.

Lemma init_streams_join l r :
  init_streams (l >> r) = init_before l (init_streams r) ++ init_streams r.
Proof. unfold join. induction l as [|n l IH]; simpl; [done|]. by rewrite IH. Qed.

Lemma concatM_single {S A B} (f : A -> M S (list B)) a now s :
  concatM f [a] now s = f a now s.
Proof.
  simpl. unfold bind, ret. destruct (f a now s) as [[s1 w1] [b|x]]; [|done].
  by rewrite !app_nil_r.
Qed.

Lemma push_loop_batch i c e es now st :
  es <> [] -> push_loop i c e es now st = chain_batch i c es now st.
Proof.
  revert i es st. induction c as [|m c IH]; intros i es st Hes; [done|].
  destruct st as [s st]. destruct es as [|x es]; [done|].
  cbn [push_loop chain_batch]. unfold bind, on_fst, on_snd. cbn [fst snd].
  destruct (below _ _ now s) as [[s1 w1] [[|y r]|ex]]; [done| |done].
  cbn [fst snd]. by rewrite IH.
Qed.

(** Pushing one event is pushing the batch of that event. *)
Lemma chain_push_batch m c e now st :
  chain_push (m :: c) e now st = chain_batch 0 (m :: c) [e] now st.
Proof.
  destruct st as [s st].
  unfold chain_push. cbn [push_loop chain_batch]. unfold bind, on_fst, on_snd, below.
  cbn [fst snd]. rewrite concatM_single.
  destruct (m_event m e now s) as [[s1 w1] [[|y r]|ex]]; [done| |done].
  cbn [fst snd]. by rewrite push_loop_batch.
Qed.

Lemma chain_glue_split c1 c2 st :
  let '(s1, s2) := chain_split c1 c2 st in chain_glue c1 c2 s1 s2 = st.
Proof.
  induction c1 as [|m c1 IH]; simpl; [done|]. destruct st as [s st]. simpl.
  specialize (IH st). destruct (chain_split c1 c2 st) as [s1 s2]. simpl. by rewrite IH.
Qed.

Lemma chain_batch_app i c1 c2 es now st :
  es <> [] ->
  chain_batch i (c1 ++ c2) es now st =
  let '(s1, s2) := chain_split c1 c2 st in
  match chain_batch i c1 es now s1 with
  | (s1', w1, Throw x) => (chain_glue c1 c2 s1' s2, w1, Throw x)
  | (s1', w1, Ok next) =>
      match next with
      | [] => (chain_glue c1 c2 s1' s2, w1, Ok [])
      | _ => let '(s2', w2, r) := chain_batch (i + length c1) c2 next now s2 in
             (chain_glue c1 c2 s1' s2', w1 ++ w2, r)
      end
  end.
Proof.
  revert i es st. induction c1 as [|m c1 IH]; intros i es st Hes.
  { simpl. rewrite Nat.add_0_r. destruct es; [done|].
    by destruct (chain_batch i c2 _ now st) as [[??] ?]. }
  cbn [app chain_batch chain_split]. cbn [app chain_state] in st.
  destruct st as [s st]. cbn [fst snd].
  pose proof (chain_glue_split c1 c2 st) as Hg.
  specialize (IH (S i)).
  destruct (chain_split c1 c2 st) as [s1 s2] eqn:Es.
  unfold bind, on_fst. cbn [fst snd].
  destruct (below _ _ now s) as [[s' w] [[|y next]|x]];
    [unfold ret; cbn [chain_glue fst snd]; by rewrite Hg| |
     cbn [chain_glue fst snd]; by rewrite Hg].
  unfold on_snd. cbn [fst snd]. rewrite IH by done. rewrite Es.
  destruct (chain_batch (S i) c1 (y :: next) now s1) as [[s1' w1] [[|z r]|x]];
    cbn [chain_glue fst snd length]; try done.
  rewrite Nat.add_succ_r. cbn [Nat.add].
  destruct (chain_batch _ c2 (z :: r) now s2) as [[s2' w2] r2].
  by rewrite app_assoc.
Qed.

Lemma chain_push_app c1 c2 e now st :
  c1 <> [] ->
  chain_push (c1 ++ c2) e now st =
  let '(s1, s2) := chain_split c1 c2 st in
  match chain_push c1 e now s1 with
  | (s1', w1, Throw x) => (chain_glue c1 c2 s1' s2, w1, Throw x)
  | (s1', w1, Ok next) =>
      match next with
      | [] => (chain_glue c1 c2 s1' s2, w1, Ok [])
      | _ => let '(s2', w2, res) := chain_batch (length c1) c2 next now s2 in
             (chain_glue c1 c2 s1' s2', w1 ++ w2, res)
      end
  end.
Proof.
  destruct c1 as [|m c1]; [done|]. intros _.
  transitivity (chain_batch 0 ((m :: c1) ++ c2) [e] now st);
    [apply (chain_push_batch m (c1 ++ c2))|].
  rewrite chain_batch_app by done.
  destruct (chain_split (m :: c1) c2 st) as [s1 s2].
  by rewrite chain_push_batch.
Qed.

(** A stream of one node is that node. *)
Lemma chain_push_one m e now s :
  chain_push [m] e now (s, ()) =
  let '(s', w, r) := m_event m e now s in ((s', ()), at_hop (HNode 0) <$> w, r).
Proof.
  unfold chain_push. cbn [push_loop]. unfold bind, on_fst, on_snd, below, ret.
  cbn [fst snd]. destruct (m_event m e now s) as [[s' w] [[|y r]|x]]; simpl;
    by rewrite ?app_nil_r.
Qed.

Lemma run_events_one m es s :
  run_events (chain_push [m]) es (s, ()) =
  let '(s', w, rs) := run_events (m_event m) es s in
  ((s', ()), at_hop (HNode 0) <$> w, rs).
Proof.
  revert s. induction es as [|[now e] es IH]; intros s; [done|].
  cbn [run_events]. rewrite chain_push_one.
  destruct (m_event m e now s) as [[s1 w1] r]. rewrite IH.
  destruct (run_events (m_event m) es s1) as [[s2 w2] rs]. by rewrite fmap_app.
Qed.

(** Two computations on the two parts of a state, their results put together. *)
Lemma run_events_pair {S T} (f : Event -> M S next_events_t) (g : Event -> M T next_events_t)
    es s t o1 o2 :
  (run_events f es s).2 = Ok <$> o1 -> (run_events g es t).2 = Ok <$> o2 ->
  (run_events (fun e => r <- on_fst (f e) ;; r' <- on_snd (g e) ;; ret (r ++ r'))
     es (s, t)).2 = Ok <$> zip_with app o1 o2.
Proof.
  revert s t o1 o2. induction es as [|[now e] es IH]; intros s t o1 o2 H1 H2.
  { by destruct o1. }
  cbn [run_events] in *. unfold bind at 1, on_fst at 1, on_snd at 1, ret at 1.
  cbn [fst snd].
  destruct (f e now s) as [[s1 w1] r1]. specialize (IH s1).
  destruct (run_events f es s1) as [[s2 w2] rs1]. cbn [snd] in H1.
  destruct (g e now t) as [[t1 v1] r2] eqn:Eg.
  destruct (run_events g es t1) as [[t2 v2] rs2] eqn:Er. cbn [snd] in H2.
  destruct o1 as [|a o1]; [done|]. destruct o2 as [|b o2]; [done|].
  simplify_eq/=. unfold bind, on_snd. cbn [fst snd]. rewrite Eg. cbn [fst snd].
  specialize (IH t1 o1 o2). rewrite Er in IH.
  destruct (run_events _ es (s1, t1)) as [[st w] rs]. cbn [snd] in IH |- *.
  by rewrite IH.
Qed.

(** ** Properties *)

(** C28. Sequential composition.  Initialising [l >> r] initialises [r] as it
    stands and gives every node of [l] the factory of all that follows it; pushing
    an event into the result pushes it into the nodes of [l] and, if these yield
    anything, pushes the whole batch through [r]; if they yield nothing or throw,
    the state of [r] does not change. *)
Theorem push_event_join (l r : streams_t) :
  l <> [] ->
  let c1 := init_before l (init_streams r) in
  let c2 := init_streams r in
  init_streams (l >> r) = c1 ++ c2
  /\ forall (e : Event) (now : clock) (st : chain_state (c1 ++ c2)),
     chain_push (c1 ++ c2) e now st =
     let '(s1, s2) := chain_split c1 c2 st in
     match chain_push c1 e now s1 with
     | (s1', w1, Throw x) => (chain_glue c1 c2 s1' s2, w1, Throw x)
     | (s1', w1, Ok next) =>
         match next with
         | [] => (chain_glue c1 c2 s1' s2, w1, Ok [])
         | _ => let '(s2', w2, res) := chain_batch (length c1) c2 next now s2 in
                (chain_glue c1 c2 s1' s2', w1 ++ w2, res)
         end
     end.
Proof.
  intros Hl c1 c2. split; [apply init_streams_join|].
  intros e now st. apply chain_push_app. by destruct l.
Qed.

Lemma push_event_join_witness :
  let dup := create_stream (fun e => ret [e; e]) in
  let nothing := create_stream (fun _ => ret []) in
  dup <> []
  /\ chain_push (init_streams (dup >> nothing)) Event.empty 0%Z ((), ((), ()))
     = (((), ((), ())), [], Ok []).
Proof.
  intros dup nothing. assert (H : dup <> []) by discriminate. split; [exact H|].
  exact (proj2 (push_event_join dup nothing H) Event.empty 0%Z ((), ((), ()))).
Defined.
