(* ===== verification/Predicates.v ===== *)
(** * Predicates

    [src/predicates/predicates.cpp] and the matching helpers [match_regex] and
    [match_like] of [src/util/util.cpp].  A predicate may read the clock
    ([expired]) and may throw ([std::regex] refuses a malformed pattern).
    [std::regex_match] itself is the parameter [regex_match]. *)

From S2P Require Import Prelude Ieee Events Infra.

Local Open Scope Z_scope.

Abbreviation predicate_t := (clock -> Event -> result bool).
Abbreviation tags_t := (list string).

(** [PRED(EXP)] for an expression that neither reads the clock nor throws. *)
Definition PRED (f : Event -> bool) : predicate_t := fun _ e => Ok (f e).

(** [boost::replace_all(re, "%", ".*")]. *)
Fixpoint like_to_regex (re : string) : string :=
  match re with
  | EmptyString => EmptyString
  | String c re' =>
      if decide (c = "%"%char) then ".*" +:+ like_to_regex re'
      else String c (like_to_regex re')
  end.

(** [for (v : values) if (f(v)) return true; return false;] with a test that may
    throw. *)
Fixpoint any_of (f : string -> result bool) (values : list string) : result bool :=
  match values with
  | [] => Ok false
  | v :: vs =>
      match f v with
      | Ok true => Ok true
      | Ok false => any_of f vs
      | Throw x => Throw x
      end
  end.

Definition k_default_ttl : Z := 60.

Module predicates.

(** ** Tests on an event *)

Fixpoint tagged_any (e : Event) (tags : tags_t) : bool :=
  match tags with
  | [] => false
  | t :: ts => if Event.has_tag t e then true else tagged_any e ts
  end.

Fixpoint tagged_all (e : Event) (tags : tags_t) : bool :=
  match tags with
  | [] => true
  | t :: ts => if negb (Event.has_tag t e) then false else tagged_all e ts
  end.

(** The age is an [int64_t], converted to [float] by the comparison with the ttl;
    the default ttl is an [unsigned int], converted to [float] too. *)
Definition expired (now : clock) (e : Event) : bool :=
  let ttl := if Event.has_ttl e then Event.ttl e else f_of_Z k_default_ttl in
  if decide (Event.state e = "expired") then true
  else if now <? Event.time e then false
  else sf_gt (f_of_Z (i64_sub now (Event.time e))) ttl.

Definition above_eq (e : Event) (value : double) : bool := sf_ge (Event.metric e) value.
Definition above (e : Event) (value : double) : bool := sf_gt (Event.metric e) value.
Definition under_eq (e : Event) (value : double) : bool := sf_le (Event.metric e) value.
Definition under (e : Event) (value : double) : bool := sf_lt (Event.metric e) value.
Definition match_ (e : Event) (key value : string) : bool :=
  bool_decide (Event.value_to_str key e = value).

(** ** Predicates that need no regular expression *)

Definition p_above_eq (value : double) : predicate_t := PRED (fun e => above_eq e value).
Definition p_above (value : double) : predicate_t := PRED (fun e => above e value).
Definition p_under_eq (value : double) : predicate_t := PRED (fun e => under_eq e value).
Definition p_under (value : double) : predicate_t := PRED (fun e => under e value).
Definition p_state (s : string) : predicate_t := PRED (fun e => bool_decide (Event.state e = s)).
Definition p_service (s : string) : predicate_t :=
  PRED (fun e => bool_decide (Event.service e = s)).
Definition p_match (key value : string) : predicate_t := PRED (fun e => match_ e key value).
Definition p_match_any (key : string) (values : list string) : predicate_t :=
  PRED (fun e => bool_decide (Event.value_to_str key e ∈ values)).
Definition default_true : predicate_t := PRED (fun _ => true).

(** ** Regular expressions *)

Section regex.
(** [std::regex_match(value, std::regex(re))]. *)
Variable regex_match : string -> string -> result bool.

Definition match_regex (value re : string) : result bool := regex_match value re.
Definition util_match_like (value re : string) : result bool :=
  match_regex value (like_to_regex re).

Definition match_re (e : Event) (key value : string) : result bool :=
  match_regex (Event.value_to_str key e) value.
Definition match_like (e : Event) (key value : string) : result bool :=
  util_match_like (Event.value_to_str key e) value.

Definition p_match_re (key value : string) : predicate_t := fun _ e => match_re e key value.
Definition p_match_re_any (key : string) (values : list string) : predicate_t :=
  fun _ e => any_of (match_re e key) values.
Definition p_match_like (key value : string) : predicate_t := fun _ e => match_like e key value.
Definition p_match_like_any (key : string) (values : list string) : predicate_t :=
  fun _ e => any_of (match_like e key) values.
End regex.

End predicates.

(** ** Lemmas *)

Lemma tagged_any_spec e tags :
  predicates.tagged_any e tags = true <-> exists t, t ∈ tags /\ t ∈ p_tags e.
Proof.
  induction tags as [|t ts IH]; simpl.
  - split; [done|]. by intros (t & ?%not_elem_of_nil & _).
  - destruct (Event.has_tag t e) eqn:E.
    + split; [|done]. exists t. rewrite <- has_tag_spec. split; [by left|done].
    + rewrite IH. split; intros (t' & H & H'); [exists t'; split; [by right|done]|].
      apply elem_of_cons in H as [->|H]; [|by exists t'].
      apply has_tag_spec in H'. congruence.
Qed.

Lemma tagged_all_spec e tags :
  predicates.tagged_all e tags = true <-> Forall (fun t => t ∈ p_tags e) tags.
Proof.
  induction tags as [|t ts IH]; simpl; [by split|].
  rewrite Forall_cons_iff, <- IH, <- has_tag_spec.
  by destruct (Event.has_tag t e); simpl; split; try intros [? ?].
Qed.

(** ** Properties *)

(** [expired].  With an age and an integral ttl below 2^24 seconds (194 days;
    the comparison is made in single precision) an event is expired exactly when
    its state is ["expired"], or its time is not in the future and it is strictly
    older than its ttl, 60 seconds if it has none. *)
Theorem expired_spec (now ttl : Z) (e : Event) :
  in_i64 (now - Event.time e) -> now - Event.time e < 2 ^ 24 -> 0 <= ttl < 2 ^ 24 ->
  (p_ttl e = Some (f_of_Z ttl) \/ p_ttl e = None /\ ttl = 60) ->
  predicates.expired now e = true <->
  Event.state e = "expired" \/ Event.time e <= now /\ ttl < now - Event.time e.
Proof.
  intros Hr Ha Ht Httl. unfold predicates.expired.
  case_decide as Hs; [by split; auto|].
  assert (E : (if Event.has_ttl e then Event.ttl e else f_of_Z k_default_ttl) = f_of_Z ttl).
  { unfold Event.has_ttl, Event.ttl. destruct Httl as [->|[-> ->]]; reflexivity. }
  rewrite E, i64_sub_exact by done.
  destruct (Z.ltb_spec now (Event.time e)).
  - split; [done|]. intros [?|[? ?]]; [done|lia].
  - unfold sf_gt. fold (sf_lt (f_of_Z ttl) (f_of_Z (now - Event.time e))).
    rewrite f_lt_of_Z, Z.ltb_lt by (unfold sf_small; lia).
    split; [auto|]. by intros [?|[? ?]].
Qed.

Lemma expired_spec_witness :
  let e := Event.set_time 100 Event.empty in
  predicates.expired 161 e = true /\ predicates.expired 160 e = false.
Proof.
  intros e. split.
  - refine (proj2 (expired_spec 161 60 e _ _ _ _) _); try (vm_compute; intuition congruence).
  - apply not_true_iff_false. intros H.
    refine (_ (proj1 (expired_spec 160 60 e _ _ _ _) H)); try (vm_compute; intuition congruence).
Defined.
