(* ===== verification/By.v ===== *)
(** * [by]: one copy of a stream per key

    [by_lock_] of [src/streams/stream_functions_lock.cpp], both variants: with
    the stream given as an argument, and with the streams that follow
    ([fwd_new_stream]).  The hash map from keys to streams is only looked up and
    extended, never walked, so it is a [gmap]. *)

From S2P Require Import Prelude Ieee Events Infra.

Local Open Scope cav_scope.

Abbreviation by_keys_t := (list string).

(** [for (k : keys) key += e.value_to_str(k) + " ";] *)
Definition by_key (keys : by_keys_t) (e : Event) : string :=
  foldl (fun key k => key +:+ (Event.value_to_str k e +:+ " ")) "" keys.

(** Running a computation on the entry of a key, which is made on first use. *)
Definition at_key {S A} (key : string) (new : clock -> S * list effect) (m : M S A)
  : M (gmap string S) A :=
  fun now map =>
    let '(s, w0) := match map !! key with
                    | Some s => (s, [])
                    | None => new now
                    end in
    let '(s', w, r) := m now s in
    (<[key := s']> map, at_hop (HKey key) <$> (w0 ++ w), r).

(** A periodic task registered by the copy of a key. *)
Definition timer_at_key {S} (timer : list hop -> M S unit) (p : list hop)
  : M (gmap string S) unit :=
  match p with
  | HKey key :: p' =>
      fun now map =>
        match map !! key with
        | Some s => let '(s', w, r) := timer p' now s in
                    (<[key := s']> map, at_hop (HKey key) <$> w, r)
        | None => (map, [], Ok ())
        end
  | _ => ret ()
  end.

Definition by_event (keys : by_keys_t) (c : list machine) (e : Event)
  : M (gmap string (chain_state c)) next_events_t :=
  match keys with
  | [] => ret []
  | _ => at_key (by_key keys e) (chain_init 0 c) (chain_push c e)
  end.

Definition by_lock_ (keys : by_keys_t) (stream : streams_t) : machine :=
  let c := init_streams stream in
  Machine (gmap string (chain_state c)) (fun _ => (∅, []))
    (by_event keys c) (timer_at_key (chain_timer c)).

Definition by_lock (keys : by_keys_t) (stream : streams_t) : streams_t :=
  create_stream_simple (by_lock_ keys stream).

Definition by_fwd_event (keys : by_keys_t) (f : fwd) (e : Event)
  : M (gmap string (f_state f)) next_events_t :=
  match keys with
  | [] => ret []
  | _ => at_key (by_key keys e) (f_new f) (f_send f [e]) ;;; ret []
  end.

Definition by_lock_fwd_ (keys : by_keys_t) (fwd_stream : fwd) : machine :=
  Machine (gmap string (f_state fwd_stream)) (fun _ => (∅, []))
    (by_fwd_event keys fwd_stream) (timer_at_key (f_timer fwd_stream)).

Definition by_lock_fwd (keys : by_keys_t) : streams_t :=
  create_stream_init (by_lock_fwd_ keys).

(** ** Reference: one stream on its own *)

(** The events of a sequence that fall on a key. *)
Definition on_key (keys : by_keys_t) (k : string) (es : list (clock * Event))
  : list (clock * Event) := filter (fun p => by_key keys p.2 = k) es.

(** A fresh copy run on a sequence: it is initialised when its first event
    arrives. *)
Definition run_fresh (c : list machine) (es : list (clock * Event))
  : option (chain_state c) * list (result (list Event)) :=
  match es with
  | [] => (None, [])
  | (now, _) :: _ =>
      let '(s, _, rs) := run_events (chain_push c) es (chain_init 0 c now).1 in
      (Some s, rs)
  end.

(** The results of the events that fall on a key. *)
Fixpoint results_on_key (keys : by_keys_t) (k : string) (es : list (clock * Event))
    (rs : list (result (list Event))) : list (result (list Event)) :=
  match es, rs with
  | (_, e) :: es', r :: rs' =>
      if decide (by_key keys e = k) then r :: results_on_key keys k es' rs'
      else results_on_key keys k es' rs'
  | _, _ => []
  end.

(** ** Lemmas *)

Lemma at_key_lookup {S A} key (new : clock -> S * list effect) (m : M S A) now map k :
  ((at_key key new m now map).1.1) !! k =
  if decide (key = k)
  then Some (m now (default (new now).1 (map !! key))).1.1
  else map !! k.
Proof.
  unfold at_key. destruct (map !! key) as [s|]; simpl;
  [|destruct (new now) as [s w0]; simpl];
  destruct (m now s) as [[s' w] r]; simpl;
  by rewrite lookup_insert.
Qed.

Lemma at_key_result {S A} key (new : clock -> S * list effect) (m : M S A) now map :
  (at_key key new m now map).2 = (m now (default (new now).1 (map !! key))).2.
Proof.
  unfold at_key. destruct (map !! key) as [s|]; simpl;
  [|destruct (new now) as [s w0]; simpl];
  by destruct (m now s) as [[s' w] r].
Qed.

(** [run_fresh] continued from the entry a key already has. *)
Definition run_entry (c : list machine) (o : option (chain_state c))
    (es : list (clock * Event)) : option (chain_state c) * list (result (list Event)) :=
  match o with
  | Some s => let '(s', _, rs) := run_events (chain_push c) es s in (Some s', rs)
  | None => run_fresh c es
  end.

Lemma run_entry_cons c o now e es :
  run_entry c o ((now, e) :: es) =
  let '(s, _, r) := chain_push c e now (default (chain_init 0 c now).1 o) in
  let '(o', rs) := run_entry c (Some s) es in (o', r :: rs).
Proof.
  destruct o as [s|]; simpl;
    destruct (chain_push c e now _) as [[s' w] r];
    by destruct (run_events (chain_push c) es s') as [[s'' w'] rs].
Qed.

(** Whatever the other keys do, the entry of a key and the results of its events
    are those of its own sequence. *)
Lemma by_event_run keys c es map k :
  keys <> [] ->
  let '(map', _, rs) := run_events (by_event keys c) es map in
  (map' !! k, results_on_key keys k es rs) =
  run_entry c (map !! k) (on_key keys k es).
Proof.
  intros Hk. revert map. induction es as [|[now e] es IH]; intros map.
  { simpl. by destruct (map !! k). }
  cbn [run_events].
  assert (by_event keys c e = at_key (by_key keys e) (chain_init 0 c) (chain_push c e))
    as -> by (by destruct keys).
  pose proof (at_key_lookup (by_key keys e) (chain_init 0 c) (chain_push c e) now map k) as Hl.
  pose proof (at_key_result (by_key keys e) (chain_init 0 c) (chain_push c e) now map) as Hr.
  destruct (at_key _ _ _ now map) as [[map1 w1] r]. cbn [fst snd] in *.
  specialize (IH map1). destruct (run_events _ es map1) as [[map2 w2] rs].
  cbn [results_on_key]. unfold on_key. rewrite filter_cons. cbn [snd].
  destruct (decide (by_key keys e = k)) as [He|He].
  - subst k. rewrite run_entry_cons.
    destruct (chain_push c e now _) as [[s w] r']. cbn [fst snd] in *. subst r.
    fold (on_key keys (by_key keys e) es). rewrite Hl in IH. by rewrite <- IH.
  - rewrite Hl in IH. exact IH.
Qed.

(** ** Properties *)

(** C3. [by(keys) (stream)] runs one independent copy of the stream per key.
    After any sequence of events, each at its own clock reading, the copy of every
    key is in the state a stream of its own would reach on the subsequence of the
    events with that key (it does not exist if there are none), and those events
    gave the results that stream would have given, exceptions included. *)
Theorem by_isolated (keys : by_keys_t) (stream : streams_t) (es : list (clock * Event))
    (now0 : clock) (k : string) :
  keys <> [] ->
  let m := by_lock_ keys stream in
  let '(map, _, rs) := run_events (m_event m) es (m_init m now0).1 in
  (map !! k, results_on_key keys k es rs)
  = run_fresh (init_streams stream) (on_key keys k es).
Proof. intros Hk. exact (by_event_run keys (init_streams stream) es ∅ k Hk). Qed.

(** Two hosts, and a stream that passes on every second event only. *)
Definition every_second : machine :=
  step_machine false (fun _ b e => (negb b, Ok (if b then [e] else []))).

Lemma by_isolated_witness :
  let ev h := Event.set_host h Event.empty in
  let es := [(1, ev "a"); (2, ev "b"); (3, ev "a")]%Z in
  let m := by_lock_ ["host"] (create_stream_simple every_second) in
  results_on_key ["host"] "a " es (run_events (m_event m) es (m_init m 0%Z).1).2
  = [Ok []; Ok [ev "a"]].
Proof.
  pose proof (by_isolated ["host"] (create_stream_simple every_second)
    [(1, Event.set_host "a" Event.empty); (2, Event.set_host "b" Event.empty);
     (3, Event.set_host "a" Event.empty)]%Z 0%Z "a " ltac:(done)) as H.
  cbv zeta in H |- *.
  destruct (run_events _ _ _) as [[map w] rs]. apply (f_equal snd) in H.
  cbn [snd] in H |- *. rewrite H. vm_compute. reflexivity.
Defined.
