(* ===== verification/Windows.v ===== *)
(** * Windows over events

    [moving_event_window], [fixed_event_window], [moving_time_window] and
    [fixed_time_window] of [src/streams/stream_functions_lock.cpp].  Each is a
    pure step on the struct the closure captures; the lock is held around the
    whole update, so a step is atomic, and the fold runs after it, on a copy.

    Window sizes are [size_t]s, as [nat]; times and intervals are [time_t]s, as
    [Z] at 64 bits.  The time windows are modelled over any priority queue. *)

From S2P Require Import Prelude Containers Events Folds Infra.

Local Open Scope cav_scope.

(** [return {fold(events)};] *)
Definition fold_out (fold : fold_fn_t) (events : list Event) : result (list Event) :=
  res_map (fun e => [e]) (fold events).

(** ** Windows of [n] events *)

Definition moving_event_window_step (n : nat) (fold : fold_fn_t) (_ : clock)
    (events : list Event) (e : Event) : list Event * result (list Event) :=
  let events := events ++ [e] in
  let events := if decide (length events = n + 1)%nat then tail events else events in
  (events, fold_out fold events).

Definition moving_event_window_lock_ (n : nat) (fold : fold_fn_t) : machine :=
  step_machine [] (moving_event_window_step n fold).
Definition moving_event_window_lock (n : nat) (fold : fold_fn_t) : streams_t :=
  create_stream_simple (moving_event_window_lock_ n fold).

Definition fixed_event_window_step (n : nat) (fold : fold_fn_t) (_ : clock)
    (events : list Event) (e : Event) : list Event * result (list Event) :=
  let events := events ++ [e] in
  if decide (length events = n)
  then ([], match events with [] => Ok [] | _ => fold_out fold events end)
  else (events, Ok []).

Definition fixed_event_window_lock_ (n : nat) (fold : fold_fn_t) : machine :=
  step_machine [] (fixed_event_window_step n fold).
Definition fixed_event_window_lock (n : nat) (fold : fold_fn_t) : streams_t :=
  create_stream_simple (fixed_event_window_lock_ n fold).

(** ** Windows of [dt] seconds *)

Section time_windows.
Context {Q : Type -> Type} `{PriorityQueue Q}.

Record moving_time_window_t : Type := MkMTW {
  mtw_pq : Q Event;
  mtw_max : Z
}.

Definition moving_time_window_init : moving_time_window_t := MkMTW pq_empty 0.

(** The events handed to the fold; [None] when the event has no time. *)
Definition moving_time_window_push (dt : Z) (w : moving_time_window_t) (e : Event)
  : moving_time_window_t * option (list Event) :=
  if negb (Event.has_time e) then (w, None)
  else
    let max := if (Event.time e >? mtw_max w)%Z then Event.time e else mtw_max w in
    let pq := pq_push Event.time e (mtw_pq w) in
    let pq :=
      if (max <? dt)%Z then pq
      else (pq_pop_while Event.time
              (fun x => Event.time x <=? i64_sub max dt)%Z pq).2 in
    (MkMTW pq max, Some (pq_drain Event.time pq)).

Definition moving_time_window_step (dt : Z) (fold : fold_fn_t) (_ : clock)
    (w : moving_time_window_t) (e : Event)
  : moving_time_window_t * result (list Event) :=
  let '(w', o) := moving_time_window_push dt w e in
  (w', match o with Some events => fold_out fold events | None => Ok [] end).

Definition moving_time_window_lock_ (dt : Z) (fold : fold_fn_t) : machine :=
  step_machine moving_time_window_init (moving_time_window_step dt fold).
Definition moving_time_window_lock (dt : Z) (fold : fold_fn_t) : streams_t :=
  create_stream_simple (moving_time_window_lock_ dt fold).

Record fixed_time_window_t : Type := MkFTW {
  ftw_pq : Q Event;
  ftw_start : Z;
  ftw_max : Z;
  ftw_started : bool
}.

Definition fixed_time_window_init : fixed_time_window_t := MkFTW pq_empty 0 0 false.

(** [window->start - (window->start % dt) + dt]; [%] truncates. *)
Definition next_interval (start dt : Z) : Z :=
  i64_add (i64_sub start (Z.rem start dt)) dt.

(** The vector [flush]; it stays empty on every early return.  [%] by zero is
    undefined. *)
Definition fixed_time_window_push (dt : Z) (w : fixed_time_window_t) (e : Event)
  : fixed_time_window_t * result (list Event) :=
  if negb (Event.has_time e) then (w, Ok [])
  else if negb (ftw_started w) then
    (MkFTW (pq_push Event.time e (ftw_pq w)) (Event.time e) (Event.time e) true, Ok [])
  else if (Event.time e <? ftw_start w)%Z then (w, Ok [])
  else
    let max := if (Event.time e >? ftw_max w)%Z then Event.time e else ftw_max w in
    if (dt =? 0)%Z
    then (MkFTW (ftw_pq w) (ftw_start w) max true, Throw undefined_behaviour)
    else
      let next := next_interval (ftw_start w) dt in
      let pq := pq_push Event.time e (ftw_pq w) in
      if (max <? next)%Z then (MkFTW pq (ftw_start w) max true, Ok [])
      else
        let '(flush, pq) := pq_pop_while Event.time (fun x => Event.time x <? next)%Z pq in
        (MkFTW pq next max true, Ok flush).

(** [if (!flush.empty()) return {fold(flush)}; else return {};] *)
Definition flush_out (fold : fold_fn_t) (r : result (list Event)) : result (list Event) :=
  match r with
  | Ok [] => Ok []
  | Ok flush => fold_out fold flush
  | Throw x => Throw x
  end.

Definition fixed_time_window_step (dt : Z) (fold : fold_fn_t) (_ : clock)
    (w : fixed_time_window_t) (e : Event)
  : fixed_time_window_t * result (list Event) :=
  let '(w', r) := fixed_time_window_push dt w e in (w', flush_out fold r).

Definition fixed_time_window_lock_ (dt : Z) (fold : fold_fn_t) : machine :=
  step_machine fixed_time_window_init (fixed_time_window_step dt fold).
Definition fixed_time_window_lock (dt : Z) (fold : fold_fn_t) : streams_t :=
  create_stream_simple (fixed_time_window_lock_ dt fold).
End time_windows.

Arguments moving_time_window_t : clear implicits.
Arguments fixed_time_window_t : clear implicits.

(** ** Reference definitions *)

(** The last [n] elements. *)
Definition last_n {A} (n : nat) (l : list A) : list A := drop (length l - n) l.

(** The non-empty prefixes, shortest first: what had arrived after each event. *)
Definition prefixes {A} (l : list A) : list (list A) :=
  (fun k => take k l) <$> seq 1 (length l).

(** The events with a time, in the order they came. *)
Definition timed (es : list Event) : list Event :=
  filter (fun e => Event.has_time e = true) es.

Definition max_of (l : list Event) : Z := foldr (fun e m => Z.max (Event.time e) m) 0%Z l.

(** ** Lemmas on the references *)

Lemma prefixes_snoc {A} (l : list A) x : prefixes (l ++ [x]) = prefixes l ++ [l ++ [x]].
Proof.
  unfold prefixes. rewrite length_app, Nat.add_comm. cbn [length Nat.add].
  rewrite seq_S, fmap_app. f_equal.
  - apply list_fmap_ext. intros i k Hk. apply lookup_seq in Hk as [-> Hi].
    by rewrite take_app_le by lia.
  - cbn [fmap list_fmap]. by rewrite (take_ge (l ++ [x])) by (rewrite length_app; simpl; lia).
Qed.

(** Dropping all but the last [n] of a list that grew at its end. *)
Lemma last_n_snoc {A} n (l : list A) x :
  last_n n (l ++ [x]) =
  if decide (length (last_n n l ++ [x]) = n + 1)%nat
  then tail (last_n n l ++ [x]) else last_n n l ++ [x].
Proof.
  unfold last_n. rewrite !length_app, length_drop. cbn [length].
  destruct (decide (n <= length l)%nat) as [Hn|Hn].
  - rewrite decide_True by lia.
    rewrite <- (drop_app_le l [x]) by lia.
    replace (length l + 1 - n)%nat with (length l - n + 1)%nat by lia.
    rewrite <- drop_drop. by destruct (drop (length l - n) (l ++ [x])).
  - rewrite decide_False by lia.
    replace (length l + 1 - n)%nat with 0%nat by lia.
    by replace (length l - n)%nat with 0%nat by lia.
Qed.

Lemma last_n_all {A} (l : list A) : last_n (length l) l = l.
Proof. unfold last_n. by rewrite Nat.sub_diag. Qed.

Lemma last_n_0 {A} (l : list A) : last_n 0 l = [].
Proof. unfold last_n. apply drop_ge. lia. Qed.

Lemma last_n_S {A} n (l : list A) x : last_n (S n) (l ++ [x]) = last_n n l ++ [x].
Proof.
  unfold last_n. rewrite length_app. cbn [length].
  replace (length l + 1 - S n)%nat with (length l - n)%nat by lia.
  apply drop_app_le. lia.
Qed.

Lemma length_last_n {A} n (l : list A) : length (last_n n l) = Nat.min n (length l).
Proof. unfold last_n. rewrite length_drop. lia. Qed.

(** ** Properties: windows of [n] events *)

Lemma moving_event_window_run n fold es :
  run_steps (moving_event_window_step n fold) es [] =
  (last_n n es.*2, (fun p => fold_out fold (last_n n p)) <$> prefixes es.*2).
Proof.
  induction es as [|[t e] es IH] using rev_ind; [done|].
  rewrite run_steps_snoc, IH, fmap_app. simpl. rewrite prefixes_snoc, fmap_app. simpl.
  unfold moving_event_window_step. by rewrite last_n_snoc.
Qed.

(** [moving_event_window(n, fold)] yields, for every event, the fold of the last
    [n] events up to it, in the order they came (of all of them while there are
    fewer), and keeps nothing else. *)
Theorem moving_event_window_spec (n : nat) (fold : fold_fn_t) (es : list (clock * Event)) :
  run_events (m_event (moving_event_window_lock_ n fold)) es [] =
  (last_n n es.*2, [], (fun p => fold_out fold (last_n n p)) <$> prefixes es.*2).
Proof.
  unfold moving_event_window_lock_. by rewrite run_events_step, moving_event_window_run.
Qed.

(** What [fixed_event_window(n, fold)] yields for the last event of a prefix. *)
Definition fixed_window_out (n : nat) (fold : fold_fn_t) (p : list Event)
  : result (list Event) :=
  if decide (length p mod n = 0)%nat then fold_out fold (last_n n p) else Ok [].

(** [fixed_event_window(n, fold)] cuts the events into consecutive blocks of
    [n], yields the fold of a block with the last event of it and nothing in
    between, and keeps exactly the events of the unfinished block. *)
Theorem fixed_event_window_spec (n : nat) (fold : fold_fn_t) (es : list (clock * Event)) :
  (0 < n)%nat ->
  run_events (m_event (fixed_event_window_lock_ n fold)) es [] =
  (last_n (length es mod n) es.*2, [], fixed_window_out n fold <$> prefixes es.*2).
Proof.
  intros Hn. unfold fixed_event_window_lock_. rewrite run_events_step.
  enough (run_steps (fixed_event_window_step n fold) es [] =
          (last_n (length es mod n) es.*2, fixed_window_out n fold <$> prefixes es.*2))
    as -> by done.
  induction es as [|[t e] es IH] using rev_ind;
    [simpl; unfold last_n; by rewrite drop_nil|].
  rewrite run_steps_snoc, IH, fmap_app, length_app. simpl.
  rewrite prefixes_snoc, fmap_app. simpl. unfold fixed_event_window_step.
  unfold fixed_window_out at 3. rewrite !length_app, length_fmap. cbn [length].
  rewrite length_last_n, length_fmap.
  pose proof (Nat.mod_upper_bound (length es) n ltac:(lia)) as Hb.
  pose proof (Nat.Div0.mod_le (length es) n) as Hle.
  rewrite Nat.min_l by done.
  destruct (decide (length es mod n + 1 = n)%nat) as [He|He].
  - assert ((length es + 1) mod n = 0)%nat as ->.
    { rewrite <- Nat.Div0.add_mod_idemp_l, He. by apply Nat.Div0.mod_same. }
    rewrite decide_True by done. rewrite last_n_0. f_equal. f_equal. f_equal.
    assert (last_n n (es.*2 ++ [e]) = last_n (length es mod n) es.*2 ++ [e]) as ->
      by (rewrite <- last_n_S; f_equal; lia).
    by destruct (last_n (length es mod n) es.*2).
  - assert ((length es + 1) mod n = length es mod n + 1)%nat as Hm.
    { rewrite <- Nat.Div0.add_mod_idemp_l. apply Nat.mod_small. lia. }
    rewrite Hm. rewrite decide_False by lia.
    by rewrite (Nat.add_1_r (length es mod n)), last_n_S.
Qed.

Lemma fixed_event_window_spec_witness :
  let ev t := Event.set_time t Event.empty in
  (run_events (m_event (fixed_event_window_lock_ 2 Folds.count))
     [(0, ev 1); (0, ev 2); (0, ev 3)]%Z []).1.1 = [ev 3%Z].
Proof.
  cbv zeta. rewrite (fixed_event_window_spec 2 Folds.count _ ltac:(lia)).
  vm_compute. reflexivity.
Defined.

(** ** Properties: windows of [dt] seconds *)

Abbreviation by_time := (fun a b => Event.time a <= Event.time b)%Z.

(** The last [dt] seconds of what arrived, counted back from the latest time;
    everything, as long as the latest time is below [dt]. *)
Definition last_seconds (dt : Z) (l : list Event) : list Event :=
  if (max_of l <? dt)%Z then l
  else filter (fun e => max_of l - dt < Event.time e)%Z l.

Lemma max_of_app l1 l2 : max_of (l1 ++ l2) = Z.max (max_of l1) (max_of l2).
Proof.
  induction l1 as [|e l1 IH]; simpl.
  - unfold max_of at 2. induction l2; simpl; lia.
  - fold (max_of (l1 ++ l2)). fold (max_of l1). lia.
Qed.

Lemma max_of_bounds l :
  Forall (fun e => in_i64 (Event.time e)) l -> (0 <= max_of l < two63)%Z.
Proof.
  induction 1 as [|e l He _ IH]; simpl; unfold in_i64, two63 in *; [lia|].
  fold (max_of l). lia.
Qed.

Lemma timed_snoc l e :
  timed (l ++ [e]) = timed l ++ if Event.has_time e then [e] else [].
Proof.
  unfold timed. rewrite list.filter_app. f_equal. rewrite filter_cons, filter_nil.
  by destruct (Event.has_time e).
Qed.

(** Filtering by the later, higher threshold forgets the earlier one. *)
Lemma last_seconds_snoc dt l e :
  (0 <= dt)%Z ->
  let max := Z.max (max_of l) (Event.time e) in
  last_seconds dt (l ++ [e]) ≡ₚ
  if (max <? dt)%Z then e :: last_seconds dt l
  else filter (fun x => max - dt < Event.time x)%Z (e :: last_seconds dt l).
Proof.
  intros Hdt max. assert (max_of (l ++ [e]) = max) as Hm.
  { rewrite max_of_app. subst max. simpl.
    assert (0 <= max_of l)%Z by (induction l; simpl; lia). lia. }
  unfold last_seconds at 1. rewrite Hm.
  assert (l ++ [e] ≡ₚ e :: l) as Hp by (by rewrite Permutation_app_comm).
  destruct (max <? dt)%Z eqn:Hlt.
  - unfold last_seconds. replace (max_of l <? dt)%Z with true; [done|]. subst max. blia.
  - rewrite Hp. rewrite !filter_cons. unfold last_seconds.
    destruct (max_of l <? dt)%Z eqn:Hl; [done|].
    rewrite list_filter_filter_l; [done|]. subst max. lia.
Qed.

Section time_windows_correct.
Context {Q : Type -> Type} `{PriorityQueueLaws Q}.

(** What the queue and the maximum hold after the events [l]. *)
Definition mtw_holds (dt : Z) (l : list Event) (w : moving_time_window_t Q) : Prop :=
  mtw_max w = max_of (timed l)
  /\ pq_elems (mtw_pq w) ≡ₚ last_seconds dt (timed l).

Lemma mtw_push_holds dt l w e :
  (0 <= dt)%Z -> Forall (fun x => in_i64 (Event.time x)) (timed (l ++ [e])) ->
  mtw_holds dt l w ->
  let '(w', o) := moving_time_window_push dt w e in
  mtw_holds dt (l ++ [e]) w'
  /\ o = if Event.has_time e then Some (pq_drain Event.time (mtw_pq w')) else None.
Proof.
  intros Hdt Hr [Hmax Hpq]. pose proof (max_of_bounds _ Hr) as Hb.
  unfold moving_time_window_push, mtw_holds. rewrite timed_snoc in *.
  destruct (Event.has_time e); simpl; [|by rewrite app_nil_r].
  pose proof (last_seconds_snoc dt (timed l) e Hdt) as Hs. cbv zeta in Hs.
  rewrite max_of_app in Hb |- *. simpl in Hb |- *.
  apply Forall_app in Hr as [Hr _]. apply max_of_bounds in Hr.
  rewrite Hmax. set (m := if (_ >? _)%Z then _ else _).
  assert (m = Z.max (max_of (timed l)) (Event.time e)) as Hm
    by (subst m; case_scrut; blia).
  rewrite <- Hm in Hs. split; [|done]. split; [lia|]. rewrite Hs.
  destruct (m <? dt)%Z eqn:Hlt; [by rewrite pq_elems_push, Hpq|].
  destruct (pq_pop_while _ _ _) as [out q] eqn:Eq.
  apply pq_pop_while_filter in Eq as (_ & Hq & _); [|intros; blia].
  simpl. rewrite Hq, pq_elems_push, Hpq.
  rewrite i64_sub_exact by (unfold in_i64, two63 in *; blia).
  erewrite list_filter_iff; [done|]. intros x. apply Z.leb_gt.
Qed.

(** What a moving window yields for the last event of a prefix. *)
Definition mtw_out (dt : Z) (fold : fold_fn_t) (p : list Event) (r : result (list Event))
  : Prop :=
  exists e, list.last p = Some e /\
  if Event.has_time e
  then exists l, r = fold_out fold l
       /\ l ≡ₚ last_seconds dt (timed p) /\ StronglySorted by_time l
  else r = Ok [].

(** C36. [moving_time_window(dt, fold)], over any priority queue: for every event
    with a time it yields the fold of exactly the events whose time is within the
    last [dt] seconds of the latest time seen, in the order of their times, late and
    out-of-order events included; an event without a time yields nothing.  What
    the queue holds between events is that window, so nothing accumulates. *)
Theorem moving_time_window_spec (dt : Z) (fold : fold_fn_t) (es : list (clock * Event)) :
  (0 <= dt)%Z -> Forall (fun x => in_i64 (Event.time x)) (timed es.*2) ->
  let m := moving_time_window_lock_ (Q := Q) dt fold in
  let '(w, _, rs) := run_events (m_event m) es moving_time_window_init in
  mtw_holds dt es.*2 w /\ Forall2 (mtw_out dt fold) (prefixes es.*2) rs.
Proof.
  intros Hdt Hr m. unfold m, moving_time_window_lock_. rewrite run_events_step.
  induction es as [|[t e] es IH] using rev_ind.
  { split; [split; [done|]|constructor]. simpl. rewrite pq_elems_empty.
    unfold last_seconds. simpl. by destruct (0 <? dt)%Z. }
  rewrite run_steps_snoc. rewrite fmap_app in *. simpl in *.
  assert (Forall (fun x => in_i64 (Event.time x)) (timed es.*2)) as Hr'.
  { rewrite timed_snoc in Hr. by apply Forall_app in Hr as [? _]. }
  specialize (IH Hr').
  destruct (run_steps _ es _) as [w rs]. destruct IH as [Hw Hrs].
  unfold moving_time_window_step.
  pose proof (mtw_push_holds dt _ w e Hdt Hr Hw) as Hp.
  destruct (moving_time_window_push dt w e) as [w' o]. destruct Hp as [Hw' ->].
  split; [done|]. rewrite prefixes_snoc. apply Forall2_app; [done|].
  constructor; [|constructor]. exists e. rewrite last_snoc. split; [done|].
  destruct (Event.has_time e); [|done]. exists (pq_drain Event.time (mtw_pq w')).
  split; [done|]. split; [|apply pq_drain_sorted]. rewrite pq_drain_perm. apply Hw'.
Qed.

(** A batch that lies within one of the intervals [[k dt, (k + 1) dt)]. *)
Definition one_window (dt : Z) (f : list Event) : Prop :=
  StronglySorted by_time f
  /\ exists k, Forall (fun e => k * dt <= Event.time e < (k + 1) * dt)%Z f.

(** A boundary between two such intervals separates the batches. *)
Definition separated (dt : Z) (f g : list Event) : Prop :=
  exists k, Forall (fun e => Event.time e < k * dt)%Z f
         /\ Forall (fun e => k * dt <= Event.time e)%Z g.

(** What holds after the events [l], of which the batches [fs] were flushed. *)
Record ftw_holds (dt : Z) (l : list Event) (fs : list (list Event))
    (w : fixed_time_window_t Q) : Prop := {
  ftw_idle : ftw_started w = false -> timed l = [] /\ ftw_start w = 0%Z;
  ftw_bounds : ftw_started w = true ->
    (0 <= ftw_start w <= ftw_max w /\ ftw_max w < two63 - dt)%Z;
  ftw_kept : exists late, concat fs ++ pq_elems (ftw_pq w) ++ late ≡ₚ timed l
             /\ Forall (fun e => Event.time e < ftw_start w)%Z late;
  ftw_pending : Forall (fun e => ftw_start w <= Event.time e)%Z (pq_elems (ftw_pq w));
  ftw_batches : Forall (one_window dt) fs;
  ftw_order : StronglySorted (separated dt) fs;
  ftw_flushed : Forall (fun f => exists k, Forall (fun e => Event.time e < k * dt)%Z f
                                      /\ k * dt <= ftw_start w)%Z fs
}.

Lemma ftw_init_holds dt : ftw_holds dt [] [] fixed_time_window_init.
Proof.
  split; simpl; rewrite ?pq_elems_empty; try done; [by exists []|constructor..].
Qed.

(** The end of the window that contains [start]. *)
Lemma next_interval_eq dt start :
  (0 < dt)%Z -> (0 <= start < two63 - dt)%Z ->
  next_interval start dt = ((start `div` dt + 1) * dt)%Z.
Proof.
  intros Hdt Hs. unfold next_interval. rewrite Z.rem_mod_nonneg by lia.
  pose proof (Z.mod_pos_bound start dt Hdt). pose proof (Z.div_mod start dt ltac:(lia)).
  pose proof (Z.mod_le start dt ltac:(lia) ltac:(lia)).
  rewrite i64_sub_exact by (unfold in_i64, two63 in *; lia).
  rewrite i64_add_exact by (unfold in_i64, two63 in *; lia). lia.
Qed.

Lemma ftw_holds_empty dt l fs w :
  (0 < dt)%Z -> ftw_holds dt l fs w -> ftw_holds dt l (fs ++ [[]]) w.
Proof.
  intros Hdt [Hi Hb Hk Hp Hw Ho Hf]. constructor; auto.
  - rewrite concat_app. simpl. by rewrite app_nil_r.
  - apply Forall_app. split; [done|]. repeat constructor. exists 0%Z. constructor.
  - apply StronglySorted_snoc; [done|]. revert Hf. apply Forall_impl.
    intros f (k & Hfk & _). exists k. split; [done|constructor].
  - apply Forall_app. split; [done|]. repeat constructor.
    exists (ftw_start w `div` dt)%Z. split; [constructor|].
    pose proof (Z.mul_div_le (ftw_start w) dt Hdt). lia.
Qed.

(** An event that joins the queue. *)
Lemma ftw_holds_push dt l fs w e :
  ftw_holds dt l fs w -> Event.has_time e = true -> ftw_started w = true ->
  (ftw_start w <= Event.time e < two63 - dt)%Z ->
  ftw_holds dt (l ++ [e]) fs
    (MkFTW (pq_push Event.time e (ftw_pq w)) (ftw_start w)
       (if (Event.time e >? ftw_max w)%Z then Event.time e else ftw_max w) true).
Proof.
  intros [Hi Hb (late & Hk & Hl) Hp Hw Ho Hf] He Hs Ht. specialize (Hb Hs).
  constructor; simpl; auto.
  - done.
  - intros _. destruct (_ >? _)%Z eqn:Hc; rewrite ?Z.gtb_ltb in Hc; blia.
  - exists late. split; [|done]. rewrite timed_snoc, He, <- Hk, pq_elems_push.
    rewrite <- !app_assoc. simpl. solve_Permutation.
  - rewrite pq_elems_push. constructor; [lia|done].
Qed.

(** Flushing what is below the end of the current window. *)
Lemma ftw_holds_flush dt l fs w f q :
  (0 < dt)%Z -> ftw_holds dt l fs w -> ftw_started w = true ->
  let next := next_interval (ftw_start w) dt in
  (next <= ftw_max w)%Z ->
  pq_pop_while Event.time (fun x => Event.time x <? next)%Z (ftw_pq w) = (f, q) ->
  ftw_holds dt l (fs ++ [f]) (MkFTW q next (ftw_max w) true).
Proof.
  intros Hdt [Hi Hb (late & Hk & Hl) Hp Hw Ho Hf] Hs next Hn Hq. specialize (Hb Hs).
  apply pq_pop_while_spec in Hq as (Hperm & Hlt & Hge & Hsort); [|intros; blia].
  assert (next = ((ftw_start w `div` dt + 1) * dt)%Z) as Hnext
    by (apply next_interval_eq; lia).
  pose proof (Z.mul_div_le (ftw_start w) dt Hdt) as Hle.
  pose proof (Z.mul_succ_div_gt (ftw_start w) dt Hdt) as Hgt.
  assert (Forall (fun e => ftw_start w <= Event.time e < next)%Z f) as Hin.
  { rewrite Hperm in Hp. apply Forall_app in Hp as [Hp _].
    apply Forall_and; [done|]. revert Hlt. apply Forall_impl. intros; blia. }
  constructor; simpl; auto.
  - done.
  - intros _. lia.
  - exists late. split.
    + rewrite concat_app. simpl. rewrite app_nil_r, <- Hk, Hperm.
      by rewrite <- !app_assoc.
    + revert Hl. apply Forall_impl. intros; lia.
  - revert Hge. apply Forall_impl. intros; blia.
  - apply Forall_app. split; [done|]. repeat constructor; [done|].
    exists (ftw_start w `div` dt)%Z. revert Hin. apply Forall_impl. intros; lia.
  - apply StronglySorted_snoc; [done|]. revert Hf. apply Forall_impl.
    intros g (k & Hg & Hks). exists k. split; [done|].
    revert Hin. apply Forall_impl. intros; lia.
  - apply Forall_app. split.
    + revert Hf. apply Forall_impl. intros g (k & Hg & Hks). exists k.
      split; [done|lia].
    + repeat constructor. exists (ftw_start w `div` dt + 1)%Z. split; [|lia].
      revert Hin. apply Forall_impl. intros; lia.
Qed.
(** The first event with a time opens the window. *)
Lemma ftw_start_holds dt l fs w e :
  ftw_holds dt l fs w -> ftw_started w = false -> Event.has_time e = true ->
  (0 <= Event.time e < two63 - dt)%Z ->
  ftw_holds dt (l ++ [e]) fs
    (MkFTW (pq_push Event.time e (ftw_pq w)) (Event.time e) (Event.time e) true).
Proof.
  intros [Hi Hb (late & Hk & Hl) Hp Hw Ho Hf] Hs He Ht.
  destruct (Hi Hs) as [Hl0 Hs0]. rewrite Hl0 in Hk.
  symmetry in Hk. apply Permutation_nil in Hk.
  apply app_eq_nil in Hk as [Hfs Hk]. apply app_eq_nil in Hk as [Hq ->].
  split; simpl; auto.
  - done.
  - lia.
  - exists []. rewrite pq_elems_push, Hfs, Hq, timed_snoc, Hl0, He.
    split; [done|constructor].
  - rewrite pq_elems_push, Hq. repeat constructor. lia.
  - revert Hf. apply Forall_impl. intros f (k & Hfk & Hk). exists k. split; [done|lia].
Qed.

Lemma ftw_push_holds dt l fs w e :
  (0 < dt)%Z -> ftw_holds dt l fs w ->
  (Event.has_time e = true -> 0 <= Event.time e < two63 - dt)%Z ->
  let '(w', r) := fixed_time_window_push dt w e in
  exists f, r = Ok f /\ ftw_holds dt (l ++ [e]) (fs ++ [f]) w'.
Proof.
  intros Hdt Hw Ht. unfold fixed_time_window_push.
  destruct (Event.has_time e) eqn:He; simpl.
  2:{ exists []. split; [done|]. apply ftw_holds_empty; [done|].
      destruct Hw. by split; rewrite ?timed_snoc, ?He, ?app_nil_r. }
  specialize (Ht eq_refl).
  destruct (ftw_started w) eqn:Hs; simpl.
  2:{ exists []. split; [done|]. apply ftw_holds_empty; [done|].
      by apply ftw_start_holds. }
  destruct (Event.time e <? ftw_start w)%Z eqn:Hold.
  { exists []. split; [done|]. apply ftw_holds_empty; [done|].
    destruct Hw as [Hi Hb (late & Hk & Hl) Hp Hwin Ho Hf]. split; auto.
    - by rewrite Hs.
    - exists (late ++ [e]). rewrite timed_snoc, He, <- Hk, <- !app_assoc.
      split; [done|]. apply Forall_app. repeat constructor; auto. blia. }
  destruct (dt =? 0)%Z eqn:Hz; [blia|].
  pose proof (ftw_holds_push dt l fs w e Hw He Hs ltac:(blia)) as Hpush.
  set (max := if (_ >? _)%Z then _ else _) in *.
  destruct (max <? next_interval (ftw_start w) dt)%Z eqn:Hn.
  { exists []. split; [done|]. by apply ftw_holds_empty. }
  destruct (pq_pop_while _ _ _) as [f q] eqn:Hq. exists f. split; [done|].
  apply (ftw_holds_flush dt _ fs _ f q Hdt Hpush); simpl; [done|blia|done].
Qed.

Lemma ftw_run_holds dt es :
  (0 < dt)%Z -> Forall (fun x => 0 <= Event.time x < two63 - dt)%Z (timed es.*2) ->
  let '(w, rs) := run_steps (fun _ => fixed_time_window_push dt) es fixed_time_window_init in
  exists fs, rs = Ok <$> fs /\ ftw_holds dt es.*2 fs w.
Proof.
  intros Hdt. induction es as [|[t e] es IH] using rev_ind; intros Hr.
  { exists []. split; [done|]. apply ftw_init_holds. }
  rewrite run_steps_snoc. rewrite fmap_app in *. simpl in *.
  rewrite timed_snoc in Hr. apply Forall_app in Hr as [Hr He]. specialize (IH Hr).
  destruct (run_steps _ es _) as [w rs]. destruct IH as (fs & -> & Hw).
  pose proof (ftw_push_holds dt _ fs w e Hdt Hw) as Hp.
  destruct (fixed_time_window_push dt w e) as [w' r].
  destruct Hp as (f & -> & Hw').
  { intros Ht. rewrite Ht in He. by inv He. }
  exists (fs ++ [f]). by rewrite fmap_app.
Qed.

(** The machine yields the folds of the batches. *)
Lemma ftw_machine_run dt fold es w :
  run_steps (fixed_time_window_step (Q := Q) dt fold) es w =
  let '(w', rs) := run_steps (fun _ => fixed_time_window_push dt) es w in
  (w', flush_out fold <$> rs).
Proof.
  revert w. induction es as [|[t e] es IH]; intros w; simpl; [done|].
  unfold fixed_time_window_step at 1.
  destruct (fixed_time_window_push dt w e) as [w1 r]. rewrite IH.
  by destruct (run_steps _ es w1).
Qed.

End time_windows_correct.


Lemma moving_time_window_spec_witness :
  let ev t := Event.set_time t Event.empty in
  let es := [(0, ev 10); (0, ev 4); (0, ev 7)]%Z in
  let '(w, _, rs) := run_events
    (m_event (moving_time_window_lock_ (Q := heap) 5 Folds.count)) es
    moving_time_window_init in
  pq_elems (mtw_pq w) ≡ₚ [ev 10; ev 7]%Z.
Proof.
  pose proof (moving_time_window_spec (Q := heap) 5 Folds.count
    [(0, Event.set_time 10 Event.empty); (0, Event.set_time 4 Event.empty);
     (0, Event.set_time 7 Event.empty)]%Z ltac:(lia)
    ltac:(by_decide)) as H.
  cbv zeta in H |- *. destruct (run_events _ _ _) as [[w x] rs].
  destruct H as [[_ H] _]. rewrite H. vm_compute. apply Permutation_refl.
Defined.
