(* ===== verification/Filters.v ===== *)
(** * Streams that remember: [changed_state], [stable], [throttle], [ddt]

    From [src/streams/stream_functions_lock.cpp].  Each is a pure step on the
    struct the closure captures. *)

From S2P Require Import Prelude Ieee Events Infra.

Local Open Scope cav_scope.

(** ** [changed_state] *)

Definition changed_state_step (_ : clock) (prev : string) (e : Event)
  : string * result (list Event) :=
  if decide (prev = Event.state e) then (prev, Ok []) else (Event.state e, Ok [e]).

Definition changed_state_lock_ (initial : string) : machine :=
  step_machine initial changed_state_step.
Definition changed_state_lock (initial : string) : streams_t :=
  create_stream_simple (changed_state_lock_ initial).

(** ** [stable] *)

Record stable_t : Type := MkStable {
  st_state : string;
  st_buffer : list Event;
  st_start : Z
}.

Definition stable_init : stable_t := MkStable "" [] 0.

(** The buffer is moved out when it is flushed, which leaves it empty. *)
Definition stable_step (dt : Z) (_ : clock) (s : stable_t) (e : Event)
  : stable_t * result (list Event) :=
  if decide (st_state s <> Event.state e)
  then (MkStable (Event.state e) [e] (Event.time e), Ok [])
  else if (Event.time e <? st_start s)%Z then (s, Ok [])
  else if (i64_add (st_start s) dt >? Event.time e)%Z
  then (MkStable (st_state s) (st_buffer s ++ [e]) (st_start s), Ok [])
  else (MkStable (st_state s) [] (st_start s), Ok (st_buffer s ++ [e])).

Definition stable_lock_ (dt : Z) : machine := step_machine stable_init (stable_step dt).
Definition stable_lock (dt : Z) : streams_t := create_stream_simple (stable_lock_ dt).

(** ** [throttle] *)

Record throttle_t : Type := MkThrottle {
  th_forwarded : nat;
  th_new_interval : Z
}.

Definition throttle_init : throttle_t := MkThrottle 0 0.

(** [new_interval += e.time() + dt], as the source has it. *)
Definition throttle_step (n : nat) (dt : Z) (_ : clock) (t : throttle_t) (e : Event)
  : throttle_t * result (list Event) :=
  let t :=
    if (th_new_interval t <? Event.time e)%Z
    then MkThrottle 0 (i64_add (th_new_interval t) (i64_add (Event.time e) dt))
    else t in
  if (th_forwarded t <? n)%nat
  then (MkThrottle (S (th_forwarded t)) (th_new_interval t), Ok [e])
  else (t, Ok []).

Definition throttle_lock_ (n : nat) (dt : Z) : machine :=
  step_machine throttle_init (throttle_step n dt).
Definition throttle_lock (n : nat) (dt : Z) : streams_t :=
  create_stream_simple (throttle_lock_ n dt).

(** ** [ddt] *)

Record ddt_prev_t : Type := MkDdtPrev {
  dp_metric : double;
  dp_time : Z;
  dp_initialized : bool
}.

Definition ddt_init : ddt_prev_t := MkDdtPrev d_zero 0 false.

(** The lock of this one guards nothing ([std::lock_guard<std::mutex>
    guard(std::mutex)] declares a function); the step is what one caller does. *)
Definition ddt_step (_ : clock) (prev : ddt_prev_t) (e : Event)
  : ddt_prev_t * result (list Event) :=
  let prev' := MkDdtPrev (Event.metric e) (Event.time e) true in
  if negb (dp_initialized prev) then (prev', Ok [])
  else
    let dt := i64_sub (Event.time e) (dp_time prev) in
    if (dt =? 0)%Z then (prev', Ok [])
    else
      let metric := d_div (d_sub (dp_metric prev') (dp_metric prev)) (d_of_Z dt) in
      (prev', Ok [Event.set_metric metric (Event.copy e)]).

Definition ddt_lock_ : machine := step_machine ddt_init ddt_step.
Definition ddt_lock : streams_t := create_stream_simple ddt_lock_.

(** ** Streams that compare an event with the one before it *)

(** If the state after an event is a function of that event alone, the results are
    those of each event against its predecessor. *)
Lemma run_steps_pred {S R} (f : clock -> S -> Event -> S * R) (g : Event -> S)
    (h : S -> Event -> R) es s :
  (forall now s e, f now s e = (g e, h s e)) ->
  run_steps f es s = (default s (g <$> list.last es.*2), zip_with h (s :: (g <$> es.*2)) es.*2).
Proof.
  intros Hf. revert s. induction es as [|[t e] es IH]; intros s; [done|].
  cbn [run_steps]. rewrite Hf, IH. rewrite !fmap_cons. cbn [zip_with snd].
  rewrite last_cons. by destruct (list.last es.*2).
Qed.

(** What [changed_state] yields for an event after one with state [prev]. *)
Definition changed_from (prev : string) (e : Event) : result (list Event) :=
  Ok (if decide (prev = Event.state e) then [] else [e]).

Lemma changed_state_run initial es :
  run_steps changed_state_step es initial =
  (default initial (Event.state <$> list.last es.*2),
   zip_with changed_from (initial :: (Event.state <$> es.*2)) es.*2).
Proof.
  apply run_steps_pred. intros now s e. unfold changed_state_step, changed_from.
  by case_decide; subst.
Qed.

(** ** Properties *)

(** [changed_state_] passes an event on exactly when its state differs from that of
    the event before it (from [initial] for the first one). *)
Theorem changed_state_spec (initial : string) (es : list (clock * Event)) :
  run_events (m_event (changed_state_lock_ initial)) es initial =
  (default initial (Event.state <$> list.last es.*2), [],
   zip_with changed_from (initial :: (Event.state <$> es.*2)) es.*2).
Proof.
  unfold changed_state_lock_. by rewrite run_events_step, changed_state_run.
Qed.

(** The difference quotient of two consecutive events, if their times differ. *)
Definition ddt_between (prev : option Event) (e : Event) : result (list Event) :=
  Ok match prev with
     | None => []
     | Some p =>
         if decide (Event.time e = Event.time p) then []
         else [Event.set_metric
                 (d_div (d_sub (Event.metric e) (Event.metric p))
                        (d_of_Z (Event.time e - Event.time p))) e]
     end.

(** [ddt] yields, for every event but the first, the change of the metric since
    the event before it divided by the change of the time, and nothing when the
    time did not change. *)
Theorem ddt_spec (es : list (clock * Event)) :
  Forall (fun e => 0 <= Event.time e < two63)%Z es.*2 ->
  (run_events (m_event ddt_lock_) es ddt_init).2 =
  zip_with ddt_between (None :: (Some <$> es.*2)) es.*2.
Proof.
  intros Hr. unfold ddt_lock_. rewrite run_events_step.
  rewrite (run_steps_pred _ (fun e => MkDdtPrev (Event.metric e) (Event.time e) true)
    (fun prev e => (ddt_step 0 prev e).2)).
  2:{ intros now s e. unfold ddt_step. by repeat case_scrut. }
  cbn [snd]. generalize (es.*2) Hr. clear es Hr. intros [|e es] Hr; [done|].
  rewrite !fmap_cons. cbn [zip_with]. f_equal.
  apply Forall_cons_iff in Hr as [He Hr].
  revert e He. induction es as [|e' es IH]; intros e He; [done|].
  apply Forall_cons_iff in Hr as [He' Hr].
  rewrite !fmap_cons. cbn [zip_with]. f_equal; [|by apply IH].
  unfold ddt_step, ddt_between. cbn [negb dp_initialized dp_time dp_metric].
  rewrite i64_sub_exact by (unfold in_i64, two63 in *; lia).
  case_decide; destruct (_ =? _)%Z eqn:Hz; try done; blia.
Qed.

Lemma ddt_spec_witness :
  let ev t m := Event.set_metric (d_of_Z m) (Event.set_time t Event.empty) in
  (run_events (m_event ddt_lock_) [(0, ev 2 1); (0, ev 4 7)]%Z ddt_init).2
  = [Ok []; Ok [ev 4 3]]%Z.
Proof.
  cbv zeta. rewrite ddt_spec; [vm_compute; reflexivity|by_decide].
Defined.

(** [stable] on a run of events that share a state: what it has yielded and what it
    still holds back, after the events [l] that follow the change at [h]. *)
Record stable_holds (dt : Z) (h : Event) (l : list Event) (outs : list (list Event))
    (s : stable_t) : Prop := {
  sh_state : st_state s = Event.state h;
  sh_start : st_start s = Event.time h;
  sh_kept : concat outs ++ st_buffer s =
            filter (fun e => Event.time h <= Event.time e)%Z (h :: l);
  sh_held : Forall (fun e => Event.time e < Event.time h + dt)%Z (st_buffer s);
  sh_outs : Forall (fun o => o = [] \/
              exists x, list.last o = Some x /\ Event.time h + dt <= Event.time x)%Z outs
}.

Lemma stable_step_holds dt now h l outs s e :
  in_i64 (Event.time h + dt) -> Event.state e = Event.state h ->
  stable_holds dt h l outs s ->
  let '(s', r) := stable_step dt now s e in
  exists o, r = Ok o /\ stable_holds dt h (l ++ [e]) (outs ++ [o]) s'.
Proof.
  intros Hr He [Hst Hsr Hk Hh Ho]. unfold stable_step.
  rewrite decide_False by (intros Hn; apply Hn; congruence).
  assert (filter (fun e => Event.time h <= Event.time e)%Z (h :: l ++ [e]) =
    (concat outs ++ st_buffer s) ++
    if decide (Event.time h <= Event.time e)%Z then [e] else [])
    as Happ by (by rewrite Hk, app_comm_cons, list.filter_app).
  rewrite Hsr, i64_add_exact by done.
  destruct (Event.time e <? Event.time h)%Z eqn:Hold;
    [|destruct (Event.time h + dt >? Event.time e)%Z eqn:Hin; rewrite Z.gtb_ltb in Hin].
  - rewrite decide_False in Happ by blia. exists []. split; [done|].
    split; auto; rewrite ?Happ, ?concat_app; simpl; rewrite ?app_nil_r; [done|].
    apply Forall_app. split; [done|]. repeat constructor.
  - rewrite decide_True in Happ by blia. exists []. split; [done|].
    split; simpl; auto; rewrite ?Happ, ?concat_app; simpl; rewrite ?app_nil_r.
    + by rewrite app_assoc.
    + apply Forall_app. split; [done|]. repeat constructor. blia.
    + apply Forall_app. split; [done|]. repeat constructor.
  - rewrite decide_True in Happ by blia. eexists. split; [done|].
    split; simpl; auto; rewrite ?Happ, ?concat_app; simpl; rewrite ?app_nil_r.
    + by rewrite app_assoc.
    + apply Forall_app. split; [done|]. constructor; [right; exists e|constructor].
      rewrite last_snoc. split; [done|blia].
Qed.

(** C18. [stable(dt)] holds a new state back until it has lasted [dt] seconds.  Take
    any earlier history, an event [h] with a new state and events [es] with the
    same state.  Then what the stream yields for [h :: es], followed by what it
    still holds, is [h :: es] in order without the events older than [h]; it
    yields nothing but batches that end with an event at least [dt] after [h],
    and what it holds is younger than that.  Nothing of the history is yielded
    any more. *)
Theorem stable_spec (dt : Z) (s : stable_t) (t : clock) (h : Event)
    (es : list (clock * Event)) :
  (0 < dt)%Z -> in_i64 (Event.time h + dt) ->
  st_state s <> Event.state h ->
  Forall (fun e => Event.state e = Event.state h) es.*2 ->
  exists outs s',
    run_events (m_event (stable_lock_ dt)) ((t, h) :: es) s = (s', [], Ok <$> outs)
    /\ stable_holds dt h es.*2 outs s'.
Proof.
  intros Hdt Hr Hs Hes. unfold stable_lock_. rewrite run_events_step.
  induction es as [|[t' e] es IH] using rev_ind.
  { exists [[]], (MkStable (Event.state h) [h] (Event.time h)).
    simpl. unfold stable_step. rewrite decide_True by done. split; [done|].
    split; simpl; rewrite ?filter_cons, ?decide_True by lia; auto.
    repeat constructor. lia. }
  rewrite fmap_app in *. apply Forall_app in Hes as [Hes He]. apply Forall_inv in He.
  destruct (IH Hes) as (outs & s' & Hrun & Hh). rewrite app_comm_cons, run_steps_snoc.
  destruct (run_steps _ _ s) as [s1 rs]. inv Hrun.
  pose proof (stable_step_holds dt t' h _ outs s' e Hr He Hh) as Hstep.
  destruct (stable_step dt t' s' e) as [s2 r]. destruct Hstep as (o & -> & Hh').
  exists (outs ++ [o]), s2. by rewrite fmap_app.
Qed.

Lemma stable_spec_witness :
  let ev t s := Event.set_state s (Event.set_time t Event.empty) in
  exists outs s',
    run_events (m_event (stable_lock_ 3))
      [(0, ev 10 "ok"); (0, ev 12 "ok"); (0, ev 13 "ok")]%Z stable_init
    = (s', [], Ok <$> outs)
    /\ stable_holds 3 (ev 10%Z "ok") [ev 12%Z "ok"; ev 13%Z "ok"] outs s'.
Proof.
  apply (stable_spec 3 stable_init 0 (Event.set_state "ok" (Event.set_time 10 Event.empty))
    [(0, Event.set_state "ok" (Event.set_time 12 Event.empty));
     (0, Event.set_state "ok" (Event.set_time 13 Event.empty))]%Z);
  [lia|by_decide|by_decide|by_decide].
Defined.

(** Results that forward the first [n] events. *)
Definition forward_first (n : nat) (l : list Event) : list (result (list Event)) :=
  ((fun e => Ok [e]) <$> take n l) ++ ((fun _ => Ok []) <$> drop n l).

(** Within an interval only the count matters. *)
Lemma throttle_within n dt es s :
  (th_forwarded s <= n)%nat ->
  Forall (fun e => Event.time e <= th_new_interval s)%Z es.*2 ->
  run_steps (throttle_step n dt) es s =
  (MkThrottle (Nat.min n (th_forwarded s + length es)) (th_new_interval s),
   forward_first (n - th_forwarded s) es.*2).
Proof.
  revert s. induction es as [|[t e] es IH]; intros [fw ni] Hfw Hes.
  { simpl in *. unfold forward_first. rewrite take_nil, drop_nil. simpl.
    f_equal. f_equal. lia. }
  rewrite fmap_cons in *. simpl in Hes, Hfw |- *.
  apply Forall_cons_iff in Hes as [He Hes]. simpl in He, Hes.
  unfold throttle_step at 1. cbn [th_forwarded th_new_interval].
  replace (ni <? Event.time e)%Z with false by (symmetry; apply Z.ltb_ge; lia).
  cbn [th_forwarded th_new_interval].
  destruct (fw <? n)%nat eqn:Hn; rewrite IH by (simpl; auto; blia);
    cbn [th_forwarded th_new_interval].
  - apply Nat.ltb_lt in Hn. replace (n - fw)%nat with (S (n - S fw)) by lia.
    unfold forward_first. simpl. f_equal. f_equal. lia.
  - apply Nat.ltb_ge in Hn. replace (n - fw)%nat with 0%nat by lia.
    unfold forward_first. simpl. f_equal. f_equal. lia.
Qed.

(** An event beyond the interval opens the next one. *)
Lemma throttle_opens n dt s t e es :
  (th_new_interval s < Event.time e)%Z ->
  in_i64 (Event.time e + dt) -> in_i64 (th_new_interval s + (Event.time e + dt)) ->
  Forall (fun x => Event.time x <= th_new_interval s + (Event.time e + dt))%Z es.*2 ->
  run_steps (throttle_step n dt) ((t, e) :: es) s =
  (MkThrottle (Nat.min n (S (length es))) (th_new_interval s + (Event.time e + dt))%Z,
   forward_first n (e :: es.*2)).
Proof.
  intros Hnew Hr1 Hr2 Hes. cbn [run_steps]. unfold throttle_step at 1.
  replace (th_new_interval s <? Event.time e)%Z with true
    by (symmetry; by apply Z.ltb_lt).
  rewrite (i64_add_exact (Event.time e)), i64_add_exact by done.
  cbn [th_forwarded th_new_interval].
  destruct (0 <? n)%nat eqn:Hn; rewrite throttle_within by (simpl; auto; blia);
    cbn [th_forwarded th_new_interval].
  - apply Nat.ltb_lt in Hn. destruct n as [|n]; [lia|]. unfold forward_first. simpl.
    by rewrite Nat.sub_0_r.
  - apply Nat.ltb_ge in Hn. assert (n = 0)%nat as -> by lia. done.
Qed.

(** [throttle(n, dt)]: an event past the current interval opens a new one, and of
    the events from there on up to the end of that interval exactly the first [n]
    are forwarded, whatever their order.  The end is the old end plus the event's
    time plus [dt]. *)
Theorem throttle_spec (n : nat) (dt : Z) (s : throttle_t) (t : clock) (e : Event)
    (es : list (clock * Event)) :
  (th_new_interval s < Event.time e)%Z ->
  in_i64 (Event.time e + dt) -> in_i64 (th_new_interval s + (Event.time e + dt)) ->
  Forall (fun x => Event.time x <= th_new_interval s + (Event.time e + dt))%Z es.*2 ->
  run_events (m_event (throttle_lock_ n dt)) ((t, e) :: es) s =
  (MkThrottle (Nat.min n (S (length es))) (th_new_interval s + (Event.time e + dt))%Z,
   [], forward_first n (e :: es.*2)).
Proof.
  intros. unfold throttle_lock_. by rewrite run_events_step, throttle_opens.
Qed.

Lemma throttle_spec_witness :
  let ev t := Event.set_time t Event.empty in
  run_events (m_event (throttle_lock_ 2 5)) [(0, ev 10); (0, ev 12); (0, ev 15)]%Z
    throttle_init
  = (MkThrottle 2 15, [], [Ok [ev 10%Z]; Ok [ev 12%Z]; Ok []]).
Proof.
  cbv zeta. rewrite throttle_spec; [vm_compute; reflexivity|vm_compute; reflexivity|by_decide..].
Defined.

(** C40. The interval of [throttle] is not [dt] seconds but grows with the clock: in a
    fresh stream, an event at [t1] opens an interval up to [t1 + dt], and the next
    event past it, at [t2], one that lasts up to [t1 + t2 + 2 dt]; of all events up
    to then, however many intervals of [dt] they span, only [n] are forwarded. *)
Theorem throttle_starves (n : nat) (dt : Z) (e1 e2 : Event) (c1 c2 : clock)
    (es : list (clock * Event)) :
  (0 < n)%nat -> (0 <= dt)%Z -> (0 < Event.time e1)%Z ->
  (Event.time e1 + dt < Event.time e2)%Z ->
  in_i64 (Event.time e1 + Event.time e2 + 2 * dt) ->
  Forall (fun x => Event.time x <= Event.time e1 + Event.time e2 + 2 * dt)%Z es.*2 ->
  (run_events (m_event (throttle_lock_ n dt)) ((c1, e1) :: (c2, e2) :: es) throttle_init).2
  = Ok [e1] :: forward_first n (e2 :: es.*2).
Proof.
  intros Hn Hdt Ht1 Ht2 Hr Hes. unfold throttle_lock_. rewrite run_events_step.
  change ((c1, e1) :: (c2, e2) :: es) with ([(c1, e1)] ++ (c2, e2) :: es).
  rewrite run_steps_app, (throttle_opens n dt throttle_init c1 e1 []);
    [|cbn; unfold in_i64, two63 in *; lia..|constructor].
  rewrite throttle_opens; cbn [th_new_interval throttle_init];
    [|unfold in_i64, two63 in *; lia..|].
  - destruct n as [|n]; [lia|]. unfold forward_first at 1. simpl.
    by rewrite take_nil, drop_nil.
  - revert Hes. apply Forall_impl. intros; lia.
Qed.

Lemma throttle_starves_witness :
  let ev t := Event.set_time t Event.empty in
  (run_events (m_event (throttle_lock_ 1 1))
     [(0, ev 100); (0, ev 102); (0, ev 104); (0, ev 150); (0, ev 200)]%Z throttle_init).2
  = [Ok [ev 100]; Ok [ev 102]; Ok []; Ok []; Ok []]%Z.
Proof.
  cbv zeta. rewrite throttle_starves;
    [vm_compute; reflexivity|lia|lia|vm_compute; reflexivity..|by_decide|by_decide].
Defined.
