(* ===== verification/Aggregates.v ===== *)
(** * Aggregation over events: [coalesce], [project] and [rate]

    [coalesce] and [project] of [src/streams/stream_functions_lock.cpp], [rate] of
    [src/streams/stream_functions.cpp].  [coalesce] walks a hash map, in an order the
    standard leaves open, and is modelled over any [UnorderedMap]. *)

From S2P Require Import Prelude Ieee Containers Events Folds Infra Predicates Windows.

Local Open Scope cav_scope.

(** Both streams yield the fold of the expired events, if there are any, then the
    fold of the others, if there are any. *)
Definition fold_both (fold : fold_fn_t) (expired_events events : list Event)
  : result (list Event) :=
  res_bind (fun l1 => res_map (app l1) (flush_out fold (Ok events)))
    (flush_out fold (Ok expired_events)).

(** ** [coalesce] *)

Section coalesce.
Context {U : Type -> Type} `{UnorderedMap U}.

Definition coalesce_key (e : Event) : string := Event.host e +:+ (" " +:+ Event.service e).

(** The loop over the map: expired entries are erased and collected. *)
Definition coalesce_step (fold : fold_fn_t) (now : clock) (events : U Event) (e : Event)
  : U Event * result (list Event) :=
  let m := um_insert (coalesce_key e) e events in
  let items := um_items m in
  let old := filter (fun kv => predicates.expired now kv.2 = true) items in
  let live := filter (fun kv => predicates.expired now kv.2 = false) items in
  (foldl (fun m k => um_erase k m) m old.*1, fold_both fold old.*2 live.*2).

Definition coalesce_lock_ (fold : fold_fn_t) : machine :=
  step_machine (um_empty : U Event) (coalesce_step fold).
Definition coalesce_lock (fold : fold_fn_t) : streams_t :=
  create_stream_simple (coalesce_lock_ fold).
End coalesce.

(** ** [project] *)

Abbreviation predicates_t := (list predicate_t).

(** The index of the first predicate that holds. *)
Fixpoint match_index (predicates : predicates_t) (now : clock) (e : Event)
  : result (option nat) :=
  match predicates with
  | [] => Ok None
  | p :: ps =>
      match p now e with
      | Throw x => Throw x
      | Ok true => Ok (Some 0%nat)
      | Ok false => res_map (fmap S) (match_index ps now e)
      end
  end.

(** The loop over the slots from slot [i] on: the new slots, the events and the
    expired events, in the order of the slots. *)
Fixpoint project_loop (now : clock) (idx : nat) (e : Event) (i : nat)
    (slots : list (option Event)) : list (option Event) * list Event * list Event :=
  match slots with
  | [] => ([], [], [])
  | o :: slots' =>
      let '(s, ev, ex) := project_loop now idx e (S i) slots' in
      if decide (i = idx) then (Some e :: s, e :: ev, ex)
      else match o with
           | None => (None :: s, ev, ex)
           | Some x => if predicates.expired now x then (None :: s, ev, x :: ex)
                       else (Some x :: s, x :: ev, ex)
           end
  end.

Definition project_step (predicates : predicates_t) (fold : fold_fn_t) (now : clock)
    (slots : list (option Event)) (e : Event)
  : list (option Event) * result (list Event) :=
  match match_index predicates now e with
  | Throw x => (slots, Throw x)
  | Ok None => (slots, Ok [])
  | Ok (Some idx) =>
      let '(slots', events, expired_events) := project_loop now idx e 0 slots in
      (slots', fold_both fold expired_events events)
  end.

Definition project_lock_ (predicates : predicates_t) (fold : fold_fn_t) : machine :=
  step_machine (replicate (length predicates) None) (project_step predicates fold).
Definition project_lock (predicates : predicates_t) (fold : fold_fn_t) : streams_t :=
  create_stream_simple (project_lock_ predicates fold).

(** ** [rate] *)

(** The counter and the copy of the following streams the timer forwards to. *)
Definition rate_state (f : fwd) : Type := double * f_state f.

Definition rate_init (interval : Z) (f : fwd) (now : clock) : rate_state f * list effect :=
  let '(s, w) := f_new f now in
  ((d_zero, s), (at_hop HFwd <$> w) ++ [EAddPeriodicTask [] interval]).

(** The compare-and-swap loop ends with the addition done on the current value. *)
Definition rate_event (f : fwd) (e : Event) : M (rate_state f) next_events_t :=
  on_fst (r <- getm ;; putm (d_add r (Event.metric e))) ;;; ret [].

Definition rate_report (interval : Z) (now : clock) (r : double) : Event :=
  Event.set_time now
    (Event.set_metric_d (d_div r (d_of_Z interval)) Event.empty).

Definition rate_timer (interval : Z) (f : fwd) (p : list hop) : M (rate_state f) unit :=
  match p with
  | [] =>
      r <- on_fst (r <- getm ;; putm d_zero ;;; ret r) ;;
      now <- ask ;;
      on_snd (below HFwd (f_send f [rate_report interval now r]))
  | HFwd :: p' => on_snd (below HFwd (f_timer f p'))
  | _ => ret ()
  end.

Definition rate_ (interval : Z) (f : fwd) : machine :=
  Machine (rate_state f) (rate_init interval f) (rate_event f) (rate_timer interval f).
Definition rate (interval : Z) : streams_t := create_stream_init (rate_ interval).

(** ** [coalesce] keeps the latest event of every host and service *)

Abbreviation old_at now := (fun kv => predicates.expired now kv.2 = true).
Abbreviation live_at now := (fun kv => predicates.expired now kv.2 = false).

(** The abstract state is a finite map; an event replaces the entry of its key, and
    what is expired by then leaves. *)
Definition coalesce_abs (events : gmap string Event) (p : clock * Event)
  : gmap string Event :=
  filter (live_at p.1) (<[coalesce_key p.2 := p.2]> events).

(** What is yielded: the expired entries folded, then the live ones, each in some
    order. *)
Definition coalesce_out (fold : fold_fn_t) (events : gmap string Event) (p : clock * Event)
    (r : result (list Event)) : Prop :=
  let items := map_to_list (<[coalesce_key p.2 := p.2]> events) in
  exists old live, r = fold_both fold old live
    /\ old ≡ₚ (filter (old_at p.1) items).*2 /\ live ≡ₚ (filter (live_at p.1) items).*2.

Fixpoint coalesce_outs (fold : fold_fn_t) (events : gmap string Event)
    (es : list (clock * Event)) (rs : list (result (list Event))) : Prop :=
  match es, rs with
  | [], [] => True
  | p :: es', r :: rs' =>
      coalesce_out fold events p r /\ coalesce_outs fold (coalesce_abs events p) es' rs'
  | _, _ => False
  end.

Section coalesce_correct.
Context {U : Type -> Type} `{UnorderedMapLaws U}.

Lemma coalesce_step_refines fold now (m : U Event) g e :
  um_rep m g ->
  let '(m', r) := coalesce_step fold now m e in
  um_rep m' (coalesce_abs g (now, e)) /\ coalesce_out fold g (now, e) r.
Proof.
  intros Hg. unfold coalesce_step.
  set (m1 := um_insert (coalesce_key e) e m).
  assert (um_rep m1 (<[coalesce_key e := e]> g)) as Hg1.
  { intros k. unfold m1. by rewrite um_find_insert, lookup_insert, Hg. }
  split.
  - intros k. rewrite um_find_erase_all, (Hg1 k). unfold coalesce_abs. cbn [fst snd].
    destruct (<[_ := _]> g !! k) as [x|] eqn:Hx.
    2:{ rewrite (proj2 (map_lookup_filter_None _ _ _)) by (by left). by case_decide. }
    assert (k ∈ (filter (old_at now) (um_items m1)).*1 <-> predicates.expired now x = true)
      as Hk.
    { rewrite list_elem_of_fmap. split.
      - intros ([k' x'] & -> & Hin). apply list_elem_of_filter in Hin as [Ho Hin].
        simpl in *. rewrite um_items_find, (Hg1 k'), Hx in Hin. by inv Hin.
      - intros Ho. exists (k, x). split; [done|]. apply list_elem_of_filter.
        split; [done|]. by rewrite um_items_find, (Hg1 k). }
    destruct (predicates.expired now x) eqn:Hx'; symmetry.
    + rewrite decide_True by (by apply Hk). apply map_lookup_filter_None. right.
      intros y Hy. rewrite Hx in Hy. inv Hy. simpl. by rewrite Hx'.
    + rewrite decide_False by (rewrite Hk; done). by apply map_lookup_filter_Some.
  - exists (filter (old_at now) (um_items m1)).*2, (filter (live_at now) (um_items m1)).*2.
    split; [done|]. pose proof (um_items_perm _ _ Hg1) as Hp.
    split; by rewrite Hp.
Qed.

Lemma coalesce_run fold es :
  let '(m, rs) := run_steps (coalesce_step fold) es (um_empty : U Event) in
  um_rep m (foldl coalesce_abs ∅ es) /\ coalesce_outs fold ∅ es rs.
Proof.
  assert (um_rep (um_empty : U Event) ∅) as Hg
    by (intros k; by rewrite um_find_empty, lookup_empty).
  revert Hg. generalize (∅ : gmap string Event), (um_empty : U Event).
  induction es as [|[now e] es IH]; intros g m Hg; [done|].
  cbn [run_steps]. pose proof (coalesce_step_refines fold now m g e Hg) as Hs.
  destruct (coalesce_step fold now m e) as [m1 r]. destruct Hs as [Hg1 Hr].
  specialize (IH _ _ Hg1). destruct (run_steps _ es m1) as [m2 rs].
  destruct IH as [IH1 IH2]. split; [exact IH1|]. split; [exact Hr|exact IH2].
Qed.

End coalesce_correct.


(** ** [project] keeps the latest event of every predicate *)

(** How slot [i] changes with an event, whatever the other slots hold. *)
Definition slot_next (predicates : predicates_t) (i : nat) (o : option Event)
    (p : clock * Event) : option Event :=
  match match_index predicates p.1 p.2 with
  | Ok (Some j) =>
      if decide (i = j) then Some p.2
      else match o with
           | Some x => if predicates.expired p.1 x then None else Some x
           | None => None
           end
  | _ => o
  end.

Definition slots_after (predicates : predicates_t) (es : list (clock * Event))
  : list (option Event) :=
  (fun i => foldl (slot_next predicates i) None es) <$> seq 0 (length predicates).

(** The events of the other slots that have expired. *)
Definition slot_old (now : clock) (j i : nat) (o : option Event) : option Event :=
  match o with
  | Some x => if decide (i = j) then None
              else if predicates.expired now x then Some x else None
  | None => None
  end.

Definition slot_upd (now : clock) (e : Event) (j i : nat) (o : option Event)
  : option Event :=
  if decide (i = j) then Some e
  else match o with
       | Some x => if predicates.expired now x then None else Some x
       | None => None
       end.

Lemma project_loop_eq now j e i slots :
  project_loop now j e i slots =
  (imap (fun k => slot_upd now e j (i + k)) slots,
   omap id (imap (fun k => slot_upd now e j (i + k)) slots),
   omap id (imap (fun k => slot_old now j (i + k)) slots)).
Proof.
  revert i. induction slots as [|o slots IH]; intros i; [done|].
  cbn [project_loop]. rewrite IH, !imap_cons, !Nat.add_0_r.
  assert (forall f : nat -> option Event -> option Event,
    imap (fun k => f (S i + k)%nat) slots = imap ((fun k => f (i + k)%nat) ∘ S) slots) as Hext.
  { intros f. apply imap_ext. intros k x _. simpl. f_equal. lia. }
  rewrite (Hext (slot_upd now e j)), (Hext (slot_old now j)).
  generalize (imap ((fun k => slot_upd now e j (i + k)) ∘ S) slots),
    (imap ((fun k => slot_old now j (i + k)) ∘ S) slots). intros l1 l2.
  unfold slot_upd, slot_old.
  destruct (decide (i = j)), o as [x|]; [done..| |done]. simpl.
  by destruct (predicates.expired now x).
Qed.

Lemma project_run predicates fold es :
  (run_steps (project_step predicates fold) es (replicate (length predicates) None)).1
  = slots_after predicates es.
Proof.
  induction es as [|[now e] es IH] using rev_ind.
  { unfold slots_after. simpl. generalize 0%nat.
    induction predicates as [|p ps IH]; intros i; simpl; [done|]. f_equal. apply IH. }
  rewrite run_steps_snoc. destruct (run_steps _ es _) as [s rs]. simpl in IH. subst s.
  assert (forall i, foldl (slot_next predicates i) None (es ++ [(now, e)]) =
    slot_next predicates i (foldl (slot_next predicates i) None es) (now, e)) as Hsnoc
    by (intros i; by rewrite foldl_snoc).
  unfold slots_after at 2. erewrite list_fmap_ext by (intros ???; apply Hsnoc).
  unfold project_step, slot_next at 1. cbn [fst snd].
  destruct (match_index predicates now e) as [[j|]|x]; [|done|done].
  rewrite project_loop_eq. cbn [fst].
  unfold slots_after. rewrite imap_fmap.
  apply list_eq. intros i. rewrite list_lookup_imap, !list_lookup_fmap.
  destruct (seq 0 _ !! i) as [k|] eqn:Hk; [|done].
  apply lookup_seq in Hk as [-> _]. done.
Qed.

(** What [project] yields for an event after the slots have filled. *)
Definition project_result (predicates : predicates_t) (fold : fold_fn_t)
    (es : list (clock * Event)) (now : clock) (e : Event) : result (list Event) :=
  match match_index predicates now e with
  | Throw x => Throw x
  | Ok None => Ok []
  | Ok (Some j) =>
      fold_both fold
        (omap id (imap (slot_old now j) (slots_after predicates es)))
        (omap id (slots_after predicates (es ++ [(now, e)])))
  end.

Lemma project_step_result predicates fold es now e :
  (project_step predicates fold now (slots_after predicates es) e).2 =
  project_result predicates fold es now e.
Proof.
  pose proof (project_run predicates fold es) as H1.
  pose proof (project_run predicates fold (es ++ [(now, e)])) as H2.
  rewrite run_steps_snoc in H2. destruct (run_steps _ es _) as [s rs].
  cbn [fst] in H1. subst s. unfold project_result. rewrite <- H2. unfold project_step.
  destruct (match_index predicates now e) as [[j|]|x]; [|done|done].
  by rewrite project_loop_eq.
Qed.

Lemma slot_next_upd predicates i o now e j :
  match_index predicates now e = Ok (Some j) ->
  slot_next predicates i o (now, e) = slot_upd now e j i o.
Proof. intros Hm. unfold slot_next. cbn [fst snd]. by rewrite Hm. Qed.

Lemma slot_from_events predicates i es x :
  foldl (slot_next predicates i) None es = Some x -> x ∈ es.*2.
Proof.
  revert x. induction es as [|[now e] es IH] using rev_ind; intros x; [done|].
  rewrite foldl_snoc, fmap_app. unfold slot_next at 1. cbn [fst snd].
  rewrite elem_of_app. cbn [fmap list_fmap snd]. rewrite list_elem_of_singleton.
  destruct (match_index _ now e) as [[j|]|]; [|auto|auto].
  case_decide; [intros [= ->]; by right|].
  destruct (foldl _ None es) as [y|]; [|done].
  destruct (predicates.expired now y); [done|]. intros [= ->]. left. by apply IH.
Qed.

(** The results of a whole run. *)
Lemma project_run_results predicates fold es :
  (run_steps (project_step predicates fold) es (replicate (length predicates) None)).2
  = (fun p => match list.last p with
              | Some (now, e) => project_result predicates fold (take (length p - 1) p) now e
              | None => Ok []
              end) <$> prefixes es.
Proof.
  induction es as [|[now e] es IH] using rev_ind; [done|].
  rewrite run_steps_snoc, prefixes_snoc, fmap_app.
  pose proof (project_run predicates fold es) as Hs.
  destruct (run_steps _ es _) as [s rs]. cbn [fst snd] in *. subst s rs.
  pose proof (project_step_result predicates fold es now e) as Hr.
  destruct (project_step _ _ now _ e) as [s' r]. cbn [snd] in *. subst r. f_equal.
  cbn [fmap list_fmap]. rewrite last_snoc, length_app. cbn [length].
  by rewrite Nat.add_sub, take_app_length.
Qed.

(** [project(predicates, fold)] keeps, in the slot of each predicate, the last
    event for which that predicate was the first to hold, until some later event
    finds it expired; each slot evolves on its own.  An event that matches yields
    the fold of the events that have just left the other slots, if any, then the
    fold of what all slots hold, in the order of the predicates; an event that
    matches none, or on which a predicate throws, changes nothing. *)
Theorem project_spec (predicates : predicates_t) (fold : fold_fn_t)
    (es : list (clock * Event)) (now0 now : clock) (e : Event) :
  let m := project_lock_ predicates fold in
  let '(slots, _, _) := run_events (m_event m) es (m_init m now0).1 in
  slots = slots_after predicates es
  /\ (m_event m e now slots).2 = project_result predicates fold es now e.
Proof.
  cbv zeta. unfold project_lock_. rewrite run_events_step.
  pose proof (project_run predicates fold es) as H1.
  cbn [m_init step_machine fst].
  destruct (run_steps _ es _) as [s rs]. cbn [fst] in H1. subst s. split; [done|].
  rewrite <- project_step_result. cbn [m_event step_machine]. unfold stepM.
  by destruct (project_step predicates fold now _ e).
Qed.

(** ** [rate] *)

Lemma rate_events_run f es (st : rate_state f) :
  run_events (rate_event f) es st =
  ((foldl (fun r p => d_add r (Event.metric p.2)) st.1 es, st.2), [],
   replicate (length es) (Ok [])).
Proof.
  revert st. induction es as [|[t e] es IH]; intros [r s]; [done|].
  cbn [run_events]. unfold rate_event at 1, bind, on_fst, getm, putm, ret.
  cbn [fst snd]. rewrite IH. done.
Qed.

(** [rate(interval)] swallows the events and sums their metrics, from zero and in
    the order they come; its periodic task, registered when the stream is
    initialised, sends one event with that sum divided by the interval and the
    clock's time to its own copy of the streams that follow, and the count starts
    again from zero. *)
Theorem rate_spec (interval : Z) (f : fwd) (es : list (clock * Event)) (now0 now : clock) :
  let m := rate_ interval f in
  let '(s0, w0) := f_new f now0 in
  m_init m now0 = ((d_zero, s0), (at_hop HFwd <$> w0) ++ [EAddPeriodicTask [] interval])
  /\ let '(st, w, rs) := run_events (m_event m) es (d_zero, s0) in
     w = [] /\ rs = replicate (length es) (Ok [])
     /\ m_timer m [] now st =
        let total := foldl (fun r p => d_add r (Event.metric p.2)) d_zero es in
        let '(s1, w1, res) := f_send f [rate_report interval now total] now s0 in
        ((d_zero, s1), at_hop HFwd <$> w1, res).
Proof.
  cbv zeta. cbn [m_init m_event m_timer rate_]. unfold rate_init.
  destruct (f_new f now0) as [s0 w0]. split; [done|].
  change (run_events _ es _) with (run_events (rate_event f) es (d_zero, s0)).
  rewrite rate_events_run. cbn [fst snd]. split; [done|]. split; [done|].
  unfold rate_timer, bind, on_fst, on_snd, below, getm, putm, ask, ret. cbn [fst snd].
  by destruct (f_send f _ now s0) as [[s1 w1] res].
Qed.
