(* ===== verification/Streams.v ===== *)
(** * The stream functions

    [src/streams/stream_functions.cpp], except for the class [streams] and for
    [percentiles].  A stream that does not remember anything is a closure over
    [unit]; [svec] and [counter] have a state.  The functions that choose between a
    locking and a lock-free variant take the locking one, which is the only one
    the sources have. *)

From S2P Require Import Prelude Ieee Containers Events Folds Infra Predicates By Windows Filters Aggregates.

Local Open Scope cav_scope.

Module fns.

(** [return {e}] or [return {}]. *)
Definition pass_if (b : bool) (e : Event) : next_events_t := if b then [e] else [].

(** [WITH(EXP)]: the expression works on a copy. *)
Definition WITH (f : Event -> Event) : streams_t :=
  create_stream (fun oe => ret [f (Event.copy oe)]).

Definition prn : streams_t := create_stream (fun e => tell (EPrn "" e) ;;; ret [e]).
Definition prn_prefix (prefix : string) : streams_t :=
  create_stream (fun e => tell (EPrn prefix e) ;;; ret [e]).

Definition null : streams_t := create_stream (fun _ => ret []).

(** Calling a predicate. *)
Definition call_pred {S} (p : predicate_t) (e : Event) : M S bool :=
  now <- ask ;; lift (p now e).

Definition where_ (predicate : predicate_t) : streams_t :=
  create_stream (fun e => b <- call_pred predicate e ;; ret (pass_if b e)).

Definition where_else (predicate : predicate_t) (else_stream : streams_t) : streams_t :=
  create_stream (fun e =>
    b <- call_pred predicate e ;;
    if b : bool then ret [e] else push_event else_stream e).

Definition service (service : string) : streams_t :=
  where_ (predicates.p_match "service" service).
Definition service_any (services : list string) : streams_t :=
  where_ (predicates.p_match_any "service" services).
Definition has_attribute (attribute : string) : streams_t :=
  where_ (PRED (Event.has_attr attribute)).
Definition state (state : string) : streams_t :=
  where_ (predicates.p_match "state" state).

Section like.
Variable regex_match : string -> string -> result bool.
Definition service_like (pattern : string) : streams_t :=
  where_ (predicates.p_match_like regex_match "service" pattern).
Definition service_like_any (patterns : list string) : streams_t :=
  where_ (predicates.p_match_like_any regex_match "service" patterns).
End like.

Definition state_any (states : list string) : streams_t :=
  create_stream (fun e => ret (pass_if (bool_decide (Event.state e ∈ states)) e)).

Definition set_service (service : string) : streams_t := WITH (Event.set_service service).
Definition set_state (state : string) : streams_t := WITH (Event.set_state state).
Definition set_host (host : string) : streams_t := WITH (Event.set_host host).
Definition set_metric (metric : double) : streams_t := WITH (Event.set_metric metric).
Definition set_description (description : string) : streams_t :=
  WITH (Event.set_description description).
Definition set_ttl (ttl : float) : streams_t := WITH (Event.set_ttl ttl).

Definition default_service (service : string) : streams_t :=
  WITH (fun e => if Event.has_service e then e else Event.set_service service e).
Definition default_state (state : string) : streams_t :=
  WITH (fun e => if Event.has_state e then e else Event.set_state state e).
Definition default_host (host : string) : streams_t :=
  WITH (fun e => if Event.has_host e then e else Event.set_host host e).
Definition default_metric (metric : double) : streams_t :=
  WITH (fun e => if Event.has_metric e then e else Event.set_metric metric e).
Definition default_description (description : string) : streams_t :=
  WITH (fun e => if Event.has_description e then e else Event.set_description description e).
Definition default_ttl (ttl : float) : streams_t :=
  WITH (fun e => if Event.has_ttl e then e else Event.set_ttl ttl e).

(** [std::map<std::string, change_value_t>], in the order it is walked. *)
Abbreviation with_changes_t := (list (string * change_value_t)).

Definition apply_changes (changes : with_changes_t) (replace : bool) (e : Event) : Event :=
  foldl (fun ne kv => set_event_value kv.1 kv.2 replace ne) e changes.
Definition with_replace (changes : with_changes_t) (replace : bool) : streams_t :=
  create_stream (fun e => ret [apply_changes changes replace e]).
Definition with_ (changes : with_changes_t) : streams_t := with_replace changes true.
Definition default_to (changes : with_changes_t) : streams_t := with_replace changes false.

(** *** Branching *)

Abbreviation split_clauses_t := (list (predicate_t * list stream_node_t)).

(** The streams of the clauses are pushed as they were built: nothing initialises
    them. *)
Fixpoint split_event (clauses : split_clauses_t) (default_stream : streams_t) (e : Event)
  : M unit next_events_t :=
  match clauses with
  | [] => match default_stream with [] => ret [e] | _ => push_event default_stream e end
  | (p, s) :: clauses' =>
      b <- call_pred p e ;;
      if b : bool then push_event s e else split_event clauses' default_stream e
  end.
Definition split_ (clauses : split_clauses_t) (default_stream : streams_t) : streams_t :=
  create_stream (split_event clauses default_stream).
Definition split (clauses : split_clauses_t) : streams_t := split_ clauses [].
Definition split_default (clauses : split_clauses_t) (default_stream : streams_t)
  : streams_t := split_ clauses default_stream.

(** [svec]: the streams are initialised with the node; each has its own state. *)
Fixpoint alts_state (cs : list (list machine)) : Type :=
  match cs with
  | [] => unit
  | c :: cs' => chain_state c * alts_state cs'
  end.
Fixpoint alts_init (i : nat) (cs : list (list machine)) (now : clock)
  : alts_state cs * list effect :=
  match cs with
  | [] => ((), [])
  | c :: cs' =>
      let '(s, w) := chain_init 0 c now in
      let '(s', w') := alts_init (S i) cs' now in
      ((s, s'), (at_hop (HAlt i) <$> w) ++ w')
  end.
Fixpoint alts_push (i : nat) (cs : list (list machine)) (e : Event)
  : M (alts_state cs) next_events_t :=
  match cs return M (alts_state cs) next_events_t with
  | [] => ret []
  | c :: cs' =>
      r <- on_fst (below (HAlt i) (chain_push c e)) ;;
      r' <- on_snd (alts_push (S i) cs' e) ;;
      ret (r ++ r')
  end.
Fixpoint alts_timer (j i : nat) (cs : list (list machine)) (p : list hop)
  : M (alts_state cs) unit :=
  match cs return M (alts_state cs) unit with
  | [] => ret ()
  | c :: cs' =>
      if decide (i = j) then on_fst (below (HAlt j) (chain_timer c p))
      else on_snd (alts_timer (S j) i cs' p)
  end.

Definition svec_ (streams : list (list stream_node_t)) : machine :=
  let cs := map init_streams streams in
  Machine (alts_state cs) (alts_init 0 cs)
    (fun e => match streams with [] => ret [e] | _ => alts_push 0 cs e end)
    (fun p => match p with HAlt i :: p' => alts_timer 0 i cs p' | _ => ret () end).
Definition svec (streams : list (list stream_node_t)) : streams_t :=
  create_stream_simple (svec_ streams).

(** *** Filters and maps *)

Definition tagged_any (tags : tags_t) : streams_t :=
  create_stream (fun e => ret (pass_if (predicates.tagged_any e tags) e)).
Definition tagged_all (tags : tags_t) : streams_t :=
  create_stream (fun e => ret (pass_if (predicates.tagged_all e tags) e)).
Definition tagged (tag : string) : streams_t := tagged_all [tag].

(** The function given to [smap] changes a copy in place; it may throw. *)
Definition smap (f : Event -> result Event) : streams_t :=
  create_stream (fun e => ne <- lift (f e) ;; ret [ne]).

Definition above (m : double) : streams_t :=
  create_stream (fun e => ret (pass_if (predicates.above e m) e)).
Definition under (m : double) : streams_t :=
  create_stream (fun e => ret (pass_if (predicates.under e m) e)).
Definition within (a b : double) : streams_t :=
  create_stream (fun e =>
    ret (pass_if (predicates.above_eq e a && predicates.under_eq e b) e)).
Definition without (a b : double) : streams_t :=
  create_stream (fun e =>
    ret (pass_if (predicates.under e a || predicates.above e b) e)).
Definition scale (s : double) : streams_t :=
  create_stream (fun e =>
    ret [Event.set_metric (d_mul s (Event.metric e)) (Event.copy e)]).

(** An [unsigned int], which wraps at 32 bits. *)
Definition counter_step (_ : clock) (counter : Z) (e : Event) : Z * result (list Event) :=
  if Event.has_metric e
  then (wrap32 (counter + 1),
        Ok [Event.set_metric_sint64 (wrap32 (counter + 1)) (Event.clear_metric (Event.copy e))])
  else (counter, Ok [e]).
Definition counter_ : machine := step_machine 0%Z counter_step.
Definition counter : streams_t := create_stream_simple counter_.

Definition expired : streams_t :=
  create_stream (fun e => now <- ask ;; ret (pass_if (predicates.expired now e) e)).
(** As the source has it: the condition is not negated. *)
Definition not_expired : streams_t :=
  create_stream (fun e => now <- ask ;; ret (pass_if (predicates.expired now e) e)).

Definition tag (tags : tags_t) : streams_t :=
  create_stream (fun e => ret [foldl (fun ne t => Event.add_tag t ne) e tags]).

(** *** Sinks *)

Definition send_index : streams_t :=
  create_stream (fun e =>
    now <- ask ;;
    (if predicates.expired now e then ret () else tell (EIndex e)) ;;; ret []).
Definition send_graphite (host : string) (port : Z) : streams_t :=
  create_stream (fun e => tell (EGraphite host port e) ;;; ret []).
Definition forward (host : string) (port : Z) : streams_t :=
  create_stream (fun e => tell (EForward host port e) ;;; ret []).
Definition email_all (server from : string) (to : list string) : streams_t :=
  create_stream (fun e => tell (EEmail server from to e) ;;; ret []).
Definition email (server from to : string) : streams_t := email_all server from [to].
Definition pagerduty_resolve (key : string) : streams_t :=
  create_stream (fun e => tell (EPagerduty "resolve" key e) ;;; ret []).
Definition pagerduty_acknowledge (key : string) : streams_t :=
  create_stream (fun e => tell (EPagerduty "acknowledge" key e) ;;; ret []).
Definition pagerduty_trigger (key : string) : streams_t :=
  create_stream (fun e => tell (EPagerduty "trigger" key e) ;;; ret []).

(** *** Streams with a state, by their locking variants *)

Definition by_ (keys : by_keys_t) (stream : streams_t) : streams_t := by_lock keys stream.
Definition by_fwd (keys : by_keys_t) : streams_t := by_lock_fwd keys.
Definition coalesce {U} `{UnorderedMap U} (fold : fold_fn_t) : streams_t :=
  coalesce_lock (U := U) fold.
Definition project (predicates : predicates_t) (fold : fold_fn_t) : streams_t :=
  project_lock predicates fold.
Definition changed_state_ (initial : string) : streams_t := changed_state_lock initial.
Definition changed_state (initial : string) : streams_t :=
  by_ ["host"; "service"] (changed_state_ initial).
Definition changed_state_ok : streams_t := changed_state "ok".
Definition moving_event_window (n : nat) (fold : fold_fn_t) : streams_t :=
  moving_event_window_lock n fold.
Definition fixed_event_window (n : nat) (fold : fold_fn_t) : streams_t :=
  fixed_event_window_lock n fold.
Definition moving_time_window {Q} `{PriorityQueue Q} (dt : Z) (fold : fold_fn_t)
  : streams_t := moving_time_window_lock (Q := Q) dt fold.
Definition fixed_time_window {Q} `{PriorityQueue Q} (dt : Z) (fold : fold_fn_t)
  : streams_t := fixed_time_window_lock (Q := Q) dt fold.
Definition stable (dt : Z) : streams_t := stable_lock dt.
Definition throttle (n : nat) (dt : Z) : streams_t := throttle_lock n dt.
Definition ddt : streams_t := ddt_lock.

End fns.

(** ** [changed_state] per host and service *)

(** [changed_state(initial)] keeps the services of a host apart: among the events of
    one host and service an event is passed on exactly when its state differs from
    that of the previous event of the same host and service, whatever the others
    do in between. *)
Theorem changed_state_per_service (initial : string) (es : list (clock * Event))
    (now0 : clock) (k : string) :
  let keys := ["host"; "service"] in
  let m := by_lock_ keys (fns.changed_state_ initial) in
  init_streams (fns.changed_state initial) = [m]
  /\ let '(_, _, rs) := run_events (m_event m) es (m_init m now0).1 in
     let evs := (on_key keys k es).*2 in
     results_on_key keys k es rs =
     zip_with changed_from (initial :: (Event.state <$> evs)) evs.
Proof.
  intros keys m. split; [done|].
  pose proof (by_event_run keys (init_streams (fns.changed_state_ initial)) es ∅ k
    ltac:(done)) as H.
  change (run_events (m_event m) es (m_init m now0).1) with
    (run_events (by_event keys (init_streams (fns.changed_state_ initial))) es ∅).
  destruct (run_events _ es ∅) as [[map w] rs].
  rewrite lookup_empty in H. apply (f_equal snd) in H. cbn [snd] in H. rewrite H.
  cbn [run_entry]. unfold run_fresh. destruct (on_key keys k es) as [|[t e] l]; [done|].
  change (chain_init 0 _ t).1 with (initial, ()).
  change (init_streams (fns.changed_state_ initial)) with [changed_state_lock_ initial].
  rewrite run_events_one.
  change (run_events (m_event (changed_state_lock_ initial)) ((t, e) :: l) initial) with
    (run_events (m_event (step_machine initial changed_state_step)) ((t, e) :: l) initial).
  by rewrite run_events_step, changed_state_run.
Qed.

(** ** [svec] *)

(** Every stream of a vector run on its own. *)
Fixpoint alts_alone (cs : list (list machine)) (st : fns.alts_state cs)
    (es : list (clock * Event)) (outs : list (list (list Event))) : Prop :=
  match cs return fns.alts_state cs -> Prop with
  | [] => fun _ => outs = []
  | c :: cs' => fun st =>
      exists o outs', outs = o :: outs'
      /\ (run_events (chain_push c) es st.1).2 = Ok <$> o
      /\ alts_alone cs' st.2 es outs'
  end st.

(** The outputs of several streams for the same events, side by side. *)
Definition side_by_side (n : nat) (outs : list (list (list Event))) : list (list Event) :=
  foldr (zip_with app) (replicate n []) outs.

Lemma run_below {S} (h : hop) (f : Event -> M S next_events_t) es s :
  run_events (fun e => below h (f e)) es s =
  let '(s', w, rs) := run_events f es s in (s', at_hop h <$> w, rs).
Proof.
  revert s. induction es as [|[now e] es IH]; intros s; [done|]. cbn [run_events].
  unfold below at 1. destruct (f e now s) as [[s1 w1] r]. rewrite IH.
  destruct (run_events f es s1) as [[s2 w2] rs]. by rewrite fmap_app.
Qed.

Lemma alts_push_run i cs st es outs :
  alts_alone cs st es outs ->
  (run_events (fns.alts_push i cs) es st).2 = Ok <$> side_by_side (length es) outs.
Proof.
  revert i st outs. induction cs as [|c cs IH]; intros i st outs.
  { simpl. intros ->. simpl. clear. induction es as [|[now e] es IH]; [done|].
    cbn [run_events]. unfold ret at 1. destruct st.
    destruct (run_events _ es ()) as [[? ?] rs]. cbn [snd] in *. by rewrite IH. }
  destruct st as [s st]. intros (o & outs' & -> & Ho & Ha). cbn [fst snd] in Ho, Ha.
  apply (run_events_pair (fun e => below (HAlt i) (chain_push c e))).
  - rewrite run_below. by destruct (run_events (chain_push c) es s) as [[? ?] ?].
  - by apply IH.
Qed.

(** [svec(streams)] pushes an event into each of its streams, in order, and yields
    all their results in that order.  Each stream sees the events as if it were
    alone: if the streams on their own would give the outputs [outs] without an
    exception, the vector gives for each event the concatenation of theirs. *)
Theorem svec_spec (streams : list (list stream_node_t)) (es : list (clock * Event))
    (now0 : clock) (outs : list (list (list Event))) :
  streams <> [] ->
  let m := fns.svec_ streams in
  alts_alone (map init_streams streams) (m_init m now0).1 es outs ->
  (run_events (m_event m) es (m_init m now0).1).2 = Ok <$> side_by_side (length es) outs.
Proof.
  intros Hs m Ha. destruct streams as [|s streams]; [done|].
  by apply (alts_push_run 0 (map init_streams (s :: streams))).
Qed.

Lemma svec_spec_witness :
  let ev t := Event.set_time t (Event.set_metric d_zero Event.empty) in
  let m := fns.svec_ [fns.counter; fns.set_state "ok"] in
  (run_events (m_event m) [(0, ev 1); (0, ev 2)]%Z (m_init m 0%Z).1).2
  = Ok <$> [[Event.set_metric_sint64 1 (Event.clear_metric (ev 1)); Event.set_state "ok" (ev 1)];
            [Event.set_metric_sint64 2 (Event.clear_metric (ev 2)); Event.set_state "ok" (ev 2)]]%Z.
Proof.
  pose (ev t := Event.set_time t (Event.set_metric d_zero Event.empty)).
  apply (svec_spec [fns.counter; fns.set_state "ok"] [(0, ev 1); (0, ev 2)]%Z 0%Z
    [[[Event.set_metric_sint64 1 (Event.clear_metric (ev 1%Z))];
      [Event.set_metric_sint64 2 (Event.clear_metric (ev 2%Z))]];
     [[Event.set_state "ok" (ev 1%Z)]; [Event.set_state "ok" (ev 2%Z)]]]); [done|].
  eexists _, _. split; [reflexivity|]. split; [vm_compute; reflexivity|].
  eexists _, _. split; [reflexivity|]. split; [vm_compute; reflexivity|reflexivity].
Defined.

(** ** [split] *)

(** Streams made of closures without a state. *)
Definition stateless_node (n : stream_node_t) : Prop :=
  exists fn, n = MkNode (fun _ => stateless fn) (Some fn).

Lemma concatM_result {S T A B} (f : A -> M S (list B)) (g : A -> M T (list B)) l now :
  (forall a s t, (f a now s).2 = (g a now t).2) ->
  forall s t, (concatM f l now s).2 = (concatM g l now t).2.
Proof.
  intros Hfg. induction l as [|a l IH]; intros s t; [done|].
  cbn [concatM]. unfold bind, ret. specialize (Hfg a s t).
  destruct (f a now s) as [[s1 w1] r1], (g a now t) as [[t1 v1] r2].
  cbn [snd] in Hfg. subst r2. destruct r1 as [b|x]; [|done]. specialize (IH s1 t1).
  destruct (concatM f l now s1) as [[? ?] r3], (concatM g l now t1) as [[? ?] r4].
  cbn [snd] in IH. subst r4. by destruct r3.
Qed.

(** Without a state it does not matter whether a stream was initialised. *)
Lemma push_event_loop_stateless s e next now i st :
  Forall stateless_node s ->
  (push_event_loop s e next now ()).2 = (push_loop i (init_streams s) e next now st).2.
Proof.
  intros Hs. revert i next st. induction Hs as [|n s [fn ->] _ IH]; intros i next st; [done|].
  destruct st as [u st]. cbn [push_event_loop init_streams push_loop].
  unfold bind, on_fst, on_snd, below. cbn [on_init stateless m_event m_state fst snd].
  set (a := match next with [] => call_on_event _ e | _ => _ end now ()).
  set (b := match next with [] => fn e | _ => _ end now u).
  assert (a.2 = b.2) as Hab.
  { subst a b. destruct next as [|x next]; [by destruct u|].
    apply concatM_result. intros y [] []. done. }
  destruct a as [[[] w1] r1], b as [[u' w2] r2]. cbn [snd] in Hab. subst r2.
  destruct r1 as [[|y next']|x]; [done| |done].
  specialize (IH (S i) (y :: next') st). cbn [fst snd].
  destruct (push_event_loop s e (y :: next') now ()) as [[? ?] r3].
  destruct (push_loop (S i) (init_streams s) e (y :: next') now st) as [[? ?] r4].
  cbn [snd] in *. by subst.
Qed.

(** The stream of the first clause that holds. *)
Fixpoint first_clause (clauses : fns.split_clauses_t) (default_stream : streams_t)
    (now : clock) (e : Event) : result (list stream_node_t) :=
  match clauses with
  | [] => Ok default_stream
  | (p, s) :: clauses' =>
      match p now e with
      | Ok true => Ok s
      | Ok false => first_clause clauses' default_stream now e
      | Throw x => Throw x
      end
  end.

Lemma split_event_first clauses d now e s :
  first_clause clauses d now e = Ok s -> s <> [] ->
  (fns.split_event clauses d e now ()).2 = (push_event s e now ()).2.
Proof.
  induction clauses as [|[p s'] clauses IH]; cbn [first_clause fns.split_event]; intros H Hs.
  { inv H. by destruct s. }
  unfold bind, fns.call_pred, bind, ask, lift. cbn [fst snd].
  destruct (p now e) as [[]|x]; [inv H|by specialize (IH H Hs);
    destruct (fns.split_event clauses d e now ()) as [[? ?] ?]|done].
  by destruct (push_event s e now ()) as [[? ?] ?].
Qed.

(** [split] sends an event to the first clause whose predicate holds, or to the
    default stream, and yields what that stream yields, provided the stream has no
    state of its own. *)
Theorem split_spec (clauses : fns.split_clauses_t) (default_stream s : streams_t)
    (now : clock) (e : Event) st :
  first_clause clauses default_stream now e = Ok s -> s <> [] ->
  Forall stateless_node s ->
  (fns.split_event clauses default_stream e now ()).2
  = (chain_push (init_streams s) e now st).2.
Proof.
  intros Hf Hne Hs. rewrite (split_event_first _ _ _ _ s) by done.
  by apply push_event_loop_stateless.
Qed.

Lemma split_spec_witness :
  let critical := fns.set_state "critical" in
  let e := Event.set_metric (d_of_Z 5) Event.empty in
  (fns.split_event [(predicates.p_above (d_of_Z 3), critical)] [] e 0%Z ()).2
  = Ok [Event.set_state "critical" e].
Proof.
  cbv zeta.
  rewrite (split_spec [(predicates.p_above (d_of_Z 3), fns.set_state "critical")] []
    (fns.set_state "critical") 0%Z (Event.set_metric (d_of_Z 5) Event.empty) ((), ()));
    [reflexivity|vm_compute; reflexivity|done|].
  constructor; [|constructor]. eexists. reflexivity.
Defined.

(** A clause whose stream begins with a node that keeps a state (a window, [by],
    [stable], a counter, ...) is unusable: [split] never initialises the streams of its
    clauses, so every event that takes the clause throws [bad_function_call]. *)
Theorem split_stateful_throws (p : predicate_t) (m : machine) (rest : streams_t)
    (clauses : fns.split_clauses_t) (default_stream : streams_t) (now : clock) (e : Event) st :
  p now e = Ok true ->
  (chain_push (init_streams (fns.split_
     ((p, create_stream_simple m >> rest) :: clauses) default_stream)) e now st).2
  = Throw bad_function_call.
Proof.
  intros Hp. destruct st as [[] []]. cbn [fns.split_ create_stream init_streams].
  rewrite chain_push_one. cbn [m_event on_init stateless fns.split_event].
  unfold bind, fns.call_pred, bind, ask, lift. rewrite Hp. reflexivity.
Qed.

Lemma split_stateful_throws_witness :
  (chain_push (init_streams (fns.split
     [(predicates.default_true, create_stream_simple fns.counter_ >> fns.prn)]))
     Event.empty 0%Z ((), ())).2 = Throw bad_function_call.
Proof. apply split_stateful_throws. reflexivity. Defined.

(** ** [with] and [default_to] *)

Lemma set_attr_fields k v e :
  let e' := Event.set_attr k v e in
  p_host e' = p_host e /\ p_service e' = p_service e /\ p_state e' = p_state e
  /\ p_description e' = p_description e.
Proof. unfold Event.set_attr. by destruct (Event.has_attr k e). Qed.

Lemma value_to_str_set_string k v k' e :
  Event.value_to_str k' (set_event_value_string k v true e) =
  if decide (k = k') then v else Event.value_to_str k' e.
Proof.
  unfold set_event_value_string. simpl.
  destruct (decide (k = "host")) as [->|?];
    [|destruct (decide (k = "service")) as [->|?];
    [|destruct (decide (k = "description")) as [->|?];
    [|destruct (decide (k = "state")) as [->|?]]]].
  1-4: unfold Event.value_to_str; simpl; repeat case_decide; subst; done || congruence.
  destruct (set_attr_fields k v e) as (H1 & H2 & H3 & H4).
  unfold Event.value_to_str, Event.host, Event.service, Event.state, Event.description.
  rewrite H1, H2, H3, H4, has_attr_set_attr, attr_set_attr.
  by repeat case_decide; subst.
Qed.

(** [with({{k, v}})] with a string sets the field or attribute [k] to [v] and leaves
    every other one as it was, whatever [k] names. *)
Theorem with_roundtrip (k v : string) (e : Event) (now : clock) st :
  exists e', (chain_push (init_streams (fns.with_ [(k, CVString v)])) e now st).2 = Ok [e']
    /\ forall k', Event.value_to_str k' e' =
                  if decide (k = k') then v else Event.value_to_str k' e.
Proof.
  exists (set_event_value_string k v true e). split; [by destruct st as [[] []]|].
  intros k'. apply value_to_str_set_string.
Qed.

(** What an event has, another one has unchanged. *)
Definition keeps_field {A} (f : Event -> option A) (e e' : Event) : Prop :=
  forall x, f e = Some x -> f e' = Some x.

Record keeps (e e' : Event) : Prop := {
  keeps_host : keeps_field p_host e e';
  keeps_service : keeps_field p_service e e';
  keeps_state : keeps_field p_state e e';
  keeps_description : keeps_field p_description e e';
  keeps_ttl : keeps_field p_ttl e e';
  keeps_time : keeps_field p_time e e';
  keeps_metric : Event.has_metric e = true ->
    Event.has_metric e' = true /\ Event.metric e' = Event.metric e
}.

#[export] Instance keeps_preorder : PreOrder keeps.
Proof.
  split.
  - intros e. split; auto; by intros x.
  - intros e1 e2 e3 [a1 a2 a3 a4 a5 a6 a7] [b1 b2 b3 b4 b5 b6 b7].
    split; try (intros x Hx; eauto; fail).
    intros Hm. destruct (a7 Hm) as [Hm2 <-]. auto.
Qed.

(** Field by field: unchanged, or absent before. *)
Ltac solve_keeps :=
  split; first [intros x Hx; exact Hx | intros x Hx; congruence
               |intros Hm; split; [exact Hm|reflexivity] | intros Hm; congruence].

Lemma set_event_value_keeps k v e : keeps e (set_event_value k v false e).
Proof.
  destruct v as [s|z|d]; simpl;
    unfold set_event_value_string, set_event_value_int, set_event_value_double; simpl.
  - repeat case_decide; try (destruct (negb _) eqn:Hn; [|reflexivity]).
    5:{ unfold Event.set_attr. destruct (Event.has_attr k e); solve_keeps. }
    all: apply negb_true_iff, bool_decide_eq_false, eq_None_not_Some in Hn; solve_keeps.
  - repeat case_decide; try reflexivity; (destruct (negb _) eqn:Hn; [|reflexivity]);
      apply negb_true_iff in Hn; [solve_keeps|..];
      apply bool_decide_eq_false, eq_None_not_Some in Hn; solve_keeps.
  - case_decide; [|reflexivity]. destruct (negb _) eqn:Hn; [|reflexivity].
    apply negb_true_iff in Hn. solve_keeps.
Qed.

(** [default_to(changes)] never changes a host, service, state, description, ttl,
    time or metric that the event has; but an attribute is overwritten even when
    the event has it. *)
Theorem default_to_spec (changes : fns.with_changes_t) (e : Event) (now : clock) st :
  exists e', (chain_push (init_streams (fns.default_to changes)) e now st).2 = Ok [e']
    /\ keeps e e'
    /\ forall k v, changes = [(k, CVString v)] ->
         k ∉ ["host"; "service"; "description"; "state"] -> Event.attr k e' = v.
Proof.
  exists (fns.apply_changes changes false e). split; [by destruct st as [[] []]|].
  split.
  - clear st. revert e. induction changes as [|[k v] l IH]; intros e; [reflexivity|].
    etransitivity; [apply set_event_value_keeps|apply IH].
  - intros k v -> Hk. simpl. unfold set_event_value_string.
    rewrite !not_elem_of_cons in Hk. destruct Hk as (? & ? & ? & ? & _).
    rewrite !decide_False by done. by rewrite attr_set_attr, decide_True.
Qed.

(** ** [counter] *)

Definition with_metric (es : list Event) : list Event :=
  filter (fun e => Event.has_metric e = true) es.

(** What the counter yields for the last event of a prefix. *)
Definition counter_out (p : list Event) : result (list Event) :=
  Ok match list.last p with
     | Some e =>
         if Event.has_metric e
         then [Event.set_metric_sint64 (wrap32 (Z.of_nat (length (with_metric p))))
                 (Event.clear_metric e)]
         else [e]
     | None => []
     end.

(** [counter()] replaces the metric of the n-th event that has one by n, counted
    modulo 2^32, and passes the others on unchanged. *)
Theorem counter_spec (es : list (clock * Event)) :
  run_events (m_event fns.counter_) es 0%Z =
  (wrap32 (Z.of_nat (length (with_metric es.*2))), [], counter_out <$> prefixes es.*2).
Proof.
  unfold fns.counter_. rewrite run_events_step.
  enough (run_steps fns.counter_step es 0%Z =
    (wrap32 (Z.of_nat (length (with_metric es.*2))), counter_out <$> prefixes es.*2))
    as -> by done.
  induction es as [|[now e] es IH] using rev_ind; [done|].
  rewrite run_steps_snoc, IH, fmap_app. cbn [fmap list_fmap snd].
  rewrite prefixes_snoc, fmap_app. cbn [fmap list_fmap].
  unfold counter_out at 3, fns.counter_step. rewrite last_snoc.
  unfold with_metric. rewrite list.filter_app, length_app.
  destruct (Event.has_metric e) eqn:He;
    rewrite filter_cons, filter_nil, He; cbn [length];
    [rewrite decide_True by done|rewrite decide_False by done; by rewrite Nat.add_0_r].
  cbn [length]. rewrite Nat2Z.inj_add. unfold wrap32. by rewrite Zplus_mod_idemp_l.
Qed.
