(* ===== verification/Rules.v ===== *)
(** * The rule library

    [src/rules/common.cpp]: the building blocks the rules of an installation are
    written with, all compositions of the stream functions. *)

From S2P Require Import Prelude Ieee Containers Events Folds Infra Predicates By Windows Filters Aggregates Streams.

Local Open Scope cav_scope.

Module rules.

(** ** Folds *)

(** [std::count_if] on the state. *)
Definition count_state (state : string) (events : list Event) : nat :=
  length (filter (fun e => Event.state e = state) events).

(** [events[0]] of an empty vector is undefined. *)
Definition fold_max_critical_hosts (n : nat) : fold_fn_t := fun events =>
  match events with
  | [] => Throw undefined_behaviour
  | e :: _ =>
      Ok (Event.set_state
            (if (n <=? count_state "critical" events)%nat then "critical" else "ok") e)
  end.

Definition fold_stable_events (n : nat) : fold_fn_t := fun events =>
  match events with
  | [] => Throw undefined_behaviour
  | e :: _ =>
      Ok (if decide (count_state (Event.state e) events = n)
          then default e (list.last events) else Event.empty)
  end.

Definition k_same_interval : Z := 60.

(** The times of [std::min_element] and [std::max_element]. *)
Definition min_time (e : Event) (es : list Event) : Z :=
  foldl (fun m x => if (Event.time x <? m)%Z then Event.time x else m) (Event.time e) es.
Definition max_time (e : Event) (es : list Event) : Z :=
  foldl (fun m x => if (m <? Event.time x)%Z then Event.time x else m) (Event.time e) es.

Definition same_interval (events : list Event) : result bool :=
  match events with
  | [] => Throw undefined_behaviour
  | e :: es => Ok (i64_sub (max_time e es) (min_time e es) <? k_same_interval)%Z
  end.

Definition fold_ratio (zero_ratio : double) : fold_fn_t := fun events =>
  match events with
  | [e0; e1] =>
      if Event.has_metric e0 && Event.has_metric e1 then
        res_map (fun same : bool =>
          if same then
            let a := Event.metric e0 in
            let b := Event.metric e1 in
            let ratio := if sf_eq b d_zero then zero_ratio else d_div a b in
            Event.set_metric ratio
              (Event.set_service (Event.service e0 +:+ (" / " +:+ Event.service e1)) e0)
          else Event.empty) (same_interval events)
      else Ok Event.empty
  | _ => Ok Event.empty
  end.

(** ** Streams *)

Definition critical_or_ok (b : bool) : string := if b then "critical" else "ok".

Definition set_critical_predicate (predicate : predicate_t) : streams_t :=
  create_stream (fun e =>
    b <- fns.call_pred predicate e ;; ret [Event.set_state (critical_or_ok b) e]).

Definition no_expire : streams_t := fns.state_any ["ok"; "critical"].

Definition critical_above (value : double) : streams_t :=
  set_critical_predicate (predicates.p_above value).
Definition critical_under (value : double) : streams_t :=
  set_critical_predicate (predicates.p_under value).

(** The interval is a [double] that [stable] takes as a [time_t]. *)
Definition stable_metric_trigger (dt : double) (trigger : predicate_t) : streams_t :=
  set_critical_predicate trigger >> fns.stable (i64_of_sf dt).

(** [stable_stream]: [stable], then a node that stores in the shared flag [state]
    whether the event is ok.  The flag is the state of that node; it starts as
    [true]. *)
Definition set_state_step (_ : clock) (_ : bool) (e : Event) : bool * result (list Event) :=
  (bool_decide (Event.state e = "ok"), Ok [e]).
Definition stable_stream (dt : double) : list machine :=
  [stable_lock_ (i64_of_sf dt); step_machine true set_state_step].

Definition state_ok (dt : double) (st : chain_state (stable_stream dt)) : bool := st.2.1.

Definition stable_metric_event (dt : double) (trigger cancel : predicate_t) (e : Event)
  : M (chain_state (stable_stream dt)) next_events_t :=
  t <- fns.call_pred trigger e ;;
  critical <-
    (if t : bool then ret true
     else
       st <- getm ;;
       if state_ok dt st then ret false
       else c <- fns.call_pred cancel e ;; ret (negb c)) ;;
  chain_push (stable_stream dt) (Event.set_state (critical_or_ok critical) e).

Definition stable_metric_ (dt : double) (trigger cancel : predicate_t) : machine :=
  Machine (chain_state (stable_stream dt)) (chain_init 0 (stable_stream dt))
    (stable_metric_event dt trigger cancel) (chain_timer (stable_stream dt)).
Definition stable_metric (dt : double) (trigger cancel : predicate_t) : streams_t :=
  create_stream_simple (stable_metric_ dt trigger cancel).

Definition agg_stable_metric {U} `{UnorderedMap U} (dt : double) (fold_fn : fold_fn_t)
    (trigger cancel : predicate_t) : streams_t :=
  fns.coalesce (U := U) fold_fn >> stable_metric dt trigger cancel.

Definition max_critical_hosts {U} `{UnorderedMap U} (n : nat) : streams_t :=
  fns.coalesce (U := U) (fold_max_critical_hosts n).

Definition ratio (a b : string) (default_zero : double) : streams_t :=
  fns.project [predicates.p_service a; predicates.p_service b] (fold_ratio default_zero)
  >> fns.where_ (PRED Event.has_metric).

Definition per_host_ratio (a b : string) (default_zero dt : double)
    (trigger cancel : predicate_t) : streams_t :=
  fns.by_ ["host"] (ratio a b default_zero) >> stable_metric dt trigger cancel.

Definition stable_event_stream (events : nat) : streams_t :=
  fns.moving_event_window events (fold_stable_events events)
  >> fns.where_ (PRED Event.has_state).

(** ** Targets *)

Record target_t : Type := MkTarget {
  t_pagerduty : list stream_node_t;
  t_email : list stream_node_t;
  t_index : list stream_node_t;
  t_all : list stream_node_t
}.

(** [sdo(s...)] is [svec({s...})]. *)
Definition pg_stream (pagerduty_key : string) : streams_t :=
  fns.svec [fns.state "ok" >> fns.pagerduty_resolve pagerduty_key;
            fns.state "critical" >> fns.pagerduty_trigger pagerduty_key].

Definition create_targets (pagerduty_key to : string) : target_t :=
  let mail_stream := fns.email "localhost" "cavalieri@localhost" to in
  let pagerduty := no_expire >> fns.changed_state "ok" >> pg_stream pagerduty_key in
  let email := no_expire >> fns.changed_state "ok" >> mail_stream in
  let index := fns.send_index in
  MkTarget pagerduty email index (fns.svec [pagerduty; email; index]).

End rules.

(** ** A filter behind a stream *)

Lemma concatM_filter {S} (f : Event -> M S next_events_t) (P : Event -> bool) l now s :
  (forall e, f e now s = (s, [], Ok (fns.pass_if (P e) e))) ->
  concatM f l now s = (s, [], Ok (filter (fun e => P e = true) l)).
Proof.
  intros Hf. induction l as [|e l IH]; [done|].
  cbn [concatM]. unfold bind, ret. rewrite Hf, IH, filter_cons. by destruct (P e).
Qed.

Lemma chain_batch_filter i (fn : Event -> M unit next_events_t) P l now :
  (forall e, fn e now () = ((), [], Ok (fns.pass_if (P e) e))) ->
  chain_batch i [stateless fn] l now ((), ()) =
  (((), ()), [], Ok (filter (fun e => P e = true) l)).
Proof.
  intros Hfn. cbn [chain_batch]. unfold bind, on_fst, on_snd, below, ret.
  cbn [fst snd m_event stateless].
  rewrite (concatM_filter _ P) by done. cbn [fst snd]. by destruct (filter _ l).
Qed.

(** [s >> where(P)] yields what [s] yields, filtered. *)
Lemma chain_push_where m P e now s (c := init_streams (fns.where_ (PRED P))) :
  chain_push (m :: c) e now (s, ((), ())) =
  let '(s', w, r) := m_event m e now s in
  ((s', ((), ())), at_hop (HNode 0) <$> w, res_map (filter (fun e => P e = true)) r).
Proof.
  pose proof (chain_push_app [m] c e now (s, ((), ())) ltac:(done)) as H.
  cbn [app chain_split fst snd] in H. rewrite chain_push_one in H.
  destruct (m_event m e now s) as [[s' w] [[|y r]|x]]; [done| |done].
  unfold c in *. cbn [init_streams fns.where_ create_stream on_init length] in *.
  rewrite (chain_batch_filter _ _ P) in H by done. rewrite app_nil_r in H. exact H.
Qed.

Lemma run_events_where m P es s (c := init_streams (fns.where_ (PRED P))) :
  (run_events (chain_push (m :: c)) es (s, ((), ()))).2 =
  res_map (filter (fun e => P e = true)) <$> (run_events (m_event m) es s).2.
Proof.
  revert s. induction es as [|[now e] es IH]; intros s; [done|].
  cbn [run_events]. unfold c. rewrite chain_push_where. fold c.
  destruct (m_event m e now s) as [[s' w] r]. specialize (IH s').
  destruct (run_events (chain_push (m :: c)) es (s', ((), ()))) as [[? ?] rs].
  destruct (run_events (m_event m) es s') as [[? ?] rs']. cbn [snd] in *. by rewrite IH.
Qed.

(** ** [stable_event_stream] *)

Lemma count_state_le st l : (rules.count_state st l <= length l)%nat.
Proof. apply length_filter. Qed.

Lemma count_state_all st l :
  rules.count_state st l = length l <-> Forall (fun e => Event.state e = st) l.
Proof.
  unfold rules.count_state. induction l as [|e l IH]; [done|].
  rewrite filter_cons, Forall_cons_iff, <- IH.
  pose proof (length_filter (fun e => Event.state e = st) l) as Hle.
  case_decide as He; simpl; split; [intros; split; [done|lia]| |lia|by intros []].
  intros [_ H]. by rewrite H.
Qed.

(** What is yielded for the last event of a prefix. *)
Definition stable_events_out (n : nat) (p : list Event) : list Event :=
  match list.last p with
  | Some e =>
      if decide ((n <= length p)%nat /\ Forall (fun x => Event.state x = Event.state e) (last_n n p))
      then if Event.has_state e then [e] else []
      else []
  | None => []
  end.

Lemma last_last_n {A} n (l : list A) x : (0 < n)%nat ->
  list.last (last_n n (l ++ [x])) = Some x.
Proof. intros Hn. destruct n as [|n]; [lia|]. by rewrite last_n_S, last_snoc. Qed.

Lemma fold_stable_events_out n l e :
  (0 < n)%nat ->
  res_map (filter (fun e => Event.has_state e = true))
    (fold_out (rules.fold_stable_events n) (last_n n (l ++ [e])))
  = Ok (stable_events_out n (l ++ [e])).
Proof.
  intros Hn. unfold stable_events_out. rewrite last_snoc.
  pose proof (last_last_n n l e Hn) as Hlast.
  pose proof (length_last_n n (l ++ [e])) as Hlen.
  set (w := last_n n (l ++ [e])) in *. set (k := length (l ++ [e])) in *.
  destruct w as [|h t]; [done|].
  unfold fold_out, rules.fold_stable_events. rewrite Hlast. cbn [res_map default].
  assert (rules.count_state (Event.state h) (h :: t) = n <->
    (n <= k)%nat /\ Forall (fun x => Event.state x = Event.state e) (h :: t)) as Hiff.
  { pose proof (count_state_le (Event.state h) (h :: t)) as Hle.
    pose proof (count_state_all (Event.state h) (h :: t)) as Hall.
    apply last_Some_elem_of in Hlast. rewrite list.Forall_forall in Hall |- *. split.
    - intros Hc. split; [lia|]. intros x Hx.
      assert (forall x, x ∈ h :: t -> Event.state x = Event.state h) as HF
        by (apply Hall; lia).
      by rewrite (HF x Hx), (HF e Hlast).
    - intros [Hk HF]. transitivity (length (h :: t)); [apply Hall|lia].
      intros x Hx. rewrite (HF x Hx). symmetry. apply HF. left. }
  destruct (decide (rules.count_state _ _ = n)) as [Hc|Hc].
  - rewrite decide_True by (by apply Hiff). rewrite filter_cons, filter_nil.
    unfold id. by destruct (Event.has_state e).
  - rewrite decide_False by (by rewrite <- Hiff). done.
Qed.

(** [stable_event_stream(n)] passes an event on exactly when at least [n] events have
    arrived, the last [n] of them, itself included, share its state, and it has
    one. *)
Theorem stable_event_stream_spec (n : nat) (es : list (clock * Event)) (now0 : clock) :
  (0 < n)%nat ->
  let c := init_streams (rules.stable_event_stream n) in
  (run_events (chain_push c) es (chain_init 0 c now0).1).2
  = (fun p => Ok (stable_events_out n p)) <$> prefixes es.*2.
Proof.
  intros Hn c. unfold c, rules.stable_event_stream. rewrite init_streams_join.
  change (chain_init 0 _ now0).1 with ([] : list Event, ((), ())).
  change (init_before _ _ ++ ?c) with
    (moving_event_window_lock_ n (rules.fold_stable_events n) :: c).
  rewrite run_events_where. unfold moving_event_window_lock_.
  rewrite run_events_step, moving_event_window_run. cbn [snd].
  rewrite <- list_fmap_compose. apply list_fmap_ext. intros i p Hp.
  unfold prefixes in Hp. rewrite list_lookup_fmap in Hp.
  destruct (seq 1 _ !! i) as [k|] eqn:Hk; [|done]. apply lookup_seq in Hk as [-> Hi].
  injection Hp as <-. destruct (take (1 + i) es.*2) as [|x l] eqn:Ht using rev_ind.
  { apply (f_equal length) in Ht. rewrite length_take in Ht. cbn [length] in Ht. lia. }
  cbn [Nat.add] in Ht. unfold compose. rewrite Ht. by apply fold_stable_events_out.
Qed.

Lemma stable_event_stream_spec_witness :
  let ev s := Event.set_state s Event.empty in
  let c := init_streams (rules.stable_event_stream 2) in
  (run_events (chain_push c) [(0, ev "ok"); (0, ev "ok"); (0, ev "critical")]%Z
     (chain_init 0 c 0%Z).1).2 = [Ok []; Ok [ev "ok"]; Ok []].
Proof.
  cbv zeta. rewrite (stable_event_stream_spec 2 _ _ ltac:(lia)). vm_compute. reflexivity.
Defined.

(** ** [ratio] *)

(** The ratio of the latest events of the two services, if they are comparable. *)
Definition ratio_of (zero_ratio : double) (x y : Event) : list Event :=
  if Event.has_metric x && Event.has_metric y
     && (Z.abs (Event.time x - Event.time y) <? rules.k_same_interval)%Z
  then [Event.set_metric
          (if sf_eq (Event.metric y) d_zero then zero_ratio
           else d_div (Event.metric x) (Event.metric y))
          (Event.set_service (Event.service x +:+ (" / " +:+ Event.service y)) x)]
  else [].

Definition ratio_out (a b : string) (zero_ratio : double) (p : list (clock * Event))
  : list Event :=
  let preds := [predicates.p_service a; predicates.p_service b] in
  match list.last p with
  | Some (now, e) =>
      if bool_decide (Event.service e = a \/ Event.service e = b) then
        match slots_after preds p with
        | [Some x; Some y] => ratio_of zero_ratio x y
        | _ => []
        end
      else []
  | None => []
  end.

Lemma fold_ratio_pair z x y :
  (0 <= Event.time x < two63)%Z -> (0 <= Event.time y < two63)%Z ->
  res_map (filter (fun e => Event.has_metric e = true)) (fold_out (rules.fold_ratio z) [x; y])
  = Ok (ratio_of z x y).
Proof.
  intros Hx Hy. unfold fold_out, rules.fold_ratio, ratio_of.
  destruct (Event.has_metric x && Event.has_metric y); [|done].
  unfold rules.same_interval, rules.max_time, rules.min_time. cbn [foldl res_map andb].
  assert ((i64_sub (if (Event.time x <? Event.time y)%Z then Event.time y else Event.time x)
             (if (Event.time y <? Event.time x)%Z then Event.time y else Event.time x)
           <? rules.k_same_interval)%Z
          = (Z.abs (Event.time x - Event.time y) <? rules.k_same_interval)%Z) as ->.
  { rewrite i64_sub_exact; [f_equal|]; unfold in_i64, two63 in *;
      destruct (Event.time x <? Event.time y)%Z eqn:H1,
        (Event.time y <? Event.time x)%Z eqn:H2; blia. }
  by destruct (_ <? _)%Z.
Qed.

Lemma fold_ratio_short z l :
  (length l <= 1)%nat ->
  res_map (filter (fun e => Event.has_metric e = true)) (flush_out (rules.fold_ratio z) (Ok l))
  = Ok [].
Proof. destruct l as [|x [|y l]]; simpl; [done|done|lia]. Qed.

Lemma fold_both_filter (P : Event -> Prop) `{!forall x, Decision (P x)} fold l1 l2 r1 r2 :
  res_map (filter P) (flush_out fold (Ok l1)) = Ok r1 ->
  res_map (filter P) (flush_out fold (Ok l2)) = Ok r2 ->
  res_map (filter P) (fold_both fold l1 l2) = Ok (r1 ++ r2).
Proof.
  unfold fold_both. destruct (flush_out fold (Ok l1)) as [o1|], (flush_out fold (Ok l2)) as [o2|];
    simpl; intros Hr1 Hr2; try done. injection Hr1 as <-. injection Hr2 as <-.
  by rewrite list.filter_app.
Qed.

Lemma ratio_result a b z es now e :
  Forall (fun e => 0 <= Event.time e < two63)%Z (es ++ [(now, e)]).*2 ->
  res_map (filter (fun e => Event.has_metric e = true))
    (project_result [predicates.p_service a; predicates.p_service b]
       (rules.fold_ratio z) es now e)
  = Ok (ratio_out a b z (es ++ [(now, e)])).
Proof.
  intros Hr. set (preds := [predicates.p_service a; predicates.p_service b]).
  unfold project_result, ratio_out. rewrite last_snoc. cbv zeta. fold preds.
  assert (match_index preds now e =
    Ok (if decide (Event.service e = a) then Some 0%nat
        else if decide (Event.service e = b) then Some 1%nat else None)) as Hm.
  { simpl. unfold PRED. by repeat case_bool_decide; repeat case_decide. }
  rewrite Hm. change (slots_after preds es) with
    [foldl (slot_next preds 0) None es; foldl (slot_next preds 1) None es].
  assert (slots_after preds (es ++ [(now, e)]) =
    [slot_next preds 0 (foldl (slot_next preds 0) None es) (now, e);
     slot_next preds 1 (foldl (slot_next preds 1) None es) (now, e)]) as ->
    by (unfold slots_after; simpl; by rewrite !foldl_snoc).
  assert (forall i x, slot_next preds i (foldl (slot_next preds i) None es) (now, e) = Some x ->
    0 <= Event.time x < two63)%Z as Hb.
  { intros i x Hx. rewrite <- foldl_snoc in Hx. apply slot_from_events in Hx.
    rewrite list.Forall_forall in Hr. by apply Hr. }
  pose proof (Hb 0%nat) as Hb0. pose proof (Hb 1%nat) as Hb1. clear Hb Hr.
  revert Hb0 Hb1.
  generalize (foldl (slot_next preds 0) None es), (foldl (slot_next preds 1) None es).
  intros o0 o1.
  destruct (decide (Event.service e = a)) as [Ha|Ha];
    [|destruct (decide (Event.service e = b)) as [Hs|Hs]].
  3:{ intros _ _. by rewrite bool_decide_eq_false_2 by (by intros [?|?]). }
  all: rewrite !(slot_next_upd _ _ _ _ _ _ Hm), bool_decide_eq_true_2 by tauto;
    intros Hb0 Hb1; unfold slot_upd in *; simpl in Hb0, Hb1 |- *;
    apply (fold_both_filter _ _ _ _ []);
    [apply fold_ratio_short; destruct o0, o1; simpl; repeat case_scrut; simpl; lia|].
  - destruct (match o1 with Some _ => _ | None => _ end) as [y|];
      [by apply fold_ratio_pair; auto|by apply fold_ratio_short; simpl; lia].
  - destruct (match o0 with Some _ => _ | None => _ end) as [x|];
      [by apply fold_ratio_pair; auto|by apply fold_ratio_short; simpl; lia].
Qed.

(** [ratio(a, b, zero)]: an event of service [a] or [b] yields the ratio of the latest
    events of the two services (or [zero] for a zero denominator), under the
    host of the first, exactly when both slots hold an event with a metric and
    their times lie less than a minute apart; otherwise, and for every other
    service, nothing is yielded, not even the empty events the fold returns. *)
Theorem ratio_spec (a b : string) (zero_ratio : double) (es : list (clock * Event))
    (now0 : clock) :
  Forall (fun e => 0 <= Event.time e < two63)%Z es.*2 ->
  let c := init_streams (rules.ratio a b zero_ratio) in
  (run_events (chain_push c) es (chain_init 0 c now0).1).2
  = (fun p => Ok (ratio_out a b zero_ratio p)) <$> prefixes es.
Proof.
  intros Hr c. unfold c, rules.ratio. rewrite init_streams_join.
  set (preds := [predicates.p_service a; predicates.p_service b]).
  change (chain_init 0 _ now0).1 with ([None; None] : list (option Event), ((), ())).
  change (init_before _ _ ++ ?c) with (project_lock_ preds (rules.fold_ratio zero_ratio) :: c).
  rewrite run_events_where. unfold project_lock_. rewrite run_events_step.
  pose proof (project_run_results preds (rules.fold_ratio zero_ratio) es) as H.
  change (replicate (length preds) None) with [None; None : option Event] in H.
  destruct (run_steps _ es _) as [s rs]. cbn [snd] in *. subst rs.
  rewrite <- list_fmap_compose. induction es as [|[now e] es IH] using rev_ind; [done|].
  rewrite prefixes_snoc, !fmap_app. f_equal.
  - apply IH. rewrite fmap_app in Hr. by apply Forall_app in Hr as [? _].
  - cbn [fmap list_fmap]. f_equal. unfold compose. rewrite last_snoc, length_app.
    cbn [length]. rewrite Nat.add_sub, take_app_length. by apply ratio_result.
Qed.

Lemma ratio_spec_witness :
  let ev s m := Event.set_service s (Event.set_metric (d_of_Z m) (Event.set_time 7 Event.empty)) in
  let c := init_streams (rules.ratio "a" "b" d_zero) in
  (run_events (chain_push c) [(7, ev "a" 6); (7, ev "x" 1); (7, ev "b" 3)]%Z
     (chain_init 0 c 0%Z).1).2 = [Ok []; Ok []; Ok [ev "a / b" 2%Z]].
Proof.
  cbv zeta. rewrite ratio_spec by by_decide. vm_compute. reflexivity.
Defined.

(** ** [max_critical_hosts] *)

#[export] Instance count_state_perm st : Proper (Permutation ==> eq) (rules.count_state st).
Proof. intros l1 l2 Hl. unfold rules.count_state. by rewrite Hl. Qed.

(** [max_critical_hosts(n)], over any hash map: an event that is not expired yields,
    last, an event that is critical exactly when at least [n] of the hosts and
    services seen, each with its latest unexpired event, are critical, and ok
    otherwise. *)
Theorem max_critical_hosts_spec {U : Type -> Type} `{UnorderedMapLaws U} (n : nat)
    (es : list (clock * Event)) (now : clock) (e : Event) :
  predicates.expired now e = false ->
  let m := coalesce_lock_ (U := U) (rules.fold_max_critical_hosts n) in
  let '(s, _, _) := run_events (m_event m) es um_empty in
  let live := (map_to_list (foldl coalesce_abs ∅ (es ++ [(now, e)]))).*2 in
  exists l x, (m_event m e now s).2 = Ok (l ++ [x])
    /\ Event.state x =
       if (n <=? rules.count_state "critical" live)%nat then "critical" else "ok".
Proof.
  intros He m. pose proof (coalesce_run (U := U) (rules.fold_max_critical_hosts n) es) as Hrun.
  unfold m, coalesce_lock_. rewrite run_events_step.
  destruct (run_steps _ es _) as [s rs]. destruct Hrun as [Hg _].
  pose proof (coalesce_step_refines (rules.fold_max_critical_hosts n) now s _ e Hg) as Hs.
  cbn [m_event step_machine]. unfold stepM.
  destruct (coalesce_step _ now s e) as [s' r]. destruct Hs as [_ (old & live & -> & _ & Hl)].
  rewrite foldl_snoc. cbn [snd fst] in *.
  assert (live ≡ₚ (map_to_list (coalesce_abs (foldl coalesce_abs ∅ es) (now, e))).*2) as Hl'.
  { rewrite Hl. unfold coalesce_abs at 2. by rewrite map_to_list_filter. }
  assert (forall st, rules.count_state st
    (map_to_list (coalesce_abs (foldl coalesce_abs ∅ es) (now, e))).*2
    = rules.count_state st live) as Hc by (intros st; by rewrite Hl').
  rewrite Hc. destruct live as [|x live].
  { exfalso. symmetry in Hl'. apply Permutation_nil_r in Hl'.
    assert (e ∈ (map_to_list (coalesce_abs (foldl coalesce_abs ∅ es) (now, e))).*2) as Hin.
    { apply list_elem_of_fmap. exists (coalesce_key e, e). split; [done|].
      apply elem_of_map_to_list, map_lookup_filter_Some. split; [apply lookup_insert_eq|done]. }
    rewrite Hl' in Hin. inv Hin. }
  unfold fold_both. destruct old as [|y old]; simpl.
  - eexists [], _. split; [done|]. done.
  - eexists [_], _. split; [done|]. done.
Qed.

Lemma max_critical_hosts_spec_witness :
  let ev h := Event.set_host h (Event.set_state "critical" (Event.set_time 5 Event.empty)) in
  let m := coalesce_lock_ (U := hash_map) (rules.fold_max_critical_hosts 2) in
  let '(s, _, _) := run_events (m_event m) [(5, ev "a")]%Z um_empty in
  exists l x, (m_event m (ev "b") 6%Z s).2 = Ok (l ++ [x]) /\ Event.state x = "critical".
Proof.
  pose (ev h := Event.set_host h (Event.set_state "critical" (Event.set_time 5 Event.empty))).
  pose proof (max_critical_hosts_spec (U := hash_map) 2 [(5, ev "a")]%Z 6 (ev "b")
    ltac:(vm_compute; reflexivity)) as H.
  cbv zeta in H |- *. destruct (run_events _ _ _) as [[s w] rs].
  destruct H as (l & x & H1 & H2). exists l, x. split; [exact H1|].
  rewrite H2. vm_compute. reflexivity.
Defined.

(** ** [stable_metric] *)

(** What [stable] buffers has the state it waits for. *)
Definition stable_wf (s : stable_t) : Prop :=
  Forall (fun e => Event.state e = st_state s) (st_buffer s).

Lemma stable_step_wf dt now s e :
  stable_wf s ->
  exists s' o, stable_step dt now s e = (s', Ok o) /\ stable_wf s'
    /\ Forall (fun x => Event.state x = Event.state e) o.
Proof.
  intros Hs. unfold stable_step, stable_wf in *.
  destruct (decide (st_state s <> Event.state e)) as [Hc|Hc].
  { eexists _, _. split; [done|]. split; repeat constructor. }
  apply dec_stable in Hc. rewrite Hc in Hs.
  destruct (Event.time e <? st_start s)%Z;
    [|destruct (i64_add (st_start s) dt >? Event.time e)%Z];
    eexists _, _; (split; [done|]); simpl; rewrite ?Hc; split; try done; try constructor;
    apply Forall_app; split; try done; repeat constructor; done.
Qed.

(** The flag node stores whether the last event of a batch is ok. *)
Lemma set_state_batch i l now ok :
  chain_batch i [step_machine true rules.set_state_step] l now (ok, ()) =
  ((match list.last l with
    | Some x => bool_decide (Event.state x = "ok")
    | None => ok
    end, ()), [], Ok l).
Proof.
  assert (concatM (stepM rules.set_state_step) l now ok =
    (match list.last l with Some x => bool_decide (Event.state x = "ok") | None => ok end,
     [], Ok l)) as Hc.
  { revert ok. induction l as [|x l IH]; intros ok; [done|].
    cbn [concatM]. unfold bind, ret, stepM at 1, rules.set_state_step at 1. rewrite IH.
    rewrite last_cons. by destruct (list.last l). }
  cbn [chain_batch]. unfold bind, on_fst, on_snd, below, ret. cbn [fst snd].
  change (concatM (m_event _) l now ok) with (concatM (stepM rules.set_state_step) l now ok).
  rewrite Hc. by destruct l.
Qed.

(** One event through [stable] and the flag. *)
Lemma stable_stream_push dt e now s ok :
  stable_wf s ->
  exists s' o, chain_push (rules.stable_stream dt) e now (s, (ok, ())) =
    ((s', (match list.last o with
           | Some x => bool_decide (Event.state x = "ok")
           | None => ok
           end, ())), [], Ok o)
    /\ stable_wf s' /\ Forall (fun x => Event.state x = Event.state e) o.
Proof.
  intros Hs. destruct (stable_step_wf (i64_of_sf dt) now s e Hs) as (s' & o & Hstep & Hwf & Ho).
  exists s', o. split; [|done].
  pose proof (chain_push_app [stable_lock_ (i64_of_sf dt)]
    [step_machine true rules.set_state_step] e now (s, (ok, ())) ltac:(done)) as H.
  cbn [app chain_split fst snd] in H. rewrite chain_push_one in H.
  cbn [m_event stable_lock_ step_machine] in H. unfold stepM in H. rewrite Hstep in H.
  destruct o as [|x o]; [exact H|]. rewrite set_state_batch in H. exact H.
Qed.

(** Whether the last event yielded was ok; [ok] if none was. *)
Definition last_ok (ok : bool) (l : list Event) : bool :=
  match list.last l with
  | Some x => bool_decide (Event.state x = "ok")
  | None => ok
  end.

Lemma last_ok_app ok l1 l2 : last_ok ok (l1 ++ l2) = last_ok (last_ok ok l1) l2.
Proof.
  unfold last_ok. rewrite last_app. by destruct (list.last l2).
Qed.

Lemma last_ok_Forall b ok l :
  Forall (fun x => Event.state x = rules.critical_or_ok b) l ->
  ok = negb b -> last_ok ok l = ok.
Proof.
  intros Hl ->. unfold last_ok. destruct (list.last l) as [x|] eqn:Hx; [|done].
  apply last_Some_elem_of in Hx. rewrite list.Forall_forall in Hl.
  rewrite (Hl x Hx). by destruct b.
Qed.

Section stable_metric.
Context (dt : double) (t c : Event -> bool).

(** The state an event is given. *)
Definition metric_critical (ok : bool) (e : Event) : bool :=
  t e || (negb ok && negb (c e)).

Lemma stable_metric_step now s ok e :
  stable_wf s ->
  exists s' o, rules.stable_metric_event dt (PRED t) (PRED c) e now (s, (ok, ())) =
    ((s', (last_ok ok o, ())), [], Ok o) /\ stable_wf s'
    /\ Forall (fun x => Event.state x = rules.critical_or_ok (metric_critical ok e)) o.
Proof.
  intros Hs.
  destruct (stable_stream_push dt
    (Event.set_state (rules.critical_or_ok (metric_critical ok e)) e) now s ok Hs)
    as (s' & o & Hpush & Hwf & Ho).
  exists s', o. split; [|split; [done|exact Ho]].
  unfold rules.stable_metric_event, metric_critical, last_ok in *.
  set (push := chain_push (rules.stable_stream dt)) in *. clearbody push.
  unfold fns.call_pred, bind, ask, lift, PRED, getm, ret, rules.state_ok. cbn.
  destruct (t e), ok, (c e); cbn in *; by rewrite Hpush.
Qed.

Lemma stable_metric_run es s ok :
  stable_wf s ->
  exists s' outs,
    run_events (rules.stable_metric_event dt (PRED t) (PRED c)) es (s, (ok, ())) =
      ((s', (last_ok ok (concat outs), ())), [], Ok <$> outs)
    /\ stable_wf s'
    /\ forall b, ok = negb b ->
       Forall (fun e => metric_critical ok e = b) es.*2 ->
       Forall (Forall (fun x => Event.state x = rules.critical_or_ok b)) outs.
Proof.
  revert s ok. induction es as [|[now e] es IH]; intros s ok Hs.
  { exists s, []. repeat split; [done|]. constructor. }
  destruct (stable_metric_step now s ok e Hs) as (s1 & o & Hstep & Hs1 & Ho).
  destruct (IH s1 (last_ok ok o) Hs1) as (s' & outs & Hrun & Hs' & Hb).
  exists s', (o :: outs). cbn [run_events]. rewrite Hstep. cbv beta iota.
  rewrite_run Hrun. cbn [concat].
  rewrite last_ok_app. split; [done|]. split; [done|].
  intros b Hok Hes. rewrite fmap_cons in Hes. apply Forall_cons_iff in Hes as [He Hes].
  cbn [snd] in He. rewrite He in Ho. constructor; [done|].
  assert (last_ok ok o = ok) as Hl by (by apply (last_ok_Forall b)).
  rewrite Hl in Hb. by apply Hb.
Qed.
End stable_metric.

(** Every event of a result has the state. *)
Definition all_in_state (st : string) (r : result (list Event)) : Prop :=
  exists l, r = Ok l /\ Forall (fun x => Event.state x = st) l.

(** [stable_metric(dt, trigger, cancel)] latches.  After any events [es1], the flag
    tells whether the last event yielded was ok (or none was).  While it is
    not, events that trigger or do not cancel can only yield critical events:
    the alarm stays up until [cancel] holds.  While it is, events that do not
    trigger can only yield ok ones: there is no alarm without [trigger]. *)
Theorem stable_metric_latched (dt : double) (t c : Event -> bool)
    (es1 es2 : list (clock * Event)) (now0 : clock) :
  let m := rules.stable_metric_ dt (PRED t) (PRED c) in
  let '(st1, _, rs1) := run_events (m_event m) es1 (m_init m now0).1 in
  let rs2 := (run_events (m_event m) es2 st1).2 in
  (exists outs, rs1 = Ok <$> outs /\ rules.state_ok dt st1 = last_ok true (concat outs))
  /\ (rules.state_ok dt st1 = false ->
      Forall (fun e => t e = true \/ c e = false) es2.*2 ->
      Forall (all_in_state "critical") rs2)
  /\ (rules.state_ok dt st1 = true ->
      Forall (fun e => t e = false) es2.*2 -> Forall (all_in_state "ok") rs2).
Proof.
  intros m.
  destruct (stable_metric_run dt t c es1 stable_init true ltac:(constructor))
    as (s1 & outs & Hrun & Hs1 & _).
  rewrite_run Hrun. cbv zeta.
  destruct (stable_metric_run dt t c es2 s1 (last_ok true (concat outs)) Hs1)
    as (s2 & outs2 & Hrun2 & _ & Hb).
  rewrite_run Hrun2. cbn [snd]. unfold rules.state_ok. cbn [fst snd].
  assert (forall st, Forall (Forall (fun x => Event.state x = st)) outs2 ->
    Forall (all_in_state st) (Ok <$> outs2)) as Hout.
  { intros st HF. apply Forall_fmap. revert HF. apply Forall_impl.
    intros l Hl. by exists l. }
  split; [by exists outs|]. split; intros Hok Hes; apply Hout.
  - apply (Hb true Hok). revert Hes. apply Forall_impl. intros e He.
    unfold metric_critical. rewrite Hok. destruct (t e), (c e); by destruct He.
  - apply (Hb false Hok). revert Hes. apply Forall_impl. intros e He.
    unfold metric_critical. by rewrite Hok, He.
Qed.

(** ** Paging *)

Abbreviation host_service := ["host"; "service"].

(** The page for an event. *)
Definition page (key : string) (e : Event) : list effect :=
  if decide (Event.state e = "ok") then [EPagerduty "resolve" key e]
  else if decide (Event.state e = "critical") then [EPagerduty "trigger" key e]
  else [].

(** The pages of a sequence of events, given the last state of each host and service:
    one for each change between ok and critical. *)
Fixpoint pages (key : string) (last : gmap string string) (es : list (clock * Event))
  : list effect :=
  match es with
  | [] => []
  | (_, e) :: es' =>
      if decide (Event.state e ∈ ["ok"; "critical"]) then
        let k := by_key host_service e in
        (if decide (default "ok" (last !! k) = Event.state e) then [] else page key e)
        ++ pages key (<[k := Event.state e]> last) es'
      else pages key last es'
  end.

Lemma at_hop_page h key e : at_hop h <$> page key e = page key e.
Proof. unfold page. by repeat case_decide. Qed.

(** The branches send the page and yield nothing. *)
Lemma pg_stream_event key e now (m := fns.svec_
    [fns.state "ok" >> fns.pagerduty_resolve key;
     fns.state "critical" >> fns.pagerduty_trigger key]) st :
  m_event m e now st = (st, page key e, Ok []).
Proof.
  destruct st as [([] & [] & []) [([] & [] & []) []]]. unfold page.
  cbn. unfold fns.call_pred, bind, on_fst, on_snd, below, ask, lift, tell, ret,
    predicates.p_match, PRED, predicates.match_. cbn.
  change (Event.value_to_str "state" e) with (Event.state e).
  destruct (decide (Event.state e = "ok")) as [Hok|Hok].
  - rewrite Hok. reflexivity.
  - rewrite (bool_decide_eq_false_2 (Event.state e = "ok")) by done. cbn.
    destruct (decide (Event.state e = "critical")) as [Hc|Hc].
    + rewrite Hc. reflexivity.
    + by rewrite bool_decide_eq_false_2.
Qed.

Lemma changed_by_event e now map (k := by_key host_service e) :
  by_event host_service [changed_state_lock_ "ok"] e now map =
  (<[k := (Event.state e, ())]> map, [], changed_from (default "ok" (fst <$> map !! k)) e).
Proof.
  unfold by_event, at_key. fold k.
  assert (forall s, chain_push [changed_state_lock_ "ok"] e now (s, ()) =
    ((Event.state e, ()), [], changed_from s e)) as Hpush.
  { intros s. rewrite chain_push_one. cbn [m_event changed_state_lock_ step_machine].
    unfold stepM, changed_state_step, changed_from. by case_decide; subst. }
  destruct (map !! k) as [[s []]|]; cbn [fmap option_fmap option_map fst default];
    [by rewrite Hpush|].
  match goal with
  | |- context [chain_push ?c e now] =>
      change (chain_init 0 c now) with (("ok", ()) : chain_state c, [] : list effect)
  end.
  cbv beta iota. by rewrite Hpush.
Qed.

(** The stream that pages. *)
Definition paging (key to : string) : list machine :=
  init_streams (rules.t_pagerduty (rules.create_targets key to)).

Lemma paging_push key to e now (map : gmap string (string * ())) sv (k := by_key host_service e) :
  chain_push (paging key to) e now ((), (map, (sv, ()))) =
  if decide (Event.state e ∈ ["ok"; "critical"]) then
    (((), (<[k := (Event.state e, ())]> map, (sv, ()))),
     if decide (default "ok" (fst <$> map !! k) = Event.state e) then [] else page key e,
     Ok [])
  else (((), (map, (sv, ()))), [], Ok []).
Proof.
  change (paging key to) with
    [stateless (fun e => ret (fns.pass_if (bool_decide (Event.state e ∈ ["ok"; "critical"])) e));
     by_lock_ host_service (fns.changed_state_ "ok");
     fns.svec_ [fns.state "ok" >> fns.pagerduty_resolve key;
                fns.state "critical" >> fns.pagerduty_trigger key]].
  unfold chain_push. cbn [push_loop]. unfold bind, on_fst, on_snd, below.
  cbn [m_event stateless fst snd].
  destruct (decide (Event.state e ∈ ["ok"; "critical"])) as [Hin|Hin];
    [rewrite bool_decide_eq_true_2 by done|by rewrite bool_decide_eq_false_2].
  cbn [ret fns.pass_if fst snd].
  change (concatM (m_event (by_lock_ host_service (fns.changed_state_ "ok"))) [e] now map) with
    (concatM (by_event host_service [changed_state_lock_ "ok"]) [e] now map).
  rewrite concatM_single, changed_by_event. fold k. cbn [fst snd]. unfold changed_from.
  case_decide; [by rewrite decide_True by done|rewrite decide_False by done].
  cbn [fst snd]. rewrite concatM_single, pg_stream_event.
  cbn [fst snd]. unfold ret. rewrite !app_nil_r, !at_hop_page. done.
Qed.

(** The paging target: of all events of a run, exactly those that change the state of
    their host and service between ok (which every service starts with) and
    critical page, critical ones with a trigger and ok ones with a resolve, in
    the order they come; events in other states neither page nor count. *)
Theorem pagerduty_pages_changes (key to : string) (es : list (clock * Event)) (now0 : clock) :
  let c := init_streams (rules.t_pagerduty (rules.create_targets key to)) in
  (run_events (chain_push c) es (chain_init 0 c now0).1).1.2 = pages key ∅ es.
Proof.
  intros c.
  assert (forall es last (map : gmap string (string * ())) sv,
    (forall k, fst <$> map !! k = last !! k) ->
    (run_events (chain_push (paging key to)) es ((), (map, (sv, ())))).1.2
    = pages key last es) as Hrun.
  2:{ refine (Hrun es ∅ ∅ _ _). intros k. by rewrite !lookup_empty. }
  clear es now0 c. induction es as [|[now e] es IH]; intros last map sv Hl; [done|].
  cbn [run_events pages]. rewrite paging_push, Hl.
  destruct (decide (Event.state e ∈ ["ok"; "critical"])) as [Hin|Hin].
  - specialize (IH (<[by_key host_service e := Event.state e]> last)
      (<[by_key host_service e := (Event.state e, ())]> map) sv).
    destruct (run_events _ es _) as [[st w] rs]. cbn [fst snd] in *. rewrite IH; [done|].
    intros k. rewrite !lookup_insert. case_decide; [done|apply Hl].
  - specialize (IH last map sv Hl).
    by destruct (run_events _ es _) as [[st w] rs].
Qed.
