(* ===== verification/Scheduler.v ===== *)
(** * The scheduler used for testing rules

    [src/scheduler/mock_scheduler.cpp]: a simulated clock and a queue of tasks, run in
    the order of their times when the clock is set.  A task is a value of a type
    [T]; [run] says what executing it does to the world and which tasks it adds to
    the scheduler while it runs. *)

From S2P Require Import Prelude Ieee Containers.

Local Open Scope Z_scope.

(** [std::tuple<time_t, time_t, task_fn_t>]. *)
Record queue_element_t (T : Type) : Type := MkElement {
  q_time : Z;
  q_interval : Z;
  q_fn : T
}.
Arguments MkElement {T} q_time q_interval q_fn.
Arguments q_time {T} _.
Arguments q_interval {T} _.
Arguments q_fn {T} _.

(** A call of [add_periodic_task] or [add_once_task] made by a running task. *)
Record add_call (T : Type) : Type := MkAdd {
  a_once : bool;
  a_interval : float;
  a_task : T
}.
Arguments MkAdd {T} a_once a_interval a_task.
Arguments a_once {T} _.
Arguments a_interval {T} _.
Arguments a_task {T} _.

Module mock_scheduler.
Section mock.
Context {Q : Type -> Type} `{PriorityQueue Q} {T W : Type}.
Variable run : T -> Z -> W -> W * list (add_call T).

Record t : Type := Mk {
  unix_time_ : Z;
  tasks_ : Q (queue_element_t T)
}.

Definition empty : t := Mk 0 pq_empty.

Definition push (x : queue_element_t T) (s : t) : t :=
  Mk (unix_time_ s) (pq_push q_time x (tasks_ s)).

Definition add_periodic_task (task : T) (interval : float) (s : t) : t :=
  let p := i64_of_sf interval in
  push (MkElement (i64_add (unix_time_ s) p) p task) s.
Definition add_once_task (task : T) (dt : float) (s : t) : t :=
  let p := i64_of_sf dt in
  push (MkElement (i64_add (unix_time_ s) p) 0 task) s.
(** Does nothing. *)
Definition remove_ns_tasks (_ : string) (s : t) : t := s.
Definition unix_time (s : t) : Z := unix_time_ s.

Definition set_forward_time (time : Z) (s : t) : t :=
  Mk (if time >? unix_time_ s then time else unix_time_ s) (tasks_ s).

Definition add (s : t) (a : add_call T) : t :=
  if a_once a then add_once_task (a_task a) (a_interval a) s
  else add_periodic_task (a_task a) (a_interval a) s.

(** The body of the loop: pop the first task, run it, put it back if it is
    periodic. *)
Definition run_first (x : queue_element_t T) (q : Q (queue_element_t T)) (s : t) (w : W)
  : t * W :=
  let s := set_forward_time (q_time x) s in
  let s := Mk (unix_time_ s) q in
  let '(w, adds) := run (q_fn x) (unix_time_ s) w in
  let s := foldl add s adds in
  let s := if q_interval x =? 0 then s
           else push (MkElement (i64_add (unix_time_ s) (q_interval x)) (q_interval x)
                        (q_fn x)) s in
  (s, w).

(** [set_time]; [None] when the fuel runs out. *)
Fixpoint set_time_loop (fuel : nat) (event_time : Z) (s : t) (w : W) : option (t * W) :=
  match fuel with
  | O => None
  | S fuel' =>
      match pq_pop q_time (tasks_ s) with
      | None => Some (s, w)
      | Some (x, q) =>
          if q_time x >? event_time then Some (s, w)
          else let '(s, w) := run_first x q s w in set_time_loop fuel' event_time s w
      end
  end.
Definition set_time (fuel : nat) (event_time : Z) (s : t) (w : W) : option (t * W) :=
  (fun sw : t * W => (set_forward_time event_time sw.1, sw.2))
    <$> set_time_loop fuel event_time s w.

Definition clear (_ : t) : t := empty.
End mock.
Arguments t : clear implicits.
End mock_scheduler.

(** ** What [set_time] should do *)

Section occurrences.
Context {T : Type}.

(** How often a task is due up to [e]. *)
Definition due_count (e : Z) (x : queue_element_t T) : nat :=
  if q_time x >? e then 0
  else if q_interval x =? 0 then 1
  else Z.to_nat ((e - q_time x) `div` q_interval x + 1).

(** The times at which it is due, with the task. *)
Definition due (e : Z) (x : queue_element_t T) : list (Z * T) :=
  (fun k => (q_time x + Z.of_nat k * q_interval x, q_fn x)) <$> seq 0 (due_count e x).

(** What is left of it in the queue afterwards. *)
Definition left_over (e : Z) (x : queue_element_t T) : list (queue_element_t T) :=
  if q_time x >? e then [x]
  else if q_interval x =? 0 then []
  else [MkElement (q_time x + Z.of_nat (due_count e x) * q_interval x) (q_interval x) (q_fn x)].

(** A periodic task after one run. *)
Definition next_run (x : queue_element_t T) : queue_element_t T :=
  MkElement (q_time x + q_interval x) (q_interval x) (q_fn x).

Lemma due_none e x : q_time x > e -> due e x = [] /\ left_over e x = [x].
Proof.
  intros Hx. unfold due, due_count, left_over.
  by replace (q_time x >? e) with true by (symmetry; rewrite Z.gtb_ltb; apply Z.ltb_lt; lia).
Qed.

Lemma due_once e x :
  q_time x <= e -> q_interval x = 0 -> due e x = [(q_time x, q_fn x)] /\ left_over e x = [].
Proof.
  intros Hx Hi. unfold due, due_count, left_over.
  replace (q_time x >? e) with false by (symmetry; rewrite Z.gtb_ltb; apply Z.ltb_ge; lia).
  rewrite Hi. simpl. by rewrite Z.add_0_r.
Qed.

Lemma due_count_next e x :
  q_time x <= e -> 0 < q_interval x -> due_count e x = S (due_count e (next_run x)).
Proof.
  intros Hx Hi. unfold due_count. simpl.
  replace (q_time x >? e) with false by (symmetry; rewrite Z.gtb_ltb; apply Z.ltb_ge; lia).
  replace (q_interval x =? 0) with false by (symmetry; apply Z.eqb_neq; lia).
  rewrite Z.gtb_ltb. destruct (e <? q_time x + q_interval x) eqn:Hlt; bool_to_prop.
  - rewrite Z.div_small by lia. done.
  - replace (e - q_time x) with (e - (q_time x + q_interval x) + 1 * q_interval x) by lia.
    rewrite Z.div_add by lia.
    pose proof (Z.div_pos (e - (q_time x + q_interval x)) (q_interval x)). lia.
Qed.

Lemma due_periodic e x :
  q_time x <= e -> 0 < q_interval x ->
  due e x = (q_time x, q_fn x) :: due e (next_run x)
  /\ left_over e x = left_over e (next_run x).
Proof.
  intros Hx Hi. pose proof (due_count_next e x Hx Hi) as Hc. split.
  - unfold due. rewrite Hc. cbn [seq]. rewrite fmap_cons, <- fmap_S_seq, <- list_fmap_compose.
    f_equal; [f_equal; lia|]. apply list_fmap_ext. intros i k _. simpl. f_equal. lia.
  - unfold left_over. rewrite Hc. simpl.
    replace (q_time x >? e) with false by (symmetry; rewrite Z.gtb_ltb; apply Z.ltb_ge; lia).
    replace (q_interval x =? 0) with false by (symmetry; apply Z.eqb_neq; lia).
    destruct (q_time x + q_interval x >? e) eqn:Hgt.
    + assert (due_count e (next_run x) = 0%nat) as ->.
      { unfold due_count. simpl. by rewrite Hgt. }
      unfold next_run. f_equal. f_equal. lia.
    + f_equal. f_equal. lia.
Qed.

(** Nothing is due before the task's time. *)
Lemma due_after e x :
  0 <= q_interval x -> Forall (fun p => q_time x <= p.1) (due e x).
Proof.
  intros Hi. unfold due. apply Forall_fmap, Forall_forall. intros k _. simpl. nia.
Qed.
End occurrences.

(** Between two times: what is due later is due of what is left over. *)
Lemma due_later {T} e e' (x : queue_element_t T) :
  e <= e' -> 0 <= q_interval x ->
  due e' x = due e x ++ (left_over e x ≫= due e') /\ left_over e' x = left_over e x ≫= left_over e'.
Proof.
  intros He. remember (due_count e x) as n eqn:Hn. revert x Hn.
  induction n as [|n IH]; intros x Hn Hi; (destruct (Z.lt_ge_cases e (q_time x)) as [Hlt|Hge];
    [destruct (due_none e x ltac:(lia)) as [-> ->]; simpl; by rewrite !app_nil_r|]).
  - unfold due_count in Hn. replace (q_time x >? e) with false in Hn by (symmetry; rewrite Z.gtb_ltb; blia).
    destruct (q_interval x =? 0) eqn:Hz; [done|]. bool_to_prop.
    pose proof (Z.div_pos (e - q_time x) (q_interval x)). lia.
  - destruct (decide (q_interval x = 0)) as [Hz|Hz].
    + destruct (due_once e x Hge Hz) as [-> ->], (due_once e' x ltac:(lia) Hz) as [-> ->]. done.
    + destruct (due_periodic e x Hge ltac:(lia)) as [-> ->], (due_periodic e' x ltac:(lia) ltac:(lia)) as [-> ->].
      rewrite (due_count_next e x Hge ltac:(lia)) in Hn. injection Hn as Hn.
      destruct (IH (next_run x) Hn Hi) as [-> ->]. done.
Qed.

Section exec.
Context {A T W : Type}.

(** The element that a call at time [c] puts into the queue. *)
Definition registration (c : Z) (a : add_call T) : queue_element_t T :=
  MkElement (c + i64_of_sf (a_interval a)) (if a_once a then 0 else i64_of_sf (a_interval a)) (a_task a).

Variable act : A -> Z -> W -> W * list (add_call T).

(** Executing things, each at its time: the world afterwards and what they put into the queue. *)
Fixpoint exec (w : W) (trace : list (Z * A)) : W * list (queue_element_t T) :=
  match trace with
  | [] => (w, [])
  | (c, f) :: trace' =>
      let '(w1, adds) := act f c w in
      let '(w2, regs) := exec w1 trace' in (w2, map (registration c) adds ++ regs)
  end.

Lemma exec_app w tr1 tr2 :
  exec w (tr1 ++ tr2) =
  let '(w1, regs1) := exec w tr1 in let '(w2, regs2) := exec w1 tr2 in (w2, regs1 ++ regs2).
Proof.
  revert w. induction tr1 as [|[c f] tr1 IH]; intros w; cbn [exec app].
  { by destruct (exec w tr2). }
  destruct (act f c w) as [w1 adds]. rewrite IH. destruct (exec w1 tr1) as [w2 regs1].
  destruct (exec w2 tr2) as [w3 regs2]. by rewrite app_assoc.
Qed.
(** Calls with periods of a second or more. *)
Variable p_max : Z.
Definition adds_ok (adds : list (add_call T)) : Prop :=
  Forall (fun a => 1 <= i64_of_sf (a_interval a) <= p_max) adds.

Variable inv : W -> Prop.
Hypothesis act_adds : forall f c w, inv w -> inv (act f c w).1 /\ adds_ok (act f c w).2.

(** What is executed from [c0] on registers tasks for later. *)
Lemma exec_regs c0 trace w :
  inv w -> Forall (fun a => c0 <= a.1) trace ->
  inv (exec w trace).1 /\ Forall (fun x => c0 < q_time x /\ 0 <= q_interval x <= p_max) (exec w trace).2.
Proof.
  intros Hw Htr. revert w Hw. induction Htr as [|[c f] trace Hc _ IH]; intros w Hw; cbn [exec].
  { split; [done|constructor]. }
  destruct (act_adds f c w Hw) as [Hw1 Ha]. destruct (act f c w) as [w1 adds]. cbn [fst snd] in *.
  specialize (IH w1 Hw1). destruct (exec w1 trace) as [w2 regs]. cbn [fst snd] in *.
  split; [apply IH|]. apply Forall_app. split; [|apply IH]. apply Forall_map. eapply Forall_impl; [|exact Ha].
  intros a Ha'. unfold registration. cbn [q_interval q_time]. cbv beta in Ha'. destruct (a_once a); lia.
Qed.
End exec.

Section mock_correct.
Context {Q : Type -> Type} `{PriorityQueueLaws Q} {T W : Type}.
Variable run : T -> Z -> W -> W * list (add_call T).

(** The time to set, the longest period that occurs, and what the tasks keep true of the world. *)
Variables e p_max : Z.
Variable inv : W -> Prop.

(** A task that is not before [c], with a time that is representable. *)
Definition elem_ok (c : Z) (x : queue_element_t T) : Prop :=
  c <= q_time x /\ in_i64 (q_time x) /\ 0 <= q_interval x <= p_max.
Definition sched_ok (s : mock_scheduler.t Q T) : Prop :=
  in_i64 (mock_scheduler.unix_time_ s)
  /\ Forall (elem_ok (mock_scheduler.unix_time_ s)) (pq_elems (mock_scheduler.tasks_ s)).
Hypothesis e_max : in_i64 (e + p_max).
Hypothesis run_adds : forall f c w, inv w -> inv (run f c w).1 /\ adds_ok p_max (run f c w).2.

Lemma add_calls adds s :
  adds_ok p_max adds -> mock_scheduler.unix_time_ s <= e -> sched_ok s ->
  mock_scheduler.unix_time_ (foldl mock_scheduler.add s adds) = mock_scheduler.unix_time_ s
  /\ pq_elems (mock_scheduler.tasks_ (foldl mock_scheduler.add s adds)) ≡ₚ
     map (registration (mock_scheduler.unix_time_ s)) adds ++ pq_elems (mock_scheduler.tasks_ s)
  /\ sched_ok (foldl mock_scheduler.add s adds).
Proof.
  revert s. induction adds as [|a adds IH]; intros s Ha He Hs; [done|]. cbn [foldl map].
  apply Forall_cons_iff in Ha as [Ha Hadds]. destruct Hs as [Hu Hs].
  set (s1 := mock_scheduler.add s a).
  assert (mock_scheduler.unix_time_ s1 = mock_scheduler.unix_time_ s
    /\ pq_elems (mock_scheduler.tasks_ s1) ≡ₚ
       registration (mock_scheduler.unix_time_ s) a :: pq_elems (mock_scheduler.tasks_ s)) as [Hu1 Hq1].
  { unfold s1, mock_scheduler.add, mock_scheduler.add_once_task, mock_scheduler.add_periodic_task,
      mock_scheduler.push, registration.
    rewrite i64_add_exact by (unfold in_i64 in *; lia). destruct (a_once a); cbn -[Z.add]; by rewrite pq_elems_push. }
  destruct (IH s1 Hadds) as (H1 & H2 & H3).
  - by rewrite Hu1.
  - unfold sched_ok. rewrite Hu1, Hq1. split; [done|]. constructor; [|done].
    unfold elem_ok, registration. cbn. unfold in_i64 in *. destruct (a_once a); lia.
  - rewrite H1, Hu1, H2, Hu1, Hq1. split; [done|]. split; [symmetry; apply Permutation_middle|done].
Qed.

(** One turn of the loop, for a task that is due. *)
Lemma run_first_spec s x q w w' adds :
  sched_ok s -> inv w -> pq_pop q_time (mock_scheduler.tasks_ s) = Some (x, q) -> q_time x <= e ->
  run (q_fn x) (q_time x) w = (w', adds) ->
  inv w' /\ exists s', mock_scheduler.run_first run x q s w = (s', w')
  /\ mock_scheduler.unix_time_ s' = q_time x
  /\ pq_elems (mock_scheduler.tasks_ s') ≡ₚ
     (if q_interval x =? 0 then [] else [next_run x]) ++ map (registration (q_time x)) adds ++ pq_elems q
  /\ sched_ok s'.
Proof.
  intros [Hu Hok] Hw Hpop Hx Hrun. apply pq_pop_Some in Hpop as [Hperm Hmin].
  rewrite Hperm in Hok, Hmin. apply Forall_cons_iff in Hok as [(Hux & Hr & Hi) Hok].
  apply Forall_inv_tail in Hmin.
  unfold mock_scheduler.run_first, mock_scheduler.set_forward_time. cbn -[Z.add].
  assert ((if q_time x >? mock_scheduler.unix_time_ s then q_time x
           else mock_scheduler.unix_time_ s) = q_time x) as ->
    by (rewrite Z.gtb_ltb; destruct (_ <? q_time x) eqn:?; blia).
  rewrite Hrun. pose proof (run_adds (q_fn x) (q_time x) w Hw) as [Hw' Hadd]. rewrite Hrun in Hw', Hadd.
  split; [exact Hw'|].
  destruct (add_calls adds (mock_scheduler.Mk (q_time x) q)) as (H1 & H2 & H3 & H4).
  - exact Hadd.
  - exact Hx.
  - split; [exact Hr|]. cbn. apply list.Forall_forall. intros y Hy. rewrite list.Forall_forall in Hok, Hmin.
    destruct (Hok y Hy) as (_ & ? & ?). split; [by apply Hmin|done].
  - cbn in H1, H2. rewrite H1 in H3, H4 |- *. eexists. split; [reflexivity|].
    destruct (q_interval x =? 0) eqn:Hz; bool_to_prop; cbn -[Z.add]; unfold sched_ok; cbn -[Z.add].
    + by rewrite H1.
    + assert (in_i64 (q_time x + q_interval x)) as Hr3 by (unfold in_i64 in *; lia).
      rewrite i64_add_exact by done. split; [done|]. rewrite pq_elems_push, H1.
      split; [by rewrite H2|]. split; [done|]. constructor; [|done].
      split; [cbn -[Z.add]; lia|split; [done|cbn; lia]].
Qed.

(** The popped task contributes its first occurrence. *)
Lemma due_pop (x : queue_element_t T) l :
  q_time x <= e -> 0 <= q_interval x ->
  let rest := (if q_interval x =? 0 then [] else [next_run x]) ++ l in
  (x :: l) ≫= due e = (q_time x, q_fn x) :: (rest ≫= due e)
  /\ (x :: l) ≫= left_over e = rest ≫= left_over e.
Proof.
  intros Hx Hi. destruct (q_interval x =? 0) eqn:Hz; bool_to_prop.
  - destruct (due_once e x Hx Hz) as [Hd Hl]. simpl. by rewrite Hd, Hl.
  - destruct (due_periodic e x Hx ltac:(lia)) as [Hd Hl]. simpl. by rewrite Hd, Hl.
Qed.

(** The loop ends with all that is due done, in order. *)
Definition loop_done (s : mock_scheduler.t Q T) (w : W) : Prop :=
  exists n s' trace,
    (forall fuel, (n <= fuel)%nat -> mock_scheduler.set_time_loop run fuel e s w = Some (s', (exec run w trace).1))
    /\ trace ≡ₚ (pq_elems (mock_scheduler.tasks_ s) ++ (exec run w trace).2) ≫= due e
    /\ StronglySorted (fun a b => a.1 <= b.1) trace
    /\ Forall (fun a => mock_scheduler.unix_time_ s <= a.1 <= e) trace
    /\ pq_elems (mock_scheduler.tasks_ s') ≡ₚ
       (pq_elems (mock_scheduler.tasks_ s) ++ (exec run w trace).2) ≫= left_over e
    /\ Forall (fun x => e < q_time x) (pq_elems (mock_scheduler.tasks_ s'))
    /\ mock_scheduler.unix_time_ s <= mock_scheduler.unix_time_ s' <= Z.max e (mock_scheduler.unix_time_ s)
    /\ sched_ok s' /\ inv (exec run w trace).1.

Lemma loop_done_stop s w :
  sched_ok s -> inv w -> Forall (fun x => e < q_time x) (pq_elems (mock_scheduler.tasks_ s)) -> loop_done s w.
Proof.
  intros Hok Hw Hall. exists 1%nat, s, []. cbn [exec fst snd]. rewrite app_nil_r.
  assert (pq_elems (mock_scheduler.tasks_ s) ≫= due e = []
          /\ pq_elems (mock_scheduler.tasks_ s) ≫= left_over e = pq_elems (mock_scheduler.tasks_ s)) as [-> ->].
  { clear -Hall. induction Hall as [|y l Hy _ IH]; [done|].
    rewrite !bind_cons. destruct (due_none e y ltac:(lia)) as [-> ->], IH as [-> ->]. done. }
  split; [|repeat split; try done; try constructor; lia || apply Hok].
  intros [|fuel] Hf; [lia|]. cbn [mock_scheduler.set_time_loop].
  destruct (pq_pop q_time (mock_scheduler.tasks_ s)) as [[x q]|] eqn:Hpop; [|done].
  destruct (pq_pop_Some _ _ _ _ _ Hpop) as [Hperm _]. rewrite Hperm in Hall.
  apply Forall_inv in Hall. replace (q_time x >? e) with true by (symmetry; rewrite Z.gtb_ltb; blia). done.
Qed.

Lemma loop_done_step s x q w w' adds s1 :
  sched_ok s -> inv w -> pq_pop q_time (mock_scheduler.tasks_ s) = Some (x, q) -> q_time x <= e ->
  run (q_fn x) (q_time x) w = (w', adds) -> mock_scheduler.run_first run x q s w = (s1, w') ->
  loop_done s1 w' -> loop_done s w.
Proof.
  intros Hok Hw Hpop Hx Hrun Hfirst (n & s' & trace & Hloop & Htr & Hsort & Hin & Hleft & Hgt & Hu' & Hok').
  destruct (run_first_spec s x q w w' adds Hok Hw Hpop Hx Hrun) as (_ & s1' & Hf & Hu1 & Hq1 & Hok1).
  rewrite Hfirst in Hf. injection Hf as <-.
  destruct (pq_pop_Some _ _ _ _ _ Hpop) as [Hperm _]. destruct Hok as [Hu Hok].
  rewrite Hperm in Hok. apply Forall_inv in Hok as (Hux & _ & Hi).
  exists (S n), s', ((q_time x, q_fn x) :: trace). cbn [exec]. rewrite Hrun.
  destruct (exec run w' trace) as [w2 regs] eqn:Hex. cbn [fst snd] in *. rewrite Hu1 in *.
  set (new := map (registration (q_time x)) adds) in *.
  destruct (due_pop x (pq_elems q ++ new ++ regs) Hx ltac:(lia)) as [Hd Hl].
  assert (((if q_interval x =? 0 then [] else [next_run x]) ++ pq_elems q ++ new ++ regs) ≡ₚ
          pq_elems (mock_scheduler.tasks_ s1) ++ regs) as Hrest.
  { rewrite Hq1, <- !app_assoc. apply Permutation_app_head.
    rewrite (app_assoc (pq_elems q)), (app_assoc new). apply Permutation_app_tail, Permutation_app_comm. }
  split.
  { intros [|fuel] Hfuel; [lia|]. cbn [mock_scheduler.set_time_loop]. rewrite Hpop.
    replace (q_time x >? e) with false by (symmetry; rewrite Z.gtb_ltb; blia).
    rewrite Hfirst. apply Hloop. lia. }
  rewrite Hperm. cbn [app]. rewrite Hd, Hl, Hrest. split; [by rewrite <- Htr|].
  split; [constructor; [done|]; eapply Forall_impl; [|exact Hin]; intros y Hy; simpl in *; lia|].
  split; [constructor; [simpl; lia|]; eapply Forall_impl; [|exact Hin]; intros y Hy; simpl in *; lia|].
  split; [done|]. split; [done|]. split; [lia|done].
Qed.

(** The number of times that are left until [e], and of tasks at the first of them. *)
Lemma loop_ends (N : nat) : forall (m : nat) s w,
  sched_ok s -> inv w ->
  Forall (fun x => e < q_time x + Z.of_nat N) (pq_elems (mock_scheduler.tasks_ s)) ->
  length (filter (fun x => q_time x + Z.of_nat N = e + 1) (pq_elems (mock_scheduler.tasks_ s))) = m ->
  loop_done s w.
Proof.
  induction N as [|N IHN]; intros m.
  { intros s w Hok Hw Hall _. apply loop_done_stop; [done..|].
    eapply Forall_impl; [|exact Hall]. intros y Hy. simpl in *. lia. }
  induction m as [|m IHm]; intros s w Hok Hw Hall Hm.
  { eapply IHN; [done|done| |reflexivity]. apply nil_length_inv in Hm.
    rewrite list.Forall_forall in Hall. apply list.Forall_forall. intros x Hx. specialize (Hall x Hx). simpl in Hall.
    destruct (decide (q_time x + Z.of_nat (S N) = e + 1)) as [Heq|Hne]; [|lia].
    assert (x ∈ @nil (queue_element_t T)) as Hin%elem_of_nil by (rewrite <- Hm; by apply list_elem_of_filter).
    done. }
  destruct (pq_pop q_time (mock_scheduler.tasks_ s)) as [[x q]|] eqn:Hpop.
  2:{ apply pq_pop_None in Hpop. by rewrite Hpop in Hm. }
  destruct (pq_pop_Some _ _ _ _ _ Hpop) as [Hperm Hmin].
  assert (q_time x + Z.of_nat (S N) = e + 1) as Hx.
  { destruct (filter _ _) as [|y l] eqn:Hf in Hm; [done|].
    assert (y ∈ y :: l) as Hy by left. rewrite <- Hf in Hy. apply list_elem_of_filter in Hy as [Hy1 Hy2].
    rewrite list.Forall_forall in Hmin, Hall. specialize (Hmin y Hy2). simpl in Hmin.
    assert (x ∈ pq_elems (mock_scheduler.tasks_ s)) as Hxin by (rewrite Hperm; left).
    specialize (Hall x Hxin). simpl in Hall. lia. }
  destruct (run (q_fn x) (q_time x) w) as [w' adds] eqn:Hrun.
  destruct (run_first_spec s x q w w' adds Hok Hw Hpop ltac:(lia) Hrun) as (Hw1 & s1 & Hf & Hu1 & Hq1 & Hok1).
  eapply (loop_done_step s x q w w' adds s1); [done|done|done|lia|done|done|].
  pose proof (run_adds (q_fn x) (q_time x) w Hw) as [_ Hadds]. rewrite Hrun in Hadds. cbn [snd] in Hadds.
  rewrite Hperm in Hm, Hall. destruct Hok as [_ Hok]. rewrite Hperm in Hok. apply Forall_inv in Hok as (_ & _ & Hi).
  assert (Forall (fun y => e + 1 < q_time y + Z.of_nat (S N))
    ((if q_interval x =? 0 then [] else [next_run x]) ++ map (registration (q_time x)) adds)) as Hnew.
  { apply Forall_app. split.
    - destruct (q_interval x =? 0) eqn:Hz; bool_to_prop; repeat constructor. simpl. lia.
    - apply Forall_map. eapply Forall_impl; [|exact Hadds]. intros a Ha.
      cbv beta in Ha. unfold registration. cbn [q_time]. lia. }
  apply IHm; [done|done| |].
  - rewrite Hq1, app_assoc. apply Forall_app. split; [|by apply Forall_inv_tail in Hall].
    eapply Forall_impl; [|exact Hnew]. intros y Hy. simpl in *. lia.
  - rewrite Hq1, app_assoc, list.filter_app. rewrite filter_cons_True in Hm by done.
    injection Hm as Hm. rewrite length_app, Hm.
    match goal with |- (length ?l + _)%nat = _ => destruct l as [|y l'] eqn:Hfl end; [done|].
    exfalso. assert (y ∈ y :: l') as Hy by left. rewrite <- Hfl in Hy.
    apply list_elem_of_filter in Hy as [Hy1 Hy2]. rewrite list.Forall_forall in Hnew. specialize (Hnew y Hy2). simpl in Hnew. lia.
Qed.

(** A state with the clock before [e] or at it. *)
Lemma set_time_done s w :
  sched_ok s -> inv w -> loop_done s w.
Proof.
  intros Hok Hw. eapply (loop_ends (Z.to_nat (e + 1 - mock_scheduler.unix_time_ s))); [done|done| |reflexivity].
  destruct Hok as [_ Hok]. eapply Forall_impl; [|exact Hok]. intros x (Hx & _). lia.
Qed.

(** [set_time] to a time that is not in the past. *)
Lemma set_time_total s w :
  sched_ok s -> inv w -> in_i64 e -> mock_scheduler.unix_time_ s <= e ->
  exists n s' trace,
    (forall fuel, (n <= fuel)%nat -> mock_scheduler.set_time run fuel e s w = Some (s', (exec run w trace).1))
    /\ trace ≡ₚ (pq_elems (mock_scheduler.tasks_ s) ++ (exec run w trace).2) ≫= due e
    /\ StronglySorted (fun a b => a.1 <= b.1) trace
    /\ Forall (fun a => mock_scheduler.unix_time_ s <= a.1 <= e) trace
    /\ pq_elems (mock_scheduler.tasks_ s') ≡ₚ
       (pq_elems (mock_scheduler.tasks_ s) ++ (exec run w trace).2) ≫= left_over e
    /\ Forall (fun x => e < q_time x) (pq_elems (mock_scheduler.tasks_ s'))
    /\ mock_scheduler.unix_time_ s' = e /\ sched_ok s' /\ inv (exec run w trace).1.
Proof.
  intros Hok Hw Hr He.
  destruct (set_time_done s w Hok Hw) as (n & s' & trace & Hl & H1 & H2 & H3 & H4 & H5 & H6 & H7 & H8).
  exists n, (mock_scheduler.set_forward_time e s'), trace.
  assert (mock_scheduler.unix_time_ (mock_scheduler.set_forward_time e s') = e) as Hu.
  { cbn. rewrite Z.gtb_ltb. destruct (_ <? e) eqn:Hlt; blia. }
  split; [intros fuel Hf; unfold mock_scheduler.set_time; by rewrite Hl|].
  do 5 (split; [done|]). split; [done|]. split; [|done].
  unfold sched_ok. rewrite Hu. split; [done|]. destruct H7 as [_ H7]. cbn [mock_scheduler.tasks_ mock_scheduler.set_forward_time].
  rewrite list.Forall_forall in H5, H7. apply list.Forall_forall. intros x Hx.
  destruct (H7 x Hx) as (_ & ? & ?). specialize (H5 x Hx). simpl in H5. split; [lia|done].
Qed.

(** [mock_scheduler::set_time(t)] runs exactly the tasks that fall due up to [t], those included that
    tasks put into the queue meanwhile: a task queued for time s with interval p at s, s + p, s + 2p, ..., a
    single task once, all in the order of their times and each with the clock at its own time;
    afterwards the clock is at [t] (it never goes back) and the queue holds every
    periodic task at its next time after [t].  It ends, if tasks that are added are due a second later
    or more. *)
Theorem set_time_spec (s : mock_scheduler.t Q T) (w : W) :
  sched_ok s -> inv w ->
  exists n s' trace,
    (forall fuel, (n <= fuel)%nat -> mock_scheduler.set_time run fuel e s w = Some (s', (exec run w trace).1))
    /\ trace ≡ₚ (pq_elems (mock_scheduler.tasks_ s) ++ (exec run w trace).2) ≫= due e
    /\ StronglySorted (fun a b => a.1 <= b.1) trace
    /\ pq_elems (mock_scheduler.tasks_ s') ≡ₚ
       (pq_elems (mock_scheduler.tasks_ s) ++ (exec run w trace).2) ≫= left_over e
    /\ mock_scheduler.unix_time s' = Z.max e (mock_scheduler.unix_time s).
Proof.
  intros Hok Hw. destruct (set_time_done s w Hok Hw) as (n & s' & trace & Hl & H1 & H2 & _ & H3 & _ & H4 & _).
  exists n, (mock_scheduler.set_forward_time e s'), trace.
  split; [intros fuel Hf; unfold mock_scheduler.set_time; by rewrite Hl|]. repeat split; try done.
  unfold mock_scheduler.unix_time, mock_scheduler.set_forward_time. simpl.
  rewrite Z.gtb_ltb. destruct (_ <? e) eqn:Hlt; blia.
Qed.
End mock_correct.

(** A task that runs every two seconds, and one that adds another when it runs. *)
Lemma set_time_spec_witness :
  let run (f : string) (c : Z) (w : list (Z * string)) :=
    (w ++ [(c, f)], if String.eqb f "once" then [MkAdd true (f_of_Z 1) "again"] else []) in
  let s := mock_scheduler.add_periodic_task (Q := heap) "rate" (f_of_Z 2)
             (mock_scheduler.add_once_task "once" (f_of_Z 3) mock_scheduler.empty) in
  exists n s' trace,
    (forall fuel, (n <= fuel)%nat -> mock_scheduler.set_time run fuel 5 s [] = Some (s', (exec run [] trace).1))
    /\ StronglySorted (fun a b : Z * string => a.1 <= b.1) trace.
Proof.
  pose (run (f : string) (c : Z) (w : list (Z * string)) :=
    (w ++ [(c, f)], if String.eqb f "once" then [MkAdd true (f_of_Z 1) "again"] else [])).
  destruct (set_time_spec (Q := heap) run 5 100 (fun _ => True) ltac:(by_decide)
    ltac:(intros f c w _; split; [exact I|]; unfold run, adds_ok; cbn [snd]; destruct (String.eqb f "once"); by_decide)
    (mock_scheduler.add_periodic_task (Q := heap) "rate" (f_of_Z 2)
       (mock_scheduler.add_once_task "once" (f_of_Z 3) mock_scheduler.empty)) [])
    as (n & s' & trace & H1 & _ & H2 & _).
  - unfold sched_ok, elem_ok. by_decide.
  - exact I.
  - exists n, s', trace. split; [exact H1|exact H2].
Defined.
