(* ===== verification/ThreadPools.v ===== *)
(** * The thread pools

    [src/pool/async_thread_pool.cpp], threads that each run an event loop and are woken up
    by signals, with the part of [real_async_loop] ([src/async/real_async_loop.cpp]) that
    handles signals, and [src/pool/executor_thread_pool.cpp], threads that take tasks
    from queues.  An operation is what one thread does without waiting; a run is any
    sequence of them. *)

From S2P Require Import Prelude.

Local Open Scope Z_scope.

(** ** [async_thread_pool] *)

Module async_thread_pool.

(** A loop: [stop_], whether [async_.send()] has been called since the last callback, and
    whether it runs ([ev_run] has been entered and not left). *)
Record loop_t : Type := MkLoop { loop_stop : bool; pending : bool; looping : bool }.

Record t : Type := Mk {
  stop_ : bool;
  thread_num_ : nat;
  next_thread_ : nat;
  finished_threads_ : list bool;
  loops : list loop_t
}.

(** [LOG(FATAL)] ends the process. *)
Definition new (thread_num : nat) : result t :=
  if bool_decide (thread_num < 1)%nat then Throw (user_exception "FATAL")
  else Ok (Mk false thread_num 0 (replicate thread_num false)
             (replicate thread_num (MkLoop false false false))).

Definition set_loop (i : nat) (l : loop_t) (p : t) : t :=
  Mk (stop_ p) (thread_num_ p) (next_thread_ p) (finished_threads_ p) (<[i := l]> (loops p)).

(** [real_async_loop::signal] and [real_async_loop::stop]. *)
Definition signal (l : loop_t) : loop_t := MkLoop (loop_stop l) true (looping l).
Definition stop_loop (l : loop_t) : loop_t := MkLoop true true (looping l).

Definition signal_thread (i : nat) (p : t) : result t :=
  if bool_decide (thread_num_ p <= i)%nat then Throw (user_exception "FATAL")
  else match loops p !! i with
       | None => Throw undefined_behaviour
       | Some l => Ok (set_loop i (signal l) p)
       end.

Definition next_thread (p : t) : nat * t :=
  let next := ((next_thread_ p + 1) mod thread_num_ p)%nat in
  (next, Mk (stop_ p) (thread_num_ p) next (finished_threads_ p) (loops p)).

(** A thread of the pool enters its loop, once.  A signal sent before that is kept. *)
Definition run_thread (i : nat) (p : t) : t :=
  match loops p !! i, finished_threads_ p !! i with
  | Some l, Some false => set_loop i (MkLoop (loop_stop l) (pending l) true) p
  | _, _ => p
  end.

(** The callback for a signal, in the thread of loop [i]: the pool and whether the hook has run.
    A loop that is told to stop leaves [ev_run], and its thread ends. *)
Definition async_callback (i : nat) (p : t) : t * bool :=
  match loops p !! i with
  | Some l =>
      if negb (pending l && looping l) then (p, false)
      else if loop_stop l then
        (Mk (stop_ p) (thread_num_ p) (next_thread_ p) (<[i := true]> (finished_threads_ p))
           (<[i := MkLoop true false false]> (loops p)), false)
      else if stop_ p then (set_loop i (stop_loop (MkLoop (loop_stop l) false true)) p, false)
      else (set_loop i (MkLoop (loop_stop l) false true) p, true)
  | None => (p, false)
  end.

(** [stop_threads] up to the point where it waits for the threads. *)
Definition stop_threads (p : t) : t :=
  if stop_ p then p
  else Mk true (thread_num_ p) (next_thread_ p) (finished_threads_ p) (stop_loop <$> loops p).

(** It can join them all. *)
Definition joinable (p : t) : bool := forallb id (finished_threads_ p).

Inductive pool_op : Type :=
| RunThread (i : nat)
| SignalThread (i : nat)
| AsyncCallback (i : nat)
| NextThread
| StopThreads.

(** The pool, and the loops whose hook has run. *)
Definition step (o : pool_op) (p : t) : result (t * list nat) :=
  match o with
  | RunThread i => Ok (run_thread i p, [])
  | SignalThread i => res_map (fun p => (p, [])) (signal_thread i p)
  | AsyncCallback i => let '(p, ran) := async_callback i p in Ok (p, if ran then [i] else [])
  | NextThread => Ok ((next_thread p).2, [])
  | StopThreads => Ok (stop_threads p, [])
  end.
Fixpoint run (ops : list pool_op) (p : t) : result (t * list nat) :=
  match ops with
  | [] => Ok (p, [])
  | o :: ops' =>
      match step o p with
      | Throw x => Throw x
      | Ok (p, out) => res_map (fun '(p, out') => (p, out ++ out')) (run ops' p)
      end
  end.
End async_thread_pool.

(** *** Stopping *)

Section stopping.
Import async_thread_pool.

(** A loop, whether its thread has finished, and whether the pool has been stopped. *)
Definition loop_ok (stop f : bool) (l : loop_t) : Prop :=
  (f = true -> looping l = false) /\ (loop_stop l = true -> stop = true)
  /\ (stop = true -> loop_stop l = true /\ (f = true \/ pending l = true)).

Definition pool_ok (p : async_thread_pool.t) : Prop :=
  length (loops p) = thread_num_ p /\ length (finished_threads_ p) = thread_num_ p
  /\ forall i l f, loops p !! i = Some l -> finished_threads_ p !! i = Some f -> loop_ok (stop_ p) f l.

Definition finished (i : nat) (p : async_thread_pool.t) : Prop := finished_threads_ p !! i = Some true.
Definition started (i : nat) (p : async_thread_pool.t) : Prop :=
  finished i p \/ exists l, loops p !! i = Some l /\ looping l = true.

Lemma new_ok n p : async_thread_pool.new n = Ok p -> pool_ok p.
Proof.
  unfold async_thread_pool.new. case_bool_decide; [done|]. intros [= <-]. unfold pool_ok; simpl.
  rewrite !length_replicate. repeat (split; [done|]). intros i l f Hl Hf.
  apply lookup_replicate in Hl as [-> _]. by apply lookup_replicate in Hf as [-> _].
Qed.

Lemma set_loop_ok i l l' p :
  pool_ok p -> loops p !! i = Some l ->
  (forall f, finished_threads_ p !! i = Some f -> loop_ok (stop_ p) f l -> loop_ok (stop_ p) f l') ->
  pool_ok (set_loop i l' p).
Proof.
  intros (Hl & Hf & Hp) Hi Hl'. unfold pool_ok; simpl. rewrite length_insert.
  repeat (split; [done|]). intros j lj f Hj Hfj. destruct (decide (j = i)) as [->|Hne].
  - rewrite list_lookup_insert_eq in Hj by (by eapply lookup_lt_Some). injection Hj as <-.
    by eapply Hl', Hp.
  - rewrite list_lookup_insert_ne in Hj by done. by eapply Hp.
Qed.

Lemma set_loop_started i l l' j p :
  loops p !! i = Some l -> (looping l = true -> looping l' = true) ->
  started j p -> started j (set_loop i l' p).
Proof.
  intros Hi Hl [Hf|(lj & Hj & Hlj)]; [by left|right]. cbn [set_loop loops].
  destruct (decide (j = i)) as [->|Hne].
  - exists l'. rewrite list_lookup_insert_eq by (by eapply lookup_lt_Some). split; [done|].
    apply Hl. congruence.
  - exists lj. by rewrite list_lookup_insert_ne by done.
Qed.

Lemma async_callback_ok i p p' ran :
  pool_ok p -> async_callback i p = (p', ran) ->
  pool_ok p' /\ stop_ p' = stop_ p /\ (stop_ p = true -> ran = false)
  /\ (forall j, finished j p -> finished j p') /\ (forall j, started j p -> started j p')
  /\ (stop_ p = true -> started i p -> finished i p').
Proof.
  intros Hp. pose proof Hp as (Hl & Hf & Hok). unfold async_callback.
  destruct (loops p !! i) as [l|] eqn:Hi; cycle 1.
  { intros [= <- <-]. split; [done|]. repeat (split; [done|]).
    intros _ [Hfi|(l & ? & _)]; [done|congruence]. }
  destruct (lookup_lt_is_Some_2 (finished_threads_ p) i) as [f Hfi].
  { rewrite Hf, <- Hl. by eapply lookup_lt_Some. }
  pose proof (Hok _ _ _ Hi Hfi) as (H1 & H2 & H3).
  destruct (pending l) eqn:Hpend, (looping l) eqn:Hloop; cbn [andb negb].
  2-4: intros [= <- <-]; split; [done|]; repeat (split; [done|]);
    intros Hs [?|(l' & Hl' & ?)]; [done|]; destruct (H3 Hs) as [_ [->|?]]; [done|congruence].
  destruct (loop_stop l) eqn:Hstop; [|destruct (stop_ p) eqn:Hsp; [by destruct (H3 eq_refl)|]].
  - intros [= <- <-]. split.
    { unfold pool_ok; simpl. rewrite !length_insert. repeat (split; [done|]). intros j lj fj.
      destruct (decide (j = i)) as [->|Hne].
      - rewrite !list_lookup_insert_eq by (by eapply lookup_lt_Some). intros [= <-] [= <-].
        rewrite (H2 eq_refl). unfold loop_ok; simpl. auto.
      - rewrite !list_lookup_insert_ne by done. apply Hok. }
    assert (forall j, j = i -> finished_threads_ p !! j = Some f) as Hlt by (by intros j ->).
    unfold finished, started, finished. cbn [finished_threads_ loops stop_].
    split; [done|]. split; [done|]. repeat split.
    + intros j Hj. destruct (decide (j = i)) as [->|Hne];
        [by rewrite list_lookup_insert_eq by (by eapply lookup_lt_Some)|by rewrite list_lookup_insert_ne].
    + intros j Hj. destruct (decide (j = i)) as [->|Hne];
        [left; by rewrite list_lookup_insert_eq by (by eapply lookup_lt_Some)|].
      by rewrite !list_lookup_insert_ne.
    + intros _ _. by rewrite list_lookup_insert_eq by (by eapply lookup_lt_Some).
  - intros [= <- <-]. split.
    { apply (set_loop_ok i l); [done|done|]. intros f' Hf' (? & ? & ?). unfold loop_ok; simpl.
      rewrite Hsp, Hloop in *. auto. }
    split; [done|]. split; [done|]. split; [done|]. split; [|done].
    intros j. by apply (set_loop_started i l).
Qed.

Lemma stop_threads_ok p : pool_ok p -> pool_ok (stop_threads p).
Proof.
  intros Hp. pose proof Hp as (Hl & Hf & Hok). unfold stop_threads. destruct (stop_ p) eqn:Hs; [done|].
  unfold pool_ok; simpl. rewrite length_fmap. repeat (split; [done|]). intros i l f.
  rewrite list_lookup_fmap. destruct (loops p !! i) as [l0|] eqn:Hi; [|done]. intros [= <-] Hfi.
  destruct (Hok _ _ _ Hi Hfi) as (H1 & _ & _). unfold loop_ok; simpl. auto.
Qed.

Lemma stop_threads_started j p : started j p -> started j (stop_threads p).
Proof.
  intros Hj. unfold stop_threads. destruct (stop_ p); [done|].
  destruct Hj as [Hj|(l & Hl & Hlp)]; [by left|right]. exists (stop_loop l). cbn [loops].
  by rewrite list_lookup_fmap, Hl.
Qed.

Lemma step_ok o p p' out :
  pool_ok p -> step o p = Ok (p', out) ->
  pool_ok p' /\ (stop_ p = true -> stop_ p' = true /\ out = [])
  /\ (forall j, finished j p -> finished j p') /\ (forall j, started j p -> started j p').
Proof.
  intros Hp. destruct o as [i|i|i| |]; cbn [step].
  - intros [= <- <-]. unfold run_thread. destruct (loops p !! i) as [l|] eqn:Hi; [|done].
    destruct (finished_threads_ p !! i) as [[]|] eqn:Hf; [done| |done].
    split; [|split; [done|]; split; [done|]; intros j; by apply (set_loop_started i l)].
    apply (set_loop_ok i l); [done|done|]. intros f Hf' (? & ? & ?). unfold loop_ok; simpl.
    split; [congruence|auto].
  - unfold signal_thread. case_bool_decide; [done|].
    destruct (loops p !! i) as [l|] eqn:Hi; [|done]. intros [= <- <-].
    split; [|split; [done|]; split; [done|]; intros j; by apply (set_loop_started i l)].
    apply (set_loop_ok i l); [done|done|]. intros f Hf' (? & ? & H3). unfold loop_ok; simpl.
    split; [done|]. split; [done|]. intros Hs. destruct (H3 Hs). auto.
  - destruct (async_callback i p) as [p1 ran] eqn:Hc. intros [= <- <-].
    apply async_callback_ok in Hc as (? & Hs & Hran & ? & ? & _); [|done].
    split; [done|]. split; [|done]. intros Hst. rewrite (Hran Hst). by rewrite Hs.
  - unfold next_thread. cbn [snd]. by intros [= <- <-].
  - intros [= <- <-]. split; [by apply stop_threads_ok|]. split.
    { intros Hs. unfold stop_threads. by rewrite Hs. }
    split; [|intros j; apply stop_threads_started]. intros j. unfold stop_threads. by destruct (stop_ p).
Qed.

Lemma step_thread_num o p p' out : step o p = Ok (p', out) -> thread_num_ p' = thread_num_ p.
Proof.
  destruct o as [i|i|i| |]; cbn [step].
  - intros [= <- <-]. unfold run_thread. by repeat case_match.
  - unfold signal_thread. repeat case_match; by intros [= <- <-].
  - unfold async_callback. repeat case_match; intros [= <- <-]; by simplify_eq.
  - unfold next_thread. cbn [snd]. by intros [= <- <-].
  - intros [= <- <-]. unfold stop_threads. by case_match.
Qed.

Lemma run_thread_num ops p p' out :
  async_thread_pool.run ops p = Ok (p', out) -> thread_num_ p' = thread_num_ p.
Proof.
  revert p out. induction ops as [|o ops IH]; intros p out; cbn [async_thread_pool.run].
  { by intros [= <- <-]. }
  destruct (step o p) as [[p1 out1]|] eqn:Hs; [|done].
  destruct (async_thread_pool.run ops p1) as [[p2 out2]|] eqn:Hr; [|done]. intros [= <- <-].
  rewrite (IH _ _ Hr). by eapply step_thread_num.
Qed.

Lemma stop_thread_num p : thread_num_ (stop_threads p) = thread_num_ p.
Proof. unfold stop_threads. by destruct (stop_ p). Qed.

Lemma run_ok ops p p' out :
  pool_ok p -> async_thread_pool.run ops p = Ok (p', out) ->
  pool_ok p' /\ (stop_ p = true -> stop_ p' = true /\ out = [])
  /\ (forall j, finished j p -> finished j p') /\ (forall j, started j p -> started j p').
Proof.
  revert p out. induction ops as [|o ops IH]; intros p out Hp; cbn [async_thread_pool.run].
  { by intros [= <- <-]. }
  destruct (step o p) as [[p1 out1]|] eqn:Hs; [|done].
  destruct (async_thread_pool.run ops p1) as [[p2 out2]|] eqn:Hr; [|done]. intros [= <- <-].
  apply step_ok in Hs as (Hp1 & Hst1 & Hf1 & Hs1); [|done].
  apply IH in Hr as (Hp2 & Hst2 & Hf2 & Hs2); [|done].
  split; [done|]. split; [|auto]. intros Hst. destruct (Hst1 Hst) as [Hst' ->].
  destruct (Hst2 Hst') as [? ->]. done.
Qed.

(** A loop whose thread has entered it. *)
Lemma run_thread_started ops p p' out i :
  pool_ok p -> async_thread_pool.run ops p = Ok (p', out) -> (i < thread_num_ p)%nat ->
  RunThread i ∈ ops -> started i p'.
Proof.
  intros Hp Hr Hi (l1 & l2 & ->)%list_elem_of_split. revert p out Hp Hr Hi.
  induction l1 as [|o l1 IH]; intros p out Hp; cbn [app async_thread_pool.run].
  - cbn [step]. intros Hr Hi. destruct (async_thread_pool.run l2 _) as [[p2 out2]|] eqn:Hr2; [|done].
    injection Hr as -> _. assert (step (RunThread i) p = Ok (run_thread i p, [])) as Hs by done.
    apply step_ok in Hs as (Hp1 & _); [|done]. apply run_ok in Hr2 as (_ & _ & _ & Hst); [|done].
    apply Hst. clear Hst Hp1. destruct Hp as (Hl & Hf & _). unfold run_thread, started, finished.
    destruct (lookup_lt_is_Some_2 (loops p) i) as [l Hli]; [lia|].
    destruct (lookup_lt_is_Some_2 (finished_threads_ p) i) as [f Hfi]; [lia|].
    rewrite Hli, Hfi. destruct f; [by left|right]. eexists. cbn [set_loop loops].
    by rewrite list_lookup_insert_eq by lia.
  - destruct (step o p) as [[p1 out1]|] eqn:Hs; [|done].
    destruct (async_thread_pool.run (l1 ++ _) p1) as [[p2 out2]|] eqn:Hr; [|done].
    intros [= -> _] Hi. pose proof Hs as Hs'. apply step_ok in Hs' as (Hp1 & _); [|done].
    eapply IH; [done..|]. by rewrite (step_thread_num _ _ _ _ Hs).
Qed.

Lemma callback_finishes ops p p' out i :
  pool_ok p -> stop_ p = true -> started i p ->
  async_thread_pool.run ops p = Ok (p', out) -> AsyncCallback i ∈ ops -> finished i p'.
Proof.
  intros Hp Hst Hi Hr (l1 & l2 & ->)%list_elem_of_split. revert p out Hp Hst Hi Hr.
  induction l1 as [|o l1 IH]; intros p out Hp Hst Hi; cbn [app async_thread_pool.run].
  - cbn [step]. destruct (async_callback i p) as [p1 ran] eqn:Hc.
    apply async_callback_ok in Hc as (Hp1 & _ & _ & _ & _ & Hfin); [|done].
    destruct (async_thread_pool.run l2 p1) as [[p2 out2]|] eqn:Hr2; [|done]. intros [= -> _].
    apply run_ok in Hr2 as (_ & _ & Hf & _); [|done]. by apply Hf, Hfin.
  - destruct (step o p) as [[p1 out1]|] eqn:Hs; [|done].
    destruct (async_thread_pool.run (l1 ++ _) p1) as [[p2 out2]|] eqn:Hr; [|done].
    intros [= -> _]. apply step_ok in Hs as (Hp1 & Hst1 & _ & Hs1); [|done].
    eapply IH; [done| |by apply Hs1|done]. by apply Hst1.
Qed.

(** C27. Stopping a pool whose threads have all been started: from [stop_threads] on, whatever
    was signalled before, no hook runs any more; and once each loop has
    handled the signal it was sent, in any order and between any other operations,
    every thread has ended, so that joining them returns. *)
Theorem stop_threads_joins (n : nat) (ops1 ops2 : list pool_op) (p0 p1 p2 : async_thread_pool.t)
    (hooks1 hooks2 : list nat) :
  async_thread_pool.new n = Ok p0 ->
  async_thread_pool.run ops1 p0 = Ok (p1, hooks1) ->
  (forall i, (i < n)%nat -> RunThread i ∈ ops1) ->
  async_thread_pool.run ops2 (stop_threads p1) = Ok (p2, hooks2) ->
  hooks2 = [] /\ ((forall i, (i < n)%nat -> AsyncCallback i ∈ ops2) -> joinable p2 = true).
Proof.
  intros Hnew Hr1 Hrun Hr2. pose proof (new_ok n p0 Hnew) as Hp0.
  assert (thread_num_ p0 = n) as Hn.
  { revert Hnew. unfold async_thread_pool.new. case_bool_decide; [done|]. by intros [= <-]. }
  pose proof (run_ok _ _ _ _ Hp0 Hr1) as (Hp1 & _). apply stop_threads_ok in Hp1.
  assert (stop_ (stop_threads p1) = true) as Hst.
  { unfold stop_threads. by destruct (stop_ p1) eqn:?. }
  pose proof (run_ok _ _ _ _ Hp1 Hr2) as (Hp2 & Hst2 & _). split; [by apply Hst2|].
  intros Hcb. unfold joinable. apply forallb_forall. intros f Hf.
  apply list_elem_of_In, list_elem_of_lookup in Hf as [i Hi].
  assert (i < n)%nat as Hlt.
  { rewrite <- Hn, <- (run_thread_num _ _ _ _ Hr1), <- (stop_thread_num p1),
      <- (run_thread_num _ _ _ _ Hr2). destruct Hp2 as (_ & <- & _). by eapply lookup_lt_Some. }
  assert (finished i p2) as Hfin.
  { eapply callback_finishes; [exact Hp1|done| |exact Hr2|by apply Hcb].
    apply stop_threads_started. eapply run_thread_started; [exact Hp0|exact Hr1| |by apply Hrun].
    by rewrite Hn. }
  unfold finished in Hfin. rewrite Hi in Hfin. by injection Hfin as ->.
Qed.
End stopping.

Lemma stop_threads_joins_witness :
  let ops1 := [async_thread_pool.RunThread 1; async_thread_pool.RunThread 0;
               async_thread_pool.SignalThread 1; async_thread_pool.AsyncCallback 1;
               async_thread_pool.SignalThread 0] in
  let ops2 := [async_thread_pool.AsyncCallback 1; async_thread_pool.AsyncCallback 0] in
  match async_thread_pool.new 2 with
  | Throw _ => False
  | Ok p0 =>
      match async_thread_pool.run ops1 p0 with
      | Throw _ => False
      | Ok (p1, hooks) =>
          hooks = [1%nat]
          /\ match async_thread_pool.run ops2 (async_thread_pool.stop_threads p1) with
             | Throw _ => False
             | Ok (p2, hooks2) => hooks2 = [] /\ async_thread_pool.joinable p2 = true
             end
      end
  end.
Proof.
  intros ops1 ops2. destruct (async_thread_pool.new 2) as [p0|] eqn:Hn; [|discriminate Hn].
  destruct (async_thread_pool.run ops1 p0) as [[p1 h1]|] eqn:H1.
  2:{ injection Hn as <-. discriminate H1. }
  split; [injection Hn as <-; by injection H1 as _ <-|].
  destruct (async_thread_pool.run ops2 (async_thread_pool.stop_threads p1)) as [[p2 h2]|] eqn:H2.
  2:{ injection Hn as <-. injection H1 as <- _. discriminate H2. }
  destruct (stop_threads_joins 2 ops1 ops2 p0 p1 p2 h1 h2 Hn H1) as [Hh Hj].
  - intros i Hi. assert (i = 0%nat \/ i = 1%nat) as [->| ->] by lia; [right; left|left].
  - exact H2.
  - split; [exact Hh|]. apply Hj. intros i Hi.
    assert (i = 0%nat \/ i = 1%nat) as [->| ->] by lia; [right; left|left].
Defined.

(** ** [executor_thread_pool] *)

Module executor_thread_pool.
Section executor.
Context {T : Type}.

Definition k_max_queue_size : Z := 10000000.

(** In the queues [None] tells the thread to end.  [running]: the task a thread has
    taken; [executed]: the tasks it has run. *)
Record t : Type := Mk {
  task_guague_ : Z;
  finished_threads_ : list bool;
  next_thread_ : nat;
  tasks_ : list (list (option T));
  running : list (option T);
  executed : list (list T)
}.

Definition new (executor_pool_size : nat) : t :=
  Mk 0 (replicate executor_pool_size false) 0 (replicate executor_pool_size [])
    (replicate executor_pool_size None) (replicate executor_pool_size []).

(** The operations are [None] where the thread that calls them waits. *)
Definition add_task (f : T) (p : t) : option t :=
  q ← tasks_ p !! next_thread_ p;
  if k_max_queue_size <=? Z.of_nat (length q) then None
  else Some (Mk (wrap32 (task_guague_ p + 1)) (finished_threads_ p)
               ((next_thread_ p + 1) mod length (tasks_ p))
               (<[next_thread_ p := q ++ [Some f]]> (tasks_ p)) (running p) (executed p)).

(** [stop] up to the point where it waits for the threads. *)
Definition stop (p : t) : t :=
  Mk (task_guague_ p) (finished_threads_ p) (next_thread_ p)
    ((fun _ => [None]) <$> tasks_ p) (running p) (executed p).

(** [run_tasks]: the thread takes a task, and ends if it is the last one. *)
Definition take_task (i : nat) (p : t) : option t :=
  match finished_threads_ p !! i, running p !! i, tasks_ p !! i with
  | Some false, Some None, Some (Some f :: q) =>
      Some (Mk (task_guague_ p) (finished_threads_ p) (next_thread_ p) (<[i := q]> (tasks_ p))
              (<[i := Some f]> (running p)) (executed p))
  | Some false, Some None, Some (None :: q) =>
      Some (Mk (task_guague_ p) (<[i := true]> (finished_threads_ p)) (next_thread_ p)
              (<[i := q]> (tasks_ p)) (running p) (executed p))
  | _, _, _ => None
  end.
(** The task has been executed. *)
Definition end_task (i : nat) (p : t) : option t :=
  match running p !! i, executed p !! i with
  | Some (Some f), Some l =>
      Some (Mk (wrap32 (task_guague_ p - 1)) (finished_threads_ p) (next_thread_ p) (tasks_ p)
              (<[i := None]> (running p)) (<[i := l ++ [f]]> (executed p)))
  | _, _ => None
  end.

Inductive executor_op : Type :=
| AddTask (f : T)
| TakeTask (i : nat)
| EndTask (i : nat).

Definition step (o : executor_op) (p : t) : option t :=
  match o with
  | AddTask f => add_task f p
  | TakeTask i => take_task i p
  | EndTask i => end_task i p
  end.
Fixpoint run (ops : list executor_op) (p : t) : option t :=
  match ops with
  | [] => Some p
  | o :: ops' => p ← step o p; run ops' p
  end.

(** The tasks that are added, and how many have been executed. *)
Definition added (ops : list executor_op) : list T :=
  omap (fun o => match o with AddTask f => Some f | _ => None end) ops.
Definition ended (ops : list executor_op) : nat :=
  length (omap (fun o => match o with EndTask i => Some i | _ => None end) ops).
End executor.
Arguments t : clear implicits.
Arguments executor_op : clear implicits.
End executor_thread_pool.

(** *** Round robin *)

Section round_robin.
Import executor_thread_pool.
Context {T : Type}.

(** The tasks of thread [i] of [n]: those in the places [i], [i + n], [i + 2 n], ... *)
Definition dealt (n i : nat) (l : list T) : list T :=
  snd <$> filter (fun x => x.1 mod n = i)%nat (imap pair l).

Lemma dealt_snoc n i l f :
  dealt n i (l ++ [f]) = dealt n i l ++ (if decide (length l mod n = i)%nat then [f] else []).
Proof.
  unfold dealt. rewrite imap_app, list.filter_app, fmap_app. f_equal. cbn [imap].
  rewrite filter_cons, filter_nil. cbn [fst]. rewrite Nat.add_0_r. by case_decide.
Qed.

(** What thread [i] has executed, is executing, and has in its queue. *)
Definition thread_tasks (p : executor_thread_pool.t T) (i : nat) : list (option T) :=
  (Some <$> default [] (executed p !! i)) ++ option_list (Some <$> default None (running p !! i))
  ++ default [] (tasks_ p !! i).

Record executor_ok (n : nat) (l : list T) (done : nat) (p : executor_thread_pool.t T) : Prop := {
  eo_size : length (tasks_ p) = n;
  eo_running : length (running p) = n;
  eo_executed : length (executed p) = n;
  eo_finished : finished_threads_ p = replicate n false;
  eo_next : next_thread_ p = (length l mod n)%nat;
  eo_gauge : task_guague_ p = wrap32 (Z.of_nat (length l) - Z.of_nat done);
  eo_tasks : forall i, (i < n)%nat -> thread_tasks p i = Some <$> dealt n i l
}.

Lemma executor_new_ok n : executor_ok n [] 0 (executor_thread_pool.new n).
Proof.
  constructor; simpl; rewrite ?length_replicate; try done.
  - by destruct n; rewrite ?Nat.Div0.mod_0_l.
  - intros i Hi. unfold thread_tasks; simpl. by rewrite !lookup_replicate_2.
Qed.

Lemma add_task_ok n l done p f p' :
  executor_ok n l done p -> add_task f p = Some p' -> executor_ok n (l ++ [f]) done p'.
Proof.
  intros [H1 H2 H3 H4 H5 H6 H7]. unfold add_task.
  destruct (tasks_ p !! next_thread_ p) as [q|] eqn:Hq; [|done]. cbn [mbind option_bind].
  destruct (k_max_queue_size <=? _); [done|]. intros [= <-].
  constructor; simpl; rewrite ?length_insert, ?length_app; try done.
  - rewrite H1, H5, Nat.Div0.add_mod_idemp_l. done.
  - rewrite H6, wrap32_add. f_equal. simpl. lia.
  - intros i Hi. rewrite dealt_snoc, fmap_app, <- H7 by done. unfold thread_tasks; simpl.
    rewrite <- H5. case_decide as Hn.
    + subst i. rewrite list_lookup_insert_eq by lia. rewrite Hq. by rewrite <- !app_assoc.
    + rewrite list_lookup_insert_ne by done. by rewrite app_nil_r.
Qed.

Lemma take_task_ok n l done p i p' :
  executor_ok n l done p -> take_task i p = Some p' -> executor_ok n l done p'.
Proof.
  intros [H1 H2 H3 H4 H5 H6 H7]. unfold take_task.
  destruct (finished_threads_ p !! i) as [[]|] eqn:Hf; [done| |done].
  destruct (running p !! i) as [[|]|] eqn:Hr; [done| |done].
  assert (i < n)%nat as Hi by (rewrite <- H2; by eapply lookup_lt_Some).
  destruct (tasks_ p !! i) as [[|[f|] q]|] eqn:Hq; [done| | |done]; intros [= <-].
  - constructor; simpl; rewrite ?length_insert; try done.
    intros j Hj. rewrite <- H7 by done. unfold thread_tasks; simpl.
    destruct (decide (j = i)) as [->|Hne]; [|by rewrite !list_lookup_insert_ne].
    rewrite !list_lookup_insert_eq by lia. by rewrite Hr, Hq.
  - exfalso. specialize (H7 i Hi). unfold thread_tasks in H7. rewrite Hr, Hq in H7. simpl in H7.
    assert (None ∈ Some <$> dealt n i l) as (x & ? & _)%list_elem_of_fmap; [|done].
    rewrite <- H7. apply elem_of_app. right. left.
Qed.

Lemma end_task_ok n l done p i p' :
  executor_ok n l done p -> end_task i p = Some p' -> executor_ok n l (S done) p'.
Proof.
  intros [H1 H2 H3 H4 H5 H6 H7]. unfold end_task.
  destruct (running p !! i) as [[f|]|] eqn:Hr; [|done..].
  destruct (executed p !! i) as [ex|] eqn:He; [|done]. intros [= <-].
  assert (i < n)%nat as Hi by (rewrite <- H2; by eapply lookup_lt_Some).
  constructor; simpl; rewrite ?length_insert; try done.
  - rewrite H6. unfold wrap32. rewrite Zminus_mod_idemp_l. f_equal. lia.
  - intros j Hj. rewrite <- H7 by done. unfold thread_tasks; simpl.
    destruct (decide (j = i)) as [->|Hne]; [|by rewrite !list_lookup_insert_ne].
    rewrite !list_lookup_insert_eq by lia. rewrite Hr, He. simpl.
    by rewrite fmap_app, <- app_assoc.
Qed.

Lemma executor_run_ok ops n l done p p' :
  executor_ok n l done p -> executor_thread_pool.run ops p = Some p' ->
  executor_ok n (l ++ added ops) (done + ended ops) p'.
Proof.
  revert l done p. induction ops as [|o ops IH]; intros l done p Hp; cbn [executor_thread_pool.run].
  { intros [= <-]. unfold added, ended; simpl. by rewrite app_nil_r, Nat.add_0_r. }
  destruct (step o p) as [p1|] eqn:Hs; [|done]. cbn [mbind option_bind]. intros Hr.
  destruct o as [f|i|i]; cbn [step] in Hs.
  - apply (add_task_ok n l done) in Hs; [|done]. apply (IH _ _ _ Hs) in Hr.
    rewrite <- app_assoc in Hr. exact Hr.
  - apply (take_task_ok n l done) in Hs; [|done]. exact (IH _ _ _ Hs Hr).
  - apply (end_task_ok n l done) in Hs; [|done]. apply (IH _ _ _ Hs) in Hr.
    unfold ended in *. cbn. by rewrite <- Nat.add_succ_comm.
Qed.

(** The executor before it is stopped, for every interleaving of its threads with those that
    add tasks: the tasks are dealt to the threads in turn, each thread executes its own
    in the order they were added, none is lost or executed twice (what a thread
    has executed, the task at hand and its queue are together its share), and the gauge
    is the number of tasks not executed yet. *)
Theorem executor_round_robin (n : nat) (ops : list (executor_op T)) (p : executor_thread_pool.t T) :
  executor_thread_pool.run ops (executor_thread_pool.new n) = Some p ->
  (forall i, (i < n)%nat ->
     (Some <$> default [] (executed p !! i)) ++ option_list (Some <$> default None (running p !! i))
     ++ default [] (tasks_ p !! i) = Some <$> dealt n i (added ops))
  /\ task_guague_ p = wrap32 (Z.of_nat (length (added ops)) - Z.of_nat (ended ops)).
Proof.
  intros Hr. eapply executor_run_ok in Hr; [|apply executor_new_ok]. destruct Hr. by split.
Qed.

(** *** Stopping *)

(** The tasks a thread has begun to execute. *)
Definition begun (p : executor_thread_pool.t T) (i : nat) : list T :=
  default [] (executed p !! i) ++ option_list (default None (running p !! i)).

Record executor_stopped (p : executor_thread_pool.t T) : Prop := {
  es_finished : length (finished_threads_ p) = length (tasks_ p);
  es_executed : length (executed p) = length (running p);
  es_queue : forall i q, tasks_ p !! i = Some q ->
    finished_threads_ p !! i = Some true \/ exists q', q = None :: q'
}.

Lemma stop_step o p p' :
  executor_stopped p -> step o p = Some p' ->
  executor_stopped p' /\ (forall i, begun p' i = begun p i)
  /\ (forall i, finished_threads_ p !! i = Some true -> finished_threads_ p' !! i = Some true)
  /\ (forall i, o = TakeTask i -> finished_threads_ p' !! i = Some true).
Proof.
  intros [H1 H2 H3]. destruct o as [f|i|i]; cbn [step].
  - unfold add_task. destruct (tasks_ p !! next_thread_ p) as [q|] eqn:Hq; [|done].
    cbn [mbind option_bind]. destruct (k_max_queue_size <=? _); [done|]. intros [= <-].
    split; [|done]. constructor; simpl; rewrite ?length_insert; [done..|]. intros i q0.
    destruct (decide (i = next_thread_ p)) as [->|Hne]; [|by rewrite list_lookup_insert_ne; [apply H3|]].
    rewrite list_lookup_insert_eq by (by eapply lookup_lt_Some). intros [= <-].
    destruct (H3 _ _ Hq) as [?|(q' & ->)]; [by left|right]. by eexists.
  - unfold take_task. destruct (finished_threads_ p !! i) as [[]|] eqn:Hf; [done| |done].
    destruct (running p !! i) as [[|]|]; [done| |done].
    destruct (tasks_ p !! i) as [[|[f|] q]|] eqn:Hq; [done| | |done].
    { destruct (H3 _ _ Hq) as [?|(q' & ?)]; congruence. }
    intros [= <-]. pose proof (lookup_lt_Some _ _ _ Hf) as Hlt.
    assert (forall j, <[i := true]> (finished_threads_ p) !! j
      = if decide (j = i) then Some true else finished_threads_ p !! j) as Hfin.
    { intros j. case_decide as Hj; [subst j; by rewrite list_lookup_insert_eq|].
      by rewrite list_lookup_insert_ne. }
    split; [|split; [done|]; split; cbn [finished_threads_]; intros j].
    + constructor; simpl; rewrite ?length_insert; [done..|]. intros j q0.
      rewrite Hfin. case_decide as Hj; [by left|]. rewrite list_lookup_insert_ne by done. apply H3.
    + rewrite Hfin. by case_decide.
    + intros [= ->]. by rewrite Hfin, decide_True.
  - unfold end_task. destruct (running p !! i) as [[f|]|] eqn:Hr; [|done..].
    destruct (executed p !! i) as [ex|] eqn:He; [|done]. intros [= <-].
    split; [constructor; simpl; rewrite ?length_insert; done|]. split; [|done].
    intros j. unfold begun; simpl. destruct (decide (j = i)) as [->|Hne]; [|by rewrite !list_lookup_insert_ne].
    rewrite !list_lookup_insert_eq by (by eapply lookup_lt_Some). rewrite Hr, He. simpl.
    by rewrite app_nil_r.
Qed.

Lemma stop_run ops p p' :
  executor_stopped p -> executor_thread_pool.run ops p = Some p' ->
  (forall i, begun p' i = begun p i)
  /\ (forall i, finished_threads_ p !! i = Some true \/ TakeTask i ∈ ops ->
     finished_threads_ p' !! i = Some true).
Proof.
  revert p. induction ops as [|o ops IH]; intros p Hp; cbn [executor_thread_pool.run].
  { intros [= <-]. split; [done|]. intros i [?|?%elem_of_nil]; done. }
  destruct (step o p) as [p1|] eqn:Hs; [|done]. cbn [mbind option_bind]. intros Hr.
  apply stop_step in Hs as (Hp1 & Hb & Hf & Ht); [|done].
  destruct (IH p1 Hp1 Hr) as [Hb1 Hf1]. split; [intros i; by rewrite Hb1|].
  intros i [Hi|[<-|Hi]%elem_of_cons]; apply Hf1; auto.
Qed.

(** Stopping the executor: from [stop] on, with whatever is added after it and in every
    interleaving, no thread begins a task, one that is executing a task ends it at most, and a
    thread that comes back to its queue ends. *)
Theorem executor_stop (n : nat) (ops1 ops2 : list (executor_op T)) (p p' : executor_thread_pool.t T) :
  executor_thread_pool.run ops1 (executor_thread_pool.new n) = Some p ->
  executor_thread_pool.run ops2 (executor_thread_pool.stop p) = Some p' ->
  (forall i, begun p' i = begun p i)
  /\ (forall i, TakeTask i ∈ ops2 -> finished_threads_ p' !! i = Some true).
Proof.
  intros H1 H2. eapply executor_run_ok in H1; [|apply executor_new_ok].
  assert (executor_stopped (executor_thread_pool.stop p)) as Hs.
  { destruct H1 as [Hs Hr He Hf _ _ _]. constructor; simpl.
    - by rewrite Hf, length_replicate, length_fmap.
    - by rewrite He.
    - intros i q. rewrite list_lookup_fmap. destruct (tasks_ p !! i); [|done]. intros [= <-].
      right. by eexists. }
  destruct (stop_run _ _ _ Hs H2) as [Hb Hf]. split; [apply Hb|]. intros i Hi. apply Hf. by right.
Qed.
End round_robin.

Lemma executor_round_robin_witness :
  let ops := [executor_thread_pool.AddTask "a"; executor_thread_pool.AddTask "b";
              executor_thread_pool.TakeTask 1; executor_thread_pool.AddTask "c";
              executor_thread_pool.TakeTask 0; executor_thread_pool.EndTask 0] in
  match executor_thread_pool.run ops (executor_thread_pool.new 2) with
  | Some p => executor_thread_pool.executed p = [["a"]; []]
              /\ executor_thread_pool.task_guague_ p = 2
  | None => False
  end.
Proof.
  intros ops. destruct (executor_thread_pool.run ops _) as [p|] eqn:Hr; [|discriminate Hr].
  split; [by injection Hr as <-|].
  exact (proj2 (executor_round_robin 2 ops p Hr)).
Defined.

Lemma executor_stop_witness :
  let ops1 := [executor_thread_pool.AddTask "a"; executor_thread_pool.AddTask "b";
               executor_thread_pool.TakeTask 0] in
  let ops2 := [executor_thread_pool.AddTask "c"; executor_thread_pool.EndTask 0;
               executor_thread_pool.TakeTask 0] in
  match executor_thread_pool.run ops1 (executor_thread_pool.new 2) with
  | None => False
  | Some p =>
      match executor_thread_pool.run ops2 (executor_thread_pool.stop p) with
      | None => False
      | Some p' => begun p' 0 = ["a"] /\ executor_thread_pool.finished_threads_ p' !! 0%nat = Some true
      end
  end.
Proof.
  intros ops1 ops2. destruct (executor_thread_pool.run ops1 _) as [p|] eqn:H1; [|discriminate H1].
  destruct (executor_thread_pool.run ops2 _) as [p'|] eqn:H2;
    [|injection H1 as <-; discriminate H2].
  destruct (executor_stop 2 ops1 ops2 p p' H1 H2) as [Hb Hf]. split.
  - rewrite Hb. by injection H1 as <-.
  - apply Hf. right. right. left.
Defined.
