(* ===== verification/Timers.v ===== *)
(** * Timers of the event loops, and the scheduler on top of them

    The task queue of [real_async_loop] ([src/async/real_async_loop.cpp]) and
    [src/scheduler/real_scheduler.cpp], which hands tasks over to the loops of its
    threads.  Times are [unsigned long] milliseconds; a task is a value of a type
    [T], and [run] says what executing it does to the world and which operations
    it calls on its loop.  The timer callback reads [now()] anew at each use:
    reading number [i] gives [clock i]; within [add_task] one reading is used. *)

From S2P Require Import Prelude Ieee Containers.

Local Open Scope Z_scope.

Definition u64 (z : Z) : Z := z mod two64.

Record sched_task_t (T : Type) : Type := MkTask {
  lib_namespace : string;
  task : T;
  timer_id : Z;
  interval_ms : Z;
  time_ms : Z
}.
Arguments MkTask {T} lib_namespace task timer_id interval_ms time_ms.
Arguments lib_namespace {T} _.
Arguments task {T} _.
Arguments timer_id {T} _.
Arguments interval_ms {T} _.
Arguments time_ms {T} _.

(** What a running task may call on its loop. *)
Inductive loop_call (T : Type) : Type :=
| CAddTask (nm : string) (f : T) (once : bool) (t : float)
| CRemoveTask (id : Z)
| CRemoveNs (nm : string).
Arguments CAddTask {T} nm f once t.
Arguments CRemoveTask {T} id.
Arguments CRemoveNs {T} nm.

Module real_async_loop.
Section loop.
Context {Q : Type -> Type} `{PriorityQueue Q} {T W : Type}.

(** [timer_]: stopped, or started with a delay in seconds. *)
Record t : Type := Mk {
  tasks_ : Q (sched_task_t T);
  next_timer_id_ : Z;
  timer_ : option float
}.

Definition init : t := Mk pq_empty 0 None.

Definition sched_next_task (now : Z) (s : t) : t :=
  match pq_pop time_ms (tasks_ s) with
  | None => Mk (tasks_ s) (next_timer_id_ s) None
  | Some (top, _) =>
      let next :=
        if now >? time_ms top then f_of_Z 0
        else f_of_d (d_div (d_of_Z (time_ms top - now)) (d_of_Z 1000)) in
      Mk (tasks_ s) (next_timer_id_ s) (Some next)
  end.

(** [static_cast<unsigned long>(t * 1000)]. *)
Definition ms_of (t : float) : Z := u64 (i64_of_sf (f_mul t (f_of_Z 1000))).

Definition add_task (now : Z) (nm : string) (f : T) (once : bool) (dt : float) (s : t) : t :=
  let id := next_timer_id_ s in
  let t_ms := ms_of dt in
  let x := MkTask nm f id (if once then 0 else t_ms) (u64 (now + t_ms)) in
  sched_next_task now
    (Mk (pq_push time_ms x (tasks_ s)) (u64 (next_timer_id_ s + 1)) (timer_ s)).
Definition add_once_task (now : Z) (nm : string) (f : T) (dt : float) (s : t) : t :=
  add_task now nm f true dt s.
Definition add_periodic_task (now : Z) (nm : string) (f : T) (dt : float) (s : t) : t :=
  add_task now nm f false dt s.

(** The queue is emptied into a new one without the tasks that satisfy the
    predicate.  The returned flag is never set to [true]. *)
Definition remove_task_if (predicate : sched_task_t T -> bool) (s : t) : t * bool :=
  let all := pq_drain time_ms (tasks_ s) in
  let kept := filter (fun x => predicate x = false) all in
  (Mk (foldl (fun q x => pq_push time_ms x q) pq_empty kept) (next_timer_id_ s) (timer_ s),
   false).
Definition remove_task (id : Z) (s : t) : t * bool :=
  remove_task_if (fun x => timer_id x =? id) s.
Definition remove_task_lib_namespace (nm : string) (s : t) : t :=
  (remove_task_if (fun x => bool_decide (lib_namespace x = nm)) s).1.

(** *** The timer callback *)

Variable run : T -> W -> W * list (loop_call T).
Variable clock : nat -> Z.

Definition do_call (now : Z) (s : t) (c : loop_call T) : t :=
  match c with
  | CAddTask nm f once dt => add_task now nm f once dt s
  | CRemoveTask id => (remove_task id s).1
  | CRemoveNs nm => remove_task_lib_namespace nm s
  end.

(** The body of the loop for the task [x] on top, after clock reading [i]; the calls
    the task makes see the reading that follows.  The task runs while it is still
    queued. *)
Definition run_top (i : nat) (x : sched_task_t T) (s : t) (w : W) : t * W :=
  let '(w, calls) := run (task x) w in
  let s := foldl (do_call (clock (S i))) s calls in
  match pq_pop time_ms (tasks_ s) with
  | None => (s, w)
  | Some (y, q) =>
      if negb (timer_id y =? timer_id x) then (s, w)
      else if interval_ms x >? 0
      then (Mk (pq_push time_ms
                  (MkTask (lib_namespace x) (task x) (timer_id x) (interval_ms x)
                     (u64 (clock (S (S i)) + interval_ms x))) q)
              (next_timer_id_ s) (timer_ s), w)
      else (Mk q (next_timer_id_ s) (timer_ s), w)
  end.

(** [None] when the fuel runs out; each turn uses three clock readings. *)
Fixpoint callback_loop (fuel i : nat) (s : t) (w : W) : option (nat * t * W) :=
  match fuel with
  | O => None
  | S fuel' =>
      match pq_pop time_ms (tasks_ s) with
      | None => Some (i, s, w)
      | Some (x, _) =>
          if time_ms x >? clock i then Some (S i, s, w)
          else let '(s, w) := run_top i x s w in callback_loop fuel' (3 + i) s w
      end
  end.
Definition timer_callback (fuel i : nat) (s : t) (w : W) : option (t * W) :=
  (fun r : nat * t * W => let '(i, s, w) := r in (sched_next_task (clock i) s, w))
    <$> callback_loop fuel i s w.
End loop.
Arguments t : clear implicits.
End real_async_loop.

(** ** Removing tasks *)

Section remove.
Context {Q : Type -> Type} `{PriorityQueueLaws Q} {T : Type}.

Lemma push_all_elems (l : list (sched_task_t T)) (q : Q (sched_task_t T)) :
  pq_elems (foldl (fun q x => pq_push time_ms x q) q l) ≡ₚ l ++ pq_elems q.
Proof.
  revert q. induction l as [|x l IH]; intros q; [done|]. simpl.
  rewrite IH, pq_elems_push. by rewrite Permutation_middle.
Qed.

Lemma remove_task_if_elems p (s : real_async_loop.t Q T) :
  pq_elems (real_async_loop.tasks_ (real_async_loop.remove_task_if p s).1) ≡ₚ
  filter (fun x => p x = false) (pq_elems (real_async_loop.tasks_ s)).
Proof.
  simpl. rewrite push_all_elems, pq_elems_empty, app_nil_r. by rewrite pq_drain_perm.
Qed.

(** Unloading a rule library: [remove_task_lib_namespace(nm)] leaves no task of the
    namespace and keeps every other task, each as often as before;
    [remove_task(id)] does the same for one id, and reports [false] whether it
    removed something or not. *)
Theorem remove_tasks_spec (nm : string) (id : Z) (s : real_async_loop.t Q T) :
  pq_elems (real_async_loop.tasks_ (real_async_loop.remove_task_lib_namespace nm s)) ≡ₚ
    filter (fun x => lib_namespace x <> nm) (pq_elems (real_async_loop.tasks_ s))
  /\ let '(s', removed) := real_async_loop.remove_task id s in
     pq_elems (real_async_loop.tasks_ s') ≡ₚ
       filter (fun x => timer_id x <> id) (pq_elems (real_async_loop.tasks_ s))
     /\ removed = false.
Proof.
  split.
  - unfold real_async_loop.remove_task_lib_namespace. rewrite remove_task_if_elems.
    erewrite list_filter_iff; [done|]. intros x. apply bool_decide_eq_false.
  - unfold real_async_loop.remove_task.
    pose proof (remove_task_if_elems (fun x => timer_id x =? id) s) as Hr.
    destruct (real_async_loop.remove_task_if _ s) as [s' b] eqn:Hs. simpl in Hr.
    split; [|by inv Hs]. rewrite Hr. erewrite list_filter_iff; [done|].
    intros x. apply Z.eqb_neq.
Qed.
End remove.

Lemma remove_tasks_spec_witness :
  let x nm id := MkTask nm "f" id 0 5 in
  let s := real_async_loop.Mk [x "a" 1; x "b" 2; x "a" 3] 4 None in
  pq_elems (real_async_loop.tasks_ (real_async_loop.remove_task_lib_namespace (Q := heap) "a" s))
  ≡ₚ [x "b" 2].
Proof.
  pose (x nm id := MkTask nm "f" id 0 5).
  etransitivity; [apply (proj1 (remove_tasks_spec (Q := heap) "a" 1
    (real_async_loop.Mk [x "a" 1; x "b" 2; x "a" 3] 4 None)))|].
  vm_compute. apply Permutation_refl.
Defined.

(** ** The callback at a fixed time *)

Section callback.
Context {Q : Type -> Type} `{PriorityQueueLaws Q} {T W : Type}.
Variable run : T -> W -> W * list (loop_call T).
Variable now : Z.

(** The task after a run at [now]. *)
Definition requeued (x : sched_task_t T) : sched_task_t T :=
  MkTask (lib_namespace x) (task x) (timer_id x) (interval_ms x) (now + interval_ms x).

(** What is left of a task after the callback. *)
Definition after_callback (x : sched_task_t T) : list (sched_task_t T) :=
  if time_ms x >? now then [x]
  else if interval_ms x >? 0 then [requeued x] else [].

Definition run_tasks (w : W) (l : list (sched_task_t T)) : W :=
  foldl (fun w x => (run (task x) w).1) w l.

Hypothesis run_calls_nothing : forall f w, (run f w).2 = [].

Lemma callback_loop_spec fuel i (s : real_async_loop.t Q T) w :
  let elems := pq_elems (real_async_loop.tasks_ s) in
  Forall (fun x => 0 <= now /\ now + interval_ms x < two64) elems ->
  (length (filter (fun x => time_ms x <= now)%Z elems) < fuel)%nat ->
  exists i' s' trace,
    real_async_loop.callback_loop run (fun _ => now) fuel i s w
      = Some (i', s', run_tasks w trace)
    /\ trace ≡ₚ filter (fun x => time_ms x <= now) elems
    /\ StronglySorted (fun a b => time_ms a <= time_ms b) trace
    /\ pq_elems (real_async_loop.tasks_ s') ≡ₚ elems ≫= after_callback.
Proof.
  revert i s w. induction fuel as [|fuel IH]; intros i s w elems Hr Hfuel; [lia|].
  cbn [real_async_loop.callback_loop].
  destruct (pq_pop time_ms (real_async_loop.tasks_ s)) as [[x q]|] eqn:Hpop.
  2:{ apply pq_pop_None in Hpop. exists i, s, []. unfold elems. rewrite Hpop.
      repeat split; try done. constructor. }
  destruct (pq_pop_Some _ _ _ _ _ Hpop) as [Hperm Hmin].
  rewrite Z.gtb_ltb. destruct (now <? time_ms x) eqn:Hlt; bool_to_prop.
  { exists (S i), s, []. fold elems in Hmin.
    assert (filter (fun x => time_ms x <= now) elems = [] /\ elems ≫= after_callback = elems)
      as [-> ->]; [|repeat split; try done; constructor].
    clear -Hmin Hlt. induction Hmin as [|y l Hy _ IHl]; [done|].
    rewrite filter_cons, bind_cons, decide_False by lia. destruct IHl as [-> ->].
    unfold after_callback. by replace (time_ms y >? now) with true by
      (symmetry; rewrite Z.gtb_ltb; apply Z.ltb_lt; lia). }
  unfold real_async_loop.run_top.
  pose proof (run_calls_nothing (task x) w) as Hcalls.
  destruct (run (task x) w) as [w1 calls] eqn:Hrun. simpl in Hcalls. subst calls.
  cbn [foldl]. rewrite Hpop, Z.eqb_refl. cbn [negb].
  unfold elems in Hr. rewrite Hperm in Hr. apply Forall_cons_iff in Hr as [[Hn Hx] Hr].
  set (rest := (if interval_ms x >? 0 then [requeued x] else []) ++ pq_elems q).
  set (s1 := if interval_ms x >? 0 then _ else _).
  assert (exists s1', s1 = (s1', w1) /\ pq_elems (real_async_loop.tasks_ s1') ≡ₚ rest)
    as (s1' & -> & Hs1).
  { subst s1 rest. rewrite !Z.gtb_ltb. destruct (0 <? interval_ms x) eqn:Hi; bool_to_prop.
    - eexists. split; [done|]. simpl. rewrite pq_elems_push.
      unfold requeued, u64. rewrite Z.mod_small by (unfold two64 in *; lia). done.
    - eexists. by split. }
  assert (filter (fun x => time_ms x <= now) rest =
          filter (fun x => time_ms x <= now) (pq_elems q)) as Hf.
  { subst rest. rewrite list.filter_app. rewrite Z.gtb_ltb.
    destruct (0 <? interval_ms x) eqn:Hi; bool_to_prop; [|done].
    rewrite filter_cons, decide_False by (simpl; lia). done. }
  destruct (IH (3 + i)%nat s1' w1) as (i' & s' & trace & Hl & Ht & Hsort & He).
  { rewrite Hs1. subst rest. rewrite Z.gtb_ltb.
    destruct (0 <? interval_ms x); [by constructor|done]. }
  { rewrite Hs1, Hf. unfold elems in Hfuel. rewrite Hperm, filter_cons, decide_True in Hfuel
      by done. simpl in Hfuel. lia. }
  exists i', s', (x :: trace). unfold elems. rewrite Hs1 in Ht, He.
  split; [by simpl; rewrite Hrun|]. rewrite Hperm, filter_cons, decide_True by done.
  rewrite Hf in Ht. split; [by rewrite Ht|]. split.
  - constructor; [done|]. rewrite Ht. apply list.Forall_forall. intros y Hy.
    apply list_elem_of_filter in Hy as [_ Hy]. rewrite Hperm, list.Forall_forall in Hmin.
    apply Hmin. by right.
  - rewrite He, bind_cons. subst rest. rewrite bind_app. unfold after_callback at 3.
    rewrite !Z.gtb_ltb. replace (now <? time_ms x) with false by
      (symmetry; apply Z.ltb_ge; lia).
    destruct (0 <? interval_ms x) eqn:Hi; bool_to_prop; [|done].
    simpl. unfold after_callback at 1. simpl.
    by replace (now + interval_ms x >? now) with true by
      (symmetry; rewrite Z.gtb_ltb; apply Z.ltb_lt; lia).
Qed.

(** The timer callback, with the clock standing at [now] while it runs and tasks that do
    not touch the loop: it ends, having run exactly the tasks that were due, each
    once and in the order of their times; those without an interval are gone, the
    periodic ones are queued again for [now] plus their interval, and the timer is
    set for the first task left. *)
Theorem timer_callback_spec (fuel i : nat) (s : real_async_loop.t Q T) (w : W) :
  let elems := pq_elems (real_async_loop.tasks_ s) in
  Forall (fun x => 0 <= now /\ now + interval_ms x < two64) elems ->
  (length (filter (fun x => time_ms x <= now)%Z elems) < fuel)%nat ->
  exists s' trace,
    real_async_loop.timer_callback run (fun _ => now) fuel i s w
      = Some (s', run_tasks w trace)
    /\ trace ≡ₚ filter (fun x => time_ms x <= now) elems
    /\ StronglySorted (fun a b => time_ms a <= time_ms b) trace
    /\ pq_elems (real_async_loop.tasks_ s') ≡ₚ elems ≫= after_callback
    /\ (real_async_loop.timer_ s' = None <-> elems ≫= after_callback = []).
Proof.
  intros elems Hr Hfuel.
  destruct (callback_loop_spec fuel i s w Hr Hfuel) as (i' & s' & trace & Hl & Ht & Hs & He).
  exists (real_async_loop.sched_next_task now s'), trace.
  unfold real_async_loop.timer_callback. rewrite Hl. split; [done|].
  fold elems in Ht, He. unfold real_async_loop.sched_next_task.
  destruct (pq_pop time_ms (real_async_loop.tasks_ s')) as [[y q]|] eqn:Hp;
    cbn [real_async_loop.tasks_ real_async_loop.timer_]; (split; [exact Ht|]);
    (split; [exact Hs|]); (split; [exact He|]).
  - apply pq_pop_Some in Hp as [Hp _]. rewrite He in Hp.
    split; [discriminate|]. intros Hn. rewrite Hn in Hp.
    by apply Permutation_nil_cons in Hp.
  - apply pq_pop_None in Hp. rewrite Hp in He. split; [intros _|done].
    by apply Permutation_nil in He.
Qed.
End callback.

Lemma timer_callback_spec_witness :
  let run (f : string) (w : list string) := (w ++ [f], []) in
  let s := real_async_loop.Mk
    [MkTask "" "late" 0 0 900; MkTask "" "tick" 1 50 300; MkTask "" "once" 2 0 100] 3 None in
  exists s' trace,
    real_async_loop.timer_callback (Q := heap) run (fun _ => 500) 4 0 s []
      = Some (s', run_tasks run [] trace)
    /\ pq_elems (real_async_loop.tasks_ s') ≡ₚ
       [MkTask "" "late" 0 0 900; MkTask "" "tick" 1 50 550].
Proof.
  pose (run (f : string) (w : list string) := (w ++ [f], @nil (loop_call string))).
  destruct (timer_callback_spec (Q := heap) run 500 ltac:(done) 4 0
    (real_async_loop.Mk [MkTask "" "late" 0 0 900; MkTask "" "tick" 1 50 300;
       MkTask "" "once" 2 0 100] 3 None) []) as (s' & trace & H1 & _ & _ & H4 & _).
  - by_decide.
  - vm_compute. lia.
  - exists s', trace. split; [exact H1|exact H4].
Defined.
