(* ===== verification/RealScheduler.v ===== *)
(** * The real scheduler

    [src/scheduler/real_scheduler.cpp]: tasks and requests to remove the tasks of a rule
    library go through bounded queues to the threads of the scheduler, which are
    signalled, and answered by promises.  Each thread has a loop with timers ([Timers]).

    The functions [add_tasks] and [remove_ns_tasks] of a thread are also operations of their
    own, as other threads may do something between them. *)

From S2P Require Import Prelude Ieee Containers ThreadPools Timers.

Local Open Scope Z_scope.

Module real_scheduler.
Section scheduler.
Context {Q : Type -> Type} `{PriorityQueue Q} {T W : Type}.
(** What a task does: to the world, and the functions for removing tasks of its loop that it calls. *)
Variable run_task : T -> W -> W * list Z.

Definition k_scheduler_threads : nat := 2.
Definition k_max_queue_size : Z := 2000.

(** The promise of a task is a place in [task_values]. *)
Record task_promise_t : Type := MkTaskPromise {
  tp_promise : nat;
  tp_task : T;
  tp_interval : float;
  tp_once : bool;
  tp_nm : string
}.

(** [promise] and [loops] of [ns_promise_t], which the copies share; the queues have places in
    [ns_values]. *)
Record ns_promise_t : Type := MkNsPromise {
  np_value : option bool;
  np_loops : Z;
  np_nm : string
}.

Record t : Type := Mk {
  threads_ : async_thread_pool.t;
  task_promises_ : list (list task_promise_t);
  ns_promises_ : list (list nat);
  loops : list (real_async_loop.t Q T);
  task_values : list (option (nat * Z));
  ns_values : list ns_promise_t
}.

Definition new : result t :=
  res_map (fun pool =>
      Mk pool (replicate k_scheduler_threads []) (replicate k_scheduler_threads [])
        (replicate k_scheduler_threads real_async_loop.init) [] [])
    (async_thread_pool.new k_scheduler_threads).

Definition signal_thread (i : nat) (s : t) : result t :=
  res_map (fun pool => Mk pool (task_promises_ s) (ns_promises_ s) (loops s) (task_values s) (ns_values s))
    (async_thread_pool.signal_thread i (threads_ s)).

(** [try_push] on a queue with a capacity. *)
Definition try_push {A} (x : A) (q : list A) : option (list A) :=
  if k_max_queue_size <=? Z.of_nat (length q) then None else Some (q ++ [x]).

(** [nm] is [get_thread_ns()].  The value is the place of the promise; it never gets a
    value if the queue is full. *)
Definition add_task (task : T) (interval : float) (once : bool) (nm : string) (s : t)
  : result (t * nat) :=
  let promise := length (task_values s) in
  let '(i, pool) := async_thread_pool.next_thread (threads_ s) in
  match task_promises_ s !! i with
  | None => Throw undefined_behaviour
  | Some q =>
      match try_push (MkTaskPromise promise task interval once nm) q with
      | Some q =>
          res_map (fun s => (s, promise))
            (signal_thread i (Mk pool (<[i := q]> (task_promises_ s)) (ns_promises_ s) (loops s)
                                (task_values s ++ [None]) (ns_values s)))
      | None => Ok (Mk pool (task_promises_ s) (ns_promises_ s) (loops s)
                      (task_values s ++ [None]) (ns_values s), promise)
      end
  end.
Definition add_periodic_task (task : T) (interval : float) (nm : string) (s : t) : result (t * nat) :=
  add_task task interval false nm s.
Definition add_once_task (task : T) (dt : float) (nm : string) (s : t) : result (t * nat) :=
  add_task task dt true nm s.

(** [std::promise::set_value], a second time is an error. *)
Definition set_value (r : nat) (b : bool) (s : t) : result t :=
  match ns_values s !! r with
  | None => Throw undefined_behaviour
  | Some v =>
      match np_value v with
      | Some _ => Throw (user_exception "promise already satisfied")
      | None => Ok (Mk (threads_ s) (task_promises_ s) (ns_promises_ s) (loops s) (task_values s)
                      (<[r := MkNsPromise (Some b) (np_loops v) (np_nm v)]> (ns_values s)))
      end
  end.

(** The loop of [remove_ns_tasks(nm)] over the threads. *)
Fixpoint push_ns (r : nat) (ids : list nat) (s : t) : result t :=
  match ids with
  | [] => Ok s
  | i :: ids' =>
      match ns_promises_ s !! i with
      | None => Throw undefined_behaviour
      | Some q =>
          res_bind (push_ns r ids')
            (match try_push r q with
             | Some q =>
                 signal_thread i (Mk (threads_ s) (task_promises_ s) (<[i := q]> (ns_promises_ s))
                                    (loops s) (task_values s) (ns_values s))
             | None => set_value r false s
             end)
      end
  end.
Definition remove_ns_tasks (nm : string) (s : t) : result (t * nat) :=
  let r := length (ns_values s) in
  res_map (fun s => (s, r))
    (push_ns r (seq 0 k_scheduler_threads)
       (Mk (threads_ s) (task_promises_ s) (ns_promises_ s) (loops s) (task_values s)
          (ns_values s ++ [MkNsPromise None (Z.of_nat k_scheduler_threads) nm]))).

(** [add_tasks(loop)]: all tasks of the queue become timers of the loop, and their promises get
    the ids. *)
Fixpoint add_timers (now : Z) (i : nat) (tps : list task_promise_t) (l : real_async_loop.t Q T)
    (values : list (option (nat * Z))) : real_async_loop.t Q T * list (option (nat * Z)) :=
  match tps with
  | [] => (l, values)
  | tp :: tps' =>
      let timer_id := real_async_loop.next_timer_id_ l in
      let l := if tp_once tp
               then real_async_loop.add_once_task now (tp_nm tp) (tp_task tp) (tp_interval tp) l
               else real_async_loop.add_periodic_task now (tp_nm tp) (tp_task tp) (tp_interval tp) l in
      add_timers now i tps' l (<[tp_promise tp := Some (i, timer_id)]> values)
  end.
Definition add_tasks (now : Z) (i : nat) (s : t) : result t :=
  match task_promises_ s !! i, loops s !! i with
  | Some tps, Some l =>
      let '(l, values) := add_timers now i tps l (task_values s) in
      Ok (Mk (threads_ s) (<[i := []]> (task_promises_ s)) (ns_promises_ s) (<[i := l]> (loops s))
            values (ns_values s))
  | _, _ => Throw undefined_behaviour
  end.

(** [remove_ns_tasks(loop)] for one request of the queue. *)
Definition remove_ns (i r : nat) (s : t) : result t :=
  match ns_values s !! r, loops s !! i with
  | Some v, Some l =>
      let pending_loops := np_loops v in
      let s := Mk (threads_ s) (task_promises_ s) (ns_promises_ s)
                 (<[i := real_async_loop.remove_task_lib_namespace (np_nm v) l]> (loops s))
                 (task_values s)
                 (<[r := MkNsPromise (np_value v) (wrap32 (pending_loops - 1)) (np_nm v)]> (ns_values s)) in
      if pending_loops =? 1 then set_value r true s else Ok s
  | _, _ => Throw undefined_behaviour
  end.
Fixpoint remove_all_ns (i : nat) (rs : list nat) (s : t) : result t :=
  match rs with
  | [] => Ok s
  | r :: rs' => res_bind (remove_all_ns i rs') (remove_ns i r s)
  end.
Definition remove_ns_requests (i : nat) (s : t) : result t :=
  match ns_promises_ s !! i with
  | None => Throw undefined_behaviour
  | Some rs =>
      remove_all_ns i rs
        (Mk (threads_ s) (task_promises_ s) (<[i := []]> (ns_promises_ s)) (loops s) (task_values s)
           (ns_values s))
  end.

Definition async_callback (now : Z) (i : nat) (s : t) : result t :=
  res_bind (remove_ns_requests i) (add_tasks now i s).

(** What happens to the scheduler: calls from other threads, the callback of a thread, at once or
    in its two halves, and a turn of the loop of its timer callback. *)
Inductive sched_op : Type :=
| AddTask (task : T) (interval : float) (once : bool) (nm : string)
| RemoveNs (nm : string)
| AsyncCallback (now : Z) (i : nat)
| AddTasks (now : Z) (i : nat)
| RemoveNsRequests (i : nat)
| TimerTurn (clock : nat -> Z) (i : nat).

(** A turn of the loop of [timer_callback]: the task on top is run if it is due. *)
Definition timer_turn (clock : nat -> Z) (l : real_async_loop.t Q T) (w : W) : real_async_loop.t Q T * W :=
  match pq_pop time_ms (real_async_loop.tasks_ l) with
  | None => (l, w)
  | Some (x, _) =>
      if time_ms x >? clock 0%nat then (l, w)
      else real_async_loop.run_top
             (fun f w => let '(w, ids) := run_task f w in (w, CRemoveTask <$> ids)) clock 0 x l w
  end.

Definition step (o : sched_op) (s : t) (w : W) : result (t * W) :=
  match o with
  | AddTask task interval once nm =>
      res_map (fun '(s, _) => (s, w)) (add_task task interval once nm s)
  | RemoveNs nm => res_map (fun '(s, _) => (s, w)) (remove_ns_tasks nm s)
  | AsyncCallback now i => res_map (fun s => (s, w)) (async_callback now i s)
  | AddTasks now i => res_map (fun s => (s, w)) (add_tasks now i s)
  | RemoveNsRequests i => res_map (fun s => (s, w)) (remove_ns_requests i s)
  | TimerTurn clock i =>
      match loops s !! i with
      | None => Throw undefined_behaviour
      | Some l =>
          let '(l, w) := timer_turn clock l w in
          Ok (Mk (threads_ s) (task_promises_ s) (ns_promises_ s) (<[i := l]> (loops s))
                (task_values s) (ns_values s), w)
      end
  end.
Fixpoint run (ops : list sched_op) (s : t) (w : W) : result (t * W) :=
  match ops with
  | [] => Ok (s, w)
  | o :: ops' => res_bind (fun '(s, w) => run ops' s w) (step o s w)
  end.
End scheduler.
Arguments t : clear implicits.
Arguments sched_op : clear implicits.
Arguments task_promise_t : clear implicits.
End real_scheduler.

(** ** Removing the tasks of a rule library *)

Section remove_ns.
Import real_scheduler.
Context {Q : Type -> Type} `{PriorityQueueLaws Q} {T W : Type}.
Variable run_task : T -> W -> W * list Z.

Abbreviation sched := (real_scheduler.t Q T).
Implicit Types s : sched.

(** How often a request is in a queue, and in all of them. *)
Definition count (r : nat) (q : list nat) : nat := length (filter (eq r) q).
Definition in_queues (r : nat) (s : sched) : nat := sum_list_with (count r) (ns_promises_ s).

Lemma count_app r q q' : count r (q ++ q') = (count r q + count r q')%nat.
Proof. unfold count. by rewrite list.filter_app, length_app. Qed.

Lemma count_cons r r' q : count r (r' :: q) = ((if decide (r = r') then 1 else 0) + count r q)%nat.
Proof. unfold count. rewrite filter_cons. by case_decide. Qed.

Lemma count_snoc r r' q : count r (q ++ [r']) = (count r q + if decide (r = r') then 1 else 0)%nat.
Proof. by rewrite count_app, count_cons, Nat.add_0_r. Qed.

Lemma count_0 r q : count r q = 0%nat <-> r ∉ q.
Proof.
  induction q as [|r' q IH]; [split; [intros _; apply not_elem_of_nil|done]|].
  rewrite count_cons, not_elem_of_cons, <- IH. case_decide; [split; [lia|intros [? _]; congruence]|].
  split; [by intros ?|by intros [_ ?]].
Qed.

Lemma sum_insert (f : list nat -> nat) qs i q q' :
  qs !! i = Some q -> (sum_list_with f (<[i := q']> qs) + f q = sum_list_with f qs + f q')%nat.
Proof.
  revert i. induction qs as [|q0 qs IH]; intros [|i]; [done..| |]; simpl.
  - intros [= ->]. lia.
  - intros Hi. specialize (IH i Hi). lia.
Qed.

Lemma sum_0 r (qs : list (list nat)) i q :
  sum_list_with (count r) qs = 0%nat -> qs !! i = Some q -> r ∉ q.
Proof.
  revert i. induction qs as [|q0 qs IH]; intros [|i]; [done..| |]; simpl; intros Hs.
  - intros [= ->]. apply count_0. lia.
  - apply IH. lia.
Qed.

Lemma sum_all_0 r (qs : list (list nat)) :
  (forall i q, qs !! i = Some q -> r ∉ q) -> sum_list_with (count r) qs = 0%nat.
Proof.
  induction qs as [|q0 qs IH]; intros Hqs; [done|]. simpl.
  rewrite (proj2 (count_0 r q0)) by (by apply (Hqs 0%nat)). apply IH. intros i. apply (Hqs (S i)).
Qed.

(** *** The promise

    [k] is the number of requests that have left the queues or are still to be put there. *)
Definition promise_ok (r : nat) (nm : string) (k : nat) (s : sched) : Prop :=
  exists v, ns_values s !! r = Some v /\ np_nm v = nm
  /\ match np_value v with
     | None => np_loops v = Z.of_nat (in_queues r s + k) /\ (0 < in_queues r s + k <= 2)%nat
     | Some true => (in_queues r s + k)%nat = 0%nat
     | Some false => True
     end.

Lemma promise_ok_same r nm k s s' :
  promise_ok r nm k s -> ns_values s' !! r = ns_values s !! r -> in_queues r s' = in_queues r s ->
  promise_ok r nm k s'.
Proof. intros (v & Hv & Hnm & Hok) Hs Hq. exists v. by rewrite Hs, Hq. Qed.

Lemma signal_same i s s' :
  real_scheduler.signal_thread i s = Ok s' ->
  task_promises_ s' = task_promises_ s /\ ns_promises_ s' = ns_promises_ s /\ loops s' = loops s
  /\ task_values s' = task_values s /\ ns_values s' = ns_values s.
Proof.
  unfold real_scheduler.signal_thread. destruct (async_thread_pool.signal_thread _ _); [|done].
  by intros [= <-].
Qed.

Lemma set_value_same r b s s' :
  set_value r b s = Ok s' ->
  exists v, ns_values s !! r = Some v /\ np_value v = None
  /\ s' = Mk (threads_ s) (task_promises_ s) (ns_promises_ s) (loops s) (task_values s)
            (<[r := MkNsPromise (Some b) (np_loops v) (np_nm v)]> (ns_values s)).
Proof.
  unfold set_value. destruct (ns_values s !! r) as [v|]; [|done].
  destruct (np_value v) eqn:Hv; [done|]. intros [= <-]. by exists v.
Qed.

(** A request is put into the queue of a thread, or the promise gets [false]. *)
Definition push_one (r i : nat) (s s' : sched) : Prop :=
  exists q, ns_promises_ s !! i = Some q
  /\ task_promises_ s' = task_promises_ s /\ loops s' = loops s
  /\ ((ns_promises_ s' = <[i := q ++ [r]]> (ns_promises_ s) /\ ns_values s' = ns_values s)
      \/ (ns_promises_ s' = ns_promises_ s
          /\ exists v, ns_values s !! r = Some v /\ np_value v = None
             /\ ns_values s' = <[r := MkNsPromise (Some false) (np_loops v) (np_nm v)]> (ns_values s))).

Lemma push_ns_cons r i ids s s' :
  push_ns r (i :: ids) s = Ok s' -> exists s1, push_one r i s s1 /\ push_ns r ids s1 = Ok s'.
Proof.
  cbn [push_ns]. destruct (ns_promises_ s !! i) as [q|] eqn:Hq; [|done]. unfold try_push.
  destruct (_ <=? _).
  - destruct (set_value r false s) as [s1|] eqn:Hs; [|done]. cbn [res_bind]. intros Hp.
    exists s1. split; [|done]. apply set_value_same in Hs as (v & Hv & Hn & ->).
    exists q. repeat (split; [done|]). right. split; [done|]. by exists v.
  - destruct (real_scheduler.signal_thread i _) as [s1|] eqn:Hs; [|done]. cbn [res_bind]. intros Hp.
    exists s1. split; [|done]. apply signal_same in Hs as (H1 & H2 & H3 & H4 & H5).
    exists q. repeat (split; [done|]). by left.
Qed.

Lemma push_one_queue r i s s1 j q r' :
  push_one r i s s1 -> ns_promises_ s !! j = Some q -> r' ∈ q ->
  exists q', ns_promises_ s1 !! j = Some q' /\ r' ∈ q'.
Proof.
  intros (q0 & Hq0 & _ & _ & [[Hq _]|[Hq _]]) Hj Hr'; rewrite Hq; [|by exists q].
  destruct (decide (j = i)) as [->|Hne].
  - rewrite list_lookup_insert_eq by (by eapply lookup_lt_Some). eexists. split; [done|].
    apply elem_of_app. left. congruence.
  - rewrite list_lookup_insert_ne by done. by exists q.
Qed.

Lemma push_one_ok r i s s1 nm k :
  push_one r i s s1 -> promise_ok r nm (S k) s -> promise_ok r nm k s1.
Proof.
  intros (q & Hq & _ & _ & Hcase) (v & Hv & Hnm & Hok). unfold promise_ok, in_queues in *.
  destruct Hcase as [[Hqs Hvs]|[Hqs (v' & Hv' & Hn & Hvs)]]; rewrite Hqs, Hvs.
  - exists v. split; [done|]. split; [done|].
    pose proof (sum_insert (count r) _ _ _ (q ++ [r]) Hq) as Hsum.
    rewrite count_snoc, decide_True in Hsum by done.
    destruct (np_value v) as [[]|]; [lia|done|]. split; [rewrite (proj1 Hok); f_equal; lia|lia].
  - assert (v' = v) as -> by congruence. eexists.
    rewrite list_lookup_insert_eq by (by eapply lookup_lt_Some). by repeat split.
Qed.

Lemma push_one_other r i s s1 r' :
  push_one r i s s1 -> r' <> r ->
  ns_values s1 !! r' = ns_values s !! r' /\ in_queues r' s1 = in_queues r' s.
Proof.
  intros (q & Hq & _ & _ & Hcase) Hne. unfold in_queues.
  destruct Hcase as [[-> ->]|[-> (v' & Hv' & Hn & ->)]].
  - split; [done|]. pose proof (sum_insert (count r') _ _ _ (q ++ [r]) Hq) as Hsum.
    rewrite count_snoc, decide_False in Hsum by done. lia.
  - by rewrite list_lookup_insert_ne.
Qed.

(** What [push_ns] does to the queues and to the values. *)
Lemma push_ns_spec r ids s s' :
  push_ns r ids s = Ok s' ->
  task_promises_ s' = task_promises_ s /\ loops s' = loops s
  /\ length (ns_promises_ s') = length (ns_promises_ s)
  /\ (forall r', r' <> r -> ns_values s' !! r' = ns_values s !! r' /\ in_queues r' s' = in_queues r' s)
  /\ (forall r' i q, ns_promises_ s !! i = Some q -> r' ∈ q ->
      exists q', ns_promises_ s' !! i = Some q' /\ r' ∈ q')
  /\ (forall nm k, promise_ok r nm (length ids + k) s -> promise_ok r nm k s').
Proof.
  revert s. induction ids as [|i ids IH]; intros s.
  { intros [= <-]. repeat (split; [done|]). split; [|done]. intros r' i q Hq Hr. by exists q. }
  intros (s1 & Hone & Hp)%push_ns_cons. destruct (IH s1 Hp) as (H1 & H2 & H3 & H4 & H5 & H6).
  pose proof Hone as (q0 & _ & Ht & Hl & Hcase).
  rewrite H1, H2, H3, Ht, Hl. repeat (split; [done|]). split; [|split; [|split]].
  - destruct Hcase as [[-> _]|[-> _]]; [apply length_insert|done].
  - intros r' Hne. destruct (H4 r' Hne) as [-> ->]. by eapply push_one_other.
  - intros r' j q Hq Hr. destruct (push_one_queue _ _ _ _ _ _ _ Hone Hq Hr) as (q' & Hq' & Hr').
    by eapply H5.
  - intros nm k Hok. apply H6. by eapply push_one_ok.
Qed.

(** A promise that has its value keeps it. *)
Lemma push_one_value r i s s1 v b :
  push_one r i s s1 -> ns_values s !! r = Some v -> np_value v = Some b -> ns_values s1 !! r = Some v.
Proof.
  intros (q & _ & _ & _ & [[_ ->]|[_ (v' & Hv' & Hn & _)]]) Hv Hb; [done|congruence].
Qed.

Lemma push_ns_in r ids s s' i v :
  push_ns r ids s = Ok s' -> i ∈ ids -> ns_values s' !! r = Some v -> np_value v <> Some false ->
  exists q, ns_promises_ s' !! i = Some q /\ r ∈ q.
Proof.
  assert (forall ids s v b, push_ns r ids s = Ok s' -> ns_values s !! r = Some v ->
    np_value v = Some b -> ns_values s' !! r = Some v) as Hkeep.
  { clear. induction ids as [|i ids IH]; intros s v b; [by intros [= ->]|].
    intros (s1 & Hone & Hp)%push_ns_cons Hv Hb. eapply IH; [done| |done]. by eapply push_one_value. }
  revert s. induction ids as [|i' ids IH]; intros s; [intros _ ?%elem_of_nil; done|].
  intros (s1 & Hone & Hp)%push_ns_cons [->|Hi]%elem_of_cons Hv Hf; [|by eapply IH].
  destruct Hone as (q & Hq & _ & _ & [[Hqs _]|[_ (v' & Hv' & Hn & Hvs)]]).
  - apply push_ns_spec in Hp as (_ & _ & _ & _ & Hin & _).
    eapply (Hin r); [by rewrite Hqs, list_lookup_insert_eq by (by eapply lookup_lt_Some)|].
    apply elem_of_app. right. left.
  - exfalso. assert (ns_values s' !! r = Some (MkNsPromise (Some false) (np_loops v') (np_nm v'))) as Hv2.
    { eapply Hkeep; [exact Hp| |done].
      by rewrite Hvs, list_lookup_insert_eq by (by eapply lookup_lt_Some). }
    rewrite Hv in Hv2. by injection Hv2 as ->.
Qed.

(** *** The loops *)

Definition loop_clean (nm : string) (l : real_async_loop.t Q T) : Prop :=
  Forall (fun x => lib_namespace x <> nm) (pq_elems (real_async_loop.tasks_ l)).
Definition queue_clean (nm : string) (q : list (task_promise_t T)) : Prop :=
  Forall (fun tp => tp_nm tp <> nm) q.

Lemma sched_next_tasks now (l : real_async_loop.t Q T) :
  real_async_loop.tasks_ (real_async_loop.sched_next_task now l) = real_async_loop.tasks_ l.
Proof. unfold real_async_loop.sched_next_task. by destruct (pq_pop _ _) as [[]|]. Qed.

Lemma add_task_clean nm now nm' f once dt l :
  loop_clean nm l -> nm' <> nm -> loop_clean nm (real_async_loop.add_task now nm' f once dt l).
Proof.
  intros Hl Hne. unfold loop_clean, real_async_loop.add_task. rewrite sched_next_tasks. simpl.
  rewrite pq_elems_push. by constructor.
Qed.

Lemma remove_if_clean nm P l : loop_clean nm l -> loop_clean nm (real_async_loop.remove_task_if P l).1.
Proof.
  unfold loop_clean. rewrite remove_task_if_elems, !list.Forall_forall. intros Hl x Hx.
  apply Hl. by apply list_elem_of_filter in Hx as [_ ?].
Qed.

Lemma remove_ns_makes_clean nm l : loop_clean nm (real_async_loop.remove_task_lib_namespace nm l).
Proof.
  unfold loop_clean, real_async_loop.remove_task_lib_namespace. rewrite remove_task_if_elems.
  apply list.Forall_forall. intros x [Hx _]%list_elem_of_filter. by apply bool_decide_eq_false in Hx.
Qed.

Lemma add_timers_clean nm now i tps l values :
  loop_clean nm l -> queue_clean nm tps -> loop_clean nm (add_timers now i tps l values).1.
Proof.
  intros Hl Hq. revert l values Hl. induction Hq as [|tp tps Hne _ IH]; intros l values Hl;
    cbn [add_timers]; [done|].
  apply IH. destruct (tp_once tp); by apply add_task_clean.
Qed.

Lemma timer_turn_clean nm clock l w : loop_clean nm l -> loop_clean nm (timer_turn run_task clock l w).1.
Proof.
  intros Hl. unfold timer_turn.
  destruct (pq_pop time_ms (real_async_loop.tasks_ l)) as [[x q]|] eqn:Hpop; [|done].
  destruct (_ >? _); [done|]. unfold real_async_loop.run_top.
  destruct (run_task (task x) w) as [w1 ids].
  assert (lib_namespace x <> nm) as Hx.
  { apply pq_pop_Some in Hpop as [Hperm _]. unfold loop_clean in Hl. rewrite Hperm in Hl.
    by apply Forall_cons_iff in Hl as [? _]. }
  assert (forall l, loop_clean nm l ->
    loop_clean nm (foldl (real_async_loop.do_call (clock 1%nat)) l (CRemoveTask <$> ids))) as Hcalls.
  { clear Hl Hpop. induction ids as [|id ids IH]; intros l' Hl'; [done|]. cbn [fmap list_fmap foldl].
    apply IH. by apply remove_if_clean. }
  specialize (Hcalls l Hl). set (l1 := foldl _ l _) in *.
  destruct (pq_pop time_ms (real_async_loop.tasks_ l1)) as [[y q1]|] eqn:Hpop1; [|done].
  apply pq_pop_Some in Hpop1 as [Hperm _]. unfold loop_clean in Hcalls. rewrite Hperm in Hcalls.
  apply Forall_cons_iff in Hcalls as [Hy Hq1].
  destruct (negb _); [unfold loop_clean; simpl; rewrite Hperm; by constructor|].
  destruct (_ >? _); unfold loop_clean; simpl; [|done]. rewrite pq_elems_push. by constructor.
Qed.

(** *** Requests that are answered *)

Lemma remove_ns_other i r r' s s' :
  remove_ns i r' s = Ok s' -> r' <> r -> ns_values s' !! r = ns_values s !! r.
Proof.
  unfold remove_ns. destruct (ns_values s !! r') as [v|] eqn:Hv; [|done].
  destruct (loops s !! i) as [l|]; [|done]. intros Hs Hne.
  destruct (np_loops v =? 1).
  - apply set_value_same in Hs as (v' & _ & _ & ->). simpl. by rewrite !list_lookup_insert_ne.
  - injection Hs as <-. simpl. by rewrite list_lookup_insert_ne.
Qed.

Lemma remove_ns_frame i r s s' :
  remove_ns i r s = Ok s' ->
  task_promises_ s' = task_promises_ s /\ ns_promises_ s' = ns_promises_ s
  /\ exists v l, ns_values s !! r = Some v /\ loops s !! i = Some l
     /\ loops s' = <[i := real_async_loop.remove_task_lib_namespace (np_nm v) l]> (loops s).
Proof.
  unfold remove_ns. destruct (ns_values s !! r) as [v|]; [|done].
  destruct (loops s !! i) as [l|]; [|done].
  destruct (np_loops v =? 1).
  - intros (v' & _ & _ & ->)%set_value_same. repeat (split; [done|]). by exists v, l.
  - intros [= <-]. repeat (split; [done|]). by exists v, l.
Qed.

Lemma remove_ns_self i r nm k s s' :
  remove_ns i r s = Ok s' -> promise_ok r nm (S k) s -> promise_ok r nm k s'.
Proof.
  intros Hs (v & Hv & Hnm & Hok). unfold remove_ns in Hs. rewrite Hv in Hs.
  destruct (loops s !! i) as [l|]; [|done]. pose proof (lookup_lt_Some _ _ _ Hv) as Hlt.
  destruct (np_loops v =? 1) eqn:Hone; bool_to_prop.
  - apply set_value_same in Hs as (v' & Hv' & Hn & ->). simpl in Hv'.
    rewrite list_lookup_insert_eq in Hv' by done. injection Hv' as <-. simpl in Hn.
    rewrite Hn in Hok. eexists. simpl. rewrite list_lookup_insert_eq by (by rewrite length_insert).
    split; [done|]. split; [done|]. simpl. unfold in_queues in *. simpl. lia.
  - injection Hs as <-. eexists. simpl. rewrite list_lookup_insert_eq by done.
    split; [done|]. split; [done|]. simpl. unfold in_queues in *. simpl.
    destruct (np_value v) as [[]|]; [lia|done|]. unfold wrap32, two32.
    rewrite Z.mod_small; lia.
Qed.

(** A promise that has been given [false] stays like that. *)
Definition refused (r : nat) (s : sched) : Prop :=
  exists v, ns_values s !! r = Some v /\ np_value v = Some false.

Lemma remove_all_ns_refused i rs r s s' : remove_all_ns i rs s = Ok s' -> refused r s -> refused r s'.
Proof.
  revert s. induction rs as [|r' rs IH]; intros s; cbn [remove_all_ns]; [by intros [= <-]|].
  destruct (remove_ns i r' s) as [s1|] eqn:Hr; [|done]. cbn [res_bind]. intros Hs (v & Hv & Hf).
  apply (IH _ Hs). clear IH Hs. destruct (decide (r' = r)) as [->|Hne].
  2:{ exists v. by rewrite (remove_ns_other _ _ _ _ _ Hr Hne). }
  unfold remove_ns in Hr. rewrite Hv in Hr. destruct (loops s !! i) as [l|]; [|done].
  pose proof (lookup_lt_Some _ _ _ Hv) as Hlt. destruct (np_loops v =? 1).
  - apply set_value_same in Hr as (v' & Hv' & Hn & _). simpl in Hv'.
    rewrite list_lookup_insert_eq in Hv' by done. injection Hv' as <-. simpl in Hn. congruence.
  - injection Hr as <-. eexists. simpl. by rewrite list_lookup_insert_eq.
Qed.

Lemma remove_all_ns_queues i rs s s' : remove_all_ns i rs s = Ok s' -> ns_promises_ s' = ns_promises_ s.
Proof.
  revert s. induction rs as [|r rs IH]; intros s; cbn [remove_all_ns]; [by intros [= <-]|].
  destruct (remove_ns i r s) as [s1|] eqn:Hr; [|done]. cbn [res_bind]. intros Hs.
  rewrite (IH _ Hs). by apply remove_ns_frame in Hr as (_ & ? & _).
Qed.

Lemma remove_all_ns_spec i rs r nm k s s' :
  remove_all_ns i rs s = Ok s' -> promise_ok r nm (count r rs + k) s ->
  promise_ok r nm k s' /\ task_promises_ s' = task_promises_ s /\ ns_promises_ s' = ns_promises_ s
  /\ length (loops s') = length (loops s)
  /\ (forall j, j <> i -> loops s' !! j = loops s !! j)
  /\ (forall l, loops s' !! i = Some l -> r ∈ rs \/ (exists l0, loops s !! i = Some l0 /\ loop_clean nm l0) ->
      loop_clean nm l).
Proof.
  revert s. induction rs as [|r' rs IH]; intros s; cbn [remove_all_ns].
  { intros [= <-] Hok. split; [done|]. repeat (split; [done|]).
    intros l Hl [?%elem_of_nil|(l0 & Hl0 & ?)]; [done|congruence]. }
  destruct (remove_ns i r' s) as [s1|] eqn:Hr; [|done]. cbn [res_bind]. intros Hs Hok.
  pose proof (remove_ns_frame _ _ _ _ Hr) as (Ht & Hq & v & l0 & Hv & Hl0 & Hl1).
  assert (promise_ok r nm (count r rs + k) s1) as Hok1.
  { rewrite count_cons in Hok. case_decide as Hrr.
    - subst r'. by eapply remove_ns_self.
    - eapply promise_ok_same; [exact Hok| |]; [by eapply remove_ns_other|].
      unfold in_queues. by rewrite Hq. }
  destruct (IH s1 Hs Hok1) as (H1 & H2 & H3 & H4 & H5 & H6).
  assert (loops s1 !! i = Some (real_async_loop.remove_task_lib_namespace (np_nm v) l0)) as Hi1.
  { by rewrite Hl1, list_lookup_insert_eq by (by eapply lookup_lt_Some). }
  split; [done|]. rewrite H2, H3, H4, Ht, Hq, Hl1, length_insert. repeat (split; [done|]). split.
  - intros j Hj. by rewrite H5, Hl1, list_lookup_insert_ne.
  - intros l Hl Hcase. apply H6; [done|].
    destruct Hcase as [[->|?]%elem_of_cons|(l' & Hl' & Hclean)]; [|by left|]; right; eexists;
      (split; [exact Hi1|]).
    + destruct Hok as (v' & Hv' & <- & _). assert (v' = v) as -> by congruence.
      apply remove_ns_makes_clean.
    + assert (l' = l0) as -> by congruence. by apply remove_if_clean.
Qed.

(** *** The invariant of a request *)

(** A loop whose request has left the queue has no task of the namespace, and none is on its way. *)
Definition loops_clean (r : nat) (nm : string) (s : sched) : Prop :=
  forall i l q tq v, loops s !! i = Some l -> ns_promises_ s !! i = Some q ->
    task_promises_ s !! i = Some tq -> ns_values s !! r = Some v -> np_value v <> Some false ->
    r ∈ q \/ (loop_clean nm l /\ queue_clean nm tq).

Record unload_inv (r : nat) (nm : string) (s : sched) : Prop := {
  ui_loops : length (loops s) = k_scheduler_threads;
  ui_ns : length (ns_promises_ s) = k_scheduler_threads;
  ui_tasks : length (task_promises_ s) = k_scheduler_threads;
  ui_promise : promise_ok r nm 0 s;
  ui_clean : loops_clean r nm s
}.

(** The operations that do not add tasks of the namespace, with whole callbacks. *)
Definition harmless (nm : string) (o : sched_op T) : Prop :=
  match o with
  | AddTask _ _ _ nm' => nm' <> nm
  | AddTasks _ _ | RemoveNsRequests _ => False
  | _ => True
  end.

Lemma unload_add_task r nm task interval once nm' s s' x :
  unload_inv r nm s -> nm' <> nm -> real_scheduler.add_task task interval once nm' s = Ok (s', x) ->
  unload_inv r nm s'.
Proof.
  intros [H1 H2 H3 H4 H5] Hne. unfold real_scheduler.add_task.
  destruct (async_thread_pool.next_thread (threads_ s)) as [i pool].
  destruct (task_promises_ s !! i) as [tq|] eqn:Hi; [|done]. unfold try_push.
  destruct (_ <=? _).
  { intros [= <- _]. by constructor. }
  destruct (real_scheduler.signal_thread i _) as [s1|] eqn:Hs; [|done]. intros [= <- _].
  apply signal_same in Hs as (E1 & E2 & E3 & _ & E5). simpl in *.
  constructor; rewrite ?E1, ?E2, ?E3, ?length_insert; try done.
  - eapply promise_ok_same; [done|by rewrite E5|]. unfold in_queues. by rewrite E2.
  - intros j l q tq' v. rewrite E1, E2, E3, E5. intros Hl Hq Htq Hv Hf.
    destruct (decide (j = i)) as [->|Hj].
    + rewrite list_lookup_insert_eq in Htq by (by eapply lookup_lt_Some). injection Htq as <-.
      destruct (H5 i l q tq v Hl Hq Hi Hv Hf) as [?|[? ?]]; [by left|right]. split; [done|].
      apply Forall_app_2; [done|]. by repeat constructor.
    + rewrite list_lookup_insert_ne in Htq by done. by eapply H5.
Qed.

Lemma unload_remove_ns r nm nm' s s' x :
  unload_inv r nm s -> real_scheduler.remove_ns_tasks nm' s = Ok (s', x) -> unload_inv r nm s'.
Proof.
  intros [H1 H2 H3 H4 H5]. unfold real_scheduler.remove_ns_tasks.
  destruct (push_ns _ _ _) as [s1|] eqn:Hs; [|done]. intros [= <- _].
  assert (r <> length (ns_values s)) as Hr.
  { destruct H4 as (v & Hv & _). apply lookup_lt_Some in Hv. lia. }
  apply push_ns_spec in Hs as (E1 & E2 & E3 & E4 & E5 & _). simpl in *.
  destruct (E4 r Hr) as [E4v E4q].
  assert (ns_values s1 !! r = ns_values s !! r) as Hv.
  { rewrite E4v, lookup_app_l; [done|]. destruct H4 as (v & Hv & _). by eapply lookup_lt_Some. }
  constructor; rewrite ?E1, ?E2, ?E3; try done.
  - by eapply promise_ok_same.
  - intros i l q tq v. rewrite E1, E2, Hv. intros Hl Hq Htq Hv' Hf.
    destruct (lookup_lt_is_Some_2 (ns_promises_ s) i) as [q0 Hq0].
    { rewrite <- E3. by eapply lookup_lt_Some. }
    destruct (H5 i l q0 tq v Hl Hq0 Htq Hv' Hf) as [Hin|?]; [left|by right].
    destruct (E5 r i q0 Hq0 Hin) as (q' & Hq' & ?). congruence.
Qed.

Lemma unload_callback r nm now i s s' :
  unload_inv r nm s -> real_scheduler.async_callback now i s = Ok s' ->
  unload_inv r nm s' /\ (forall q, ns_promises_ s' !! i = Some q -> r ∉ q).
Proof.
  intros [H1 H2 H3 H4 H5]. unfold real_scheduler.async_callback, add_tasks.
  destruct (task_promises_ s !! i) as [tq|] eqn:Htq; [|done].
  destruct (loops s !! i) as [l|] eqn:Hl; [|done].
  destruct (add_timers now i tq l (task_values s)) as [l1 values] eqn:Htm. cbn [res_bind].
  unfold remove_ns_requests. simpl. destruct (ns_promises_ s !! i) as [rs|] eqn:Hrs; [|done].
  pose proof (lookup_lt_Some _ _ _ Htq) as Ht1. pose proof (lookup_lt_Some _ _ _ Hl) as Hl1.
  pose proof (lookup_lt_Some _ _ _ Hrs) as Hr1.
  set (s1 := Mk _ _ _ _ _ _). intros Hs.
  assert (promise_ok r nm (count r rs + 0) s1) as Hok1.
  { destruct H4 as (v & Hv & Hnm & Hok). exists v. split; [done|]. split; [done|].
    unfold in_queues in *. subst s1. cbn [ns_promises_].
    pose proof (sum_insert (count r) _ _ _ [] Hrs) as Hsum. unfold count at 4 in Hsum. simpl in Hsum.
    destruct (np_value v) as [[]|]; [lia|done|]. split; [rewrite (proj1 Hok); f_equal; lia|lia]. }
  destruct (remove_all_ns_spec i rs r nm 0 s1 s' Hs Hok1) as (E1 & E2 & E3 & E4 & E5 & E6).
  assert (ns_promises_ s' !! i = Some []) as Hempty.
  { by rewrite E3; subst s1; cbn [ns_promises_]; rewrite list_lookup_insert_eq. }
  split; [|intros q Hq; rewrite Hempty in Hq; injection Hq as <-; apply not_elem_of_nil].
  constructor; rewrite ?E2, ?E3, ?E4; subst s1; cbn [loops ns_promises_ task_promises_ ns_values] in *;
    rewrite ?length_insert; try done.
  intros j l' q tq' v' Hl' Hq Htq' Hv' Hf. rewrite E2 in Htq'. rewrite E3 in Hq.
  destruct H4 as (v & Hv & _).
  assert (np_value v <> Some false) as Hf0.
  { intros Hf0. destruct (remove_all_ns_refused _ _ r _ _ Hs) as (v2 & Hv2 & ?); [by exists v|].
    congruence. }
  destruct (decide (j = i)) as [->|Hne].
  - rewrite list_lookup_insert_eq in Htq' by done. injection Htq' as <-. right. split; [|constructor].
    apply (E6 l' Hl'). destruct (H5 i l rs tq v) as [?|[Hlc Hqc]]; [done..|by left|right].
    exists l1. split; [by rewrite list_lookup_insert_eq|].
    pose proof (add_timers_clean nm now i tq l (task_values s) Hlc Hqc) as Hc. by rewrite Htm in Hc.
  - rewrite list_lookup_insert_ne in Htq' by done. rewrite list_lookup_insert_ne in Hq by done.
    rewrite E5, list_lookup_insert_ne in Hl' by done. by eapply H5.
Qed.

Lemma unload_timer r nm clock i l w s :
  unload_inv r nm s -> loops s !! i = Some l ->
  unload_inv r nm (Mk (threads_ s) (task_promises_ s) (ns_promises_ s)
    (<[i := (timer_turn run_task clock l w).1]> (loops s)) (task_values s) (ns_values s)).
Proof.
  intros [H1 H2 H3 H4 H5] Hi. constructor; simpl; rewrite ?length_insert; try done.
  intros j l' q tq v. simpl. intros Hl Hq Htq Hv Hf. destruct (decide (j = i)) as [->|Hne].
  - rewrite list_lookup_insert_eq in Hl by (by eapply lookup_lt_Some). injection Hl as <-.
    destruct (H5 i l q tq v Hi Hq Htq Hv Hf) as [?|[? ?]]; [by left|right].
    split; [by apply timer_turn_clean|done].
  - rewrite list_lookup_insert_ne in Hl by done. by eapply H5.
Qed.

Lemma unload_step r nm o s w s' w' :
  unload_inv r nm s -> harmless nm o -> real_scheduler.step run_task o s w = Ok (s', w') ->
  unload_inv r nm s'.
Proof.
  intros Hinv Ho. destruct o as [task interval once nm'|nm'|now i|now i|i|clock i]; simpl in Ho;
    cbn [real_scheduler.step]; [| | |done..|].
  - destruct (real_scheduler.add_task _ _ _ _ s) as [[s1 x]|] eqn:Hs; [|done]. intros [= <- _].
    by eapply unload_add_task.
  - destruct (real_scheduler.remove_ns_tasks nm' s) as [[s1 x]|] eqn:Hs; [|done]. intros [= <- _].
    by eapply unload_remove_ns.
  - destruct (real_scheduler.async_callback now i s) as [s1|] eqn:Hs; [|done]. intros [= <- _].
    by eapply unload_callback.
  - destruct (loops s !! i) as [l|] eqn:Hi; [|done].
    pose proof (unload_timer r nm clock i l w s Hinv Hi) as Ht.
    destruct (timer_turn run_task clock l w) as [l' w1]. by intros [= <- _].
Qed.

Lemma unload_run r nm ops s w s' w' :
  unload_inv r nm s -> Forall (harmless nm) ops ->
  real_scheduler.run run_task ops s w = Ok (s', w') -> unload_inv r nm s'.
Proof.
  intros Hinv Hops. revert s w Hinv. induction Hops as [|o ops Ho _ IH]; intros s w Hinv;
    cbn [real_scheduler.run]; [by intros [= <- _]|].
  destruct (real_scheduler.step run_task o s w) as [[s1 w1]|] eqn:Hs; [|done]. cbn [res_bind].
  apply IH. by eapply unload_step.
Qed.

(** *** States of the scheduler *)

Record sched_wf (s : sched) : Prop := {
  wf_loops : length (loops s) = k_scheduler_threads;
  wf_ns : length (ns_promises_ s) = k_scheduler_threads;
  wf_tasks : length (task_promises_ s) = k_scheduler_threads;
  wf_fresh : forall i q r, ns_promises_ s !! i = Some q -> r ∈ q -> (r < length (ns_values s))%nat
}.

Lemma sched_new_wf s : real_scheduler.new = Ok s -> sched_wf s.
Proof.
  unfold real_scheduler.new. destruct (async_thread_pool.new _) as [pool|]; [|done]. intros [= <-].
  constructor; [done..|]. intros i q r Hq. simpl in Hq.
  apply (lookup_replicate_1 k_scheduler_threads) in Hq as [-> _]. by intros ?%elem_of_nil.
Qed.

Lemma push_ns_wf r ids s s' :
  push_ns r ids s = Ok s' -> (r < length (ns_values s))%nat -> sched_wf s ->
  sched_wf s' /\ length (ns_values s') = length (ns_values s).
Proof.
  revert s. induction ids as [|i ids IH]; intros s; [by intros [= <-]|].
  intros (s1 & (q & Hq & Ht & Hl & Hcase) & Hp)%push_ns_cons Hr [H1 H2 H3 H4].
  assert (length (ns_values s1) = length (ns_values s)) as Hlen.
  { destruct Hcase as [[_ ->]|[_ (v & _ & _ & ->)]]; [done|apply length_insert]. }
  destruct (IH s1 Hp) as [Hwf Hlen']; [by rewrite Hlen| |split; [done|congruence]].
  constructor; rewrite ?Ht, ?Hl; [done| |done|].
  - destruct Hcase as [[-> _]|[-> _]]; [by rewrite length_insert|done].
  - intros j q' r'. rewrite Hlen. destruct Hcase as [[-> _]|[-> _]]; [|apply H4].
    destruct (decide (j = i)) as [->|Hne]; [|rewrite list_lookup_insert_ne by done; apply H4].
    rewrite list_lookup_insert_eq by (by eapply lookup_lt_Some). intros [= <-].
    intros [?|?%list_elem_of_singleton]%elem_of_app; [by eapply H4|by subst].
Qed.

Lemma remove_all_ns_wf i rs s s' : remove_all_ns i rs s = Ok s' -> sched_wf s -> sched_wf s'.
Proof.
  revert s. induction rs as [|r rs IH]; intros s; cbn [remove_all_ns]; [by intros [= <-]|].
  destruct (remove_ns i r s) as [s1|] eqn:Hr; [|done]. cbn [res_bind]. intros Hs [H1 H2 H3 H4].
  apply (IH _ Hs). pose proof (remove_ns_frame _ _ _ _ Hr) as (Ht & Hq & v & l & _ & Hl & Hl1).
  constructor; rewrite ?Ht, ?Hq, ?Hl1, ?length_insert; try done.
  intros j q r'. assert (length (ns_values s1) = length (ns_values s)) as ->; [|apply H4].
  unfold remove_ns in Hr. destruct (ns_values s !! r) as [v'|]; [|done]. rewrite Hl in Hr.
  destruct (np_loops v' =? 1).
  - apply set_value_same in Hr as (v2 & _ & _ & ->). simpl. by rewrite !length_insert.
  - injection Hr as <-. simpl. by rewrite length_insert.
Qed.

Lemma remove_requests_wf i s s' : remove_ns_requests i s = Ok s' -> sched_wf s -> sched_wf s'.
Proof.
  intros Hs [H1 H2 H3 H4]. unfold remove_ns_requests in Hs.
  destruct (ns_promises_ s !! i) as [rs|] eqn:Hrs; [|done]. eapply remove_all_ns_wf; [done|].
  constructor; simpl; rewrite ?length_insert; try done. intros j q r.
  destruct (decide (j = i)) as [->|Hne]; [|rewrite list_lookup_insert_ne by done; apply H4].
  rewrite list_lookup_insert_eq by (by eapply lookup_lt_Some). intros [= <-] ?%elem_of_nil. done.
Qed.

Lemma add_tasks_wf now i s s' : add_tasks now i s = Ok s' -> sched_wf s -> sched_wf s'.
Proof.
  intros Hs [H1 H2 H3 H4]. unfold add_tasks in Hs.
  destruct (task_promises_ s !! i); [|done]. destruct (loops s !! i); [|done].
  destruct (add_timers _ _ _ _ _) as [l0 values]. injection Hs as <-.
  by constructor; simpl; rewrite ?length_insert.
Qed.

Lemma remove_ns_wf nm s s' r : real_scheduler.remove_ns_tasks nm s = Ok (s', r) -> sched_wf s -> sched_wf s'.
Proof.
  intros Hs [H1 H2 H3 H4]. unfold real_scheduler.remove_ns_tasks in Hs.
  destruct (push_ns _ _ _) as [s1|] eqn:Hp; [|done]. injection Hs as <- _.
  apply push_ns_wf in Hp as [? _]; [done| |].
  - simpl. rewrite length_app. simpl. lia.
  - constructor; simpl; try done. intros i q r' Hq Hin. rewrite length_app. simpl.
    pose proof (H4 i q r' Hq Hin). lia.
Qed.

Lemma sched_step_wf o s w s' w' :
  real_scheduler.step run_task o s w = Ok (s', w') -> sched_wf s -> sched_wf s'.
Proof.
  intros Hs Hwf. destruct o as [task interval once nm'|nm'|now i|now i|i|clock i];
    cbn [real_scheduler.step] in Hs.
  - destruct (real_scheduler.add_task _ _ _ _ s) as [[s1 x]|] eqn:Ha; [|done]. injection Hs as <- _.
    destruct Hwf as [H1 H2 H3 H4]. unfold real_scheduler.add_task in Ha.
    destruct (async_thread_pool.next_thread _) as [i pool]. destruct (task_promises_ s !! i); [|done].
    unfold try_push in Ha. destruct (_ <=? _); [injection Ha as <- _; by constructor|].
    destruct (real_scheduler.signal_thread i _) as [s2|] eqn:Hsig; [|done]. injection Ha as <- _.
    apply signal_same in Hsig as (E1 & E2 & E3 & _ & E5). simpl in *.
    constructor; rewrite ?E1, ?E2, ?E3, ?E5, ?length_insert; done.
  - destruct (real_scheduler.remove_ns_tasks nm' s) as [[s1 x]|] eqn:Ha; [|done]. injection Hs as <- _.
    by eapply remove_ns_wf.
  - unfold real_scheduler.async_callback in Hs.
    destruct (add_tasks now i s) as [s1|] eqn:Ha; [|done]. cbn [res_bind] in Hs.
    destruct (remove_ns_requests i s1) as [s2|] eqn:Hr; [|done]. injection Hs as <- _.
    eapply remove_requests_wf; [done|]. by eapply add_tasks_wf.
  - destruct (add_tasks now i s) as [s1|] eqn:Ha; [|done]. injection Hs as <- _. by eapply add_tasks_wf.
  - destruct (remove_ns_requests i s) as [s1|] eqn:Ha; [|done]. injection Hs as <- _.
    by eapply remove_requests_wf.
  - destruct (loops s !! i) as [l|]; [|done]. destruct (timer_turn _ _ _ _) as [l' w1].
    injection Hs as <- _. destruct Hwf. by constructor; simpl; rewrite ?length_insert.
Qed.

Lemma run_wf ops s w s' w' :
  real_scheduler.run run_task ops s w = Ok (s', w') -> sched_wf s -> sched_wf s'.
Proof.
  revert s w. induction ops as [|o ops IH]; intros s w; cbn [real_scheduler.run]; [by intros [= <- _]|].
  destruct (real_scheduler.step run_task o s w) as [[s1 w1]|] eqn:Hs; [|done]. cbn [res_bind].
  intros Hr Hwf. eapply IH; [done|]. by eapply sched_step_wf.
Qed.

Lemma request_inv nm s s' r :
  sched_wf s -> real_scheduler.remove_ns_tasks nm s = Ok (s', r) -> unload_inv r nm s'.
Proof.
  intros Hwf Hs. pose proof (remove_ns_wf _ _ _ _ Hs Hwf) as [W1 W2 W3 _].
  unfold real_scheduler.remove_ns_tasks in Hs.
  destruct (push_ns _ _ _) as [s1|] eqn:Hp; [|done]. injection Hs as <- <-.
  constructor; try done.
  - pose proof (push_ns_spec _ _ _ _ Hp) as (_ & _ & _ & _ & _ & Hok). apply (Hok nm 0%nat). clear Hok.
    eexists. simpl. rewrite list_lookup_middle by done. split; [done|]. split; [done|]. simpl.
    unfold in_queues. simpl. rewrite sum_all_0; [split; [reflexivity|simpl; lia]|]. intros i q Hq Hin.
    apply (wf_fresh _ Hwf i) in Hin; [lia|done].
  - intros i l q tq v Hl Hq Htq Hv Hf. left.
    assert (i ∈ seq 0 k_scheduler_threads) as Hi.
    { apply elem_of_seq. apply lookup_lt_Some in Hl. lia. }
    destruct (push_ns_in _ _ _ _ i v Hp Hi Hv Hf) as (q' & Hq' & ?). congruence.
Qed.

(** C15. Unloading a rule library.  When the future of [remove_ns_tasks(nm)] has got [true], no
    loop has a task of the namespace [nm] and none is on its way to one, whatever the
    scheduler was doing before and whatever else happens meanwhile, as long as no
    task of the namespace is added after the call and the threads
    are not interrupted between the two halves of their callbacks. *)
Theorem removed_namespace_clean (nm : string) (ops1 ops2 : list (sched_op T)) (s0 s1 s2 s3 : sched)
    (w0 w1 w3 : W) (r : nat) (v : ns_promise_t) :
  real_scheduler.new = Ok s0 -> real_scheduler.run run_task ops1 s0 w0 = Ok (s1, w1) ->
  real_scheduler.remove_ns_tasks nm s1 = Ok (s2, r) ->
  Forall (harmless nm) ops2 -> real_scheduler.run run_task ops2 s2 w1 = Ok (s3, w3) ->
  ns_values s3 !! r = Some v -> np_value v = Some true ->
  Forall (loop_clean nm) (loops s3) /\ Forall (queue_clean nm) (task_promises_ s3).
Proof.
  intros Hnew Hrun1 Hreq Hops Hrun2 Hv Ht.
  assert (unload_inv r nm s3) as [W1 W2 W3 Hok Hclean].
  { eapply unload_run; [|exact Hops|exact Hrun2]. eapply request_inv; [|exact Hreq].
    eapply run_wf; [exact Hrun1|]. by apply sched_new_wf. }
  destruct Hok as (v' & Hv' & _ & Hok). assert (v' = v) as -> by congruence. rewrite Ht in Hok.
  assert (forall i l tq, loops s3 !! i = Some l -> task_promises_ s3 !! i = Some tq ->
    loop_clean nm l /\ queue_clean nm tq) as Hall.
  { intros i l tq Hl Htq. destruct (lookup_lt_is_Some_2 (ns_promises_ s3) i) as [q Hq].
    { rewrite W2, <- W1. by eapply lookup_lt_Some. }
    destruct (Hclean i l q tq v Hl Hq Htq Hv) as [Hin|?]; [by rewrite Ht| |done].
    exfalso. eapply sum_0; [|exact Hq|exact Hin]. unfold in_queues in Hok. lia. }
  split; apply Forall_lookup_2.
  - intros i l Hl. destruct (lookup_lt_is_Some_2 (task_promises_ s3) i) as [tq Htq];
      [rewrite W3, <- W1; by eapply lookup_lt_Some|by eapply Hall].
  - intros i tq Htq. destruct (lookup_lt_is_Some_2 (loops s3) i) as [l Hl];
      [rewrite W1, <- W3; by eapply lookup_lt_Some|by eapply Hall].
Qed.

(** *** The future gets its value *)

(** The queue of thread [i] does not have the request. *)
Definition handled (r i : nat) (s : sched) : Prop := forall q, ns_promises_ s !! i = Some q -> r ∉ q.

Lemma push_ns_handled r r' ids i s s' : push_ns r' ids s = Ok s' -> r <> r' -> handled r i s -> handled r i s'.
Proof.
  intros Hp Hne. revert s Hp. induction ids as [|j ids IH]; intros s; [by intros [= <-]|].
  intros (s1 & (q & Hq & _ & _ & Hcase) & Hp)%push_ns_cons Hi. apply (IH s1 Hp).
  intros q1. destruct Hcase as [[-> _]|[-> _]]; [|apply Hi].
  destruct (decide (i = j)) as [->|Hij]; [|rewrite list_lookup_insert_ne by done; apply Hi].
  rewrite list_lookup_insert_eq by (by eapply lookup_lt_Some). intros [= <-].
  rewrite not_elem_of_app. split; [by apply Hi|]. by intros ?%list_elem_of_singleton.
Qed.

Lemma step_handled r nm o s w s' w' i :
  unload_inv r nm s -> harmless nm o -> real_scheduler.step run_task o s w = Ok (s', w') ->
  handled r i s -> handled r i s'.
Proof.
  intros Hinv Ho Hs Hi. destruct o as [task interval once nm'|nm'|now j|now j|j|clock j]; simpl in Ho;
    cbn [real_scheduler.step] in Hs; [| | |done..|].
  - destruct (real_scheduler.add_task _ _ _ _ s) as [[s1 x]|] eqn:Ha; [|done]. injection Hs as <- _.
    unfold real_scheduler.add_task in Ha. destruct (async_thread_pool.next_thread _) as [j pool].
    destruct (task_promises_ s !! j); [|done]. unfold try_push in Ha. destruct (_ <=? _).
    { injection Ha as <- _. exact Hi. }
    destruct (real_scheduler.signal_thread j _) as [s2|] eqn:Hsig; [|done]. injection Ha as <- _.
    unfold handled. apply signal_same in Hsig as (_ & -> & _). exact Hi.
  - destruct (real_scheduler.remove_ns_tasks nm' s) as [[s1 x]|] eqn:Ha; [|done]. injection Hs as <- _.
    unfold real_scheduler.remove_ns_tasks in Ha. destruct (push_ns _ _ _) as [s2|] eqn:Hp; [|done].
    injection Ha as <- _. destruct Hinv as [_ _ _ (v & Hv & _) _].
    eapply push_ns_handled; [exact Hp| |exact Hi]. apply lookup_lt_Some in Hv. lia.
  - destruct (real_scheduler.async_callback now j s) as [s1|] eqn:Hc; [|done]. injection Hs as <- _.
    destruct (decide (i = j)) as [->|Hne]; [by apply (unload_callback r nm) in Hc as [_ ?]|].
    unfold real_scheduler.async_callback, add_tasks in Hc.
    destruct (task_promises_ s !! j); [|done]. destruct (loops s !! j); [|done].
    destruct (add_timers _ _ _ _ _) as [l1 values]. cbn [res_bind] in Hc.
    unfold remove_ns_requests in Hc. simpl in Hc. destruct (ns_promises_ s !! j) as [rs|]; [|done].
    apply remove_all_ns_queues in Hc. unfold handled. rewrite Hc. simpl.
    rewrite list_lookup_insert_ne by done. exact Hi.
  - destruct (loops s !! j) as [l|]; [|done]. destruct (timer_turn _ _ _ _) as [l' w1].
    injection Hs as <- _. exact Hi.
Qed.

Lemma run_handled r nm ops s w s' w' i :
  unload_inv r nm s -> Forall (harmless nm) ops -> real_scheduler.run run_task ops s w = Ok (s', w') ->
  handled r i s \/ (exists now, AsyncCallback now i ∈ ops) -> handled r i s'.
Proof.
  intros Hinv Hops. revert s w Hinv. induction Hops as [|o ops Ho Hops IH]; intros s w Hinv;
    cbn [real_scheduler.run].
  { intros [= <- _] [?|(now & ?%elem_of_nil)]; done. }
  destruct (real_scheduler.step run_task o s w) as [[s1 w1]|] eqn:Hs; [|done]. cbn [res_bind].
  intros Hr Hi. pose proof (unload_step _ _ _ _ _ _ _ Hinv Ho Hs) as Hinv1.
  apply (IH s1 w1 Hinv1 Hr). destruct Hi as [Hi|(now & [<-|?]%elem_of_cons)]; [left|left|right].
  - exact (step_handled _ _ _ _ _ _ _ _ Hinv Ho Hs Hi).
  - cbn [real_scheduler.step] in Hs.
    destruct (real_scheduler.async_callback now i s) as [s2|] eqn:Hc; [|done]. injection Hs as <- _.
    by apply (unload_callback r nm) in Hc as [_ ?].
  - by exists now.
Qed.

End remove_ns.

(** ** Concrete runs *)

Section runs.
Import real_scheduler.

Definition sample_task (f : string) (w : list string) : list string * list Z := (w ++ [f], []).
Abbreviation sample_run := (real_scheduler.run (Q := heap) sample_task).

(** Two tasks of a library and one of another, on the two loops. *)
Definition before_unload : list (sched_op string) :=
  [ AddTask "a" (f_of_Z 1) false "lib"; AddTask "b" (f_of_Z 1) false "other"
  ; AsyncCallback 100 1; AddTask "c" (f_of_Z 1) true "lib"; TimerTurn (fun _ => 5000) 1 ].
Definition after_unload : list (sched_op string) :=
  [ AddTask "d" (f_of_Z 1) true "other"; AsyncCallback 200 0; AsyncCallback 200 1 ].

Definition unloaded : result (real_scheduler.t heap string * real_scheduler.t heap string * nat) :=
  res_bind (fun s0 =>
    res_bind (fun '(s1, w1) =>
      res_bind (fun '(s2, r) =>
          res_map (fun '(s3, _) => (s2, s3, r)) (sample_run after_unload s2 w1))
        (real_scheduler.remove_ns_tasks "lib" s1))
      (sample_run before_unload s0 [])) real_scheduler.new.

Lemma removed_namespace_clean_witness :
  match unloaded with
  | Ok (_, s3, r) =>
      np_value <$> ns_values s3 !! r = Some (Some true)
      /\ Forall (loop_clean "lib") (loops s3) /\ Forall (queue_clean "lib") (task_promises_ s3)
  | Throw _ => False
  end.
Proof.
  unfold unloaded. destruct real_scheduler.new as [s0|] eqn:H0; [|discriminate H0]. cbn [res_bind].
  destruct (sample_run before_unload s0 []) as [[s1 w1]|] eqn:H1;
    [|injection H0 as <-; vm_compute in H1; discriminate H1]. cbn [res_bind].
  destruct (real_scheduler.remove_ns_tasks "lib" s1) as [[s2 r]|] eqn:H2;
    [|injection H0 as <-; vm_compute in H1; injection H1 as <- <-; vm_compute in H2; discriminate H2].
  cbn [res_bind]. destruct (sample_run after_unload s2 w1) as [[s3 w3]|] eqn:H3; cycle 1.
  { exfalso. injection H0 as <-. vm_compute in H1. injection H1 as <- <-. vm_compute in H2.
    injection H2 as <- <-. vm_compute in H3. discriminate H3. }
  cbn [res_map].
  assert (exists v, ns_values s3 !! r = Some v /\ np_value v = Some true) as (v & Hv & Ht).
  { injection H0 as <-. vm_compute in H1. injection H1 as <- <-. vm_compute in H2.
    injection H2 as <- <-. vm_compute in H3. injection H3 as <- _. vm_compute. by eexists. }
  split; [by rewrite Hv; simpl; rewrite Ht|].
  apply (removed_namespace_clean (Q := heap) sample_task "lib" before_unload after_unload s0 s1 s2 s3
    [] w1 w3 r v); try assumption.
  repeat constructor; discriminate.
Defined.


(** A thread that is between the two halves of its callback misses a task that was added
    just before the request: the future says [true] and the task is still to come. *)
Example unload_race :
  match res_bind (fun s0 =>
      sample_run [ AddTasks 100 1; AddTask "a" (f_of_Z 1) false "lib"; RemoveNs "lib"
                 ; RemoveNsRequests 1; AsyncCallback 100 0; AsyncCallback 200 1 ] s0 [])
    real_scheduler.new with
  | Ok (s, _) => np_value <$> ns_values s !! 0%nat = Some (Some true)
                 /\ ~ Forall (loop_clean "lib") (loops s)
  | Throw _ => False
  end.
Proof.
  vm_compute. split; [done|]. intros HF. apply Forall_cons_iff in HF as [_ HF].
  apply Forall_cons_iff in HF as [HF _]. vm_compute in HF. apply Forall_cons_iff in HF as [HF _].
  by apply HF.
Qed.
End runs.
