(* ===== verification/StreamLib.v ===== *)
(** * Rule libraries in use: the reference counter

    [src/streams/lib.cpp] and the part of [src/rules_loader.cpp] that unloads a library
    while other threads push events through it.  The counter is one atomic
    [unsigned int]: bit 0 says whether the library may be used, the bits above
    count the threads inside it.

    Worker threads run [push_stream]: [inc()], push, [dec()]; [inc] and [dec] are
    compare-and-swap loops, of which every load and every exchange is one step.
    The loader runs [close_library] and [load_library].  The threads interleave
    arbitrarily. *)

From S2P Require Import Prelude.

Local Open Scope Z_scope.

(** ** The bit fields of the counter, at 32 bits *)

Definition used_bit (c : Z) : bool := Z.testbit c 0.               (** [c & 1] *)
Definition inc_val (current : Z) : Z :=
  wrap32 (Z.lor (Z.shiftl (wrap32 (Z.shiftr current 1 + 1)) 1) 1).
Definition dec_val (current : Z) : Z :=
  wrap32 (Z.lor (Z.shiftl (wrap32 (Z.shiftr current 1 - 1)) 1) (Z.land current 1)).
Definition set_used_val (used : bool) (c : Z) : Z :=
  if used then Z.lor c 1 else Z.land c (wrap32 (Z.lnot 1)).

(** ** Threads *)

(** Where a worker is in [push_stream]. *)
Inductive worker_pc : Type :=
| WOut                          (** not in [push_stream] *)
| WInc (current : Z)            (** in [inc], with the value it loaded *)
| WIn                           (** pushing the event *)
| WDec (current : Z).           (** in [dec], with the value it loaded *)

(** Where the loader is. *)
Inductive loader_pc : Type :=
| LIdle                         (** the library is loaded and in use *)
| LWait                         (** [close_library], waiting for the counter *)
| LUnload                       (** past the wait, about to [dlclose] *)
| LStale                        (** closing failed: out of use, still mapped *)
| LClosed.                      (** the library is not mapped *)

Record lib_state : Type := MkLib {
  ref_counter : Z;
  mapped : bool;                (** the code of the library is in memory *)
  loader : loader_pc;
  workers : list worker_pc
}.

Definition set_worker (i : nat) (p : worker_pc) (s : lib_state) : lib_state :=
  MkLib (ref_counter s) (mapped s) (loader s) (<[i := p]> (workers s)).
Definition set_counter (c : Z) (s : lib_state) : lib_state :=
  MkLib c (mapped s) (loader s) (workers s).
Definition set_loader (p : loader_pc) (s : lib_state) : lib_state :=
  MkLib (ref_counter s) (mapped s) p (workers s).

Inductive lib_step : lib_state -> lib_state -> Prop :=
(** [inc()] *)
| step_inc_load s i :
    workers s !! i = Some WOut ->
    lib_step s (set_worker i (WInc (ref_counter s)) s)
| step_inc_unused s i current :
    workers s !! i = Some (WInc current) -> used_bit current = false ->
    lib_step s (set_worker i WOut s)
| step_inc_success s i current :
    workers s !! i = Some (WInc current) -> used_bit current = true ->
    ref_counter s = current ->
    lib_step s (set_counter (inc_val current) (set_worker i WIn s))
| step_inc_retry s i current :
    workers s !! i = Some (WInc current) -> used_bit current = true ->
    ref_counter s <> current ->
    lib_step s (set_worker i (WInc (ref_counter s)) s)
(** [dec()], after the event was pushed *)
| step_dec_load s i :
    workers s !! i = Some WIn ->
    lib_step s (set_worker i (WDec (ref_counter s)) s)
| step_dec_success s i current :
    workers s !! i = Some (WDec current) -> ref_counter s = current ->
    lib_step s (set_counter (dec_val current) (set_worker i WOut s))
| step_dec_retry s i current :
    workers s !! i = Some (WDec current) -> ref_counter s <> current ->
    lib_step s (set_worker i (WDec (ref_counter s)) s)
(** [close_library] *)
| step_set_unused s :
    loader s = LIdle ->
    lib_step s (set_loader LWait (set_counter (set_used_val false (ref_counter s)) s))
| step_wait_done s :
    loader s = LWait -> ref_counter s = 0 ->
    lib_step s (set_loader LUnload s)
| step_dlclose s :
    loader s = LUnload ->
    lib_step s (MkLib (ref_counter s) false LClosed (workers s))
| step_close_failed s :
    loader s = LUnload -> lib_step s (set_loader LStale s)
(** [load_library]: the new code is mapped before the slot is marked used *)
| step_load s :
    loader s = LClosed \/ loader s = LStale ->
    lib_step s (MkLib (set_used_val true (ref_counter s)) true LIdle (workers s)).

(** A library that has just been loaded, with [n] worker threads outside. *)
Definition lib_init (n : nat) : lib_state := MkLib 1 true LIdle (replicate n WOut).

Inductive reachable (n : nat) : lib_state -> Prop :=
| reach_init : reachable n (lib_init n)
| reach_step s s' : reachable n s -> lib_step s s' -> reachable n s'.

(** ** The invariant *)

(** A worker that the counter counts. *)
Definition inside (p : worker_pc) : bool :=
  match p with WIn | WDec _ => true | _ => false end.
Definition count_inside (l : list worker_pc) : nat :=
  length (filter (fun p => inside p = true) l).

Definition loader_used (p : loader_pc) : bool :=
  match p with LIdle => true | _ => false end.

Record lib_inv (n : nat) (s : lib_state) : Prop := {
  inv_threads : length (workers s) = n;
  inv_counter : ref_counter s =
    2 * Z.of_nat (count_inside (workers s)) + Z.b2z (loader_used (loader s));
  inv_closed : loader s = LUnload \/ loader s = LStale \/ loader s = LClosed ->
    count_inside (workers s) = 0%nat;
  inv_mapped : mapped s = false <-> loader s = LClosed
}.

Lemma count_inside_insert l i p q :
  l !! i = Some p ->
  (count_inside (<[i := q]> l) + Z.to_nat (Z.b2z (inside p)) =
   count_inside l + Z.to_nat (Z.b2z (inside q)))%nat.
Proof.
  intros Hi. rewrite insert_take_drop by (by eapply lookup_lt_Some).
  unfold count_inside. rewrite <- (take_drop_middle l i p Hi) at 3.
  rewrite !list.filter_app, !length_app, !filter_cons.
  destruct (inside p), (inside q); simpl; lia.
Qed.

Lemma count_inside_le l : (count_inside l <= length l)%nat.
Proof. apply length_filter. Qed.

(** *** The arithmetic of the bit fields *)

Lemma land_pair a b x y :
  Z.land (2 * a + Z.b2z x) (2 * b + Z.b2z y) = 2 * Z.land a b + Z.b2z (x && y).
Proof.
  apply Z.bits_inj'. intros n Hn. rewrite Z.land_spec.
  destruct (Z.eq_dec n 0) as [->|Hn0]; [by rewrite !Z.testbit_0_r|].
  replace n with (Z.succ (Z.pred n)) by lia.
  by rewrite !Z.testbit_succ_r, Z.land_spec by lia.
Qed.

Lemma lor_pair a b x y :
  Z.lor (2 * a + Z.b2z x) (2 * b + Z.b2z y) = 2 * Z.lor a b + Z.b2z (x || y).
Proof.
  apply Z.bits_inj'. intros n Hn. rewrite Z.lor_spec.
  destruct (Z.eq_dec n 0) as [->|Hn0]; [by rewrite !Z.testbit_0_r|].
  replace n with (Z.succ (Z.pred n)) by lia.
  by rewrite !Z.testbit_succ_r, Z.lor_spec by lia.
Qed.

Lemma shiftr_pair k b : Z.shiftr (2 * k + Z.b2z b) 1 = k.
Proof.
  apply Z.bits_inj'. intros n Hn. rewrite Z.shiftr_spec by lia.
  rewrite Z.add_1_r. by rewrite Z.testbit_succ_r.
Qed.

Lemma shiftl_1 k : Z.shiftl k 1 = 2 * k + Z.b2z false.
Proof. rewrite Z.shiftl_mul_pow2 by lia. simpl. lia. Qed.

Lemma used_bit_pair k b : used_bit (2 * k + Z.b2z b) = b.
Proof. apply Z.testbit_0_r. Qed.

Lemma inc_val_pair k :
  0 <= k < 2 ^ 31 - 1 -> inc_val (2 * k + Z.b2z true) = 2 * (k + 1) + Z.b2z true.
Proof.
  intros Hk. unfold inc_val, wrap32, two32. rewrite shiftr_pair.
  rewrite (Z.mod_small (k + 1)) by lia. rewrite shiftl_1.
  change 1 with (2 * 0 + Z.b2z true) at 2. rewrite lor_pair, Z.lor_0_r. simpl orb.
  apply Z.mod_small. simpl. lia.
Qed.

Lemma dec_val_pair k b :
  0 < k < 2 ^ 31 -> dec_val (2 * k + Z.b2z b) = 2 * (k - 1) + Z.b2z b.
Proof.
  intros Hk. unfold dec_val, wrap32, two32. rewrite shiftr_pair.
  rewrite (Z.mod_small (k - 1)) by lia. rewrite shiftl_1.
  change 1 with (2 * 0 + Z.b2z true) at 2. rewrite land_pair, Z.land_0_r, andb_true_r.
  rewrite lor_pair, Z.lor_0_r. simpl orb.
  apply Z.mod_small. destruct b; simpl; lia.
Qed.

Lemma set_used_pair k b used :
  0 <= k < 2 ^ 31 -> set_used_val used (2 * k + Z.b2z b) = 2 * k + Z.b2z used.
Proof.
  intros Hk. unfold set_used_val. destruct used.
  - change 1 with (2 * 0 + Z.b2z true) at 1. by rewrite lor_pair, Z.lor_0_r, orb_true_r.
  - change (wrap32 (Z.lnot 1)) with (2 * Z.ones 31 + Z.b2z false).
    rewrite land_pair, andb_false_r, Z.land_ones, Z.mod_small by lia. done.
Qed.

(** *** Preservation *)

Lemma lib_init_inv n : lib_inv n (lib_init n).
Proof.
  assert (count_inside (replicate n WOut) = 0%nat) as Hc
    by (unfold count_inside; by induction n).
  split; simpl; rewrite ?Hc, ?length_replicate; done.
Qed.

(** A worker that moves without entering or leaving. *)
Lemma set_worker_inv n s i p q :
  lib_inv n s -> workers s !! i = Some p -> inside p = inside q ->
  lib_inv n (set_worker i q s).
Proof.
  intros [Hn Hc Hcl Hm] Hi Hpq.
  assert (count_inside (<[i := q]> (workers s)) = count_inside (workers s)) as He.
  { pose proof (count_inside_insert _ i p q Hi) as H. rewrite Hpq in H. lia. }
  split; simpl; rewrite ?He, ?length_insert; auto.
Qed.

Lemma lib_inv_enter n s i current :
  Z.of_nat n < 2 ^ 31 -> lib_inv n s ->
  workers s !! i = Some (WInc current) -> used_bit current = true -> ref_counter s = current ->
  lib_inv n (set_counter (inc_val current) (set_worker i WIn s)).
Proof.
  intros Hlt [Hn Hc Hcl Hm] Hi Hu <-. rewrite Hc, used_bit_pair in Hu.
  pose proof (count_inside_insert _ i _ WIn Hi) as Hcount. simpl in Hcount.
  pose proof (count_inside_le (<[i := WIn]> (workers s))) as Hle.
  rewrite length_insert in Hle.
  split; simpl; rewrite ?length_insert; auto.
  - rewrite Hc, Hu, inc_val_pair by lia. lia.
  - by destruct (loader s); intros [?|[?|?]].
Qed.

Lemma lib_inv_leave n s i current :
  Z.of_nat n < 2 ^ 31 -> lib_inv n s ->
  workers s !! i = Some (WDec current) -> ref_counter s = current ->
  lib_inv n (set_counter (dec_val current) (set_worker i WOut s)).
Proof.
  intros Hlt [Hn Hc Hcl Hm] Hi <-.
  pose proof (count_inside_insert _ i _ WOut Hi) as Hcount. simpl in Hcount.
  pose proof (count_inside_le (workers s)) as Hle.
  split; simpl; rewrite ?length_insert; auto.
  - rewrite Hc, dec_val_pair by lia. lia.
  - intros Hl. specialize (Hcl Hl). lia.
Qed.

Lemma lib_step_inv n s s' :
  Z.of_nat n < 2 ^ 31 -> lib_inv n s -> lib_step s s' -> lib_inv n s'.
Proof.
  intros Hlt Hinv Hstep.
  assert (Z.of_nat (count_inside (workers s)) < 2 ^ 31) as Hcnt.
  { pose proof (count_inside_le (workers s)). rewrite (inv_threads _ _ Hinv) in *. lia. }
  destruct Hstep as [s i Hi|s i c Hi Hu|s i c Hi Hu Hc|s i c Hi Hu Hc|s i Hi|s i c Hi Hc
    |s i c Hi Hc|s Hl|s Hl Hz|s Hl|s Hl|s Hl].
  1,2,4,5,7: by eapply set_worker_inv.
  1: by apply lib_inv_enter.
  1: by apply lib_inv_leave.
  all: destruct Hinv as [Hn Hc Hcl Hm].
  - rewrite Hl in *. split; simpl; auto; try (by intros [?|[?|?]]).
    + rewrite Hc. apply (set_used_pair _ _ false). lia.
    + split; [|done]. intros Hf. by apply Hm in Hf.
  - rewrite Hl in *. simpl in Hc. split; simpl; auto; try lia.
    split; [|done]. intros Hf. by apply Hm in Hf.
  - rewrite Hl in *. split; simpl; auto. by split.
  - rewrite Hl in *. split; simpl; auto. split; [|done]. intros Hf. by apply Hm in Hf.
  - assert (count_inside (workers s) = 0%nat) as Hz by (apply Hcl; tauto).
    split; simpl; try done; try (by intros [?|[?|?]]).
    rewrite Hc, Hz. by destruct Hl as [-> | ->].
Qed.

Lemma reachable_inv n s : Z.of_nat n < 2 ^ 31 -> reachable n s -> lib_inv n s.
Proof.
  intros Hn. induction 1; [apply lib_init_inv|]. by eapply lib_step_inv.
Qed.

(** ** Properties *)

Lemma none_inside l : count_inside l = 0%nat -> Forall (fun p => inside p = false) l.
Proof.
  unfold count_inside. intros Hc. apply list.Forall_forall. intros p Hp.
  destruct (inside p) eqn:Hi; [|done].
  assert (p ∈ filter (fun p => inside p = true) l) as Hin by (by apply list_elem_of_filter).
  apply nil_length_inv in Hc. rewrite Hc in Hin. by apply not_elem_of_nil in Hin.
Qed.

(** C8. A library is never unmapped under a thread: in every state that any
    interleaving of the workers and the loader can reach, if the code of the
    library is not in memory, or is about to be removed, no worker is pushing an
    event through it, and no next step lets one in. *)
Theorem no_push_after_unload (n : nat) (s : lib_state) :
  Z.of_nat n < 2 ^ 31 -> reachable n s ->
  mapped s = false \/ loader s = LUnload ->
  Forall (fun p => p <> WIn) (workers s)
  /\ forall s', lib_step s s' -> Forall (fun p => p <> WIn) (workers s').
Proof.
  intros Hn Hs Hm. pose proof (reachable_inv n s Hn Hs) as [Ht Hc Hcl Hmap].
  assert (count_inside (workers s) = 0%nat /\ loader_used (loader s) = false) as [Hz Hl].
  { destruct Hm as [Hm|Hm]; [apply Hmap in Hm|]; rewrite Hm in *; split; auto. }
  rewrite Hz, Hl in Hc. simpl in Hc. apply none_inside in Hz.
  assert (Forall (fun p => p <> WIn) (workers s)) as HF
    by (revert Hz; apply Forall_impl; by intros [] ?).
  split; [done|]. intros s' Hstep.
  destruct Hstep; simpl; try done; try (apply Forall_insert; done).
  by match goal with H : ref_counter _ = ?c, Hu : used_bit ?c = true |- _ =>
    rewrite <- H, Hc in Hu end.
Qed.

Lemma no_push_after_unload_witness :
  let s := MkLib 0 false LClosed [WOut; WOut] in
  Forall (fun p => p <> WIn) (workers s)
  /\ forall s', lib_step s s' -> Forall (fun p => p <> WIn) (workers s').
Proof.
  apply (no_push_after_unload 2); [lia| |by left].
  eapply (reach_step _ (MkLib 0 true LUnload [WOut; WOut]));
    [|by apply (step_dlclose (MkLib 0 true LUnload [WOut; WOut]))].
  eapply (reach_step _ (MkLib 0 true LWait [WOut; WOut]));
    [|by apply (step_wait_done (MkLib 0 true LWait [WOut; WOut]))].
  eapply reach_step; [apply reach_init|].
  apply (step_set_unused (lib_init 2)). reflexivity.
Defined.

(** [close_library] waits exactly as long as it has to: while it waits, the counter
    reads zero, and the wait may end, as soon as no worker is inside any more,
    and not before; workers that only try to get in do not delay it. *)
Theorem close_waits_for_workers (n : nat) (s : lib_state) :
  Z.of_nat n < 2 ^ 31 -> reachable n s -> loader s = LWait ->
  (ref_counter s = 0 <-> Forall (fun p => inside p = false) (workers s)).
Proof.
  intros Hn Hs Hl. pose proof (reachable_inv n s Hn Hs) as [Ht Hc Hcl Hmap].
  rewrite Hl in Hc. simpl in Hc. rewrite Hc. split.
  - intros Hz. apply none_inside. lia.
  - intros HF. unfold count_inside. rewrite filter_none; [done|].
    revert HF. apply Forall_impl. by intros p ->.
Qed.

Lemma close_waits_for_workers_witness :
  let s := set_loader LWait (MkLib 2 true LIdle [WIn; WOut]) in
  ref_counter s = 0 <-> Forall (fun p => inside p = false) (workers s).
Proof.
  apply (close_waits_for_workers 2); [lia| |reflexivity].
  eapply (reach_step _ (MkLib 3 true LIdle [WIn; WOut]));
    [|apply (step_set_unused (MkLib 3 true LIdle [WIn; WOut])); reflexivity].
  eapply (reach_step _ (MkLib 1 true LIdle [WInc 1; WOut]));
    [|by apply (step_inc_success (MkLib 1 true LIdle [WInc 1; WOut]) 0 1)].
  eapply reach_step; [apply reach_init|]. by apply (step_inc_load (lib_init 2) 0).
Defined.
