(* ===== verification/Dispatch.v ===== *)
(** * Dispatching events to the rule libraries

    The class [streams] of [src/streams/stream_functions.cpp] and [load_rules] of
    [src/rules_loader.cpp], as one thread sees them ([StreamLib] has the
    interleavings).  A slot of the table of libraries holds the stream of a
    library, initialised. *)

From S2P Require Import Prelude Events Infra.

Local Open Scope Z_scope.

(** ** Slots *)

(** An initialised stream and the state of its nodes. *)
Record loaded : Type := MkLoaded {
  l_chain : list machine;
  l_state : chain_state l_chain
}.

(** [stream_lib]; [used] is bit 0 of the reference counter. *)
Record stream_lib : Type := MkSlot {
  file : string;
  last_write_time : Z;
  handle : bool;                    (** not null *)
  stream : option loaded;
  used : bool
}.

Definition empty_slot : stream_lib := MkSlot "" 0 false None false.
Definition k_streams : nat := 10.

Definition set_stream (l : loaded) (s : stream_lib) : stream_lib :=
  MkSlot (file s) (last_write_time s) (handle s) (Some l) (used s).

(** ** Pushing events *)

(** [push_stream]: an exception of a stream is logged and dropped; undefined
    behaviour is not an exception. *)
Definition push_stream (now : clock) (e : Event) (s : stream_lib)
  : stream_lib * list effect * result unit :=
  match used s, stream s with
  | true, Some l =>
      let '(st, w, r) := chain_push (l_chain l) e now (l_state l) in
      (set_stream (MkLoaded (l_chain l) st) s, w,
       match r with Throw undefined_behaviour => Throw undefined_behaviour | _ => Ok () end)
  | _, _ => (s, [], Ok ())
  end.

(** The event a library sees: one without a time gets the clock's. *)
Definition stamp (now : clock) (e : Event) : Event :=
  if decide (Event.state e = "expired") then e
  else if Event.has_time e then e
  else Event.set_time now e.

Fixpoint push_slots (now : clock) (e : Event) (slots : list stream_lib)
  : list stream_lib * list effect * result unit :=
  match slots with
  | [] => ([], [], Ok ())
  | s :: slots' =>
      if negb (used s) then
        let '(slots', w, r) := push_slots now e slots' in (s :: slots', w, r)
      else
        match push_stream now (stamp now e) s with
        | (s, w, Throw x) => (s :: slots', w, Throw x)
        | (s, w, Ok ()) =>
            let '(slots', w', r) := push_slots now e slots' in (s :: slots', w ++ w', r)
        end
  end.

Record streams : Type := MkStreams {
  streams_ : list stream_lib;
  stop_ : bool
}.

Definition streams_new : streams := MkStreams (replicate k_streams empty_slot) false.

(** The rate and the latencies that are reported on the way are not in the state. *)
Definition streams_push_event (now : clock) (e : Event) (s : streams)
  : streams * list effect * result unit :=
  if stop_ s then (s, [], Ok ())
  else let '(slots, w, r) := push_slots now e (streams_ s) in (MkStreams slots (stop_ s), w, r).

Fixpoint push_events (now : clock) (es : list Event) (s : streams)
  : streams * list effect * result unit :=
  match es with
  | [] => (s, [], Ok ())
  | e :: es' =>
      match streams_push_event now e s with
      | (s, w, Throw x) => (s, w, Throw x)
      | (s, w, Ok ()) => let '(s, w', r) := push_events now es' s in (s, w ++ w', r)
      end
  end.

(** The events of one message, at one clock reading. *)
Definition process_message (now : clock) (events : list Event) (s : streams)
  : streams * list effect * result unit :=
  if stop_ s then (s, [], Ok ()) else push_events now events s.

Definition stop (s : streams) : streams := MkStreams (streams_ s) true.

(** ** Loading rules *)

Section load_rules.
(** Opening a library: [dlopen], [dlsym] of "rules" and the call of it, by file name and
    modification time.  Closing one: removal of its tasks and [dlclose]. *)
Variable open_library : string -> Z -> option (list stream_node_t).
Variable close_ok : string -> bool.

(** [regex_match(file, ".*\.so")]; [.] matches neither a line feed nor a carriage return. *)
Fixpoint is_so (s : string) : bool :=
  if decide (s = ".so") then true
  else match s with
       | EmptyString => false
       | String c s' => if decide (c = "010" \/ c = "013")%char then false else is_so s'
       end.
Definition so_files (dir : list (string * Z)) : list (string * Z) :=
  filter (fun p => is_so p.1 = true) dir.

(** [close_library]: the slot goes out of use whether or not closing succeeds; its
    stream is kept. *)
Definition close_library (s : stream_lib) : stream_lib * bool :=
  if close_ok (file s)
  then (MkSlot (file s) (last_write_time s) false (stream s) false, true)
  else (MkSlot (file s) (last_write_time s) (handle s) (stream s) false, false).

(** Not in the state of a slot: the tasks that the nodes register with the scheduler
    when they are initialised. *)
Definition load_library (now : clock) (lib : string * Z) (s : stream_lib) : stream_lib :=
  match open_library lib.1 lib.2 with
  | None => s
  | Some nodes =>
      let c := init_streams nodes in
      MkSlot lib.1 lib.2 true (Some (MkLoaded c (chain_init 0 c now).1)) true
  end.

(** The index of the last used slot with each file name. *)
Fixpoint make_curr_map (i : nat) (slots : list stream_lib) (m : gmap string nat)
  : gmap string nat :=
  match slots with
  | [] => m
  | s :: slots' => make_curr_map (S i) slots' (if used s then <[file s := i]> m else m)
  end.

(** The first slot that is not in use. *)
Fixpoint first_unused (i : nat) (slots : list stream_lib) : option nat :=
  match slots with
  | [] => None
  | s :: slots' => if used s then first_unused (S i) slots' else Some i
  end.

(** Replacing the library of slot [i]. *)
Definition reload_slot (now : clock) (lib : string * Z) (i : nat) (slots : list stream_lib)
  : list stream_lib :=
  match slots !! i with
  | None => slots
  | Some s =>
      if decide (last_write_time s = lib.2) then slots
      else let '(s, ok) := close_library s in
           <[i := if ok then load_library now lib s else s]> slots
  end.

(** The loop over the files found. *)
Fixpoint load_loop (now : clock) (curr_map : gmap string nat) (libs : list (string * Z))
    (unused : gset string) (slots : list stream_lib) : gset string * list stream_lib :=
  match libs with
  | [] => (unused, slots)
  | lib :: libs' =>
      let unused := unused ∖ {[lib.1]} in
      let slots :=
        match curr_map !! lib.1 with
        | Some i => reload_slot now lib i slots
        | None =>
            match first_unused 0 slots with
            | None => slots
            | Some i => match slots !! i with
                        | Some s => <[i := load_library now lib s]> slots
                        | None => slots
                        end
            end
        end in
      load_loop now curr_map libs' unused slots
  end.

(** Closing the libraries whose files are gone, in some order. *)
Definition close_unused (curr_map : gmap string nat) (slots : list stream_lib) (f : string)
  : list stream_lib :=
  match curr_map !! f with
  | Some i => match slots !! i with
              | Some s => <[i := (close_library s).1]> slots
              | None => slots
              end
  | None => slots
  end.

Definition load_rules (now : clock) (dir : list (string * Z)) (slots : list stream_lib)
  : list stream_lib :=
  let curr_map := make_curr_map 0 slots ∅ in
  let '(unused, slots) := load_loop now curr_map (so_files dir) (dom curr_map) slots in
  foldl (close_unused curr_map) slots (elements unused).

Definition reload_rules (now : clock) (dir : list (string * Z)) (s : streams) : streams :=
  MkStreams (load_rules now dir (streams_ s)) (stop_ s).
End load_rules.

(** ** Isolation of the libraries *)

(** Messages, each processed at its own clock reading. *)
Fixpoint process_messages (ms : list (clock * list Event)) (s : streams)
  : streams * result unit :=
  match ms with
  | [] => (s, Ok ())
  | (now, es) :: ms' =>
      match process_message now es s with
      | (s, _, Throw x) => (s, Throw x)
      | (s, _, Ok ()) => process_messages ms' s
      end
  end.

(** What each library sees. *)
Definition stamped (ms : list (clock * list Event)) : list (clock * Event) :=
  ms ≫= (fun m => (fun e => (m.1, stamp m.1 e)) <$> m.2).

(** What pushing events does to one slot on its own. *)
Definition push_slot (s : stream_lib) (p : clock * Event) : stream_lib :=
  if used s then (push_stream p.1 p.2 s).1.1 else s.

Lemma push_slot_used s p : used (push_slot s p) = used s.
Proof.
  unfold push_slot, push_stream. destruct (used s) eqn:Hu; [|done].
  destruct (stream s); [|done]. by destruct (chain_push _ _ _ _) as [[? ?] ?].
Qed.

Lemma push_slots_each now e slots slots' w :
  push_slots now e slots = (slots', w, Ok ()) ->
  slots' = map (fun s => push_slot s (now, stamp now e)) slots.
Proof.
  revert slots' w. induction slots as [|s slots IH]; intros slots' w H; [by inv H|].
  cbn [push_slots map] in *. unfold push_slot at 1. destruct (used s); simpl in H.
  - destruct (push_stream now (stamp now e) s) as [[s1 w1] [[]|x]] eqn:Hp; [|done].
    destruct (push_slots now e slots) as [[sl w2] r]. inv H. cbn [fst snd].
    rewrite Hp. f_equal. by eapply IH.
  - destruct (push_slots now e slots) as [[sl w2] r]. inv H. f_equal. by eapply IH.
Qed.

Lemma push_events_each now es s s' w :
  stop_ s = false -> push_events now es s = (s', w, Ok ()) ->
  stop_ s' = false /\
  streams_ s' = map (fun x => foldl push_slot x ((fun e => (now, stamp now e)) <$> es)) (streams_ s).
Proof.
  revert s w. induction es as [|e es IH]; intros s w Hs H.
  { inv H. split; [done|]. simpl. by rewrite map_id. }
  cbn [push_events] in H. unfold streams_push_event in H. rewrite Hs in H.
  destruct (push_slots now e (streams_ s)) as [[sl w1] [[]|x]] eqn:Hp; [|done].
  apply push_slots_each in Hp. subst sl.
  destruct (push_events now es _) as [[s2 w2] r] eqn:He. inv H.
  apply IH in He as [Hs' ->]; [|done]. split; [done|]. cbn [streams_]. rewrite map_map.
  reflexivity.
Qed.

Lemma process_messages_each ms s s' :
  stop_ s = false -> process_messages ms s = (s', Ok ()) ->
  streams_ s' = map (fun x => foldl push_slot x (stamped ms)) (streams_ s).
Proof.
  revert s. induction ms as [|[now es] ms IH]; intros s Hs H.
  { inv H. simpl. by rewrite map_id. }
  cbn [process_messages] in H. unfold process_message in H. rewrite Hs in H.
  destruct (push_events now es s) as [[s1 w] [[]|x]] eqn:He; [|done].
  apply push_events_each in He as [Hs1 He]; [|done].
  rewrite (IH s1 Hs1 H), He, map_map. apply map_ext. intros x.
  unfold stamped. rewrite bind_cons, foldl_app. done.
Qed.

Lemma push_slot_run c st s es :
  used s = true -> stream s = Some (MkLoaded c st) ->
  foldl push_slot s es =
  set_stream (MkLoaded c (run_events (chain_push c) es st).1.1) s.
Proof.
  revert s st. induction es as [|[now e] es IH]; intros s st Hu Hl; simpl.
  { destruct s; simpl in *. by subst. }
  unfold push_slot at 2. rewrite Hu. unfold push_stream. rewrite Hu, Hl.
  cbn [l_chain l_state fst snd].
  destruct (chain_push c e now st) as [[st1 w] r]. cbn [fst].
  rewrite (IH _ st1) by (simpl; done). by destruct (run_events (chain_push c) es st1) as [[? ?] ?].
Qed.

(** An exception of a library does not leave [push_stream]. *)
Definition caught (r : result unit) : Prop := r = Ok () \/ r = Throw undefined_behaviour.

Lemma push_slots_caught now e slots : caught (push_slots now e slots).2.
Proof.
  unfold caught. induction slots as [|s slots IH]; [by left|]. cbn [push_slots].
  destruct (push_slots now e slots) as [[sl w] r].
  destruct (used s) eqn:Hu; simpl in *; [|done]. unfold push_stream. rewrite Hu.
  destruct (stream s); [|done].
  destruct (chain_push _ _ _ _) as [[? ?] [?|[]]]; simpl; auto.
Qed.

Lemma push_events_caught now es s : caught (push_events now es s).2.
Proof.
  revert s. induction es as [|e es IH]; intros s; [by left|]. cbn [push_events].
  pose proof (push_slots_caught now e (streams_ s)) as Hc. unfold streams_push_event.
  destruct (stop_ s).
  - specialize (IH s). by destruct (push_events now es s) as [[? ?] ?].
  - destruct (push_slots now e (streams_ s)) as [[sl w] [[]|x]]; [|done].
    specialize (IH (MkStreams sl false)).
    by destruct (push_events now es (MkStreams sl false)) as [[? ?] ?].
Qed.

Lemma process_messages_caught ms s : caught (process_messages ms s).2.
Proof.
  revert s. induction ms as [|[now es] ms IH]; intros s; [by left|].
  cbn [process_messages]. unfold process_message. destruct (stop_ s); [apply IH|].
  pose proof (push_events_caught now es s) as Hc.
  by destruct (push_events now es s) as [[s1 w] [[]|x]].
Qed.



(** ** What [load_rules] achieves *)

(** A library in use, with the time of its file. *)
Definition in_use (slots : list stream_lib) (f : string) (m : Z) : Prop :=
  exists i s, slots !! i = Some s /\ used s = true /\ file s = f /\ last_write_time s = m.

(** No file is loaded twice. *)
Definition slots_wf (slots : list stream_lib) : Prop :=
  forall i j s s', slots !! i = Some s -> slots !! j = Some s' ->
  used s = true -> used s' = true -> file s = file s' -> i = j.

Definition free_slots (slots : list stream_lib) : nat :=
  length (filter (fun s => used s = false) slots).

Lemma make_curr_map_sound k slots m f i :
  make_curr_map k slots m !! f = Some i ->
  m !! f = Some i \/
  exists j s, i = (k + j)%nat /\ slots !! j = Some s /\ used s = true /\ file s = f.
Proof.
  revert k m. induction slots as [|s slots IH]; intros k m H; [by left|].
  cbn [make_curr_map] in H. apply IH in H as [H|(j & s' & -> & Hj & Hu & Hf)].
  - destruct (used s) eqn:Hu; [|by left]. rewrite lookup_insert in H.
    case_decide as Hf; [|by left]. inv H. right. exists 0%nat, s.
    split; [lia|]. done.
  - right. exists (S j), s'. split; [lia|]. done.
Qed.

Lemma make_curr_map_complete k slots m f :
  is_Some (m !! f) \/ (exists s, s ∈ slots /\ used s = true /\ file s = f) ->
  is_Some (make_curr_map k slots m !! f).
Proof.
  revert k m. induction slots as [|s slots IH]; intros k m H; cbn [make_curr_map].
  { destruct H as [H|(s & Hs & _)]; [done|]. inv Hs. }
  apply IH. destruct H as [H|(s' & Hs & Hu & Hf)].
  - left. destruct (used s); [|done]. rewrite lookup_insert. by case_decide.
  - apply elem_of_cons in Hs as [->|Hs]; [left|right; eauto].
    rewrite Hu, Hf. by rewrite lookup_insert_eq.
Qed.

Lemma curr_map_spec slots f i :
  slots_wf slots ->
  make_curr_map 0 slots ∅ !! f = Some i <->
  exists s, slots !! i = Some s /\ used s = true /\ file s = f.
Proof.
  intros Hwf. split.
  - intros H. apply make_curr_map_sound in H as [H|(j & s & -> & H)]; [by rewrite lookup_empty in H|].
    exists s. done.
  - intros (s & Hi & Hu & Hf).
    destruct (make_curr_map_complete 0 slots ∅ f) as [j Hj].
    { right. exists s. split; [by eapply list_elem_of_lookup_2|done]. }
    rewrite Hj. f_equal.
    apply make_curr_map_sound in Hj as [H|(j' & s' & -> & Hj & Hu' & Hf')];
      [by rewrite lookup_empty in H|].
    simpl. eapply (Hwf _ _ s' s); eauto. congruence.
Qed.

Lemma first_unused_spec k slots :
  match first_unused k slots with
  | Some i => exists j s, i = (k + j)%nat /\ slots !! j = Some s /\ used s = false
  | None => free_slots slots = 0%nat
  end.
Proof.
  revert k. induction slots as [|s slots IH]; intros k; [done|]. cbn [first_unused].
  unfold free_slots in *. rewrite filter_cons. destruct (used s) eqn:Hu.
  - specialize (IH (S k)). destruct (first_unused (S k) slots) as [i|].
    + destruct IH as (j & s' & -> & Hj & Hu'). exists (S j), s'. split; [lia|done].
    + rewrite decide_False by done. done.
  - exists 0%nat, s. split; [lia|done].
Qed.

(** Putting a library into a slot. *)
Lemma put_in_slot slots i s x :
  slots_wf slots -> slots !! i = Some s -> used x = true ->
  (forall j s', slots !! j = Some s' -> used s' = true -> file s' = file x -> j = i) ->
  (used s = true -> file s = file x) ->
  slots_wf (<[i := x]> slots)
  /\ forall f m, in_use (<[i := x]> slots) f m <->
     (f = file x /\ m = last_write_time x) \/ (f <> file x /\ in_use slots f m).
Proof.
  intros Hwf Hi Hux Huniq Hs. pose proof (lookup_lt_Some _ _ _ Hi) as Hlt. split.
  - intros j k a b Ha Hb Hua Hub Hf.
    destruct (decide (j = i)) as [->|Hj];
      [rewrite list_lookup_insert_eq in Ha by done; injection Ha as <-
      |rewrite list_lookup_insert_ne in Ha by done];
    (destruct (decide (k = i)) as [->|Hk];
      [rewrite list_lookup_insert_eq in Hb by done; injection Hb as <-
      |rewrite list_lookup_insert_ne in Hb by done]); [done| | |].
    + symmetry. by eapply Huniq.
    + by eapply Huniq.
    + by eapply Hwf.
  - intros f m. split.
    + intros (j & a & Ha & Hu & <- & <-). destruct (decide (j = i)) as [->|Hj].
      * rewrite list_lookup_insert_eq in Ha by done. injection Ha as <-. by left.
      * rewrite list_lookup_insert_ne in Ha by done. right.
        split; [intros He; apply Hj; by eapply Huniq|by exists j, a].
    + intros [[-> ->]|[Hf (j & a & Ha & Hu & <- & <-)]].
      * exists i, x. by rewrite list_lookup_insert_eq.
      * exists j, a. rewrite list_lookup_insert_ne; [done|]. intros ->.
        rewrite Hi in Ha. inv Ha. auto.
Qed.

Lemma free_slots_insert slots i s x :
  slots !! i = Some s -> used x = true ->
  free_slots slots = (free_slots (<[i := x]> slots) + if used s then 0 else 1)%nat.
Proof.
  intros Hi Hx. rewrite insert_take_drop by (by eapply lookup_lt_Some).
  unfold free_slots. rewrite <- (take_drop_middle slots i s Hi) at 1.
  rewrite !list.filter_app, !length_app, !filter_cons, Hx.
  destruct (used s); simpl; lia.
Qed.

Section load_rules_correct.
Variable open_library : string -> Z -> option (list stream_node_t).
Variable close_ok : string -> bool.
Variable now : clock.
Hypothesis close_succeeds : forall f, close_ok f = true.

Abbreviation load := (load_library open_library now).

Lemma load_library_slot lib s :
  is_Some (open_library lib.1 lib.2) ->
  used (load lib s) = true /\ file (load lib s) = lib.1 /\ last_write_time (load lib s) = lib.2.
Proof. intros [nodes Hn]. unfold load_library. by rewrite Hn. Qed.

(** One file of the directory. *)
Definition load_one (curr : gmap string nat) (lib : string * Z) (slots : list stream_lib)
  : list stream_lib :=
  match curr !! lib.1 with
  | Some i => reload_slot open_library close_ok now lib i slots
  | None =>
      match first_unused 0 slots with
      | None => slots
      | Some i => match slots !! i with
                  | Some s => <[i := load lib s]> slots
                  | None => slots
                  end
      end
  end.

(** The slot of a library is found by the map, or the library is new. *)
Definition curr_for (curr : gmap string nat) (slots : list stream_lib) (f : string) : Prop :=
  forall i, curr !! f = Some i <->
    exists s, slots !! i = Some s /\ used s = true /\ file s = f.

(** What has been replaced by [lib], and what has not. *)
Record loaded_one (lib : string * Z) (slots slots' : list stream_lib) : Prop := {
  lo_wf : slots_wf slots';
  lo_in_use : forall f m, in_use slots' f m <->
    (f = lib.1 /\ m = lib.2) \/ (f <> lib.1 /\ in_use slots f m);
  lo_others : forall j s, slots !! j = Some s -> used s = true ->
    file s <> lib.1 \/ last_write_time s = lib.2 -> slots' !! j = Some s;
  lo_new : forall j s, slots' !! j = Some s -> used s = true -> file s <> lib.1 ->
    slots !! j = Some s
}.

Lemma put_loaded lib slots i s :
  slots_wf slots -> slots !! i = Some s -> is_Some (open_library lib.1 lib.2) ->
  (forall j s', slots !! j = Some s' -> used s' = true -> file s' = lib.1 -> j = i) ->
  (used s = true -> file s = lib.1 /\ last_write_time s <> lib.2) ->
  forall s1, loaded_one lib slots (<[i := load lib s1]> slots).
Proof.
  intros Hwf Hi Hopen Huniq Hs s1.
  destruct (load_library_slot lib s1 Hopen) as (Hu & Hf & Hm).
  pose proof (lookup_lt_Some _ _ _ Hi) as Hlt.
  destruct (put_in_slot slots i s (load lib s1) Hwf Hi Hu) as [Hwf' Hin].
  { rewrite Hf. exact Huniq. }
  { rewrite Hf. intros Hus. by apply Hs. }
  split; [done| | |].
  - intros f m. by rewrite Hin, Hf, Hm.
  - intros j a Ha Hua Hor. rewrite list_lookup_insert_ne; [done|]. intros <-.
    rewrite Hi in Ha. injection Ha as <-. destruct (Hs Hua). by destruct Hor.
  - intros j a Ha Hua Hne. destruct (decide (j = i)) as [->|Hj].
    + rewrite list_lookup_insert_eq in Ha by done. injection Ha as <-. by rewrite Hf in Hne.
    + by rewrite list_lookup_insert_ne in Ha by done.
Qed.

Lemma load_one_spec curr lib slots :
  slots_wf slots -> is_Some (open_library lib.1 lib.2) -> curr_for curr slots lib.1 ->
  (curr !! lib.1 = None -> (0 < free_slots slots)%nat) ->
  loaded_one lib slots (load_one curr lib slots)
  /\ free_slots slots =
     (free_slots (load_one curr lib slots) +
      match curr !! lib.1 with Some _ => 0 | None => 1 end)%nat.
Proof.
  intros Hwf Hopen Hcurr Hfree. unfold load_one.
  destruct (curr !! lib.1) as [i|] eqn:Hc.
  - apply Hcurr in Hc as (s & Hi & Hu & Hf). unfold reload_slot. rewrite Hi.
    destruct (decide (last_write_time s = lib.2)) as [Hm|Hm].
    + split; [|lia]. split; try done.
      intros f m. split.
      * intros (j & a & Ha & Hua & <- & <-). destruct (decide (file a = lib.1)) as [He|He].
        { left. split; [done|]. assert (j = i) as -> by (eapply Hwf; eauto; congruence).
          congruence. }
        right. split; [done|]. by exists j, a.
      * intros [[-> ->]|[_ ?]]; [by exists i, s|done].
    + unfold close_library. rewrite close_succeeds. split.
      * eapply put_loaded; eauto.
        intros j s' Hj Hu' Hf'. eapply Hwf; eauto. congruence.
      * destruct (load_library_slot lib
          (MkSlot (file s) (last_write_time s) false (stream s) false) Hopen) as (Hul & _).
        rewrite (free_slots_insert slots i s _ Hi Hul), Hu. done.
  - pose proof (first_unused_spec 0 slots) as Hfirst. specialize (Hfree eq_refl).
    destruct (first_unused 0 slots) as [i|]; [|lia].
    destruct Hfirst as (j & s & -> & Hj & Hu). simpl. rewrite Hj. split.
    + eapply put_loaded; eauto; [|congruence].
      intros k s' Hk Hu' Hf'. exfalso.
      assert (curr !! lib.1 = Some k) by (apply Hcurr; by exists s'). congruence.
    + destruct (load_library_slot lib s Hopen) as (Hul & _).
      rewrite (free_slots_insert slots j s _ Hj Hul), Hu. done.
Qed.

Lemma load_loop_spec curr libs unused slots :
  slots_wf slots -> NoDup libs.*1 ->
  Forall (fun lib => is_Some (open_library lib.1 lib.2)) libs ->
  (forall f, f ∈ libs.*1 -> curr_for curr slots f) ->
  (length (filter (fun lib => curr !! lib.1 = None) libs) <= free_slots slots)%nat ->
  let '(unused', slots') := load_loop open_library close_ok now curr libs unused slots in
  unused' = unused ∖ list_to_set (libs.*1)
  /\ slots_wf slots'
  /\ (forall f m, in_use slots' f m <-> ((f, m) ∈ libs) \/ ((f ∉ libs.*1) /\ in_use slots f m))
  /\ (forall j s, slots !! j = Some s -> used s = true ->
      file s ∉ (libs.*1) \/ (file s, last_write_time s) ∈ libs -> slots' !! j = Some s).
Proof.
  revert unused slots.
  induction libs as [|lib libs IH]; intros unused slots Hwf Hnd Hopen Hcurr Hfree.
  { simpl. split; [by rewrite difference_empty_L|]. split; [done|]. split; [|done].
    intros f m. rewrite !elem_of_nil. tauto. }
  rewrite fmap_cons in Hnd. apply list.NoDup_cons in Hnd as [Hlib Hnd].
  apply Forall_cons_iff in Hopen as [Hopen1 Hopen].
  rewrite filter_cons in Hfree.
  destruct (load_one_spec curr lib slots Hwf Hopen1) as [[Hwf1 Hin1 Hoth1 Hnew1] Hfree1].
  { apply Hcurr. left. }
  { intros Hc. rewrite decide_True in Hfree by done. simpl in Hfree. lia. }
  cbn [load_loop]. fold (load_one curr lib slots).
  specialize (IH (unused ∖ {[lib.1]}) (load_one curr lib slots) Hwf1 Hnd Hopen).
  destruct (load_loop _ _ _ curr libs _ _) as [unused' slots'].
  destruct IH as (Hu & Hwf' & Hin' & Hoth').
  - intros f Hf i. pose proof (Hcurr f ltac:(by right) i) as Hci. rewrite Hci. split; intros (s & Hs & Hus & Hfs).
    + exists s. split; [|done]. apply Hoth1; [done..|]. left. congruence.
    + exists s. split; [|done]. apply Hnew1; [done..|]. congruence.
  - destruct (curr !! lib.1); [rewrite decide_False in Hfree by done; lia|].
    rewrite decide_True in Hfree by done. simpl in Hfree. lia.
  - split; [rewrite Hu, fmap_cons; simpl; by rewrite difference_difference_l_L|].
    split; [done|]. split.
    + intros f m. rewrite Hin', Hin1, fmap_cons, elem_of_cons, not_elem_of_cons.
      destruct lib as [lf lm]. simpl in *. split.
      * intros [?|[? [[-> ->]|[? ?]]]]; [by left; right|by left; left|by right].
      * intros [[[= -> ->]|?]|[[? ?] ?]]; [right; split; [done|by left]|by left|right; auto].
    + intros j s Hj Hus Hor. apply Hoth'; [|done|].
      * apply Hoth1; [done..|]. destruct Hor as [Hn|Hy].
        { left. intros He. apply Hn. rewrite He. left. }
        apply elem_of_cons in Hy as [Hy|Hy]; [right; by rewrite <- Hy|].
        left. intros He. apply Hlib. rewrite <- He. apply list_elem_of_fmap.
        by exists (file s, last_write_time s).
      * destruct Hor as [Hn|Hy]; [left; intros Hf; apply Hn; by right|].
        apply elem_of_cons in Hy as [Hy|Hy]; [|by right].
        left. by rewrite <- Hy in Hlib.
Qed.

(** Closing one library. *)
Lemma close_one_spec curr slots f i s :
  slots_wf slots -> curr !! f = Some i ->
  slots !! i = Some s -> used s = true -> file s = f ->
  let slots' := close_unused close_ok curr slots f in
  slots_wf slots'
  /\ (forall f' m, in_use slots' f' m <-> f' <> f /\ in_use slots f' m)
  /\ (forall j a, slots !! j = Some a -> used a = true -> file a <> f -> slots' !! j = Some a).
Proof.
  intros Hwf Hc Hi Hu Hf. unfold close_unused. rewrite Hc, Hi.
  unfold close_library. rewrite close_succeeds. cbn [fst].
  set (x := MkSlot _ _ _ _ false).
  assert (forall j a, <[i := x]> slots !! j = Some a -> used a = true ->
    j <> i /\ slots !! j = Some a) as Hold.
  { intros j a Ha Hua. destruct (decide (j = i)) as [->|Hj].
    - rewrite list_lookup_insert_eq in Ha by (by eapply lookup_lt_Some).
      injection Ha as <-. done.
    - by rewrite list_lookup_insert_ne in Ha by done. }
  assert (forall j a, slots !! j = Some a -> used a = true -> file a <> f ->
    <[i := x]> slots !! j = Some a) as Hkeep.
  { intros j a Ha Hua Hfa. rewrite list_lookup_insert_ne; [done|]. intros <-.
    rewrite Hi in Ha. injection Ha as <-. done. }
  split; [|split; [|done]].
  - intros j k a b Ha Hb Hua Hub Hab.
    destruct (Hold j a Ha Hua) as [_ ?], (Hold k b Hb Hub) as [_ ?]. by eapply Hwf.
  - intros f' m. split.
    + intros (j & a & Ha & Hua & <- & <-). destruct (Hold j a Ha Hua) as [Hj Ha'].
      split; [|by exists j, a]. intros He. apply Hj. eapply Hwf; eauto. congruence.
    + intros [Hne (j & a & Ha & Hua & <- & <-)]. exists j, a. by rewrite (Hkeep j a).
Qed.

Lemma close_all_spec curr l slots :
  slots_wf slots -> NoDup l ->
  (forall f, f ∈ l -> exists i s, curr !! f = Some i /\ slots !! i = Some s
     /\ used s = true /\ file s = f) ->
  let slots' := foldl (close_unused close_ok curr) slots l in
  slots_wf slots'
  /\ (forall f m, in_use slots' f m <-> (f ∉ l) /\ in_use slots f m)
  /\ (forall j a, slots !! j = Some a -> used a = true -> file a ∉ l -> slots' !! j = Some a).
Proof.
  revert slots. induction l as [|f l IH]; intros slots Hwf Hnd Hl; simpl.
  { split; [done|]. split; [|done]. intros. split; [|by intros [? ?]].
    intros ?. split; [apply not_elem_of_nil|done]. }
  apply list.NoDup_cons in Hnd as [Hf Hnd].
  destruct (Hl f ltac:(left)) as (i & s & Hc & Hi & Hu & Hfs).
  destruct (close_one_spec curr slots f i s Hwf Hc Hi Hu Hfs) as (Hwf1 & Hin1 & Hk1).
  destruct (IH (close_unused close_ok curr slots f) Hwf1 Hnd) as (Hwf2 & Hin2 & Hk2).
  { intros f' Hf'. destruct (Hl f' ltac:(by right)) as (i' & s' & Hc' & Hi' & Hu' & Hfs').
    exists i', s'. split; [done|]. split; [|done]. apply Hk1; [done..|].
    rewrite Hfs'. intros ->. done. }
  split; [done|]. split.
  - intros f' m. rewrite Hin2, Hin1, not_elem_of_cons. tauto.
  - intros j a Ha Hua Hfa. apply not_elem_of_cons in Hfa as [? ?]. auto.
Qed.

(** C29. [load_rules], when the libraries can be opened and closed and there are enough
    free slots for the new ones: afterwards the libraries in use are exactly the
    [.so] files of the directory with their current modification times, each in
    one slot; a library whose file did not change keeps its slot and the state of
    its stream. *)
Theorem load_rules_spec (dir : list (string * Z)) (slots : list stream_lib) :
  slots_wf slots -> NoDup (so_files dir).*1 ->
  Forall (fun lib => is_Some (open_library lib.1 lib.2)) (so_files dir) ->
  (length (filter (fun lib => make_curr_map 0 slots ∅ !! lib.1 = None) (so_files dir))
   <= free_slots slots)%nat ->
  let slots' := load_rules open_library close_ok now dir slots in
  slots_wf slots'
  /\ (forall f m, in_use slots' f m <-> (f, m) ∈ so_files dir)
  /\ (forall j s, slots !! j = Some s -> used s = true ->
      (file s, last_write_time s) ∈ so_files dir -> slots' !! j = Some s).
Proof.
  intros Hwf Hnd Hopen Hroom. unfold load_rules.
  pose proof (load_loop_spec (make_curr_map 0 slots ∅) (so_files dir)
    (dom (make_curr_map 0 slots ∅)) slots Hwf Hnd Hopen
    (fun f _ i => curr_map_spec slots f i Hwf) Hroom) as Hloop.
  destruct (load_loop _ _ _ _ _ _ slots) as [unused slots1].
  destruct Hloop as (-> & Hwf1 & Hin1 & Hk1).
  set (l := elements _).
  assert (forall f, f ∈ l <-> is_Some (make_curr_map 0 slots ∅ !! f) /\ f ∉ (so_files dir).*1)
    as Hl.
  { intros f. unfold l. rewrite elem_of_elements, elem_of_difference, elem_of_dom.
    by rewrite elem_of_list_to_set. }
  destruct (close_all_spec (make_curr_map 0 slots ∅) l slots1 Hwf1) as (Hwf2 & Hin2 & Hk2).
  - apply NoDup_elements.
  - intros f Hf. apply Hl in Hf as [[i Hc] Hn]. exists i.
    pose proof Hc as Hc'. apply (curr_map_spec slots f i Hwf) in Hc' as (s & Hi & Hu & Hfs).
    exists s. split; [done|]. split; [|done]. apply Hk1; [done..|]. left. by rewrite Hfs.
  - split; [done|]. split.
    + intros f m. rewrite Hin2, Hin1, Hl. split; [|intros Hf; split; [|by left]].
      * intros [Hn [?|[Hf Hu]]]; [done|]. exfalso. apply Hn. split; [|done].
        destruct Hu as (i & s & Hi & Hu & Hfs & _). exists i.
        apply (curr_map_spec slots f i Hwf). by exists s.
      * intros [_ Hn]. apply Hn, list_elem_of_fmap. by exists (f, m).
    + intros j s Hj Hu Hs. apply Hk2; [apply Hk1; auto|done|]. rewrite Hl.
      intros [_ Hn]. apply Hn, list_elem_of_fmap. by exists (file s, last_write_time s).
Qed.
End load_rules_correct.

Lemma load_rules_spec_witness :
  let nodes : list stream_node_t := [] in
  let slot f m := MkSlot f m true (Some (MkLoaded [] ())) true in
  let dir := [("a.so", 2); ("README", 1); ("b.so", 5)] in
  let slots := [slot "c.so" 1; slot "a.so" 2; empty_slot] in
  let slots' := load_rules (fun _ _ => Some nodes) (fun _ => true) 0 dir slots in
  (forall f m, in_use slots' f m <-> (f, m) ∈ so_files dir)
  /\ slots' = [MkSlot "c.so" 1 false (Some (MkLoaded [] ())) false; slot "a.so" 2; slot "b.so" 5].
Proof.
  pose (slot f m := MkSlot f m true (Some (MkLoaded [] ())) true).
  split; [|vm_compute; reflexivity].
  refine (proj1 (proj2 (load_rules_spec (fun _ _ => Some []) (fun _ => true) 0
    (fun _ => eq_refl) [("a.so", 2); ("README", 1); ("b.so", 5)]
    [slot "c.so" 1; slot "a.so" 2; empty_slot] _ _ _ _))).
  - intros [|[|[|?]]] [|[|[|?]]] a b Ha Hb; try discriminate; try done;
      injection Ha as <-; injection Hb as <-; discriminate.
  - by_decide.
  - repeat constructor; by eexists.
  - vm_compute. lia.
Defined.
