(* ===== verification/Codec.v ===== *)
(** * Base64 and URIs

    The codecs of [src/util/util.cpp]: [base64Encode] on bytes (integers below 256)
    and [parse_uri], with [uri_unescape], which is libcurl's, as a parameter. *)

From S2P Require Import Prelude.

Local Open Scope Z_scope.

(** ** [base64Encode] *)

Definition encodeLookup : string :=
  "ABCDEFGHIJKLMNOPQRSTUVWXYZabcdefghijklmnopqrstuvwxyz0123456789+/".
Definition padCharacter : ascii := "=".

(** [encodeLookup[i]]. *)
Definition lookup_char (i : Z) : ascii := default "000"%char (String.get (Z.to_nat i) encodeLookup).

(** The four characters of [temp], the first one of them the most significant. *)
Definition char1 (temp : Z) : ascii := lookup_char (Z.shiftr (Z.land temp 0xFC0000) 18).
Definition char2 (temp : Z) : ascii := lookup_char (Z.shiftr (Z.land temp 0x3F000) 12).
Definition char3 (temp : Z) : ascii := lookup_char (Z.shiftr (Z.land temp 0xFC0) 6).
Definition char4 (temp : Z) : ascii := lookup_char (Z.land temp 0x3F).

(** The loop over full groups of three bytes, then the switch on what is left. *)
Fixpoint base64Encode (inputBuffer : list Z) : list ascii :=
  match inputBuffer with
  | a :: b :: c :: rest =>
      let temp := Z.shiftl a 16 + Z.shiftl b 8 + c in
      [char1 temp; char2 temp; char3 temp; char4 temp] ++ base64Encode rest
  | [a] =>
      let temp := Z.shiftl a 16 in
      [char1 temp; char2 temp; padCharacter; padCharacter]
  | [a; b] =>
      let temp := Z.shiftl a 16 + Z.shiftl b 8 in
      [char1 temp; char2 temp; char3 temp; padCharacter]
  | [] => []
  end.

(** ** [parse_uri] *)

(** Characters up to the first [stop], and what follows from there on. *)
Fixpoint take_until (stop : ascii) (s : list ascii) : list ascii * list ascii :=
  match s with
  | [] => ([], [])
  | c :: s' =>
      if decide (c = stop) then ([], s)
      else let '(a, b) := take_until stop s' in (c :: a, b)
  end.

(** The loop over the parameters; [params.insert] keeps an entry that is there. *)
Fixpoint uri_params (fuel : nat) (it : list ascii) (params : gmap string string)
  : option (bool * gmap string string) :=
  match fuel with
  | O => None
  | S fuel =>
      let '(key, it) := take_until "=" it in
      match it with
      | [] => Some (false, params)
      | _ :: it =>
          let '(value, it) := take_until "&" it in
          let key := String.string_of_list_ascii key in
          let params := match params !! key with
                        | Some _ => params
                        | None => <[key := String.string_of_list_ascii value]> params
                        end in
          match it with
          | [] => Some (true, params)
          | _ :: it => uri_params fuel it params
          end
      end
  end.

Section parse_uri.
(** [curl_easy_unescape]. *)
Variable uri_unescape : string -> string.

(** The value returned, [index] and [params].  The first character of an empty string is
    read past the end. *)
Definition parse_uri (escaped_uri : string) (index : string) (params : gmap string string)
  : result (bool * string * gmap string string) :=
  let it := String.list_ascii_of_string (uri_unescape escaped_uri) in
  match it with
  | [] => Throw undefined_behaviour
  | c :: _ =>
      if decide (c <> "/"%char) then Ok (false, index, params)
      else
        let '(name, it) := take_until "?" it in
        let index := index +:+ String.string_of_list_ascii name in
        match it with
        | [] => Ok (false, index, params)
        | _ :: it =>
            match uri_params (S (length it)) it params with
            | Some (ok, params) => Ok (ok, index, params)
            | None => Throw undefined_behaviour
            end
        end
  end.
End parse_uri.

(** ** Decoding base64 *)

(** The value of a character: its place in the alphabet. *)
Fixpoint place (c : ascii) (s : list ascii) : Z :=
  match s with
  | [] => 0
  | c' :: s' => if decide (c = c') then 0 else 1 + place c s'
  end.
Definition value (c : ascii) : Z := place c (String.list_ascii_of_string encodeLookup).

Definition group (c1 c2 c3 c4 : ascii) : Z :=
  value c1 * 2 ^ 18 + value c2 * 2 ^ 12 + value c3 * 2 ^ 6 + value c4.

(** The decoder of RFC 4648: four characters give three bytes, fewer when padded. *)
Fixpoint base64Decode (s : list ascii) : option (list Z) :=
  match s with
  | [] => Some []
  | c1 :: c2 :: c3 :: c4 :: s' =>
      if decide (c4 = padCharacter) then
        if decide (c3 = padCharacter) then Some [group c1 c2 "A" "A" / 2 ^ 16]
        else let v := group c1 c2 c3 "A" in Some [v / 2 ^ 16; v / 2 ^ 8 mod 256]
      else
        let v := group c1 c2 c3 c4 in
        l ← base64Decode s'; Some (v / 2 ^ 16 :: v / 2 ^ 8 mod 256 :: v mod 256 :: l)
  | _ => None
  end.

Definition is_byte (b : Z) : Prop := 0 <= b < 256.

#[export] Instance is_byte_dec b : Decision (is_byte b).
Proof. unfold is_byte. apply _. Defined.

Lemma value_lookup i : 0 <= i < 64 -> value (lookup_char i) = i /\ lookup_char i <> "="%char.
Proof.
  intros Hi.
  assert (Forall (fun j => value (lookup_char j) = j /\ lookup_char j <> "="%char)
            (Z.of_nat <$> seq 0 64)) as HF by by_decide.
  rewrite list.Forall_forall in HF. apply HF, list_elem_of_fmap.
  exists (Z.to_nat i). split; [lia|]. apply elem_of_seq. lia.
Qed.

(** A field of six bits. *)
Lemma field temp n : 0 <= n -> 0 <= temp ->
  Z.shiftr (Z.land temp (Z.shiftl 63 n)) n = temp / 2 ^ n mod 64.
Proof.
  intros Hn Ht. rewrite Z.shiftr_land, Z.shiftr_shiftl_l by lia.
  rewrite Z.sub_diag, Z.shiftl_0_r. change 63 with (Z.ones 6).
  rewrite Z.land_ones, Z.shiftr_div_pow2 by lia. done.
Qed.

Lemma chars_field temp : 0 <= temp ->
  char1 temp = lookup_char (temp / 2 ^ 18 mod 64)
  /\ char2 temp = lookup_char (temp / 2 ^ 12 mod 64)
  /\ char3 temp = lookup_char (temp / 2 ^ 6 mod 64)
  /\ char4 temp = lookup_char (temp mod 64).
Proof.
  intros Ht. unfold char1, char2, char3, char4.
  rewrite <- (field temp 18), <- (field temp 12), <- (field temp 6) by lia.
  change 0x3F with (Z.ones 6). rewrite Z.land_ones by lia. done.
Qed.

(** The characters of a group of 24 bits are not padding and give it back. *)
Lemma group_chars temp : 0 <= temp < 2 ^ 24 ->
  group (char1 temp) (char2 temp) (char3 temp) (char4 temp) = temp
  /\ char3 temp <> "="%char /\ char4 temp <> "="%char.
Proof.
  intros Ht. destruct (chars_field temp) as (-> & -> & -> & ->); [lia|]. unfold group.
  destruct (value_lookup (temp / 2 ^ 18 mod 64)) as [-> _]; [apply Z.mod_pos_bound; lia|].
  destruct (value_lookup (temp / 2 ^ 12 mod 64)) as [-> _]; [apply Z.mod_pos_bound; lia|].
  destruct (value_lookup (temp / 2 ^ 6 mod 64)) as [-> ?]; [apply Z.mod_pos_bound; lia|].
  destruct (value_lookup (temp mod 64)) as [-> ?]; [apply Z.mod_pos_bound; lia|].
  split; [|done]. change (2 ^ 18) with 262144. change (2 ^ 12) with 4096.
  change (2 ^ 6) with 64. change (2 ^ 24) with 16777216 in Ht.
  Z.to_euclidean_division_equations. lia.
Qed.

Lemma base64_group (a b c : Z) : is_byte a -> is_byte b -> is_byte c ->
  let temp := Z.shiftl a 16 + Z.shiftl b 8 + c in
  0 <= temp < 2 ^ 24 /\ temp / 2 ^ 16 = a /\ temp / 2 ^ 8 mod 256 = b /\ temp mod 256 = c.
Proof.
  unfold is_byte. intros. cbv zeta. rewrite !Z.shiftl_mul_pow2 by lia.
  change (2 ^ 16) with 65536. change (2 ^ 8) with 256. change (2 ^ 24) with 16777216.
  Z.to_euclidean_division_equations. lia.
Qed.

(** The characters that padding replaces would be zero bits. *)
Lemma char_zero temp : 0 <= temp ->
  (temp mod 2 ^ 6 = 0 -> char4 temp = "A"%char)
  /\ (temp mod 2 ^ 12 = 0 -> char3 temp = "A"%char).
Proof.
  intros Ht. destruct (chars_field temp Ht) as (_ & _ & -> & ->).
  split; intros H0; [change 64 with (2 ^ 6); by rewrite H0|].
  replace (temp / 2 ^ 6 mod 64) with 0; [done|].
  change (2 ^ 12) with 4096 in H0. change (2 ^ 6) with 64.
  Z.to_euclidean_division_equations. lia.
Qed.

Lemma padded_bytes (a b : Z) : is_byte a -> is_byte b ->
  let temp := Z.shiftl a 16 + Z.shiftl b 8 in
  temp mod 2 ^ 6 = 0 /\ (b = 0 -> temp mod 2 ^ 12 = 0).
Proof.
  unfold is_byte. intros. cbv zeta. rewrite !Z.shiftl_mul_pow2 by lia.
  change (2 ^ 16) with 65536. change (2 ^ 8) with 256. change (2 ^ 12) with 4096.
  change (2 ^ 6) with 64. Z.to_euclidean_division_equations. lia.
Qed.

(** What [base64Encode] makes of any bytes is read back by the decoder of RFC 4648,
    padding included. *)
Theorem base64_roundtrip (l : list Z) :
  Forall is_byte l -> base64Decode (base64Encode l) = Some l.
Proof.
  revert l. fix IH 1. intros [|a [|b [|c l]]] Hl.
  - done.
  - apply Forall_cons_iff in Hl as [Ha _].
    destruct (base64_group a 0 0 Ha) as (Ht & H1 & _); [by_decide..|].
    destruct (padded_bytes a 0 Ha) as [Hp4 Hp3]; [by_decide|].
    rewrite Z.shiftl_0_l, !Z.add_0_r in *.
    destruct (char_zero (Z.shiftl a 16)) as [H4 H3]; [lia|].
    destruct (group_chars (Z.shiftl a 16) Ht) as [Hg _]. rewrite H4, H3 in Hg by auto.
    cbn [base64Encode base64Decode]. rewrite !decide_True by done. by rewrite Hg, H1.
  - apply Forall_cons_iff in Hl as [Ha Hl]. apply Forall_cons_iff in Hl as [Hb _].
    destruct (base64_group a b 0 Ha Hb) as (Ht & H1 & H2 & _); [by_decide|].
    destruct (padded_bytes a b Ha Hb) as [Hp4 _]. rewrite Z.add_0_r in *.
    destruct (char_zero (Z.shiftl a 16 + Z.shiftl b 8)) as [H4 _]; [lia|].
    destruct (group_chars _ Ht) as (Hg & H3 & _). rewrite H4 in Hg by auto.
    cbn [base64Encode base64Decode]. rewrite decide_True, decide_False by done.
    by rewrite Hg, H1, H2.
  - apply Forall_cons_iff in Hl as [Ha Hl]. apply Forall_cons_iff in Hl as [Hb Hl].
    apply Forall_cons_iff in Hl as [Hc Hl].
    destruct (base64_group a b c Ha Hb Hc) as (Ht & H1 & H2 & H3).
    destruct (group_chars _ Ht) as (Hg & _ & H4).
    cbn [base64Encode base64Decode app]. rewrite decide_False by done.
    rewrite Hg, H1, H2, H3, (IH l Hl). done.
Qed.

Lemma base64_roundtrip_witness :
  base64Encode [77; 97; 110; 255] = String.list_ascii_of_string "TWFu/w=="
  /\ base64Decode (base64Encode [77; 97; 110; 255]) = Some [77; 97; 110; 255].
Proof. split; [reflexivity|]. apply base64_roundtrip. by_decide. Defined.

(** ** Reading a URI back *)

Lemma take_until_stop c a b : c ∉ a -> take_until c (a ++ c :: b) = (a, c :: b).
Proof.
  induction a as [|x a IH]; intros Hc; simpl.
  - by rewrite decide_True.
  - apply not_elem_of_cons in Hc as [Hx Ha]. rewrite decide_False by done. by rewrite IH.
Qed.

Lemma take_until_end c a : c ∉ a -> take_until c a = (a, []).
Proof.
  induction a as [|x a IH]; intros Hc; simpl; [done|].
  apply not_elem_of_cons in Hc as [Hx Ha]. rewrite decide_False by done. by rewrite IH.
Qed.

(** What is left is shorter, so that [uri_params] has fuel enough. *)
Lemma take_until_length c s : (length (take_until c s).2 <= length s)%nat.
Proof.
  induction s as [|x s IH]; simpl; [lia|]. destruct (decide (x = c)); [done|].
  destruct (take_until c s). simpl in *. lia.
Qed.

Lemma uri_params_total fuel it params :
  (length it < fuel)%nat -> is_Some (uri_params fuel it params).
Proof.
  revert it params. induction fuel as [|fuel IH]; intros it params Hf; [lia|].
  cbn [uri_params]. pose proof (take_until_length "=" it) as H1.
  destruct (take_until "=" it) as [key [|x it1]]; [done|].
  pose proof (take_until_length "&" it1) as H2.
  destruct (take_until "&" it1) as [v [|y it2]]; [done|]. simpl in *. apply IH. lia.
Qed.

Abbreviation chars := String.list_ascii_of_string.

(** [k1=v1&k2=v2&...]. *)
Fixpoint print_params (kvs : list (string * string)) : list ascii :=
  match kvs with
  | [] => []
  | [(k, v)] => chars k ++ "="%char :: chars v
  | (k, v) :: kvs' => chars k ++ "="%char :: chars v ++ "&"%char :: print_params kvs'
  end.

Definition print_uri (name : string) (kvs : list (string * string)) : string :=
  String.string_of_list_ascii (chars name ++ "?"%char :: print_params kvs).

(** A key may have any character but [=], a value any but [&]. *)
Definition param_ok (kv : string * string) : Prop :=
  ("="%char ∉ chars kv.1) /\ ("&"%char ∉ chars kv.2).

(** [params.insert({k, v})] under what is there already. *)
Lemma insert_keeps `{Countable K} {V} (params m : gmap K V) k v :
  match params !! k with Some _ => params | None => <[k := v]> params end ∪ m
  = params ∪ <[k := v]> m.
Proof.
  apply map_eq. intros j. rewrite !lookup_union.
  destruct (params !! k) eqn:Hk.
  - destruct (decide (j = k)) as [->|Hj]; [by rewrite Hk, lookup_insert_eq; destruct (m !! k)|].
    by rewrite lookup_insert_ne.
  - destruct (decide (j = k)) as [->|Hj].
    + rewrite !lookup_insert_eq, Hk. by destruct (m !! k).
    + by rewrite !lookup_insert_ne.
Qed.

Lemma uri_params_print fuel kvs params :
  kvs <> [] -> Forall param_ok kvs -> (length (print_params kvs) < fuel)%nat ->
  uri_params fuel (print_params kvs) params = Some (true, params ∪ list_to_map kvs).
Proof.
  revert kvs params. induction fuel as [|fuel IH]; intros kvs params Hne Hok Hf; [lia|].
  destruct kvs as [|[k v] kvs]; [done|]. apply Forall_cons_iff in Hok as [[Hk Hv] Hok].
  simpl in Hk, Hv. rewrite list_to_map_cons. cbn [uri_params print_params] in *.
  destruct kvs as [|kv kvs].
  - rewrite take_until_stop by done. rewrite take_until_end by done.
    rewrite !String.string_of_list_ascii_of_string, <- insert_keeps. simpl.
    by rewrite (right_id_L ∅ (∪)).
  - rewrite take_until_stop by done. rewrite take_until_stop by done.
    rewrite !String.string_of_list_ascii_of_string, <- insert_keeps. apply IH; [done|done|].
    rewrite !length_app in Hf. simpl in Hf. rewrite length_app in Hf. simpl in *. lia.
Qed.

(** [parse_uri] reads back the name and the parameters of a URI of the form
    [/name?k1=v1&k2=v2&...]; of two values for a key the first one counts, and a
    parameter that was there before keeps its value. *)
Theorem parse_uri_roundtrip (uri_unescape : string -> string) (escaped name : string)
    (kvs : list (string * string)) (index : string) (params : gmap string string) :
  uri_unescape escaped = print_uri (String "/" name) kvs ->
  "?"%char ∉ chars name -> kvs <> [] -> Forall param_ok kvs ->
  parse_uri uri_unescape escaped index params
  = Ok (true, index +:+ String "/" name, params ∪ list_to_map kvs).
Proof.
  intros Hu Hn Hne Hok. unfold parse_uri. rewrite Hu. unfold print_uri.
  rewrite String.list_ascii_of_string_of_list_ascii.
  cbn [chars app]. rewrite decide_False by (by intros []).
  change ("/"%char :: chars name ++ "?"%char :: print_params kvs)
    with (("/"%char :: chars name) ++ "?"%char :: print_params kvs).
  rewrite take_until_stop by (apply not_elem_of_cons; done).
  rewrite uri_params_print by (done || lia).
  simpl. by rewrite String.string_of_list_ascii_of_string.
Qed.

Lemma parse_uri_roundtrip_witness :
  let uri := "/index?subscribe=true&query=(host = a)" in
  parse_uri id uri "" ∅
  = Ok (true, "/index", <["subscribe" := "true"]> {["query" := "(host = a)"]}).
Proof.
  cbv zeta.
  rewrite (parse_uri_roundtrip id _ "index" [("subscribe", "true"); ("query", "(host = a)")]);
    [|reflexivity|by_decide|done|].
  - f_equal.
  - repeat constructor; simpl; by_decide.
Defined.
