(* ===== verification/Tcp.v ===== *)
(** * TCP connections and the framing of the riemann protocol

    [src/transport/tcp_connection.cpp], [src/riemann_tcp_connection.cpp] and the
    sender's side, [output_events] of [src/external/riemann_tcp_client_pool.cpp].
    The circular buffers are an interface, the results of [recv] and [write] are
    inputs, and the messages handed to [raw_msg_fn_] are an output.  Bytes are
    integers; sizes are in [Z] because the buffers are large. *)

From S2P Require Import Prelude Events.

Local Open Scope Z_scope.

(** ** [boost::circular_buffer<unsigned char>] *)

Class CircularBuffer (B : Type) := {
  cb_new : Z -> B;                        (** by capacity *)
  cb_capacity : B -> Z;
  cb_data : B -> list Z;                  (** what [linearize] points to *)
  cb_insert_end : list Z -> B -> B;       (** [insert(end(), first, last)] *)
  cb_erase_begin : nat -> B -> B
}.

Definition cb_size {B} `{CircularBuffer B} (b : B) : Z := Z.of_nat (length (cb_data b)).
Definition cb_reserve {B} `{CircularBuffer B} (b : B) : Z := cb_capacity b - cb_size b.

Class CircularBufferLaws (B : Type) `{CircularBuffer B} : Prop := {
  cb_data_new : forall n, cb_data (cb_new n : B) = [];
  cb_capacity_new : forall n, cb_capacity (cb_new n : B) = n;
  cb_data_insert : forall l (b : B), Z.of_nat (length l) <= cb_reserve b ->
    cb_data (cb_insert_end l b) = cb_data b ++ l;
  cb_capacity_insert : forall l (b : B), cb_capacity (cb_insert_end l b) = cb_capacity b;
  cb_data_erase : forall n (b : B), (n <= length (cb_data b))%nat ->
    cb_data (cb_erase_begin n b) = drop n (cb_data b);
  cb_capacity_erase : forall n (b : B), cb_capacity (cb_erase_begin n b) = cb_capacity b
}.

(** A capacity and the bytes; what does not fit pushes out the oldest bytes. *)
Record ring : Type := MkRing { ring_capacity : Z; ring_data : list Z }.

#[export] Instance ring_buffer : CircularBuffer ring := {|
  cb_new n := MkRing n [];
  cb_capacity := ring_capacity;
  cb_data := ring_data;
  cb_insert_end l b :=
    let d := ring_data b ++ l in
    MkRing (ring_capacity b) (drop (Z.to_nat (Z.of_nat (length d) - ring_capacity b)) d);
  cb_erase_begin n b := MkRing (ring_capacity b) (drop n (ring_data b))
|}.

#[export] Instance ring_buffer_laws : CircularBufferLaws ring.
Proof.
  constructor; try done. intros l b Hl. unfold cb_reserve, cb_size in Hl. simpl in *.
  rewrite length_app. replace (Z.to_nat _) with 0%nat by lia. done.
Qed.

(** [async_fd::mode]: what a descriptor waits for in its loop. *)
Inductive fd_mode : Type := mode_none | mode_read | mode_write | mode_readwrite.

#[export] Instance fd_mode_eq_dec : EqDecision fd_mode.
Proof. solve_decision. Defined.

(** ** [tcp_connection] *)

Module tcp_connection.
Section conn.
Context {B : Type} `{CircularBuffer B}.

Definition k_default_buffer_size : Z := 1024 * (1024 + 512).

Record t : Type := Mk {
  buff_size : Z;
  close_connection : bool;
  r_buffer : B;
  w_buffer : B
}.

Definition new : t :=
  Mk k_default_buffer_size false (cb_new k_default_buffer_size) (cb_new k_default_buffer_size).

(** The second constructor: [buff_size] is not the size of the buffers. *)
Definition new_sized (n : Z) : t := Mk k_default_buffer_size false (cb_new n) (cb_new n).

(** [recv] failed ([None]), the peer is gone ([Some []]), or bytes came. *)
Definition read_from_fd (recv : option (list Z)) (b : B) : B * bool :=
  match recv with
  | None => (b, false)
  | Some [] => (b, false)
  | Some l => (cb_insert_end l b, true)
  end.

(** [write] failed or took [n] bytes. *)
Definition write_to_fd (written : option nat) (b : B) : B * bool :=
  match written with
  | None => (b, false)
  | Some n => (cb_erase_begin n b, true)
  end.

Definition read (recv : option (list Z)) (c : t) : t * bool :=
  if cb_reserve (r_buffer c) <=? 0 then (c, false)
  else
    match read_from_fd recv (r_buffer c) with
    | (b, false) => (Mk (buff_size c) true b (w_buffer c), false)
    | (b, true) => (Mk (buff_size c) (close_connection c) b (w_buffer c), true)
    end.

Definition queue_write (src : list Z) (c : t) : t * bool :=
  if cb_reserve (w_buffer c) <? Z.of_nat (length src) then (c, false)
  else (Mk (buff_size c) (close_connection c) (r_buffer c) (cb_insert_end src (w_buffer c)), true).

Definition write (written : option nat) (c : t) : t * bool :=
  match write_to_fd written (w_buffer c) with
  | (b, false) => (Mk (buff_size c) true (r_buffer c) b, false)
  | (b, true) => (Mk (buff_size c) (close_connection c) (r_buffer c) b, true)
  end.

Definition pending_read (_ : t) : bool := true.
Definition pending_write (c : t) : bool := cb_size (w_buffer c) >? 0.
Definition read_bytes (c : t) : Z := cb_size (r_buffer c).

(** [r_buffer.erase_begin(n)] and [close_connection = true], done by the users. *)
Definition erase_read (n : nat) (c : t) : t :=
  Mk (buff_size c) (close_connection c) (cb_erase_begin n (r_buffer c)) (w_buffer c).
Definition close (c : t) : t := Mk (buff_size c) true (r_buffer c) (w_buffer c).
End conn.
Arguments t : clear implicits.
End tcp_connection.

(** ** Frames *)

(** The four bytes of [htonl(n)], and [ntohl]. *)
Definition htonl (n : Z) : list Z :=
  [Z.shiftr n 24 mod 256; Z.shiftr n 16 mod 256; Z.shiftr n 8 mod 256; n mod 256].
Definition ntohl (l : list Z) : Z := foldl (fun acc b => acc * 256 + b) 0 l.

(** [generate_msg_ok] and [output_events], for a serialised message. *)
Definition frame (msg : list Z) : list Z := htonl (Z.of_nat (length msg)) ++ msg.

(** ** [riemann_tcp_connection] *)

Module riemann_tcp_connection.
Import tcp_connection.
Section conn.
Context {B : Type} `{CircularBuffer B}.

(** A message that says ok, serialised by the protobuf library. *)
Variable msg_ok : list Z.

Definition generate_msg_ok : list Z := frame msg_ok.

Definition add_ok_response (c : t B) : t B * bool := queue_write generate_msg_ok c.

Definition msg_size (c : t B) : t B * Z :=
  (erase_read 4 c, ntohl (take 4 (cb_data (r_buffer c)))).

Record state : Type := MkState {
  tcp_connection_ : t B;
  reading_header_ : bool;
  protobuf_size_ : Z
}.

Definition new_state (c : t B) : state := MkState c true 0.

Definition read_header (s : state) : state :=
  let c := tcp_connection_ s in
  if read_bytes c <? 4 then s
  else
    let '(c, size) := msg_size c in
    if size + 4 >? buff_size c then MkState (close c) (reading_header_ s) size
    else MkState c false size.

(** The message handed on, if any. *)
Definition read_message (s : state) : state * list (list Z) :=
  let c := tcp_connection_ s in
  if read_bytes c <? protobuf_size_ s then (s, [])
  else
    match add_ok_response c with
    | (c, false) => (MkState (close c) (reading_header_ s) (protobuf_size_ s), [])
    | (c, true) =>
        let n := Z.to_nat (protobuf_size_ s) in
        let msg := take n (cb_data (r_buffer c)) in
        (MkState (erase_read n c) true (protobuf_size_ s), [msg])
    end.

(** The [do]-[while] of [read_cb], which stops when a turn took no bytes. *)
Fixpoint read_loop (fuel : nat) (s : state) : option (state * list (list Z)) :=
  match fuel with
  | O => None
  | S fuel =>
      let bytes := read_bytes (tcp_connection_ s) in
      let '(s', out) :=
        if reading_header_ s then (read_header s, []) else read_message s in
      if bytes =? read_bytes (tcp_connection_ s') then Some (s', out)
      else
        match read_loop fuel s' with
        | None => None
        | Some (s'', out') => Some (s'', out ++ out')
        end
  end.

(** Every turn but the last takes a byte of the buffer. *)
Definition read_cb (recv : option (list Z)) (s : state) : option (state * list (list Z)) :=
  match read recv (tcp_connection_ s) with
  | (c, false) => Some (MkState c (reading_header_ s) (protobuf_size_ s), [])
  | (c, true) =>
      read_loop (S (length (cb_data (r_buffer c))))
        (MkState c (reading_header_ s) (protobuf_size_ s))
  end.

Definition write_cb (written : option nat) (s : state) : state :=
  if negb (pending_write (tcp_connection_ s)) then s
  else MkState (write written (tcp_connection_ s)).1 (reading_header_ s) (protobuf_size_ s).

(** [ready_read] and [ready_write] with what the system calls will return. *)
Definition callback (rd : option (option (list Z))) (wr : option (option nat)) (s : state)
  : option (state * list (list Z)) :=
  match (match rd with Some recv => read_cb recv s | None => Some (s, []) end) with
  | None => None
  | Some (s, out) =>
      if close_connection (tcp_connection_ s) then Some (s, out)
      else Some (match wr with Some written => write_cb written s | None => s end, out)
  end.
End conn.
Arguments state : clear implicits.
End riemann_tcp_connection.

(** The sender: [serialize] makes a message that says ok and has the events. *)
Definition output_events (serialize : list Event -> list Z) (events : list Event) : list Z :=
  frame (serialize events).

(** ** The bytes of a header *)

Lemma htonl_length n : length (htonl n) = 4%nat.
Proof. done. Qed.

Lemma ntohl_htonl n : 0 <= n < two32 -> ntohl (htonl n) = n.
Proof.
  unfold two32. intros Hn. unfold ntohl, htonl. cbn [foldl].
  rewrite !Z.shiftr_div_pow2 by lia. change (2 ^ 24) with (256 * 256 * 256).
  change (2 ^ 16) with (256 * 256). change (2 ^ 8) with 256.
  rewrite <- !Z.div_div by lia.
  pose proof (Z.div_mod n 256 ltac:(lia)).
  pose proof (Z.div_mod (n / 256) 256 ltac:(lia)).
  pose proof (Z.div_mod (n / 256 / 256) 256 ltac:(lia)).
  rewrite (Z.mod_small (n / 256 / 256 / 256) 256); [lia|].
  split; [repeat apply Z.div_pos; lia|].
  rewrite !Z.div_div by lia. apply Z.div_lt_upper_bound; lia.
Qed.

Lemma htonl_inj a b : 0 <= a < two32 -> 0 <= b < two32 -> htonl a = htonl b -> a = b.
Proof. intros Ha Hb H. rewrite <- (ntohl_htonl a Ha), H. by apply ntohl_htonl. Qed.

(** ** Delivery of framed messages *)

Section delivery.
Import tcp_connection riemann_tcp_connection.
Context {B : Type} `{CircularBufferLaws B}.
Variable msg_ok : list Z.

Abbreviation ack := (generate_msg_ok msg_ok).
Abbreviation loop := (read_loop (B := B) msg_ok).
Abbreviation r_data s := (cb_data (r_buffer (tcp_connection_ s))).
Abbreviation w_data s := (cb_data (w_buffer (tcp_connection_ s))).
Abbreviation w_capacity s := (cb_capacity (w_buffer (tcp_connection_ s))).

(** A message that the protocol can carry; the empty one stalls the loop. *)
Definition carried (m : list Z) : Prop :=
  0 < Z.of_nat (length m) /\ Z.of_nat (length m) + 4 <= k_default_buffer_size.

(** The bytes received and not handed on yet. *)
Definition pending (s : state B) : list Z :=
  if reading_header_ s then r_data s else htonl (protobuf_size_ s) ++ r_data s.

(** The frame at the front of them is not complete. *)
Definition idle (s : state B) : Prop :=
  read_bytes (tcp_connection_ s) < if reading_header_ s then 4 else protobuf_size_ s.

Record conn_ok (s : state B) : Prop := {
  ok_open : close_connection (tcp_connection_ s) = false;
  ok_buff_size : buff_size (tcp_connection_ s) = k_default_buffer_size;
  ok_capacity : cb_capacity (r_buffer (tcp_connection_ s)) = k_default_buffer_size;
  ok_size : reading_header_ s = false ->
    0 <= protobuf_size_ s /\ protobuf_size_ s + 4 <= k_default_buffer_size
}.

Abbreviation stream ms := (concat (frame <$> ms)).

Lemma carried_u32 m : carried m -> 0 <= Z.of_nat (length m) < two32.
Proof. unfold carried, k_default_buffer_size, two32. lia. Qed.

(** A header in front of a stream of frames is that of the first message. *)
Lemma header_of_stream h d sock ms :
  length h = 4%nat -> Forall carried ms -> h ++ d ++ sock = stream ms ->
  exists m ms', ms = m :: ms' /\ h = htonl (Z.of_nat (length m)) /\ d ++ sock = m ++ stream ms'.
Proof.
  intros Hh Hms Hs. destruct ms as [|m ms']; [by destruct h|].
  exists m, ms'. split; [done|]. rewrite fmap_cons in Hs. cbn [concat] in Hs.
  change (frame m) with (htonl (Z.of_nat (length m)) ++ m) in Hs.
  rewrite <- app_assoc in Hs. by apply app_inj_1 in Hs.
Qed.

Lemma header_turn s sock ms :
  conn_ok s -> Forall carried ms -> reading_header_ s = true ->
  4 <= read_bytes (tcp_connection_ s) -> pending s ++ sock = stream ms ->
  let s' := read_header s in
  conn_ok s' /\ pending s' = pending s /\ w_data s' = w_data s /\ w_capacity s' = w_capacity s
  /\ (length (r_data s') < length (r_data s))%nat.
Proof.
  intros [Ho Hb Hc _] Hms Hh H4 Hp. unfold pending in *. rewrite Hh in *.
  unfold read_header, read_bytes, cb_size in *.
  destruct (header_of_stream (take 4 (r_data s)) (drop 4 (r_data s)) sock ms)
    as (m & ms' & -> & Hm & _); [rewrite length_take; lia|done|
    by rewrite app_assoc, take_drop|].
  apply Forall_cons_iff in Hms as [Hcm _].
  rewrite (proj2 (Z.ltb_ge _ _)) by lia. cbn [msg_size]. unfold msg_size.
  rewrite Hm, ntohl_htonl by (by apply carried_u32). destruct Hcm as [Hm0 Hm4].
  cbn [buff_size erase_read]. rewrite Hb, Z.gtb_ltb, (proj2 (Z.ltb_ge _ _)) by lia.
  cbv zeta. unfold erase_read.
  cbn [tcp_connection_ reading_header_ protobuf_size_ r_buffer w_buffer].
  rewrite cb_data_erase by lia. split; [|split; [|split; [done|split; [done|]]]].
  - constructor; simpl; [done|done|by rewrite cb_capacity_erase|lia].
  - by rewrite <- Hm, take_drop.
  - rewrite length_drop. lia.
Qed.

Lemma message_turn s sock ms :
  conn_ok s -> Forall carried ms -> reading_header_ s = false ->
  protobuf_size_ s <= read_bytes (tcp_connection_ s) -> pending s ++ sock = stream ms ->
  Z.of_nat (length (w_data s)) + Z.of_nat (length ms * length ack) <= w_capacity s ->
  exists s' m ms', read_message msg_ok s = (s', [m]) /\ ms = m :: ms' /\ conn_ok s'
  /\ pending s' ++ sock = stream ms'
  /\ w_data s' = w_data s ++ ack /\ w_capacity s' = w_capacity s
  /\ (length (r_data s') < length (r_data s))%nat.
Proof.
  intros [Ho Hb Hc Hsz] Hms Hh Hle Hp Hw. unfold pending in Hp. rewrite Hh in Hp.
  rewrite <- app_assoc in Hp.
  apply header_of_stream in Hp as (m & ms' & -> & Hm & Hd); [|done|done].
  apply Forall_cons_iff in Hms as [Hcm _].
  apply htonl_inj in Hm;
    [|destruct (Hsz Hh); unfold k_default_buffer_size, two32 in *; lia|by apply carried_u32].
  unfold read_message, read_bytes, cb_size in *. rewrite (proj2 (Z.ltb_ge _ _)) by lia.
  unfold add_ok_response, queue_write. cbn [length Nat.mul] in Hw.
  rewrite (proj2 (Z.ltb_ge _ _)) by (unfold cb_reserve, cb_size; lia).
  cbn [r_buffer]. eexists _, _, ms'. split; [reflexivity|]. rewrite Hm, Nat2Z.id in *.
  destruct Hcm as [Hm0 Hm4].
  assert (take (length m) (r_data s) = m) as Ht.
  { rewrite <- (take_app_le _ sock) by lia. rewrite Hd. apply take_app_length. }
  rewrite Ht. split; [done|].
  unfold pending, erase_read.
  cbn [tcp_connection_ reading_header_ r_buffer w_buffer].
  rewrite cb_data_erase by lia. rewrite cb_data_insert by (unfold cb_reserve, cb_size; lia).
  split; [|split; [|split; [done|split]]].
  - constructor; simpl; [done|done|by rewrite cb_capacity_erase|done].
  - rewrite <- (take_drop (length m) (r_data s)), Ht, <- app_assoc in Hd.
    by apply app_inv_head in Hd.
  - apply cb_capacity_insert.
  - rewrite length_drop. lia.
Qed.

(** [read_loop] hands on every complete message that the buffer holds. *)
Lemma read_loop_frames fuel s sock ms :
  conn_ok s -> Forall carried ms -> pending s ++ sock = stream ms ->
  Z.of_nat (length (w_data s)) + Z.of_nat (length ms * length ack) <= w_capacity s ->
  (length (r_data s) < fuel)%nat ->
  exists s' out rest, loop fuel s = Some (s', out) /\ ms = out ++ rest /\ conn_ok s' /\ idle s'
  /\ pending s' ++ sock = stream rest
  /\ w_data s' = w_data s ++ concat (replicate (length out) ack)
  /\ w_capacity s' = w_capacity s.
Proof.
  revert s ms. induction fuel as [|fuel IH]; intros s ms Hok Hms Hp Hw Hf; [lia|].
  cbn [read_loop].
  destruct (decide (idle s)) as [Hi|Hi].
  - exists s, [], ms. unfold idle in Hi. rewrite app_nil_r.
    assert ((if reading_header_ s then (read_header s, []) else read_message msg_ok s)
            = (s, [])) as ->.
    { unfold read_header, read_message. destruct (reading_header_ s);
        by rewrite (proj2 (Z.ltb_lt _ _)). }
    by rewrite Z.eqb_refl.
  - unfold idle in Hi. destruct (reading_header_ s) eqn:Hh.
    + destruct (header_turn s sock ms) as (Hok' & Hp' & Hw1 & Hw2 & Hlt); [done..|lia|done|].
      unfold read_bytes at 1 2, cb_size. rewrite (proj2 (Z.eqb_neq _ _)) by lia.
      rewrite <- Hp' in Hp.
      destruct (IH _ ms Hok' Hms Hp) as (s' & out & rest & -> & Hrest);
        [by rewrite Hw1, Hw2|lia|].
      rewrite <- Hw1, <- Hw2. exists s', out, rest. done.
    + destruct (message_turn s sock ms)
        as (s1 & m & ms' & -> & -> & Hok' & Hp' & Hw1 & Hw2 & Hlt); [done..|lia|done|done|].
      unfold read_bytes at 1 2, cb_size. rewrite (proj2 (Z.eqb_neq _ _)) by lia.
      apply Forall_cons_iff in Hms as [_ Hms]. cbn [length] in Hw.
      destruct (IH _ ms' Hok' Hms Hp') as (s' & out & rest & -> & -> & Hok2 & Hi2 & Hp2 & Hw3 & Hw4);
        [rewrite Hw1, Hw2, length_app; lia|lia|].
      exists s', (m :: out), rest. cbn [length replicate concat].
      rewrite Hw3, Hw1, Hw4, Hw2, <- app_assoc. done.
Qed.

(** A peer that sends [sock] and reads the acknowledgements, and a network that hands
    over any number of bytes at a time. *)
Record net : Type := MkNet {
  sock : list Z;
  conn : state B;
  delivered : list (list Z);
  sent : list Z
}.

(** One turn of the event loop: the socket has up to [k] bytes to read (at least one),
    or takes up to [k] bytes. *)
Inductive ready : Type := Readable (k : Z) | Writable (k : nat).

Definition turn (a : ready) (n : net) : option net :=
  match a with
  | Readable k =>
      let free := cb_reserve (r_buffer (tcp_connection_ (conn n))) in
      let k := Z.to_nat (Z.min (Z.max 1 k) free) in
      match sock n with
      | [] => Some n
      | _ =>
          '(s, out) ← callback msg_ok (Some (Some (take k (sock n)))) None (conn n);
          Some (MkNet (drop k (sock n)) s (delivered n ++ out) (sent n))
      end
  | Writable k =>
      let k := Nat.min k (length (w_data (conn n))) in
      '(s, out) ← callback msg_ok None (Some (Some k)) (conn n);
      Some (MkNet (sock n) s (delivered n ++ out) (sent n ++ take k (w_data (conn n))))
  end.

Fixpoint turns (l : list ready) (n : net) : option net :=
  match l with [] => Some n | a :: l' => n' ← turn a n; turns l' n' end.

(** Being ready for both is being ready for one after the other. *)
Lemma callback_both rd wr (s : state B) :
  callback msg_ok (Some rd) (Some wr) s =
  '(s', out) ← callback msg_ok (Some rd) None s;
  if close_connection (tcp_connection_ s') then Some (s', out)
  else '(s'', out') ← callback msg_ok None (Some wr) s'; Some (s'', out ++ out').
Proof.
  unfold callback. destruct (read_cb msg_ok rd s) as [[s1 out]|]; [|done].
  simpl. destruct (close_connection (tcp_connection_ s1)) eqn:Hc; simpl; rewrite Hc; [done|].
  simpl. by rewrite app_nil_r.
Qed.

Record net_ok (ms : list (list Z)) (n : net) : Prop := {
  net_conn : conn_ok (conn n);
  net_idle : idle (conn n);
  net_rest : exists rest, ms = delivered n ++ rest /\ pending (conn n) ++ sock n = stream rest;
  net_acks : sent n ++ w_data (conn n) = concat (replicate (length (delivered n)) ack);
  net_capacity : w_capacity (conn n) = k_default_buffer_size
}.

Definition net_init (ms : list (list Z)) : net :=
  MkNet (stream ms) (new_state tcp_connection.new) [] [].

Lemma net_init_ok ms : net_ok ms (net_init ms).
Proof.
  constructor.
  - constructor; [done|done|apply cb_capacity_new|done].
  - unfold idle, read_bytes, cb_size. simpl. rewrite cb_data_new. simpl. lia.
  - exists ms. split; [done|]. unfold pending. simpl. by rewrite cb_data_new.
  - simpl. by rewrite cb_data_new.
  - apply cb_capacity_new.
Qed.

(** The buffer is never full between two turns. *)
Lemma idle_room s : conn_ok s -> idle s -> 0 < cb_reserve (r_buffer (tcp_connection_ s)).
Proof.
  intros [_ _ Hc Hsz] Hi. unfold idle, read_bytes in Hi. unfold cb_reserve. rewrite Hc.
  destruct (reading_header_ s); [unfold k_default_buffer_size; lia|].
  destruct (Hsz eq_refl). lia.
Qed.

Lemma acks_room ms n rest :
  Z.of_nat (length ms * length ack) <= k_default_buffer_size -> net_ok ms n ->
  ms = delivered n ++ rest ->
  Z.of_nat (length (w_data (conn n))) + Z.of_nat (length rest * length ack)
  <= w_capacity (conn n).
Proof.
  intros Hacks [_ _ _ Ha Hc] ->. apply (f_equal length) in Ha.
  rewrite length_app, length_concat, fmap_replicate, sum_list_replicate in Ha.
  rewrite length_app in Hacks. lia.
Qed.

Lemma read_some l (c : tcp_connection.t B) :
  l <> [] -> 0 < cb_reserve (r_buffer c) ->
  read (Some l) c =
  (Mk (buff_size c) (close_connection c) (cb_insert_end l (r_buffer c)) (w_buffer c), true).
Proof.
  intros Hl Hr. unfold read. rewrite (proj2 (Z.leb_gt _ _)) by lia. by destruct l.
Qed.

Lemma readable_ok ms k n :
  Forall carried ms -> Z.of_nat (length ms * length ack) <= k_default_buffer_size ->
  net_ok ms n ->
  exists n', turn (Readable k) n = Some n' /\ net_ok ms n'
  /\ (length (sock n') <= pred (length (sock n)))%nat.
Proof.
  intros Hms Hacks Hok. pose proof Hok as [Hc Hi (rest & Hr & Hp) Ha Hcap].
  cbn [turn]. destruct (sock n) as [|z zs] eqn:Hs; [exists n; by rewrite Hs|].
  rewrite <- Hs. pose proof (idle_room _ Hc Hi) as Hroom.
  set (j := Z.to_nat _). assert (0 < j)%nat as Hj by lia.
  pose proof (acks_room ms n rest Hacks Hok Hr) as Hw.
  assert (length (take j (sock n)) <= j)%nat as Hlj by (rewrite length_take; lia).
  set (s1 := MkState (Mk (buff_size (tcp_connection_ (conn n)))
    (close_connection (tcp_connection_ (conn n)))
    (cb_insert_end (take j (sock n)) (r_buffer (tcp_connection_ (conn n))))
    (w_buffer (tcp_connection_ (conn n)))) (reading_header_ (conn n)) (protobuf_size_ (conn n))).
  assert (r_data s1 = r_data (conn n) ++ take j (sock n)) as Hd1
    by (apply cb_data_insert; lia).
  destruct (read_loop_frames (S (length (r_data s1))) s1 (drop j (sock n)) rest)
    as (s' & out & rest' & Hl & Hr' & Hc' & Hi' & Hp' & Hw' & Hcap').
  - destruct Hc. constructor; [done|done| |done]. simpl. by rewrite cb_capacity_insert.
  - rewrite Hr, Forall_app in Hms. apply Hms.
  - rewrite <- Hp. unfold pending in *. rewrite Hd1. cbn [reading_header_ protobuf_size_ s1].
    destruct (reading_header_ (conn n)); by rewrite <- Hs, <- !app_assoc, take_drop.
  - done.
  - lia.
  - assert (callback msg_ok (Some (Some (take j (sock n)))) None (conn n) = Some (s', out)) as ->.
    { unfold callback, read_cb. rewrite read_some; [|rewrite Hs; by destruct j; [lia|]|done].
      change (read_loop msg_ok _ _) with (loop (S (length (r_data s1))) s1). rewrite Hl.
      by rewrite (ok_open _ Hc'). }
    eexists. split; [reflexivity|]. split.
    + constructor; cbn [conn sock delivered sent]; [done|done| | |].
      * exists rest'. by rewrite <- app_assoc, <- Hr'.
      * rewrite Hw', app_assoc. cbn [tcp_connection_ w_buffer s1]. rewrite Ha, length_app.
        by rewrite replicate_add, concat_app.
      * by rewrite Hcap'.
    + cbn [sock]. rewrite length_drop, Hs. simpl. lia.
Qed.

Lemma writable_ok ms k n :
  net_ok ms n -> exists n', turn (Writable k) n = Some n' /\ net_ok ms n' /\ sock n' = sock n.
Proof.
  intros [Hc Hi (rest & Hr & Hp) Ha Hcap]. cbn [turn].
  set (j := Nat.min _ _). assert (j <= length (w_data (conn n)))%nat as Hj by lia.
  clearbody j.
  unfold callback. rewrite (ok_open _ Hc). cbn [mbind option_bind].
  unfold write_cb. destruct (pending_write (tcp_connection_ (conn n))) eqn:Hpw; simpl.
  - eexists. split; [reflexivity|]. split; [|done].
    constructor; cbn [conn sock delivered sent]; simpl.
    + destruct Hc. by constructor.
    + done.
    + exists rest. by rewrite app_nil_r.
    + rewrite cb_data_erase by done. by rewrite <- app_assoc, take_drop, app_nil_r.
    + by rewrite cb_capacity_erase.
  - unfold pending_write, cb_size in Hpw. rewrite Z.gtb_ltb in Hpw.
    apply Z.ltb_ge in Hpw. destruct (w_data (conn n)) as [|? ?] eqn:Hw; [|simpl in Hpw; lia].
    eexists. split; [reflexivity|]. split; [|done].
    constructor; cbn [conn sock delivered sent]; [done|done| | |done].
    + exists rest. by rewrite app_nil_r.
    + rewrite Hw, take_nil, !app_nil_r in *. done.
Qed.

Definition is_readable (a : ready) : bool :=
  match a with Readable _ => true | Writable _ => false end.

Lemma turns_ok ms l n :
  Forall carried ms -> Z.of_nat (length ms * length ack) <= k_default_buffer_size ->
  net_ok ms n ->
  exists n', turns l n = Some n' /\ net_ok ms n'
  /\ (length (sock n') <= length (sock n) - length (filter (fun a => is_readable a = true) l))%nat.
Proof.
  intros Hms Hacks. revert n. induction l as [|a l IH]; intros n Hok.
  { exists n. split; [done|]. split; [done|]. simpl. lia. }
  cbn [turns]. destruct a as [k|k].
  - destruct (readable_ok ms k n Hms Hacks Hok) as (n1 & -> & Hok1 & Hl1).
    destruct (IH n1 Hok1) as (n' & Ht & Hok' & Hl'). exists n'. split; [done|].
    split; [done|]. rewrite filter_cons_True by done. simpl. lia.
  - destruct (writable_ok ms k n Hok) as (n1 & -> & Hok1 & Hl1).
    destruct (IH n1 Hok1) as (n' & Ht & Hok' & Hl'). exists n'. split; [done|].
    split; [done|]. rewrite filter_cons_False by done. by rewrite Hl1 in Hl'.
Qed.

(** Nothing is left when all bytes have been read. *)
Lemma all_delivered ms n :
  Forall carried ms -> net_ok ms n -> sock n = [] -> delivered n = ms.
Proof.
  intros Hms [Hc Hi (rest & -> & Hp) _ _] Hs. rewrite Hs, app_nil_r in Hp.
  apply Forall_app in Hms as [_ Hms]. destruct rest as [|m rest]; [by rewrite app_nil_r|].
  exfalso. unfold idle, read_bytes, cb_size in Hi. unfold pending in Hp.
  destruct (reading_header_ (conn n)) eqn:Hh.
  - apply (f_equal length) in Hp. rewrite fmap_cons in Hp. cbn [concat] in Hp.
    rewrite length_app in Hp. unfold frame in Hp at 1. rewrite length_app, htonl_length in Hp.
    lia.
  - destruct (header_of_stream (htonl (protobuf_size_ (conn n))) (r_data (conn n)) []
      (m :: rest)) as (m' & ms' & [= <- <-] & Hm & Hd); [done|done|by rewrite app_nil_r|].
    apply Forall_cons_iff in Hms as [Hcm _].
    apply htonl_inj in Hm; [|destruct (ok_size _ Hc Hh);
      unfold k_default_buffer_size, two32 in *; lia|by apply carried_u32].
    rewrite app_nil_r in Hd. apply (f_equal length) in Hd. rewrite length_app in Hd. lia.
Qed.

(** Frames that are sent arrive. *)
Lemma frames_delivered ms (l : list ready) :
  Forall carried ms -> Z.of_nat (length ms * length ack) <= k_default_buffer_size ->
  exists n, turns l (net_init ms) = Some n
  /\ close_connection (tcp_connection_ (conn n)) = false
  /\ delivered n `prefix_of` ms
  /\ sent n ++ w_data (conn n) = concat (replicate (length (delivered n)) ack)
  /\ ((length (stream ms) <= length (filter (fun a => is_readable a = true) l))%nat -> delivered n = ms).
Proof.
  intros Hms Hacks. destruct (turns_ok ms l (net_init ms)) as (n & Ht & Hok & Hl); [done|done|apply net_init_ok|].
  exists n. split; [done|]. pose proof Hok as [Hc _ (rest & Hr & _) Ha _].
  split; [apply Hc|]. split; [by exists rest|]. split; [done|]. intros Hreads.
  apply all_delivered; [done|done|]. apply nil_length_inv. cbn [sock net_init] in Hl. lia.
Qed.

(** The riemann protocol over TCP.  A peer sends batches of events with
    [output_events]; the network cuts the bytes into pieces of any size and the peer
    reads the answers at any pace.  Whatever the pieces are, the connection is not
    closed, the messages handed on are the first ones of those sent, each whole and
    in order, one ok response has been sent or queued for each of them, and once
    there were enough reads (one per byte is enough) all of them have been handed on:
    the read buffer never fills up.  The messages must fit into the buffer and not
    be empty, and the responses must fit into the write buffer. *)
Theorem riemann_delivery (serialize : list Event -> list Z) (batches : list (list Event))
    (l : list ready) :
  Forall (fun b => carried (serialize b)) batches ->
  Z.of_nat (length batches * length ack) <= k_default_buffer_size ->
  let bytes := concat (output_events serialize <$> batches) in
  exists n, turns l (MkNet bytes (new_state tcp_connection.new) [] []) = Some n
  /\ close_connection (tcp_connection_ (conn n)) = false
  /\ delivered n `prefix_of` (serialize <$> batches)
  /\ sent n ++ w_data (conn n) = concat (replicate (length (delivered n)) ack)
  /\ ((length bytes <= length (filter (fun a => is_readable a = true) l))%nat ->
      delivered n = serialize <$> batches).
Proof.
  intros Hms Hacks bytes.
  assert (bytes = stream (serialize <$> batches)) as -> by (by rewrite <- list_fmap_compose).
  apply frames_delivered; [by apply Forall_fmap|by rewrite length_fmap].
Qed.
End delivery.

Lemma riemann_delivery_witness :
  let serialize (b : list Event) := [10; Z.of_nat (length b)] in
  let batches := [[Event.empty]; [Event.empty; Event.empty]] in
  exists n, turns (B := ring) [16; 1] (repeat (Readable 5) 12)
      (MkNet (concat (output_events serialize <$> batches))
         (riemann_tcp_connection.new_state tcp_connection.new) [] []) = Some n
  /\ delivered n = [[10; 1]; [10; 2]].
Proof.
  destruct (riemann_delivery (B := ring) [16; 1] (fun b => [10; Z.of_nat (length b)])
    [[Event.empty]; [Event.empty; Event.empty]] (repeat (Readable 5) 12))
    as (n & Hn & _ & _ & _ & Hd).
  - repeat constructor; by vm_compute.
  - by vm_compute.
  - exists n. split; [exact Hn|]. apply Hd. by_decide.
Defined.

(** The loop of [read_cb] stops at an empty message, because it takes no bytes: a
    message that follows in the same piece waits for the next one. *)
Example empty_message_stalls :
  let s := riemann_tcp_connection.new_state (B := ring) tcp_connection.new in
  (riemann_tcp_connection.callback [16; 1] (Some (Some (frame [] ++ frame [7]))) None s)
    ≫= (fun p => Some p.2) = Some [[]].
Proof. vm_compute. reflexivity. Qed.

(** A header that announces too many bytes closes the connection, but the rest of the
    buffer is still read as frames. *)
Example oversized_still_parsed :
  let s := riemann_tcp_connection.new_state (B := ring) tcp_connection.new in
  (riemann_tcp_connection.callback [16; 1]
     (Some (Some (htonl 1572861 ++ frame [7]))) None s)
    ≫= (fun p => Some (tcp_connection.close_connection (riemann_tcp_connection.tcp_connection_ p.1), p.2))
    = Some (true, [[7]]).
Proof. vm_compute. reflexivity. Qed.
