(* ===== verification/WebSocket.v ===== *)
(** * WebSocket connections

    [src/transport/ws_util.cpp] (the HTTP handshake and the frames) and
    [src/transport/ws_connection.cpp].  [boost::split] and the SHA-1 of OpenSSL are
    parameters; the machine is little-endian. *)

From S2P Require Import Prelude Codec Tcp.

Local Open Scope Z_scope.

(** Bytes and characters. *)
Definition byte_of (c : ascii) : Z := Z.of_N (N_of_ascii c).
Definition char_of (b : Z) : ascii := ascii_of_N (Z.to_N b).

Definition k_lf : ascii := "010".
Definition k_cr : ascii := "013".

Module ws_util.
Section ws_util.
Variable split_spaces : list ascii -> list (list ascii).
Variable sha1 : list ascii -> list Z.

Definition k_http_header_end : list ascii := [k_cr; k_lf; k_cr; k_lf].
Definition k_http_header_end_no_r : list ascii := [k_lf; k_lf].
Definition k_guid : list ascii := chars "258EAFA5-E914-47DA-95CA-C5AB0DC85B11".

Definition ends_with (str end_ : list ascii) : bool :=
  if (length end_ <=? length str)%nat
  then bool_decide (drop (length str - length end_) str = end_)
  else false.

(** [std::getline]: the pieces between line feeds; no piece after the last one. *)
Fixpoint getlines (item s : list ascii) : list (list ascii) :=
  match s with
  | [] => match item with [] => [] | _ => [item] end
  | c :: s' => if decide (c = k_lf) then item :: getlines [] s' else getlines (item ++ [c]) s'
  end.

(** [pop_back] while the last character is an end of line. *)
Fixpoint trim (s : list ascii) : list ascii :=
  match s with
  | [] => []
  | c :: s' =>
      match trim s' with
      | [] => if decide (c = k_cr \/ c = k_lf) then [] else [c]
      | s'' => c :: s''
      end
  end.

Definition get_lines (s : list ascii) : list (list ascii) :=
  filter (fun item => item <> []) (trim <$> getlines [] s).

Definition find_header_end (header : list ascii) : bool :=
  ends_with header k_http_header_end || ends_with header k_http_header_end_no_r.

Record header_values : Type := MkHeaders {
  method : list ascii;
  uri : list ascii;
  version : list ascii;
  headers : gmap (list ascii) (list ascii)
}.

Definition no_headers : header_values := MkHeaders [] [] [] ∅.

(** One line after the first: the name before the colon, the value from two characters
    after it; [insert] keeps an entry that is there. *)
Definition parse_line (hs : gmap (list ascii) (list ascii)) (line : list ascii)
  : gmap (list ascii) (list ascii) :=
  match take_until ":" line with
  | (_, []) => hs
  | (name, _) =>
      let pos := (length name + 2)%nat in
      if (length line <=? pos)%nat then hs
      else match hs !! name with
           | Some _ => hs
           | None => <[name := drop pos line]> hs
           end
  end.

Definition parse_header (header : list ascii) (hv : header_values)
  : result (header_values * bool) :=
  match get_lines header with
  | [] => Ok (hv, false)
  | first :: lines =>
      match split_spaces first with
      | m :: u :: v :: _ => Ok (MkHeaders m u v (foldl parse_line (headers hv) lines), true)
      | _ => Throw undefined_behaviour
      end
  end.

Definition make_header_response (hv : header_values) : list ascii * bool :=
  match headers hv !! chars "Sec-WebSocket-Key" with
  | None => ([], false)
  | Some key =>
      let eol := [k_cr; k_lf] in
      (chars "HTTP/1.1 101 Switching Protocols" ++ eol
       ++ chars "Upgrade: websocket" ++ eol
       ++ chars "Connection: Upgrade" ++ eol
       ++ chars "Sec-WebSocket-Accept: " ++ base64Encode (sha1 (key ++ k_guid)) ++ eol ++ eol,
       true)
  end.
End ws_util.

(** The bytes of [htons(n)] as they are in memory. *)
Definition htons (n : Z) : list Z := [Z.shiftr n 8 mod 256; n mod 256].

(** The 64 bits of the long form hold [htons] of the lower 16, followed by zeros. *)
Definition create_frame (payload : list Z) : list Z :=
  let len := Z.of_nat (length payload) in
  (if len <=? 125 then [129; len]
   else if (126 <=? len) && (len <=? 65535) then [129; 126] ++ htons len
   else [129; 127] ++ htons (len mod 65536) ++ [0; 0; 0; 0; 0; 0])
  ++ payload.

Record frame_length_t : Type := MkFrame {
  malformed_header : bool;
  pending_bytes : bool;
  header_length : Z;
  payload_length : Z;
  decoded : list Z
}.

(** [buffer[i]]. *)
Definition at_ (buffer : list Z) (i : Z) : Z := default 0 (buffer !! Z.to_nat i).

Definition decode_frame (buffer : list Z) (buffer_len : Z) : frame_length_t :=
  if buffer_len <? 2 then MkFrame false true 0 0 []
  else
    let first_byte_len := Z.land (at_ buffer 1) 0x7F in
    let len_bytes := if first_byte_len =? 126 then 2 else if first_byte_len =? 127 then 8 else 1 in
    if buffer_len - 2 <? len_bytes then MkFrame false true 0 0 []
    else
      let payload_length :=
        if len_bytes =? 1 then first_byte_len
        else ntohl (take (Z.to_nat len_bytes) (drop 2 buffer)) in
      let header_length := 1 + len_bytes + 4 + (if len_bytes >? 1 then 1 else 0) in
      let total_length := (header_length + payload_length) mod two64 in
      if buffer_len <? total_length then MkFrame false true header_length payload_length []
      else
        MkFrame false false header_length payload_length
          (imap (fun j b => Z.lxor b (at_ buffer (header_length - 4 + Z.of_nat j mod 4)))
             (take (Z.to_nat (total_length - header_length)) (drop (Z.to_nat header_length) buffer))).
End ws_util.

(** ** Frames *)

(** [k] bytes of [n], the most significant first. *)
Fixpoint big_endian (k : nat) (n : Z) : list Z :=
  match k with
  | O => []
  | S k' => (n / 256 ^ Z.of_nat k') mod 256 :: big_endian k' n
  end.

Lemma big_endian_length k n : length (big_endian k n) = k.
Proof. induction k; simpl; congruence. Qed.

Lemma ntohl_acc k n acc :
  foldl (fun acc b => acc * 256 + b) acc (big_endian k n)
  = acc * 256 ^ Z.of_nat k + n mod 256 ^ Z.of_nat k.
Proof.
  revert acc. induction k as [|k IH]; intros acc.
  { simpl. rewrite Z.mod_1_r. lia. }
  cbn [big_endian foldl]. rewrite IH, Nat2Z.inj_succ, Z.pow_succ_r by lia.
  assert (0 < 256 ^ Z.of_nat k) by (apply Z.pow_pos_nonneg; lia).
  rewrite (Z.mul_comm 256), Z.rem_mul_r by lia. nia.
Qed.

Lemma ntohl_big_endian k n : 0 <= n < 256 ^ Z.of_nat k -> ntohl (big_endian k n) = n.
Proof. intros Hn. unfold ntohl. rewrite ntohl_acc, Z.mod_small by lia. lia. Qed.

(** RFC 6455: the length of a payload, in the second byte and in up to eight more. *)
Definition rfc_length (len : Z) : Z * list Z :=
  if len <=? 125 then (len, [])
  else if len <=? 65535 then (126, big_endian 2 len)
  else (127, big_endian 8 len).

(** A masked text frame, as a client sends it. *)
Definition client_frame (mask payload : list Z) : list Z :=
  let '(len7, ext) := rfc_length (Z.of_nat (length payload)) in
  [129; 128 + len7] ++ ext ++ mask
  ++ imap (fun j b => Z.lxor b (ws_util.at_ mask (Z.of_nat j mod 4))) payload.

(** What a client reads of a frame of the server: the length and the payload. *)
Definition read_frame (f : list Z) : Z * list Z :=
  let len7 := Z.land (ws_util.at_ f 1) 127 in
  if len7 =? 126 then (ntohl (take 2 (drop 2 f)), drop 4 f)
  else if len7 =? 127 then (ntohl (take 8 (drop 2 f)), drop 10 f)
  else (len7, drop 2 f).

Lemma htons_big_endian n : ws_util.htons n = big_endian 2 n.
Proof.
  unfold ws_util.htons. rewrite Z.shiftr_div_pow2 by lia. cbn [big_endian].
  rewrite Z.div_1_r. done.
Qed.

(** [create_frame] announces the length of its payload correctly up to 65535 bytes.  A
    longer one is announced as its lower 16 bits times 2^48, which is wrong for
    every payload that fits into memory: the client is lost. *)
Theorem create_frame_spec (payload : list Z) :
  let len := Z.of_nat (length payload) in
  let '(announced, body) := read_frame (ws_util.create_frame payload) in
  body = payload
  /\ (len <= 65535 -> announced = len)
  /\ (65535 < len -> announced = (len mod 65536) * 2 ^ 48)
  /\ (65535 < len < 2 ^ 48 -> announced <> len).
Proof.
  intros len. unfold ws_util.create_frame. fold len. unfold read_frame.
  destruct (Z.leb_spec len 125) as [H1|H1].
  { assert (Z.land len 127 = len) as Hl.
    { change 127 with (Z.ones 7). rewrite Z.land_ones by lia. apply Z.mod_small. lia. }
    cbn [app]. change (ws_util.at_ (129 :: len :: payload) 1) with len. rewrite Hl.
    rewrite (proj2 (Z.eqb_neq len 126)), (proj2 (Z.eqb_neq len 127)) by lia.
    split; [done|]. lia. }
  rewrite (proj2 (Z.leb_le 126 len)) by lia. cbn [andb].
  destruct (Z.leb_spec len 65535) as [H2|H2].
  - rewrite htons_big_endian. cbn [app big_endian].
    change (ws_util.at_ _ 1) with 126. cbn -[ntohl Z.div Z.modulo len].
    split; [done|]. split; [|lia]. intros _. apply (ntohl_big_endian 2). change (256 ^ _) with 65536. lia.
  - rewrite htons_big_endian. cbn [app big_endian].
    change (ws_util.at_ _ 1) with 127. cbn -[ntohl Z.div Z.modulo len].
    rewrite Z.div_1_r, Z.pow_1_r.
    assert (forall a b, ntohl [a; b; 0; 0; 0; 0; 0; 0] = (a * 256 + b) * 2 ^ 48) as Hn.
    { intros a b. unfold ntohl. cbn [foldl]. change (2 ^ 48) with 281474976710656. lia. }
    rewrite Hn. set (m := len mod 65536).
    assert (0 <= m < 65536) by (apply Z.mod_pos_bound; lia).
    replace ((m / 256) mod 256 * 256 + m mod 256) with m by (Z.to_euclidean_division_equations; lia).
    split; [done|]. split; [lia|]. split; [done|]. intros Hlen.
    destruct (decide (m = 0)) as [->|]; [lia|]. change (2 ^ 48) with 281474976710656 in *. lia.
Qed.

(** The second byte of a client's frame holds the mask bit and the short length. *)
Lemma second_byte len7 : 0 <= len7 <= 127 -> Z.land (128 + len7) 0x7F = len7.
Proof.
  intros H. change 0x7F with (Z.ones 7). rewrite Z.land_ones by lia.
  rewrite Z.add_mod, Z.mod_same, Z.add_0_l, Z.mod_mod by lia. apply Z.mod_small. lia.
Qed.

(** What of the header a received piece shows, once it is long enough. *)
Lemma at_take (l : list Z) n i : (Z.to_nat i < n)%nat -> ws_util.at_ (take n l) i = ws_util.at_ l i.
Proof. intros H. unfold ws_util.at_. by rewrite lookup_take_lt. Qed.

Lemma take_drop_take (l : list Z) k n m : (k + m <= n)%nat ->
  take m (drop k (take n l)) = take m (drop k l).
Proof.
  intros H. rewrite skipn_firstn_comm, take_take. f_equal. lia.
Qed.

Lemma unmask (mask payload : list Z) (hd rest : list Z) h :
  length mask = 4%nat -> h = Z.of_nat (length hd) ->
  let masked := imap (fun j b => Z.lxor b (ws_util.at_ mask (Z.of_nat j mod 4))) payload in
  imap (fun j b => Z.lxor b (ws_util.at_ (hd ++ mask ++ rest) (h + Z.of_nat j mod 4))) masked
  = payload.
Proof.
  intros Hm ->. cbv zeta. apply list_eq. intros j. rewrite !list_lookup_imap.
  destruct (payload !! j) as [b|] eqn:Hb; [|done]. simpl. f_equal.
  pose proof (Z.mod_pos_bound (Z.of_nat j) 4 ltac:(lia)).
  assert (ws_util.at_ (hd ++ mask ++ rest) (Z.of_nat (length hd) + Z.of_nat j mod 4)
          = ws_util.at_ mask (Z.of_nat j mod 4)) as ->.
  { unfold ws_util.at_. rewrite lookup_app_r by lia. rewrite lookup_app_l by lia.
    do 2 f_equal. lia. }
  by rewrite Z.lxor_assoc, Z.lxor_nilpotent, Z.lxor_0_r.
Qed.

(** The size of the length field that [decode_frame] finds, and the length in it. *)
Definition len_bytes (len : Z) : Z := if len <=? 125 then 1 else if len <=? 65535 then 2 else 8.

Lemma rfc_length_spec len len7 ext :
  0 <= len < 2 ^ 63 -> rfc_length len = (len7, ext) ->
  0 <= len7 <= 127
  /\ (if len7 =? 126 then 2 else if len7 =? 127 then 8 else 1) = len_bytes len
  /\ Z.of_nat (length ext) = (if len_bytes len =? 1 then 0 else len_bytes len)
  /\ (if len_bytes len =? 1 then len7 else ntohl ext) = len.
Proof.
  intros Hl. unfold rfc_length, len_bytes.
  destruct (Z.leb_spec len 125); [|destruct (Z.leb_spec len 65535)];
    intros Heq; apply pair_equal_spec in Heq as [<- <-].
  - rewrite (proj2 (Z.eqb_neq len 126)), (proj2 (Z.eqb_neq len 127)) by lia. simpl. lia.
  - cbn [Z.eqb Pos.eqb]. rewrite ntohl_big_endian by (change (256 ^ _) with 65536; lia).
    simpl. lia.
  - cbn [Z.eqb Pos.eqb]. rewrite ntohl_big_endian; [simpl; lia|].
    change (256 ^ Z.of_nat 8) with (2 ^ 64). change (2 ^ 64) with (2 * 2 ^ 63). lia.
Qed.

(** C33. [decode_frame] on the first [n] bytes of what a client sends: it asks for more as
    long as the frame is not complete, and then gives the payload back without its
    mask and the lengths that lead to the next frame, for each of the three forms
    of the length. *)
Theorem decode_frame_spec (mask payload rest : list Z) (n : nat) :
  length mask = 4%nat -> Z.of_nat (length payload) < 2 ^ 63 ->
  (n <= length (client_frame mask payload ++ rest))%nat ->
  let size := length (client_frame mask payload) in
  let f := ws_util.decode_frame (take n (client_frame mask payload ++ rest)) (Z.of_nat n) in
  ws_util.malformed_header f = false
  /\ ws_util.pending_bytes f = bool_decide (n < size)%nat
  /\ ((size <= n)%nat -> ws_util.decoded f = payload
      /\ ws_util.header_length f + ws_util.payload_length f = Z.of_nat size).
Proof.
  intros Hm Hp Hn size. unfold client_frame in *.
  destruct (rfc_length (Z.of_nat (length payload))) as [len7 ext] eqn:Hr.
  set (len := Z.of_nat (length payload)) in *.
  destruct (rfc_length_spec len len7 ext) as (H7 & Hlb & Hext & Hlen); [lia|done|].
  set (masked := imap _ payload) in *.
  assert (length masked = length payload) as Hml by apply length_imap.
  set (lb := len_bytes len) in *.
  assert (lb = 1 \/ lb = 2 \/ lb = 8) as Hlb' by (unfold lb, len_bytes; repeat case_match; lia).
  set (full := ([129; 128 + len7] ++ ext ++ mask ++ masked) ++ rest) in *.
  assert (size = (2 + length ext + 4 + length payload)%nat) as Hsize
    by (unfold size; rewrite !length_app, Hm, Hml; simpl; lia).
  unfold ws_util.decode_frame.
  destruct (Z.ltb_spec (Z.of_nat n) 2) as [H2|H2].
  { simpl. rewrite bool_decide_true by lia. split; [done|]. split; [done|]. lia. }
  rewrite at_take by (simpl; lia). change (ws_util.at_ full 1) with (128 + len7).
  rewrite second_byte, Hlb by lia. fold lb.
  assert (1 + lb + 4 + (if lb >? 1 then 1 else 0) = 2 + Z.of_nat (length ext) + 4) as ->
    by (rewrite Hext; destruct Hlb' as [-> | [-> | ->]]; reflexivity).
  destruct (Z.ltb_spec (Z.of_nat n - 2) lb) as [H3|H3].
  { assert (n < size)%nat by (destruct (Z.eqb_spec lb 1); lia).
    simpl. rewrite bool_decide_true by done. split; [done|]. split; [done|lia]. }
  assert ((if lb =? 1 then len7
           else ntohl (take (Z.to_nat lb) (drop 2 (take n full)))) = len) as ->.
  { destruct (Z.eqb_spec lb 1) as [|Hlb1]; [done|]. etransitivity; [|exact Hlen].
    apply (f_equal ntohl). rewrite take_drop_take by lia. unfold full. cbn [app drop].
    rewrite <- app_assoc. apply take_app_length'. lia. }
  rewrite Z.mod_small by (change two64 with 18446744073709551616;
    change (2 ^ 63) with 9223372036854775808 in Hp; destruct (Z.eqb_spec lb 1); lia).
  destruct (Z.ltb_spec (Z.of_nat n) (2 + Z.of_nat (length ext) + 4 + len)) as [H4|H4]; simpl.
  { rewrite bool_decide_true by lia. split; [done|]. split; [done|lia]. }
  rewrite bool_decide_false by lia. split; [done|]. split; [done|]. intros _. split; [|lia].
  rewrite Z.add_simpl_l, take_drop_take by lia.
  set (hd := [129; 128 + len7] ++ ext).
  assert (full = (hd ++ mask) ++ masked ++ rest) as Hfull
    by (unfold full, hd; by rewrite <- !app_assoc).
  assert (length (hd ++ mask) = Z.to_nat (2 + Z.of_nat (length ext) + 4)) as Hhd
    by (unfold hd; rewrite !length_app, Hm; simpl; lia).
  rewrite <- Hhd, Hfull, drop_app_length, (take_app_length' masked) by (unfold len; lia).
  rewrite take_app_ge, <- app_assoc by lia.
  apply unmask; [done|]. unfold hd. rewrite length_app. simpl. lia.
Qed.

Lemma decode_frame_spec_witness :
  let f := ws_util.decode_frame (client_frame [1; 2; 3; 4] [104; 105] ++ [129]) 9 in
  ws_util.decoded f = [104; 105] /\ ws_util.header_length f + ws_util.payload_length f = 8.
Proof.
  destruct (decode_frame_spec [1; 2; 3; 4] [104; 105] [129] 9) as (_ & _ & H);
    [reflexivity|reflexivity|vm_compute; lia|]. apply H. vm_compute. lia.
Defined.

(** ** [ws_connection] *)

Module ws_connection.
Import tcp_connection.
Section conn.
Context {B : Type} `{CircularBuffer B}.
Variable split_spaces : list ascii -> list (list ascii).
Variable sha1 : list ascii -> list Z.

Definition k_read_http_header : Z := 0x1.
Definition k_write_http_header : Z := 0x2.
Definition k_read_frame_header : Z := 0x4.
Definition k_write_frame : Z := 0x08.

Definition max_header_size : Z := 1024 * 2.

Record state : Type := MkWs {
  tcp_connection_ : t B;
  header_vals : ws_util.header_values;
  state_ : Z
}.

Definition new_state (c : t B) : state := MkWs c ws_util.no_headers k_read_http_header.

Definition set_tcp (c : t B) (s : state) : state := MkWs c (header_vals s) (state_ s).
Definition close_ws (s : state) : state := set_tcp (close (tcp_connection_ s)) s.

Definition read_ws_header (c : t B) : list ascii := char_of <$> cb_data (r_buffer c).

Definition write_cb (written : option nat) (s : state) : state :=
  if Z.land (state_ s) (Z.lor k_write_http_header k_write_frame) =? 0 then s
  else
    match write written (tcp_connection_ s) with
    | (c, false) => set_tcp c s
    | (c, true) =>
        if pending_write c then set_tcp c s
        else if negb (Z.land (state_ s) k_write_http_header =? 0)
        then MkWs c (header_vals s) (Z.lor k_write_frame k_read_frame_header)
        else set_tcp c s
    end.

Definition send_frame (payload : list Z) (s : state) : state * bool :=
  match queue_write (ws_util.create_frame payload) (tcp_connection_ s) with
  | (c, false) => (set_tcp c s, false)
  | (c, true) => (MkWs c (header_vals s) (Z.lor (state_ s) k_write_frame), true)
  end.

Definition write_response_header (s : state) : state :=
  match ws_util.make_header_response sha1 (header_vals s) with
  | (response, true) =>
      let c := match queue_write (byte_of <$> response) (tcp_connection_ s) with
               | (c, true) => c
               | (c, false) => close c
               end in
      MkWs c (header_vals s) (Z.lor k_write_http_header k_read_frame_header)
  | (_, false) => close_ws s
  end.

Definition read_header (recv : option (list Z)) (s : state) : result state :=
  match read recv (tcp_connection_ s) with
  | (c, false) => Ok (set_tcp c s)
  | (c, true) =>
      let s := set_tcp c s in
      if read_bytes c >? max_header_size then Ok (close_ws s)
      else
        let header := read_ws_header c in
        if negb (ws_util.find_header_end header) then Ok s
        else
          match ws_util.parse_header split_spaces header (header_vals s) with
          | Throw x => Throw x
          | Ok (hv, ok) =>
              let s := MkWs c hv (state_ s) in
              Ok (if ok : bool then write_response_header s else close_ws s)
          end
  end.

(** The body of [read_frame] is behind a [return]. *)
Definition read_frame (s : state) : state := s.

Definition read_cb (recv : option (list Z)) (s : state) : result state :=
  if negb (Z.lor (state_ s) k_read_http_header =? 0) then read_header recv s
  else if negb (Z.lor (state_ s) k_read_frame_header =? 0) then Ok (read_frame s)
  else Ok s.

Definition callback (rd : option (option (list Z))) (wr : option (option nat)) (s : state)
  : result state :=
  match (match rd with Some recv => read_cb recv s | None => Ok s end) with
  | Throw x => Throw x
  | Ok s =>
      if close_connection (tcp_connection_ s) then Ok s
      else Ok (match wr with Some written => write_cb written s | None => s end)
  end.
End conn.
Arguments state : clear implicits.
End ws_connection.

(** ** A connection and its input *)

Section input.
Import tcp_connection ws_connection.
Context {B : Type} `{CircularBufferLaws B}.
Variable split_spaces : list ascii -> list (list ascii).
Variable sha1 : list ascii -> list Z.

Abbreviation r_buf s := (r_buffer (tcp_connection_ s)).
Abbreviation closed s := (close_connection (tcp_connection_ s)).

(** What happens to a connection: its socket is ready, or a frame is to be sent. *)
Inductive ws_op : Type :=
| Ready (rd : option (option (list Z))) (wr : option (option nat))
| Send (payload : list Z).

Definition ws_step (op : ws_op) (s : state B) : result (state B) :=
  match op with
  | Ready rd wr => callback split_spaces sha1 rd wr s
  | Send payload => Ok (send_frame payload s).1
  end.

(** The pool drops a connection that is closed. *)
Fixpoint ws_run (ops : list ws_op) (s : state B) : result (state B) :=
  match ops with
  | [] => Ok s
  | op :: ops' => if closed s then Ok s else res_bind (ws_run ops') (ws_step op s)
  end.

Definition received (op : ws_op) : list Z :=
  match op with Ready (Some (Some l)) _ => l | _ => [] end.

(** Only reading touches the read buffer. *)
Lemma write_cb_r_buf written (s : state B) : r_buf (write_cb written s) = r_buf s.
Proof.
  unfold write_cb. destruct (_ =? 0); [done|]. unfold write.
  destruct written; simpl; [|done]. destruct (pending_write _); [done|].
  by destruct (negb _).
Qed.

Lemma send_frame_r_buf payload (s : state B) :
  r_buf (send_frame payload s).1 = r_buf s /\ closed (send_frame payload s).1 = closed s.
Proof. unfold send_frame, queue_write. by destruct (_ <? _). Qed.

Lemma write_response_r_buf (s : state B) : r_buf (write_response_header sha1 s) = r_buf s.
Proof.
  unfold write_response_header. destruct (ws_util.make_header_response _ _) as [r []]; [|done].
  unfold queue_write. by destruct (_ <? _).
Qed.

(** A read keeps everything, and closes a connection with more than 2048 bytes. *)
Lemma read_cb_grows l (s s' : state B) :
  read_cb split_spaces sha1 (Some l) s = Ok s' ->
  cb_size (r_buf s) < cb_capacity (r_buf s) -> Z.of_nat (length l) <= cb_reserve (r_buf s) ->
  closed s' = true \/
  (cb_data (r_buf s') = cb_data (r_buf s) ++ l /\ cb_size (r_buf s') <= max_header_size
   /\ cb_capacity (r_buf s') = cb_capacity (r_buf s)).
Proof.
  unfold read_cb. intros Hr Hroom Hl.
  assert ((Z.lor (state_ s) k_read_http_header =? 0) = false) as Hlor.
  { apply Z.eqb_neq. rewrite Z.lor_eq_0_iff. by intros [_ ?]. }
  rewrite Hlor in Hr. cbn [negb] in Hr. unfold read_header in Hr.
  destruct (decide (l = [])) as [->|Hne].
  { unfold read in Hr. rewrite (proj2 (Z.leb_gt _ _)) in Hr by (unfold cb_reserve; lia).
    injection Hr as <-. by left. }
  rewrite read_some in Hr by (done || (unfold cb_reserve; lia)).
  set (c := Mk _ _ _ _) in Hr.
  assert (cb_data (r_buffer c) = cb_data (r_buf s) ++ l) as Hd by (by apply cb_data_insert).
  assert (cb_capacity (r_buffer c) = cb_capacity (r_buf s)) as Hcap by apply cb_capacity_insert.
  unfold read_bytes in Hr. destruct (Z.gtb_spec (cb_size (r_buffer c)) max_header_size).
  { injection Hr as <-. by left. }
  destruct (ws_util.find_header_end _); cbn [negb] in Hr; [|injection Hr as <-; by right].
  destruct (ws_util.parse_header _ _ _) as [[hv ok]|x]; [|done].
  injection Hr as <-. destruct ok; [|by left]. right. by rewrite write_response_r_buf.
Qed.

(** The operating system hands over no more than there is room for. *)
Definition fits (op : ws_op) : Prop :=
  Z.of_nat (length (received op)) <= k_default_buffer_size - max_header_size.

Definition keeps (bytes : list Z) (s : state B) : Prop :=
  cb_data (r_buf s) = bytes /\ cb_size (r_buf s) <= max_header_size
  /\ cb_capacity (r_buf s) = k_default_buffer_size.

Lemma callback_keeps rd wr s s' bytes :
  callback split_spaces sha1 rd wr s = Ok s' -> fits (Ready rd wr) -> keeps bytes s ->
  closed s' = true \/ keeps (bytes ++ received (Ready rd wr)) s'.
Proof.
  intros Hs Hf Hk.
  assert (forall s1, Ok s' = (if closed s1 then Ok s1 else
    Ok (match wr with Some written => write_cb written s1 | None => s1 end)) ->
    forall l, closed s1 = true \/ keeps l s1 -> closed s' = true \/ keeps l s') as Hwrite.
  { intros s1 Hs1 l Hk1. destruct (closed s1) eqn:Hc; injection Hs1 as ->.
    - by left.
    - destruct Hk1 as [?|Hk1]; [congruence|]. right. unfold keeps.
      by destruct wr; [rewrite write_cb_r_buf|]. }
  unfold callback in Hs. destruct Hk as (Hd & Hsz & Hc). unfold fits in Hf.
  destruct rd as [[l|]|]; cbn [received] in *.
  - destruct (read_cb split_spaces sha1 (Some l) s) as [s1|x] eqn:Hr; [|done].
    eapply Hwrite; [done|]. apply read_cb_grows in Hr as [Hr|(Hr1 & Hr2 & Hr3)].
    + by left.
    + right. split; [by rewrite Hr1, Hd|]. split; [done|congruence].
    + unfold max_header_size, k_default_buffer_size in *. lia.
    + unfold cb_reserve. lia.
  - destruct (read_cb split_spaces sha1 None s) as [s1|x] eqn:Hr; [|done].
    eapply Hwrite; [done|]. left. unfold read_cb, read_header, read in Hr.
    rewrite (proj2 (Z.leb_gt _ _)) in Hr
      by (unfold cb_reserve, max_header_size, k_default_buffer_size in *; lia).
    destruct (negb _) eqn:Hlor; [by injection Hr as <-|].
    apply negb_false_iff, Z.eqb_eq, Z.lor_eq_0_iff in Hlor as [_ ?]. done.
  - eapply Hwrite; [done|]. right. by rewrite app_nil_r.
Qed.

Lemma ws_step_keeps op s s' bytes :
  ws_step op s = Ok s' -> fits op -> keeps bytes s ->
  closed s' = true \/ keeps (bytes ++ received op) s'.
Proof.
  destruct op as [rd wr|payload]; [apply callback_keeps|].
  intros [= <-] _ Hk. right. unfold keeps. cbn [received].
  destruct (send_frame_r_buf payload s) as [-> _]. by rewrite app_nil_r.
Qed.

Lemma ws_run_keeps ops s s' bytes :
  ws_run ops s = Ok s' -> Forall fits ops -> closed s' = false -> keeps bytes s ->
  keeps (bytes ++ concat (received <$> ops)) s'.
Proof.
  revert s bytes. induction ops as [|op ops IH]; intros s bytes Hr Hf Hc Hk.
  { injection Hr as <-. by rewrite app_nil_r. }
  cbn [ws_run] in Hr. destruct (closed s) eqn:Hcs; [congruence|].
  apply Forall_cons_iff in Hf as [Hf Hfs].
  destruct (ws_step op s) as [s1|x] eqn:Hs; [|done]. simpl in Hr.
  destruct (ws_step_keeps op s s1 bytes Hs Hf Hk) as [Hc1|Hk1].
  - destruct ops; simpl in Hr; [|rewrite Hc1 in Hr]; congruence.
  - rewrite fmap_cons. cbn [concat]. rewrite app_assoc. by apply IH with s1.
Qed.

(** No byte that a websocket client sends is ever consumed, neither the handshake nor a
    frame after it: as long as the connection is open, the buffer holds everything
    received so far, which is at most 2048 bytes.  So a client that has sent more,
    however slowly and in whatever frames, has been disconnected. *)
Theorem ws_never_consumes (ops : list ws_op) (s : state B) :
  ws_run ops (new_state tcp_connection.new) = Ok s -> Forall fits ops -> closed s = false ->
  let bytes := concat (received <$> ops) in
  cb_data (r_buf s) = bytes /\ (length bytes <= 2048)%nat.
Proof.
  intros Hr Hf Hc. cbv zeta.
  destruct (ws_run_keeps ops _ s [] Hr Hf Hc) as (Hd & Hsz & _).
  - unfold keeps, cb_size. simpl. rewrite cb_data_new, cb_capacity_new. by vm_compute.
  - split; [done|]. simpl in Hd. rewrite <- Hd. unfold cb_size, max_header_size in Hsz. lia.
Qed.
End input.

(** ** The handshake *)

Definition eol : list ascii := [k_cr; k_lf].

(** A line without its end: neither CR nor LF. *)
Definition line_ok (l : list ascii) : Prop := (k_cr ∉ l) /\ (k_lf ∉ l).

#[export] Instance line_ok_dec l : Decision (line_ok l).
Proof. unfold line_ok. apply _. Defined.

Lemma getlines_line item l s :
  k_lf ∉ l -> ws_util.getlines item (l ++ k_lf :: s) = (item ++ l) :: ws_util.getlines [] s.
Proof.
  revert item. induction l as [|c l IH]; intros item Hl; cbn [app ws_util.getlines].
  - by rewrite decide_True, app_nil_r.
  - apply not_elem_of_cons in Hl as [Hc Hl]. rewrite decide_False by congruence.
    rewrite IH by done. by rewrite <- app_assoc.
Qed.

Lemma trim_line l : line_ok l -> ws_util.trim (l ++ [k_cr]) = l.
Proof.
  intros [Hr Hn]. induction l as [|c l IH]; [reflexivity|]. cbn [app ws_util.trim].
  apply not_elem_of_cons in Hr as [Hcr Hr]. apply not_elem_of_cons in Hn as [Hcn Hn].
  rewrite IH by done. destruct l; [|done]. rewrite decide_False; [done|]. by intros [-> | ->].
Qed.

Lemma get_lines_cons l s :
  line_ok l -> l <> [] -> ws_util.get_lines (l ++ eol ++ s) = l :: ws_util.get_lines s.
Proof.
  intros Hl Hne. unfold ws_util.get_lines, eol.
  change (l ++ [k_cr; k_lf] ++ s) with (l ++ ([k_cr] ++ k_lf :: s)). rewrite app_assoc.
  rewrite getlines_line by (destruct Hl; rewrite elem_of_app, list_elem_of_singleton; by intros [?|?]).
  cbn [app]. rewrite fmap_cons, trim_line by done. by rewrite filter_cons_True.
Qed.

Lemma get_lines_blank : ws_util.get_lines eol = [].
Proof. reflexivity. Qed.

(** A header as clients write it, and a whole request. *)
Definition header_line (h : list ascii * list ascii) : list ascii := h.1 ++ chars ": " ++ h.2.
Definition print_headers (hs : list (list ascii * list ascii)) : list ascii :=
  concat ((fun h => header_line h ++ eol) <$> hs) ++ eol.
Definition request_line (m u v : list ascii) : list ascii := m ++ " "%char :: u ++ " "%char :: v.
Definition print_request (m u v : list ascii) (hs : list (list ascii * list ascii)) : list ascii :=
  request_line m u v ++ eol ++ print_headers hs.

Definition header_ok (h : list ascii * list ascii) : Prop :=
  line_ok (header_line h) /\ (":"%char ∉ h.1) /\ h.2 <> [].

Lemma get_lines_headers hs :
  Forall header_ok hs -> ws_util.get_lines (print_headers hs) = header_line <$> hs.
Proof.
  induction hs as [|h hs IH]; intros Hok; [apply get_lines_blank|].
  apply Forall_cons_iff in Hok as [(Hl & _) Hok]. unfold print_headers in *.
  rewrite !fmap_cons. cbn [concat]. rewrite <- !app_assoc, get_lines_cons, IH; [done|done|done|].
  unfold header_line. by destruct (h.1).
Qed.

Lemma parse_line_header m h :
  header_ok h ->
  ws_util.parse_line m (header_line h) =
  match m !! h.1 with Some _ => m | None => <[h.1 := h.2]> m end.
Proof.
  intros (_ & Hc & Hv). unfold ws_util.parse_line, header_line.
  change (chars ": ") with [":"%char; " "%char]. cbn [app]. rewrite take_until_stop by done.
  rewrite (proj2 (Nat.leb_gt _ _)).
  2: { rewrite length_app. simpl. destruct (h.2); [done|simpl; lia]. }
  destruct (m !! h.1); [done|]. f_equal. rewrite drop_app_ge by lia.
  by replace (length h.1 + 2 - length h.1)%nat with 2%nat by lia.
Qed.

Lemma parse_lines_headers m hs :
  Forall header_ok hs -> foldl ws_util.parse_line m (header_line <$> hs) = m ∪ list_to_map hs.
Proof.
  revert m. induction hs as [|h hs IH]; intros m Hok; simpl.
  { by rewrite (right_id_L ∅ (∪)). }
  apply Forall_cons_iff in Hok as [Hh Hok]. rewrite IH, parse_line_header by done.
  destruct h as [k v]. apply insert_keeps.
Qed.

Lemma base64Encode_length l : (length (base64Encode l) <= 4 * (length l / 3 + 1))%nat.
Proof.
  revert l. fix IH 1. intros [|a [|b [|c l]]]; [simpl; lia..|].
  cbn [base64Encode length app]. pose proof (IH l). replace (S (S (S (length l)))) with (1 * 3 + length l)%nat by lia.
  rewrite Nat.div_add_l by lia. lia.
Qed.

Section handshake.
Import tcp_connection ws_connection.
Context {B : Type} `{CircularBufferLaws B}.
Variable split_spaces : list ascii -> list (list ascii).
Variable sha1 : list ascii -> list Z.
(** A digest has twenty bytes. *)
Hypothesis sha1_length : forall s, length (sha1 s) = 20%nat.

Abbreviation wbuf s := (w_buffer (tcp_connection_ s)).

(** The answer to a request with the given key. *)
Definition response (key : list ascii) : list ascii :=
  chars "HTTP/1.1 101 Switching Protocols" ++ eol
  ++ chars "Upgrade: websocket" ++ eol
  ++ chars "Connection: Upgrade" ++ eol
  ++ chars "Sec-WebSocket-Accept: "
  ++ base64Encode (sha1 (key ++ ws_util.k_guid)) ++ eol ++ eol.

Lemma response_length key : (length (response key) <= 200)%nat.
Proof.
  unfold response. rewrite !length_app.
  pose proof (base64Encode_length (sha1 (key ++ ws_util.k_guid))) as Hb.
  rewrite sha1_length in Hb. simpl in *. lia.
Qed.

Lemma char_byte c : char_of (byte_of c) = c.
Proof. unfold char_of, byte_of. rewrite N2Z.id. apply ascii_N_embedding. Qed.

Lemma chars_bytes (l : list ascii) : char_of <$> (byte_of <$> l) = l.
Proof.
  rewrite <- list_fmap_compose. rewrite <- (list_fmap_id l) at 2. apply list_fmap_ext.
  intros ? c _. apply char_byte.
Qed.

(** A request ends with an empty line. *)
Lemma print_request_end m u v hs :
  exists x, print_request m u v hs = x ++ ws_util.k_http_header_end.
Proof.
  unfold print_request, print_headers.
  destruct hs as [|h hs _] using rev_ind.
  - exists (request_line m u v). reflexivity.
  - exists (request_line m u v ++ eol ++ concat ((fun h => header_line h ++ eol) <$> hs)
            ++ header_line h).
    rewrite fmap_app, concat_app. cbn [fmap list_fmap concat]. by rewrite <- !app_assoc.
Qed.

Lemma find_header_end_request m u v hs : ws_util.find_header_end (print_request m u v hs) = true.
Proof.
  destruct (print_request_end m u v hs) as [x ->]. unfold ws_util.find_header_end.
  apply orb_true_iff. left. unfold ws_util.ends_with.
  rewrite length_app, (proj2 (Nat.leb_le _ _)), Nat.add_sub by lia.
  apply bool_decide_true. apply drop_app_length.
Qed.

(** Before the header is complete. *)
Record waiting (bytes : list Z) (s : state B) : Prop := {
  wt_open : close_connection (tcp_connection_ s) = false;
  wt_data : cb_data (r_buffer (tcp_connection_ s)) = bytes;
  wt_room : cb_capacity (r_buffer (tcp_connection_ s)) = k_default_buffer_size;
  wt_out : cb_data (wbuf s) = [];
  wt_out_room : cb_capacity (wbuf s) = k_default_buffer_size;
  wt_headers : header_vals s = ws_util.no_headers;
  wt_state : state_ s = k_read_http_header
}.

Lemma waiting_new : waiting [] (new_state (B := B) tcp_connection.new).
Proof. constructor; try done; apply cb_data_new || apply cb_capacity_new. Qed.

(** A piece of the request, as [read_header] sees it. *)
Lemma waiting_read bytes p s :
  waiting bytes s -> p <> [] -> (length (bytes ++ p) <= 2048)%nat ->
  exists s', waiting (bytes ++ p) s' /\
  read_cb split_spaces sha1 (Some p) s =
  if negb (ws_util.find_header_end (char_of <$> (bytes ++ p))) then Ok s'
  else match ws_util.parse_header split_spaces (char_of <$> (bytes ++ p)) ws_util.no_headers with
       | Throw x => Throw x
       | Ok (hv, ok) =>
           let s'' := MkWs (tcp_connection_ s') hv (state_ s') in
           Ok (if ok : bool then write_response_header sha1 s'' else close_ws s'')
       end.
Proof.
  intros [Ho Hd Hc Hw Hwc Hh Hst] Hp Hlen.
  assert (Z.of_nat (length p) <= cb_reserve (r_buffer (tcp_connection_ s))) as Hfit.
  { unfold cb_reserve, cb_size, k_default_buffer_size in *. rewrite Hd, Hc.
    rewrite length_app in Hlen. lia. }
  unfold read_cb. rewrite Hst. cbn [Z.lor negb Z.eqb k_read_http_header Pos.lor].
  unfold read_header. rewrite read_some by (done || (destruct p; simpl in *; [done|lia])).
  set (c := Mk _ _ _ _).
  assert (cb_data (r_buffer c) = bytes ++ p) as Hd' by (rewrite <- Hd; by apply cb_data_insert).
  unfold read_bytes, cb_size. rewrite Hd'.
  rewrite Z.gtb_ltb, (proj2 (Z.ltb_ge _ _)) by (unfold max_header_size; lia).
  exists (set_tcp c s). split.
  - constructor; try done. simpl. rewrite cb_capacity_insert. done.
  - unfold read_ws_header. rewrite Hd'. cbn [set_tcp header_vals state_ tcp_connection_].
    by rewrite Hh.
Qed.

Definition k_key : list ascii := chars "Sec-WebSocket-Key".

(** The handshake is through: the answer is on its way, and when it is, frames follow. *)
Definition accepted (u key : list ascii) (s : state B) : Prop :=
  close_connection (tcp_connection_ s) = false
  /\ ws_util.uri (header_vals s) = u
  /\ cb_data (wbuf s) = byte_of <$> response key
  /\ state_ s = Z.lor k_write_http_header k_read_frame_header
  /\ state_ (write_cb (Some (length (cb_data (wbuf s)))) s)
     = Z.lor k_write_frame k_read_frame_header.

Lemma write_response_accepted bytes s m u v hs key :
  waiting bytes s -> hs !! k_key = Some key ->
  accepted u key (write_response_header sha1
    (MkWs (tcp_connection_ s) (ws_util.MkHeaders m u v hs) (state_ s))).
Proof.
  intros [Ho Hd Hc Hw Hwc Hh Hst] Hk.
  unfold write_response_header, ws_util.make_header_response. cbn [header_vals ws_util.headers].
  fold k_key. rewrite Hk. cbv zeta. fold eol. fold (response key). unfold queue_write.
  pose proof (response_length key) as Hl. cbn [tcp_connection_].
  rewrite (proj2 (Z.ltb_ge _ _))
    by (unfold cb_reserve, cb_size, k_default_buffer_size in *; rewrite Hw, Hwc, length_fmap; cbn [length]; lia).
  set (s' := MkWs _ _ _).
  assert (cb_data (wbuf s') = byte_of <$> response key) as Hw'.
  { cbn [s' tcp_connection_ w_buffer]. rewrite cb_data_insert, Hw; [done|].
    unfold cb_reserve, cb_size, k_default_buffer_size in *. rewrite Hw, Hwc, length_fmap.
    cbn [length]. lia. }
  do 4 (split; [done|]). unfold write_cb, write, write_to_fd, pending_write, cb_size.
  cbn [w_buffer]. rewrite cb_data_erase, drop_all by done. reflexivity.
Qed.

Section request.
Variables (m u v key : list ascii) (hs : list (list ascii * list ascii)).
Hypothesis split_request : split_spaces (request_line m u v) = [m; u; v].
Hypothesis request_ok : line_ok (request_line m u v).
Hypothesis headers_ok : Forall header_ok hs.
Hypothesis has_key : (list_to_map hs : gmap (list ascii) (list ascii)) !! k_key = Some key.

Lemma parse_request :
  ws_util.parse_header split_spaces (print_request m u v hs) ws_util.no_headers
  = Ok (ws_util.MkHeaders m u v (list_to_map hs), true).
Proof.
  unfold ws_util.parse_header, print_request.
  rewrite get_lines_cons, get_lines_headers, split_request;
    [|done|done|unfold request_line; by destruct m].
  rewrite parse_lines_headers by done. simpl. by rewrite (left_id_L ∅ (∪)).
Qed.

Abbreviation readings ps := ((fun p => Ready (Some (Some p)) None) <$> ps).

Lemma handshake_pieces ps p bytes s :
  waiting bytes s -> bytes ++ concat (p :: ps) = byte_of <$> print_request m u v hs ->
  (length (bytes ++ concat (p :: ps)) <= 2048)%nat -> Forall (fun p => p <> []) (p :: ps) ->
  (forall k, (k < length (p :: ps))%nat ->
    ws_util.find_header_end (char_of <$> (bytes ++ concat (take k (p :: ps)))) = false) ->
  exists s', ws_run split_spaces sha1 (readings (p :: ps)) s = Ok s' /\ accepted u key s'.
Proof.
  revert p bytes s. induction ps as [|q ps IH]; intros p bytes s Hw Hreq Hlen Hne Hend;
    rewrite fmap_cons; cbn [ws_run ws_step]; rewrite (wt_open _ _ Hw); unfold callback;
    apply Forall_cons_iff in Hne as [Hp Hne].
  - cbn [concat] in *. rewrite app_nil_r in *.
    destruct (waiting_read bytes p s Hw Hp Hlen) as (s' & Hw' & ->).
    rewrite Hreq, chars_bytes, find_header_end_request, parse_request. cbn [negb].
    destruct (write_response_accepted (bytes ++ p) s' m u v (list_to_map hs) key Hw' has_key)
      as (Ho & Hacc).
    rewrite Ho. simpl. eexists. split; [reflexivity|]. done.
  - assert (length (bytes ++ p) <= 2048)%nat as Hlen'
      by (cbn [concat] in Hlen; rewrite !length_app in *; lia).
    destruct (waiting_read bytes p s Hw Hp Hlen') as (s' & Hw' & ->).
    pose proof (Hend 1%nat ltac:(simpl; lia)) as H1. cbn [take concat] in H1.
    rewrite app_nil_r in H1. rewrite H1. cbn [negb]. rewrite (wt_open _ _ Hw').
    cbn [res_bind]. apply (IH q (bytes ++ p) s' Hw'); [by rewrite <- app_assoc| |done|].
    + by rewrite <- app_assoc.
    + intros k Hk. rewrite <- app_assoc. apply (Hend (S k)). simpl in *. lia.
Qed.
End request.

(** The websocket handshake.  However a well-formed upgrade request is cut into pieces, as
    long as the empty line that ends it is not there before the last one, the
    connection waits, and then queues the answer that RFC 6455 asks for, with the
    digest of the key of the request (the first one if there are several); once it
    is written the connection is ready for frames. *)
Theorem ws_handshake (m u v key : list ascii) (hs : list (list ascii * list ascii))
    (pieces : list (list Z)) :
  split_spaces (request_line m u v) = [m; u; v] ->
  line_ok (request_line m u v) -> Forall header_ok hs ->
  (list_to_map hs : gmap (list ascii) (list ascii)) !! k_key = Some key ->
  concat pieces = byte_of <$> print_request m u v hs ->
  (length (concat pieces) <= 2048)%nat -> Forall (fun p => p <> []) pieces ->
  (forall k, (k < length pieces)%nat ->
    ws_util.find_header_end (char_of <$> concat (take k pieces)) = false) ->
  exists s, ws_run split_spaces sha1 ((fun p => Ready (Some (Some p)) None) <$> pieces)
              (new_state tcp_connection.new) = Ok s /\ accepted u key s.
Proof.
  intros Hsp Hline Hhs Hkey Hreq Hlen Hne Hend. destruct pieces as [|p ps].
  { apply (f_equal length) in Hreq. exfalso. revert Hreq. unfold print_request, print_headers.
    rewrite length_fmap, !length_app. simpl. lia. }
  by apply (handshake_pieces m u v key hs Hsp Hline Hhs Hkey ps p [] _ waiting_new).
Qed.
End handshake.

(** ** Concrete runs *)

Fixpoint split_on_spaces (item s : list ascii) : list (list ascii) :=
  match s with
  | [] => [item]
  | c :: s' =>
      if decide (c = " "%char) then item :: split_on_spaces [] s'
      else split_on_spaces (item ++ [c]) s'
  end.

Lemma ws_handshake_witness :
  let hs := [(chars "Host", chars "a"); (k_key, chars "MPowoRLVQ9qicfX4apcBHg==")] in
  let bytes := byte_of <$> print_request (chars "GET") (chars "/index") (chars "HTTP/1.1") hs in
  exists s, ws_run (B := ring) (split_on_spaces []) (fun _ => repeat 7 20)
      [Ready (Some (Some (take 30 bytes))) None; Ready (Some (Some (drop 30 bytes))) None]
      (ws_connection.new_state tcp_connection.new) = Ok s
  /\ ws_util.uri (ws_connection.header_vals s) = chars "/index".
Proof.
  intros hs bytes.
  destruct (ws_handshake (B := ring) (split_on_spaces []) (fun _ => repeat 7 20)
    ltac:(done) (chars "GET") (chars "/index") (chars "HTTP/1.1")
    (chars "MPowoRLVQ9qicfX4apcBHg==") hs [take 30 bytes; drop 30 bytes])
    as (s & Hs & _ & Hu & _).
  - reflexivity.
  - by_decide.
  - repeat constructor; try discriminate; by_decide.
  - reflexivity.
  - cbn [concat]. by rewrite app_nil_r, take_drop.
  - vm_compute. lia.
  - repeat constructor; discriminate.
  - intros [|[|k]] Hk; [reflexivity..|simpl in Hk; lia].
  - exists s. split; [exact Hs|exact Hu].
Defined.

Lemma ws_never_consumes_witness :
  let ops := [Ready (Some (Some [71; 69; 84])) None; Send [104; 105];
              Ready (Some (Some [32; 47])) (Some (Some 4%nat))] in
  match ws_run (B := ring) (split_on_spaces []) (fun _ => repeat 7 20) ops
          (ws_connection.new_state tcp_connection.new) with
  | Ok s => cb_data (tcp_connection.r_buffer (ws_connection.tcp_connection_ s))
            = [71; 69; 84; 32; 47]
  | Throw _ => False
  end.
Proof.
  intros ops.
  destruct (ws_run (split_on_spaces []) (fun _ => repeat 7 20) ops _) as [s|x] eqn:Hs.
  - apply (ws_never_consumes (B := ring) (split_on_spaces []) (fun _ => repeat 7 20) ops s Hs).
    + repeat constructor; by vm_compute.
    + vm_compute in Hs. by injection Hs as <-.
  - vm_compute in Hs. discriminate Hs.
Defined.
