(* ===== verification/Index.v ===== *)
(** * The index

    [src/index/real_index.cpp] and [src/pub_sub/pub_sub.cpp].  The index is split into
    eight hash maps, each with a mutex; what a thread does under a mutex is one step,
    and the steps of the thread that expires events interleave with those of the
    threads that add events.  [std::hash] is a parameter. *)

From S2P Require Import Prelude Ieee Containers Events.

Local Open Scope Z_scope.

(** ** [pub_sub]: one subscriber per topic *)

Module pub_sub.
Section pub_sub.
Context {F : Type}.

(** A topic without a subscriber holds an empty function. *)
Definition publishers_t : Type := gmap string (option F).

(** [insert] keeps a topic that is there. *)
Definition add_publisher (topic : string) (p : publishers_t) : publishers_t :=
  match p !! topic with Some _ => p | None => <[topic := None]> p end.

(** [None]: the [CHECK] fails and the process ends. *)
Definition publish (topic : string) (p : publishers_t) : option (result F) :=
  match p !! topic with
  | None => None
  | Some None => Some (Throw bad_function_call)
  | Some (Some notify_fn) => Some (Ok notify_fn)
  end.

Definition subscribe (topic : string) (notify_fn : F) (p : publishers_t) : option publishers_t :=
  match p !! topic with
  | None => None
  | Some _ => Some (<[topic := Some notify_fn]> p)
  end.
End pub_sub.
Arguments publishers_t : clear implicits.
End pub_sub.

(** ** [real_index] *)

Definition k_indexes : nat := 8.

Definition index_key (e : Event) : string := Event.host e +:+ "-" +:+ Event.service e.

(** What the index does to the outside. *)
Inductive index_out : Type :=
| Publish (e : Event)            (** to the subscriber of ["index"] *)
| PushEvent (e : Event)          (** [push_event_fn_]: back into the streams *)
| PreGauge (n : nat)
| PostGauge (n : nat).

Module real_index.
Section index.
Context {U : Type -> Type} `{UnorderedMap U}.
Variable hash_fn : string -> nat.

(** The thread that expires events: the time it started, the next map and what it has
    found so far. *)
Record expire_t : Type := MkExpire {
  x_now : Z;
  x_next : nat;
  x_size : nat;
  expired_events : list Event
}.

(** [expiring_] is true while there is such a thread. *)
Record t : Type := Mk {
  indexes_ : list (U Event);
  expiring_ : option expire_t
}.

Definition new : t := Mk (replicate k_indexes um_empty) None.

Definition shard (k : string) : nat := (hash_fn k mod k_indexes)%nat.

Definition add_event (e : Event) (s : t) : t * list index_out :=
  let ev_key := index_key e in
  (Mk (alter (um_insert ev_key e) (shard ev_key) (indexes_ s)) (expiring_ s), [Publish e]).

(** [timer_cb] at time [now]. *)
Definition timer_cb (now : Z) (s : t) : t * list index_out :=
  match expiring_ s with
  | Some _ => (s, [])
  | None => (Mk (indexes_ s) (Some (MkExpire now 0 0 [])), [])
  end.

Definition is_expired (now : Z) (e : Event) : bool :=
  i64_add (Event.time e) (i64_of_sf (Event.ttl e)) <? now.

(** One map, under its mutex. *)
Definition expire_map (now : Z) (m : U Event) : U Event * list Event :=
  let old := filter (fun kv => is_expired now kv.2 = true) (um_items m) in
  (foldl (fun m k => um_erase k m) m old.*1, old.*2).

Definition expire_next (s : t) : t * list index_out :=
  match expiring_ s with
  | Some x =>
      match indexes_ s !! x_next x with
      | Some m =>
          let '(m', old) := expire_map (x_now x) m in
          (Mk (<[x_next x := m']> (indexes_ s))
             (Some (MkExpire (x_now x) (S (x_next x)) (x_size x + length (um_items m))
                      (expired_events x ++ old))), [])
      | None => (s, [])
      end
  | None => (s, [])
  end.

(** When all maps are done. *)
Definition expire_report (s : t) : t * list index_out :=
  match expiring_ s with
  | Some x =>
      if decide (x_next x = length (indexes_ s)) then
        (Mk (indexes_ s) None,
         [PreGauge (x_size x); PostGauge (x_size x - length (expired_events x))]
         ++ (expired_events x ≫= (fun e =>
               let e := Event.set_state "expired" e in [Publish e; PushEvent e])))
      else (s, [])
  | None => (s, [])
  end.

(** [match_fn] on the events of the maps in turn, up to [max_matches] of them; zero does
    not bound them. *)
Definition query_index (match_fn : Event -> bool) (max_matches : nat) (s : t) : list Event :=
  let events := filter (fun e => match_fn e = true) (indexes_ s ≫= (fun m : U Event => (um_items m).*2)) in
  match max_matches with O => events | _ => take max_matches events end.

(** The steps of all threads. *)
Inductive op : Type := AddEvent (e : Event) | TimerCb (now : Z) | ExpireNext | ExpireReport.

Definition step (o : op) (s : t) : t * list index_out :=
  match o with
  | AddEvent e => add_event e s
  | TimerCb now => timer_cb now s
  | ExpireNext => expire_next s
  | ExpireReport => expire_report s
  end.

Fixpoint run (ops : list op) (s : t) : t * list index_out :=
  match ops with
  | [] => (s, [])
  | o :: ops' =>
      let '(s, out) := step o s in
      let '(s, out') := run ops' s in (s, out ++ out')
  end.

(** ** The destructor *)

(** Where the thread that destroys the index is: at a map to clear, or before one of the attempts to see that the
    other thread has ended. *)
Inductive dying : Type := Clearing (i : nat) | Attempts (attempts : nat) | Destroyed.

Definition k_stop_attempts : nat := 120.

(** [expiring_.exchange(true)] for the first time. *)
Definition destroy (s : t) : dying := match expiring_ s with Some _ => Clearing 0 | None => Destroyed end.

(** A turn of one of its loops; the thread that expires events goes on in between.  What [exchange] returns is
    whether that thread is still there. *)
Definition destroy_turn (d : dying) (s : t) : dying * t :=
  match d with
  | Clearing i =>
      if decide (i < length (indexes_ s))%nat
      then (Clearing (S i), Mk (<[i := um_empty]> (indexes_ s)) (expiring_ s))
      else (Attempts k_stop_attempts, s)
  | Attempts 0 => (Destroyed, s)
  | Attempts (S n) => match expiring_ s with Some _ => (Attempts n, s) | None => (Destroyed, s) end
  | Destroyed => (Destroyed, s)
  end.

(** Each element: what the other threads do before the next turn. *)
Fixpoint destroy_run (turns : list (list op)) (d : dying) (s : t) : dying * t :=
  match turns with
  | [] => (d, s)
  | ops :: turns' => let '(d, s) := destroy_turn d (run ops s).1 in destroy_run turns' d s
  end.
End index.
Arguments t : clear implicits.
End real_index.

(** ** What the index holds *)

Section index_correct.
Import real_index.
Context {U : Type -> Type} `{UnorderedMapLaws U}.
Variable hash_fn : string -> nat.

Abbreviation shard := (real_index.shard hash_fn).
Abbreviation step := (real_index.step (U := U) hash_fn).
Abbreviation run := (real_index.run (U := U) hash_fn).

Definition stored (k : string) (s : t U) : option Event :=
  indexes_ s !! shard k ≫= um_find k.

(** Every event is in the map of its key, under its key. *)
Record index_wf (s : t U) : Prop := {
  iw_length : length (indexes_ s) = k_indexes;
  iw_key : forall i m k e, indexes_ s !! i = Some m -> um_find k m = Some e ->
    shard k = i /\ index_key e = k;
  iw_next : forall x, expiring_ s = Some x -> (x_next x <= k_indexes)%nat
}.

Lemma shard_lt k : (shard k < k_indexes)%nat.
Proof. apply Nat.mod_upper_bound. done. Qed.

Lemma shard_lookup k s : index_wf s -> exists m, indexes_ s !! shard k = Some m.
Proof. intros [Hl _ _]. apply lookup_lt_is_Some. rewrite Hl. apply shard_lt. Qed.

Lemma new_wf : index_wf new.
Proof.
  constructor; [apply length_replicate| |done].
  intros i m k e Hm. apply lookup_replicate in Hm as [-> _]. by rewrite um_find_empty.
Qed.

Lemma stored_key k s e : index_wf s -> stored k s = Some e -> index_key e = k.
Proof.
  intros Hwf Hs. unfold stored in Hs. destruct (indexes_ s !! shard k) as [m|] eqn:Hm; [|done].
  by eapply (iw_key s Hwf).
Qed.

(** What [expire_map] takes out of a map. *)
Lemma expire_map_spec now (m : U Event) :
  let '(m', old) := expire_map now m in
  (forall k, um_find k m' =
     e ← um_find k m; if is_expired now e then None else Some e)
  /\ (forall e, e ∈ old <-> exists k, um_find k m = Some e /\ is_expired now e = true).
Proof.
  unfold expire_map. set (old := filter _ _).
  assert (forall k e, (k, e) ∈ old <-> um_find k m = Some e /\ is_expired now e = true) as Ho.
  { intros k e. unfold old. rewrite list_elem_of_filter, um_items_find. simpl. tauto. }
  split.
  - intros k. rewrite um_find_erase_all. case_decide as Hk.
    + apply list_elem_of_fmap in Hk as ([k' e] & Hke & Hk). simpl in Hke. subst k'.
      apply Ho in Hk as [-> He]. simpl. by rewrite He.
    + destruct (um_find k m) as [e|] eqn:He; [|done]. simpl.
      destruct (is_expired now e) eqn:Hx; [|done]. exfalso. apply Hk, list_elem_of_fmap.
      exists (k, e). split; [done|]. by apply Ho.
  - intros e. rewrite list_elem_of_fmap. split.
    + intros ([k e'] & -> & Hin). exists k. by apply Ho.
    + intros (k & Hk). exists (k, e). split; [done|]. by apply Ho.
Qed.

Lemma add_event_spec e s :
  index_wf s ->
  let s' := (add_event hash_fn e s).1 in
  index_wf s' /\ expiring_ s' = expiring_ s
  /\ forall k, stored k s' = if decide (index_key e = k) then Some e else stored k s.
Proof.
  intros Hwf. pose proof Hwf as [Hl Hk Hn]. cbv zeta. unfold add_event. cbn [fst expiring_].
  set (K := index_key e). split; [|split; [done|]].
  - constructor; simpl; [by rewrite length_alter| |done].
    intros i m k e' Hm He'. destruct (decide (shard K = i)) as [<-|Hi].
    + rewrite list_lookup_alter_eq in Hm. destruct (shard_lookup K s Hwf) as [m0 Hm0].
      rewrite Hm0 in Hm. injection Hm as <-. rewrite um_find_insert in He'. case_decide as HK.
      * injection He' as <-. by subst k.
      * by apply (Hk _ m0).
    + rewrite list_lookup_alter_ne in Hm by done. by apply (Hk _ m).
  - intros k. unfold stored. simpl. destruct (decide (shard K = shard k)) as [Hs|Hs].
    + rewrite Hs, list_lookup_alter_eq. destruct (shard_lookup k s Hwf) as [m ->]. simpl.
      rewrite um_find_insert. done.
    + rewrite list_lookup_alter_ne by done. rewrite decide_False; [done|]. congruence.
Qed.

(** A step of the expiring thread, as the keys see it. *)
Lemma expire_next_spec s :
  index_wf s ->
  let s' := (expire_next s).1 in
  index_wf s' /\
  match expiring_ s with
  | Some x =>
      if decide (x_next x < k_indexes)%nat then
        exists old n, expiring_ s' =
          Some (MkExpire (x_now x) (S (x_next x)) n (expired_events x ++ old))
        /\ (forall e, e ∈ old <-> exists k, shard k = x_next x /\ stored k s = Some e
                                       /\ is_expired (x_now x) e = true)
        /\ (forall k, stored k s' = e ← stored k s;
              if decide (shard k = x_next x /\ is_expired (x_now x) e = true) then None else Some e)
      else s' = s
  | None => s' = s
  end.
Proof.
  intros Hwf. pose proof Hwf as [Hl Hk Hn]. cbv zeta. unfold expire_next.
  destruct (expiring_ s) as [x|] eqn:Hx; [|done].
  case_decide as Hlt.
  2:{ rewrite lookup_ge_None_2 by (rewrite Hl; lia). done. }
  destruct (lookup_lt_is_Some_2 (indexes_ s) (x_next x)) as [m Hm]; [by rewrite Hl|].
  rewrite Hm. pose proof (expire_map_spec (x_now x) m) as He.
  destruct (expire_map (x_now x) m) as [m' old]. destruct He as [Hf Ho]. cbn [fst].
  split; [|exists old; eexists; split; [reflexivity|split]].
  - constructor; simpl.
    + by rewrite length_insert.
    + intros i m1 k e Hm1 He. destruct (decide (x_next x = i)) as [<-|Hi].
      * rewrite list_lookup_insert_eq in Hm1 by (by rewrite Hl). injection Hm1 as <-.
        rewrite Hf in He. destruct (um_find k m) as [e'|] eqn:He'; [|done]. simpl in He.
        destruct (is_expired (x_now x) e'); [done|]. injection He as <-. by apply (Hk _ m).
      * rewrite list_lookup_insert_ne in Hm1 by done. by apply (Hk _ m1).
    + intros ? [= <-]. simpl. lia.
  - intros e. rewrite Ho. split.
    + intros (k & Hkm & Hxe). exists k. destruct (Hk _ m k e Hm Hkm) as [Hs _].
      split; [done|]. split; [|done]. unfold stored. by rewrite Hs, Hm.
    + intros (k & Hs & Hst & Hxe). exists k. split; [|done]. unfold stored in Hst.
      by rewrite Hs, Hm in Hst.
  - intros k. unfold stored. simpl. destruct (decide (shard k = x_next x)) as [Hs|Hs].
    + rewrite Hs, list_lookup_insert_eq, Hm by (by rewrite Hl). simpl. rewrite Hf.
      destruct (um_find k m) as [e|]; [|done]. simpl.
      destruct (is_expired (x_now x) e); [by rewrite decide_True|].
      rewrite decide_False; [done|]. by intros [_ ?].
    + rewrite list_lookup_insert_ne by done. destruct (indexes_ s !! shard k ≫= um_find k); [|done].
      simpl. rewrite decide_False; [done|]. by intros [? _].
Qed.

Lemma step_wf o s : index_wf s -> index_wf (step o s).1.
Proof.
  intros Hwf. destruct o as [e|now| |]; cbn [real_index.step].
  - by apply add_event_spec.
  - unfold timer_cb. destruct (expiring_ s); [done|]. destruct Hwf as [Hl Hk Hn].
    constructor; simpl; [done|done|]. intros ? [= <-]. simpl. unfold k_indexes. lia.
  - by apply expire_next_spec.
  - unfold expire_report. destruct (expiring_ s); [|done]. case_decide; [|done].
    destruct Hwf as [Hl Hk Hn]. by constructor.
Qed.

(** The history of one key: what each step means for it, given how far the expiring
    thread has come. *)
Definition key_step (k : string) (st : option (Z * nat) * option Event) (o : op)
  : option (Z * nat) * option Event :=
  let '(pc, ev) := st in
  match o with
  | AddEvent e => (pc, if decide (index_key e = k) then Some e else ev)
  | TimerCb now => (match pc with None => Some (now, O) | _ => pc end, ev)
  | ExpireNext =>
      match pc with
      | Some (now, i) =>
          if decide (i < k_indexes)%nat then
            (Some (now, S i),
             e ← ev; if decide (shard k = i /\ is_expired now e = true) then None else Some e)
          else st
      | None => st
      end
  | ExpireReport =>
      match pc with
      | Some (now, i) => if decide (i = k_indexes) then (None, ev) else st
      | None => st
      end
  end.

(** The event of a key after [ops]. *)
Definition latest (k : string) (ops : list op) : option Event :=
  (foldl (key_step k) (None, None) ops).2.

Definition pc_of (s : t U) : option (Z * nat) :=
  (fun x => (x_now x, x_next x)) <$> expiring_ s.

Lemma step_key k o s :
  index_wf s -> (pc_of (step o s).1, stored k (step o s).1) = key_step k (pc_of s, stored k s) o.
Proof.
  intros Hwf. unfold pc_of. destruct o as [e|now| |]; cbn [real_index.step key_step].
  - destruct (add_event_spec e s Hwf) as (_ & -> & ->). done.
  - unfold timer_cb. by destruct (expiring_ s) as [x|] eqn:Hx; cbn [fst expiring_]; rewrite ?Hx.
  - destruct (expire_next_spec s Hwf) as [_ Hs]. destruct (expiring_ s) as [x|] eqn:Hx; simpl.
    + case_decide.
      * destruct Hs as (old & n & -> & _ & ->). done.
      * by rewrite Hs, Hx.
    + by rewrite Hs, Hx.
  - unfold expire_report. destruct (expiring_ s) as [x|] eqn:Hx; simpl; [|by rewrite Hx].
    rewrite (iw_length s Hwf). case_decide; simpl; [done|]. by rewrite Hx.
Qed.

Lemma run_key k ops s :
  index_wf s ->
  index_wf (run ops s).1
  /\ (pc_of (run ops s).1, stored k (run ops s).1) = foldl (key_step k) (pc_of s, stored k s) ops.
Proof.
  revert s. induction ops as [|o ops IH]; intros s Hwf; [done|].
  cbn [real_index.run foldl]. rewrite <- step_key by done.
  pose proof (step_wf o s Hwf) as Hwf1. destruct (step o s) as [s1 out]. simpl in *.
  specialize (IH s1 Hwf1). by destruct (run ops s1) as [s2 out'].
Qed.

Lemma run_latest k ops : stored k (run ops new).1 = latest k ops.
Proof.
  destruct (run_key k ops new new_wf) as [_ Hr]. unfold latest.
  assert (stored k new = None) as Hn.
  { unfold stored. destruct (shard_lookup k new new_wf) as [m Hm]. rewrite Hm.
    apply lookup_replicate in Hm as [-> _]. simpl. apply um_find_empty. }
  rewrite Hn in Hr. change (pc_of new) with (@None (Z * nat)) in Hr. by rewrite <- Hr.
Qed.

(** The events of all maps are those stored, each once. *)
Lemma all_events_elem s e :
  index_wf s ->
  e ∈ (indexes_ s ≫= (fun m : U Event => (um_items m).*2)) <-> stored (index_key e) s = Some e.
Proof.
  intros Hwf. rewrite list_elem_of_bind. split.
  - intros (m & He & Hm). apply list_elem_of_lookup in Hm as [i Hm].
    apply list_elem_of_fmap in He as ([k e'] & -> & Hke). apply um_items_find in Hke.
    destruct (iw_key s Hwf i m k e' Hm Hke) as [Hs Hk]. simpl. rewrite Hk.
    unfold stored. by rewrite Hs, Hm.
  - intros Hs. unfold stored in Hs. destruct (indexes_ s !! _) as [m|] eqn:Hm; [|done].
    exists m. split; [|by eapply list_elem_of_lookup_2].
    apply list_elem_of_fmap. exists (index_key e, e). split; [done|]. by apply um_items_find.
Qed.

Lemma map_events_nodup (m : U Event) :
  (forall k e, um_find k m = Some e -> index_key e = k) -> NoDup (um_items m).*2.
Proof.
  intros Hk. assert (um_items m = (fun e => (index_key e, e)) <$> (um_items m).*2) as Heq.
  { rewrite <- list_fmap_compose, <- (list_fmap_id (um_items m)) at 1. apply list_fmap_ext.
    intros n [k e] He. simpl. f_equal. symmetry. apply Hk, um_items_find.
    by eapply list_elem_of_lookup_2. }
  pose proof (um_items_nodup _ m) as Hnd. rewrite Heq, <- list_fmap_compose in Hnd.
  by eapply NoDup_fmap_1.
Qed.

Lemma maps_nodup (l : list (U Event)) j :
  (forall i m k e, l !! i = Some m -> um_find k m = Some e ->
    shard k = (j + i)%nat /\ index_key e = k) ->
  NoDup (l ≫= (fun m : U Event => (um_items m).*2)).
Proof.
  revert j. induction l as [|m l IH]; intros j Hl; [constructor|].
  rewrite bind_cons. apply list.NoDup_app. split; [|split].
  - apply map_events_nodup. intros k e. by apply (Hl 0%nat).
  - intros e He He'. apply list_elem_of_fmap in He as ([k e1] & -> & He). simpl in He'.
    apply list_elem_of_bind in He' as (m' & He' & Hm').
    apply list_elem_of_lookup in Hm' as [i Hm'].
    apply list_elem_of_fmap in He' as ([k' e2] & Heq & He2). simpl in Heq. subst e2.
    apply um_items_find in He, He2.
    destruct (Hl 0%nat m k e1 eq_refl He) as [H1 Hk1].
    destruct (Hl (S i) m' k' e1 Hm' He2) as [H2 Hk2]. subst. lia.
  - apply (IH (S j)). intros i m' k e Hm' He. destruct (Hl (S i) m' k e Hm' He). split; [lia|done].
Qed.

(** The events of a query, by the history of their keys. *)
Lemma query_latest (ops : list op) (match_fn : Event -> bool) (max_matches : nat) :
  let r := query_index match_fn max_matches (run ops new).1 in
  NoDup r
  /\ (forall e, e ∈ r -> match_fn e = true /\ latest (index_key e) ops = Some e)
  /\ ((0 < max_matches)%nat -> (length r <= max_matches)%nat)
  /\ (max_matches = 0%nat \/ (length r < max_matches)%nat ->
      forall k e, latest k ops = Some e -> match_fn e = true -> e ∈ r).
Proof.
  cbv zeta. set (s := (run ops new).1).
  assert (index_wf s) as Hwf by apply (run_key "" ops new new_wf).
  unfold query_index. set (all := indexes_ s ≫= _).
  assert (NoDup all) as Hnd by (apply (maps_nodup _ 0); apply (iw_key s Hwf)).
  assert (forall e, e ∈ all <-> latest (index_key e) ops = Some e) as Hall
    by (intros e; rewrite <- run_latest; by apply all_events_elem).
  set (r := filter _ all).
  assert (forall e, e ∈ r <-> match_fn e = true /\ latest (index_key e) ops = Some e) as Hr
    by (intros e; unfold r; by rewrite list_elem_of_filter, Hall).
  assert (NoDup r) as Hndr by (by apply list.NoDup_filter).
  assert (forall k e, latest k ops = Some e -> match_fn e = true -> e ∈ r) as Hin.
  { intros k e Hk He. apply Hr. split; [done|]. rewrite <- run_latest in Hk |- *.
    by rewrite (stored_key k s e). }
  destruct max_matches as [|n].
  { split; [done|]. split; [apply Hr|]. split; [lia|]. intros _. apply Hin. }
  split; [by eapply sublist_NoDup; [|apply sublist_take]|]. split; [|split].
  - intros e He. apply Hr. apply elem_of_take in He as (i & He & _).
    by eapply list_elem_of_lookup_2.
  - intros _. rewrite length_take. lia.
  - rewrite length_take. intros [?|Hlt]; [done|]. rewrite take_ge by lia. apply Hin.
Qed.

(** The index answers queries with exactly the events it should hold.  Take any
    interleaving of threads that add events with the thread that expires them.  A
    query yields events without duplicates, each of which matches and is the latest
    event of its key that has not been expired since; and unless it was cut off at
    its bound it yields every such event. *)
Theorem index_query_spec (ops : list op) (match_fn : Event -> bool) (max_matches : nat) :
  let r := query_index match_fn max_matches (run ops new).1 in
  NoDup r
  /\ (forall e, e ∈ r -> match_fn e = true /\ latest (index_key e) ops = Some e)
  /\ ((0 < max_matches)%nat -> (length r <= max_matches)%nat)
  /\ (max_matches = 0%nat \/ (length r < max_matches)%nat ->
      forall k e, latest k ops = Some e -> match_fn e = true -> e ∈ r).
Proof. apply query_latest. Qed.

(** ** A pass of the expiring thread *)

(** Other steps do not touch the pass: until it reports, its time stays and it goes on map
    by map. *)
Record pass (now : Z) (adds : list Event) (s0 s : t U) (x : expire_t) : Prop := {
  ps_wf : index_wf s;
  ps_expiring : expiring_ s = Some x;
  ps_now : x_now x = now;
  (** keys to which nothing was added since the start *)
  ps_keys : forall k, Forall (fun e => index_key e <> k) adds ->
    stored k s = e ← stored k s0;
      if decide (shard k < x_next x)%nat then (if is_expired now e then None else Some e) else Some e;
  (** what was found is expired, and complete so far *)
  ps_found : forall e, e ∈ expired_events x -> is_expired now e = true
    /\ (stored (index_key e) s0 = Some e \/ e ∈ adds);
  ps_complete : forall k e, Forall (fun e => index_key e <> k) adds ->
    stored k s0 = Some e -> (shard k < x_next x)%nat -> is_expired now e = true ->
    e ∈ expired_events x;
  ps_source : forall k e, stored k s = Some e -> stored k s0 = Some e \/ e ∈ adds
}.

Definition added (o : op) : list Event := match o with AddEvent e => [e] | _ => [] end.
Definition is_next (o : op) : bool := match o with ExpireNext => true | _ => false end.

Lemma pass_add now adds s0 s x e :
  pass now adds s0 s x -> pass now (adds ++ [e]) s0 (add_event hash_fn e s).1 x.
Proof.
  intros [Hwf Hx Hnow Hk Hf Hc Hs]. destruct (add_event_spec e s Hwf) as (Hwf' & Hx' & Hst).
  constructor; [done|by rewrite Hx'|done| | | |].
  - intros k Ha. apply Forall_app in Ha as [Ha He]. apply Forall_cons_iff in He as [He _].
    rewrite Hst, decide_False by done. by apply Hk.
  - intros e' He'. destruct (Hf e' He') as [? [?|?]]; [auto|]. split; [done|].
    right. apply elem_of_app. by left.
  - intros k e' Ha. apply Forall_app in Ha as [Ha _]. by apply Hc.
  - intros k e'. rewrite Hst. case_decide.
    + intros [= <-]. right. apply elem_of_app. right. by left.
    + intros Hke. destruct (Hs k e' Hke); [auto|]. right. apply elem_of_app. by left.
Qed.

Lemma pass_expire now adds s0 s x :
  (x_next x < k_indexes)%nat -> pass now adds s0 s x ->
  exists x', pass now adds s0 (expire_next s).1 x' /\ x_next x' = S (x_next x).
Proof.
  intros Hlt [Hwf Hx Hnow Hk Hf Hc Hs]. destruct (expire_next_spec s Hwf) as [Hwf' He].
  rewrite Hx, decide_True in He by done. destruct He as (old & m & Hx' & Hold & Hst).
  rewrite Hnow in *. eexists. split; [|shelve].
  constructor; [done|exact Hx'|done| | | |]; simpl.
  - intros k Ha. rewrite Hst, (Hk k Ha). destruct (stored k s0) as [e|]; [|done]. simpl.
    destruct (Nat.lt_trichotomy (shard k) (x_next x)) as [Hl|[Hl|Hl]].
    + rewrite (decide_True (P := (shard k < x_next x)%nat)), decide_True by lia.
      destruct (is_expired now e) eqn:He; [done|]. simpl. rewrite He, decide_False; [done|].
      by intros [_ ?].
    + rewrite (decide_False (P := (shard k < x_next x)%nat)), (decide_True (P := (_ < S _)%nat))
        by lia.
      simpl. destruct (is_expired now e); [by rewrite decide_True|].
      rewrite decide_False; [done|]. by intros [_ ?].
    + rewrite !(decide_False (P := (_ < _)%nat)) by lia. simpl. rewrite decide_False; [done|]. lia.
  - intros e He. apply elem_of_app in He as [He|He]; [by apply Hf|].
    apply Hold in He as (k & _ & Hke & He). split; [done|].
    rewrite (stored_key k s e Hwf Hke). by apply Hs.
  - intros k e Ha Hk0 Hlt' He. apply elem_of_app.
    destruct (decide (shard k < x_next x)%nat) as [Hl|Hl]; [left; by eapply Hc|].
    right. apply Hold. exists k. split; [lia|]. split; [|done].
    rewrite (Hk k Ha), Hk0. simpl. by rewrite decide_False.
  - intros k e. rewrite Hst. destruct (stored k s) as [e'|] eqn:Hke; [|done]. simpl.
    case_decide; [done|]. intros [= <-]. by apply Hs.
Unshelve. done.
Qed.

Lemma pass_run now ops adds s0 s x :
  ExpireReport ∉ ops -> pass now adds s0 s x ->
  exists x', pass now (adds ++ (ops ≫= added)) s0 (run ops s).1 x'
  /\ x_next x' = Nat.min k_indexes (x_next x + length (filter (fun o => is_next o = true) ops)).
Proof.
  revert adds s x. induction ops as [|o ops IH]; intros adds s x Hno Hp.
  { exists x. rewrite filter_nil. cbn [length mbind list_bind real_index.run fst].
    rewrite app_nil_r, Nat.add_0_r. split; [done|].
    pose proof (iw_next s (ps_wf _ _ _ _ _ Hp) x (ps_expiring _ _ _ _ _ Hp)). lia. }
  apply not_elem_of_cons in Hno as [Ho Hno]. cbn [real_index.run].
  assert (exists x1, pass now (adds ++ added o) s0 (step o s).1 x1
    /\ x_next x1 = Nat.min k_indexes (x_next x + if is_next o then 1 else 0)) as (x1 & Hp1 & Hn1).
  { pose proof (iw_next s (ps_wf _ _ _ _ _ Hp) x (ps_expiring _ _ _ _ _ Hp)) as Hle.
    pose proof (ps_expiring _ _ _ _ _ Hp) as Hx.
    destruct o as [e|n| |]; [| | |done]; cbn [real_index.step added is_next].
    - exists x. split; [by apply pass_add|lia].
    - exists x. rewrite app_nil_r. unfold timer_cb. rewrite Hx. split; [done|lia].
    - rewrite app_nil_r. destruct (decide (x_next x < k_indexes)%nat) as [Hlt|Hge].
      + destruct (pass_expire now adds s0 s x Hlt Hp) as (x1 & Hp1 & Hn1). exists x1.
        split; [done|lia].
      + exists x. destruct (expire_next_spec s (ps_wf _ _ _ _ _ Hp)) as [_ He].
        rewrite Hx, decide_False in He by done. rewrite He. split; [done|lia]. }
  destruct (step o s) as [s1 out]. cbn [fst] in Hp1.
  destruct (IH _ s1 x1 Hno Hp1) as (x' & Hp' & Hn'). exists x'.
  rewrite bind_cons, app_assoc. destruct (run ops s1) as [s2 out']. split; [done|].
  rewrite Hn', Hn1. destruct o;
    [rewrite filter_cons_False by done|rewrite filter_cons_False by done
    |rewrite filter_cons_True by done|done]; cbn [is_next length]; lia.
Qed.

(** C38. A pass of the expiring thread, while other threads add events at will.  A key to
    which nothing is added while it runs loses its event exactly if the event is
    expired at the time the pass started, and then the event goes to the subscriber
    and back into the streams with state expired.  Nothing else is reported as
    expired: each such event was expired and was in the index when the pass began or
    was added since. *)
Theorem index_expire_pass (before during : list op) (now : Z) :
  let s0 := (run before new).1 in
  let s1 := (run (TimerCb now :: during) s0).1 in
  expiring_ s0 = None -> ExpireReport ∉ during ->
  (k_indexes <= length (filter (fun o => is_next o = true) during))%nat ->
  let '(s2, out) := expire_report s1 in
  expiring_ s2 = None
  /\ (forall k e, stored k s0 = Some e -> Forall (fun e => index_key e <> k) (during ≫= added) ->
      stored k s2 = (if is_expired now e then None else Some e)
      /\ (is_expired now e = true ->
          Publish (Event.set_state "expired" e) ∈ out
          /\ PushEvent (Event.set_state "expired" e) ∈ out))
  /\ (forall e', PushEvent e' ∈ out -> exists e, e' = Event.set_state "expired" e
      /\ is_expired now e = true
      /\ (stored (index_key e) s0 = Some e \/ AddEvent e ∈ during)).
Proof.
  intros s0 s1 Hx Hno Hn. assert (index_wf s0) as Hwf by apply (run_key "" before new new_wf).
  set (st := Mk (indexes_ s0) (Some (MkExpire now 0 0 []))).
  assert (s1 = (run during st).1) as Hs1.
  { unfold s1. cbn [real_index.run real_index.step]. unfold timer_cb. rewrite Hx.
    fold st. by destruct (run during st). }
  assert (pass now [] s0 st (MkExpire now 0 0 [])) as Hp.
  { constructor; try done.
    - destruct Hwf as [Hl Hk Hnx]. constructor; [done|done|]. intros ? [= <-]. simpl. lia.
    - intros k _. change (stored k st) with (stored k s0). by destruct (stored k s0).
    - intros e He. by apply not_elem_of_nil in He.
    - simpl. lia.
    - intros k e He. by left. }
  destruct (pass_run now during [] s0 st _ Hno Hp) as (x' & Hp' & Hx'). rewrite <- Hs1 in Hp'.
  destruct Hp' as [Hwf1 Hex Hnow Hk Hf Hc _]. cbn [app x_next] in Hx', Hk, Hf, Hc.
  assert (x_next x' = k_indexes) as Hend by lia. clear Hx' Hp.
  unfold expire_report. rewrite Hex, decide_True by (by rewrite (iw_length _ Hwf1)).
  split; [done|]. split.
  - intros k e He Hadd. change (stored k (Mk (indexes_ s1) None)) with (stored k s1).
    assert (shard k < x_next x')%nat as Hs by (rewrite Hend; apply shard_lt).
    rewrite (Hk k Hadd), He. simpl. rewrite decide_True by done. split; [done|].
    intros Hxe. pose proof (Hc k e Hadd He Hs Hxe) as Hin.
    split; do 2 right; apply list_elem_of_bind; exists e; (split; [|done]); [by left|].
    right. by left.
  - intros e' He'. do 2 (apply elem_of_cons in He' as [?|He']; [done|]).
    apply list_elem_of_bind in He' as (e & He' & Hin). destruct (Hf e Hin) as [Hxe Hsrc].
    apply elem_of_cons in He' as [?|He']; [done|]. apply list_elem_of_singleton in He' as [= ->].
    exists e. split; [done|]. split; [done|]. destruct Hsrc as [?|Ha]; [by left|]. right.
    apply list_elem_of_bind in Ha as (o & Ho & Hind). destruct o; simpl in Ho;
      try (by apply not_elem_of_nil in Ho). apply list_elem_of_singleton in Ho. by subst.
Qed.
(** ** The destructor *)

(** The turns that are left at most. *)
Definition turns_left (d : dying) : nat :=
  match d with
  | Clearing i => k_indexes - i + 2 + k_stop_attempts
  | Attempts n => S n
  | Destroyed => 0
  end.

Definition no_timer (o : op) : bool := match o with TimerCb _ => false | _ => true end.

Lemma step_length o s : length (indexes_ (step o s).1) = length (indexes_ s).
Proof.
  destruct o; cbn [step]; unfold add_event, timer_cb, expire_next, expire_report.
  - apply length_alter.
  - by destruct (expiring_ s).
  - destruct (expiring_ s) as [x|]; [|done]. destruct (indexes_ s !! x_next x); [|done].
    destruct (expire_map _ _). apply length_insert.
  - destruct (expiring_ s); [|done]. by destruct (decide _).
Qed.

(** Without the timer no thread is started. *)
Lemma step_ended o s : no_timer o = true -> expiring_ s = None -> expiring_ (step o s).1 = None.
Proof.
  destruct o; cbn [step no_timer]; unfold add_event, expire_next, expire_report; intros Ho Hs; try done; by rewrite Hs.
Qed.

Lemma run_ended ops : forall s, forallb no_timer ops = true ->
  length (indexes_ (run ops s).1) = length (indexes_ s)
  /\ (expiring_ s = None -> expiring_ (run ops s).1 = None).
Proof.
  induction ops as [|o ops IH]; [done|]. intros s [Ho Hops]%andb_prop. cbn [run].
  pose proof (step_length o s) as Hl. pose proof (step_ended o s Ho) as He.
  destruct (step o s) as [s1 out]. destruct (IH s1 Hops) as [Hl1 He1].
  destruct (run ops s1) as [s2 out2]. cbn [fst] in *. split; [congruence|auto].
Qed.

Lemma destroy_turn_left d s : length (indexes_ s) = k_indexes ->
  let '(d', s') := destroy_turn d s in
  length (indexes_ s') = k_indexes /\ expiring_ s' = expiring_ s /\ (turns_left d' <= turns_left d - 1)%nat
  /\ (expiring_ s = None \/ turns_left d' = turns_left d - 1)%nat.
Proof.
  intros Hl. destruct d as [i|[|n]|]; cbn [destroy_turn].
  - destruct (decide _) as [Hi|Hi]; cbn [turns_left indexes_ expiring_]; rewrite Hl in Hi.
    + rewrite length_insert. split_and!; [done|done|lia|right; lia].
    + split_and!; [done|done|lia|right; lia].
  - cbn. auto with lia.
  - destruct (expiring_ s) eqn:He; cbn [turns_left]; auto with lia.
  - auto with lia.
Qed.

Lemma destroy_run_left turns : forall k d s,
  Forall (fun ops => forallb no_timer ops = true) turns -> length (indexes_ s) = k_indexes ->
  (turns_left d <= k)%nat -> (expiring_ s = None \/ turns_left d = k) ->
  let '(d', s') := destroy_run hash_fn turns d s in
  (turns_left d' <= k - length turns)%nat /\ (expiring_ s' = None \/ turns_left d' = (k - length turns)%nat).
Proof.
  induction turns as [|ops turns IH]; intros k d s Hops Hl Hk He.
  { cbn. split; [lia|]. destruct He; [by left|right; lia]. }
  apply list.Forall_cons in Hops as [Ho Hops]. cbn [destroy_run length].
  destruct (run_ended ops s Ho) as [Hl' He']. pose proof (destroy_turn_left d (run ops s).1) as Ht.
  destruct (destroy_turn d (run ops s).1) as [d1 s1]. destruct Ht as (Hl1 & He1 & Hle & Hex); [congruence|].
  specialize (IH (k - 1)%nat d1 s1 Hops Hl1). replace (k - S (length turns))%nat with (k - 1 - length turns)%nat by lia.
  apply IH; [lia|]. rewrite He1. destruct He as [He|He]; [left; auto|]. destruct Hex; [by left|right; lia].
Qed.

(** When the timer does not fire any more, the destructor returns after 130 turns at the most, and before that only when
    no thread expires events. *)
Lemma index_destroyed turns s d' s' :
  Forall (fun ops => forallb no_timer ops = true) turns -> length (indexes_ s) = k_indexes ->
  destroy_run hash_fn turns (destroy s) s = (d', s') ->
  ((130 <= length turns)%nat -> d' = Destroyed)
  /\ (d' = Destroyed -> expiring_ s' = None \/ (130 <= length turns)%nat).
Proof.
  intros Hops Hl Hrun. pose proof (destroy_run_left turns 130 (destroy s) s Hops Hl) as Hk. rewrite Hrun in Hk.
  destruct Hk as [Hle He].
  - unfold destroy. destruct (expiring_ s); vm_compute; lia.
  - unfold destroy. destruct (expiring_ s); [by right|by left].
  - split; [|intros ->; destruct He as [|He]; [by left|right; cbn in He; lia]].
    intros Hlen. destruct d'; cbn in Hle; [lia|lia|done].
Qed.
End index_correct.

(** ** Concrete runs *)

Definition index_event (host : string) (time ttl : Z) : Event :=
  Event.set_ttl (f_of_Z ttl) (Event.set_time time (Event.set_host host Event.empty)).

Lemma index_query_spec_witness :
  let a := index_event "a" 1 120 in
  let b := index_event "b" 1 10 in
  let ops := [real_index.AddEvent a; real_index.AddEvent b; real_index.TimerCb 50]
             ++ replicate 8 real_index.ExpireNext in
  let s := (real_index.run (U := hash_map) String.length ops real_index.new).1 in
  real_index.query_index (fun _ => true) 10 s = [a]
  /\ latest String.length (index_key a) ops = Some a.
Proof.
  intros a b ops s. assert (real_index.query_index (fun _ => true) 10 s = [a]) as Hq
    by (vm_compute; reflexivity).
  split; [exact Hq|].
  destruct (index_query_spec (U := hash_map) String.length ops (fun _ => true) 10)
    as (_ & Hr & _).
  apply Hr. fold s. rewrite Hq. left.
Defined.

Lemma index_expire_pass_witness :
  let b := index_event "b" 1 10 in
  let during := [real_index.ExpireNext; real_index.AddEvent (index_event "c" 1 5)]
                ++ replicate 7 real_index.ExpireNext in
  let s := (real_index.run (U := hash_map) String.length [real_index.AddEvent b] real_index.new).1 in
  PushEvent (Event.set_state "expired" b)
  ∈ (real_index.expire_report
       (real_index.run String.length (real_index.TimerCb 50 :: during) s).1).2.
Proof.
  intros b during s.
  assert (real_index.ExpireReport ∉ during) as Hno.
  { unfold during. simpl. intros Hin.
    repeat (apply elem_of_cons in Hin as [Hin|Hin]; [discriminate|]).
    by apply not_elem_of_nil in Hin. }
  pose proof (index_expire_pass (U := hash_map) String.length [real_index.AddEvent b] during 50
    ltac:(reflexivity) Hno ltac:(vm_compute; lia)) as Hpass.
  fold s in Hpass.
  destruct (real_index.expire_report _) as [s2 out]. destruct Hpass as (_ & Hexp & _).
  destruct (Hexp (index_key b) b) as [_ Hout].
  - vm_compute. reflexivity.
  - repeat constructor. by vm_compute.
  - apply Hout. vm_compute. reflexivity.
Defined.

(** Hosts and services are joined with a dash, which both may contain. *)
Example index_keys_collide :
  let e1 := Event.set_service "b-c" (Event.set_host "a" Event.empty) in
  let e2 := Event.set_service "c" (Event.set_host "a-b" Event.empty) in
  index_key e1 = index_key e2 /\ Event.host e1 <> Event.host e2.
Proof. by vm_compute. Qed.
