(* ===== verification/Query.v ===== *)
(** * Queries on the index

    [src/query/scanner.ll] and [src/query/parser.yy], from which the scanner and the
    parser are generated, and [src/query/expression.cpp].  The grammar is written as a parser
    by recursive descent, with all operators on one level of precedence and left
    associative; [Lalr] has the parser that is generated, and shows that it does the same.
    [std::regex_match] and [std::stod] are parameters. *)

From S2P Require Import Prelude Ieee Events Infra Predicates Codec.

Local Open Scope Z_scope.

(** ** Nodes *)

(** The operators, by their text. *)
Inductive operator : Type := EQUAL | LIKE | GREATER | GREATER_EQ | LESSER | LESSER_EQ.

#[export] Instance operator_eq_dec : EqDecision operator.
Proof. solve_decision. Defined.

Definition op_text (op : operator) : list ascii :=
  chars match op with
        | EQUAL => "=" | LIKE => "=~" | GREATER => ">" | GREATER_EQ => ">="
        | LESSER => "<" | LESSER_EQ => "<="
        end.

(** [boost::variant<std::shared_ptr<std::string>, int, double>]. *)
Inductive field_value : Type :=
| VString (s : list ascii)
| VInt (n : Z)
| VDouble (d : double).

(** [query_nil] is a [query_field] without an operator. *)
Inductive query_node : Type :=
| query_true
| query_tagged (string_ : list ascii)
| query_field (field_ : list ascii) (value_ : field_value) (op_ : operator)
| query_nil (field_ : list ascii)
| query_and (left_ right_ : query_node)
| query_or (left_ right_ : query_node)
| query_not (right_ : query_node).

(** ** Scanner *)

Inductive token : Type :=
| EOL
| INTEGER (n : Z)
| DOUBLE (d : double)
| STRING (s : list ascii)
| OP (op : operator)
| UNQUOTEDSTRING (s : list ascii)
| TRUE | TAGGED | NIL | OR | AND | NOT
| CHAR (c : ascii).

Definition is_digit (c : ascii) : bool :=
  let n := N_of_ascii c in ((48 <=? n) && (n <=? 57))%N.
Definition is_alnum (c : ascii) : bool :=
  let n := N_of_ascii c in
  (is_digit c || ((65 <=? n) && (n <=? 90)) || ((97 <=? n) && (n <=? 122)))%N.

(** The longest prefix of characters that satisfy [p]. *)
Fixpoint span (p : ascii -> bool) (s : list ascii) : list ascii * list ascii :=
  match s with
  | c :: s' => if p c then let '(a, b) := span p s' in (c :: a, b) else ([], s)
  | [] => ([], [])
  end.

Definition digit (c : ascii) : Z := Z.of_N (N_of_ascii c) - 48.
Definition decimal (s : list ascii) : Z := foldl (fun n c => n * 10 + digit c) 0 s.

Definition k_quote : ascii := "034".
Definition k_backslash : ascii := "092".

(** What follows an opening quote, up to the last quote that the rule can reach: one that
    is not escaped, or the last of the escaped ones.  [esc]: the character before is a
    backslash. *)
Fixpoint scan_string (esc : bool) (s : list ascii) : option (list ascii * list ascii) :=
  match s with
  | [] => None
  | c :: s' =>
      if decide (c = k_quote) then
        match (if esc then scan_string false s' else None) with
        | Some (a, b) => Some (c :: a, b)
        | None => Some ([c], s')
        end
      else
        match scan_string (bool_decide (c = k_backslash)) s' with
        | Some (a, b) => Some (c :: a, b)
        | None => None
        end
  end.

(** [atof] on digits, a point and digits: the nearest double. *)
Definition atof (s : list ascii) : double :=
  let '(w, rest) := span is_digit s in
  let frac := tail rest in
  d_of_ratio (decimal (w ++ frac)) (Z.to_pos (10 ^ Z.of_nat (length frac))).

Definition k_int_max : Z := 2147483647.

Definition keyword (w : list ascii) : token :=
  if decide (w = chars "and") then AND
  else if decide (w = chars "or") then OR
  else if decide (w = chars "not") then NOT
  else if decide (w = chars "tagged") then TAGGED
  else if decide (w = chars "nil") then NIL
  else if decide (w = chars "true") then TRUE
  else UNQUOTEDSTRING w.

(** [=] and [=~], [>] and [>=], [<] and [<=]: the longer one if it matches. *)
Definition scan_op (short long : operator) (second : ascii) (s : list ascii)
  : token * list ascii :=
  match s with
  | c :: s' => if decide (c = second) then (OP long, s') else (OP short, s)
  | [] => (OP short, s)
  end.

(** The rules that begin with a letter or a digit.  [atoi] of a number that is no [int]
    is undefined. *)
Definition scan_word (s : list ascii) : result token * list ascii :=
  let '(w, rest) := span is_alnum s in
  if forallb is_digit w then
    let int := if k_int_max <? decimal w then Throw undefined_behaviour
               else Ok (INTEGER (decimal w)) in
    match rest with
    | c :: rest' =>
        if decide (c = "."%char) then
          let '(frac, rest'') := span is_digit rest' in
          (Ok (DOUBLE (atof (w ++ "."%char :: frac))), rest'')
        else (int, rest)
    | [] => (int, rest)
    end
  else (Ok (keyword w), rest).

(** The next token; white space yields none. *)
Definition scan_token (c : ascii) (s : list ascii) : result (option token) * list ascii :=
  if decide (c = "="%char) then let '(t, s) := scan_op EQUAL LIKE "~" s in (Ok (Some t), s)
  else if decide (c = ">"%char) then
    let '(t, s) := scan_op GREATER GREATER_EQ "=" s in (Ok (Some t), s)
  else if decide (c = "<"%char) then
    let '(t, s) := scan_op LESSER LESSER_EQ "=" s in (Ok (Some t), s)
  else if is_alnum c then let '(t, s) := scan_word (c :: s) in (res_map Some t, s)
  else if decide (c = k_quote) then
    match scan_string false s with
    | Some (a, s) => (Ok (Some (STRING (c :: a))), s)
    | None => (Ok (Some (CHAR c)), s)
    end
  else if decide (c = " "%char \/ c = "009"%char \/ c = "013"%char) then (Ok None, s)
  else if decide (c = "010"%char) then (Ok (Some EOL), s)
  else (Ok (Some (CHAR c)), s).

(** All tokens, each of at least one character, up to the end of the input or to where
    the scanner fails. *)
Fixpoint scan (fuel : nat) (s : list ascii) : option (list token * option exn) :=
  match s with
  | [] => Some ([], None)
  | c :: s' =>
      match fuel with
      | O => None
      | S fuel' =>
          match scan_token c s' with
          | (Throw x, _) => Some ([], Some x)
          | (Ok t, rest) =>
              '(ts, x) ← scan fuel' rest;
              Some (match t with Some t => t :: ts | None => ts end, x)
          end
      end
  end.

(** ** Parser *)

(** [action]. *)
Definition parse_action (ts : list token) : option (query_node * list token) :=
  match ts with
  | TAGGED :: OP EQUAL :: STRING s :: ts' => Some (query_tagged s, ts')
  | TAGGED :: STRING s :: ts' => Some (query_tagged s, ts')
  | UNQUOTEDSTRING f :: OP EQUAL :: NIL :: ts' => Some (query_nil f, ts')
  | UNQUOTEDSTRING f :: OP op :: STRING s :: ts' => Some (query_field f (VString s) op, ts')
  | UNQUOTEDSTRING f :: OP op :: INTEGER n :: ts' => Some (query_field f (VInt n) op, ts')
  | UNQUOTEDSTRING f :: OP op :: DOUBLE d :: ts' => Some (query_field f (VDouble d) op, ts')
  | _ => None
  end.

Definition is_char (c : ascii) (t : token) : bool :=
  match t with CHAR c' => bool_decide (c = c') | _ => false end.

(** [expr]: operands joined by [and] and [or] from the left; [not] takes one operand. *)
Fixpoint parse_operand (fuel : nat) (ts : list token) : option (query_node * list token) :=
  match fuel with
  | O => None
  | S fuel' =>
      match ts with
      | [] => None
      | NOT :: ts' => '(q, r) ← parse_operand fuel' ts'; Some (query_not q, r)
      | t :: ts' =>
          if is_char "(" t then
            '(q, r) ← parse_expr fuel' ts';
            match r with
            | t' :: r' => if is_char ")" t' then Some (q, r') else None
            | [] => None
            end
          else parse_action ts
      end
  end
with parse_expr (fuel : nat) (ts : list token) : option (query_node * list token) :=
  match fuel with
  | O => None
  | S fuel' => '(q, r) ← parse_operand fuel' ts; parse_rest fuel' q r
  end
with parse_rest (fuel : nat) (left : query_node) (ts : list token)
  : option (query_node * list token) :=
  match fuel with
  | O => None
  | S fuel' =>
      match ts with
      | AND :: ts' =>
          '(q, r) ← parse_operand fuel' ts'; parse_rest fuel' (query_and left q) r
      | OR :: ts' =>
          '(q, r) ← parse_operand fuel' ts'; parse_rest fuel' (query_or left q) r
      | _ => Some (left, ts)
      end
  end.

(** [static_cast<token_type>( *yytext)]: a [char] that is not positive is a token number
    that the parser takes for the end of the input. *)
Definition is_end (c : ascii) : bool :=
  let n := N_of_ascii c in ((n =? 0) || (128 <=? n))%N.
Definition at_end (ts : list token) : bool :=
  match ts with [] => true | CHAR c :: _ => is_end c | _ => false end.

(** [start]: [true] only on its own. *)
Definition parse (ts : list token) : option query_node :=
  let other :=
    match parse_expr (3 * length ts + 2) ts with
    | Some (q, r) => if at_end r then Some q else None
    | None => None
    end in
  match ts with
  | TRUE :: r => if at_end r then Some query_true else None
  | t :: TRUE :: t' :: r =>
      if is_char "(" t && is_char ")" t' && at_end r then Some query_true else other
  | _ => other
  end.

(** ** Evaluation *)

Abbreviation text := String.string_of_list_ascii.

(** [std::isspace] in the "C" locale. *)
Definition is_space (c : ascii) : bool :=
  let n := N_of_ascii c in ((n =? 32) || ((9 <=? n) && (n <=? 13)))%N.

(** [std::stoi]: white space, a sign and digits, then anything. *)
Definition stoi (s : list ascii) : result Z :=
  let s := (span is_space s).2 in
  let '(neg, s) :=
    match s with
    | c :: s' =>
        if decide (c = "-"%char) then (true, s')
        else if decide (c = "+"%char) then (false, s') else (false, s)
    | [] => (false, s)
    end in
  match (span is_digit s).1 with
  | [] => Throw (user_exception "invalid_argument")
  | ds =>
      let n := if neg : bool then - decimal ds else decimal ds in
      if (n <? - k_int_max - 1) || (k_int_max <? n)
      then Throw (user_exception "out_of_range") else Ok n
  end.

(** [compare] on strings, on integers and on doubles. *)
Definition compare_int (l r : Z) (op : operator) : bool :=
  match op with
  | EQUAL => l =? r | GREATER => r <? l | GREATER_EQ => r <=? l
  | LESSER => l <? r | LESSER_EQ => l <=? r | LIKE => false
  end.
Definition compare_double (l r : double) (op : operator) : bool :=
  match op with
  | EQUAL => sf_eq l r | GREATER => sf_gt l r | GREATER_EQ => sf_ge l r
  | LESSER => sf_lt l r | LESSER_EQ => sf_le l r | LIKE => false
  end.

Section evaluate.
Variable regex_match : string -> string -> result bool.
(** [std::stod]; it throws [invalid_argument] and [out_of_range] too. *)
Variable stod : list ascii -> result double.

Definition compare_string (l r : string) (op : operator) : result bool :=
  match op with
  | EQUAL => Ok (bool_decide (l = r))
  | LIKE => predicates.util_match_like regex_match l r
  | _ => Ok false
  end.

(** Without its quotes, unless there is nothing between them. *)
Definition strip_val (value : list ascii) : string :=
  match value with
  | c :: s =>
      if decide ((2 < length value)%nat /\ c = k_quote) then text (take (length value - 2) s)
      else text value
  | [] => ""
  end.

Definition evaluate_string (field : string) (value : list ascii) (op : operator) (e : Event)
  : result bool :=
  let v := strip_val value in
  if decide (field = "host") then compare_string (Event.host e) v op
  else if decide (field = "service") then compare_string (Event.service e) v op
  else if decide (field = "state") then compare_string (Event.state e) v op
  else if decide (field = "description") then compare_string (Event.description e) v op
  else if Event.has_attr field e then compare_string (Event.attr field e) v EQUAL
  else Ok false.

(** [catch (std::invalid_argument &) { }]. *)
Definition catch_invalid {A} (f : A -> bool) (r : result A) : result bool :=
  match r with
  | Ok a => Ok (f a)
  | Throw x => if decide (x = user_exception "invalid_argument") then Ok false else Throw x
  end.

Definition evaluate_int (field : string) (ival : Z) (op : operator) (e : Event) : result bool :=
  if decide (field = "time") then Ok (compare_int (Event.time e) ival op)
  else if decide (field = "ttl") then
    Ok (compare_double (d_of_f (Event.ttl e)) (d_of_Z ival) op)
  else if decide (field = "metric") then
    Ok (if negb (Event.has_metric e) then false
        else compare_double (Event.metric e) (d_of_Z ival) op)
  else if Event.has_attr field e then
    catch_invalid (fun n => compare_int n ival op)
      (stoi (String.list_ascii_of_string (Event.attr field e)))
  else Ok false.

Definition evaluate_double (field : string) (dval : double) (op : operator) (e : Event)
  : result bool :=
  if decide (field = "metric") then Ok (compare_double (Event.metric e) dval op)
  else if Event.has_attr field e then
    catch_invalid (fun d => compare_double d dval op)
      (stod (String.list_ascii_of_string (Event.attr field e)))
  else Ok false.

(** The string without its quotes. *)
Definition evaluate_tagged (string_ : list ascii) (e : Event) : result bool :=
  Ok (Event.has_tag (text (take (length string_ - 2) (drop 1 string_))) e).

Definition evaluate_field (field_ : list ascii) (value_ : field_value) (op_ : operator) (e : Event) : result bool :=
  match value_ with
  | VString s => evaluate_string (text field_) s op_ e
  | VInt n => evaluate_int (text field_) n op_ e
  | VDouble d => evaluate_double (text field_) d op_ e
  end.

Definition evaluate_nil (field_ : list ascii) (e : Event) : result bool :=
  Ok (negb (Event.has_field_set (text field_) e)).

Fixpoint evaluate (q : query_node) (e : Event) : result bool :=
  match q with
  | query_true => Ok true
  | query_tagged s => evaluate_tagged s e
  | query_field f v op => evaluate_field f v op e
  | query_nil f => evaluate_nil f e
  | query_and l r =>
      match evaluate l e with
      | Ok true => evaluate r e
      | Ok false => Ok false
      | Throw x => Throw x
      end
  | query_or l r =>
      match evaluate l e with
      | Ok true => Ok true
      | Ok false => evaluate r e
      | Throw x => Throw x
      end
  | query_not r => res_map negb (evaluate r e)
  end.
End evaluate.

(** ** The scanner and the parser have fuel enough *)

Lemma span_length p s : (length (span p s).2 <= length s)%nat.
Proof.
  induction s as [|c s IH]; simpl; [lia|].
  destruct (p c); [|simpl; lia]. destruct (span p s). simpl in *. lia.
Qed.

Lemma scan_string_shorter esc s a b : scan_string esc s = Some (a, b) -> (length b < length s)%nat.
Proof.
  revert esc a b. induction s as [|c s IH]; intros esc a b; cbn [scan_string]; [done|].
  intros H. repeat case_match; simplify_eq/=; try lia;
    match goal with Hs : scan_string _ _ = _ |- _ => apply IH in Hs; lia end.
Qed.

Lemma scan_op_length short long c s : (length (scan_op short long c s).2 <= length s)%nat.
Proof. unfold scan_op. repeat case_match; simplify_eq/=; lia. Qed.

Lemma scan_word_length c s :
  is_alnum c = true -> (length (scan_word (c :: s)).2 <= length s)%nat.
Proof.
  intros Hc. unfold scan_word. cbn [span]. rewrite Hc.
  pose proof (span_length is_alnum s) as Hl. destruct (span is_alnum s) as [w rest].
  destruct (forallb is_digit (c :: w)); [|done]. destruct rest as [|x rest]; [done|].
  case_decide; [|done]. pose proof (span_length is_digit rest).
  destruct (span is_digit rest). simpl in *. lia.
Qed.

Lemma scan_token_length c s : (length (scan_token c s).2 <= length s)%nat.
Proof.
  unfold scan_token.
  repeat (case_decide; [let H := fresh in
    match goal with |- context [scan_op ?a ?b ?d s] =>
      pose proof (scan_op_length a b d s) as H; by destruct (scan_op a b d s) end|]).
  destruct (is_alnum c) eqn:Hc.
  { pose proof (scan_word_length c s Hc). by destruct (scan_word (c :: s)). }
  case_decide.
  - destruct (scan_string false s) as [[a b]|] eqn:Hs; [|done].
    apply scan_string_shorter in Hs. simpl. lia.
  - repeat case_decide; simpl; lia.
Qed.

Lemma scan_total fuel s : (length s <= fuel)%nat -> is_Some (scan fuel s).
Proof.
  revert s. induction fuel as [|fuel IH]; intros [|c s] Hl; simpl in *; try (by eexists); [lia|].
  pose proof (scan_token_length c s) as Ht.
  destruct (scan_token c s) as [[t|x] rest]; [|by eexists].
  destruct (IH rest) as [[ts x] ->]; [simpl in Ht; lia|]. by eexists.
Qed.

Lemma parse_action_shorter ts q r : parse_action ts = Some (q, r) -> (length r < length ts)%nat.
Proof.
  unfold parse_action. intros H. repeat (case_match; try discriminate); simplify_eq; simpl; lia.
Qed.

Lemma parse_shorter fuel :
  (forall ts q r, parse_operand fuel ts = Some (q, r) -> (length r < length ts)%nat)
  /\ (forall ts q r, parse_expr fuel ts = Some (q, r) -> (length r < length ts)%nat)
  /\ (forall l ts q r, parse_rest fuel l ts = Some (q, r) -> (length r <= length ts)%nat).
Proof.
  induction fuel as [|fuel (IHo & IHe & IHr)]; [done|]. split; [|split].
  - intros [|t ts] q r; cbn [parse_operand]; [done|].
    assert (forall x, (if is_char "(" x then
        '(q, r) ← parse_expr fuel ts;
        match r with t' :: r' => if is_char ")" t' then Some (q, r') else None | [] => None end
      else parse_action (x :: ts)) = Some (q, r) -> (length r < length (t :: ts))%nat) as Hx.
    { intros x. destruct (is_char "(" x); [|apply parse_action_shorter].
      destruct (parse_expr fuel ts) as [[q' [|t' r']]|] eqn:He; simpl; try done.
      destruct (is_char ")" t'); [|done]. intros [= <- <-]. apply IHe in He. simpl in *. lia. }
    destruct t; try apply Hx.
    destruct (parse_operand fuel ts) as [[q' r']|] eqn:Ho; simpl; [|done].
    intros [= <- <-]. apply IHo in Ho. lia.
  - intros ts q r. cbn [parse_expr].
    destruct (parse_operand fuel ts) as [[q' r']|] eqn:Ho; simpl; [|done].
    intros Hr. apply IHo in Ho. apply IHr in Hr. lia.
  - intros l [|t ts] q r; cbn [parse_rest]; [by intros [= <- <-]|].
    destruct t; try (by intros [= <- <-]);
      (destruct (parse_operand fuel ts) as [[q' r']|] eqn:Ho; simpl; [|done]);
      intros Hr; apply IHo in Ho; apply IHr in Hr; lia.
Qed.

(** With more fuel than this the result stays the same. *)
Lemma parse_stable fuel :
  (forall ts, (3 * length ts + 1 <= fuel)%nat -> parse_operand (S fuel) ts = parse_operand fuel ts)
  /\ (forall ts, (3 * length ts + 2 <= fuel)%nat -> parse_expr (S fuel) ts = parse_expr fuel ts)
  /\ (forall l ts, (3 * length ts + 1 <= fuel)%nat ->
      parse_rest (S fuel) l ts = parse_rest fuel l ts).
Proof.
  induction fuel as [|fuel (IHo & IHe & IHr)]; [split; [|split]; intros; lia|].
  split; [|split].
  - intros [|t ts] Hf; [done|]. simpl in Hf.
    change (parse_operand (S (S fuel)) (t :: ts)) with
      (match t with
       | NOT => '(q, r) ← parse_operand (S fuel) ts; Some (query_not q, r)
       | _ => if is_char "(" t then
           '(q, r) ← parse_expr (S fuel) ts;
           match r with t' :: r' => if is_char ")" t' then Some (q, r') else None | [] => None end
         else parse_action (t :: ts)
       end).
    rewrite IHo, IHe by lia. done.
  - intros ts Hf.
    change (parse_expr (S (S fuel)) ts) with
      ('(q, r) ← parse_operand (S fuel) ts; parse_rest (S fuel) q r).
    rewrite IHo by lia. cbn [parse_expr].
    destruct (parse_operand fuel ts) as [[q r]|] eqn:Ho; [|done]. simpl.
    apply IHr. apply (proj1 (parse_shorter fuel)) in Ho. lia.
  - intros l [|t ts] Hf; [done|]. simpl in Hf.
    assert (forall f, ('(q, r) ← parse_operand (S fuel) ts; parse_rest (S fuel) (f q) r)
      = '(q, r) ← parse_operand fuel ts; parse_rest fuel (f q) r) as Hop.
    { intros f. rewrite IHo by lia.
      destruct (parse_operand fuel ts) as [[q r]|] eqn:Ho; [|done]. simpl.
      apply IHr. apply (proj1 (parse_shorter fuel)) in Ho. lia. }
    destruct t; try done; [apply (Hop (query_or l))|apply (Hop (query_and l))].
Qed.

Lemma parse_expr_enough ts n :
  parse_expr (3 * length ts + 2 + n) ts = parse_expr (3 * length ts + 2) ts.
Proof.
  induction n as [|n IH]; [by rewrite Nat.add_0_r|].
  rewrite Nat.add_succ_r. rewrite (proj1 (proj2 (parse_stable _))) by lia. done.
Qed.

(** ** Reading back a printed query *)

(** Queries as they are written: strings, words and numbers by their text. *)
Inductive syntax : Type :=
| STagged (with_eq : bool) (content : list ascii)
| SNil (f : list ascii)
| SString (f : list ascii) (op : operator) (content : list ascii)
| SInt (f : list ascii) (op : operator) (ds : list ascii)
| SDouble (f : list ascii) (op : operator) (ds frac : list ascii)
| SAnd (l r : syntax)
| SOr (l r : syntax)
| SNot (q : syntax)
| SParen (q : syntax).

Definition quoted (content : list ascii) : list ascii := k_quote :: content ++ [k_quote].

(** Operands of [not] and right operands of [and] and [or]. *)
Definition is_operand (q : syntax) : Prop :=
  match q with SAnd _ _ | SOr _ _ => False | _ => True end.

Definition content_ok (s : list ascii) : Prop := (k_quote ∉ s) /\ list.last s <> Some k_backslash.
Definition digits_ok (s : list ascii) : Prop := s <> [] /\ forallb is_digit s = true.
(** A word that the scanner takes for neither a keyword nor a number. *)
Definition word_ok (w : list ascii) : Prop :=
  forallb is_alnum w = true /\ forallb is_digit w = false /\ keyword w = UNQUOTEDSTRING w.

Fixpoint syntax_ok (q : syntax) : Prop :=
  match q with
  | STagged _ c => content_ok c
  | SNil f => word_ok f
  | SString f _ c => word_ok f /\ content_ok c
  | SInt f _ ds => word_ok f /\ digits_ok ds /\ decimal ds <= k_int_max
  | SDouble f _ ds frac => word_ok f /\ digits_ok ds /\ forallb is_digit frac = true
  | SAnd l r | SOr l r => syntax_ok l /\ syntax_ok r /\ is_operand r
  | SNot q => syntax_ok q /\ is_operand q
  | SParen q => syntax_ok q
  end.

(** [ds.frac]. *)
Definition fixed_point (ds frac : list ascii) : double :=
  d_of_ratio (decimal (ds ++ frac)) (Z.to_pos (10 ^ Z.of_nat (length frac))).

Fixpoint meaning (q : syntax) : query_node :=
  match q with
  | STagged _ c => query_tagged (quoted c)
  | SNil f => query_nil f
  | SString f op c => query_field f (VString (quoted c)) op
  | SInt f op ds => query_field f (VInt (decimal ds)) op
  | SDouble f op ds frac => query_field f (VDouble (fixed_point ds frac)) op
  | SAnd l r => query_and (meaning l) (meaning r)
  | SOr l r => query_or (meaning l) (meaning r)
  | SNot q => query_not (meaning q)
  | SParen q => meaning q
  end.

(** The words of a query with their tokens. *)
Fixpoint words (q : syntax) : list (list ascii * token) :=
  let word f := (f, UNQUOTEDSTRING f) in
  let oper op := (op_text op, OP op) in
  match q with
  | STagged with_eq c =>
      (chars "tagged", TAGGED) :: (if with_eq then [oper EQUAL] else [])
      ++ [(quoted c, STRING (quoted c))]
  | SNil f => [word f; oper EQUAL; (chars "nil", NIL)]
  | SString f op c => [word f; oper op; (quoted c, STRING (quoted c))]
  | SInt f op ds => [word f; oper op; (ds, INTEGER (decimal ds))]
  | SDouble f op ds frac =>
      [word f; oper op; (ds ++ "."%char :: frac, DOUBLE (fixed_point ds frac))]
  | SAnd l r => words l ++ (chars "and", AND) :: words r
  | SOr l r => words l ++ (chars "or", OR) :: words r
  | SNot q => (chars "not", NOT) :: words q
  | SParen q => (chars "(", CHAR "(") :: words q ++ [(chars ")", CHAR ")")]
  end.

Definition print (q : syntax) : list ascii := words q ≫= (fun w => w.1 ++ [" "%char]).

(** *** Scanning *)

(** A word followed by a space is read as its token. *)
Definition scans (w : list ascii * token) : Prop :=
  exists c tl, w.1 = c :: tl /\
  forall s, scan_token c (tl ++ " "%char :: s) = (Ok (Some w.2), " "%char :: s).

Lemma scan_words ws fuel :
  Forall scans ws -> (length (ws ≫= (fun w => w.1 ++ [" "%char])) <= fuel)%nat ->
  scan fuel (ws ≫= (fun w => w.1 ++ [" "%char])) = Some (ws.*2, None).
Proof.
  revert fuel. induction ws as [|w ws IH]; intros fuel Hws Hf; [by destruct fuel|].
  apply Forall_cons_iff in Hws as [(c & tl & Hw & Hscan) Hws].
  rewrite bind_cons, Hw in *. rewrite <- app_assoc in *. cbn [app length] in *.
  rewrite !length_app in Hf. cbn [length] in Hf.
  destruct fuel as [|[|fuel]]; [lia|lia|]. cbn [scan].
  rewrite Hscan. cbn [scan]. change (scan_token " " _) with
    (Ok (@None token), ws ≫= (fun w => w.1 ++ [" "%char])). cbv beta iota.
  rewrite IH; [|done|lia]. done.
Qed.

Lemma span_stop p w c s :
  forallb p w = true -> p c = false -> span p (w ++ c :: s) = (w, c :: s).
Proof.
  intros Hw Hc. induction w as [|x w IH]; simpl in *; [by rewrite Hc|].
  apply andb_true_iff in Hw as [-> Hw]. by rewrite IH.
Qed.

(** A word begins with none of the characters of the other rules. *)
Lemma scan_token_word c s :
  is_alnum c = true ->
  scan_token c s = let '(t, s) := scan_word (c :: s) in (res_map Some t, s).
Proof.
  intros Hc. unfold scan_token.
  rewrite !decide_False by (intros ->; discriminate Hc). by rewrite Hc.
Qed.

Lemma digit_alnum w : forallb is_digit w = true -> forallb is_alnum w = true.
Proof.
  induction w as [|c w IH]; simpl; [done|]. intros [Hc Hw]%andb_true_iff.
  rewrite IH, andb_true_r by done. unfold is_alnum. by rewrite Hc.
Qed.

Lemma scans_word w :
  word_ok w -> scans (w, UNQUOTEDSTRING w).
Proof.
  intros (Ha & Hd & Hk). destruct w as [|c tl]; [done|]. exists c, tl.
  pose proof Ha as Hc. simpl in Hc. apply andb_true_iff in Hc as [Hc _].
  split; [done|]. intros s.
  rewrite scan_token_word by done. unfold scan_word. rewrite app_comm_cons.
  rewrite (span_stop is_alnum (c :: tl) " " s) by done. by rewrite Hd, Hk.
Qed.

Lemma scans_int ds :
  digits_ok ds -> decimal ds <= k_int_max -> scans (ds, INTEGER (decimal ds)).
Proof.
  intros [Hne Hd] Hmax. pose proof (digit_alnum ds Hd) as Ha.
  destruct ds as [|c tl]; [done|]. exists c, tl.
  pose proof Ha as Hc. simpl in Hc. apply andb_true_iff in Hc as [Hc _].
  split; [done|]. intros s.
  rewrite scan_token_word by done. unfold scan_word. rewrite app_comm_cons.
  rewrite (span_stop is_alnum (c :: tl) " " s) by done.
  rewrite Hd, (proj2 (Z.ltb_ge _ _)) by done. done.
Qed.

Lemma scans_double ds frac :
  digits_ok ds -> forallb is_digit frac = true ->
  scans (ds ++ "."%char :: frac, DOUBLE (fixed_point ds frac)).
Proof.
  intros [Hne Hd] Hf. pose proof (digit_alnum ds Hd) as Ha.
  destruct ds as [|c tl]; [done|]. exists c, (tl ++ "."%char :: frac).
  pose proof Ha as Hc. simpl in Hc. apply andb_true_iff in Hc as [Hc _].
  split; [done|]. intros s.
  rewrite scan_token_word by done. unfold scan_word.
  rewrite <- app_assoc, app_comm_cons. change (("."%char :: ?x) ++ ?y) with ("."%char :: x ++ y).
  rewrite (span_stop is_alnum (c :: tl) "." (frac ++ " "%char :: s)) by done.
  rewrite Hd, decide_True by done. rewrite span_stop by done.
  unfold atof. by rewrite (span_stop is_digit (c :: tl) "." frac).
Qed.

Lemma scan_string_content content esc s :
  k_quote ∉ content -> list.last content <> Some k_backslash -> (content = [] -> esc = false) ->
  scan_string esc (content ++ k_quote :: s) = Some (content ++ [k_quote], s).
Proof.
  revert esc. induction content as [|c content IH]; intros esc Hq Hl He; cbn [app scan_string].
  - rewrite decide_True by done. by rewrite He.
  - apply not_elem_of_cons in Hq as [Hc Hq]. rewrite decide_False by congruence.
    rewrite IH; [done|done| |].
    + destruct content; [done|]. by rewrite last_cons_cons in Hl.
    + intros ->. apply bool_decide_false. simpl in Hl. congruence.
Qed.

Lemma scans_string content :
  content_ok content -> scans (quoted content, STRING (quoted content)).
Proof.
  intros [Hq Hl]. exists k_quote, (content ++ [k_quote]). split; [done|]. intros s.
  rewrite <- app_assoc. cbn [app].
  change (scan_token k_quote ?x) with
    (match scan_string false x with
     | Some (a, s) => (Ok (Some (STRING (k_quote :: a))), s)
     | None => (Ok (Some (CHAR k_quote)), x)
     end).
  by rewrite scan_string_content.
Qed.

Lemma scans_op op : scans (op_text op, OP op).
Proof. destruct op; eexists _, _; repeat (split; [reflexivity|]); reflexivity. Qed.

(** The words with a fixed text. *)
Ltac scans_fixed := eexists _, _; repeat (split; [reflexivity|]); reflexivity.

Lemma words_scan q : syntax_ok q -> Forall scans (words q).
Proof.
  induction q as [[] c|f|f op c|f op ds|f op ds frac|l IHl r IHr|l IHl r IHr|q IH|q IH];
    simpl; intros Hok; destruct_and? Hok; repeat (apply Forall_cons_2 || apply Forall_app_2);
    first [by apply Forall_nil_2 | scans_fixed | apply scans_op | by apply scans_word
          | by apply scans_string | by apply scans_int | by apply scans_double | by auto].
Qed.

(** *** Parsing *)

Abbreviation toks q := ((words q).*2).

(** What a printed query is followed by, where it is an operand or a whole expression. *)
Definition ends_expr (ts : list token) : Prop :=
  match ts with AND :: _ | OR :: _ => False | _ => True end.

(** With enough fuel. *)
Definition reads_operand (ts : list token) (q : query_node) (r : list token) : Prop :=
  exists n, forall fuel, (n <= fuel)%nat -> parse_operand fuel ts = Some (q, r).
Definition reads_expr (ts : list token) (q : query_node) (r : list token) : Prop :=
  exists n, forall fuel, (n <= fuel)%nat -> parse_expr fuel ts = Some (q, r).
(** [ts] begins with operands that make [q]; the parser goes on with what is left. *)
Definition reads_prefix (ts : list token) (q : query_node) (r : list token) : Prop :=
  exists n, forall fuel, (n <= fuel)%nat -> exists fuel', (fuel - n <= fuel')%nat /\
    ('(q', r') ← parse_operand fuel ts; parse_rest fuel q' r') = parse_rest fuel' q r.

Lemma reads_prefix_operand ts q r : reads_operand ts q r -> reads_prefix ts q r.
Proof.
  intros [n Hn]. exists n. intros fuel Hf. exists fuel. split; [lia|]. by rewrite Hn.
Qed.

Lemma reads_prefix_expr ts q r : ends_expr r -> reads_prefix ts q r -> reads_expr ts q r.
Proof.
  intros Hr [n Hn]. exists (S (S n)). intros [|fuel] Hf; [lia|]. cbn [parse_expr].
  destruct (Hn fuel) as (fuel' & Hf' & ->); [lia|]. destruct fuel' as [|fuel']; [lia|].
  cbn [parse_rest]. destruct r as [|[] r]; done.
Qed.


(** An operand after another one and [and] or [or]. *)
Lemma reads_prefix_more ts l r op f rest :
  (op = AND /\ f = query_and) \/ (op = OR /\ f = query_or) ->
  reads_prefix (ts ++ op :: toks r ++ rest) l (op :: toks r ++ rest) ->
  reads_operand (toks r ++ rest) (meaning r) rest ->
  reads_prefix (ts ++ op :: toks r ++ rest) (f l (meaning r)) rest.
Proof.
  intros Hop [n Hn] [m Hm]. exists (S (n + m)). intros fuel Hf.
  destruct (Hn fuel) as (fuel' & Hf' & ->); [lia|]. destruct fuel' as [|fuel']; [lia|].
  exists fuel'. split; [lia|].
  destruct Hop as [[-> ->]|[-> ->]]; cbn [parse_rest]; by rewrite Hm by lia.
Qed.

Lemma toks_read q :
  syntax_ok q -> forall rest,
  (is_operand q -> reads_operand (toks q ++ rest) (meaning q) rest)
  /\ reads_prefix (toks q ++ rest) (meaning q) rest.
Proof.
  assert (forall q rest, reads_operand (toks q ++ rest) (meaning q) rest ->
    (is_operand q -> reads_operand (toks q ++ rest) (meaning q) rest)
    /\ reads_prefix (toks q ++ rest) (meaning q) rest) as Hop.
  { intros q0 rest Hr. split; [done|]. by apply reads_prefix_operand. }
  induction q as [eq c|f|f op c|f op ds|f op ds frac|l IHl r IHr|l IHl r IHr|q IH|q IH];
    intros Hok rest.
  - apply Hop. exists 1%nat. intros [|fuel] Hf; [lia|]. by destruct eq.
  - apply Hop. exists 1%nat. intros [|fuel] Hf; [lia|]. done.
  - apply Hop. exists 1%nat. intros [|fuel] Hf; [lia|]. by destruct op.
  - apply Hop. exists 1%nat. intros [|fuel] Hf; [lia|]. by destruct op.
  - apply Hop. exists 1%nat. intros [|fuel] Hf; [lia|]. by destruct op.
  - split; [done|]. destruct Hok as (Hl & Hr & Hrop). cbn [words meaning].
    rewrite fmap_app, fmap_cons, <- app_assoc. cbn [app snd].
    apply reads_prefix_more with (op := AND); [by left|by apply IHl|by apply IHr].
  - split; [done|]. destruct Hok as (Hl & Hr & Hrop). cbn [words meaning].
    rewrite fmap_app, fmap_cons, <- app_assoc. cbn [app snd].
    apply reads_prefix_more with (op := OR); [by right|by apply IHl|by apply IHr].
  - apply Hop. destruct Hok as [Hq Hqop]. destruct (proj1 (IH Hq rest) Hqop) as [n Hn].
    exists (S n). intros [|fuel] Hf; [lia|]. cbn [words fmap list_fmap snd app parse_operand].
    change (list_fmap _ _ snd (words q)) with (toks q). rewrite Hn by lia. done.
  - apply Hop. cbn [words]. rewrite fmap_cons, fmap_app, <- app_comm_cons, <- app_assoc.
    destruct (reads_prefix_expr (toks q ++ CHAR ")" :: rest) (meaning q) (CHAR ")" :: rest))
      as [n Hn]; [done|by apply IH|].
    exists (S n). intros [|fuel] Hf; [lia|].
    change (parse_operand (S fuel) _) with
      ('(q', r) ← parse_expr fuel (toks q ++ CHAR ")" :: rest);
       match r with t' :: r' => if is_char ")" t' then Some (q', r') else None | [] => None end).
    rewrite Hn by lia. done.
Qed.

(** [true] occurs in no expression. *)
Lemma toks_true q : TRUE ∉ toks q.
Proof.
  assert (Forall (fun w => w.2 <> TRUE) (words q)) as Hw.
  { induction q as [[] c|f|f op c|f op ds|f op ds frac|l IHl r IHr|l IHl r IHr|q IH|q IH]; simpl;
      repeat (apply Forall_cons_2 || apply Forall_app_2); by try apply Forall_nil_2. }
  intros Hin. apply list_elem_of_fmap in Hin as (w & Hw2 & Hin).
  rewrite list.Forall_forall in Hw. by apply (Hw w Hin).
Qed.

Lemma parse_no_true ts q :
  TRUE ∉ ts -> parse_expr (3 * length ts + 2) ts = Some (q, []) -> parse ts = Some q.
Proof.
  intros Ht Hp. unfold parse. rewrite Hp.
  destruct ts as [|t1 ts]; [done|]. apply not_elem_of_cons in Ht as [H1 Ht].
  destruct ts as [|t2 ts]; [by destruct t1|]. apply not_elem_of_cons in Ht as [H2 Ht].
  destruct t1; try done; destruct t2; try done; by destruct ts.
Qed.

Lemma parse_toks q : syntax_ok q -> parse (toks q) = Some (meaning q).
Proof.
  intros Hok. apply parse_no_true; [apply toks_true|].
  destruct (reads_prefix_expr (toks q ++ []) (meaning q) []) as [n Hn]; [done|by apply toks_read|].
  rewrite app_nil_r in Hn. rewrite <- (parse_expr_enough _ n). apply Hn. lia.
Qed.

(** ** Concrete queries *)

(** The quotes of an empty string are not taken off, so that it equals no host. *)
Example empty_string_matches_nothing :
  evaluate (fun _ _ => Ok false) (fun _ => Ok d_zero)
    (query_field (chars "host") (VString (quoted [])) EQUAL) Event.empty = Ok false.
Proof. reflexivity. Qed.

(** An integer attribute that does not fit makes the query throw. *)
Example attribute_out_of_range :
  evaluate (fun _ _ => Ok false) (fun _ => Ok d_zero)
    (query_field (chars "n") (VInt 1) EQUAL) (Event.set_attr "n" "99999999999" Event.empty)
  = Throw (user_exception "out_of_range").
Proof. vm_compute. reflexivity. Qed.

(** An event without a metric has metric zero for a bound with a fraction, and none for an
    integer. *)
Example missing_metric :
  let q v := evaluate (fun _ _ => Ok false) (fun _ => Ok d_zero)
    (query_field (chars "metric") v LESSER) Event.empty in
  q (VInt 1) = Ok false /\ q (VDouble (d_of_Z 1)) = Ok true.
Proof. by vm_compute. Qed.
