(* ===== verification/Lalr.v ===== *)
(** * The generated parser

    [src/query/parser.cpp], the automaton that bison has made from [parser.yy]: its tables,
    the loop of [Parser::parse] with its semantic actions and its error recovery.  The
    main theorem is that the automaton computes what the grammar of [Query] says, on every
    sequence of tokens.

    The tokens are those the scanner will return, and then the end of the input or the exception
    that it throws; the lookahead [yyla] is the first of them, and a flag says
    whether it has been read. *)

From S2P Require Import Prelude Ieee Infra Codec Query.

Local Open Scope Z_scope.

(** ** Tables *)

Definition yypact_ninf_ : Z := -13.
Definition yytable_ninf_ : Z := -1.
Definition yylast_ : Z := 38.
Definition yyfinal_ : Z := 25.
Definition yyterror_ : Z := 1.
Definition yyntokens_ : Z := 22.

Definition yypact_ : list Z :=
  [ -12; 18; -13; 27; -1; -4; -13; -13; 19; 5;
    -10; -13; -13; -13; -13; -13; 16; -13; 7; -1;
    -13; 17; 14; -1; -1; -13; -13; -13; -13; -13;
    -13; -13; -13; -13; -13 ].
Definition yydefact_ : list Z :=
  [ 0; 0; 3; 0; 0; 0; 21; 20; 22; 0;
    4; 6; 7; 8; 9; 5; 0; 11; 0; 0;
    19; 0; 0; 0; 0; 1; 12; 14; 15; 13;
    10; 2; 16; 18; 17 ].
Definition yypgoto_ : list Z := [ -13; -13; -13; -13; 0; -13 ].
Definition yydefgoto_ : list Z := [ -1; 6; 16; 7; 22; 9 ].
Definition yytable_ : list Z :=
  [ 8; 1; 2; 3; 20; 25; 26; 4; 5; 1;
    21; 3; 1; 30; 3; 4; 19; 0; 4; 19;
    27; 28; 29; 33; 34; 10; 11; 12; 13; 14;
    15; 23; 24; 17; 18; 32; 23; 24; 31 ].
Definition yycheck_ : list Z :=
  [ 0; 13; 14; 15; 4; 0; 16; 19; 20; 13;
    14; 15; 13; 6; 15; 19; 20; -1; 19; 20;
    4; 5; 6; 23; 24; 7; 8; 9; 10; 11;
    12; 17; 18; 6; 7; 21; 17; 18; 21 ].
Definition yyr1_ : list Z :=
  [ 0; 22; 23; 23; 24; 24; 24; 24; 24; 24;
    25; 25; 25; 25; 25; 25; 26; 26; 26; 26;
    26; 27; 27 ].
Definition yyr2_ : list Z :=
  [ 0; 2; 3; 1; 1; 1; 1; 1; 1; 1;
    3; 2; 3; 3; 3; 3; 3; 3; 3; 2;
    1; 1; 1 ].

(** Reading outside of a table is undefined. *)
Definition at_ (tbl : list Z) (i : Z) : option Z := if i <? 0 then None else tbl !! Z.to_nat i.

(** ** Tokens *)

(** [Parser::token]; the number of a character is that of a [signed char]. *)
Definition op_number (op : operator) : Z :=
  match op with
  | EQUAL => 262 | GREATER => 263 | GREATER_EQ => 264 | LESSER => 265 | LESSER_EQ => 266 | LIKE => 267
  end.
Definition token_number (t : token) : Z :=
  match t with
  | EOL => 258 | INTEGER _ => 259 | DOUBLE _ => 260 | STRING _ => 261 | OP op => op_number op
  | UNQUOTEDSTRING _ => 268 | TRUE => 269 | TAGGED => 270 | NIL => 271 | OR => 272 | AND => 273
  | NOT => 274
  | CHAR c => let n := Z.of_N (N_of_ascii c) in if 128 <=? n then n - 256 else n
  end.

Definition translate_table : list Z :=
  [0] ++ replicate 39 2 ++ [20; 21] ++ replicate 214 2
  ++ [1; 2; 3; 4; 5; 6; 7; 8; 9; 10; 11; 12; 13; 14; 15; 16; 17; 18; 19].
Definition yytranslate_ (t : Z) : Z :=
  if t <=? 0 then 0 else if t <=? 274 then default 0 (at_ translate_table t) else 2.

(** ** The automaton *)

(** [semantic_type], the union, with the member that was written. *)
Inductive semantic : Type :=
| VNone
| VInteger (n : Z)
| VDoubleVal (d : double)
| VStringVal (s : list ascii)
| VOperator (op : operator)
| VUnquoted (s : list ascii)
| VNode (q : query_node).

Definition token_value (t : token) : semantic :=
  match t with
  | INTEGER n => VInteger n
  | DOUBLE d => VDoubleVal d
  | STRING s => VStringVal s
  | OP op => VOperator op
  | UNQUOTEDSTRING s => VUnquoted s
  | _ => VNone
  end.

(** The stack, its top first; whether the lookahead has been read; the tokens to come; the
    exception the scanner ends with; and the expression of the query context. *)
Record config : Type := MkConfig {
  yystack_ : list (Z * semantic);
  loaded : bool;
  tokens : list token;
  failure : option exn;
  expression : option query_node
}.

Inductive outcome : Type :=
| Next (c : config)
| Accept (q : option query_node)
| Abort (q : option query_node)
| Raise (x : exn).

(** The lookahead symbol. *)
Definition lookahead (c : config) : result Z :=
  match tokens c, failure c with
  | t :: _, _ => Ok (yytranslate_ (token_number t))
  | [], None => Ok 0
  | [], Some x => Throw x
  end.
Definition lookahead_value (c : config) : semantic :=
  match tokens c with t :: _ => token_value t | [] => VNone end.

Definition yy_lr_goto_state_ (yystate yysym : Z) : option Z :=
  pgoto ← at_ yypgoto_ (yysym - yyntokens_);
  let yyr := pgoto + yystate in
  if (0 <=? yyr) && (yyr <=? yylast_) then
    check ← at_ yycheck_ yyr;
    if check =? yystate then at_ yytable_ yyr else at_ yydefgoto_ (yysym - yyntokens_)
  else at_ yydefgoto_ (yysym - yyntokens_).

(** The semantic actions: the value of the left-hand side, on the values of the stack, the top
    first; [None] where a member of the union is read that was not written. *)
Definition action (rule : Z) (vs : list semantic) : option semantic :=
  match rule, vs with
  | 2, _ => Some (VNode query_true)
  | 3, _ => Some (VNode query_true)
  | 4, VOperator op :: _ | 5, VOperator op :: _ | 6, VOperator op :: _ | 7, VOperator op :: _
  | 8, VOperator op :: _ | 9, VOperator op :: _ => Some (VOperator op)
  | 10, VStringVal s :: _ => Some (VNode (query_tagged s))
  | 11, VStringVal s :: _ => Some (VNode (query_tagged s))
  | 12, _ :: _ :: VUnquoted f :: _ => Some (VNode (query_nil f))
  | 13, VStringVal s :: VOperator op :: VUnquoted f :: _ => Some (VNode (query_field f (VString s) op))
  | 14, VInteger n :: VOperator op :: VUnquoted f :: _ => Some (VNode (query_field f (VInt n) op))
  | 15, VDoubleVal d :: VOperator op :: VUnquoted f :: _ => Some (VNode (query_field f (VDouble d) op))
  | 16, _ :: VNode q :: _ => Some (VNode q)
  | 17, VNode r :: _ :: VNode l :: _ => Some (VNode (query_and l r))
  | 18, VNode r :: _ :: VNode l :: _ => Some (VNode (query_or l r))
  | 19, VNode r :: _ => Some (VNode (query_not r))
  | 20, VNode q :: _ => Some (VNode q)
  | 21, v :: _ | 22, v :: _ => Some v
  | _, _ => None
  end.

(** [driver.query.set_expression], by the rules 21 and 22. *)
Definition set_expression (rule : Z) (vs : list semantic) (e : option query_node)
  : option (option query_node) :=
  if (rule =? 21) || (rule =? 22) then
    match vs with VNode q :: _ => Some (Some q) | _ => None end
  else Some e.

(** [yyreduce]. *)
Definition reduce (rule : Z) (c : config) : outcome :=
  match (len ← at_ yyr2_ rule; lhs ← at_ yyr1_ rule;
         '(state, _) ← yystack_ c !! Z.to_nat len;
         goto ← yy_lr_goto_state_ state lhs;
         v ← action rule (snd <$> yystack_ c);
         e ← set_expression rule (snd <$> yystack_ c) (expression c);
         Some (MkConfig ((goto, v) :: drop (Z.to_nat len) (yystack_ c)) (loaded c) (tokens c)
                 (failure c) e)) with
  | Some c => Next c
  | None => Raise undefined_behaviour
  end.

(** [yyerrlab1]: states are popped until one can shift the error token; the parser gives up
    at the last one. *)
Fixpoint recover (stack : list (Z * semantic)) : option (option (list (Z * semantic))) :=
  match stack with
  | [] => None
  | (state, v) :: stack' =>
      yyn ← at_ yypact_ state;
      let n := yyn + yyterror_ in
      shift ←
        (if yyn =? yypact_ninf_ then Some None
         else if (0 <=? n) && (n <=? yylast_) then
           check ← at_ yycheck_ n; act ← at_ yytable_ n;
           Some (if (check =? yyterror_) && (0 <? act) then Some act else None)
         else Some None);
      match shift, stack' with
      | Some act, _ => Some (Some ((act, VNone) :: stack))
      | None, [] => Some None
      | None, _ => recover stack'
      end
  end.
(** [yyerrlab].  That [yyerrstatus_] is 3 here takes an error token that was shifted. *)
Definition error (c : config) : outcome :=
  match recover (yystack_ c) with
  | None => Raise undefined_behaviour
  | Some None => Abort (expression c)
  | Some (Some stack) => Next (MkConfig stack (loaded c) (tokens c) (failure c) (expression c))
  end.

(** [yydefault]. *)
Definition default_action (state : Z) (c : config) : outcome :=
  match at_ yydefact_ state with
  | None => Raise undefined_behaviour
  | Some rule => if rule =? 0 then error c else reduce rule c
  end.

(** What follows after the lookahead symbol has been read. *)
Definition decide_action (state yyn sym : Z) (c : config) : outcome :=
  let n := yyn + sym in
  if (n <? 0) || (yylast_ <? n) then default_action state c
  else
    match at_ yycheck_ n, at_ yytable_ n with
    | Some check, Some act =>
        if negb (check =? sym) then default_action state c
        else if act <=? 0 then
          if act =? yytable_ninf_ then error c else reduce (- act) c
        else Next (MkConfig ((act, lookahead_value c) :: yystack_ c) false
                     (tail (tokens c)) (failure c) (expression c))
    | _, _ => Raise undefined_behaviour
    end.

(** From [yynewstate] to the next one. *)
Definition step (c : config) : outcome :=
  match yystack_ c with
  | [] => Raise undefined_behaviour
  | (state, _) :: _ =>
      if state =? yyfinal_ then Accept (expression c)
      else
        match at_ yypact_ state with
        | None => Raise undefined_behaviour
        | Some yyn =>
            if yyn =? yypact_ninf_ then default_action state c
            else
              match lookahead c with
              | Throw x => Raise x
              | Ok sym =>
                  decide_action state yyn sym
                    (MkConfig (yystack_ c) true (tokens c) (failure c) (expression c))
              end
        end
  end.

Fixpoint yyparse (fuel : nat) (c : config) : option outcome :=
  match fuel with
  | O => None
  | S fuel' => match step c with Next c => yyparse fuel' c | o => Some o end
  end.

Definition start_config (ts : list token) (x : option exn) : config :=
  MkConfig [(0, VNone)] false ts x None.

(** A turn reads a token or reduces; two turns per token and a few at the end are enough. *)
Definition parser_parse (ts : list token) (x : option exn) : option outcome :=
  yyparse (2 * length ts + 6) (start_config ts x).

(** ** The automaton and the grammar *)

(** The symbol of a token, and of a character. *)
Definition sym_of (t : token) : Z := yytranslate_ (token_number t).

Lemma sym_of_char c :
  sym_of (CHAR c) = if decide (c = "("%char) then 20 else if decide (c = ")"%char) then 21
                    else if is_end c then 0 else 2.
Proof. destruct c as [[] [] [] [] [] [] [] []]; reflexivity. Qed.

Lemma sym_of_range t : sym_of t ∈ seqZ 0 22.
Proof.
  apply elem_of_seqZ. destruct t as [| | | |[]| | | | | | | |c]; try (vm_compute; by split).
  rewrite sym_of_char. repeat case_match; lia.
Qed.

(** *** Errors *)

Definition valid_state (s : Z) : Prop := s ∈ seqZ 0 35.

(** No state shifts the error token. *)
Lemma recover_aborts stack :
  Forall (fun sv => valid_state sv.1) stack -> stack <> [] -> recover stack = Some None.
Proof.
  assert (Forall (fun s => exists yyn, at_ yypact_ s = Some yyn
    /\ (if yyn =? yypact_ninf_ then Some None
        else if (0 <=? yyn + yyterror_) && (yyn + yyterror_ <=? yylast_) then
          check ← at_ yycheck_ (yyn + yyterror_); act ← at_ yytable_ (yyn + yyterror_);
          Some (if (check =? yyterror_) && (0 <? act) then Some act else None)
        else Some None) = Some None) (seqZ 0 35)) as Hall.
  { vm_compute. repeat (apply Forall_cons_2; [by eexists|]). apply Forall_nil_2. }
  rewrite list.Forall_forall in Hall.
  intros Hst Hne. induction Hst as [|[s v] stack Hs Hst IH]; [done|].
  destruct (Hall s Hs) as (yyn & Hyyn & Hsh). cbn [recover]. rewrite Hyyn. cbn [mbind option_bind].
  rewrite Hsh. destruct stack; [done|]. by apply IH.
Qed.

(** The entries that the automaton looks up exist. *)
Lemma entry_range n : (n <? 0) || (yylast_ <? n) = false -> is_Some (at_ yycheck_ n) /\ is_Some (at_ yytable_ n).
Proof.
  intros [Hlo Hhi]%orb_false_iff. unfold at_. rewrite Hlo. apply Z.ltb_ge in Hlo, Hhi. unfold yylast_ in Hhi.
  split; apply lookup_lt_is_Some_2; [change (length yycheck_) with 39%nat|change (length yytable_) with 39%nat]; lia.
Qed.

(** *** Runs of the automaton *)

Definition reaches (n : nat) (c c' : config) : Prop := forall m, yyparse (n + m) c = yyparse m c'.

(** It ends without accepting: it gives up, or the scanner has failed. *)
Definition rejects (n : nat) (c : config) : Prop :=
  exists o, (forall m, yyparse (n + m) c = Some o)
  /\ ((exists q, o = Abort q) \/ exists x, failure c = Some x /\ o = Raise x).

Lemma reaches_0 c : reaches 0 c c.
Proof. done. Qed.
Lemma reaches_step c c' : step c = Next c' -> reaches 1 c c'.
Proof. intros Hs m. simpl. by rewrite Hs. Qed.
Lemma reaches_trans n1 n2 c1 c2 c3 : reaches n1 c1 c2 -> reaches n2 c2 c3 -> reaches (n1 + n2) c1 c3.
Proof. intros H1 H2 m. by rewrite <- Nat.add_assoc, H1, H2. Qed.
Lemma reaches_rejects n1 n2 c c' :
  reaches n1 c c' -> failure c' = failure c -> rejects n2 c' -> rejects (n1 + n2) c.
Proof.
  intros H1 Hf (o & Ho & Hcase). exists o. split; [intros m; by rewrite <- Nat.add_assoc, H1|].
  by rewrite Hf in Hcase.
Qed.
Lemma rejects_more n n' c : rejects n c -> (n <= n')%nat -> rejects n' c.
Proof.
  intros (o & Ho & Hcase) Hle. exists o. split; [|done]. intros m.
  replace (n' + m)%nat with (n + (n' - n + m))%nat by lia. apply Ho.
Qed.

(** State [s] asks for a token and has no entry for the symbol [sym], and its default action is
    an error. *)
Definition asks (s : Z) : bool :=
  negb (s =? yyfinal_) && negb (default yypact_ninf_ (at_ yypact_ s) =? yypact_ninf_).
Definition no_entry (s sym : Z) : bool :=
  let n := default yypact_ninf_ (at_ yypact_ s) + sym in
  asks s && ((n <? 0) || (yylast_ <? n) || negb (default sym (at_ yycheck_ n) =? sym)).
Definition errs (s sym : Z) : bool := no_entry s sym && (default 1 (at_ yydefact_ s) =? 0).
Definition next_sym (ts : list token) : Z := match ts with t :: _ => sym_of t | [] => 0 end.

Lemma no_entry_step s v stk b ts x e :
  no_entry s (next_sym ts) = true -> ts <> [] \/ x = None ->
  step (MkConfig ((s, v) :: stk) b ts x e) = default_action s (MkConfig ((s, v) :: stk) true ts x e).
Proof.
  unfold no_entry, asks.
  intros [[Hfin Hninf]%andb_true_iff Hidx]%andb_true_iff Hts. apply negb_true_iff in Hfin, Hninf.
  destruct (at_ yypact_ s) as [yyn|] eqn:Hyyn; [|done]. simpl in *.
  assert (lookahead (MkConfig ((s, v) :: stk) b ts x e) = Ok (next_sym ts)) as Hl.
  { destruct ts as [|t ts]; [by destruct Hts as [? | ->]|done]. }
  unfold step. cbn [yystack_ tokens failure expression]. rewrite Hfin, Hyyn, Hninf, Hl.
  unfold decide_action.
  destruct ((yyn + next_sym ts <? 0) || (yylast_ <? yyn + next_sym ts)) eqn:Hrange; [done|].
  simpl in Hidx. unfold at_ in *. apply orb_false_iff in Hrange as [Hlo Hhi]. rewrite Hlo in *.
  bool_to_prop. unfold yylast_ in Hhi.
  destruct (lookup_lt_is_Some_2 yycheck_ (Z.to_nat (yyn + next_sym ts))) as [ch Hch];
    [change (length yycheck_) with 39%nat; lia|].
  destruct (lookup_lt_is_Some_2 yytable_ (Z.to_nat (yyn + next_sym ts))) as [tb Htb];
    [change (length yytable_) with 39%nat; lia|].
  rewrite Hch, Htb in *. simpl in Hidx. by rewrite Hidx.
Qed.

Lemma raise_rejects s v stk b x e :
  asks s = true -> rejects 1 (MkConfig ((s, v) :: stk) b [] (Some x) e).
Proof.
  unfold asks. intros [Hfin Hninf]%andb_true_iff. apply negb_true_iff in Hfin, Hninf.
  destruct (at_ yypact_ s) as [yyn|] eqn:Hyyn; [|done]. simpl in Hninf.
  exists (Raise x). split; [|by right; eexists]. intros m. cbn [Nat.add yyparse].
  unfold step. cbn [yystack_]. by rewrite Hfin, Hyyn, Hninf.
Qed.

Lemma errs_rejects s v stk b ts x e :
  errs s (next_sym ts) = true -> Forall (fun sv => valid_state sv.1) ((s, v) :: stk) ->
  rejects 1 (MkConfig ((s, v) :: stk) b ts x e).
Proof.
  intros [Hno Hdef]%andb_true_iff Hst.
  destruct (decide (ts <> [] \/ x = None)) as [Hts|Hts]; cycle 1.
  { destruct ts as [|t ts]; [|by destruct Hts; left]. destruct x as [x|]; [|by destruct Hts; right].
    apply raise_rejects. by apply andb_true_iff in Hno as [? _]. }
  exists (Abort e). split; [|by left; eexists]. intros m. cbn [Nat.add yyparse].
  rewrite no_entry_step by done. unfold default_action.
  destruct (at_ yydefact_ s) as [rule|]; [|done]. simpl in Hdef. rewrite Hdef.
  unfold error. cbn [yystack_ expression]. by rewrite recover_aborts.
Qed.

(** *** Where expressions begin *)

(** The states in which an expression may begin, and where they go with it. *)
Definition expr_states : list (Z * Z) := [(0, 8); (4, 20); (5, 22); (19, 22); (23, 33); (24, 34)].

(** In the states 0 and 5, [true] is possible too. *)
Definition begins_true (s : Z) (ts : list token) : bool :=
  match ts with
  | TRUE :: _ => (s =? 0) || (s =? 5)
  | CHAR "(" :: TRUE :: _ => s =? 0
  | _ => false
  end.

(** A turn on a stack with known states, and as many as it takes. *)
Ltac run_step :=
  match goal with
  | |- reaches _ ?c _ =>
      match eval vm_compute in (step c) with
      | Next ?c' => eapply (reaches_trans 1 _ c c'); [apply reaches_step; vm_compute; reflexivity|]
      end
  end.
Ltac run_steps := repeat first [apply reaches_0 | run_step].

(** All pairs of [expr_states]. *)
Ltac case_states Hs :=
  repeat (apply elem_of_cons in Hs as [[= -> ->]|Hs]); [..|by apply elem_of_nil in Hs].

(** An action is read in two turns per token. *)
Lemma action_reaches s g v stk b ts x e q r :
  (s, g) ∈ expr_states -> parse_action ts = Some (q, r) ->
  exists n b', (n <= 2 * (length ts - length r))%nat
  /\ reaches n (MkConfig ((s, v) :: stk) b ts x e) (MkConfig ((g, VNode q) :: (s, v) :: stk) b' r x e).
Proof.
  intros Hs Hp. unfold parse_action in Hp.
  repeat (case_match; try discriminate); simplify_eq; case_states Hs;
    (eexists _, _; split; [|run_steps]; simpl; lia).
Qed.

(** *** What is not an action *)

Lemma not_elem_syms s (l : list Z) sym :
  sym ∈ seqZ 0 22 -> forallb (fun sym => errs s sym || bool_decide (sym ∈ l)) (seqZ 0 22) = true ->
  sym ∉ l -> errs s sym = true.
Proof.
  intros Hsym Hall Hl. rewrite forallb_forall in Hall.
  specialize (Hall sym (proj1 (list_elem_of_In _ _) Hsym)). apply orb_true_iff in Hall as [?|Hin]; [done|].
  by apply bool_decide_eq_true in Hin.
Qed.

Lemma next_sym_range ts : next_sym ts ∈ seqZ 0 22.
Proof. destruct ts; [by_decide|apply sym_of_range]. Qed.

Ltac by_syms l := apply (not_elem_syms _ l); [apply next_sym_range|reflexivity|].

(** The symbols of the tokens. *)
Lemma sym_of_inv t :
  match sym_of t with
  | 4 => exists n, t = INTEGER n | 5 => exists d, t = DOUBLE d | 6 => exists s, t = STRING s
  | 7 => t = OP EQUAL | 8 => t = OP GREATER | 9 => t = OP GREATER_EQ | 10 => t = OP LESSER
  | 11 => t = OP LESSER_EQ | 12 => t = OP LIKE | 13 => exists s, t = UNQUOTEDSTRING s
  | 14 => t = TRUE | 15 => t = TAGGED | 16 => t = NIL | 17 => t = OR | 18 => t = AND | 19 => t = NOT
  | 20 => t = CHAR "(" | 21 => t = CHAR ")" | 0 => exists c, t = CHAR c /\ is_end c = true
  | _ => True
  end.
Proof.
  destruct t as [| | | |[]| | | | | | | |c]; try (vm_compute; by eauto). rewrite sym_of_char.
  case_decide; [by subst|]. case_decide; [by subst|]. destruct (is_end c) eqn:?; [by exists c|done].
Qed.

Abbreviation valid stack := (Forall (fun sv : Z * semantic => valid_state sv.1) stack).

Lemma valid_cons s v stk : valid_state s -> valid stk -> valid ((s, v) :: stk).
Proof. by constructor. Qed.

Ltac valid_stack := repeat (apply valid_cons; [by_decide|]); done.

(** After a field and an operator. *)
Lemma value_rejects f op stk b ts x e :
  valid stk -> parse_action (UNQUOTEDSTRING f :: OP op :: ts) = None ->
  rejects 1 (MkConfig ((16, VOperator op) :: stk) b ts x e).
Proof.
  intros Hst Hp. apply errs_rejects; [|by valid_stack]. by_syms [4; 5; 6].
  destruct ts as [|t ts]; [by_decide|]. cbn [next_sym]. pose proof (sym_of_inv t) as Hinv.
  intros Hin. repeat (apply elem_of_cons in Hin as [Heq|Hin]; [rewrite Heq in Hinv;
    destruct Hinv as [? ->]; by destruct op|]). by apply elem_of_nil in Hin.
Qed.

Lemma operator_rejects f op v stk b ts x e :
  valid ((1, v) :: stk) -> parse_action (UNQUOTEDSTRING f :: OP op :: ts) = None ->
  rejects 3 (MkConfig ((1, v) :: stk) b (OP op :: ts) x e).
Proof.
  intros Hst Hp. pose proof (fun b => value_rejects f op ((1, v) :: stk) b ts x e Hst Hp) as Hv.
  destruct op; [|(eapply (reaches_rejects 2 1); [| |apply (Hv false)]; [run_steps|done])..].
  destruct (decide (ts <> [] \/ x = None)) as [Hts|Hts]; cycle 1.
  { destruct ts as [|t ts]; [|by destruct Hts; left]. destruct x as [x|]; [|by destruct Hts; right].
    eapply (rejects_more 2); [|lia]. eapply (reaches_rejects 1 1);
      [apply reaches_step; reflexivity|done|]. by apply raise_rejects. }
  eapply (reaches_rejects 2 1); [| |apply (Hv true)]; [|done].
  eapply (reaches_trans 1 1); [apply reaches_step; reflexivity|]. apply reaches_step.
  cbn [tail tokens lookahead_value token_value yystack_ failure expression].
  rewrite no_entry_step; [reflexivity| |done].
  destruct (decide (next_sym ts = 16)) as [H16|H16].
  { destruct ts as [|t ts]; [done|]. cbn [next_sym] in H16. pose proof (sym_of_inv t) as Hinv.
    rewrite H16 in Hinv. by subst t. }
  pose proof (next_sym_range ts) as Hr. apply elem_of_seqZ in Hr.
  assert (forallb (fun sym => no_entry 10 sym || (sym =? 16)) (seqZ 0 22) = true) as Hall by reflexivity.
  rewrite forallb_forall in Hall. specialize (Hall (next_sym ts)).
  rewrite (proj2 (Z.eqb_neq _ _) H16), orb_false_r in Hall. apply Hall.
  apply list_elem_of_In. by apply elem_of_seqZ.
Qed.

(** The token that has a symbol. *)
Ltac token_of H :=
  match type of H with
  | next_sym ?ts = ?n =>
      let t := fresh "t" in let Hinv := fresh in
      destruct ts as [|t ts]; [discriminate H|]; cbn [next_sym] in H;
      pose proof (sym_of_inv t) as Hinv; rewrite H in Hinv;
      match type of Hinv with ex _ => destruct Hinv as [? Hinv] | _ => idtac end; subst t
  end.

(** A symbol that is not in a list, by cases. *)
Ltac not_in_syms :=
  let Hin := fresh in intros Hin;
  repeat (apply elem_of_cons in Hin as [Hin|Hin]; [token_of Hin; by eauto|]);
  by apply elem_of_nil in Hin.

Lemma field_rejects f v stk b ts x e :
  valid ((1, v) :: stk) -> parse_action (UNQUOTEDSTRING f :: ts) = None ->
  rejects 3 (MkConfig ((1, v) :: stk) b ts x e).
Proof.
  intros Hst Hp.
  assert ((exists op ts', ts = OP op :: ts') \/ ~ exists op ts', ts = OP op :: ts')
    as [(op & ts' & ->)|Hop].
  { destruct ts as [|[] ts]; try (right; intros (? & ? & ?); discriminate). left. eauto. }
  { by eapply operator_rejects. }
  eapply (rejects_more 1); [|lia]. apply errs_rejects; [|done].
  by_syms [7; 8; 9; 10; 11; 12]. not_in_syms.
Qed.

Lemma tagged_rejects v stk b ts x e :
  valid ((3, v) :: stk) -> parse_action (TAGGED :: ts) = None ->
  rejects 2 (MkConfig ((3, v) :: stk) b ts x e).
Proof.
  intros Hst Hp. destruct (decide (next_sym ts = 7)) as [H7|H7].
  - token_of H7. eapply (reaches_rejects 1 1 _
      (MkConfig ((18, VOperator EQUAL) :: (3, v) :: stk) false ts x e));
      [apply reaches_step; reflexivity|done|].
    apply errs_rejects; [|by apply valid_cons; [by_decide|]]. by_syms [6]. not_in_syms.
  - eapply (rejects_more 1); [|lia]. apply errs_rejects; [|done]. by_syms [6; 7]. not_in_syms.
Qed.

Lemma action_rejects s g v stk b ts x e :
  (s, g) ∈ expr_states -> valid ((s, v) :: stk) -> parse_action ts = None -> begins_true s ts = false ->
  (forall t r, ts = t :: r -> t <> NOT /\ is_char "(" t = false) ->
  rejects 4 (MkConfig ((s, v) :: stk) b ts x e).
Proof.
  intros Hs Hst Hp Ht Hhead.
  destruct (decide (next_sym ts = 13)) as [H13|H13].
  { token_of H13. eapply (reaches_rejects 1 3 _
      (MkConfig ((1, VUnquoted x0) :: (s, v) :: stk) false ts x e)); [|done|].
    - apply reaches_step. case_states Hs; reflexivity.
    - by apply (field_rejects x0); [apply valid_cons; [by_decide|]|]. }
  destruct (decide (next_sym ts = 15)) as [H15|H15].
  { token_of H15. eapply (rejects_more 3); [|lia]. eapply (reaches_rejects 1 2 _
      (MkConfig ((3, VNone) :: (s, v) :: stk) false ts x e)); [|done|].
    - apply reaches_step. case_states Hs; reflexivity.
    - by apply tagged_rejects; [apply valid_cons; [by_decide|]|]. }
  eapply (rejects_more 1); [|lia]. apply errs_rejects; [|done].
  assert (next_sym ts <> 19) as H19.
  { intros H19. token_of H19. by destruct (Hhead _ _ eq_refl). }
  assert (next_sym ts <> 20) as H20.
  { intros H20. token_of H20. by destruct (Hhead _ _ eq_refl). }
  assert (s = 0 \/ s = 5 -> next_sym ts <> 14) as H14.
  { intros Hs5 H14. token_of H14. simpl in Ht. by destruct Hs5 as [-> | ->]. }
  case_states Hs;
    (by_syms [13; 15; 19; 20] || (specialize (H14 ltac:(auto)); by_syms [13; 14; 15; 19; 20]));
    rewrite !not_elem_of_cons; split_and!; (done || apply not_elem_of_nil).
Qed.

(** *** The simulation *)

(** Where a whole expression may begin. *)
Definition full_states : list (Z * Z) := [(0, 8); (5, 22); (19, 22)].

Lemma full_expr s g : (s, g) ∈ full_states -> (s, g) ∈ expr_states.
Proof. intros Hs. case_states Hs; by_decide. Qed.

Lemma expr_states_valid s g : (s, g) ∈ expr_states -> valid_state g.
Proof. intros Hs. case_states Hs; by_decide. Qed.

Lemma begins_true_other s ts : s <> 0 -> s <> 5 -> begins_true s ts = false.
Proof.
  intros H0 H5. unfold begins_true. rewrite (proj2 (Z.eqb_neq _ _) H0), (proj2 (Z.eqb_neq _ _) H5).
  repeat case_match; done.
Qed.

(** From the stack [stk], the automaton does what the parser of the grammar says: with [top] it
    comes to the expression and the tokens that are left, or it gives up. *)
Definition sim (res : option (query_node * list token)) (ts : list token) (g : Z)
    (top stk : list (Z * semantic)) (b : bool) (x : option exn) (e : option query_node) : Prop :=
  match res with
  | Some (q, r) => exists n b', (n <= 2 * (length ts - length r))%nat
      /\ reaches n (MkConfig (top ++ stk) b ts x e) (MkConfig ((g, VNode q) :: stk) b' r x e)
  | None => rejects (2 * length ts + 4) (MkConfig (top ++ stk) b ts x e)
  end.

Definition sim_operand (fuel : nat) : Prop :=
  forall s g v stk b ts x e, (s, g) ∈ expr_states -> valid ((s, v) :: stk) -> begins_true s ts = false ->
  (3 * length ts + 1 <= fuel)%nat -> sim (parse_operand fuel ts) ts g [] ((s, v) :: stk) b x e.
Definition sim_expr (fuel : nat) : Prop :=
  forall s g v stk b ts x e, (s, g) ∈ full_states -> valid ((s, v) :: stk) -> begins_true s ts = false ->
  (3 * length ts + 2 <= fuel)%nat -> sim (parse_expr fuel ts) ts g [] ((s, v) :: stk) b x e.
Definition sim_rest (fuel : nat) : Prop :=
  forall s g v stk b left ts x e, (s, g) ∈ full_states -> valid ((s, v) :: stk) ->
  (3 * length ts + 1 <= fuel)%nat ->
  sim (parse_rest fuel left ts) ts g [(g, VNode left)] ((s, v) :: stk) b x e.

Lemma parse_ends fuel :
  (forall ts q r, parse_expr fuel ts = Some (q, r) -> ends_expr r)
  /\ (forall l ts q r, parse_rest fuel l ts = Some (q, r) -> ends_expr r).
Proof.
  induction fuel as [|fuel [IHe IHr]]; [done|]. split.
  - intros ts q r. cbn [parse_expr]. destruct (parse_operand fuel ts) as [[q' r']|]; [|done].
    apply IHr.
  - intros l [|t ts] q r; cbn [parse_rest]; [by intros [= <- <-]|].
    destruct t; try (by intros [= <- <-]);
      (destruct (parse_operand fuel ts) as [[q' r']|]; [|done]); apply IHr.
Qed.

Lemma sim_not fuel s g v stk b ts x e :
  sim_operand fuel -> (s, g) ∈ expr_states -> valid ((s, v) :: stk) -> (3 * length ts + 1 <= fuel)%nat ->
  sim ('(q, r) ← parse_operand fuel ts; Some (query_not q, r)) (NOT :: ts) g [] ((s, v) :: stk) b x e.
Proof.
  intros IH Hs Hst Hf.
  assert (reaches 1 (MkConfig ((s, v) :: stk) b (NOT :: ts) x e)
    (MkConfig ((4, VNone) :: (s, v) :: stk) false ts x e)) as Hshift.
  { apply reaches_step. case_states Hs; reflexivity. }
  specialize (IH 4 20 VNone ((s, v) :: stk) false ts x e ltac:(by_decide)
    ltac:(apply valid_cons; [by_decide|done]) ltac:(by apply begins_true_other) Hf).
  destruct (parse_operand fuel ts) as [[q r]|] eqn:Ho; cbn [mbind option_bind sim] in *.
  - destruct IH as (n & b' & Hn & Hr). exists (1 + n + 1)%nat, b'. split.
    { apply (proj1 (parse_shorter fuel)) in Ho. simpl. lia. }
    eapply reaches_trans; [by eapply reaches_trans|]. apply reaches_step.
    case_states Hs; reflexivity.
  - eapply (rejects_more (1 + (2 * length ts + 4))); [|simpl; lia]. by eapply reaches_rejects.
Qed.

Lemma sim_paren fuel s g v stk b ts x e :
  sim_expr fuel -> (s, g) ∈ expr_states -> valid ((s, v) :: stk) ->
  begins_true s (CHAR "(" :: ts) = false -> (3 * length ts + 2 <= fuel)%nat ->
  sim ('(q, r) ← parse_expr fuel ts;
       match r with t' :: r' => if is_char ")" t' then Some (q, r') else None | [] => None end)
    (CHAR "(" :: ts) g [] ((s, v) :: stk) b x e.
Proof.
  intros IH Hs Hst Ht Hf. set (s' := if s =? 0 then 5 else 19).
  assert (reaches 1 (MkConfig ((s, v) :: stk) b (CHAR "(" :: ts) x e)
    (MkConfig ((s', VNone) :: (s, v) :: stk) false ts x e)) as Hshift.
  { apply reaches_step. subst s'. case_states Hs; reflexivity. }
  assert ((s', 22) ∈ full_states) as Hs' by (subst s'; case_match; by_decide).
  assert (valid ((s', VNone) :: (s, v) :: stk)) as Hst'.
  { apply valid_cons; [subst s'; case_match; by_decide|done]. }
  assert (begins_true s' ts = false) as Ht'.
  { subst s'. destruct (s =? 0) eqn:H0; [|by apply begins_true_other]. simpl in Ht. rewrite H0 in Ht.
    unfold begins_true. destruct ts as [|[] ts]; try done. repeat case_match; done. }
  specialize (IH s' 22 VNone ((s, v) :: stk) false ts x e Hs' Hst' Ht' Hf).
  destruct (parse_expr fuel ts) as [[q r]|] eqn:Ho; cbn [mbind option_bind sim] in *; cycle 1.
  { eapply (rejects_more (1 + (2 * length ts + 4))); [|simpl; lia]. by eapply reaches_rejects. }
  destruct IH as (n & b' & Hn & Hr).
  pose proof (reaches_trans _ _ _ _ _ Hshift Hr) as Hreach.
  pose proof (proj1 (proj2 (parse_shorter fuel)) _ _ _ Ho) as Hlen.
  destruct (decide (next_sym r = 21)) as [H21|H21].
  - token_of H21. simpl. exists (1 + n + 2)%nat, false. split; [simpl in *; lia|].
    eapply reaches_trans; [exact Hreach|].
    eapply (reaches_trans 1 1 _ (MkConfig ((32, VNone) :: (22, VNode q) :: (s', VNone) :: (s, v) :: stk)
      false r x e)); apply reaches_step; subst s'; case_states Hs; reflexivity.
  - assert (match r with t' :: r' => if is_char ")" t' then Some (q, r') else None | [] => None end = None) as ->.
    { destruct r as [|t' r']; [done|]. destruct (is_char ")" t') eqn:Hc; [|done].
      destruct t'; try done. apply bool_decide_eq_true in Hc as <-. done. }
    eapply (rejects_more (1 + n + 1)); [|simpl in *; lia].
    eapply reaches_rejects; [exact Hreach|done|].
    apply errs_rejects; [|by apply valid_cons; [by_decide|]]. by_syms [17; 18; 21].
    apply (proj1 (parse_ends fuel)) in Ho. not_in_syms.
Qed.

Lemma sim_binop fuel s g v stk b left ts x e op s2 g2 (f : query_node -> query_node -> query_node) :
  (op, s2, g2, f) = (AND, 24, 34, query_and) \/ (op, s2, g2, f) = (OR, 23, 33, query_or) ->
  sim_operand fuel -> sim_rest fuel -> (s, g) ∈ full_states -> valid ((s, v) :: stk) ->
  (3 * length ts + 1 <= fuel)%nat ->
  sim ('(q, r) ← parse_operand fuel ts; parse_rest fuel (f left q) r) (op :: ts) g [(g, VNode left)]
    ((s, v) :: stk) b x e.
Proof.
  intros Hop IHo IHr Hs Hst Hf.
  assert (reaches 1 (MkConfig ((g, VNode left) :: (s, v) :: stk) b (op :: ts) x e)
    (MkConfig ((s2, VNone) :: (g, VNode left) :: (s, v) :: stk) false ts x e)) as Hshift.
  { apply reaches_step. destruct Hop as [[= -> -> _ _]|[= -> -> _ _]]; case_states Hs; reflexivity. }
  assert ((s2, g2) ∈ expr_states /\ s2 <> 0 /\ s2 <> 5 /\ valid_state s2) as (Hs2 & H0 & H5 & Hv2).
  { destruct Hop as [[= _ -> -> _]|[= _ -> -> _]]; split_and!; (done || by_decide). }
  assert (valid ((g, VNode left) :: (s, v) :: stk)) as Hst1.
  { apply valid_cons; [by eapply expr_states_valid, full_expr|done]. }
  specialize (IHo s2 g2 VNone ((g, VNode left) :: (s, v) :: stk) false ts x e Hs2
    ltac:(by apply valid_cons) (begins_true_other _ _ H0 H5) Hf).
  destruct (parse_operand fuel ts) as [[q r]|] eqn:Ho; cbn [mbind option_bind] in *; cycle 1.
  { cbn [sim app] in *. eapply (rejects_more (1 + (2 * length ts + 4))); [|simpl; lia].
    by eapply reaches_rejects. }
  destruct IHo as (n & b' & Hn & Hr). cbn [app] in Hr.
  apply (proj1 (parse_shorter fuel)) in Ho.
  assert (reaches (1 + n + 1) (MkConfig ((g, VNode left) :: (s, v) :: stk) b (op :: ts) x e)
    (MkConfig ((g, VNode (f left q)) :: (s, v) :: stk) b' r x e)) as Hred.
  { eapply reaches_trans; [eapply reaches_trans; [exact Hshift|exact Hr]|]. apply reaches_step.
    destruct Hop as [[= _ -> -> ->]|[= _ -> -> ->]]; case_states Hs; reflexivity. }
  specialize (IHr s g v stk b' (f left q) r x e Hs Hst ltac:(lia)).
  destruct (parse_rest fuel (f left q) r) as [[q2 r2]|] eqn:Hrest; cbn [sim app] in *.
  - destruct IHr as (n2 & b2 & Hn2 & Hr2). exists (1 + n + 1 + n2)%nat, b2.
    apply (proj2 (proj2 (parse_shorter fuel))) in Hrest. split; [simpl; lia|].
    eapply reaches_trans; [exact Hred|exact Hr2].
  - eapply (rejects_more (1 + n + 1 + (2 * length r + 4))); [|simpl; lia].
    eapply reaches_rejects; [exact Hred|done|exact IHr].
Qed.

Lemma sim_all fuel : sim_operand fuel /\ sim_expr fuel /\ sim_rest fuel.
Proof.
  induction fuel as [|fuel (IHo & IHe & IHr)].
  { split_and!; repeat intro; lia. }
  split_and!.
  - intros s g v stk b ts x e Hs Hst Ht Hf.
    assert (forall t ts', ts = t :: ts' -> t <> NOT -> is_char "(" t = false ->
      sim (parse_action ts) ts g [] ((s, v) :: stk) b x e) as Hact.
    { intros t ts' -> Hnot Hpar. destruct (parse_action (t :: ts')) as [[q r]|] eqn:Hp.
      - exact (action_reaches s g v stk b _ x e q r Hs Hp).
      - eapply (rejects_more 4); [|lia]. apply (action_rejects s g); try done.
        by intros ? ? [= <- <-]. }
    destruct ts as [|t ts]; cbn [parse_operand].
    + cbn [sim app]. eapply (rejects_more 4); [|simpl; lia]. by apply (action_rejects s g).
    + simpl in Hf. destruct t; try exact (Hact _ ts eq_refl ltac:(done) eq_refl).
      * by apply sim_not; [| | |lia].
      * destruct (is_char "(" (CHAR c)) eqn:Hc; [|exact (Hact _ ts eq_refl ltac:(done) Hc)].
        apply bool_decide_eq_true in Hc as <-. by apply sim_paren; [| | | |lia].
  - intros s g v stk b ts x e Hs Hst Ht Hf. cbn [parse_expr].
    specialize (IHo s g v stk b ts x e (full_expr _ _ Hs) Hst Ht ltac:(lia)).
    destruct (parse_operand fuel ts) as [[q r]|] eqn:Ho; cbn [mbind option_bind]; [|exact IHo].
    destruct IHo as (n & b' & Hn & Hr). apply (proj1 (parse_shorter fuel)) in Ho.
    specialize (IHr s g v stk b' q r x e Hs Hst ltac:(lia)).
    destruct (parse_rest fuel q r) as [[q2 r2]|] eqn:Hrest; cbn [sim app] in *.
    + destruct IHr as (n2 & b2 & Hn2 & Hr2). exists (n + n2)%nat, b2.
      apply (proj2 (proj2 (parse_shorter fuel))) in Hrest. split; [lia|]. by eapply reaches_trans.
    + eapply (rejects_more (n + (2 * length r + 4))); [|lia]. by eapply reaches_rejects.
  - intros s g v stk b left ts x e Hs Hst Hf.
    assert (forall t ts', ts = t :: ts' -> sim (Some (left, t :: ts')) ts g [(g, VNode left)]
      ((s, v) :: stk) b x e) as Hstop.
    { intros t ts' ->. exists 0%nat, b. split; [lia|apply reaches_0]. }
    destruct ts as [|t ts]; cbn [parse_rest].
    { exists 0%nat, b. split; [lia|apply reaches_0]. }
    simpl in Hf. destruct t; try (by apply Hstop).
    + eapply (sim_binop fuel s g v stk b left ts x e OR 23 33 query_or); try done; [by right|lia].
    + eapply (sim_binop fuel s g v stk b left ts x e AND 24 34 query_and); try done; [by left|lia].
Qed.

(** *** Whole inputs *)

(** The automaton ends like the parser of the grammar, or the scanner fails. *)
Definition agrees (res : option query_node) (n : nat) (c : config) : Prop :=
  exists o, (forall m, yyparse (n + m) c = Some o)
  /\ (match res with Some q => o = Accept (Some q) | None => exists e, o = Abort e end
      \/ exists x, failure c = Some x /\ o = Raise x).

Lemma rejects_agrees n c : rejects n c -> agrees None n c.
Proof. done. Qed.

Lemma reaches_agrees res n1 n2 c c' :
  reaches n1 c c' -> failure c' = failure c -> agrees res n2 c' -> agrees res (n1 + n2) c.
Proof.
  intros H1 Hf (o & Ho & Hcase). exists o. split; [intros m; by rewrite <- Nat.add_assoc, H1|].
  by rewrite Hf in Hcase.
Qed.

Lemma agrees_more res n n' c : agrees res n c -> (n <= n')%nat -> agrees res n' c.
Proof.
  intros (o & Ho & Hcase) Hle. exists o. split; [|done]. intros m.
  replace (n' + m)%nat with (n + (n' - n + m))%nat by lia. apply Ho.
Qed.

(** [start] has been read. *)
Lemma start_agrees v b ts x q :
  agrees (if at_end ts then Some q else None) 2 (MkConfig [(9, v); (0, VNone)] b ts x (Some q)).
Proof.
  assert (valid [(9, v); (0, VNone)]) as Hst by (repeat (apply valid_cons; [by_decide|]); constructor).
  destruct (at_end ts) eqn:He.
  - destruct ts as [|t ts].
    { destruct x as [x|]; [exists (Raise x)|exists (Accept (Some q))]; (split; [done|]); [right|left]; eauto. }
    destruct t; try done. simpl in He.
    exists (Accept (Some q)). split; [|by left]. intros m. cbn [Nat.add yyparse].
    assert (lookahead (MkConfig [(9, v); (0, VNone)] b (CHAR c :: ts) x (Some q)) = Ok 0) as Hl.
    { unfold lookahead. cbn [tokens]. f_equal. change (sym_of (CHAR c) = 0). rewrite sym_of_char.
      case_decide; [by subst|]. case_decide; [by subst|]. by rewrite He. }
    unfold step at 1. rewrite Hl. reflexivity.
  - apply rejects_agrees. eapply (rejects_more 1); [|lia]. apply errs_rejects; [|done]. by_syms [0].
    intros H0%list_elem_of_singleton. destruct ts as [|t ts]; [done|]. cbn [next_sym] in H0.
    pose proof (sym_of_inv t) as Hinv. rewrite H0 in Hinv. destruct Hinv as (c & -> & Hc).
    simpl in He. congruence.
Qed.

Lemma expr_agrees b ts x q :
  ends_expr ts ->
  agrees (if at_end ts then Some q else None) 3 (MkConfig [(8, VNode q); (0, VNone)] b ts x None).
Proof.
  intros He. destruct (decide (ts <> [] \/ x = None)) as [Hts|Hts]; cycle 1.
  { destruct ts as [|t ts]; [|by destruct Hts; left]. destruct x as [x|]; [|by destruct Hts; right].
    exists (Raise x). split; [done|]. right. by exists x. }
  eapply (reaches_agrees _ 1 2 _ (MkConfig [(9, VNode q); (0, VNone)] true ts x (Some q))); [|done|].
  - apply reaches_step. rewrite no_entry_step; [reflexivity| |done].
    assert (forallb (fun sym => no_entry 8 sym || (sym =? 17) || (sym =? 18)) (seqZ 0 22) = true)
      as Hall by reflexivity.
    rewrite forallb_forall in Hall.
    specialize (Hall (next_sym ts) (proj1 (list_elem_of_In _ _) (next_sym_range ts))).
    apply orb_true_iff in Hall as [[?|H17]%orb_true_iff|H18]; [done|..]; exfalso; bool_to_prop;
      [token_of H17|token_of H18]; done.
  - apply start_agrees.
Qed.

Lemma parse_paren_true fuel ts : parse_expr fuel (CHAR "(" :: TRUE :: ts) = None.
Proof. destruct fuel as [|[|[|[|fuel]]]]; reflexivity. Qed.

Lemma paren_true_agrees ts x :
  agrees (parse (CHAR "(" :: TRUE :: ts)) 7 (start_config (CHAR "(" :: TRUE :: ts) x).
Proof.
  assert (reaches 2 (start_config (CHAR "(" :: TRUE :: ts) x)
    (MkConfig [(21, VNone); (5, VNone); (0, VNone)] false ts x None)) as H2.
  { eapply (reaches_trans 1 1); apply reaches_step; reflexivity. }
  unfold parse. rewrite parse_paren_true. destruct (decide (next_sym ts = 21)) as [H21|H21].
  - token_of H21. cbn [is_char andb]. rewrite !bool_decide_true by done. cbn [andb].
    eapply (reaches_agrees _ 5 2); [| |apply (start_agrees (VNode query_true) false)]; [|done].
    eapply (reaches_trans 2 3); [exact H2|]. run_steps.
  - assert (match ts with
            | [] => None
            | t' :: r => if is_char "(" (CHAR "(") && is_char ")" t' && at_end r then Some query_true else None
            end = None) as ->.
    { destruct ts as [|t' r]; [done|]. destruct (is_char ")" t') eqn:Hc; [|done]. exfalso.
      destruct t'; try done. apply bool_decide_eq_true in Hc as <-. done. }
    apply rejects_agrees. eapply (rejects_more 3); [|lia]. eapply (reaches_rejects 2 1); [exact H2|done|].
    apply errs_rejects; [|repeat (apply valid_cons; [by_decide|]); constructor]. by_syms [21].
    by intros ?%list_elem_of_singleton.
Qed.

Lemma grammar_agrees ts x :
  begins_true 0 ts = false ->
  agrees (match parse_expr (3 * length ts + 2) ts with
          | Some (q, r) => if at_end r then Some q else None
          | None => None
          end) (2 * length ts + 6) (start_config ts x).
Proof.
  intros Ht. set (fuel := (3 * length ts + 2)%nat).
  destruct (sim_all fuel) as (_ & He & _).
  specialize (He 0 8 VNone [] false ts x None ltac:(by_decide)
    ltac:(apply valid_cons; [by_decide|constructor]) Ht ltac:(subst fuel; lia)).
  destruct (parse_expr fuel ts) as [[q r]|] eqn:Hp; cbn [sim app] in He.
  - destruct He as (n & b & Hn & Hr). eapply (agrees_more _ (n + 3)); [|lia].
    eapply reaches_agrees; [exact Hr|done|]. apply expr_agrees. by eapply (proj1 (parse_ends fuel)).
  - apply rejects_agrees. eapply rejects_more; [exact He|lia].
Qed.

Lemma parse_agrees ts x : agrees (parse ts) (2 * length ts + 6) (start_config ts x).
Proof.
  destruct (begins_true 0 ts) eqn:Ht.
  - assert ((exists r, ts = TRUE :: r) \/ exists r, ts = CHAR "(" :: TRUE :: r) as [[r ->]|[r ->]].
    { unfold begins_true in Ht. repeat case_match; simplify_eq; eauto. }
    + eapply (agrees_more _ (3 + 2)); [|simpl; lia].
      eapply (reaches_agrees _ 3 2); [| |apply (start_agrees (VNode query_true) false)]; [|done].
      run_steps.
    + eapply agrees_more; [apply paren_true_agrees|simpl; lia].
  - pose proof (grammar_agrees ts x Ht) as Hg. unfold parse.
    destruct ts as [|t ts]; [exact Hg|]. destruct t; try done;
      (destruct ts as [|t2 ts]; [exact Hg|]); destruct t2; try exact Hg;
      (destruct ts as [|t3 ts]; [exact Hg|]); try exact Hg.
    destruct (is_char "(" (CHAR c)) eqn:Hc; [|exact Hg].
    apply bool_decide_eq_true in Hc as <-. done.
Qed.

(** C10. The generated parser is correct and terminates: on every sequence of tokens, two turns per
    token and six more are enough for the automaton to end, and it ends as the grammar says: it
    accepts, with the tree of the expression, exactly the inputs that the
    grammar derives with [and] and [or] on one level and associating to the left, and
    gives up on all others, having popped its whole stack; the only other outcome is that the
    scanner fails at the end of the tokens. *)
Theorem yyparse_grammar (ts : list token) (x : option exn) :
  match parse ts with
  | Some q => parser_parse ts x = Some (Accept (Some q))
  | None => exists e, parser_parse ts x = Some (Abort e)
  end \/ exists ex, x = Some ex /\ parser_parse ts x = Some (Raise ex).
Proof.
  destruct (parse_agrees ts x) as (o & Ho & Hcase). specialize (Ho 0%nat).
  rewrite Nat.add_0_r in Ho. unfold parser_parse. rewrite Ho.
  destruct Hcase as [Hcase|(ex & Hx & ->)]; [left|right; by exists ex].
  destruct (parse ts); [by rewrite Hcase|]. destruct Hcase as [e ->]. by exists e.
Qed.
