(* ===== verification/ParserTypes.v ===== *)
(** * The types of the parser

    Every symbol of the grammar has a member of the union of semantic values ([%union], [%token] and
    [%type] of [src/query/parser.yy]); the parser of [src/query/parser.cpp] keeps unions
    and does not check.  Here the stack of [Lalr] is typed by the symbol that leads to a state ([yystos_]):
    every turn keeps the types, and no turn of a typed parser reads a member that was not written
    or looks outside of a table. *)

From S2P Require Import Prelude Ieee Infra Codec Query Lalr.

Local Open Scope Z_scope.

Definition yystos_ : list Z :=
  [ 0; 13; 14; 15; 19; 20; 23; 25; 26; 27;
    7; 8; 9; 10; 11; 12; 24; 6; 7; 20;
    26; 14; 26; 17; 18; 0; 16; 4; 5; 6;
    6; 21; 21; 26; 26 ].

(** The members of the union; the strings of operators are apart from the others. *)
Inductive member : Type := no_value | integerVal | doubleVal | stringVal | operatorVal | unquotedstringVal | querynode.

#[export] Instance member_eq_dec : EqDecision member.
Proof. solve_decision. Defined.

Definition member_of (v : semantic) : member :=
  match v with
  | VNone => no_value
  | VInteger _ => integerVal
  | VDoubleVal _ => doubleVal
  | VStringVal _ => stringVal
  | VOperator _ => operatorVal
  | VUnquoted _ => unquotedstringVal
  | VNode _ => querynode
  end.

(** [%token] and [%type], by the number of the symbol; [start] has the value of its only symbol. *)
Definition symbol_member (sym : Z) : member :=
  match sym with
  | 4 => integerVal
  | 5 => doubleVal
  | 6 => stringVal
  | 7 | 8 | 9 | 10 | 11 | 12 => operatorVal
  | 13 => unquotedstringVal
  | 23 | 25 | 26 | 27 => querynode
  | 24 => operatorVal
  | _ => no_value
  end.

Definition state_member (s : Z) : member := symbol_member (default 0 (at_ yystos_ s)).

(** The steps between the states: by a token and by a nonterminal. *)
Definition shifts (s : Z) : list Z :=
  match at_ yypact_ s with
  | Some yyn =>
      if yyn =? yypact_ninf_ then []
      else omap (fun sym => check ← at_ yycheck_ (yyn + sym);
                            if check =? sym then at_ yytable_ (yyn + sym) else None) (seqZ 0 22)
  | None => []
  end.
Definition gotos : list (Z * Z) :=
  [(0, 6); (0, 7); (0, 8); (0, 9); (1, 16); (4, 7); (4, 20); (5, 7); (5, 22); (19, 7); (19, 22);
   (23, 7); (23, 33); (24, 7); (24, 34)].
Definition edges : list (Z * Z) := (s ← seqZ 0 35; pair s <$> shifts s) ++ gotos.

(** A stack that the automaton can have, with a value of its type for every symbol. *)
Inductive typed : list (Z * semantic) -> Prop :=
| typed_bottom v : typed [(0, v)]
| typed_push s v s' v' stk :
    typed ((s, v) :: stk) -> (s, s') ∈ edges -> member_of v' = state_member s' ->
    typed ((s', v') :: (s, v) :: stk).

(** The ways to take [n] states from a stack whose top is [s]: the states and what is then the top;
    [None] if the bottom is reached. *)
Fixpoint pops (n : nat) (s : Z) : list (option (list Z * Z)) :=
  match n with
  | O => [Some ([], s)]
  | S n' =>
      if s =? 0 then [None]
      else e ← filter (fun e => e.2 = s) edges;
           option_map (fun r => (s :: r.1, r.2)) <$> pops n' e.1
  end.

Lemma typed_pops n : forall s v stk,
  typed ((s, v) :: stk) ->
  None ∈ pops n s
  \/ exists popped s' v' rest, (s, v) :: stk = popped ++ (s', v') :: rest /\ Some (popped.*1, s') ∈ pops n s
     /\ Forall (fun sv => member_of sv.2 = state_member sv.1) popped /\ typed ((s', v') :: rest).
Proof.
  induction n as [|n IH]; intros s v stk Ht; cbn [pops].
  { right. exists [], s, v, stk. split; [done|]. split; [by left|done]. }
  inversion Ht as [v0|s0 v0 s1 v1 stk0 Ht0 Hedge Hm]; subst; [left; by left|].
  destruct (s =? 0) eqn:H0; [left; by left|].
  assert (forall r, r ∈ pops n s0 -> option_map (fun r => (s :: r.1, r.2)) r ∈
    (e ← filter (fun e => e.2 = s) edges; option_map (fun r => (s :: r.1, r.2)) <$> pops n e.1)) as Hin.
  { intros r Hr. apply list_elem_of_bind. exists (s0, s). split; [by apply list_elem_of_fmap_2|].
    by apply list_elem_of_filter. }
  destruct (IH s0 v0 stk0 Ht0) as [Hn|(popped & s' & v' & rest & Heq & Hp & Hall & Ht')].
  - left. exact (Hin None Hn).
  - right. exists ((s, v) :: popped), s', v', rest. rewrite Heq. split; [done|].
    split; [exact (Hin _ Hp)|]. split; [by constructor|done].
Qed.

(** The members of the right-hand sides, the last symbol first. *)
Definition rhs_members (rule : Z) : list member :=
  match rule with
  | 2 => [no_value; no_value; no_value]
  | 3 => [no_value]
  | 4 | 5 | 6 | 7 | 8 | 9 => [operatorVal]
  | 10 => [stringVal; operatorVal; no_value]
  | 11 => [stringVal; no_value]
  | 12 => [no_value; operatorVal; unquotedstringVal]
  | 13 => [stringVal; operatorVal; unquotedstringVal]
  | 14 => [integerVal; operatorVal; unquotedstringVal]
  | 15 => [doubleVal; operatorVal; unquotedstringVal]
  | 16 => [no_value; querynode; no_value]
  | 17 | 18 => [querynode; no_value; querynode]
  | 19 => [querynode; no_value]
  | 20 | 21 | 22 => [querynode]
  | _ => []
  end.

(** The actions are well typed: they read the members of their symbols and write that of the left-hand side. *)
Lemma action_typed rule vs rest e :
  2 <= rule <= 22 -> member_of <$> vs = rhs_members rule ->
  exists v lhs, action rule (vs ++ rest) = Some v /\ at_ yyr1_ rule = Some lhs /\ member_of v = symbol_member lhs
  /\ is_Some (set_expression rule (vs ++ rest) e).
Proof.
  intros Hr Hvs. assert (rule ∈ seqZ 2 21) as Hin by (apply elem_of_seqZ; lia).
  cbv [seqZ seq fmap list_fmap Z.to_nat Pos.to_nat Pos.iter_op Nat.add] in Hin.
  repeat (apply elem_of_cons in Hin as [->|Hin]); [..|by apply elem_of_nil in Hin]; cbn in Hvs;
    destruct vs as [|v1 [|v2 [|v3 [|v4 vs]]]]; try discriminate Hvs;
    repeat match goal with v : semantic |- _ => destruct v; try discriminate Hvs end;
    (eexists _, _; split; [reflexivity|]; split; [reflexivity|]; split; [reflexivity|]; by eexists).
Qed.

(** Whatever the stack, a default reduction finds the symbols of its rule, and the state below has a step
    for the left-hand side. *)
Lemma reduction_typed s rule :
  valid_state s -> s <> yyfinal_ -> at_ yydefact_ s = Some rule -> rule <> 0 ->
  2 <= rule <= 22 /\ exists len lhs, at_ yyr2_ rule = Some len /\ at_ yyr1_ rule = Some lhs
  /\ forall r, r ∈ pops (Z.to_nat len) s -> exists popped b g, r = Some (popped, b)
     /\ state_member <$> popped = rhs_members rule /\ length popped = Z.to_nat len
     /\ yy_lr_goto_state_ b lhs = Some g /\ (b, g) ∈ edges /\ state_member g = symbol_member lhs.
Proof.
  intros Hs Hf Hr H0. pose (ok s rule := (2 <=? rule) && (rule <=? 22) && match at_ yyr2_ rule, at_ yyr1_ rule with
    | Some len, Some lhs => forallb (fun r : option (list Z * Z) => match r with
        | Some (popped, b) => bool_decide (state_member <$> popped = rhs_members rule)
            && (length popped =? Z.to_nat len)%nat
            && match yy_lr_goto_state_ b lhs with
               | Some g => bool_decide ((b, g) ∈ edges) && bool_decide (state_member g = symbol_member lhs)
               | None => false end
        | None => false end) (pops (Z.to_nat len) s)
    | _, _ => false end).
  assert (forallb (fun s => (s =? yyfinal_) || match at_ yydefact_ s with
    | Some rule => (rule =? 0) || ok s rule | None => false end) (seqZ 0 35) = true) as Hall by (vm_compute; reflexivity).
  rewrite forallb_forall in Hall. specialize (Hall s (proj1 (list_elem_of_In _ _) Hs)).
  apply Z.eqb_neq in Hf, H0. rewrite Hf, Hr, H0 in Hall. cbn [orb] in Hall. unfold ok in Hall.
  apply andb_true_iff in Hall as [[H2 H22]%andb_true_iff Hall]. apply Z.leb_le in H2, H22. split; [lia|].
  destruct (at_ yyr2_ rule) as [len|]; [|done]. destruct (at_ yyr1_ rule) as [lhs|]; [|done].
  exists len, lhs. split; [done|]. split; [done|]. intros r Hin. rewrite forallb_forall in Hall.
  specialize (Hall r (proj1 (list_elem_of_In _ _) Hin)). destruct r as [[popped b]|]; [|done].
  apply andb_true_iff in Hall as [[Hk Hl]%andb_true_iff Hall]. apply bool_decide_eq_true in Hk. apply Nat.eqb_eq in Hl.
  destruct (yy_lr_goto_state_ b lhs) as [g|] eqn:Hg; [|done]. apply andb_true_iff in Hall as [He Hm].
  apply bool_decide_eq_true in He, Hm. by exists popped, b, g.
Qed.

(** States are numbers of the automaton. *)
Lemma edges_valid s s' : (s, s') ∈ edges -> valid_state s'.
Proof.
  intros Hin. assert (forallb (fun e => bool_decide (valid_state e.2)) edges = true) as Hall by (vm_compute; reflexivity).
  rewrite forallb_forall in Hall. specialize (Hall (s, s') (proj1 (list_elem_of_In _ _) Hin)).
  by apply bool_decide_eq_true in Hall.
Qed.
Lemma typed_valid stk : typed stk -> valid stk.
Proof.
  induction 1 as [v|s v s' v' stk Ht IH He Hm]; [constructor; [by_decide|constructor]|]. constructor; [by eapply edges_valid|done].
Qed.

Lemma reduce_typed s v stk rule c :
  typed ((s, v) :: stk) -> s <> yyfinal_ -> at_ yydefact_ s = Some rule -> rule <> 0 -> yystack_ c = (s, v) :: stk ->
  exists c', reduce rule c = Next c' /\ typed (yystack_ c').
Proof.
  intros Ht Hf Hd H0 Hstk. pose proof (typed_valid _ Ht) as Hv.
  destruct (reduction_typed s rule) as (Hr & len & lhs & Hlen & Hlhs & Hpops); [by inversion Hv|done..|].
  destruct (typed_pops (Z.to_nat len) s v stk Ht) as [Hn|(popped & b & vb & rest & Heq & Hp & Hall & Htb)].
  { destruct (Hpops _ Hn) as (? & ? & ? & ? & _). done. }
  destruct (Hpops _ Hp) as (popped' & b' & g & Hpb & Hk & Hl & Hg & He & Hm). injection Hpb as <- <-.
  rewrite length_fmap in Hl.
  destruct (action_typed rule (popped.*2) (snd <$> (b, vb) :: rest) (expression c) Hr) as (v' & lhs' & Ha & Hlhs' & Hmv & [e He']).
  { rewrite <- Hk. clear -Hall. induction Hall as [|sv popped Hsv _ IH]; [done|]. cbn. by rewrite Hsv, IH. }
  rewrite Hlhs in Hlhs'. injection Hlhs' as <-.
  unfold reduce. rewrite Hlen, Hlhs, Hstk, Heq. cbn [mbind option_bind]. rewrite <- Hl.
  rewrite lookup_app_r, Nat.sub_diag by done. cbn [lookup list_lookup mbind option_bind]. rewrite Hg.
  cbn [mbind option_bind]. rewrite fmap_app, Ha. cbn [mbind option_bind]. rewrite He'. cbn [mbind option_bind].
  eexists. split; [reflexivity|]. cbn [yystack_]. rewrite drop_app_le, drop_all by done. cbn [app].
  constructor; [done|done|]. by rewrite Hm, Hmv.
Qed.

(** A parser with a typed stack. *)
Definition well_typed (c : config) : Prop := typed (yystack_ c).

(** A shift is a step for the symbol of the new state. *)
Lemma shift_typed s yyn sym act :
  valid_state s -> sym ∈ seqZ 0 22 -> at_ yypact_ s = Some yyn -> yyn <> yypact_ninf_ ->
  at_ yycheck_ (yyn + sym) = Some sym -> at_ yytable_ (yyn + sym) = Some act ->
  0 < act /\ (s, act) ∈ edges /\ state_member act = symbol_member sym.
Proof.
  intros Hs Hsym Hp Hn Hc Ht.
  assert (forallb (fun s => match at_ yypact_ s with
    | Some yyn => (yyn =? yypact_ninf_) || forallb (fun sym => match at_ yycheck_ (yyn + sym), at_ yytable_ (yyn + sym) with
        | Some check, Some act => negb (check =? sym)
            || bool_decide (0 < act /\ (s, act) ∈ edges /\ state_member act = symbol_member sym)
        | _, _ => true end) (seqZ 0 22)
    | None => false end) (seqZ 0 35) = true) as Hall by (vm_compute; reflexivity).
  rewrite forallb_forall in Hall. specialize (Hall s (proj1 (list_elem_of_In _ _) Hs)). rewrite Hp in Hall.
  apply Z.eqb_neq in Hn. rewrite Hn in Hall. cbn [orb] in Hall. rewrite forallb_forall in Hall.
  specialize (Hall sym (proj1 (list_elem_of_In _ _) Hsym)). rewrite Hc, Ht, Z.eqb_refl in Hall.
  by apply bool_decide_eq_true in Hall.
Qed.

Definition fine (o : outcome) : Prop :=
  match o with Next c => well_typed c | Accept _ | Abort _ => True | Raise _ => False end.

Lemma default_fine s v stk c :
  typed ((s, v) :: stk) -> s <> yyfinal_ -> yystack_ c = (s, v) :: stk -> fine (default_action s c).
Proof.
  intros Ht Hf Hstk. pose proof (typed_valid _ Ht) as Hv. assert (valid_state s) as Hs by (by inversion Hv).
  unfold default_action. destruct (at_ yydefact_ s) as [rule|] eqn:Hd.
  - destruct (rule =? 0) eqn:H0.
    + unfold error. by rewrite recover_aborts; [|rewrite Hstk..].
    + apply Z.eqb_neq in H0. destruct (reduce_typed s v stk rule c Ht Hf Hd H0 Hstk) as (c' & -> & Hc'). done.
  - apply elem_of_seqZ in Hs. unfold at_ in Hd. rewrite (proj2 (Z.ltb_ge s 0)) in Hd by lia.
    apply lookup_ge_None_1 in Hd. cbn in Hd. lia.
Qed.

(** A turn, with the lookahead. *)
Lemma decide_fine s v stk yyn sym c :
  typed ((s, v) :: stk) -> s <> yyfinal_ -> at_ yypact_ s = Some yyn -> yyn <> yypact_ninf_ ->
  yystack_ c = (s, v) :: stk -> sym ∈ seqZ 0 22 -> member_of (lookahead_value c) = symbol_member sym ->
  fine (decide_action s yyn sym c).
Proof.
  intros Ht Hf Hp Hn Hstk Hsym Hm. pose proof (typed_valid _ Ht) as Hv.
  assert (valid_state s) as Hs by (by inversion Hv). pose proof (default_fine s v stk c Ht Hf Hstk) as Hdef.
  unfold decide_action. destruct ((yyn + sym <? 0) || (yylast_ <? yyn + sym)) eqn:Hr; [done|].
  destruct (entry_range _ Hr) as [[check Hc] [act Ha]]. rewrite Hc, Ha.
  destruct (check =? sym) eqn:Hcs; cbn [negb]; [|done]. apply Z.eqb_eq in Hcs as ->.
  destruct (shift_typed _ _ _ _ Hs Hsym Hp Hn Hc Ha) as (Hpos & He & Hk).
  rewrite (proj2 (Z.leb_gt act 0)) by lia. cbn [fine well_typed]. unfold well_typed. cbn [yystack_]. rewrite Hstk.
  constructor; [done|done|congruence].
Qed.

(** The tokens have the members of their symbols. *)
Lemma token_member t : member_of (token_value t) = symbol_member (sym_of t).
Proof. destruct t as [| | | |[]| | | | | | | |c]; try reflexivity. rewrite sym_of_char. repeat case_match; done. Qed.

Lemma lookahead_typed c sym :
  lookahead c = Ok sym -> sym ∈ seqZ 0 22 /\ member_of (lookahead_value c) = symbol_member sym.
Proof.
  unfold lookahead, lookahead_value. destruct (tokens c) as [|t ts].
  - destruct (failure c); [done|]. intros [= <-]. split; [by_decide|done].
  - intros [= <-]. split; [apply sym_of_range|apply token_member].
Qed.

Lemma start_typed ts x : well_typed (start_config ts x).
Proof. apply typed_bottom. Qed.

(** A turn keeps the types, and what it raises is what the scanner has thrown. *)
Lemma step_typed c :
  well_typed c ->
  match step c with
  | Next c' => well_typed c'
  | Raise x => failure c = Some x /\ tokens c = []
  | Accept _ | Abort _ => True
  end.
Proof.
  intros Ht. assert (forall o, fine o -> match o with
    | Next c' => well_typed c' | Raise x => failure c = Some x /\ tokens c = [] | _ => True end) as Hfine by (by intros []).
  unfold step. destruct (yystack_ c) as [|[s v] stk] eqn:Hstk; [unfold well_typed in Ht; rewrite Hstk in Ht; by inversion Ht|].
  unfold well_typed in Ht. rewrite Hstk in Ht. pose proof (typed_valid _ Ht) as Hv.
  assert (valid_state s) as Hs by (by inversion Hv).
  destruct (s =? yyfinal_) eqn:Hf; [done|]. apply Z.eqb_neq in Hf.
  destruct (at_ yypact_ s) as [yyn|] eqn:Hp.
  2: { apply elem_of_seqZ in Hs. unfold at_ in Hp. rewrite (proj2 (Z.ltb_ge s 0)) in Hp by lia.
       apply lookup_ge_None_1 in Hp. cbn in Hp. lia. }
  destruct (yyn =? yypact_ninf_) eqn:Hn; [by apply Hfine; eapply default_fine|]. apply Z.eqb_neq in Hn.
  destruct (lookahead c) as [sym|x] eqn:Hl.
  - destruct (lookahead_typed c sym Hl) as [Hsym Hm]. apply Hfine. by eapply decide_fine.
  - unfold lookahead in Hl. destruct (tokens c); [|done]. destruct (failure c); [|done]. by injection Hl as ->.
Qed.

Definition turn (c c' : config) : Prop := step c = Next c'.

(** C13. The parser is type safe: whatever the tokens, the stack is typed after every turn, so that no turn reads a
    member of the union that was not written, takes more from the stack than there is or leaves the tables; the
    only thing that is raised is what the scanner has thrown. *)
Theorem parser_type_safe (ts : list token) (x : option exn) (c : config) :
  rtc turn (start_config ts x) c ->
  well_typed c
  /\ match step c with
     | Next c' => well_typed c'
     | Raise y => failure c = Some y /\ tokens c = []
     | Accept _ | Abort _ => True
     end.
Proof.
  intros Hr. assert (well_typed c) as Hc; [|split; [done|by apply step_typed]].
  revert Hr. apply rtc_ind_r; [apply start_typed|]. intros c1 c2 _ Hs IH. pose proof (step_typed c1 IH) as Hn.
  by rewrite Hs in Hn.
Qed.

(** Three turns into a comparison with a string. *)
Lemma parser_type_safe_witness :
  exists c, rtc turn (start_config [UNQUOTEDSTRING (String.list_ascii_of_string "host"); OP EQUAL; STRING ["x"%char]] None) c
  /\ member_of <$> (yystack_ c).*2 = [operatorVal; unquotedstringVal; no_value] /\ well_typed c.
Proof.
  eexists. split; [|split].
  - do 3 (eapply rtc_l; [vm_compute; reflexivity|]). apply rtc_refl.
  - reflexivity.
  - eapply (parser_type_safe [UNQUOTEDSTRING (String.list_ascii_of_string "host"); OP EQUAL; STRING ["x"%char]] None).
    do 3 (eapply rtc_l; [vm_compute; reflexivity|]). apply rtc_refl.
Defined.
