(* ===== verification/Flex.v ===== *)
(** * The generated scanner

    [src/query/scanner.cpp], the automaton that flex has made from [scanner.ll]: its compressed
    tables, the loop that looks for the longest match with its backing up, and the actions.
    One theorem is that it finds the tokens of [Query.scan] in every input.  Last,
    [driver::parse_string] joins this scanner and the parser of [Lalr], and reads back every
    query that can be written.

    The input is seen as a whole: that it is read in blocks does not matter to the
    automaton, which goes back to the state it was in ([yy_get_previous_state]).  A NUL
    in the input is a character of class 1 ([yy_try_NUL_trans]). *)

From S2P Require Import Prelude Ieee Infra Codec Query Lalr.

Local Open Scope Z_scope.

(** ** Tables *)

Definition yy_accept : list Z :=
  [ 0; 0; 0; 21; 19; 17; 18; 19; 13; 5; 1; 3; 16; 16; 16; 16; 16; 17; 0; 15;
    0; 14; 13; 16; 6; 2; 4; 16; 16; 16; 8; 16; 16; 0; 15; 0; 14; 7; 11; 9;
    16; 16; 16; 12; 16; 10; 0 ].
Definition yy_ec : list Z :=
  [ 0; 1; 1; 1; 1; 1; 1; 1; 1; 2; 3; 1; 1; 2; 1; 1; 1; 1; 1; 1;
    1; 1; 1; 1; 1; 1; 1; 1; 1; 1; 1; 1; 2; 1; 4; 1; 1; 1; 1; 1;
    1; 1; 1; 1; 1; 1; 5; 1; 6; 6; 6; 6; 6; 6; 6; 6; 6; 6; 1; 1;
    7; 8; 9; 1; 1; 10; 10; 10; 10; 10; 10; 10; 10; 10; 10; 10; 10; 10; 10; 10;
    10; 10; 10; 10; 10; 10; 10; 10; 10; 10; 10; 1; 11; 1; 1; 1; 1; 12; 10; 10;
    13; 14; 10; 15; 10; 16; 10; 10; 17; 10; 18; 19; 10; 10; 20; 10; 21; 22; 10; 10;
    10; 10; 10; 1; 1; 1; 23; 1; 1; 1; 1; 1; 1; 1; 1; 1; 1; 1; 1; 1;
    1; 1; 1; 1; 1; 1; 1; 1; 1; 1; 1; 1; 1; 1; 1; 1; 1; 1; 1; 1;
    1; 1; 1; 1; 1; 1; 1; 1; 1; 1; 1; 1; 1; 1; 1; 1; 1; 1; 1; 1;
    1; 1; 1; 1; 1; 1; 1; 1; 1; 1; 1; 1; 1; 1; 1; 1; 1; 1; 1; 1;
    1; 1; 1; 1; 1; 1; 1; 1; 1; 1; 1; 1; 1; 1; 1; 1; 1; 1; 1; 1;
    1; 1; 1; 1; 1; 1; 1; 1; 1; 1; 1; 1; 1; 1; 1; 1; 1; 1; 1; 1;
    1; 1; 1; 1; 1; 1; 1; 1; 1; 1; 1; 1; 1; 1; 1; 1 ].
Definition yy_meta : list Z :=
  [ 0; 1; 1; 1; 1; 2; 2; 1; 1; 1; 2; 1; 2; 2; 2; 2; 2; 2; 2; 2;
    2; 2; 2; 1 ].
Definition yy_base : list Z :=
  [ 0; 0; 0; 90; 91; 87; 91; 20; 20; 80; 64; 78; 80; 22; 23; 24; 25; 82; 30; 91;
    32; 77; 27; 77; 91; 91; 91; 33; 42; 43; 70; 45; 44; 47; 50; 52; 67; 67; 66; 65;
    47; 60; 62; 63; 64; 52; 91; 77; 51; 79 ].
Definition yy_def : list Z :=
  [ 0; 46; 1; 46; 46; 46; 46; 47; 48; 46; 46; 46; 48; 48; 48; 48; 48; 46; 47; 46;
    49; 46; 48; 48; 46; 46; 46; 48; 48; 48; 48; 48; 48; 47; 47; 49; 46; 48; 48; 48;
    48; 48; 48; 48; 48; 48; 0; 46; 46; 46 ].
Definition yy_nxt : list Z :=
  [ 0; 4; 5; 6; 7; 4; 8; 9; 10; 11; 12; 4; 13; 12; 12; 12; 12; 12; 14; 15;
    12; 16; 12; 4; 19; 21; 22; 46; 46; 46; 46; 20; 21; 22; 19; 18; 34; 31; 46; 28;
    27; 20; 29; 35; 30; 32; 37; 46; 46; 46; 46; 19; 46; 23; 19; 18; 34; 46; 20; 38;
    40; 20; 42; 35; 39; 46; 41; 46; 46; 46; 46; 46; 46; 36; 43; 46; 44; 45; 18; 18;
    33; 33; 46; 36; 17; 46; 26; 25; 24; 17; 46; 3; 46; 46; 46; 46; 46; 46; 46; 46;
    46; 46; 46; 46; 46; 46; 46; 46; 46; 46; 46; 46; 46; 46; 46 ].
Definition yy_chk : list Z :=
  [ 0; 1; 1; 1; 1; 1; 1; 1; 1; 1; 1; 1; 1; 1; 1; 1; 1; 1; 1; 1;
    1; 1; 1; 1; 7; 8; 8; 13; 14; 15; 16; 7; 22; 22; 18; 20; 20; 16; 27; 14;
    13; 18; 14; 20; 15; 16; 27; 28; 29; 32; 31; 33; 40; 48; 34; 35; 35; 45; 33; 28;
    31; 34; 40; 35; 29; 41; 32; 42; 43; 44; 39; 38; 37; 36; 41; 30; 42; 44; 47; 47;
    49; 49; 23; 21; 17; 12; 11; 10; 9; 5; 3; 46; 46; 46; 46; 46; 46; 46; 46; 46;
    46; 46; 46; 46; 46; 46; 46; 46; 46; 46; 46; 46; 46; 46; 46 ].

Definition yy_jam : Z := 46.

(** ** The automaton *)

Definition yy_class (c : ascii) : Z :=
  let n := Z.of_N (N_of_ascii c) in
  if n =? 0 then 1 else default 0 (at_ yy_ec n).

(** The loop that follows [yy_def] until [yy_chk] has the state; two turns are always enough. *)
Fixpoint yy_find (fuel : nat) (state yy_c : Z) : option Z :=
  match fuel with
  | O => None
  | S fuel' =>
      base ← at_ yy_base state;
      chk ← at_ yy_chk (base + yy_c);
      if negb (chk =? state) then
        state ← at_ yy_def state;
        yy_c ← (if 47 <=? state then at_ yy_meta yy_c else Some yy_c);
        yy_find fuel' state yy_c
      else at_ yy_nxt (base + yy_c)
  end.
Definition yy_next (state : Z) (c : ascii) : option Z := yy_find 3 state (yy_class c).

(** The longest match: the last state that accepts, and how many characters were read by
    then. *)
Fixpoint yy_match (state : Z) (input : list ascii) (n : nat) (last : option (Z * nat))
  : option (Z * nat) :=
  let last := if default 0 (at_ yy_accept state) =? 0 then last else Some (state, n) in
  match input with
  | [] => last
  | c :: input' =>
      match yy_next state c with
      | Some state' => if state' =? yy_jam then last else yy_match state' input' (S n) last
      | None => None
      end
  end.

(** The actions; white space gives no token. *)
Definition flex_action (act : Z) (yytext : list ascii) : option (result (option token)) :=
  match act with
  | 1 => Some (Ok (Some (OP EQUAL)))
  | 2 => Some (Ok (Some (OP LIKE)))
  | 3 => Some (Ok (Some (OP GREATER)))
  | 4 => Some (Ok (Some (OP GREATER_EQ)))
  | 5 => Some (Ok (Some (OP LESSER)))
  | 6 => Some (Ok (Some (OP LESSER_EQ)))
  | 7 => Some (Ok (Some AND))
  | 8 => Some (Ok (Some OR))
  | 9 => Some (Ok (Some NOT))
  | 10 => Some (Ok (Some TAGGED))
  | 11 => Some (Ok (Some NIL))
  | 12 => Some (Ok (Some TRUE))
  | 13 => Some (if k_int_max <? decimal yytext then Throw undefined_behaviour
                else Ok (Some (INTEGER (decimal yytext))))
  | 14 => Some (Ok (Some (DOUBLE (atof yytext))))
  | 15 => Some (Ok (Some (STRING yytext)))
  | 16 => Some (Ok (Some (UNQUOTEDSTRING yytext)))
  | 17 => Some (Ok None)
  | 18 => Some (Ok (Some EOL))
  | 19 => (fun c => Ok (Some (CHAR c))) <$> head yytext
  | _ => None
  end.

(** A token, or white space, and the rest of the input. *)
Definition flex_token (input : list ascii) : option (result (option token) * list ascii) :=
  '(state, n) ← yy_match 1 input 0 None;
  act ← at_ yy_accept state;
  r ← flex_action act (take n input);
  Some (r, drop n input).

(** All tokens, as in [Query.scan]. *)
Fixpoint flex_scan (fuel : nat) (input : list ascii) : option (list token * option exn) :=
  match input with
  | [] => Some ([], None)
  | _ =>
      match fuel with
      | O => None
      | S fuel' =>
          '(r, rest) ← flex_token input;
          match r with
          | Throw x => Some ([], Some x)
          | Ok t =>
              '(ts, x) ← flex_scan fuel' rest;
              Some (match t with Some t => t :: ts | None => ts end, x)
          end
      end
  end.

(** [driver::parse_string] and [query_context::evaluate]: the expression, if the input is
    accepted. *)
Definition parse_string (input : list ascii) : result (option query_node) :=
  match ('(ts, x) ← flex_scan (length input) input; parser_parse ts x) with
  | Some (Accept q) => Ok q
  | Some (Abort _) => Ok None
  | Some (Raise x) => Throw x
  | _ => Throw undefined_behaviour
  end.

(** ** Finite checks *)

Definition all_chars : list ascii := ascii_of_nat <$> seq 0 256.

Lemma for_all_chars (P : ascii -> bool) : forallb P all_chars = true -> forall c, P c = true.
Proof.
  rewrite forallb_forall. intros HP c. apply HP, list_elem_of_In. unfold all_chars.
  apply list_elem_of_fmap. exists (nat_of_ascii c). split; [by rewrite ascii_nat_embedding|].
  apply elem_of_seq. pose proof (nat_ascii_bounded c). lia.
Qed.

(** ** Words and numbers *)

(** The states for the beginnings of the keywords. *)
Definition kw_states : list (list ascii * Z) :=
  [ (chars "a", 13); (chars "an", 27); (chars "and", 37); (chars "n", 14); (chars "ni", 28);
    (chars "nil", 38); (chars "no", 29); (chars "not", 39); (chars "o", 15); (chars "or", 30);
    (chars "t", 16); (chars "ta", 31); (chars "tag", 40); (chars "tagg", 42); (chars "tagge", 44);
    (chars "tagged", 45); (chars "tr", 32); (chars "tru", 41); (chars "true", 43) ].
Definition kw_state (w : list ascii) : option Z := (list_find (fun kv => kv.1 = w) kw_states) ≫= (fun x => Some x.2.2).

(** The state after a word. *)
Definition word_state (w : list ascii) : Z :=
  match kw_state w with
  | Some s => s
  | None =>
      match w with
      | [_] => if forallb is_digit w then 8 else 12
      | _ => if forallb is_digit w then 22 else 23
      end
  end.

Lemma kw_state_Some w s : kw_state w = Some s -> (w, s) ∈ kw_states.
Proof.
  unfold kw_state. destruct (list_find _ kw_states) as [[i [w' s']]|] eqn:Hf; [|done].
  intros [= <-]. apply list_find_Some in Hf as (Hi & Hw & _). simpl in Hw. subst w'.
  by eapply list_elem_of_lookup_2.
Qed.

Lemma kw_state_None w : kw_state w = None -> forall s, (w, s) ∉ kw_states.
Proof.
  unfold kw_state. destruct (list_find _ kw_states) as [[i kv]|] eqn:Hf; [done|]. intros _ s Hin.
  apply list_find_None in Hf. rewrite list.Forall_forall in Hf. by apply (Hf _ Hin).
Qed.

(** What is checked for all beginnings of keywords and all characters. *)
Definition kw_check (w : list ascii) (s : Z) (c : ascii) : bool :=
  bool_decide (yy_next s c = Some (if is_alnum c then word_state (w ++ [c]) else yy_jam))
  && negb (forallb is_digit w).

Lemma kw_checked w s c : kw_state w = Some s -> kw_check w s c = true.
Proof.
  intros Hin%kw_state_Some. revert c. apply for_all_chars.
  assert (forallb (fun kv => forallb (kw_check kv.1 kv.2) all_chars) kw_states = true) as Hall
    by (vm_compute; reflexivity).
  rewrite forallb_forall in Hall. apply (Hall (w, s)). by apply list_elem_of_In.
Qed.

(** The beginning of a beginning of a keyword is one. *)
Lemma kw_state_prefix w c : w <> [] -> kw_state w = None -> kw_state (w ++ [c]) = None.
Proof.
  intros Hne Hw. destruct (kw_state (w ++ [c])) as [s|] eqn:Hs; [|done]. exfalso.
  apply kw_state_Some in Hs.
  assert (forallb (fun kv => bool_decide (removelast kv.1 = [] \/ is_Some (kw_state (removelast kv.1))))
    kw_states = true) as Hall by (vm_compute; reflexivity).
  rewrite forallb_forall in Hall. apply list_elem_of_In in Hs. specialize (Hall _ Hs).
  apply bool_decide_eq_true in Hall. cbn [fst] in Hall. rewrite removelast_last in Hall.
  destruct Hall as [?|[s' ?]]; congruence.
Qed.

Lemma word_state_generic w :
  w <> [] -> kw_state w = None ->
  word_state w = match w with
                 | [_] => if forallb is_digit w then 8 else 12
                 | _ => if forallb is_digit w then 22 else 23
                 end.
Proof. intros Hne Hw. unfold word_state. by rewrite Hw. Qed.

Lemma digit_next c : yy_next 8 c = yy_next 22 c /\ yy_next 12 c = yy_next 23 c
  /\ yy_next 22 c = Some (if is_digit c then 22 else if is_alnum c then 23
                          else if decide (c = "."%char) then 21 else yy_jam)
  /\ yy_next 23 c = Some (if is_alnum c then 23 else yy_jam).
Proof.
  pose proof (for_all_chars (fun c => bool_decide (yy_next 8 c = yy_next 22 c
    /\ yy_next 12 c = yy_next 23 c
    /\ yy_next 22 c = Some (if is_digit c then 22 else if is_alnum c then 23
                          else if decide (c = "."%char) then 21 else yy_jam)
    /\ yy_next 23 c = Some (if is_alnum c then 23 else yy_jam)))) as Hall.
  apply (bool_decide_unpack _). apply Is_true_true_2. apply Hall. vm_compute. reflexivity.
Qed.

Lemma word_next w c :
  w <> [] -> yy_next (word_state w) c
  = Some (if is_alnum c then word_state (w ++ [c])
          else if forallb is_digit w && bool_decide (c = "."%char) then 21 else yy_jam).
Proof.
  intros Hne. destruct (kw_state w) as [s|] eqn:Hw.
  - pose proof (kw_checked w s c Hw) as [Hn Hd]%andb_true_iff. apply negb_true_iff in Hd.
    apply bool_decide_eq_true in Hn. unfold word_state at 1. rewrite Hw, Hn, Hd. by destruct (is_alnum c).
  - rewrite (word_state_generic w) by done.
    assert (kw_state (w ++ [c]) = None) as Hwc by (by apply kw_state_prefix).
    rewrite (word_state_generic (w ++ [c])) by (done || by destruct w).
    destruct (digit_next c) as (H8 & H12 & H22 & H23).
    assert (forall b : bool, match w ++ [c] with
                             | [_] => if b then 8 else 12
                             | _ => if b then 22 else 23 end = if b then 22 else 23) as Hlen.
    { intros b. destruct w as [|x [|y w]]; [done..]. }
    rewrite (Hlen (forallb is_digit (w ++ [c]))), forallb_app. simpl. rewrite andb_true_r.
    assert (is_digit c = true -> is_alnum c = true) as Hda by (unfold is_alnum; intros ->; done).
    assert (yy_next (match w with [_] => if forallb is_digit w then 8 else 12
                     | _ => if forallb is_digit w then 22 else 23 end) c
            = if forallb is_digit w then yy_next 22 c else yy_next 23 c) as ->.
    { destruct w as [|x [|y w]]; [done|..]; by destruct (forallb is_digit _); rewrite ?H8, ?H12. }
    destruct (forallb is_digit w); rewrite ?H22, ?H23; cbn [andb].
    + destruct (is_digit c); [by rewrite Hda|]. destruct (is_alnum c); [done|].
      case_decide; [by rewrite bool_decide_true|by rewrite bool_decide_false].
    + by destruct (is_alnum c).
Qed.

(** What a word is. *)
Definition word_token (w : list ascii) : result (option token) :=
  if forallb is_digit w then
    if k_int_max <? decimal w then Throw undefined_behaviour else Ok (Some (INTEGER (decimal w)))
  else Ok (Some (keyword w)).

Lemma keyword_generic w : kw_state w = None -> keyword w = UNQUOTEDSTRING w.
Proof.
  intros Hw. pose proof (kw_state_None w Hw) as Hn. unfold keyword.
  repeat (case_decide as Hk; [exfalso; rewrite Hk in Hn; discriminate Hw || (by rewrite Hk in Hw)|clear Hk]).
  done.
Qed.

Lemma word_accept w :
  w <> [] -> exists act, at_ yy_accept (word_state w) = Some act /\ act <> 0
  /\ flex_action act w = Some (word_token w).
Proof.
  intros Hne. destruct (kw_state w) as [s|] eqn:Hw.
  - unfold word_state. rewrite Hw. apply kw_state_Some in Hw.
    repeat (apply elem_of_cons in Hw as [[= -> ->]|Hw]; [eexists; by vm_compute|]).
    by apply elem_of_nil in Hw.
  - rewrite (word_state_generic w) by done. unfold word_token. rewrite keyword_generic by done.
    destruct (forallb is_digit w); [exists 13|exists 16]; by destruct w as [|x [|y w]].
Qed.

Lemma accept_last s act n last :
  at_ yy_accept s = Some act -> act <> 0 ->
  (if default 0 (at_ yy_accept s) =? 0 then last else Some (s, n)) = Some (s, n : nat).
Proof. intros -> Hne. simpl. by rewrite (proj2 (Z.eqb_neq _ _) Hne). Qed.

(** Reading on in a word. *)
Lemma match_word w u rest n last :
  w <> [] -> forallb is_alnum u = true ->
  match rest with c :: _ => is_alnum c = false | [] => True end ->
  yy_match (word_state w) (u ++ rest) n last
  = let here := Some (word_state (w ++ u), (n + length u)%nat) in
    match rest with
    | c :: rest' =>
        if forallb is_digit (w ++ u) && bool_decide (c = "."%char)
        then yy_match 21 rest' (S (n + length u)) here else here
    | [] => here
    end.
Proof.
  revert w n last. induction u as [|c u IH]; intros w n last Hne Hu Hrest; cbn [app].
  - rewrite app_nil_r. simpl length. rewrite Nat.add_0_r.
    destruct (word_accept w Hne) as (act & Hact & Hnz & _).
    destruct rest as [|c rest]; cbn [yy_match]; rewrite (accept_last _ act) by done; [done|].
    rewrite word_next, Hrest by done. cbv zeta. by destruct (_ && _).
  - simpl in Hu. apply andb_true_iff in Hu as [Hc Hu].
    destruct (word_accept w Hne) as (act & Hact & Hnz & _).
    cbn [yy_match]. rewrite (accept_last _ act) by done. rewrite word_next, Hc by done.
    assert ((word_state (w ++ [c]) =? yy_jam) = false) as ->.
    { destruct (word_accept (w ++ [c])) as (a & Ha & Hz & _); [by destruct w|].
      apply Z.eqb_neq. intros Hj. rewrite Hj in Ha. vm_compute in Ha. congruence. }
    rewrite IH by (done || by destruct w). rewrite <- app_assoc. cbn [app length].
    by replace (S n + length u)%nat with (n + S (length u))%nat by lia.
Qed.

Lemma fraction_next c :
  yy_next 21 c = Some (if is_digit c then 36 else yy_jam)
  /\ yy_next 36 c = Some (if is_digit c then 36 else yy_jam).
Proof.
  pose proof (for_all_chars (fun c => bool_decide (yy_next 21 c = Some (if is_digit c then 36 else yy_jam)
    /\ yy_next 36 c = Some (if is_digit c then 36 else yy_jam)))) as Hall.
  apply (bool_decide_unpack _). apply Is_true_true_2. apply Hall. vm_compute. reflexivity.
Qed.

(** The digits behind the point. *)
Lemma match_fraction s u n last :
  s = 21 \/ s = 36 ->
  exists s', (s' = 21 \/ s' = 36) /\ yy_match s u n last = Some (s', (n + length (span is_digit u).1)%nat).
Proof.
  intros Hs. revert s n last Hs. induction u as [|c u IH]; intros s n last Hs.
  - exists s. split; [done|]. simpl. rewrite Nat.add_0_r. by destruct Hs as [-> | ->].
  - cbn [yy_match span].
    assert (yy_next s c = Some (if is_digit c then 36 else yy_jam)) as ->
      by (destruct (fraction_next c); by destruct Hs as [-> | ->]).
    destruct (is_digit c).
    + change (36 =? yy_jam) with false. cbv beta iota zeta.
      destruct (IH 36 (S n) (if default 0 (at_ yy_accept s) =? 0 then last else Some (s, n)))
        as (s' & Hs' & ->); [by right|].
      exists s'. split; [done|]. destruct (span is_digit u). simpl. do 2 f_equal. lia.
    + change (yy_jam =? yy_jam) with true. cbv beta iota zeta. exists s. split; [done|]. simpl.
      rewrite Nat.add_0_r. by destruct Hs as [-> | ->].
Qed.

Lemma span_spec p s a b :
  span p s = (a, b) -> s = a ++ b /\ forallb p a = true
  /\ match b with c :: _ => p c = false | [] => True end.
Proof.
  revert a. induction s as [|c s IH]; intros a; cbn [span]; [by intros [= <- <-]|].
  destruct (p c) eqn:Hc; [|by intros [= <- <-]].
  destruct (span p s) as [a' b'] eqn:Hs. intros [= <- <-]. destruct (IH a' eq_refl) as (-> & Ha & Hb).
  simpl. by rewrite Hc.
Qed.

(** The first state. *)
Definition first_state (c : ascii) : Z :=
  if is_alnum c then word_state [c]
  else if decide (c = "="%char) then 10 else if decide (c = ">"%char) then 11
  else if decide (c = "<"%char) then 9 else if decide (c = k_quote) then 7
  else if decide (c = " "%char \/ c = "009"%char \/ c = "013"%char) then 5
  else if decide (c = "010"%char) then 6 else 4.

Lemma first_next c : yy_next 1 c = Some (first_state c).
Proof.
  pose proof (for_all_chars (fun c => bool_decide (yy_next 1 c = Some (first_state c)))) as Hall.
  apply (bool_decide_unpack _). apply Is_true_true_2. apply Hall. vm_compute. reflexivity.
Qed.

Lemma match_first c s : yy_match 1 (c :: s) 0 None = yy_match (first_state c) s 1 None.
Proof.
  cbn [yy_match]. rewrite first_next.
  assert (negb (first_state c =? yy_jam) = true) as Hj.
  { apply (for_all_chars (fun c => negb (first_state c =? yy_jam))). vm_compute. reflexivity. }
  apply negb_true_iff in Hj. rewrite Hj. reflexivity.
Qed.

Lemma flex_word c s :
  is_alnum c = true -> flex_token (c :: s) = Some (scan_token c s).
Proof.
  intros Hc. rewrite scan_token_word by done. unfold scan_word. cbn [span]. rewrite Hc.
  destruct (span is_alnum s) as [u rest] eqn:Hspan. apply span_spec in Hspan as (-> & Hu & Hrest).
  unfold flex_token. rewrite match_first. unfold first_state. rewrite Hc.
  rewrite (match_word [c] u rest 1 None) by done. cbv zeta. cbn [app].
  set (w := c :: u). set (here := Some _).
  assert (forall r, r = Some (word_state w, (1 + length u)%nat) ->
    ('(state, n) ← r; act ← at_ yy_accept state; x ← flex_action act (take n (c :: u ++ rest));
     Some (x, drop n (c :: u ++ rest))) = Some (word_token w, rest)) as Hword.
  { intros r ->. cbn [mbind option_bind]. destruct (word_accept w) as (act & -> & _ & Ha); [done|].
    cbn [mbind option_bind]. change (c :: u ++ rest) with (w ++ rest).
    change (1 + length u)%nat with (length w). by rewrite take_app_length, drop_app_length, Ha. }
  unfold word_token in Hword. destruct (forallb is_digit w) eqn:Hd.
  - destruct rest as [|d rest]; [rewrite Hword by done; by case_match|].
    destruct (decide (d = "."%char)) as [->|Hdot].
    + rewrite bool_decide_true by done. cbn [andb].
      destruct (match_fraction 21 rest (S (1 + length u)) here) as (s' & Hs' & ->); [by left|].
      destruct (span is_digit rest) as [frac rest'] eqn:Hspan. cbn [fst].
      apply span_spec in Hspan as (-> & _ & _). cbn [mbind option_bind].
      assert (at_ yy_accept s' = Some 14) as -> by (by destruct Hs' as [-> | ->]).
      cbn [mbind option_bind flex_action].
      replace (c :: u ++ "."%char :: frac ++ rest') with ((w ++ "."%char :: frac) ++ rest')
        by (subst w; simpl; by rewrite <- app_assoc).
      replace (S (1 + length u) + length frac)%nat with (length (w ++ "."%char :: frac))
        by (subst w; rewrite length_app; simpl; lia).
      by rewrite take_app_length, drop_app_length.
    + rewrite bool_decide_false by done. cbn [andb]. rewrite Hword by done. by case_match.
  - assert ((match rest with
             | [] => here
             | d :: rest' => if false && bool_decide (d = "."%char) then yy_match 21 rest' (S (1 + length u)) here
                             else here
             end) = here) as -> by (by destruct rest).
    by rewrite Hword.
Qed.

(** The states from which no character leads on. *)
Lemma match_final s u n last : s ∈ [4; 6; 19; 24; 25; 26] -> yy_match s u n last = Some (s, n).
Proof.
  intros Hs.
  assert (forall c, yy_next s c = Some yy_jam) as Hjam.
  { intros c. pose proof (for_all_chars (fun c => bool_decide (yy_next s c = Some yy_jam))) as Hall.
    apply (bool_decide_unpack _). apply Is_true_true_2. apply Hall. clear Hall.
    repeat (apply elem_of_cons in Hs as [->|Hs]; [vm_compute; reflexivity|]). by apply elem_of_nil in Hs. }
  assert (exists act, at_ yy_accept s = Some act /\ act <> 0) as (act & Hact & Hne).
  { repeat (apply elem_of_cons in Hs as [->|Hs]; [by eexists|]). by apply elem_of_nil in Hs. }
  destruct u as [|c u]; cbn [yy_match]; rewrite ?Hjam, (accept_last _ act) by done; done.
Qed.

(** ** Strings *)

(** The states inside a string: [esc] after a backslash. *)
Definition str_state (esc : bool) (s : Z) : Prop := s ∈ (if esc then [20; 35] else [7; 18; 33; 34]).

Definition str_next (esc : bool) (c : ascii) : Z :=
  if decide (c = k_quote) then if esc then 34 else 19
  else if decide (c = k_backslash) then if esc then 35 else 20
  else if esc && negb (bool_decide (c = "010"%char)) then 33 else 18.

Lemma string_next esc s c : str_state esc s -> yy_next s c = Some (str_next esc c).
Proof.
  intros Hs.
  pose proof (for_all_chars (fun c => bool_decide (yy_next s c = Some (str_next esc c)))) as Hall.
  apply (bool_decide_unpack _). apply Is_true_true_2. apply Hall.
  unfold str_state in Hs. destruct esc;
    repeat (apply elem_of_cons in Hs as [->|Hs]; [vm_compute; reflexivity|]); by apply elem_of_nil in Hs.
Qed.

Lemma str_next_state esc c :
  c <> k_quote -> str_state (bool_decide (c = k_backslash)) (str_next esc c)
  /\ at_ yy_accept (str_next esc c) = Some 0.
Proof.
  intros Hq. unfold str_next. rewrite decide_False by done.
  case_decide as Hb; [rewrite bool_decide_true by done|rewrite bool_decide_false by done].
  - destruct esc; (split; [unfold str_state; simpl|done]); rewrite ?elem_of_cons; tauto.
  - destruct (esc && _); (split; [unfold str_state; simpl|done]); rewrite ?elem_of_cons; tauto.
Qed.

Lemma str_next_jam esc c : (str_next esc c =? yy_jam) = false.
Proof. unfold str_next. repeat case_decide; destruct esc; try done; by destruct (negb _). Qed.

Lemma match_string esc s u n last :
  str_state esc s ->
  match scan_string esc u with
  | Some (a, b) =>
      u = a ++ b
      /\ exists s', at_ yy_accept s' = Some 15 /\ yy_match s u n last = Some (s', (n + length a)%nat)
  | None => yy_match s u n last = if default 0 (at_ yy_accept s) =? 0 then last else Some (s, n)
  end.
Proof.
  revert esc s n last. induction u as [|c u IH]; intros esc s n last Hs; [done|].
  cbn [scan_string yy_match]. rewrite (string_next esc) by done. rewrite str_next_jam.
  set (last' := if _ =? 0 then last else _). case_decide as Hq.
  - subst c. destruct esc.
    + change (str_next true k_quote) with 34.
      assert (str_state false 34) as H34 by (unfold str_state; rewrite ?elem_of_cons; tauto).
      specialize (IH false 34 (S n) last' H34). destruct (scan_string false u) as [[a b]|].
      * destruct IH as (-> & s' & Hacc & ->). split; [done|]. exists s'. split; [done|].
        do 2 f_equal. simpl. lia.
      * split; [done|]. exists 34. split; [done|]. rewrite IH. simpl. do 2 f_equal. lia.
    + change (str_next false k_quote) with 19. split; [done|]. exists 19. split; [done|].
      rewrite match_final by (rewrite !elem_of_cons; tauto). simpl. do 2 f_equal. lia.
  - destruct (str_next_state esc c Hq) as [Hs' Hacc].
    specialize (IH _ _ (S n) last' Hs'). rewrite Hacc in IH.
    change (default 0 (Some 0) =? 0) with true in IH.
    destruct (scan_string _ u) as [[a b]|].
    + destruct IH as (-> & s' & Hacc' & ->). split; [done|]. exists s'. split; [done|].
      do 2 f_equal. simpl. lia.
    + rewrite IH. done.
Qed.

Lemma flex_string s : flex_token (k_quote :: s) = Some (scan_token k_quote s).
Proof.
  assert (str_state false 7) as H7 by (unfold str_state; rewrite ?elem_of_cons; tauto).
  change (scan_token k_quote s) with
    (match scan_string false s with
     | Some (a, s) => (Ok (Some (STRING (k_quote :: a))), s)
     | None => (Ok (Some (CHAR k_quote)), s)
     end).
  unfold flex_token. rewrite match_first. change (first_state k_quote) with 7.
  pose proof (match_string false 7 s 1 None H7) as Hm. destruct (scan_string false s) as [[a b]|].
  - destruct Hm as (-> & s' & Hacc & ->). cbn [mbind option_bind]. rewrite Hacc.
    cbn [mbind option_bind flex_action]. change (k_quote :: a ++ b) with ((k_quote :: a) ++ b).
    change (1 + length a)%nat with (length (k_quote :: a)).
    by rewrite take_app_length, drop_app_length.
  - by rewrite Hm.
Qed.

(** ** Operators, white space and other characters *)

(** An operator of one character, or of two. *)
Lemma match_op s s2 second act u :
  (s, s2, second, act) ∈ [(10, 25, "~"%char, 1); (11, 26, "="%char, 3); (9, 24, "="%char, 5)] ->
  yy_match s u 1 None
  = Some (match u with c :: _ => if decide (c = second) then (s2, 2%nat) else (s, 1%nat) | [] => (s, 1%nat) end)
  /\ at_ yy_accept s = Some act /\ at_ yy_accept s2 = Some (act + 1).
Proof.
  intros Hs.
  assert (forall c, yy_next s c = Some (if decide (c = second) then s2 else yy_jam)) as Hnext.
  { intros c. pose proof (for_all_chars
      (fun c => bool_decide (yy_next s c = Some (if decide (c = second) then s2 else yy_jam)))) as Hall.
    apply (bool_decide_unpack _). apply Is_true_true_2. apply Hall. clear Hall.
    repeat (apply elem_of_cons in Hs as [[= -> -> -> ->]|Hs]; [vm_compute; reflexivity|]).
    by apply elem_of_nil in Hs. }
  assert (at_ yy_accept s = Some act /\ at_ yy_accept s2 = Some (act + 1) /\ act <> 0
    /\ s2 ∈ [4; 6; 19; 24; 25; 26] /\ (s2 =? yy_jam) = false) as (Hact & Hact2 & Hne & Hs2 & Hj).
  { repeat (apply elem_of_cons in Hs as [[= -> -> -> ->]|Hs];
      [repeat split; [done|rewrite !elem_of_cons; tauto]|]).
    by apply elem_of_nil in Hs. }
  split; [|done]. destruct u as [|c u]; cbn [yy_match]; rewrite (accept_last _ act) by done; [done|].
  rewrite Hnext. case_decide; [rewrite Hj; by apply match_final|done].
Qed.

Lemma flex_op s s2 second act short long c u :
  (s, s2, second, act) ∈ [(10, 25, "~"%char, 1); (11, 26, "="%char, 3); (9, 24, "="%char, 5)] ->
  first_state c = s ->
  (forall x, flex_action act x = Some (Ok (Some (OP short)))
   /\ flex_action (act + 1) x = Some (Ok (Some (OP long)))) ->
  flex_token (c :: u) = Some (let '(t, u) := scan_op short long second u in (Ok (Some t), u)).
Proof.
  intros Hs Hc Hop. destruct (match_op s s2 second act u Hs) as (Hm & Hact & Hact2).
  unfold flex_token. rewrite match_first, Hc, Hm. unfold scan_op. cbn [mbind option_bind].
  destruct u as [|d u]; [|case_decide]; rewrite ?Hact, ?Hact2; cbn [mbind option_bind];
    edestruct Hop as [H1 H2]; rewrite ?H1, ?H2; done.
Qed.

Definition is_white (c : ascii) : bool :=
  bool_decide (c = " "%char \/ c = "009"%char \/ c = "013"%char).

Lemma match_white s u n last :
  s = 5 \/ s = 17 ->
  exists s', (s' = 5 \/ s' = 17) /\ yy_match s u n last = Some (s', (n + length (span is_white u).1)%nat).
Proof.
  revert s n last. induction u as [|c u IH]; intros s n last Hs.
  - exists s. split; [done|]. simpl. rewrite Nat.add_0_r. by destruct Hs as [-> | ->].
  - assert (yy_next s c = Some (if is_white c then 17 else yy_jam)) as Hnext.
    { pose proof (for_all_chars
        (fun c => bool_decide (yy_next s c = Some (if is_white c then 17 else yy_jam)))) as Hall.
      apply (bool_decide_unpack _). apply Is_true_true_2. apply Hall.
      destruct Hs as [-> | ->]; vm_compute; reflexivity. }
    cbn [yy_match span]. rewrite Hnext. destruct (is_white c).
    + change (17 =? yy_jam) with false. cbv beta iota.
      edestruct (IH 17) as (s' & Hs' & ->); [by right|].
      exists s'. split; [done|]. destruct (span is_white u). simpl. do 2 f_equal. lia.
    + change (yy_jam =? yy_jam) with true. cbv beta iota. exists s. split; [done|]. simpl.
      rewrite Nat.add_0_r. by destruct Hs as [-> | ->].
Qed.

Lemma flex_white c s :
  is_white c = true -> flex_token (c :: s) = Some (Ok None, (span is_white s).2).
Proof.
  intros Hc. unfold flex_token. rewrite match_first.
  assert (first_state c = 5) as ->.
  { apply bool_decide_eq_true in Hc. by destruct Hc as [-> |[-> | ->]]. }
  destruct (match_white 5 s 1 None) as (s' & Hs' & ->); [by left|]. cbn [mbind option_bind].
  assert (at_ yy_accept s' = Some 17) as -> by (by destruct Hs' as [-> | ->]).
  cbn [mbind option_bind flex_action]. destruct (span is_white s) as [a b] eqn:Hspan.
  apply span_spec in Hspan as (-> & _). simpl. by rewrite drop_app_length.
Qed.

Lemma flex_other c s :
  is_alnum c = false -> is_white c = false ->
  flex_token (c :: s) = Some (scan_token c s).
Proof.
  intros Ha Hw. apply bool_decide_eq_false in Hw. unfold scan_token.
  destruct (decide (c = "="%char)) as [->|H1].
  { eapply (flex_op 10 25 _ 1); [rewrite !elem_of_cons; tauto|done..]. }
  destruct (decide (c = ">"%char)) as [->|H2].
  { eapply (flex_op 11 26 _ 3); [rewrite !elem_of_cons; tauto|done..]. }
  destruct (decide (c = "<"%char)) as [->|H3].
  { eapply (flex_op 9 24 _ 5); [rewrite !elem_of_cons; tauto|done..]. }
  rewrite Ha. destruct (decide (c = k_quote)) as [->|H4]; [apply flex_string|].
  rewrite decide_False by done. unfold flex_token. rewrite match_first. unfold first_state.
  rewrite Ha, !(decide_False (P := c = _)), decide_False by done. case_decide.
  - subst c. rewrite match_final by (rewrite !elem_of_cons; tauto). done.
  - rewrite match_final by (rewrite !elem_of_cons; tauto). done.
Qed.

(** ** All tokens *)

Lemma scan_fuel s f g :
  (length s <= f)%nat -> (length s <= g)%nat -> scan f s = scan g s.
Proof.
  revert s g. induction f as [|f IH]; intros [|c s] [|g] Hf Hg; simpl in *; try lia; try done.
  pose proof (scan_token_length c s) as Ht.
  destruct (scan_token c s) as [[t|x] rest]; [|done]. simpl in Ht. by rewrite (IH rest g) by lia.
Qed.

Lemma scan_white c s f :
  is_white c = true -> (length s <= f)%nat -> scan (S f) (c :: s) = scan f s.
Proof.
  intros Hc Hf. cbn [scan].
  assert (scan_token c s = (Ok None, s)) as ->.
  { apply bool_decide_eq_true in Hc. by destruct Hc as [-> |[-> | ->]]. }
  destruct (scan f s) as [[ts x]|]; done.
Qed.

Lemma scan_span_white s f :
  (length s <= f)%nat -> scan f (span is_white s).2 = scan f s.
Proof.
  revert f. induction s as [|c s IH]; intros f Hf; [done|]. cbn [span].
  destruct (is_white c) eqn:Hc; [|done]. destruct f as [|f]; simpl in Hf; [lia|].
  assert (length (span is_white s).2 <= length s)%nat as Hl.
  { destruct (span is_white s) as [a b] eqn:Hs. apply span_spec in Hs as (-> & _).
    rewrite length_app. simpl. lia. }
  rewrite scan_white by (done || lia). rewrite <- (IH f) by lia.
  destruct (span is_white s) as [a b]. apply scan_fuel; simpl in *; lia.
Qed.

Lemma flex_scan_scan f s : (length s <= f)%nat -> flex_scan f s = scan f s.
Proof.
  revert s. induction f as [|f IH]; intros [|c s] Hf; simpl in Hf; try lia; try done. cbn [flex_scan].
  destruct (is_white c) eqn:Hw.
  - rewrite flex_white, scan_white by (done || lia). cbn [mbind option_bind].
    rewrite <- scan_span_white by lia. rewrite IH.
    + by destruct (scan f _) as [[ts x]|].
    + destruct (span is_white s) as [a b] eqn:Hs. apply span_spec in Hs as (-> & _).
      rewrite length_app in Hf. simpl. lia.
  - assert (flex_token (c :: s) = Some (scan_token c s)) as ->.
    { destruct (is_alnum c) eqn:Ha; [by apply flex_word|by apply flex_other]. }
    pose proof (scan_token_length c s) as Ht. cbn [mbind option_bind scan].
    destruct (scan_token c s) as [[t|x] rest]; [|done]. simpl in Ht. by rewrite IH by lia.
Qed.

(** The scanner that [flex] generated and the rules of [scanner.ll] agree: on every
    input, walking the tables of [yylex] to the longest match, running the action of the
    state reached and going on behind the match gives, token for token, what the rules
    give ([Query.scan]): the same tokens and the same failure, if any.  [yylex] reads a
    character or more with every match, so the length of the input is enough fuel. *)
Theorem flex_scan_correct input :
  flex_scan (length input) input = scan (length input) input
  /\ is_Some (flex_scan (length input) input).
Proof. rewrite flex_scan_scan by done. split; [done|]. by apply scan_total. Qed.

(** ** Reading back a printed query *)


(** ** Concrete queries *)


