(* ===== verification/Location.v ===== *)
(** * Positions, locations and the stack of the parser

    [src/query/position.hh], [src/query/location.hh] and [src/query/stack.hh], which bison adds to
    the parser that it generates.  Lines and columns are [unsigned int]; the
    scanner advances a location by the text of every token. *)

From stdpp Require Import pretty.
From S2P Require Import Prelude.

Local Open Scope Z_scope.

(** A file name is a pointer to a string: the string it points to and where that is. *)
Record file_name : Type := MkFile { fn_address : Z; fn_string : string }.

Definition print_uint (n : Z) : string := pretty (Z.to_N n).

Module position.
Record t : Type := Mk { filename : option file_name; line : Z; column : Z }.

Definition initialize (fn : option file_name) (l c : Z) : t := Mk fn l c.

(** max(min, lhs + rhs), in 32 bits: [rhs] is an [int]. *)
Definition add_ (lhs rhs min : Z) : Z :=
  if (0 <? rhs) || (wrap32 (- wrap32 rhs) <? lhs) then wrap32 (rhs + lhs) else min.

Definition lines (count : Z) (p : t) : t :=
  if count =? 0 then p else Mk (filename p) (add_ (line p) count 1) 1.
Definition columns (count : Z) (p : t) : t := Mk (filename p) (line p) (add_ (column p) count 1).

(** [+=] and [+], [-=] and [-]. *)
Definition plus (p : t) (width : Z) : t := columns width p.
Definition minus (p : t) (width : Z) : t := plus p (- width).

Definition eqb (p q : t) : bool :=
  (line p =? line q) && (column p =? column q)
  && match filename p, filename q with
     | None, None => true
     | Some f, Some g => (fn_address f =? fn_address g) || bool_decide (fn_string f = fn_string g)
     | _, _ => false
     end.

Definition print (p : t) : string :=
  match filename p with Some f => fn_string f +:+ ":" | None => "" end
  +:+ print_uint (line p) +:+ "." +:+ print_uint (column p).
End position.

Module location.
Record t : Type := Mk { start : position.t; finish : position.t }.

(** The three constructors, and [initialize]. *)
Definition between (b e : position.t) : t := Mk b e.
Definition at_position (p : position.t) : t := Mk p p.
Definition initialize (f : option file_name) (l c : Z) : t := at_position (position.initialize f l c).

Definition step (loc : t) : t := Mk (finish loc) (finish loc).
Definition columns (count : Z) (loc : t) : t := Mk (start loc) (position.plus (finish loc) count).
Definition lines (count : Z) (loc : t) : t := Mk (start loc) (position.lines count (finish loc)).

Definition join (res e : t) : t := Mk (start res) (finish e).
Definition plus (res : t) (width : Z) : t := columns width res.
Definition minus (res : t) (width : Z) : t := plus res (- width).
Definition eqb (a b : t) : bool :=
  position.eqb (start a) (start b) && position.eqb (finish a) (finish b).

(** For another file its address is printed, not its name. *)
Definition print (print_address : Z -> string) (loc : t) : string :=
  let e := finish loc in
  let end_col := if 0 <? position.column e then position.column e - 1 else 0 in
  let other_file :=
    match position.filename e, position.filename (start loc) with
    | Some f, Some g => negb (bool_decide (fn_string g = fn_string f))
    | Some _, None => true
    | None, _ => false
    end in
  position.print (start loc)
  +:+ (if other_file then
         "-" +:+ match position.filename e with Some f => print_address (fn_address f) | None => "" end
         +:+ ":" +:+ print_uint (position.line e) +:+ "." +:+ print_uint end_col
       else if position.line (start loc) <? position.line e then
         "-" +:+ print_uint (position.line e) +:+ "." +:+ print_uint end_col
       else if position.column (start loc) <? end_col then "-" +:+ print_uint end_col
       else "").
End location.

(** ** The stack *)

(** [S] is a vector, whose last element is the top of the stack. *)
Module stack.
Section stack.
Context {T : Type}.
Record t : Type := Mk { seq_ : list T }.

Definition empty : t := Mk [].
(** [operator[]]; undefined beyond the bottom. *)
Definition get (s : t) (i : nat) : option T :=
  if (i <? length (seq_ s))%nat then seq_ s !! (length (seq_ s) - 1 - i)%nat else None.
Definition push (x : T) (s : t) : t := Mk (seq_ s ++ [x]).
(** [pop_back] of an empty vector is undefined. *)
Fixpoint pop_back (n : nat) (l : list T) : option (list T) :=
  match n with
  | O => Some l
  | S n' => match l with [] => None | _ => pop_back n' (removelast l) end
  end.
Definition pop (n : nat) (s : t) : option t := Mk <$> pop_back n (seq_ s).
Definition clear (_ : t) : t := empty.
Definition size (s : t) : nat := length (seq_ s).

(** [slice]: the last [range] elements and the one below, counted from there. *)
Definition slice (s : t) (range i : nat) : option T :=
  if (i <=? range)%nat then get s (range - i) else None.

(** The elements from the top, as [begin] and [end] enumerate them. *)
Definition elements (s : t) : list T := reverse (seq_ s).
End stack.
Arguments t : clear implicits.
End stack.

(** [YYLLOC_DEFAULT]: the location of what a rule with [n] symbols on its right-hand side makes. *)
Definition yylloc_default (rhs : nat -> option location.t) (n : nat) : option location.t :=
  match n with
  | O => (fun l => location.at_position (location.finish l)) <$> rhs O
  | S _ => a ← rhs 1%nat; b ← rhs n; Some (location.between (location.start a) (location.finish b))
  end.

(** ** Lemmas *)

(** The stack is a list with the top in front: [operator[]] is lookup, [push] is [::] and [pop] is
    [drop]. *)
Section stack_list.
Context {T : Type}.

Lemma stack_get (s : stack.t T) i : stack.get s i = stack.elements s !! i.
Proof.
  unfold stack.get, stack.elements. destruct (i <? length (stack.seq_ s))%nat eqn:Hi.
  - apply Nat.ltb_lt in Hi. symmetry. rewrite reverse_lookup by done. f_equal. lia.
  - apply Nat.ltb_ge in Hi. symmetry. apply lookup_ge_None_2. by rewrite length_reverse.
Qed.

Lemma stack_push (x : T) s : stack.elements (stack.push x s) = x :: stack.elements s.
Proof. unfold stack.elements, stack.push. cbn [stack.seq_]. by rewrite reverse_snoc. Qed.

Lemma stack_pop n (s : stack.t T) :
  (n <= stack.size s)%nat ->
  exists s', stack.pop n s = Some s' /\ stack.elements s' = drop n (stack.elements s).
Proof.
  unfold stack.pop, stack.elements, stack.size. destruct s as [l]. cbn [stack.seq_]. revert l.
  induction n as [|n IH]; intros l Hn; [by eexists|].
  destruct (reverse l) as [|x r] eqn:Hr.
  { apply (f_equal length) in Hr. rewrite length_reverse in Hr. cbn in Hr. lia. }
  apply (f_equal reverse) in Hr. rewrite reverse_involutive, reverse_cons in Hr. subst l.
  destruct (IH (reverse r)) as (s' & Hp & He).
  { rewrite length_app in Hn. cbn in Hn. lia. }
  exists s'. rewrite reverse_involutive in He. cbn [drop]. split; [|done].
  cbn [stack.pop_back]. destruct (reverse r ++ [x]) eqn:Hx; [by destruct (reverse r)|]. rewrite <- Hx, removelast_last. exact Hp.
Qed.

Lemma stack_slice (s : stack.t T) range i :
  (i <= range)%nat -> stack.slice s range i = stack.elements s !! (range - i)%nat.
Proof. intros Hi. unfold stack.slice. rewrite (proj2 (Nat.leb_le _ _) Hi). apply stack_get. Qed.
End stack_list.

(** ** Following a text *)

(** Where a reader is after a character: a line feed begins a line. *)
Definition advance (p : position.t) (c : ascii) : position.t :=
  if decide (c = "010"%char) then position.Mk (position.filename p) (wrap32 (position.line p + 1)) 1
  else position.Mk (position.filename p) (position.line p) (wrap32 (position.column p + 1)).

(** Within a line. *)
Lemma advance_line u p :
  Forall (fun c => c <> "010"%char) u -> 0 <= position.column p < two32 ->
  foldl advance p u = position.Mk (position.filename p) (position.line p)
                        (wrap32 (Z.of_nat (length u) + position.column p)).
Proof.
  intros Hu. revert p. induction Hu as [|c u Hc _ IH]; intros [f l k] Hk; cbn [foldl length position.filename position.line position.column] in *.
  - f_equal. unfold wrap32. by rewrite Z.mod_small.
  - rewrite IH; unfold advance; rewrite decide_False by done; cbn.
    + f_equal. rewrite Z.add_comm, wrap32_add. f_equal. lia.
    + unfold wrap32. apply Z.mod_pos_bound. done.
Qed.

Lemma columns_advance u p :
  Forall (fun c => c <> "010"%char) u -> u <> [] -> 0 <= position.column p < two32 ->
  position.columns (Z.of_nat (length u)) p = foldl advance p u.
Proof.
  intros Hu Hne Hk. rewrite advance_line by done. unfold position.columns, position.add_.
  destruct u; [done|]. by rewrite (proj2 (Z.ltb_lt 0 _)) by (cbn [length]; lia).
Qed.

Lemma newline_advance p :
  position.lines 1 p = advance p "010"%char.
Proof.
  unfold position.lines, position.add_, advance. cbn. by rewrite Z.add_comm.
Qed.
