(* ===== verification/FlexBuffer.v ===== *)
(** * The input buffer of the generated scanner

    [src/query/scanner.cpp] again, now as it works on a buffer: the text is read from a stream in
    blocks, two NUL characters mark the end of what has been read, the character behind a token is held
    back while NUL stands in its place, and a match that runs into the end of the buffer is moved to the
    front, more is read, and the automaton is brought back to its state.  Also the locations of
    the tokens.  The main theorem is that the tokens are those of [Flex.flex_scan] on the
    whole input.

    Pointers into the buffer are indices.  [None] is undefined behaviour, a fatal error of the
    scanner, or that the fuel has run out.  Memory that is not initialised holds [junk]. *)

From S2P Require Import Prelude Query Lalr Flex Location.

Local Open Scope Z_scope.

Definition NUL : ascii := "000"%char.

(** Conversion to [int]. *)
Definition to_i32 (z : Z) : Z := (z + 2 ^ 31) mod 2 ^ 32 - 2 ^ 31.

(** ** [std::istringstream] *)

Record istream : Type := MkStream { unread : list ascii; eof : bool }.
(** [read]: fewer characters than wanted set [eofbit] and [failbit]. *)
Definition stream_read (n : nat) (s : istream) : list ascii * istream :=
  (take n (unread s), MkStream (drop n (unread s)) (eof s || (length (unread s) <? n)%nat)).

(** ** The state of the scanner *)

Inductive buffer_status : Type := BUFFER_NEW | BUFFER_NORMAL | BUFFER_EOF_PENDING.
#[global] Instance buffer_status_eq_dec : EqDecision buffer_status.
Proof. solve_decision. Defined.

(** [yy_fill_buffer] and [yy_is_our_buffer] are always 1, and there is one buffer. *)
Record lexer : Type := MkLexer {
  yyin : istream;
  (** of the current buffer *)
  yy_ch_buf : list ascii;
  yy_buf_size : nat;
  buf_n_chars : nat;
  yy_buffer_status : buffer_status;
  (** of the scanner *)
  yy_n_chars : nat;
  yy_c_buf_p : nat;
  yytext_ptr : nat;
  yy_hold_char : ascii;
  last_accepting_state : Z;
  last_accepting_cpos : nat
}.

Definition put (i : nat) (c : ascii) (l : lexer) : lexer :=
  MkLexer (yyin l) (<[i := c]> (yy_ch_buf l)) (yy_buf_size l) (buf_n_chars l) (yy_buffer_status l)
    (yy_n_chars l) (yy_c_buf_p l) (yytext_ptr l) (yy_hold_char l)
    (last_accepting_state l) (last_accepting_cpos l).
Definition set_c_buf_p (p : nat) (l : lexer) : lexer :=
  MkLexer (yyin l) (yy_ch_buf l) (yy_buf_size l) (buf_n_chars l) (yy_buffer_status l)
    (yy_n_chars l) p (yytext_ptr l) (yy_hold_char l)
    (last_accepting_state l) (last_accepting_cpos l).
Definition set_last (state : Z) (cpos : nat) (l : lexer) : lexer :=
  MkLexer (yyin l) (yy_ch_buf l) (yy_buf_size l) (buf_n_chars l) (yy_buffer_status l)
    (yy_n_chars l) (yy_c_buf_p l) (yytext_ptr l) (yy_hold_char l) state cpos.
Definition set_status (n : nat) (s : buffer_status) (l : lexer) : lexer :=
  MkLexer (yyin l) (yy_ch_buf l) (yy_buf_size l) (buf_n_chars l) s
    n (yy_c_buf_p l) (yytext_ptr l) (yy_hold_char l)
    (last_accepting_state l) (last_accepting_cpos l).

Section buffer.
Variable junk : ascii.
Variables YY_BUF_SIZE YY_READ_BUF_SIZE : nat.

(** [realloc]. *)
Definition realloc (n : nat) (m : list ascii) : list ascii := take n m ++ replicate (n - length m) junk.

(** ** Buffers *)

(** [yy_flush_buffer] with [yy_load_buffer_state]. *)
Definition yy_flush_buffer (l : lexer) : lexer :=
  MkLexer (yyin l) (<[1%nat := NUL]> (<[0%nat := NUL]> (yy_ch_buf l))) (yy_buf_size l) 0 BUFFER_NEW
    0 0 0 NUL (last_accepting_state l) (last_accepting_cpos l).
Definition yyrestart (l : lexer) : lexer := yy_flush_buffer l.

(** [yy_create_buffer], at the first call of [yylex]. *)
Definition yy_create_buffer (input : istream) : lexer :=
  yy_flush_buffer (MkLexer input (replicate (YY_BUF_SIZE + 2) junk) YY_BUF_SIZE 0 BUFFER_NEW 0 0 0 NUL 0 0).

Definition LexerInput (max_size : nat) (s : istream) : list ascii * istream :=
  if eof s then ([], s) else stream_read max_size s.

(** The loop that makes room; [new_size] is an [int]. *)
Fixpoint grow (fuel : nat) (number_to_move : nat) (m : list ascii) (size : nat) : option (list ascii * nat) :=
  if 0 <? Z.of_nat size - Z.of_nat number_to_move - 1 then Some (m, size)
  else
    match fuel with
    | O => None
    | S fuel' =>
        let new_size := to_i32 (Z.of_nat size * 2) in
        let size := if new_size <=? 0 then (size + size / 8)%nat else (size * 2)%nat in
        grow fuel' number_to_move (realloc (size + 2) m) size
    end.

Inductive eob_act : Type := EOB_ACT_CONTINUE_SCAN | EOB_ACT_END_OF_FILE | EOB_ACT_LAST_MATCH.

(** What is in the buffer once more has been read behind the characters that were moved: its
    contents, its size, the number of characters read and the stream. *)
Definition yy_fill (number_to_move : nat) (m : list ascii) (l : lexer)
  : option (list ascii * nat * nat * istream) :=
  match yy_buffer_status l with
  | BUFFER_EOF_PENDING => Some (m, yy_buf_size l, 0%nat, yyin l)
  | _ =>
      '(m, size) ← grow 2 number_to_move m (yy_buf_size l);
      let num_to_read := Nat.min (size - number_to_move - 1) YY_READ_BUF_SIZE in
      let '(got, s) := LexerInput num_to_read (yyin l) in
      Some (take number_to_move m ++ got ++ drop (number_to_move + length got) m, size, length got, s)
  end.

Definition yy_get_next_buffer (l : lexer) : option (eob_act * lexer) :=
  if (yy_n_chars l + 1 <? yy_c_buf_p l)%nat then None
  else
    let number_to_move := (yy_c_buf_p l - yytext_ptr l - 1)%nat in
    (* the characters are copied forwards, to a place that is not behind theirs *)
    let m := take number_to_move (drop (yytext_ptr l) (yy_ch_buf l)) ++ drop number_to_move (yy_ch_buf l) in
    '(m, size, n, s) ← yy_fill number_to_move m l;
    let l := MkLexer s m size n (yy_buffer_status l) n (yy_c_buf_p l) (yytext_ptr l) (yy_hold_char l)
               (last_accepting_state l) (last_accepting_cpos l) in
    let '(ret_val, l) :=
      if (n =? 0)%nat then
        if (number_to_move =? 0)%nat then (EOB_ACT_END_OF_FILE, yyrestart l)
        else (EOB_ACT_LAST_MATCH, set_status n BUFFER_EOF_PENDING l)
      else (EOB_ACT_CONTINUE_SCAN, l) in
    let m := if (yy_buf_size l <? n + number_to_move)%nat
             then realloc (n + number_to_move + n / 2) (yy_ch_buf l) else yy_ch_buf l in
    let n := (n + number_to_move)%nat in
    if (n + 1 <? length m)%nat then
      Some (ret_val,
            MkLexer (yyin l) (<[(n + 1)%nat := NUL]> (<[n := NUL]> m)) (yy_buf_size l) (buf_n_chars l)
              (yy_buffer_status l) n (yy_c_buf_p l) 0 (yy_hold_char l)
              (last_accepting_state l) (last_accepting_cpos l))
    else None.

(** ** The automaton on the buffer *)

Definition sc_to_ec (c : ascii) : option Z := at_ yy_ec (Z.of_N (N_of_ascii c)).

Definition note_accept (state : Z) (cp : nat) (l : lexer) : option lexer :=
  a ← at_ yy_accept state;
  Some (if a =? 0 then l else set_last state cp l).

(** The loop at [yy_match], with the two assignments behind it. *)
Fixpoint match_loop (fuel : nat) (state : Z) (cp : nat) (l : lexer) : option (Z * nat * lexer) :=
  match fuel with
  | O => None
  | S fuel' =>
      c ← yy_ch_buf l !! cp;
      yy_c ← sc_to_ec c;
      l ← note_accept state cp l;
      state ← yy_find 3 state yy_c;
      if state =? yy_jam then Some (last_accepting_state l, last_accepting_cpos l, l)
      else match_loop fuel' state (S cp) l
  end.

(** [yy_get_previous_state] over [n] characters. *)
Fixpoint previous_loop (n : nat) (state : Z) (cp : nat) (l : lexer) : option (Z * lexer) :=
  match n with
  | O => Some (state, l)
  | S n' =>
      c ← yy_ch_buf l !! cp;
      l ← note_accept state cp l;
      state ← yy_find 3 state (yy_class c);
      previous_loop n' state (S cp) l
  end.
Definition yy_get_previous_state (l : lexer) : option (Z * lexer) :=
  previous_loop (yy_c_buf_p l - yytext_ptr l) 1 (yytext_ptr l) l.

(** [None] inside for a jam. *)
Definition yy_try_NUL_trans (state : Z) (l : lexer) : option (option Z * lexer) :=
  l ← note_accept state (yy_c_buf_p l) l;
  state ← yy_find 3 state 1;
  Some (if state =? yy_jam then None else Some state, l).

Definition YY_DO_BEFORE_ACTION (bp cp : nat) (l : lexer) : option lexer :=
  c ← yy_ch_buf l !! cp;
  Some (MkLexer (yyin l) (<[cp := NUL]> (yy_ch_buf l)) (yy_buf_size l) (buf_n_chars l) (yy_buffer_status l)
          (yy_n_chars l) cp bp c (last_accepting_state l) (last_accepting_cpos l)).

(** ** [yylex] *)

(** The number of a rule with the text, or the end of the file. *)
Inductive lexed : Type := LRule (act : Z) (yytext : list ascii) | LEof.

(** From [yy_match], or from [yy_find_action] if [find] is set. *)
Fixpoint yy_scan (fuel : nat) (find : bool) (bp : nat) (state : Z) (cp : nat) (l : lexer)
  : option (lexed * lexer) :=
  match fuel with
  | O => None
  | S fuel' =>
      '(state, cp, l) ← (if find then Some (state, cp, l) else match_loop (length (yy_ch_buf l)) state cp l);
      yy_act ← at_ yy_accept state;
      l ← YY_DO_BEFORE_ACTION bp cp l;
      if yy_act =? 0 then
        (* must back up *)
        yy_scan fuel' true bp (last_accepting_state l) (last_accepting_cpos l) (put cp (yy_hold_char l) l)
      else if yy_act =? 21 then
        (* end of buffer *)
        let matched := (cp - yytext_ptr l - 1)%nat in
        let l := put cp (yy_hold_char l) l in
        let l := match yy_buffer_status l with
                 | BUFFER_NEW => set_status (buf_n_chars l) BUFFER_NORMAL l
                 | _ => l
                 end in
        if (yy_c_buf_p l <=? yy_n_chars l)%nat then
          (* this was really a NUL *)
          '(state, l) ← yy_get_previous_state (set_c_buf_p (yytext_ptr l + matched)%nat l);
          '(next, l) ← yy_try_NUL_trans state l;
          match next with
          | Some state =>
              let l := set_c_buf_p (S (yy_c_buf_p l)) l in
              yy_scan fuel' false (yytext_ptr l) state (yy_c_buf_p l) l
          | None => yy_scan fuel' true (yytext_ptr l) (last_accepting_state l) (last_accepting_cpos l) l
          end
        else
          '(r, l) ← yy_get_next_buffer l;
          match r with
          | EOB_ACT_END_OF_FILE => Some (LEof, set_c_buf_p (yytext_ptr l) l)
          | EOB_ACT_CONTINUE_SCAN =>
              '(state, l) ← yy_get_previous_state (set_c_buf_p (yytext_ptr l + matched)%nat l);
              yy_scan fuel' false (yytext_ptr l) state (yy_c_buf_p l) l
          | EOB_ACT_LAST_MATCH =>
              '(state, l) ← yy_get_previous_state (set_c_buf_p (yy_n_chars l) l);
              yy_scan fuel' true (yytext_ptr l) state (yy_c_buf_p l) l
          end
      else Some (LRule yy_act (take (cp - bp) (drop bp (yy_ch_buf l))), l)
  end.

(** One turn of the loop of [yylex]. *)
Definition scan_rule (fuel : nat) (l : lexer) : option (lexed * lexer) :=
  let cp := yy_c_buf_p l in
  yy_scan fuel false cp 1 cp (put cp (yy_hold_char l) l).

(** What the actions do to [yylloc]. *)
Definition locate (act : Z) (yytext : list ascii) (loc : location.t) : location.t :=
  let yyleng := Z.of_nat (length yytext) in
  let loc := location.columns yyleng loc in
  if act =? 17 then location.step loc
  else if act =? 18 then location.step (location.lines yyleng loc)
  else loc.

(** [yylex]: a token, with the location; white space leads to another turn. *)
Fixpoint lex_loop (fuel : nat) (loc : location.t) (l : lexer)
  : option (option (result token) * location.t * lexer) :=
  match fuel with
  | O => None
  | S fuel' =>
      '(r, l) ← scan_rule fuel l;
      match r with
      | LEof => Some (None, loc, l)
      | LRule act yytext =>
          r ← flex_action act yytext;
          let loc := locate act yytext loc in
          match r with
          | Throw x => Some (Some (Throw x), loc, l)
          | Ok (Some t) => Some (Some (Ok t), loc, l)
          | Ok None => lex_loop fuel' loc l
          end
      end
  end.
Definition yylex (fuel : nat) (loc : location.t) (l : lexer) :=
  lex_loop fuel (location.step loc) l.

(** The tokens until the end of the input, with their locations, or until something undefined;
    and the location there. *)
Fixpoint lex_all (calls fuel : nat) (loc : location.t) (l : lexer)
  : option (list (token * location.t) * (location.t * option exn)) :=
  match calls with
  | O => None
  | S calls' =>
      '(r, loc, l) ← yylex fuel loc l;
      match r with
      | None => Some ([], (loc, None))
      | Some (Throw x) => Some ([], (loc, Some x))
      | Some (Ok t) => '(ts, x) ← lex_all calls' fuel loc l; Some ((t, loc) :: ts, x)
      end
  end.
End buffer.

(** ** Facts about the tables *)

(** The states that can be reached, without the jam. *)
Definition yy_states : list Z := 1 :: seqZ 4 42.

Lemma next_states s c :
  s ∈ yy_states -> exists s', yy_next s c = Some s' /\ (s' = yy_jam \/ s' ∈ yy_states).
Proof.
  intros Hs. pose (P c := forallb (fun s => match yy_next s c with
    | Some s' => bool_decide (s' = yy_jam \/ s' ∈ yy_states) | None => false end) yy_states).
  assert (P c = true) as Hc by (apply for_all_chars; vm_compute; reflexivity).
  unfold P in Hc. rewrite forallb_forall in Hc. apply list_elem_of_In in Hs. specialize (Hc s Hs).
  destruct (yy_next s c) as [s'|]; [|done]. exists s'. split; [done|]. by apply bool_decide_eq_true in Hc.
Qed.

(** Every state accepts, or not, by a rule. *)
Lemma accept_states s :
  s ∈ yy_states -> exists a, at_ yy_accept s = Some a /\ a <> 21.
Proof.
  intros Hs. assert (forallb (fun s => match at_ yy_accept s with Some a => negb (a =? 21) | None => false end)
    yy_states = true) as Hall by (vm_compute; reflexivity).
  rewrite forallb_forall in Hall. apply list_elem_of_In in Hs. specialize (Hall s Hs).
  destruct (at_ yy_accept s) as [a|]; [|done]. exists a. split; [done|].
  apply negb_true_iff, Z.eqb_neq in Hall. done.
Qed.

(** Class 0, which only NUL has, leads to the state for the end of the buffer. *)
Lemma eob_next s : s ∈ yy_states -> yy_find 3 s 0 = Some 3.
Proof.
  intros Hs. assert (forallb (fun s => bool_decide (yy_find 3 s 0 = Some 3)) yy_states = true) as Hall
    by (vm_compute; reflexivity).
  rewrite forallb_forall in Hall. apply list_elem_of_In in Hs. apply (bool_decide_eq_true_1 _ (Hall s Hs)).
Qed.

Lemma class_char c : exists k, sc_to_ec c = Some k /\ yy_find 3 3 k = Some yy_jam
  /\ k = if decide (c = NUL) then 0 else yy_class c.
Proof.
  pose (P c := match sc_to_ec c with
    | Some k => bool_decide (yy_find 3 3 k = Some yy_jam)
                && bool_decide (k = if decide (c = NUL) then 0 else yy_class c)
    | None => false end).
  assert (P c = true) as Hc by (apply for_all_chars; vm_compute; reflexivity).
  unfold P in Hc. destruct (sc_to_ec c) as [k|]; [|done]. exists k. split; [done|].
  apply andb_true_iff in Hc as [H1 H2]. apply bool_decide_eq_true in H1, H2. done.
Qed.

(** After one character there is something to go back to. *)
Lemma first_accepts c s : yy_next 1 c = Some s -> s <> yy_jam /\ exists a, at_ yy_accept s = Some a /\ a <> 0.
Proof.
  intros Hs. pose (P c := match yy_next 1 c with
    | Some s => bool_decide (s <> yy_jam)
                && match at_ yy_accept s with Some a => negb (a =? 0) | None => false end
    | None => false end).
  assert (P c = true) as Hc by (apply for_all_chars; vm_compute; reflexivity).
  unfold P in Hc. rewrite Hs in Hc. apply andb_true_iff in Hc as [H1 H2]. apply bool_decide_eq_true in H1.
  split; [done|]. destruct (at_ yy_accept s) as [a|]; [|done]. exists a. split; [done|].
  by apply negb_true_iff, Z.eqb_neq in H2.
Qed.

(** ** Runs of the automaton *)

Definition with_accept (s : Z) (n : nat) (last : option (Z * nat)) : option (Z * nat) :=
  if default 0 (at_ yy_accept s) =? 0 then last else Some (s, n).

(** The state after a text and what was accepted on the way; [None] for a jam. *)
Fixpoint yy_path (s : Z) (u : list ascii) (n : nat) (last : option (Z * nat)) : option (Z * option (Z * nat)) :=
  match u with
  | [] => Some (s, last)
  | c :: u' =>
      match yy_next s c with
      | Some s' => if s' =? yy_jam then None else yy_path s' u' (S n) (with_accept s n last)
      | None => None
      end
  end.

Lemma yy_path_app s u v n last :
  yy_path s (u ++ v) n last = r ← yy_path s u n last; yy_path r.1 v (n + length u) r.2.
Proof.
  revert s n last. induction u as [|c u IH]; intros s n last; cbn [app yy_path length].
  { by rewrite Nat.add_0_r. }
  destruct (yy_next s c) as [s'|]; [|done]. destruct (s' =? yy_jam); [done|].
  rewrite IH. by replace (S n + length u)%nat with (n + S (length u))%nat by lia.
Qed.

Lemma yy_path_states s u n last s' last' :
  s ∈ yy_states -> yy_path s u n last = Some (s', last') -> s' ∈ yy_states.
Proof.
  revert s n last. induction u as [|c u IH]; intros s n last Hs; cbn [yy_path]; [by intros [= <- <-]|].
  destruct (next_states s c Hs) as (s1 & -> & [->|Hs1]); [done|].
  destruct (s1 =? yy_jam); [done|]. by apply IH.
Qed.

Lemma yy_match_path s u v n last s' last' :
  yy_path s u n last = Some (s', last') -> yy_match s (u ++ v) n last = yy_match s' v (n + length u) last'.
Proof.
  revert s n last. induction u as [|c u IH]; intros s n last; cbn [app yy_path length].
  { intros [= <- <-]. by rewrite Nat.add_0_r. }
  cbn [yy_match]. destruct (yy_next s c) as [s1|]; [|done]. destruct (s1 =? yy_jam); [done|].
  intros Hp. unfold with_accept in Hp. rewrite (IH _ _ _ Hp). by replace (S n + length u)%nat with (n + S (length u))%nat by lia.
Qed.

Lemma yy_match_jam s u v n last :
  s ∈ yy_states -> yy_path s u n last = None -> yy_match s (u ++ v) n last = yy_match s u n last.
Proof.
  revert s n last. induction u as [|c u IH]; intros s n last Hs; cbn [app yy_path]; [done|].
  cbn [yy_match]. destruct (next_states s c Hs) as (s1 & -> & Hs1).
  destruct (s1 =? yy_jam) eqn:Hj; [done|]. apply IH. destruct Hs1 as [->|]; done.
Qed.

(** What is accepted is a state that accepts. *)
Definition good_last (n : nat) (last : option (Z * nat)) : Prop :=
  match last with
  | Some (st, k) => (k <= n)%nat /\ exists a, at_ yy_accept st = Some a /\ a <> 0 /\ a <> 21
  | None => True
  end.

Lemma with_accept_good s n last :
  s ∈ yy_states -> good_last n last -> good_last n (with_accept s n last).
Proof.
  intros Hs Hl. unfold with_accept. destruct (accept_states s Hs) as (a & Ha & H21). rewrite Ha. cbn.
  destruct (a =? 0) eqn:H0; [done|]. split; [done|]. exists a. by apply Z.eqb_neq in H0.
Qed.

Lemma good_last_mono n n' last : (n <= n')%nat -> good_last n last -> good_last n' last.
Proof. destruct last as [[st k]|]; [|done]. intros Hn [Hk Ha]. split; [lia|done]. Qed.

Lemma yy_path_good s u n last s' last' :
  s ∈ yy_states -> good_last n last -> yy_path s u n last = Some (s', last') -> good_last (n + length u) last'.
Proof.
  revert s n last. induction u as [|c u IH]; intros s n last Hs Hl; cbn [yy_path length].
  { intros [= <- <-]. by rewrite Nat.add_0_r. }
  destruct (next_states s c Hs) as (s1 & -> & Hs1). destruct (s1 =? yy_jam) eqn:Hj; [done|].
  intros Hp. replace (n + S (length u))%nat with (S n + length u)%nat by lia. eapply IH; [| |exact Hp].
  - by destruct Hs1 as [->|].
  - eapply (good_last_mono n); [lia|]. by apply with_accept_good.
Qed.

Lemma yy_match_good s u n last :
  s ∈ yy_states -> good_last n last -> good_last (n + length u) (yy_match s u n last).
Proof.
  revert s n last. induction u as [|c u IH]; intros s n last Hs Hl; cbn [yy_match length].
  { rewrite Nat.add_0_r. by apply with_accept_good. }
  destruct (next_states s c Hs) as (s1 & -> & Hs1). fold (with_accept s n last). destruct (s1 =? yy_jam) eqn:Hj.
  - eapply (good_last_mono n); [lia|]. by apply with_accept_good.
  - replace (n + S (length u))%nat with (S n + length u)%nat by lia. apply IH; [by destruct Hs1 as [->|]|].
    eapply (good_last_mono n); [lia|]. by apply with_accept_good.
Qed.

(** ** The loops over the buffer *)

(** Scanners that differ only in what was accepted. *)
Definition same (l l' : lexer) : Prop := l' = set_last (last_accepting_state l') (last_accepting_cpos l') l.
Definition holds (bp : nat) (last : option (Z * nat)) (l : lexer) : Prop :=
  match last with
  | Some (st, k) => last_accepting_state l = st /\ last_accepting_cpos l = (bp + k)%nat
  | None => True
  end.

Lemma same_refl l : same l l.
Proof. by destruct l. Qed.
Lemma same_trans l1 l2 l3 : same l1 l2 -> same l2 l3 -> same l1 l3.
Proof. unfold same. intros -> ->. done. Qed.
Lemma same_buf l l' : same l l' -> yy_ch_buf l' = yy_ch_buf l.
Proof. by intros ->. Qed.

Lemma note_accept_holds s bp n last l :
  s ∈ yy_states -> holds bp last l ->
  exists l', note_accept s (bp + n) l = Some l' /\ same l l' /\ holds bp (with_accept s n last) l'.
Proof.
  intros Hs Hh. unfold note_accept, with_accept. destruct (accept_states s Hs) as (a & -> & _). cbn.
  eexists. split; [reflexivity|]. destruct (a =? 0); [by split; [apply same_refl|]|]. by split.
Qed.

Lemma previous_loop_path u : forall s bp n last l s' last',
  s ∈ yy_states -> holds bp last l ->
  (forall i c, u !! i = Some c -> yy_ch_buf l !! (bp + n + i)%nat = Some c) ->
  yy_path s u n last = Some (s', last') ->
  exists l', previous_loop (length u) s (bp + n) l = Some (s', l') /\ same l l' /\ holds bp last' l'.
Proof.
  induction u as [|c u IH]; intros s bp n last l s' last' Hs Hh Hu; cbn [yy_path length previous_loop].
  { intros [= <- <-]. exists l. by split; [|split; [apply same_refl|]]. }
  pose proof (Hu 0%nat c eq_refl) as Hc. rewrite Nat.add_0_r in Hc. rewrite Hc. cbn [mbind option_bind].
  destruct (note_accept_holds s bp n last l Hs Hh) as (l1 & -> & Hl1 & Hh1). cbn [mbind option_bind].
  destruct (next_states s c Hs) as (s1 & Hn & Hs1). unfold yy_next in Hn |- *. rewrite Hn. cbn [mbind option_bind].
  destruct (s1 =? yy_jam) eqn:Hj; [done|]. intros Hp.
  destruct (IH s1 bp (S n) (with_accept s n last) l1 s' last') as (l2 & Hl2 & Hs2 & Hh2).
  - by destruct Hs1 as [->|].
  - exact Hh1.
  - intros i c' Hi. rewrite (same_buf _ _ Hl1). replace (bp + S n + i)%nat with (bp + n + S i)%nat by lia. by apply Hu.
  - exact Hp.
  - exists l2. replace (S (bp + n)) with (bp + S n)%nat by lia. split; [exact Hl2|].
    split; [by eapply same_trans|done].
Qed.

Lemma match_loop_path v : forall fuel s bp n last l,
  s ∈ yy_states -> holds bp last l -> Forall (fun c => c <> NUL) v ->
  (forall i c, v !! i = Some c -> yy_ch_buf l !! (bp + n + i)%nat = Some c) -> (length v < fuel)%nat ->
  match yy_path s v n last with
  | Some (s', last') =>
      exists l', match_loop fuel s (bp + n) l = match_loop (fuel - length v) s' (bp + n + length v) l'
      /\ same l l' /\ holds bp last' l'
  | None =>
      forall st k, yy_match s v n last = Some (st, k) ->
      exists l', match_loop fuel s (bp + n) l = Some (st, (bp + k)%nat, l') /\ same l l'
  end.
Proof.
  induction v as [|c v IH]; intros fuel s bp n last l Hs Hh Hnul Hv Hfuel; cbn [yy_path length].
  { exists l. rewrite Nat.sub_0_r, Nat.add_0_r. by split; [|split; [apply same_refl|]]. }
  apply Forall_cons_iff in Hnul as [Hc Hnul]. destruct fuel as [|fuel]; [lia|].
  pose proof (Hv 0%nat c eq_refl) as Hb. rewrite Nat.add_0_r in Hb.
  destruct (class_char c) as (k & Hk & _ & Hkc). rewrite decide_False in Hkc by done. subst k.
  destruct (note_accept_holds s bp n last l Hs Hh) as (l1 & Hl1 & Hsm & Hh1).
  destruct (next_states s c Hs) as (s1 & Hn & Hs1).
  assert (match_loop (S fuel) s (bp + n) l =
    if s1 =? yy_jam then Some (last_accepting_state l1, last_accepting_cpos l1, l1)
    else match_loop fuel s1 (bp + S n) l1) as Hstep.
  { cbn [match_loop]. rewrite Hb. cbn [mbind option_bind]. rewrite Hk. cbn [mbind option_bind].
    rewrite Hl1. cbn [mbind option_bind]. unfold yy_next in Hn. rewrite Hn. cbn [mbind option_bind].
    by replace (S (bp + n)) with (bp + S n)%nat by lia. }
  rewrite Hn, Hstep. destruct (s1 =? yy_jam) eqn:Hj.
  - intros st k. cbn [yy_match]. rewrite Hn, Hj. fold (with_accept s n last). intros Hw. rewrite Hw in Hh1.
    destruct Hh1 as [-> ->]. by eexists.
  - assert (s1 ∈ yy_states) as Hs1' by (by destruct Hs1 as [->|]).
    assert (forall i c', v !! i = Some c' -> yy_ch_buf l1 !! (bp + S n + i)%nat = Some c') as Hv1.
    { intros i c' Hi. rewrite (same_buf _ _ Hsm). replace (bp + S n + i)%nat with (bp + n + S i)%nat by lia. by apply Hv. }
    specialize (IH fuel s1 bp (S n) _ l1 Hs1' Hh1 Hnul Hv1 ltac:(cbn in Hfuel; lia)).
    destruct (yy_path s1 v (S n) (with_accept s n last)) as [[s' last']|].
    + destruct IH as (l' & -> & Hsm' & Hh'). exists l'. split; [|by split; [eapply same_trans|]].
      replace (S fuel - S (length v))%nat with (fuel - length v)%nat by lia.
      by replace (bp + n + S (length v))%nat with (bp + S n + length v)%nat by lia.
    + intros st k. cbn [yy_match]. rewrite Hn, Hj. fold (with_accept s n last). intros Hm.
      destruct (IH st k Hm) as (l' & -> & Hsm'). exists l'. split; [done|by eapply same_trans].
Qed.

(** At a NUL the loop goes on by one character and stops there. *)
Lemma match_loop_nul fuel s cp l c :
  s ∈ yy_states -> (2 <= fuel)%nat -> yy_ch_buf l !! cp = Some NUL -> yy_ch_buf l !! S cp = Some c ->
  exists l', match_loop fuel s cp l = Some (3, S cp, l') /\ same l l'.
Proof.
  intros Hs Hfuel Hnul Hc. destruct fuel as [|[|fuel]]; [lia|lia|]. cbn [match_loop]. rewrite Hnul. cbn [mbind option_bind].
  change (sc_to_ec NUL) with (Some 0). cbn [mbind option_bind].
  destruct (accept_states s Hs) as (a & Ha & _).
  assert (note_accept s cp l = Some (if a =? 0 then l else set_last s cp l)) as ->
    by (unfold note_accept; by rewrite Ha).
  cbn [mbind option_bind]. rewrite (eob_next s Hs). cbn [mbind option_bind]. change (3 =? yy_jam) with false. cbn match.
  set (l1 := if a =? 0 then l else set_last s cp l).
  assert (yy_ch_buf l1 = yy_ch_buf l) as Hb by (unfold l1; by destruct (a =? 0)).
  rewrite Hb, Hc. cbn [mbind option_bind]. destruct (class_char c) as (k & -> & Hk & _). cbn [mbind option_bind].
  change (note_accept 3 (S cp) l1) with (Some (set_last 3 (S cp) l1)). cbn [mbind option_bind]. rewrite Hk.
  cbn [mbind option_bind]. rewrite Z.eqb_refl. eexists. split; [reflexivity|]. unfold l1. by destruct (a =? 0).
Qed.

Lemma start_state : 1 ∈ yy_states.
Proof. by_decide. Qed.

(** Once a state accepts there is a match, no shorter than that. *)
Lemma yy_match_some m u : forall s n last,
  s ∈ yy_states -> (m <= n)%nat -> with_accept s n last <> None ->
  (forall st k, last = Some (st, k) -> (m <= k)%nat) ->
  exists st k, yy_match s u n last = Some (st, k) /\ (m <= k)%nat.
Proof.
  assert (forall s n last st k, (m <= n)%nat -> (forall st k, last = Some (st, k) -> (m <= k)%nat) ->
    with_accept s n last = Some (st, k) -> (m <= k)%nat) as Hlow.
  { intros s n last st k Hn Hl. unfold with_accept. destruct (_ =? 0); [apply Hl|]. by intros [= _ <-]. }
  induction u as [|c u IH]; intros s n last Hs Hn Hacc Hl; cbn [yy_match];
    [|destruct (next_states s c Hs) as (s1 & -> & Hs1)]; fold (with_accept s n last).
  - destruct (with_accept s n last) as [[st k]|] eqn:E; [|done]. exists st, k. split; [done|]. by eapply Hlow.
  - destruct (s1 =? yy_jam) eqn:Hj.
    + destruct (with_accept s n last) as [[st k]|] eqn:E; [|done]. exists st, k. split; [done|]. by eapply Hlow.
    + apply IH; [by destruct Hs1 as [->|]|lia| |intros st k; by apply Hlow].
      unfold with_accept at 1. by destruct (_ =? 0).
Qed.

Lemma rule_found c s : exists st k a, yy_match 1 (c :: s) 0 None = Some (st, k) /\ (1 <= k <= length (c :: s))%nat
  /\ at_ yy_accept st = Some a.
Proof.
  destruct (next_states 1 c start_state) as (s1 & Hn & Hs1). destruct (first_accepts c s1 Hn) as (Hj & a1 & Ha1 & H0).
  destruct (yy_match_some 1 s s1 1 None) as (st & k & Hm & Hk); [by destruct Hs1|done| |done|].
  { unfold with_accept. rewrite Ha1. change (default 0 (Some a1)) with a1. by apply Z.eqb_neq in H0 as ->. }
  pose proof (yy_match_good 1 (c :: s) 0 None start_state I) as Hg.
  assert (yy_match 1 (c :: s) 0 None = Some (st, k)) as Hm'.
  { cbn [yy_match]. rewrite Hn. apply Z.eqb_neq in Hj as ->. exact Hm. }
  rewrite Hm' in Hg |- *. destruct Hg as (Hk' & a & Ha & _). by exists st, k, a.
Qed.

(** ** The buffer between two matches *)

Section refill.
Variable junk : ascii.
Variable rd : nat.
Hypothesis rd_pos : (0 < rd)%nat.

(** From [bp] on the buffer holds what was matched, [u], and what is left, [v]. *)
Record mid (bp : nat) (u v : list ascii) (l : lexer) : Prop := {
  md_buf : exists pre post, yy_ch_buf l = pre ++ (u ++ v) ++ NUL :: NUL :: post /\ length pre = bp;
  md_n : yy_n_chars l = (bp + length (u ++ v))%nat;
  md_len : length (yy_ch_buf l) = (yy_buf_size l + 2)%nat;
  md_size : (2 <= yy_buf_size l)%nat;
  md_new : yy_buffer_status l = BUFFER_NEW -> buf_n_chars l = yy_n_chars l;
  md_stream : yy_buffer_status l = BUFFER_EOF_PENDING \/ eof (yyin l) = true -> unread (yyin l) = []
}.

(** The same between two calls, with the character behind the last token put back. *)
Definition ready (v : list ascii) (l : lexer) : Prop :=
  mid (yy_c_buf_p l) [] v (put (yy_c_buf_p l) (yy_hold_char l) l).

Lemma mid_same bp u v l l' : same l l' -> mid bp u v l -> mid bp u v l'.
Proof. intros -> []. by constructor. Qed.
Lemma mid_set_c_buf_p bp u v p l : mid bp u v l -> mid bp u v (set_c_buf_p p l).
Proof. intros []. by constructor. Qed.
Lemma mid_app bp u v1 v2 l : mid bp u (v1 ++ v2) l <-> mid bp (u ++ v1) v2 l.
Proof. split; intros [H1 H2 H3 H4 H5 H6]; constructor; try done; by rewrite <- ?app_assoc in *. Qed.

Lemma mid_lookup bp u v l i c : mid bp u v l -> (u ++ v) !! i = Some c -> yy_ch_buf l !! (bp + i)%nat = Some c.
Proof.
  intros [(pre & post & -> & Hpre) _ _ _ _ _] Hi. rewrite lookup_app_r by lia. rewrite lookup_app_l.
  - by replace (bp + i - length pre)%nat with i by lia.
  - apply lookup_lt_Some in Hi. lia.
Qed.

(** The two NULs. *)
Lemma mid_eob bp u v l :
  mid bp u v l -> yy_ch_buf l !! (bp + length (u ++ v))%nat = Some NUL
  /\ yy_ch_buf l !! S (bp + length (u ++ v)) = Some NUL.
Proof.
  intros [(pre & post & -> & Hpre) _ _ _ _ _]. split.
  - rewrite lookup_app_r by lia. rewrite lookup_app_r by lia.
    by replace (_ - _ - _)%nat with 0%nat by lia.
  - rewrite lookup_app_r by lia. rewrite lookup_app_r by lia.
    by replace (_ - _ - _)%nat with 1%nat by lia.
Qed.

Lemma mid_take bp u v l k : mid bp u v l -> (k <= length (u ++ v))%nat -> take k (drop bp (yy_ch_buf l)) = take k (u ++ v).
Proof.
  intros [(pre & post & -> & <-) _ _ _ _ _] Hk. rewrite drop_app_length, take_app_le by done. done.
Qed.

(** A rule is found. *)
Lemma find_rule fuel bp u v l st k a :
  mid bp u v l -> (k <= length (u ++ v))%nat -> at_ yy_accept st = Some a -> a <> 0 -> a <> 21 ->
  exists l', yy_scan junk rd (S fuel) true bp st (bp + k) l = Some (LRule a (take k (u ++ v)), l')
  /\ ready (drop k (u ++ v)) l' /\ yyin l' = yyin l.
Proof.
  intros Hm Hk Ha H0 H21. cbn [yy_scan mbind option_bind]. rewrite Ha. cbn [mbind option_bind].
  assert (exists c, yy_ch_buf l !! (bp + k)%nat = Some c) as [c Hc].
  { apply lookup_lt_is_Some_2. destruct (md_buf _ _ _ _ Hm) as (pre & post & -> & Hpre).
    rewrite !length_app. cbn [length]. rewrite length_app in Hk. lia. }
  unfold YY_DO_BEFORE_ACTION. rewrite Hc. cbn [mbind option_bind].
  rewrite (proj2 (Z.eqb_neq a 0) H0), (proj2 (Z.eqb_neq a 21) H21). eexists. split.
  - f_equal. f_equal. f_equal. cbn [yy_ch_buf]. replace (bp + k - bp)%nat with k by lia.
    rewrite <- (mid_take bp u v l k Hm Hk), !take_drop_commute. f_equal. apply take_insert_ge. lia.
  - split; [|done]. unfold ready, put. cbn [yy_c_buf_p yy_hold_char yyin yy_ch_buf yy_buf_size].
    rewrite list_insert_insert_eq, (list_insert_id _ _ _ Hc).
    destruct Hm as [(pre & post & Hb & Hpre) H2 H3 H4 H5 H6]. constructor; try done; cbn.
    + exists (pre ++ take k (u ++ v)), post. rewrite Hb. split.
      * rewrite <- (take_drop k (u ++ v)) at 1. by rewrite <- !app_assoc.
      * rewrite length_app, length_take_le by done. lia.
    + rewrite H2, length_drop. lia.
Qed.

(** ** Reading more *)

Lemma insert_two {A} (x : A) i (L : list A) :
  (i + 1 < length L)%nat -> <[(i + 1)%nat := x]> (<[i := x]> L) = take i L ++ x :: x :: drop (i + 2) L.
Proof.
  intros Hi. assert (exists a b, L = take i L ++ a :: b :: drop (i + 2) L) as (a & b & HL).
  { destruct (lookup_lt_is_Some_2 L i) as [a Ha]; [lia|]. destruct (lookup_lt_is_Some_2 L (i + 1)) as [b Hb]; [lia|].
    exists a, b. rewrite <- (take_drop i L) at 1. f_equal. rewrite (drop_S L a i Ha). f_equal.
    rewrite <- Nat.add_1_r, (drop_S L b (i + 1) Hb). f_equal. f_equal. lia. }
  rewrite HL at 1. assert (length (take i L) = i) as Hl by (apply length_take_le; lia).
  rewrite insert_app_r_alt by lia. rewrite insert_app_r_alt by lia. rewrite Hl.
  replace (i - i)%nat with 0%nat by lia. by replace (i + 1 - i)%nat with 1%nat by lia.
Qed.

Lemma grow_spec m buf size :
  length buf = (size + 2)%nat -> (m <= size)%nat -> (2 <= size)%nat -> Z.of_nat m + 1 < 2 ^ 30 ->
  exists ext size', grow junk 2 m buf size = Some (buf ++ ext, size')
  /\ length (buf ++ ext) = (size' + 2)%nat /\ (m + 1 < size')%nat.
Proof.
  intros Hlen Hm Hsize Hmax. cbn [grow]. destruct (0 <? _) eqn:H1; bool_to_prop.
  { exists [], size. rewrite app_nil_r. repeat split; [done|lia]. }
  assert (to_i32 (Z.of_nat size * 2) = Z.of_nat size * 2) as Hi.
  { unfold to_i32. rewrite Z.mod_small by lia. lia. }
  rewrite Hi. replace (Z.of_nat size * 2 <=? 0) with false by (symmetry; apply Z.leb_gt; lia).
  replace (0 <? Z.of_nat (size * 2) - Z.of_nat m - 1) with true by (symmetry; apply Z.ltb_lt; lia).
  exists (replicate (size * 2 + 2 - length buf) junk), (size * 2)%nat. split.
  - unfold realloc. by rewrite take_ge by lia.
  - rewrite length_app, length_replicate. lia.
Qed.

Lemma fill_spec bp u l m0 :
  mid bp u [] l -> Z.of_nat (length u) + 1 < 2 ^ 30 -> length (u ++ m0) = length (yy_ch_buf l) ->
  exists got tail size s, yy_fill junk rd (length u) (u ++ m0) l = Some (u ++ got ++ tail, size, length got, s)
  /\ length (u ++ got ++ tail) = (size + 2)%nat /\ (2 <= size)%nat /\ (length u + length got <= size)%nat
  /\ unread (yyin l) = got ++ unread s /\ (got = [] -> unread s = []) /\ (eof s = true -> unread s = []).
Proof.
  intros [(pre & post & Hb & Hpre) H2 H3 H4 H5 H6] Hmax Hm0. unfold yy_fill.
  assert (length u <= yy_buf_size l)%nat as Hu.
  { rewrite Hb, !length_app in H3. cbn in H3. lia. }
  destruct (decide (yy_buffer_status l = BUFFER_EOF_PENDING)) as [Hst|Hst].
  { rewrite Hst. exists [], m0, (yy_buf_size l), (yyin l). repeat split; try done; cbn; try lia; auto. }
  destruct (grow_spec (length u) (u ++ m0) (yy_buf_size l)) as (ext & size & Hg & Hlen & Hsz); [lia|done|done|done|].
  assert (exists got s, LexerInput (Nat.min (size - length u - 1) rd) (yyin l) = (got, s)
    /\ unread (yyin l) = got ++ unread s /\ (length got < size - length u)%nat
    /\ (got = [] -> unread s = []) /\ (eof s = true -> unread s = [])) as (got & s & Hread & Hun & Hgot & Hnil & Heof).
  { unfold LexerInput. destruct (eof (yyin l)) eqn:He.
    - exists [], (yyin l). repeat split; try done; [cbn; lia|auto..].
    - eexists _, _. split; [reflexivity|]. cbn [unread eof]. split; [by rewrite take_drop|].
      split; [rewrite length_take; lia|]. split.
      + intros Ht. apply (f_equal length) in Ht. rewrite length_take in Ht. cbn in Ht.
        apply nil_length_inv. rewrite length_drop. lia.
      + rewrite He. cbn [orb]. intros Hlt%Nat.ltb_lt. apply drop_ge. lia. }
  exists got, (drop (length u + length got) ((u ++ m0) ++ ext)), size, s. split.
  - destruct (yy_buffer_status l); try done; rewrite Hg; cbn [mbind option_bind]; rewrite Hread;
      by rewrite <- app_assoc, take_app_length.
  - split; [|repeat split; (done || lia)]. rewrite !length_app, length_drop, !length_app in *. lia.
Qed.

(** What is read when the match has run into the end of the buffer. *)
Lemma next_buffer bp u l :
  mid bp u [] l -> yytext_ptr l = bp -> yy_c_buf_p l = S (yy_n_chars l) ->
  yy_buffer_status l <> BUFFER_NEW -> Z.of_nat (length u) + 1 < 2 ^ 30 ->
  exists r l', yy_get_next_buffer junk rd l = Some (r, l') /\ yytext_ptr l' = 0%nat
  /\ match r with
     | EOB_ACT_END_OF_FILE => u = [] /\ unread (yyin l) = [] /\ unread (yyin l') = [] /\ ready [] (set_c_buf_p 0 l')
     | EOB_ACT_LAST_MATCH => u <> [] /\ unread (yyin l) = [] /\ unread (yyin l') = [] /\ mid 0 u [] l'
     | EOB_ACT_CONTINUE_SCAN =>
         exists got, got <> [] /\ unread (yyin l) = got ++ unread (yyin l') /\ mid 0 u got l'
     end.
Proof.
  intros Hm Ht Hp Hst Hmax. pose proof (md_n _ _ _ _ Hm) as Hn. rewrite app_nil_r in Hn.
  unfold yy_get_next_buffer. rewrite Hp, Ht, Hn.
  replace (bp + length u + 1 <? S (bp + length u))%nat with false by (symmetry; apply Nat.ltb_ge; lia).
  replace (S (bp + length u) - bp - 1)%nat with (length u) by lia.
  rewrite (mid_take bp u [] l (length u) Hm), app_nil_r, take_ge by (rewrite ?app_nil_r; lia).
  assert (length u <= length (yy_ch_buf l))%nat as Hlen.
  { destruct (md_buf _ _ _ _ Hm) as (pre & post & -> & _). rewrite !length_app. lia. }
  destruct (fill_spec bp u l (drop (length u) (yy_ch_buf l)) Hm Hmax) as
    (got & tail & size & s & Hf & Hl & H2 & Hsz & Hun & Hnil & Heof).
  { rewrite length_app, length_drop. lia. }
  rewrite Hf. cbn [mbind option_bind]. cbv zeta.
  assert (forall m : list ascii, length m = (size + 2)%nat -> (length got + length u + 1 <? length m)%nat = true) as Hlt.
  { intros m ->. apply Nat.ltb_lt. lia. }
  assert ((size <? length got + length u)%nat = false) as Hext by (apply Nat.ltb_ge; lia).
  assert (<[(length got + length u + 1)%nat := NUL]> (<[(length got + length u)%nat := NUL]> (u ++ got ++ tail))
          = u ++ got ++ NUL :: NUL :: drop (length got + length u + 2) (u ++ got ++ tail)) as Hins.
  { rewrite insert_two by (rewrite Hl; lia). rewrite (app_assoc u got tail), take_app_le by (rewrite length_app; lia).
    rewrite take_ge by (rewrite length_app; lia). by rewrite <- app_assoc. }
  destruct got as [|c got].
  - cbn [length Nat.eqb Nat.add] in *. specialize (Hnil eq_refl). rewrite Hnil in Hun. cbn [app] in Hun, Hins, Hl |- *.
    destruct u as [|x u].
    + cbn [length Nat.eqb yyrestart yy_flush_buffer yy_buf_size yy_ch_buf]. cbn [length app] in *.
      rewrite Hext. destruct tail as [|a [|b tail]]; [cbn in Hl; lia..|]. cbn [length] in Hl.
      eexists _, _. split; [reflexivity|]. split; [done|]. do 3 (split; [done|]).
      constructor; cbn; [by exists [], tail|done|lia|done|done|done].
    + cbn [Nat.eqb length set_status yy_buf_size yy_ch_buf] in *. rewrite Hext, Hlt by done.
      eexists _, _. split; [reflexivity|]. split; [done|]. do 3 (split; [done|]).
      constructor; cbn [yy_ch_buf yy_n_chars yy_buf_size yy_buffer_status buf_n_chars yyin].
      * eexists [], _. split; [|done]. rewrite Hins. by rewrite app_nil_r.
      * by rewrite app_nil_r.
      * by rewrite !length_insert.
      * done.
      * done.
      * done.
  - cbn [length Nat.eqb yy_buf_size yy_ch_buf] in *. rewrite Hext, Hlt by done.
    eexists _, _. split; [reflexivity|]. split; [done|]. exists (c :: got). split; [done|]. split; [done|].
    constructor; cbn [yy_ch_buf yy_n_chars yy_buf_size yy_buffer_status buf_n_chars yyin].
    + eexists [], _. split; [|done]. rewrite Hins. by rewrite <- app_assoc.
    + rewrite length_app. cbn [length]. lia.
    + by rewrite !length_insert.
    + done.
    + done.
    + intros [Hpend|He]; [|by apply Heof]. destruct Hm as [_ _ _ _ _ H6]. rewrite (H6 (or_introl Hpend)) in Hun. done.
Qed.

(** ** One rule *)

(** What [yy_scan] does at the end of the buffer. *)
Definition at_eob (fuel matched : nat) (l : lexer) : option (lexed * lexer) :=
  if (yy_c_buf_p l <=? yy_n_chars l)%nat then
    '(state, l) ← yy_get_previous_state (set_c_buf_p (yytext_ptr l + matched)%nat l);
    '(next, l) ← yy_try_NUL_trans state l;
    match next with
    | Some state =>
        let l := set_c_buf_p (S (yy_c_buf_p l)) l in
        yy_scan junk rd fuel false (yytext_ptr l) state (yy_c_buf_p l) l
    | None => yy_scan junk rd fuel true (yytext_ptr l) (last_accepting_state l) (last_accepting_cpos l) l
    end
  else
    '(r, l) ← yy_get_next_buffer junk rd l;
    match r with
    | EOB_ACT_END_OF_FILE => Some (LEof, set_c_buf_p (yytext_ptr l) l)
    | EOB_ACT_CONTINUE_SCAN =>
        '(state, l) ← yy_get_previous_state (set_c_buf_p (yytext_ptr l + matched)%nat l);
        yy_scan junk rd fuel false (yytext_ptr l) state (yy_c_buf_p l) l
    | EOB_ACT_LAST_MATCH =>
        '(state, l) ← yy_get_previous_state (set_c_buf_p (yy_n_chars l) l);
        yy_scan junk rd fuel true (yytext_ptr l) state (yy_c_buf_p l) l
    end.

Lemma scan_eob fuel bp s cp l u v l1 :
  match_loop (length (yy_ch_buf l)) s cp l = Some (3, S (bp + length u), l1) -> mid bp u v l1 ->
  exists l2, yy_scan junk rd (S fuel) false bp s cp l = at_eob fuel (length u) l2
  /\ mid bp u v l2 /\ yytext_ptr l2 = bp /\ yy_c_buf_p l2 = S (bp + length u)
  /\ yy_buffer_status l2 <> BUFFER_NEW /\ yyin l2 = yyin l1.
Proof.
  intros Hm Hmid. cbn [yy_scan]. rewrite Hm. cbn [mbind option_bind]. change (at_ yy_accept 3) with (Some 21).
  cbn [mbind option_bind]. unfold YY_DO_BEFORE_ACTION.
  assert (exists c, yy_ch_buf l1 !! S (bp + length u) = Some c) as [c Hc].
  { apply lookup_lt_is_Some_2. destruct (md_buf _ _ _ _ Hmid) as (pre & post & -> & Hpre).
    rewrite !length_app. cbn [length]. lia. }
  rewrite Hc. cbn [mbind option_bind]. change (21 =? 0) with false. change (21 =? 21) with true. cbv zeta.
  unfold put. cbn [yyin yy_ch_buf yy_buf_size buf_n_chars yy_buffer_status yy_n_chars yy_c_buf_p yytext_ptr
    yy_hold_char last_accepting_state last_accepting_cpos].
  rewrite list_insert_insert_eq, (list_insert_id _ _ _ Hc).
  replace (S (bp + length u) - bp - 1)%nat with (length u) by lia.
  destruct Hmid as [H1 H2 H3 H4 H5 H6].
  destruct (yy_buffer_status l1) eqn:Hst; (eexists; split; [reflexivity|]; split; [|done]);
    constructor; cbn [yy_ch_buf yy_n_chars yy_buf_size yy_buffer_status buf_n_chars yyin set_status]; try done.
  - rewrite <- H2. by apply H5.
  - intros [?|?]; [done|]. apply H6. by right.
Qed.

(** Bringing the automaton back to its state. *)
Lemma previous_state bp u v l s last :
  mid bp u v l -> yytext_ptr l = bp -> yy_c_buf_p l = (bp + length u)%nat ->
  yy_path 1 u 0 None = Some (s, last) ->
  exists l', yy_get_previous_state l = Some (s, l') /\ same l l' /\ holds bp last l'.
Proof.
  intros Hm Ht Hp Hpath. unfold yy_get_previous_state. rewrite Ht, Hp.
  replace (bp + length u - bp)%nat with (length u) by lia.
  destruct (previous_loop_path u 1 bp 0 None l s last) as (l' & Hl & Hsm); [|exact I| |exact Hpath|].
  - by_decide.
  - intros i c Hi. rewrite Nat.add_0_r. eapply mid_lookup; [exact Hm|]. by apply lookup_app_l_Some.
  - rewrite Nat.add_0_r in Hl. by exists l'.
Qed.

Lemma split_nul v : exists v1 v2, v = v1 ++ v2 /\ Forall (fun c => c <> NUL) v1
  /\ (v2 = [] \/ exists v3, v2 = NUL :: v3).
Proof.
  induction v as [|c v (v1 & v2 & -> & H1 & H2)]; [by exists [], []; auto|].
  destruct (decide (c = NUL)) as [->|Hc].
  - exists [], (NUL :: v1 ++ v2). split; [done|]. split; [constructor|]. right. by eexists.
  - exists (c :: v1), v2. split; [done|]. split; [by constructor|done].
Qed.

(** The input from the beginning of the match. *)
Definition input_of (u v : list ascii) (l : lexer) : list ascii := u ++ v ++ unread (yyin l).

(** The outcome of a match: the rule, its text, and what is left. *)
Definition match_outcome (r : option (lexed * lexer)) (a : Z) (k : nat) (input : list ascii) : Prop :=
  exists v' l', r = Some (LRule a (take k input), l') /\ ready v' l' /\ v' ++ unread (yyin l') = drop k input.

Lemma find_outcome fuel bp u v l st k a :
  mid bp u v l -> (k <= length (u ++ v))%nat -> at_ yy_accept st = Some a -> a <> 0 -> a <> 21 ->
  match_outcome (yy_scan junk rd (S fuel) true bp st (bp + k) l) a k (input_of u v l).
Proof.
  intros Hm Hk Ha H0 H21. destruct (find_rule fuel bp u v l st k a Hm Hk Ha H0 H21) as (l' & -> & Hr & Hin).
  exists (drop k (u ++ v)), l'. unfold input_of. rewrite (app_assoc u), (take_app_le (u ++ v)), (drop_app_le (u ++ v)) by done.
  split; [done|]. split; [done|]. by rewrite Hin.
Qed.

Lemma back_up fuel bp u v l s :
  mid bp u v l -> at_ yy_accept s = Some 0 ->
  exists l', yy_scan junk rd (S fuel) true bp s (bp + length (u ++ v)) l
    = yy_scan junk rd fuel true bp (last_accepting_state l) (last_accepting_cpos l) l'
  /\ mid bp u v l' /\ yyin l' = yyin l.
Proof.
  intros Hm Ha. cbn [yy_scan mbind option_bind]. rewrite Ha. cbn [mbind option_bind].
  destruct (mid_eob _ _ _ _ Hm) as [Hc _]. unfold YY_DO_BEFORE_ACTION. rewrite Hc. cbn [mbind option_bind].
  change (0 =? 0) with true. eexists. split; [reflexivity|]. split; [|done].
  unfold put. cbn [yyin yy_ch_buf yy_buf_size buf_n_chars yy_buffer_status yy_n_chars yy_c_buf_p yytext_ptr yy_hold_char].
  rewrite list_insert_insert_eq, (list_insert_id _ _ _ Hc). destruct Hm. by constructor.
Qed.

(** The match of the whole input stops where nothing more was accepted. *)
Lemma last_outcome fuel bp u l s last st k a :
  mid bp u [] l -> s ∈ yy_states -> holds bp last l -> good_last (length u) last ->
  with_accept s (length u) last = Some (st, k) -> at_ yy_accept st = Some a ->
  match_outcome (yy_scan junk rd (S (S fuel)) true bp s (bp + length u) l) a k (input_of u [] l).
Proof.
  intros Hm Hs Hh Hg Hw Ha.
  pose proof (with_accept_good s (length u) last Hs Hg) as Hgood. rewrite Hw in Hgood.
  destruct Hgood as (Hk & a' & Ha' & H0 & H21). rewrite Ha in Ha'. injection Ha' as <-.
  unfold with_accept in Hw. destruct (accept_states s Hs) as (b & Hb & _). rewrite Hb in Hw. cbn in Hw.
  destruct (b =? 0) eqn:Hb0.
  - apply Z.eqb_eq in Hb0. subst b last. destruct Hh as [Hh1 Hh2].
    destruct (back_up (S fuel) bp u [] l s Hm Hb) as (l' & Hsc & Hm' & Hin). rewrite app_nil_r in Hsc.
    rewrite Hsc, Hh1, Hh2. unfold input_of. rewrite <- Hin. apply find_outcome; try done. by rewrite app_nil_r.
  - injection Hw as <- <-. apply find_outcome; try done. by rewrite app_nil_r.
Qed.

(** At a NUL of the input. *)
Lemma nul_trans bp u v l s last :
  mid bp u (NUL :: v) l -> s ∈ yy_states -> yytext_ptr l = bp -> yy_c_buf_p l = S (bp + length u) ->
  yy_path 1 u 0 None = Some (s, last) ->
  exists s' l', yy_next s NUL = Some s' /\ mid bp u (NUL :: v) l' /\ yyin l' = yyin l
  /\ holds bp (with_accept s (length u) last) l'
  /\ forall fuel, at_eob fuel (length u) l =
       if s' =? yy_jam then yy_scan junk rd fuel true bp (last_accepting_state l') (last_accepting_cpos l') l'
       else yy_scan junk rd fuel false bp s' (bp + S (length u)) (set_c_buf_p (bp + S (length u)) l').
Proof.
  intros Hm Hs Ht Hp Hpath.
  assert (Ht' : yytext_ptr (set_c_buf_p (bp + length u) l) = bp) by done.
  destruct (previous_state bp u (NUL :: v) _ s last (mid_set_c_buf_p _ _ _ (bp + length u) _ Hm) Ht' eq_refl Hpath)
    as (l1 & Hprev & Hsm1 & Hh1).
  destruct (note_accept_holds s bp (length u) last l1 Hs Hh1) as (l2 & Hnote & Hsm2 & Hh2).
  destruct (next_states s NUL Hs) as (s' & Hn & _).
  assert (same (set_c_buf_p (bp + length u) l) l2) as Hsm by (by eapply same_trans).
  assert (yy_c_buf_p l1 = bp + length u /\ yy_c_buf_p l2 = bp + length u /\ yytext_ptr l2 = bp)%nat as (Hp1 & Hp2 & Ht2)
    by (rewrite Hsm, Hsm1; done).
  exists s', l2. split; [done|]. split; [eapply mid_same; [exact Hsm|]; by apply mid_set_c_buf_p|].
  split; [by rewrite Hsm|]. split; [done|]. intros fuel. unfold at_eob. rewrite Hp, Ht.
  replace (_ <=? _)%nat with true.
  2:{ symmetry. apply Nat.leb_le. rewrite (md_n _ _ _ _ Hm), length_app. cbn. lia. }
  rewrite Hprev. cbn [mbind option_bind]. unfold yy_try_NUL_trans. rewrite Hp1, Hnote. cbn [mbind option_bind].
  change (yy_find 3 s 1) with (yy_next s NUL). rewrite Hn. cbn [mbind option_bind].
  destruct (s' =? yy_jam); [by rewrite Ht2|]. cbv zeta. rewrite Hp2.
  change (yytext_ptr (set_c_buf_p ?p l2)) with (yytext_ptr l2). rewrite Ht2.
  by replace (bp + S (length u))%nat with (S (bp + length u)) by lia.
Qed.

(** The loop at [yy_match]: it finds the rule, or runs into a NUL after [v1]. *)
Lemma match_buffer fuel bp s last u v l :
  mid bp u v l -> yy_path 1 u 0 None = Some (s, last) -> holds bp last l ->
  forall st k a, yy_match 1 (input_of u v l) 0 None = Some (st, k) -> at_ yy_accept st = Some a ->
  match_outcome (yy_scan junk rd (S fuel) false bp s (bp + length u) l) a k (input_of u v l)
  \/ exists v1 v2 s1 last1 l1, v = v1 ++ v2 /\ (v2 = [] \/ exists v3, v2 = NUL :: v3)
     /\ yy_path 1 (u ++ v1) 0 None = Some (s1, last1) /\ mid bp (u ++ v1) v2 l1 /\ yyin l1 = yyin l
     /\ match_loop (length (yy_ch_buf l)) s (bp + length u) l = Some (3, S (bp + length (u ++ v1)), l1).
Proof.
  intros Hm Hpath Hh st k a Hmatch Ha. pose proof (yy_path_states _ _ _ _ _ _ start_state Hpath) as Hs.
  destruct (split_nul v) as (v1 & v2 & -> & Hnul & Hv2). pose proof Hm as Hm1. apply mid_app in Hm1.
  assert (length u + length v1 + 2 <= length (yy_ch_buf l))%nat as Hlen.
  { destruct (md_buf _ _ _ _ Hm1) as (pre & post & -> & _). rewrite !length_app. cbn. lia. }
  assert (forall i c, v1 !! i = Some c -> yy_ch_buf l !! (bp + length u + i)%nat = Some c) as Hv1.
  { intros i c Hi. rewrite <- Nat.add_assoc. eapply mid_lookup; [exact Hm1|]. apply lookup_app_l_Some.
    rewrite lookup_app_r by lia. by replace (length u + i - length u)%nat with i by lia. }
  pose proof (match_loop_path v1 (length (yy_ch_buf l)) s bp (length u) last l Hs Hh Hnul Hv1 ltac:(lia)) as Hloop.
  unfold input_of in Hmatch. rewrite <- app_assoc, (yy_match_path _ _ _ _ _ _ _ Hpath) in Hmatch. cbn [Nat.add] in Hmatch.
  pose proof (yy_path_good _ _ _ _ _ _ start_state (I : good_last 0 None) Hpath) as Hg. cbn [Nat.add] in Hg.
  destruct (yy_path s v1 (length u) last) as [[s1 last1]|] eqn:Hp1.
  - right. destruct Hloop as (l1 & Hl & Hsm & _).
    pose proof (yy_path_states _ _ _ _ _ _ Hs Hp1) as Hs1.
    pose proof (mid_eob _ _ _ _ Hm) as [He1 He2]. pose proof (same_buf _ _ Hsm) as Hb.
    assert (yy_ch_buf l1 !! (bp + length u + length v1)%nat = Some NUL
      /\ exists c, yy_ch_buf l1 !! S (bp + length u + length v1) = Some c) as [Hc1 [c Hc2]].
    { rewrite Hb. replace (bp + length u + length v1)%nat with (bp + length (u ++ v1))%nat by (rewrite length_app; lia).
      destruct Hv2 as [->|[v3 ->]].
      - rewrite app_nil_r in He1, He2. by eauto.
      - split; [|apply lookup_lt_is_Some_2].
        + eapply mid_lookup; [exact Hm1|]. by rewrite lookup_app_r, Nat.sub_diag by lia.
        + apply lookup_lt_Some in He2. rewrite !length_app in *. cbn in *. lia. }
    destruct (match_loop_nul (length (yy_ch_buf l) - length v1) s1 _ l1 c Hs1 ltac:(lia) Hc1 Hc2) as (l2 & Hl2 & Hsm2).
    exists v1, v2, s1, last1, l2. split; [done|]. split; [done|].
    split; [rewrite yy_path_app, Hpath; exact Hp1|].
    assert (same l l2) as Hsm' by (by eapply same_trans). split; [by eapply mid_same|]. split; [by rewrite Hsm'|].
    rewrite Hl, Hl2. f_equal. f_equal. f_equal. rewrite length_app. lia.
  - left. rewrite (yy_match_jam s v1) in Hmatch by done.
    pose proof (yy_match_good s v1 _ _ Hs Hg) as Hgood. rewrite Hmatch in Hgood.
    destruct Hgood as (Hk & a' & Ha' & H0 & H21). rewrite Ha in Ha'. injection Ha' as <-.
    destruct (Hloop st k Hmatch) as (l1 & Hl & Hsm).
    assert (yy_scan junk rd (S fuel) false bp s (bp + length u) l = yy_scan junk rd (S fuel) true bp st (bp + k) l1) as ->
      by (cbn [yy_scan]; by rewrite Hl).
    replace (input_of u (v1 ++ v2) l) with (input_of u (v1 ++ v2) l1) by (unfold input_of; by rewrite Hsm).
    apply find_outcome; try done; [by eapply mid_same|]. rewrite !length_app. lia.
Qed.

(** A match finds its rule. *)
Definition found (fuel bp : nat) (u v : list ascii) (l : lexer) : Prop :=
  forall s last st k a,
  yy_path 1 u 0 None = Some (s, last) -> holds bp last l ->
  input_of u v l <> [] -> Z.of_nat (length (input_of u v l)) + 1 < 2 ^ 30 ->
  yy_match 1 (input_of u v l) 0 None = Some (st, k) -> at_ yy_accept st = Some a ->
  match_outcome (yy_scan junk rd fuel false bp s (bp + length u) l) a k (input_of u v l).

Lemma restart_state u v l s last :
  mid 0 u v l -> yytext_ptr l = 0%nat -> yy_path 1 u 0 None = Some (s, last) ->
  exists l', yy_get_previous_state (set_c_buf_p (length u) l) = Some (s, l') /\ mid 0 u v l'
  /\ holds 0 last l' /\ yytext_ptr l' = 0%nat /\ yy_c_buf_p l' = length u /\ yyin l' = yyin l.
Proof.
  intros Hm Ht Hp. destruct (previous_state 0 u v (set_c_buf_p (length u) l) s last) as (l' & Hl & Hsm & Hh);
    [by apply mid_set_c_buf_p|done|done|done|].
  exists l'. split; [done|]. split; [eapply mid_same; [exact Hsm|]; by apply mid_set_c_buf_p|].
  split; [done|]. rewrite Hsm. done.
Qed.

(** At the end of the buffer. *)
Lemma refill_case fuel bp u l s last st k a :
  mid bp u [] l -> yytext_ptr l = bp -> yy_c_buf_p l = S (bp + length u) -> yy_buffer_status l <> BUFFER_NEW ->
  yy_path 1 u 0 None = Some (s, last) ->
  input_of u [] l <> [] -> Z.of_nat (length (input_of u [] l)) + 1 < 2 ^ 30 ->
  yy_match 1 (input_of u [] l) 0 None = Some (st, k) -> at_ yy_accept st = Some a ->
  (forall got l', got <> [] -> unread (yyin l) = got ++ unread (yyin l') -> mid 0 u got l' ->
     found (S (S fuel)) 0 u got l') ->
  match_outcome (at_eob (S (S fuel)) (length u) l) a k (input_of u [] l).
Proof.
  intros Hm Ht Hc Hst Hp Hne Hmax Hmatch Ha IH. pose proof (md_n _ _ _ _ Hm) as Hn. rewrite app_nil_r in Hn.
  pose proof (yy_path_states _ _ _ _ _ _ start_state Hp) as Hs.
  pose proof (yy_path_good _ _ _ _ _ _ start_state (I : good_last 0 None) Hp) as Hg. cbn [Nat.add] in Hg.
  destruct (next_buffer bp u l Hm Ht) as (r & l1 & Hnext & Ht1 & Hr); [by rewrite Hc, Hn|done| |].
  { unfold input_of in Hmax. rewrite length_app in Hmax. lia. }
  unfold at_eob. rewrite Hc, Hn. replace (_ <=? _)%nat with false by (symmetry; apply Nat.leb_gt; lia).
  rewrite Hnext. cbn [mbind option_bind]. unfold input_of in *. cbn [app] in *. destruct r.
  - destruct Hr as (got & Hgot & Hun & Hm1). rewrite Ht1. cbn [Nat.add].
    destruct (restart_state u got l1 s last Hm1 Ht1 Hp) as (l2 & -> & Hm2 & Hh2 & Ht2 & Hc2 & Hin2).
    cbn [mbind option_bind]. rewrite Ht2, Hc2, Hun, <- Hin2 in *. eapply (IH got l2); done.
  - destruct Hr as (Hu & Hun & _). by rewrite Hu, Hun in Hne.
  - destruct Hr as (Hu & Hun & Hun1 & Hm1). rewrite (md_n _ _ _ _ Hm1), app_nil_r. cbn [Nat.add].
    destruct (restart_state u [] l1 s last Hm1 Ht1 Hp) as (l2 & -> & Hm2 & Hh2 & Ht2 & Hc2 & Hin2).
    cbn [mbind option_bind]. rewrite Ht2, Hc2, Hun. rewrite <- Hun1, <- Hin2.
    eapply (last_outcome fuel 0 u l2); try done.
    rewrite Hun, (yy_match_path _ _ _ _ _ _ _ Hp) in Hmatch. exact Hmatch.
Qed.

(** At a NUL of the input. *)
Lemma nul_case fuel bp u v l s last st k a :
  mid bp u (NUL :: v) l -> yytext_ptr l = bp -> yy_c_buf_p l = S (bp + length u) ->
  yy_path 1 u 0 None = Some (s, last) ->
  input_of u (NUL :: v) l <> [] -> Z.of_nat (length (input_of u (NUL :: v) l)) + 1 < 2 ^ 30 ->
  yy_match 1 (input_of u (NUL :: v) l) 0 None = Some (st, k) -> at_ yy_accept st = Some a ->
  (forall l', yyin l' = yyin l -> mid bp (u ++ [NUL]) v l' -> found (S fuel) bp (u ++ [NUL]) v l') ->
  match_outcome (at_eob (S fuel) (length u) l) a k (input_of u (NUL :: v) l).
Proof.
  intros Hm Ht Hc Hp Hne Hmax Hmatch Ha IH. pose proof (yy_path_states _ _ _ _ _ _ start_state Hp) as Hs.
  pose proof (yy_path_good _ _ _ _ _ _ start_state (I : good_last 0 None) Hp) as Hg. cbn [Nat.add] in Hg.
  destruct (nul_trans bp u v l s last Hm Hs Ht Hc Hp) as (s1 & l1 & Hn & Hm1 & Hin1 & Hh1 & ->).
  replace (input_of u (NUL :: v) l) with (input_of u (NUL :: v) l1) in * by (unfold input_of; by rewrite Hin1).
  destruct (s1 =? yy_jam) eqn:Hj.
  - unfold input_of in Hmatch. rewrite (yy_match_path _ _ _ _ _ _ _ Hp) in Hmatch. cbn [app yy_match] in Hmatch.
    rewrite Hn, Hj in Hmatch. change (with_accept s (length u) last = Some (st, k)) in Hmatch.
    pose proof (with_accept_good s _ last Hs Hg) as Hgood. rewrite Hmatch in Hgood, Hh1. destruct Hh1 as [-> ->].
    destruct Hgood as (Hk & a' & Ha' & H0 & H21). rewrite Ha in Ha'. injection Ha' as <-.
    apply find_outcome; try done. rewrite length_app. lia.
  - assert (input_of u (NUL :: v) l1 = input_of (u ++ [NUL]) v (set_c_buf_p (bp + S (length u)) l1)) as Hinput
      by (unfold input_of; cbn [yyin set_c_buf_p]; by rewrite <- app_assoc).
    rewrite Hinput in *.
    assert (match_outcome (yy_scan junk rd (S fuel) false bp s1 (bp + length (u ++ [NUL])) (set_c_buf_p (bp + S (length u)) l1)) a k
      (input_of (u ++ [NUL]) v (set_c_buf_p (bp + S (length u)) l1))) as Hout.
    { eapply IH; try done; [by apply mid_set_c_buf_p, mid_app|]. rewrite yy_path_app, Hp. cbn [mbind option_bind fst snd yy_path Nat.add]. by rewrite Hn, Hj. }
    by rewrite length_app, Nat.add_1_r in Hout.
Qed.

(** Each turn at the end of the buffer takes a NUL or reads a character. *)
Lemma scan_finds N : forall fuel bp u v l,
  (length v + 2 * length (unread (yyin l)) <= N)%nat -> (N + 3 <= fuel)%nat -> mid bp u v l -> found fuel bp u v l.
Proof.
  induction N as [N IH] using lt_wf_ind. intros fuel bp u v l HN Hfuel Hm s last st k a Hpath Hh Hne Hmax Hmatch Ha.
  destruct fuel as [|fuel]; [lia|].
  destruct (match_buffer fuel bp s last u v l Hm Hpath Hh st k a Hmatch Ha)
    as [Hdone|(v1 & v2 & s1 & last1 & l1 & -> & Hv2 & Hp1 & Hm1 & Hin1 & Hloop)]; [exact Hdone|].
  destruct (scan_eob fuel bp s _ l (u ++ v1) v2 l1 Hloop Hm1) as (l2 & -> & Hm2 & Ht2 & Hc2 & Hst2 & Hin2).
  rewrite Hin1 in Hin2.
  assert (input_of u (v1 ++ v2) l = input_of (u ++ v1) v2 l2) as Hinput
    by (unfold input_of; by rewrite Hin2, <- !app_assoc).
  rewrite Hinput in Hne, Hmax, Hmatch |- *. rewrite <- Hin2 in HN. rewrite length_app in HN.
  destruct Hv2 as [->|[v3 ->]].
  - destruct fuel as [|[|fuel]]; [lia|lia|]. eapply refill_case; try done.
    intros got l' Hgot Hun Hm'. rewrite Hun, length_app in HN.
    assert (0 < length got)%nat by (destruct got; [done|cbn; lia]).
    eapply (IH (length got + 2 * length (unread (yyin l')))%nat); [lia|lia|lia|done].
  - destruct fuel as [|fuel]; [lia|]. eapply nul_case; try done.
    intros l' Hl' Hm'. cbn [length] in HN. eapply (IH (length v3 + 2 * length (unread (yyin l2)))%nat); [lia|by rewrite Hl'|lia|done].
Qed.

(** ** Every token *)

(** Between two calls: what is in the buffer and what is still to be read. *)
Definition left_to_scan (l : lexer) (input : list ascii) : Prop :=
  exists v, ready v l /\ input = v ++ unread (yyin l).

Lemma scan_rule_spec fuel l c s :
  left_to_scan l (c :: s) -> Z.of_nat (length (c :: s)) + 1 < 2 ^ 30 -> (2 * length (c :: s) + 3 <= fuel)%nat ->
  exists st k a l', yy_match 1 (c :: s) 0 None = Some (st, k) /\ (1 <= k <= length (c :: s))%nat
  /\ at_ yy_accept st = Some a
  /\ scan_rule junk rd fuel l = Some (LRule a (take k (c :: s)), l') /\ left_to_scan l' (drop k (c :: s)).
Proof.
  intros (v & Hr & Hin) Hmax Hfuel. destruct (rule_found c s) as (st & k & a & Hm & Hk & Ha).
  exists st, k, a. rewrite Hin in *. unfold ready in Hr. unfold scan_rule. set (cp := yy_c_buf_p l) in *.
  assert (found fuel cp [] v (put cp (yy_hold_char l) l)) as Hf.
  { eapply (scan_finds (length v + 2 * length (unread (yyin l)))%nat); [done| |done]. rewrite length_app in Hfuel. lia. }
  destruct (Hf 1 None st k a) as (v' & l' & Hs & Hr' & Hin'); [done|exact I|change (v ++ unread (yyin l) <> []); by rewrite <- Hin|done..|].
  cbn [length] in Hs. rewrite Nat.add_0_r in Hs. exists l'. do 3 (split; [done|]). split; [exact Hs|]. by exists v'.
Qed.

(** The end of the input. *)
Lemma scan_rule_eof fuel l :
  left_to_scan l [] -> (1 <= fuel)%nat ->
  exists l', scan_rule junk rd fuel l = Some (LEof, l') /\ left_to_scan l' [].
Proof.
  intros (v & Hr & Hin) Hfuel. symmetry in Hin. apply app_nil in Hin as [-> Hun]. unfold ready in Hr. unfold scan_rule.
  set (cp := yy_c_buf_p l) in *. set (l1 := put cp (yy_hold_char l) l) in *.
  destruct (mid_eob _ _ _ _ Hr) as [He1 He2]. cbn [app length] in He1, He2. rewrite Nat.add_0_r in He1, He2.
  destruct (match_loop_nul (length (yy_ch_buf l1)) 1 cp l1 NUL start_state) as (l2 & Hl & Hsm); [|done|done|].
  { rewrite (md_len _ _ _ _ Hr). lia. }
  destruct fuel as [|fuel]; [lia|].
  destruct (scan_eob fuel cp 1 cp l1 [] [] l2) as (l3 & -> & Hm3 & Ht3 & Hc3 & Hst3 & Hin3).
  { cbn [length]. by rewrite Nat.add_0_r. }
  { by eapply mid_same. }
  cbn [length] in *. pose proof (md_n _ _ _ _ Hm3) as Hn. cbn [app length] in Hn.
  destruct (next_buffer cp [] l3 Hm3 Ht3) as (r & l4 & Hnext & Ht4 & Hcase); [by rewrite Hc3, Hn|done|done|].
  unfold at_eob. rewrite Hc3, Hn. replace (_ <=? _)%nat with false by (symmetry; apply Nat.leb_gt; lia).
  rewrite Hnext. cbn [mbind option_bind].
  assert (unread (yyin l3) = []) as Hun3 by (rewrite Hin3, Hsm; exact Hun).
  destruct r; [| |by destruct Hcase].
  2: { destruct Hcase as (_ & _ & Hun4 & Hr4). eexists. split; [reflexivity|]. rewrite Ht4. exists []. split; [done|].
       cbn [set_c_buf_p yyin app]. by rewrite Hun4. }
  destruct Hcase as (got & Hgot & Hg & _). rewrite Hun3 in Hg. by destruct got.
Qed.
End refill.

(** ** Rules that match a line feed *)

Definition LF : ascii := "010"%char.

(** Inside a quoted string. *)
Definition string_states : list Z := [7; 18; 19; 20; 33; 34; 35].

(** How a text without a line feed, the line feed and a string are told apart. *)
Definition text_kind (s : Z) (u : list ascii) : Prop :=
  if decide (s ∈ string_states) then s = 7 -> u = [k_quote]
  else if decide (s = 6) then u = [LF] else (s = 1 -> u = []) /\ LF ∉ u.

Lemma kind_next s c s' : s ∈ yy_states -> yy_next s c = Some s' -> s' <> yy_jam ->
  (s' <> 7 \/ s = 1 /\ c = k_quote) /\ (s' <> 6 \/ s = 1 /\ c = LF)
  /\ (s' ∈ string_states \/ s' = 6 \/ s' <> 1 /\ ~ (s ∈ string_states) /\ s <> 6 /\ c <> LF).
Proof.
  intros Hs Hn Hj. pose (P c := forallb (fun s => match yy_next s c with
    | Some s' => bool_decide (s' = yy_jam \/ (s' <> 7 \/ s = 1 /\ c = k_quote) /\ (s' <> 6 \/ s = 1 /\ c = LF)
        /\ (s' ∈ string_states \/ s' = 6 \/ s' <> 1 /\ ~ (s ∈ string_states) /\ s <> 6 /\ c <> LF))
    | None => false end) yy_states).
  assert (P c = true) as Hc by (apply for_all_chars; vm_compute; reflexivity).
  unfold P in Hc. rewrite forallb_forall in Hc. apply list_elem_of_In in Hs. specialize (Hc s Hs).
  rewrite Hn in Hc. by apply bool_decide_eq_true in Hc as [?|Hc].
Qed.

Lemma path_kind u s last : yy_path 1 u 0 None = Some (s, last) -> text_kind s u.
Proof.
  revert s last. induction u as [|c u IH] using rev_ind; intros s last.
  { intros [= <- _]. unfold text_kind. rewrite !decide_False by by_decide. split; [done|]. set_solver. }
  rewrite yy_path_app. destruct (yy_path 1 u 0 None) as [[s1 last1]|] eqn:Hu; [|done].
  specialize (IH _ _ eq_refl). pose proof (yy_path_states _ _ _ _ _ _ start_state Hu) as Hs1.
  cbn [mbind option_bind fst snd yy_path]. destruct (yy_next s1 c) as [s'|] eqn:Hn; [|done].
  destruct (s' =? yy_jam) eqn:Hj; [done|]. apply Z.eqb_neq in Hj. intros [= <- _].
  destruct (kind_next s1 c s' Hs1 Hn Hj) as (H7 & H6 & Hk). unfold text_kind in *.
  assert (s1 = 1 -> u = []) as H1.
  { intros ->. rewrite !decide_False in IH by by_decide. by apply IH. }
  destruct (decide (s' ∈ string_states)); [intros E7; destruct H7 as [?|[? ->]]; [done|by rewrite H1]|].
  destruct (decide (s' = 6)); [destruct H6 as [?|[? ->]]; [done|by rewrite H1]|].
  destruct Hk as [?|[?|(? & ? & ? & ?)]]; [done..|]. rewrite !decide_False in IH by done. destruct IH as [_ IH]. split; [done|]. rewrite elem_of_app, list_elem_of_singleton. by intros [?|<-].
Qed.

(** The state of a match is reached by its text. *)
Lemma match_path u : forall s n last st k,
  s ∈ yy_states -> yy_match s u n last = Some (st, k) ->
  last = Some (st, k) \/ (n <= k)%nat /\ exists last', yy_path s (take (k - n) u) n last = Some (st, last').
Proof.
  assert (forall s n last st k, with_accept s n last = Some (st, k) -> last = Some (st, k) \/ s = st /\ n = k) as Hw.
  { intros s n last st k. unfold with_accept. destruct (_ =? 0); [by left|]. intros [= -> ->]. by right. }
  induction u as [|c u IH]; intros s n last st k Hs; cbn [yy_match];
    [|destruct (next_states s c Hs) as (s1 & Hn & Hs1); rewrite Hn]; fold (with_accept s n last).
  - intros [?|[-> ->]]%Hw; [by left|right]. rewrite take_nil. by eauto.
  - destruct (s1 =? yy_jam) eqn:Hj.
    + intros [?|[-> ->]]%Hw; [by left|right]. rewrite Nat.sub_diag. by eauto.
    + intros [[?|[-> ->]]%Hw|(Hk & last' & Hp)]%IH; [by left|right|right|by destruct Hs1 as [->|]].
      * rewrite Nat.sub_diag. by eauto.
      * split; [lia|]. exists last'. replace (k - n)%nat with (S (k - S n)) by lia. cbn [take yy_path]. by rewrite Hn, Hj.
Qed.

Lemma kind_accepts s a : s ∈ yy_states -> at_ yy_accept s = Some a ->
  (s ∈ string_states -> s = 7 \/ a = 15 \/ a = 0) /\ (s = 7 -> a = 19) /\ (a = 18 <-> s = 6).
Proof.
  intros Hs Ha. assert (forallb (fun s => match at_ yy_accept s with
    | Some a => bool_decide ((~ (s ∈ string_states) \/ s = 7 \/ a = 15 \/ a = 0) /\ (s <> 7 \/ a = 19)
                             /\ (a <> 18 \/ s = 6) /\ (s <> 6 \/ a = 18))
    | None => false end) yy_states = true) as Hall by (vm_compute; reflexivity).
  rewrite forallb_forall in Hall. apply list_elem_of_In in Hs. specialize (Hall s Hs). rewrite Ha in Hall.
  apply bool_decide_eq_true in Hall. tauto.
Qed.

Lemma rule_text input st k a :
  yy_match 1 input 0 None = Some (st, k) -> at_ yy_accept st = Some a ->
  a = 15 \/ a = 18 /\ take k input = [LF] \/ a <> 18 /\ LF ∉ take k input.
Proof.
  intros Hm Ha. pose proof (yy_match_good 1 input 0 None start_state I) as Hg. rewrite Hm in Hg.
  destruct Hg as (_ & a' & Ha' & H0 & _). rewrite Ha in Ha'. injection Ha' as <-.
  destruct (match_path _ _ _ _ _ _ start_state Hm) as [?|(_ & last & Hp)]; [done|]. rewrite Nat.sub_0_r in Hp.
  pose proof (yy_path_states _ _ _ _ _ _ start_state Hp) as Hs. apply path_kind in Hp. unfold text_kind in Hp.
  destruct (kind_accepts st a Hs Ha) as (H15 & H19 & H18).
  destruct (decide (st ∈ string_states)) as [Hin|]; [|destruct (decide (st = 6)) as [H6|]].
  - destruct (H15 Hin) as [H7|[?|?]]; [|by left|done]. right. right. rewrite (Hp H7), (H19 H7).
    split; [done|]. by_decide.
  - right. left. split; [by apply H18|done].
  - right. right. split; [by rewrite H18|]. by apply Hp.
Qed.

(** ** The tokens and their locations *)

(** The tokens of an input that is given as a whole, [loc] the location where the next begins. *)
Fixpoint flex_located (fuel : nat) (loc : location.t) (input : list ascii)
  : option (list (token * location.t) * (location.t * option exn)) :=
  match input with
  | [] => Some ([], (loc, None))
  | _ =>
      match fuel with
      | O => None
      | S fuel' =>
          '(state, n) ← yy_match 1 input 0 None;
          act ← at_ yy_accept state;
          r ← flex_action act (take n input);
          let loc := locate act (take n input) loc in
          match r with
          | Throw x => Some ([], (loc, Some x))
          | Ok None => flex_located fuel' loc (drop n input)
          | Ok (Some t) =>
              '(ts, x) ← flex_located fuel' (location.step loc) (drop n input);
              Some ((t, loc) :: ts, x)
          end
      end
  end.

Lemma flex_located_scan f loc input :
  (fun r => (r.1.*1, r.2.2)) <$> flex_located f loc input = flex_scan f input.
Proof.
  revert loc input. induction f as [|f IH]; intros loc [|c s]; [done..|].
  cbn [flex_located flex_scan]. unfold flex_token. destruct (yy_match 1 (c :: s) 0 None) as [[st k]|]; [|done].
  cbn [mbind option_bind]. destruct (at_ yy_accept st) as [a|]; [|done]. cbn [mbind option_bind].
  destruct (flex_action a (take k (c :: s))) as [[[t|]|x]|]; [..|done|done]; cbn [mbind option_bind].
  - rewrite <- (IH (location.step (locate a (take k (c :: s)) loc))).
    by destruct (flex_located f (location.step (locate a (take k (c :: s)) loc)) (drop k (c :: s))) as [[ts x]|].
  - rewrite <- (IH (locate a (take k (c :: s)) loc)).
    by destruct (flex_located f (locate a (take k (c :: s)) loc) (drop k (c :: s))) as [[ts x]|].
Qed.

Section scanner.
Variable junk : ascii.
Variable rd : nat.
Hypothesis rd_pos : (0 < rd)%nat.
Implicit Types (input : list ascii) (l : lexer) (loc : location.t).

(** A call of [yylex] does what the reference does up to the next token. *)
Definition lex_agrees (f : nat) (loc : location.t) (input : list ascii)
  (r : option (option (result token) * location.t * lexer)) : Prop :=
  match r with
  | None => flex_located f loc input = None
  | Some (None, loc', _) => flex_located f loc input = Some ([], (loc', None))
  | Some (Some (Throw x), loc', _) => flex_located f loc input = Some ([], (loc', Some x))
  | Some (Some (Ok t), loc', l') =>
      exists f' rest, (length rest < length input)%nat /\ (length rest <= f')%nat /\ left_to_scan l' rest
      /\ flex_located f loc input
         = ('(ts, x) ← flex_located f' (location.step loc') rest; Some ((t, loc') :: ts, x))
  end.

Lemma lex_loop_agrees n : forall f fuel loc l input,
  (length input <= n)%nat -> (n <= f)%nat -> (2 * n + 4 <= fuel)%nat -> Z.of_nat n + 1 < 2 ^ 30 ->
  left_to_scan l input -> lex_agrees f loc input (lex_loop junk rd fuel loc l).
Proof.
  induction n as [|n IH]; intros f fuel loc l [|c s] Hn Hf Hfuel Hmax Hl; [|cbn [length] in Hn; lia| |].
  1,2: destruct fuel as [|fuel]; [lia|]; cbn [lex_loop];
    destruct (scan_rule_eof junk rd rd_pos (S fuel) l Hl) as (l' & -> & _); [lia|]; cbn [mbind option_bind lex_agrees];
    by destruct f.
  destruct fuel as [|fuel]; [lia|]. destruct f as [|f]; [lia|].
  destruct (scan_rule_spec junk rd rd_pos (S fuel) l c s Hl) as (st & k & a & l' & Hm & Hk & Ha & Hs & Hl'); [lia..|].
  cbn [lex_loop]. rewrite Hs. cbn [mbind option_bind].
  destruct (flex_action a (take k (c :: s))) as [r|] eqn:Hact; cbn [mbind option_bind].
  2: { cbn [lex_agrees flex_located]. rewrite Hm. cbn [mbind option_bind]. rewrite Ha. cbn [mbind option_bind]. by rewrite Hact. }
  assert (length (drop k (c :: s)) <= n)%nat as Hrest by (rewrite length_drop; lia).
  destruct r as [[t|]|x].
  - exists f, (drop k (c :: s)). split; [rewrite length_drop; lia|]. split; [lia|]. split; [done|].
    cbn [flex_located]. rewrite Hm. cbn [mbind option_bind]. rewrite Ha. cbn [mbind option_bind]. by rewrite Hact.
  - assert (flex_located (S f) loc (c :: s) = flex_located f (locate a (take k (c :: s)) loc) (drop k (c :: s))) as Heq.
    { cbn [flex_located]. rewrite Hm. cbn [mbind option_bind]. rewrite Ha. cbn [mbind option_bind]. by rewrite Hact. }
    pose proof (IH f fuel (locate a (take k (c :: s)) loc) l' _ Hrest ltac:(lia) ltac:(lia) ltac:(lia) Hl') as Hag.
    unfold lex_agrees in *. rewrite Heq. rewrite length_drop in Hag.
    destruct (lex_loop junk rd fuel _ l') as [[[[[t|x]|] loc'] l'']|]; try done.
    destruct Hag as (f' & rest & ? & ?). exists f', rest. split; [lia|done].
  - cbn [lex_agrees flex_located]. rewrite Hm. cbn [mbind option_bind]. rewrite Ha. cbn [mbind option_bind]. by rewrite Hact.
Qed.

Lemma lex_all_located n : forall f calls fuel loc l input,
  (length input <= n)%nat -> (length input <= f)%nat -> (n < calls)%nat -> (2 * n + 4 <= fuel)%nat ->
  Z.of_nat n + 1 < 2 ^ 30 -> left_to_scan l input ->
  lex_all junk rd calls fuel loc l = flex_located f (location.step loc) input.
Proof.
  induction n as [n IH] using lt_wf_ind. intros f calls fuel loc l input Hn Hf Hcalls Hfuel Hmax Hl.
  destruct calls as [|calls]; [lia|]. cbn [lex_all]. unfold yylex.
  pose proof (lex_loop_agrees (length input) f fuel (location.step loc) l input ltac:(lia) Hf ltac:(lia) ltac:(lia) Hl) as Hag.
  destruct (lex_loop junk rd fuel (location.step loc) l) as [[[[[t|x]|] loc'] l']|]; cbn [mbind option_bind lex_agrees] in *;
    [|by rewrite Hag..].
  destruct Hag as (f' & rest & Hlt & Hf' & Hl' & ->). destruct n as [|n]; [lia|].
  by rewrite (IH n ltac:(lia) f' calls fuel loc' l' rest) by (done || lia).
Qed.
End scanner.

Lemma created_ready junk size input :
  (2 <= size)%nat -> left_to_scan (yy_create_buffer junk size (MkStream input false)) input.
Proof.
  intros Hsize. exists []. split; [|done]. unfold yy_create_buffer. rewrite Nat.add_comm.
  constructor; cbn; [by exists [], (replicate size junk)|done| |done|done|by intros [?|?]].
  rewrite length_replicate. lia.
Qed.

(** ** Where the tokens are *)

Lemma advance_bound u p : 0 <= position.column p < two32 -> 0 <= position.column (foldl advance p u) < two32.
Proof.
  revert p. induction u as [|c u IH]; intros p Hp; [done|]. cbn [foldl]. apply IH.
  unfold advance. destruct (decide _); cbn; [done|]. unfold wrap32. by apply Z.mod_pos_bound.
Qed.

Lemma locate_text a text p :
  text <> [] -> a = 18 /\ text = [LF] \/ a <> 18 /\ LF ∉ text -> 0 <= position.column p < two32 ->
  locate a text (location.at_position p)
  = (if (a =? 17) || (a =? 18) then location.at_position else location.between p) (foldl advance p text).
Proof.
  intros Hne Hcase Hp. unfold locate, location.columns, location.lines, location.step, location.at_position.
  cbn [location.start location.finish]. destruct Hcase as [[-> ->]|[H18 Hlf]].
  - cbn [Z.eqb length orb foldl location.start location.finish]. by rewrite <- newline_advance.
  - apply Z.eqb_neq in H18 as ->. rewrite orb_false_r. unfold position.plus.
    rewrite columns_advance; [by destruct (a =? 17)| |done|done].
    apply list.Forall_forall. by intros c Hc ->.
Qed.

(** The first rule of an input, and the reference after it. *)
Lemma flex_located_cons f loc c s :
  exists k a, (1 <= k <= length (c :: s))%nat /\ (a = 15 \/ a = 18 /\ take k (c :: s) = [LF] \/ a <> 18 /\ LF ∉ take k (c :: s))
  /\ flex_token (c :: s) = (r ← flex_action a (take k (c :: s)); Some (r, drop k (c :: s)))
  /\ flex_located (S f) loc (c :: s)
     = (r ← flex_action a (take k (c :: s));
        let loc := locate a (take k (c :: s)) loc in
        match r with
        | Throw x => Some ([], (loc, Some x))
        | Ok None => flex_located f loc (drop k (c :: s))
        | Ok (Some t) =>
            '(ts, x) ← flex_located f (location.step loc) (drop k (c :: s)); Some ((t, loc) :: ts, x)
        end).
Proof.
  destruct (rule_found c s) as (st & k & a & Hm & Hk & Ha). exists k, a. split; [done|].
  split; [by eapply rule_text|]. unfold flex_token. cbn [flex_located]. rewrite Hm. cbn [mbind option_bind].
  by rewrite Ha.
Qed.

(** What the actions give, and how they move the location. *)
Lemma action_kind a text r :
  flex_action a text = Some r ->
  match r with
  | Ok None => a = 17
  | Ok (Some t) => a <> 17 /\ (a = 15 -> t = STRING text) /\ (a = 18 -> t = EOL)
  | Throw _ => True
  end.
Proof.
  unfold flex_action. destruct a as [|a|a]; try done.
  do 5 (try destruct a as [a|a|]; try done);
    try (intros [= <-]; done).
  - destruct text; intros [= <-]; done.
  - destruct (k_int_max <? decimal text); intros [= <-]; done.
Qed.

(** Where the tokens of an input are that follows a text. *)
Definition well_located (p0 : position.t) (pre input : list ascii) (ts : list (token * location.t)) : Prop :=
  forall t loc, (t, loc) ∈ ts -> t <> EOL ->
  exists u text post, input = u ++ text ++ post /\ text <> []
  /\ flex_token (text ++ post) = Some (Ok (Some t), post)
  /\ loc = location.between (foldl advance p0 (pre ++ u)) (foldl advance p0 (pre ++ u ++ text)).

Lemma well_located_later p0 pre text rest ts :
  well_located p0 (pre ++ text) rest ts -> well_located p0 pre (text ++ rest) ts.
Proof.
  intros H t loc Hin Ht. destruct (H t loc Hin Ht) as (u & w & post & -> & Hw & Htk & ->).
  exists (text ++ u), w, post. by rewrite <- !app_assoc.
Qed.

Lemma flex_located_where f : forall p0 pre input ts e x,
  0 <= position.column p0 < two32 ->
  flex_located f (location.at_position (foldl advance p0 pre)) input = Some (ts, (e, x)) ->
  (forall s loc, (STRING s, loc) ∈ ts -> LF ∉ s) ->
  well_located p0 pre input ts /\ (x = None -> e = location.at_position (foldl advance p0 (pre ++ input))).
Proof.
  induction f as [|f IH]; intros p0 pre [|c s] ts e x Hp0 Hloc Hstr.
  1,3: cbn in Hloc; simplify_eq; rewrite app_nil_r; split; [|done]; intros t loc Hin; by apply not_elem_of_nil in Hin.
  { done. }
  destruct (flex_located_cons f (location.at_position (foldl advance p0 pre)) c s)
    as (k & a & Hk & Htext & Htok & Heq).
  rewrite Heq in Hloc. clear Heq. set (text := take k (c :: s)) in *. set (rest := drop k (c :: s)) in *.
  assert (c :: s = text ++ rest) as Hsplit by (symmetry; apply take_drop).
  assert (text <> []) as Hne by (destruct k; [lia|done]).
  destruct (flex_action a text) as [r|] eqn:Hact; [|done]. cbn [mbind option_bind] in Hloc, Htok. cbv zeta in Hloc.
  pose proof (action_kind _ _ _ Hact) as Hkind.
  assert ((a = 15 -> LF ∉ text) -> locate a text (location.at_position (foldl advance p0 pre))
    = (if (a =? 17) || (a =? 18) then location.at_position else location.between (foldl advance p0 pre))
        (foldl advance p0 (pre ++ text))) as Hlocate.
  { intros Hs. rewrite foldl_app. apply locate_text; [done| |by apply advance_bound]. destruct Htext as [->|?]; [|done].
    right. split; [done|]. by apply Hs. }
  clearbody text rest. rewrite Hsplit in Htok |- *. rewrite app_assoc. destruct r as [[t'|]|x'].
  - destruct (flex_located f _ rest) as [[ts' [e' x']]|] eqn:Hrest; [|done]. cbn [mbind option_bind] in Hloc.
    injection Hloc as <- <- <-. destruct Hkind as (H17 & H15 & H18). apply Z.eqb_neq in H17.
    rewrite Hlocate in Hrest |- * by (intros E; eapply (Hstr _ _); rewrite (H15 E); by left).
    rewrite H17 in Hrest |- *. cbn [orb] in Hrest |- *.
    destruct (IH p0 (pre ++ text) rest ts' e' x' Hp0) as [Hw He]; [by destruct (a =? 18)| |].
    { intros s' l' Hs'. eapply Hstr. by right. }
    split; [|done]. intros t loc [[= -> ->]|Hin]%elem_of_cons Ht; [|by apply (well_located_later p0 pre text rest ts' Hw)].
    exists [], text, rest. rewrite app_nil_r. cbn [app]. by destruct (a =? 18) eqn:E; [apply Z.eqb_eq, H18 in E|].
  - subst a. rewrite Hlocate in Hloc by done.
    destruct (IH p0 (pre ++ text) rest ts e x Hp0 Hloc Hstr) as [Hw He]. split; [by apply well_located_later|done].
  - injection Hloc as <- <- <-. split; [|done]. intros t loc Hin. by apply not_elem_of_nil in Hin.
Qed.

(** The scanner over a stream, from the first call on. *)
Definition scan_stream (junk : ascii) (size rd calls fuel : nat) (p : position.t) (input : list ascii)
  : option (list (token * location.t) * (location.t * option exn)) :=
  lex_all junk rd calls fuel (location.at_position p) (yy_create_buffer junk size (MkStream input false)).

Lemma scan_stream_tokens junk size rd calls fuel p input :
  (2 <= size)%nat -> (0 < rd)%nat -> Z.of_nat (length input) + 1 < 2 ^ 30 ->
  (length input < calls)%nat -> (2 * length input + 4 <= fuel)%nat ->
  exists ts e, scan_stream junk size rd calls fuel p input = Some (ts, e)
  /\ flex_scan (length input) input = Some (ts.*1, snd e).
Proof.
  intros Hsize Hrd Hmax Hcalls Hfuel. unfold scan_stream.
  rewrite (lex_all_located junk rd Hrd (length input) (length input) calls fuel _ _ input) by (done || by apply created_ready).
  rewrite <- (flex_located_scan (length input) (location.step (location.at_position p)) input).
  destruct (flex_located _ _ _) as [[ts e]|] eqn:Hl; [by exists ts, e|].
  pose proof (flex_located_scan (length input) (location.step (location.at_position p)) input) as Hscan.
  rewrite Hl, flex_scan_scan in Hscan by done. destruct (scan_total (length input) input) as [y Hy]; [done|].
  by rewrite <- Hscan in Hy.
Qed.

(** C11. The scanner finds the same tokens over its buffer as the rules say of the whole input,
    whatever the sizes of the buffer and of a read: tokens that the end of the buffer cuts, NULs in
    the input, moving the matched text to the front, growing the buffer and the end of the stream
    included.  It never reads or writes outside the buffer, and it reaches the end of the input. *)
Theorem buffered_scan_correct junk size rd calls fuel p input :
  (2 <= size)%nat -> (0 < rd)%nat -> Z.of_nat (length input) + 1 < 2 ^ 30 ->
  (length input < calls)%nat -> (2 * length input + 4 <= fuel)%nat ->
  (fun r => (r.1.*1, r.2.2)) <$> scan_stream junk size rd calls fuel p input = scan (length input) input
  /\ is_Some (scan_stream junk size rd calls fuel p input).
Proof.
  intros Hsize Hrd Hmax Hcalls Hfuel.
  destruct (scan_stream_tokens junk size rd calls fuel p input) as (ts & e & -> & Hflex); [done..|].
  rewrite flex_scan_scan in Hflex by done. split; [by rewrite Hflex|by eexists].
Qed.

Lemma buffered_scan_correct_witness :
  let input := String.list_ascii_of_string "state = 10.25 and tagged" in
  (fun r => (r.1.*1, r.2.2)) <$> scan_stream "x" 2 3 30 60 (position.Mk None 1 1) input = scan (length input) input
  /\ is_Some (scan_stream "x" 2 3 30 60 (position.Mk None 1 1) input).
Proof.
  intros input. apply buffered_scan_correct; [lia|lia|by vm_compute|cbn; lia|cbn; lia].
Defined.

(** The location of a token is where its text is in the input: the lines and columns of a
    reader who counts line feeds, as long as no string holds a line feed.  (The token of a line feed is
    the exception: its location is empty and behind it.)  The end of the input is located too. *)
Theorem token_locations junk size rd calls fuel p input ts e x :
  (2 <= size)%nat -> (0 < rd)%nat -> Z.of_nat (length input) + 1 < 2 ^ 30 ->
  (length input < calls)%nat -> (2 * length input + 4 <= fuel)%nat -> 0 <= position.column p < two32 ->
  scan_stream junk size rd calls fuel p input = Some (ts, (e, x)) ->
  (forall s loc, (STRING s, loc) ∈ ts -> LF ∉ s) ->
  well_located p [] input ts /\ (x = None -> e = location.at_position (foldl advance p input)).
Proof.
  intros Hsize Hrd Hmax Hcalls Hfuel Hp Hscan Hstr. unfold scan_stream in Hscan.
  rewrite (lex_all_located junk rd Hrd (length input) (length input) calls fuel _ _ input) in Hscan
    by (done || by apply created_ready).
  by apply (flex_located_where (length input) p [] input ts e x).
Qed.

Lemma token_locations_witness :
  let p := position.Mk None 1 1 in
  let input := String.list_ascii_of_string "a = 12" in
  well_located p [] input
    [(UNQUOTEDSTRING ["a"%char], location.Mk (position.Mk None 1 1) (position.Mk None 1 2));
     (OP EQUAL, location.Mk (position.Mk None 1 3) (position.Mk None 1 4));
     (INTEGER 12, location.Mk (position.Mk None 1 5) (position.Mk None 1 7))]
  /\ (@None exn = None -> location.at_position (position.Mk None 1 7) = location.at_position (foldl advance p input)).
Proof.
  intros p input. apply (token_locations "x" 2 1 10 20);
    [lia|lia|by vm_compute|cbn; lia|cbn; lia|done|vm_compute; reflexivity|].
  intros s loc Hin. by repeat (apply elem_of_cons in Hin as [[=]|Hin]); apply not_elem_of_nil in Hin.
Defined.

(** A line feed inside a string counts as a column: behind it the lines are wrong. *)
Example line_feed_in_string :
  scan_stream "x" 16 16 10 20 (position.Mk None 1 1) (k_quote :: LF :: k_quote :: " "%char :: ["a"%char])
  = Some ([(STRING [k_quote; LF; k_quote], location.Mk (position.Mk None 1 1) (position.Mk None 1 4));
           (UNQUOTEDSTRING ["a"%char], location.Mk (position.Mk None 1 5) (position.Mk None 1 6))],
          (location.at_position (position.Mk None 1 6), None))
  /\ foldl advance (position.Mk None 1 1) (k_quote :: LF :: k_quote :: [" "%char]) = position.Mk None 2 3.
Proof. vm_compute. done. Qed.
