(* ===== verification/FlexStack.v ===== *)
(** * The rest of the generated scanner: pushing back, and several inputs

    [src/query/scanner.cpp] a third time.  [yyunput] and [yyinput] work on the buffer of
    [FlexBuffer].  The scanner can have several inputs: buffers are allocated, switched, pushed and popped,
    each with a stream of its own.  The main theorem is that such a scanner refines a
    stack of texts: whatever is read from one input does not disturb the ones below it, no
    freed buffer is read, and the stack of pointers is never left.  The stack of start
    conditions closes the file.

    [None] is undefined behaviour or a fatal error of the scanner; allocation succeeds. *)

From S2P Require Import Prelude Query Lalr Flex Location FlexBuffer.

Local Open Scope nat_scope.

(** ** [yyunput] and [yyinput] *)

Section push_back.
Variable junk : ascii.
Variable YY_READ_BUF_SIZE : nat.

(** The buffer is moved to the end of its memory if there is no room before the character. *)
Definition shift_up (l : lexer) : lexer :=
  let d := yy_buf_size l - yy_n_chars l in
  let m := take d (yy_ch_buf l) ++ take (yy_n_chars l + 2) (yy_ch_buf l) ++ drop (yy_buf_size l + 2) (yy_ch_buf l) in
  MkLexer (yyin l) m (yy_buf_size l) (yy_buf_size l) (yy_buffer_status l) (yy_buf_size l)
    (yy_c_buf_p l + d) (yytext_ptr l + d) (yy_hold_char l) (last_accepting_state l) (last_accepting_cpos l).

Definition yyunput (c : ascii) (l : lexer) : option lexer :=
  let l := put (yy_c_buf_p l) (yy_hold_char l) l in
  let l := if yy_c_buf_p l <? 2 then shift_up l else l in
  if yy_c_buf_p l <? 2 then None
  else
    let cp := yy_c_buf_p l - 1 in
    Some (MkLexer (yyin l) (<[cp := c]> (yy_ch_buf l)) (yy_buf_size l) (buf_n_chars l) (yy_buffer_status l)
            (yy_n_chars l) cp (yytext_ptr l) c (last_accepting_state l) (last_accepting_cpos l)).

(** The character under the pointer is taken; [yytext] stays a string. *)
Definition take_char (l : lexer) : option (option ascii * lexer) :=
  c ← yy_ch_buf l !! yy_c_buf_p l;
  let l := put (yy_c_buf_p l) NUL l in
  h ← yy_ch_buf l !! S (yy_c_buf_p l);
  Some (Some c, MkLexer (yyin l) (yy_ch_buf l) (yy_buf_size l) (buf_n_chars l) (yy_buffer_status l)
                  (yy_n_chars l) (S (yy_c_buf_p l)) (yytext_ptr l) h (last_accepting_state l) (last_accepting_cpos l)).

(** [yywrap] is true: the end of the file, [None] in the result, is final. *)
Definition yyinput (l : lexer) : option (option ascii * lexer) :=
  let l := put (yy_c_buf_p l) (yy_hold_char l) l in
  c ← yy_ch_buf l !! yy_c_buf_p l;
  if decide (c = NUL) then
    if yy_c_buf_p l <? yy_n_chars l then take_char l
    else
      let offset := yy_c_buf_p l - yytext_ptr l in
      '(r, l) ← yy_get_next_buffer junk YY_READ_BUF_SIZE (set_c_buf_p (S (yy_c_buf_p l)) l);
      match r with
      | EOB_ACT_LAST_MATCH => Some (None, yyrestart l)
      | EOB_ACT_END_OF_FILE => Some (None, l)
      | EOB_ACT_CONTINUE_SCAN => take_char (set_c_buf_p (yytext_ptr l + offset) l)
      end
  else take_char l.
End push_back.

(** *** A character that is pushed back is read next *)

Section push_back_spec.
Variable junk : ascii.
Variable rd : nat.
Hypothesis rd_pos : 0 < rd.

Lemma put_id i c l : yy_ch_buf l !! i = Some c -> put i c l = l.
Proof. intros Hi. destruct l. unfold put. cbn in *. by rewrite list_insert_id. Qed.

(** What is before the pointer does not matter. *)
Lemma mid_back t cp v l : mid cp [] v l -> t <= cp -> mid t (take (cp - t) (drop t (yy_ch_buf l))) v l.
Proof.
  intros [(pre & post & Hb & Hpre) Hn Hl Hs Hw Hst] Ht. cbn [app] in *.
  assert (take (cp - t) (drop t (yy_ch_buf l)) = drop t pre) as ->.
  { rewrite Hb, drop_app_le by lia. rewrite take_app_le by (rewrite length_drop; lia). apply take_ge. rewrite length_drop. lia. }
  constructor; try done.
  - exists (take t pre), post. rewrite length_take, <- app_assoc, app_assoc, take_drop. split; [done|lia].
  - rewrite length_app, length_drop. lia.
Qed.

Lemma ready_take c v l :
  mid (yy_c_buf_p l) [] (c :: v) l ->
  exists l', take_char l = Some (Some c, l') /\ ready v l' /\ yyin l' = yyin l
  /\ yytext_ptr l' = yytext_ptr l /\ yy_c_buf_p l' = S (yy_c_buf_p l) /\ yy_buffer_status l' = yy_buffer_status l.
Proof.
  intros Hm. pose proof (mid_lookup rd rd_pos _ _ _ _ 0 c Hm eq_refl) as Hc. rewrite Nat.add_0_r in Hc.
  assert (exists h, yy_ch_buf l !! S (yy_c_buf_p l) = Some h) as [h Hh].
  { destruct v as [|h v]; [|exists h; rewrite <- Nat.add_1_r; by apply (mid_lookup rd rd_pos _ _ _ _ 1 h Hm)].
    exists NUL. destruct (mid_eob rd rd_pos _ _ _ _ Hm) as [He _]. cbn in He. by rewrite Nat.add_1_r in He. }
  unfold take_char. rewrite Hc. cbn [mbind option_bind put yy_ch_buf yy_c_buf_p]. rewrite list_lookup_insert_ne, Hh by lia.
  eexists. split; [reflexivity|]. split; [|done]. unfold ready. cbn [yy_c_buf_p yy_hold_char].
  destruct Hm as [(pre & post & Hb & Hpre) Hn Hl Hs Hw Hst]. cbn [app length] in *. constructor; cbn; try done.
  - exists (pre ++ [NUL]), post. rewrite length_app. cbn. split; [|lia].
    rewrite list_insert_id by (by rewrite list_lookup_insert_ne by lia).
    rewrite Hb, insert_app_r_alt by lia. rewrite Hpre, Nat.sub_diag. cbn. by rewrite <- app_assoc.
  - lia.
  - by rewrite !length_insert.
Qed.

(** [yyinput] while there are characters in the buffer. *)
Lemma input_buffered c v l :
  ready (c :: v) l -> exists l', yyinput junk rd l = Some (Some c, l') /\ ready v l' /\ yyin l' = yyin l
  /\ yytext_ptr l' = yytext_ptr l /\ yy_c_buf_p l' = S (yy_c_buf_p l) /\ yy_buffer_status l' = yy_buffer_status l.
Proof.
  unfold ready at 1, yyinput. set (l1 := put _ _ l). intros Hm. change (yy_c_buf_p l) with (yy_c_buf_p l1) in Hm.
  pose proof (mid_lookup rd rd_pos _ _ _ _ 0 c Hm eq_refl) as Hc. rewrite Nat.add_0_r in Hc. rewrite Hc. cbn [mbind option_bind].
  destruct (ready_take c v l1 Hm) as (l' & Ht & Hr & Hrest). exists l'. split; [|done].
  case_decide; [|done]. rewrite (md_n _ _ _ _ Hm). cbn [app length].
  by replace (_ <? _) with true by (symmetry; apply Nat.ltb_lt; lia).
Qed.

Lemma mid_forward bp u v l : mid bp u v l -> mid (bp + length u) [] v l.
Proof.
  intros [(pre & post & Hb & Hpre) Hn Hl Hs Hw Hst]. constructor; try done.
  - exists (pre ++ u), post. rewrite length_app, Hb, <- !app_assoc. split; [done|lia].
  - rewrite length_app in Hn. cbn. lia.
Qed.

Lemma restart_ready bp u v l : mid bp u v l -> ready [] (yyrestart l).
Proof.
  intros [_ Hn Hl Hs Hw Hst]. constructor; cbn; try done.
  - destruct (yy_ch_buf l) as [|a [|b m]]; [cbn in Hl; lia..|]. by exists [], m.
  - by rewrite !length_insert.
  - intros [Hx|Hx]; [done|]. apply Hst. by right.
Qed.

(** [yy_get_next_buffer] restarts the buffer at the end of the file, and otherwise keeps its state. *)
Lemma next_buffer_state l r l' :
  yy_get_next_buffer junk rd l = Some (r, l') ->
  match r with
  | EOB_ACT_CONTINUE_SCAN => yy_buffer_status l' = yy_buffer_status l
  | EOB_ACT_END_OF_FILE => yy_c_buf_p l' = 0
  | EOB_ACT_LAST_MATCH => True
  end.
Proof.
  unfold yy_get_next_buffer. destruct (_ <? _); [done|]. destruct (yy_fill _ _ _ _ _) as [[[[m size] n] s]|]; [|done].
  cbn [mbind option_bind]. destruct (n =? 0); [destruct (_ =? 0)|]; destruct (_ + 1 <? length _); intros [= <- <-]; done.
Qed.

(** The text so far is kept when more is read. *)
Lemma input_refill l :
  ready [] l -> yytext_ptr l <= yy_c_buf_p l -> yy_buffer_status l <> BUFFER_NEW ->
  (Z.of_nat (yy_c_buf_p l - yytext_ptr l) + 1 < 2 ^ 30)%Z ->
  match unread (yyin l) with
  | [] => exists l', yyinput junk rd l = Some (None, l') /\ left_to_scan l' []
  | c :: s => exists l', yyinput junk rd l = Some (Some c, l') /\ left_to_scan l' s /\ yytext_ptr l' <= yy_c_buf_p l'
      /\ yy_buffer_status l' <> BUFFER_NEW
  end.
Proof.
  unfold ready, yyinput. set (l1 := put _ _ l). intros Hm Ht Hst Hmax. change (yy_c_buf_p l) with (yy_c_buf_p l1) in Hm, Ht, Hmax.
  change (yytext_ptr l) with (yytext_ptr l1) in Ht, Hmax. change (yyin l) with (yyin l1).
  change (yy_buffer_status l) with (yy_buffer_status l1) in Hst. clearbody l1. clear l.
  destruct (mid_eob rd rd_pos _ _ _ _ Hm) as [He _]. cbn [app length] in He. rewrite Nat.add_0_r in He. rewrite He.
  cbn [mbind option_bind]. rewrite decide_True by done. pose proof (md_n _ _ _ _ Hm) as Hn. cbn [app length] in Hn.
  rewrite Nat.add_0_r in Hn. replace (_ <? _) with false by (symmetry; apply Nat.ltb_ge; lia).
  pose proof (mid_back _ _ _ _ Hm Ht) as Hb. set (u := take _ _) in Hb.
  assert (length u = yy_c_buf_p l1 - yytext_ptr l1) as Hu.
  { pose proof (md_n _ _ _ _ Hb) as Hbn. rewrite app_nil_r in Hbn. lia. }
  destruct (next_buffer junk rd rd_pos (yytext_ptr l1) u (set_c_buf_p (S (yy_c_buf_p l1)) l1)) as (r & l' & Hnext & Ht' & Hr);
    [by apply mid_set_c_buf_p|done|cbn; by rewrite Hn|done|rewrite Hu; done|].
  rewrite Hnext. apply next_buffer_state in Hnext. cbn [mbind option_bind]. change (yyin (set_c_buf_p _ l1)) with (yyin l1) in Hr. rewrite Ht'. cbn [Nat.add]. destruct r.
  - destruct Hr as (got & Hgot & Hun & Hmid). destruct got as [|c got]; [done|]. rewrite Hun. cbn [app].
    rewrite <- Hu. destruct (ready_take c got (set_c_buf_p (length u) l')) as (l2 & -> & Hr2 & Hin2 & Ht2 & Hc2 & Hst2).
    { apply mid_set_c_buf_p. by apply (mid_forward 0). }
    exists l2. split; [done|]. split; [exists got; by rewrite Hin2|]. rewrite Ht2, Hc2, Hst2. cbn. split; [lia|by rewrite Hnext].
  - destruct Hr as (_ & -> & Hun & Hr). eexists. split; [reflexivity|]. exists []. split; [|by rewrite Hun].
    replace l' with (set_c_buf_p 0 l'); [done|]. destruct l'. cbn in Hnext. by subst.
  - destruct Hr as (_ & -> & Hun & Hr). eexists. split; [reflexivity|]. exists []. split; [|cbn; by rewrite Hun].
    by eapply restart_ready.
Qed.

Lemma shift_mid v l :
  mid (yy_c_buf_p l) [] v l -> mid (yy_c_buf_p (shift_up l)) [] v (shift_up l).
Proof.
  intros [(pre & post & Hb & Hpre) Hn Hl Hs Hw Hst]. cbn [app] in *.
  assert (yy_n_chars l + length post = yy_buf_size l) as Hsz.
  { rewrite Hb, !length_app in Hl. cbn [length] in Hl. lia. }
  assert (take (yy_n_chars l + 2) (yy_ch_buf l) = pre ++ v ++ [NUL; NUL]) as Ht.
  { rewrite Hb, Hn. change (NUL :: NUL :: post) with ([NUL; NUL] ++ post).
    rewrite (app_assoc v), (app_assoc pre), take_app_length'; [done|]. rewrite !length_app. cbn [length]. lia. }
  constructor; cbn; rewrite ?Ht, ?(drop_ge (yy_ch_buf l)) by lia; try done.
  - exists (take (yy_buf_size l - yy_n_chars l) (yy_ch_buf l) ++ pre), []. rewrite !length_app, length_take, app_nil_r.
    split; [by rewrite <- !app_assoc|lia].
  - lia.
  - rewrite !length_app, length_take. cbn [length]. lia.
Qed.

Lemma unput_spec c l v :
  ready v l -> 2 <= yy_c_buf_p l + (if yy_c_buf_p l <? 2 then yy_buf_size l - yy_n_chars l else 0) ->
  exists l', yyunput c l = Some l' /\ ready (c :: v) l' /\ yyin l' = yyin l.
Proof.
  unfold ready at 1, yyunput. set (l1 := put _ _ l). intros Hm Hroom.
  assert (exists cp l2, (if yy_c_buf_p l1 <? 2 then shift_up l1 else l1) = l2 /\ yy_c_buf_p l2 = S cp /\ 1 <= cp
    /\ mid (S cp) [] v l2 /\ yyin l2 = yyin l) as (cp & l2 & -> & Hcp & H1 & Hm2 & Hin).
  { change (yy_c_buf_p l) with (yy_c_buf_p l1) in Hm, Hroom. change (yy_buf_size l) with (yy_buf_size l1) in Hroom.
    change (yy_n_chars l) with (yy_n_chars l1) in Hroom. destruct (_ <? 2) eqn:Hlt.
    - exists (yy_c_buf_p (shift_up l1) - 1), (shift_up l1). apply shift_mid in Hm.
      assert (2 <= yy_c_buf_p (shift_up l1)) by (cbn [shift_up yy_c_buf_p]; lia).
      replace (S (_ - 1)) with (yy_c_buf_p (shift_up l1)) by lia. split_and!; (done || lia).
    - apply Nat.ltb_ge in Hlt. exists (yy_c_buf_p l1 - 1), l1. assert (S (yy_c_buf_p l1 - 1) = yy_c_buf_p l1) as -> by lia.
      split_and!; (done || lia). }
  rewrite Hcp. replace (S cp <? 2) with false by (symmetry; apply Nat.ltb_ge; lia). replace (S cp - 1) with cp by lia.
  eexists. split; [reflexivity|]. split; [|done]. unfold ready. cbn [yy_c_buf_p yy_hold_char].
  destruct Hm2 as [(pre & post & Hb & Hpre) Hn Hl Hs Hw Hst]. constructor; cbn in *; try done.
  - induction pre as [|x pre _] using rev_ind; [done|]. rewrite length_app, Nat.add_1_r in Hpre. injection Hpre as Hpre.
    exists pre, post. split; [|done]. rewrite list_insert_insert_eq, Hb, <- app_assoc, <- Hpre.
    by rewrite insert_app_r_alt, Nat.sub_diag by lia.
  - lia.
  - by rewrite !length_insert.
Qed.

Lemma input_buffered_left c s l :
  (exists v, ready (c :: v) l /\ s = v ++ unread (yyin l)) ->
  exists l', yyinput junk rd l = Some (Some c, l') /\ left_to_scan l' s.
Proof.
  intros (v & Hr & ->). destruct (input_buffered c v l Hr) as (l' & Hi & Hr' & Hin & _).
  exists l'. split; [done|]. exists v. by rewrite Hin.
Qed.

(** [unput] and [input].  A character that is pushed back is the next one to be read, and reading it
    leaves the input as it was, as long as the memory of the buffer has room; without room the process ends
    with the push-back overflow. *)
Theorem unput_input c l input :
  left_to_scan l input ->
  if 2 <=? yy_c_buf_p l + (if yy_c_buf_p l <? 2 then yy_buf_size l - yy_n_chars l else 0) then
    exists l1 l2, yyunput c l = Some l1 /\ left_to_scan l1 (c :: input)
    /\ yyinput junk rd l1 = Some (Some c, l2) /\ left_to_scan l2 input
  else yyunput c l = None.
Proof.
  intros (v & Hr & Hin). destruct (2 <=? _) eqn:Hroom.
  - apply Nat.leb_le in Hroom. destruct (unput_spec c l v Hr Hroom) as (l1 & Hu & Hr1 & Hin1).
    destruct (input_buffered_left c input l1) as (l2 & Hi & Hl2); [exists v; by rewrite Hin1|].
    exists l1, l2. split; [done|]. split; [|done]. exists (c :: v). by rewrite Hin1, Hin.
  - apply Nat.leb_gt in Hroom. destruct (yy_c_buf_p l <? 2) eqn:Hlt; [|apply Nat.ltb_ge in Hlt; lia].
    unfold yyunput. cbn [put yy_c_buf_p]. rewrite Hlt. cbn [shift_up put yy_c_buf_p yy_buf_size yy_n_chars].
    by replace (_ <? 2) with true by (symmetry; apply Nat.ltb_lt; lia).
Qed.

(** [input] reads the input: the next character, or the end of the file.  The text of the token so far is kept in the
    buffer, however much is read. *)
Theorem yyinput_reads l input :
  left_to_scan l input -> yytext_ptr l <= yy_c_buf_p l -> yy_buffer_status l <> BUFFER_NEW ->
  (Z.of_nat (yy_c_buf_p l - yytext_ptr l) + 1 < 2 ^ 30)%Z ->
  exists l', yyinput junk rd l = Some (head input, l') /\ left_to_scan l' (tail input).
Proof.
  intros (v & Hr & ->) Ht Hst Hmax. destruct v as [|c v].
  - pose proof (input_refill l Hr Ht Hst Hmax) as Hi. cbn [app]. destruct (unread (yyin l)) as [|c s]; [done|].
    destruct Hi as (l' & ? & ? & _). by exists l'.
  - apply input_buffered_left. by exists v.
Qed.
End push_back_spec.

(** ** Several buffers *)

(** [yy_at_bol], [yy_bs_lineno] and [yy_bs_column] are written but not read by this scanner; [yy_is_our_buffer] and
    [yy_fill_buffer] are always 1.  A null pointer is [None]; a stream is known by a number. *)
Record buffer : Type := MkBuffer {
  yy_input_file : option nat;
  ch_buf : list ascii;
  yy_buf_pos : nat;
  buf_size : nat;
  n_chars : nat;
  status : buffer_status
}.

(** The members of [yyFlexLexer], with the streams and the allocated buffers.  The length of [yy_buffer_stack] is
    [yy_buffer_stack_max]; the cursor is [yy_c_buf_p], a buffer and an index, and [text_ptr] points into the
    same buffer. *)
Record flex : Type := MkFlex {
  streams : gmap nat istream;
  buffers : gmap nat buffer;
  yy_buffer_stack : option (list (option nat));
  yy_buffer_stack_top : nat;
  in_ : option nat;
  chars_ : nat;
  cursor : option (nat * nat);
  text_ptr : nat;
  held : ascii;
  did_switch : bool;
  init_ : bool;
  last_state : Z;
  last_cpos : nat
}.

Definition set_buffers (m : gmap nat buffer) (s : flex) : flex :=
  MkFlex (streams s) m (yy_buffer_stack s) (yy_buffer_stack_top s) (in_ s) (chars_ s) (cursor s) (text_ptr s)
    (held s) (did_switch s) (init_ s) (last_state s) (last_cpos s).
Definition set_stack (st : option (list (option nat))) (top : nat) (s : flex) : flex :=
  MkFlex (streams s) (buffers s) st top (in_ s) (chars_ s) (cursor s) (text_ptr s)
    (held s) (did_switch s) (init_ s) (last_state s) (last_cpos s).
Definition set_switched (s : flex) : flex :=
  MkFlex (streams s) (buffers s) (yy_buffer_stack s) (yy_buffer_stack_top s) (in_ s) (chars_ s) (cursor s) (text_ptr s)
    (held s) true (init_ s) (last_state s) (last_cpos s).

Section stack.
Variable junk : ascii.
Variables YY_BUF_SIZE YY_READ_BUF_SIZE : nat.
(** The address of a new buffer, given the ones that are in use. *)
Variable malloc : gset nat -> nat.

Definition flex_new (files : gmap nat istream) (arg_yyin : option nat) : flex :=
  MkFlex files ∅ None 0 arg_yyin 0 None 0 NUL false false 0 0.

(** [YY_CURRENT_BUFFER], as a value and as an lvalue. *)
Definition YY_CURRENT_BUFFER (s : flex) : option (option nat) :=
  match yy_buffer_stack s with None => Some None | Some st => st !! yy_buffer_stack_top s end.
Definition set_current (b : option nat) (s : flex) : option flex :=
  st ← yy_buffer_stack s;
  _ ← st !! yy_buffer_stack_top s;
  Some (set_stack (Some (<[yy_buffer_stack_top s := b]> st)) (yy_buffer_stack_top s) s).

Definition yyensure_buffer_stack (s : flex) : flex :=
  match yy_buffer_stack s with
  | None => set_stack (Some [None]) 0 s
  | Some st =>
      if length st - 1 <=? yy_buffer_stack_top s
      then set_stack (Some (st ++ replicate 8 None)) (yy_buffer_stack_top s) s else s
  end.

Definition yy_load_buffer_state (s : flex) : option flex :=
  ob ← YY_CURRENT_BUFFER s;
  b ← ob;
  x ← buffers s !! b;
  c ← ch_buf x !! yy_buf_pos x;
  Some (MkFlex (streams s) (buffers s) (yy_buffer_stack s) (yy_buffer_stack_top s) (yy_input_file x) (n_chars x)
          (Some (b, yy_buf_pos x)) (yy_buf_pos x) c (did_switch s) (init_ s) (last_state s) (last_cpos s)).

Definition flush_buffer (ob : option nat) (s : flex) : option flex :=
  match ob with
  | None => Some s
  | Some b =>
      x ← buffers s !! b;
      if length (ch_buf x) <? 2 then None
      else
        let x := MkBuffer (yy_input_file x) (<[1 := NUL]> (<[0 := NUL]> (ch_buf x))) 0 (buf_size x) 0 BUFFER_NEW in
        let s := set_buffers (<[b := x]> (buffers s)) s in
        cur ← YY_CURRENT_BUFFER s;
        if decide (cur = Some b) then yy_load_buffer_state s else Some s
  end.

Definition yy_init_buffer (b : nat) (file : option nat) (s : flex) : option flex :=
  s ← flush_buffer (Some b) s;
  x ← buffers s !! b;
  Some (set_buffers (<[b := MkBuffer file (ch_buf x) (yy_buf_pos x) (buf_size x) (n_chars x) (status x)]> (buffers s)) s).

Definition create_buffer (file : option nat) (size : nat) (s : flex) : option (nat * flex) :=
  let b := malloc (dom (buffers s)) in
  let x := MkBuffer None (replicate (size + 2) junk) 0 size 0 BUFFER_NEW in
  s ← yy_init_buffer b file (set_buffers (<[b := x]> (buffers s)) s);
  Some (b, s).

(** A buffer that is not allocated must not be freed. *)
Definition yy_delete_buffer (ob : option nat) (s : flex) : option flex :=
  match ob with
  | None => Some s
  | Some b =>
      cur ← YY_CURRENT_BUFFER s;
      s ← (if decide (cur = Some b) then set_current None s else Some s);
      _ ← buffers s !! b;
      Some (set_buffers (delete b (buffers s)) s)
  end.

(** The current buffer gets back the character that is held and remembers where the scanner is. *)
Definition leave_buffer (s : flex) : option flex :=
  cur ← YY_CURRENT_BUFFER s;
  match cur with
  | None => Some s
  | Some b =>
      '(d, p) ← cursor s;
      y ← buffers s !! d;
      _ ← ch_buf y !! p;
      let m := <[d := MkBuffer (yy_input_file y) (<[p := held s]> (ch_buf y)) (yy_buf_pos y) (buf_size y) (n_chars y) (status y)]>
                 (buffers s) in
      x ← m !! b;
      Some (set_buffers (<[b := MkBuffer (yy_input_file x) (ch_buf x) p (buf_size x) (chars_ s) (status x)]> m) s)
  end.

Definition yy_switch_to_buffer (new_buffer : option nat) (s : flex) : option flex :=
  let s := yyensure_buffer_stack s in
  cur ← YY_CURRENT_BUFFER s;
  if decide (cur = new_buffer) then Some s
  else
    s ← leave_buffer s;
    s ← set_current new_buffer s;
    s ← yy_load_buffer_state s;
    Some (set_switched s).

Definition yypush_buffer_state (new_buffer : option nat) (s : flex) : option flex :=
  match new_buffer with
  | None => Some s
  | Some _ =>
      let s := yyensure_buffer_stack s in
      s ← leave_buffer s;
      cur ← YY_CURRENT_BUFFER s;
      let s := match cur with Some _ => set_stack (yy_buffer_stack s) (S (yy_buffer_stack_top s)) s | None => s end in
      s ← set_current new_buffer s;
      s ← yy_load_buffer_state s;
      Some (set_switched s)
  end.

Definition yypop_buffer_state (s : flex) : option flex :=
  cur ← YY_CURRENT_BUFFER s;
  match cur with
  | None => Some s
  | Some b =>
      s ← yy_delete_buffer (Some b) s;
      s ← set_current None s;
      let s := set_stack (yy_buffer_stack s) (yy_buffer_stack_top s - 1) s in
      cur ← YY_CURRENT_BUFFER s;
      match cur with
      | None => Some s
      | Some _ => s ← yy_load_buffer_state s; Some (set_switched s)
      end
  end.

Definition restart (input_file : option nat) (s : flex) : option flex :=
  cur ← YY_CURRENT_BUFFER s;
  s ← match cur with
      | Some _ => Some s
      | None =>
          let s := yyensure_buffer_stack s in
          '(b, s) ← create_buffer (in_ s) YY_BUF_SIZE s;
          set_current (Some b) s
      end;
  cur ← YY_CURRENT_BUFFER s;
  b ← cur;
  s ← yy_init_buffer b input_file s;
  yy_load_buffer_state s.

Definition switch_streams (new_in : option nat) (s : flex) : option flex :=
  match new_in with
  | None => Some s
  | Some _ =>
      cur ← YY_CURRENT_BUFFER s;
      s ← yy_delete_buffer cur s;
      '(b, s) ← create_buffer new_in YY_BUF_SIZE s;
      yy_switch_to_buffer (Some b) s
  end.

(** [std::cin] is the stream with the number 0. *)
Definition first_call (s : flex) : option flex :=
  if init_ s then Some s
  else
    let s := MkFlex (streams s) (buffers s) (yy_buffer_stack s) (yy_buffer_stack_top s) (Some (default 0 (in_ s)))
               (chars_ s) (cursor s) (text_ptr s) (held s) (did_switch s) true (last_state s) (last_cpos s) in
    cur ← YY_CURRENT_BUFFER s;
    s ← match cur with
        | Some _ => Some s
        | None =>
            let s := yyensure_buffer_stack s in
            '(b, s) ← create_buffer (in_ s) YY_BUF_SIZE s;
            set_current (Some b) s
        end;
    yy_load_buffer_state s.

(** What the destructor leaves allocated. *)
Definition flex_delete (s : flex) : option (gmap nat buffer) :=
  cur ← YY_CURRENT_BUFFER s;
  s ← yy_delete_buffer cur s;
  Some (buffers s).

(** *** Scanning in the current buffer *)

Definition view (s : flex) : option lexer :=
  cur ← YY_CURRENT_BUFFER s;
  b ← cur;
  '(d, p) ← cursor s;
  if decide (d = b) then
    x ← buffers s !! b;
    f ← in_ s;
    i ← streams s !! f;
    Some (MkLexer i (ch_buf x) (buf_size x) (n_chars x) (status x) (chars_ s) p (text_ptr s) (held s)
            (last_state s) (last_cpos s))
  else None.

Definition write_back (b f : nat) (x : buffer) (l : lexer) (s : flex) : flex :=
  MkFlex (<[f := yyin l]> (streams s))
    (<[b := MkBuffer (yy_input_file x) (yy_ch_buf l) (yy_buf_pos x) (yy_buf_size l) (buf_n_chars l) (yy_buffer_status l)]>
       (buffers s))
    (yy_buffer_stack s) (yy_buffer_stack_top s) (Some f) (yy_n_chars l) (Some (b, yy_c_buf_p l)) (yytext_ptr l)
    (yy_hold_char l) (did_switch s) (init_ s) (last_accepting_state l) (last_accepting_cpos l).

(** One turn of the loop of [yylex]. *)
Definition flex_rule (fuel : nat) (s : flex) : option (lexed * flex) :=
  s ← first_call s;
  l ← view s;
  '(r, l) ← scan_rule junk YY_READ_BUF_SIZE fuel l;
  '(b, _) ← cursor s;
  x ← buffers s !! b;
  f ← in_ s;
  Some (r, write_back b f x l s).

Inductive flex_op : Type :=
| Begin (file : nat)
| End
| Switch (file : nat)
| Restart (file : nat)
| Scan.

(** [Begin]: a buffer for the file is created and pushed. *)
Definition flex_step (fuel : nat) (o : flex_op) (s : flex) : option (list lexed * flex) :=
  match o with
  | Begin file =>
      '(b, s) ← create_buffer (Some file) YY_BUF_SIZE s;
      s ← yypush_buffer_state (Some b) s;
      Some ([], s)
  | End => s ← yypop_buffer_state s; Some ([], s)
  | Switch file => s ← switch_streams (Some file) s; Some ([], s)
  | Restart file => s ← restart (Some file) s; Some ([], s)
  | Scan => '(r, s) ← flex_rule fuel s; Some ([r], s)
  end.
Fixpoint flex_run (fuel : nat) (os : list flex_op) (s : flex) : option (list lexed * flex) :=
  match os with
  | [] => Some ([], s)
  | o :: os' => '(r, s) ← flex_step fuel o s; '(rs, s) ← flex_run fuel os' s; Some (r ++ rs, s)
  end.
End stack.

(** ** A stack of texts *)

(** The files that have not been opened, and what is left of the inputs, the current one first. *)
Record texts : Type := MkTexts { files : gmap nat (list ascii); inputs : list (list ascii) }.

Definition text_rule (input : list ascii) : option (lexed * list ascii) :=
  match input with
  | [] => Some (LEof, [])
  | _ =>
      '(st, k) ← yy_match 1 input 0 None;
      a ← at_ yy_accept st;
      Some (LRule a (take k input), drop k input)
  end.

Definition texts_step (o : flex_op) (t : texts) : option (list lexed * texts) :=
  match o with
  | Begin f => input ← files t !! f; Some ([], MkTexts (delete f (files t)) (input :: inputs t))
  | End => Some ([], MkTexts (files t) (tail (inputs t)))
  | Switch f | Restart f => input ← files t !! f; Some ([], MkTexts (delete f (files t)) (input :: tail (inputs t)))
  | Scan =>
      input ← head (inputs t);
      '(r, rest) ← text_rule input;
      Some ([r], MkTexts (files t) (rest :: tail (inputs t)))
  end.
Fixpoint texts_run (os : list flex_op) (t : texts) : option (list lexed * texts) :=
  match os with
  | [] => Some ([], t)
  | o :: os' => '(r, t) ← texts_step o t; '(rs, t) ← texts_run os' t; Some (r ++ rs, t)
  end.

(** *** The stack of pointers *)

(** The buffers [bs], the topmost first; either the pointer at the top is theirs, or it is null and above them. *)
Definition shape (full : bool) (bs : list nat) (s : flex) : Prop :=
  exists k, yy_buffer_stack s = Some ((Some <$> rev bs) ++ replicate k None)
  /\ if full then S (yy_buffer_stack_top s) = length bs else yy_buffer_stack_top s = length bs /\ 0 < k.

Lemma stack_last b bs k : ((Some <$> rev (b :: bs)) ++ replicate k (@None nat)) !! length bs = Some (Some b).
Proof.
  cbn [rev]. rewrite fmap_app, <- app_assoc, lookup_app_r; rewrite length_fmap, length_rev; [|lia]. by rewrite Nat.sub_diag.
Qed.

Lemma current_full b bs s : shape true (b :: bs) s -> YY_CURRENT_BUFFER s = Some (Some b).
Proof. intros (k & Hst & [= Ht]). unfold YY_CURRENT_BUFFER. rewrite Hst, Ht. apply stack_last. Qed.

Lemma current_hole bs s : shape false bs s -> YY_CURRENT_BUFFER s = Some None.
Proof.
  intros (k & Hst & Ht & Hk). unfold YY_CURRENT_BUFFER.
  rewrite Hst, Ht, lookup_app_r, length_fmap, length_rev, Nat.sub_diag by (rewrite length_fmap, length_rev; lia).
  by destruct k; [lia|].
Qed.

Lemma set_full b bs s : shape false bs s ->
  exists st, set_current (Some b) s = Some (set_stack st (yy_buffer_stack_top s) s)
  /\ shape true (b :: bs) (set_stack st (yy_buffer_stack_top s) s).
Proof.
  intros Hs. pose proof (current_hole _ _ Hs) as Hc. destruct Hs as (k & Hst & Ht & Hk).
  unfold set_current, YY_CURRENT_BUFFER in *. rewrite Hst in *. cbn [mbind option_bind]. rewrite Hc.
  eexists. split; [reflexivity|]. exists (k - 1). cbn. split; [|by rewrite Ht]. destruct k as [|k]; [lia|].
  rewrite Ht, insert_app_r_alt, length_fmap, length_rev, Nat.sub_diag by (rewrite length_fmap, length_rev; lia).
  cbn. by rewrite Nat.sub_0_r, fmap_app, <- app_assoc.
Qed.

Lemma set_hole b bs s : shape true (b :: bs) s ->
  exists st, set_current None s = Some (set_stack st (yy_buffer_stack_top s) s)
  /\ shape false bs (set_stack st (yy_buffer_stack_top s) s).
Proof.
  intros Hs. pose proof (current_full _ _ _ Hs) as Hc. destruct Hs as (k & Hst & [= Ht]).
  unfold set_current, YY_CURRENT_BUFFER in *. rewrite Hst in *. cbn [mbind option_bind]. rewrite Hc.
  eexists. split; [reflexivity|]. exists (S k). cbn. split; [|by rewrite Ht; split; [|lia]].
  rewrite fmap_app, <- app_assoc, Ht, insert_app_r_alt, length_fmap, length_rev, Nat.sub_diag; [done|].
  rewrite length_fmap, length_rev. lia.
Qed.

(** A null pointer can be stored again. *)
Lemma set_hole_again bs s : shape false bs s -> set_current None s = Some s.
Proof.
  intros Hs. pose proof (current_hole _ _ Hs) as Hc. unfold set_current, YY_CURRENT_BUFFER in *. destruct s. cbn in *.
  destruct yy_buffer_stack0 as [st|]; [|by destruct Hs as (? & ? & _)]. cbn. rewrite Hc. cbn. by rewrite list_insert_id.
Qed.

(** There is room for one push. *)
Lemma ensure_shape full bs s : shape full bs s ->
  exists st, yyensure_buffer_stack s = set_stack st (yy_buffer_stack_top s) s
  /\ shape full bs (set_stack st (yy_buffer_stack_top s) s)
  /\ shape false bs (set_stack st (if full then S (yy_buffer_stack_top s) else yy_buffer_stack_top s) s).
Proof.
  intros (k & Hst & Ht). unfold yyensure_buffer_stack. rewrite Hst. destruct (_ <=? _) eqn:Hle.
  - eexists. split; [reflexivity|]. rewrite <- app_assoc, <- replicate_add. split; exists (k + 8); (split; [done|]); destruct full; cbn; lia.
  - exists (yy_buffer_stack s). split; [by destruct s|]. apply Nat.leb_gt in Hle. rewrite length_app, length_fmap, length_rev, length_replicate in Hle.
    split; exists k; (split; [done|]); destruct full; cbn; lia.
Qed.

Lemma pop_shape b bs s : shape false (b :: bs) s ->
  shape true (b :: bs) (set_stack (yy_buffer_stack s) (yy_buffer_stack_top s - 1) s).
Proof. intros (k & Hst & Ht & Hk). exists k. split; [done|]. cbn [set_stack yy_buffer_stack_top]. rewrite Ht. cbn. lia. Qed.

(** *** The buffers *)

(** What the scanner sees of a buffer. *)
Definition lexer_of (x : buffer) (i : istream) (n p t : nat) (c : ascii) (q : Z) (r : nat) : lexer :=
  MkLexer i (ch_buf x) (buf_size x) (n_chars x) (status x) n p t c q r.

(** Not the current buffer: what is left of its input. *)
Definition saved (s : flex) (e : nat * nat) (input : list ascii) : Prop :=
  exists x i v, buffers s !! e.1 = Some x /\ yy_input_file x = Some e.2 /\ streams s !! e.2 = Some i
  /\ input = v ++ unread i /\ mid (yy_buf_pos x) [] v (lexer_of x i (n_chars x) 0 0 NUL 0 0).

(** The current buffer. *)
Definition loaded (s : flex) (e : nat * nat) (input : list ascii) : Prop :=
  exists x i p, buffers s !! e.1 = Some x /\ yy_input_file x = Some e.2 /\ streams s !! e.2 = Some i
  /\ in_ s = Some e.2 /\ cursor s = Some (e.1, p)
  /\ left_to_scan (lexer_of x i (chars_ s) p (text_ptr s) (held s) (last_state s) (last_cpos s)) input.

Lemma saved_frame s s' e input :
  buffers s' !! e.1 = buffers s !! e.1 -> streams s' !! e.2 = streams s !! e.2 -> saved s e input -> saved s' e input.
Proof. intros Hb Hs (x & i & v & ?). exists x, i, v. by rewrite Hb, Hs. Qed.

(** The lexer is the same between the indices of [mid], apart from what it does not look at. *)
Lemma mid_fields bp v l l' :
  yyin l' = yyin l -> yy_ch_buf l' = yy_ch_buf l -> yy_buf_size l' = yy_buf_size l -> yy_n_chars l' = yy_n_chars l ->
  yy_buffer_status l' = yy_buffer_status l -> (yy_buffer_status l' = BUFFER_NEW -> buf_n_chars l' = yy_n_chars l') ->
  mid bp [] v l -> mid bp [] v l'.
Proof. intros H1 H2 H3 H4 H5 H6 [? ? ? ? ? ?]. constructor; first [exact H6|by rewrite ?H1, ?H2, ?H3, ?H4, ?H5]. Qed.

Lemma load_loaded s b f input :
  YY_CURRENT_BUFFER s = Some (Some b) -> saved s (b, f) input ->
  exists n p h, yy_load_buffer_state s
    = Some (MkFlex (streams s) (buffers s) (yy_buffer_stack s) (yy_buffer_stack_top s) (Some f) n (Some (b, p)) p h
              (did_switch s) (init_ s) (last_state s) (last_cpos s))
  /\ forall s', streams s' = streams s -> buffers s' = buffers s -> in_ s' = Some f -> chars_ s' = n ->
       cursor s' = Some (b, p) -> held s' = h -> loaded s' (b, f) input.
Proof.
  intros Hc (x & i & v & Hx & Hf & Hi & Hv & Hm). cbn [fst snd] in *. unfold yy_load_buffer_state. rewrite Hc. cbn [mbind option_bind].
  rewrite Hx. cbn [mbind option_bind]. assert (exists h, ch_buf x !! yy_buf_pos x = Some h) as [h Hh].
  { apply lookup_lt_is_Some. destruct (md_buf _ _ _ _ Hm) as (pre & post & Hb & Hpre). cbn in Hb. rewrite Hb, !length_app.
    cbn. lia. }
  rewrite Hh, Hf. cbn [mbind option_bind]. exists (n_chars x), (yy_buf_pos x), h. split; [done|].
  intros s' Hs1 Hs2 Hs3 Hs4 Hs5 Hs6. exists x, i, (yy_buf_pos x). cbn [fst snd]. rewrite Hs1, Hs2, Hs4, Hs6. split_and!; try done.
  exists v. split; [|done]. unfold ready. rewrite put_id by done. by eapply mid_fields; [..|exact Hm].
Qed.

Lemma leave_saved s e input :
  YY_CURRENT_BUFFER s = Some (Some e.1) -> loaded s e input ->
  exists x, leave_buffer s = Some (set_buffers (<[e.1 := x]> (buffers s)) s)
  /\ saved (set_buffers (<[e.1 := x]> (buffers s)) s) e input.
Proof.
  intros Hc (x & i & p & Hx & Hf & Hi & Hin & Hp & v & Hr & Hv). unfold leave_buffer. rewrite Hc. cbn [mbind option_bind].
  rewrite Hp. cbn [mbind option_bind]. rewrite Hx. cbn [mbind option_bind].
  assert (p < length (ch_buf x)) as Hlt.
  { destruct (md_buf _ _ _ _ Hr) as (pre & post & Hb & Hpre). apply (f_equal length) in Hb. cbn in Hb, Hpre.
    rewrite length_insert, !length_app in Hb. cbn in Hb. lia. }
  destruct (lookup_lt_is_Some_2 _ _ Hlt) as [c Hcx]. rewrite Hcx. cbn [mbind option_bind].
  rewrite lookup_insert_eq. cbn [mbind option_bind]. rewrite insert_insert_eq. cbn [yy_input_file ch_buf buf_size status].
  eexists. split; [reflexivity|]. eexists _, i, v. cbn [set_buffers buffers streams]. rewrite lookup_insert_eq.
  split_and!; try done. cbn. by eapply mid_fields; [..|exact Hr].
Qed.

Section refinement.
Variable junk : ascii.
Variables size rd : nat.
Variable malloc : gset nat -> nat.
Hypothesis malloc_new : forall m, malloc m ∉ m.
Hypothesis size_ok : 2 <= size.
Hypothesis rd_pos : 0 < rd.

Definition fresh_buffer (file : option nat) : buffer := MkBuffer file (NUL :: NUL :: replicate size junk) 0 size 0 BUFFER_NEW.

Lemma fresh_saved s b f input :
  buffers s !! b = Some (fresh_buffer (Some f)) -> streams s !! f = Some (MkStream input false) -> saved s (b, f) input.
Proof.
  intros Hb Hf. exists (fresh_buffer (Some f)), (MkStream input false), []. split_and!; try done.
  constructor; cbn; try done; [by exists [], (replicate size junk)|rewrite length_replicate; lia|by intros [|]].
Qed.

Lemma create_fresh file s cur :
  let b := malloc (dom (buffers s)) in
  YY_CURRENT_BUFFER s = Some cur -> (forall c, cur = Some c -> c ∈ dom (buffers s)) ->
  create_buffer junk malloc file size s = Some (b, set_buffers (<[b := fresh_buffer file]> (buffers s)) s).
Proof.
  intros b Hc Hin. unfold create_buffer, yy_init_buffer, flush_buffer. fold b. cbn [set_buffers buffers]. rewrite lookup_insert_eq.
  cbn [mbind option_bind ch_buf]. rewrite length_replicate. replace (_ <? 2) with false by (symmetry; apply Nat.ltb_ge; lia).
  match goal with |- context [YY_CURRENT_BUFFER ?s'] => change (YY_CURRENT_BUFFER s') with (YY_CURRENT_BUFFER s) end.
  rewrite Hc. cbn [mbind option_bind]. rewrite decide_False by (intros ->; by apply (malloc_new (dom (buffers s))), Hin).
  cbn [mbind option_bind set_buffers buffers]. rewrite insert_insert_eq, lookup_insert_eq.
  cbn [mbind option_bind ch_buf yy_buf_pos buf_size n_chars status]. rewrite insert_insert_eq.
  unfold fresh_buffer. rewrite Nat.add_comm. done.
Qed.

(** [yy_init_buffer] on the current buffer. *)
Lemma init_current b x file s :
  YY_CURRENT_BUFFER s = Some (Some b) -> buffers s !! b = Some x -> 2 <= length (ch_buf x) ->
  exists i n c t h, yy_init_buffer b file s
    = Some (MkFlex (streams s) (<[b := MkBuffer file (<[1 := NUL]> (<[0 := NUL]> (ch_buf x))) 0 (buf_size x) 0 BUFFER_NEW]> (buffers s))
              (yy_buffer_stack s) (yy_buffer_stack_top s) i n c t h (did_switch s) (init_ s) (last_state s) (last_cpos s)).
Proof.
  intros Hc Hx Hlen. unfold yy_init_buffer, flush_buffer. rewrite Hx. cbn [mbind option_bind].
  replace (_ <? 2) with false by (symmetry; apply Nat.ltb_ge; lia). cbv zeta.
  match goal with |- context [YY_CURRENT_BUFFER ?s'] => change (YY_CURRENT_BUFFER s') with (YY_CURRENT_BUFFER s) end.
  rewrite Hc. cbn [mbind option_bind]. rewrite decide_True by done. unfold yy_load_buffer_state.
  match goal with |- context [YY_CURRENT_BUFFER ?s'] => change (YY_CURRENT_BUFFER s') with (YY_CURRENT_BUFFER s) end.
  rewrite Hc. cbn [mbind option_bind set_buffers buffers]. rewrite lookup_insert_eq. cbn [mbind option_bind ch_buf yy_buf_pos].
  destruct (ch_buf x) as [|a1 [|a2 m]]; [cbn in Hlen; lia..|]. cbn [insert list_insert lookup list_lookup mbind option_bind buffers].
  rewrite lookup_insert_eq. cbn [mbind option_bind set_buffers buffers ch_buf yy_buf_pos buf_size n_chars status].
  rewrite insert_insert_eq. by eexists _, _, _, _, _.
Qed.

(** *** The invariant *)

(** Everything but the current buffer; [extra]: the allocated buffers that are not in the list. *)
Record frame (extra : gset nat) (es : list (nat * nat)) (inps : list (list ascii)) (fs : gmap nat (list ascii)) (s : flex) : Prop := {
  fr_bufs : NoDup es.*1;
  fr_files : NoDup es.*2;
  fr_dom : dom (buffers s) = extra ∪ list_to_set es.*1;
  fr_new : forall f input, fs !! f = Some input -> streams s !! f = Some (MkStream input false) /\ f ∉ es.*2;
  fr_saved : Forall2 (saved s) es inps;
  fr_init : init_ s = true
}.

(** There is a current buffer. *)
Record running (e : nat * nat) (input : list ascii) es inps fs (s : flex) : Prop := {
  rn_shape : shape true (e.1 :: es.*1) s;
  rn_frame : frame {[e.1]} es inps fs s;
  rn_buf : e.1 ∉ es.*1;
  rn_file : e.2 ∉ es.*2;
  rn_new : fs !! e.2 = None;
  rn_loaded : loaded s e input
}.
(** There is none. *)
Record idle es inps fs (s : flex) : Prop := {
  id_shape : shape false es.*1 s;
  id_frame : frame ∅ es inps fs s
}.

Definition refines_texts (s : flex) (t : texts) : Prop :=
  match inputs t with
  | [] => idle [] [] (files t) s
  | input :: inps => exists e es, running e input es inps (files t) s
  end.

Lemma all_saved_frame s s' es inps :
  (forall e, e ∈ es -> buffers s' !! e.1 = buffers s !! e.1 /\ streams s' !! e.2 = streams s !! e.2) ->
  Forall2 (saved s) es inps -> Forall2 (saved s') es inps.
Proof.
  intros Hsame Hall. induction Hall as [|e inp es inps He _ IH]; [done|]. constructor.
  - destruct (Hsame e) as [Hb Hs]; [by left|]. by eapply saved_frame.
  - apply IH. intros e' He'. apply Hsame. by right.
Qed.

Lemma frame_same extra es inps fs s s' :
  streams s' = streams s -> buffers s' = buffers s -> init_ s' = init_ s -> frame extra es inps fs s -> frame extra es inps fs s'.
Proof.
  intros Hs Hb Hi [? ? Hd Hn Hsv Hin]. constructor; try done; rewrite ?Hs, ?Hb, ?Hi; try done.
  eapply all_saved_frame; [|exact Hsv]. intros e _. by rewrite Hs, Hb.
Qed.

(** The buffer [b] changes, which is none of the others. *)
Lemma frame_insert extra es inps fs s b x :
  b ∉ es.*1 -> frame extra es inps fs s -> frame ({[b]} ∪ extra) es inps fs (set_buffers (<[b := x]> (buffers s)) s).
Proof.
  intros Hb [? ? Hd Hn Hsv Hin]. constructor; try done.
  - cbn. by rewrite dom_insert_L, Hd, (assoc_L (∪)).
  - eapply all_saved_frame; [|exact Hsv]. intros e He. cbn. split; [|done]. rewrite lookup_insert_ne; [done|].
    intros ->. apply Hb. by apply list_elem_of_fmap_2.
Qed.
Lemma frame_delete es inps fs s b :
  b ∉ es.*1 -> frame {[b]} es inps fs s -> frame ∅ es inps fs (set_buffers (delete b (buffers s)) s).
Proof.
  intros Hb [? ? Hd Hn Hsv Hin]. constructor; try done.
  - cbn. rewrite dom_delete_L, Hd. rewrite <- (elem_of_list_to_set (C := gset nat)) in Hb.
    apply set_eq. intros y. rewrite elem_of_difference, !elem_of_union, elem_of_singleton, elem_of_empty. clear -Hb. intuition congruence.
  - eapply all_saved_frame; [|exact Hsv]. intros e He. cbn. split; [|done]. rewrite lookup_delete_ne; [done|].
    intros ->. apply Hb. by apply list_elem_of_fmap_2.
Qed.
Lemma frame_opened f extra es inps fs s : frame extra es inps fs s -> frame extra es inps (delete f fs) s.
Proof. intros [? ? ? Hn ? ?]. constructor; try done. intros g input [_ Hg]%lookup_delete_Some. by apply Hn. Qed.

Lemma frame_not_in extra es inps fs s b : frame extra es inps fs s -> b ∉ dom (buffers s) -> b ∉ es.*1.
Proof. intros Hfr Hb Hm. apply Hb. rewrite (fr_dom _ _ _ _ _ Hfr). apply elem_of_union_r. by rewrite elem_of_list_to_set. Qed.

(** The null pointer at the top is replaced. *)
Lemma enter_running b f input es inps fs s :
  shape false es.*1 s -> frame {[b]} es inps fs s -> b ∉ es.*1 -> f ∉ es.*2 -> fs !! f = None -> saved s (b, f) input ->
  exists s1 s2, set_current (Some b) s = Some s1 /\ yy_load_buffer_state s1 = Some s2
  /\ running (b, f) input es inps fs s2 /\ running (b, f) input es inps fs (set_switched s2).
Proof.
  intros Hsh Hfr Hb Hf Hn Hsv. destruct (set_full b _ _ Hsh) as (st & Hset & Hsh').
  destruct (load_loaded _ b f input (current_full _ _ _ Hsh') Hsv) as (n & p & h & Hload & Hl).
  eexists _, _. split; [exact Hset|]. split; [exact Hload|].
  split; (constructor; [done|by eapply frame_same; [..|exact Hfr]|done..|by apply Hl]).
Qed.

(** The current buffer is left for one that is pushed. *)
Lemma leave_idle extra e input es inps fs s :
  shape true (e.1 :: es.*1) s -> frame (extra ∪ {[e.1]}) es inps fs s -> e.1 ∉ es.*1 -> e.2 ∉ es.*2 -> fs !! e.2 = None ->
  loaded s e input ->
  exists s1, leave_buffer (yyensure_buffer_stack s) = Some s1 /\ YY_CURRENT_BUFFER s1 = Some (Some e.1)
  /\ let s2 := set_stack (yy_buffer_stack s1) (S (yy_buffer_stack_top s1)) s1 in
     shape false (e.1 :: es.*1) s2 /\ frame extra (e :: es) (input :: inps) fs s2
     /\ streams s2 = streams s /\ forall b, b <> e.1 -> buffers s2 !! b = buffers s !! b.
Proof.
  intros Hsh Hfr Hb Hf Hn Hl. destruct (ensure_shape _ _ _ Hsh) as (st & -> & Hsh1 & Hsh2).
  destruct (leave_saved _ e input (current_full _ _ _ Hsh1) Hl) as (x & Hle & Hsv).
  eexists. split; [exact Hle|]. split; [exact (current_full _ _ _ Hsh1)|]. split; [exact Hsh2|].
  split; [|split; [done|]; intros b Hne; cbn; by rewrite lookup_insert_ne by congruence].
  pose proof (frame_insert _ _ _ _ _ _ x Hb Hfr) as [H1 H2 H3 H4 H5 H6]. constructor; cbn [fmap list_fmap].
  - by constructor.
  - by constructor.
  - cbn in *. rewrite H3, (comm_L (∪) extra), (assoc_L (∪) {[e.1]}), (idemp_L (∪)). by rewrite (comm_L (∪) {[e.1]}), (assoc_L (∪)).
  - intros g inp Hg. destruct (H4 g inp Hg) as [? Hg']. split; [done|]. apply not_elem_of_cons. split; [by intros ->; rewrite Hn in Hg|done].
  - constructor; [exact Hsv|]. eapply all_saved_frame; [|exact H5]. done.
  - done.
Qed.

(** The current buffer is freed. *)
Lemma delete_idle e input es inps fs s :
  running e input es inps fs s -> exists s1, yy_delete_buffer (Some e.1) s = Some s1 /\ idle es inps fs s1.
Proof.
  intros [Hsh Hfr Hb Hf Hn (x & i & p & Hx & _)]. unfold yy_delete_buffer. rewrite (current_full _ _ _ Hsh). cbn [mbind option_bind].
  rewrite decide_True by done. destruct (set_hole _ _ _ Hsh) as (st & -> & Hsh'). cbn [mbind option_bind set_stack buffers].
  rewrite Hx. cbn [mbind option_bind]. eexists. split; [reflexivity|]. split; [exact Hsh'|].
  eapply frame_same; [..|by apply (frame_delete es inps fs s e.1)]; done.
Qed.

(** A buffer for a file that has not been opened. *)
Lemma create_idle f input extra cur es inps fs s :
  YY_CURRENT_BUFFER s = Some cur -> (forall c, cur = Some c -> c ∈ dom (buffers s)) ->
  frame extra es inps fs s -> fs !! f = Some input ->
  exists b x, create_buffer junk malloc (Some f) size s = Some (b, set_buffers (<[b := x]> (buffers s)) s)
  /\ (b ∉ dom (buffers s)) /\ (f ∉ es.*2)
  /\ frame ({[b]} ∪ extra) es inps (delete f fs) (set_buffers (<[b := x]> (buffers s)) s)
  /\ saved (set_buffers (<[b := x]> (buffers s)) s) (b, f) input.
Proof.
  intros Hc Hin Hfr Hf. pose proof (malloc_new (dom (buffers s))) as Hb. destruct (fr_new _ _ _ _ _ Hfr f input Hf) as [Hst Hfs].
  eexists _, _. split; [by eapply create_fresh|]. split_and!; [done|done| |].
  - apply frame_opened, frame_insert; [by eapply frame_not_in|done].
  - apply fresh_saved; cbn; [by rewrite lookup_insert_eq|done].
Qed.

Lemma idle_frame b es inps fs s : frame ({[b]} ∪ ∅) es inps fs s -> frame {[b]} es inps fs s.
Proof. by rewrite (right_id_L ∅ (∪)). Qed.

Lemma switch_running f input es inps fs s :
  idle es inps fs s -> fs !! f = Some input ->
  exists b s1 s2, create_buffer junk malloc (Some f) size s = Some (b, s1)
  /\ yy_switch_to_buffer (Some b) s1 = Some s2 /\ running (b, f) input es inps (delete f fs) s2.
Proof.
  intros [Hsh Hfr] Hf.
  destruct (create_idle f input ∅ None es inps fs s (current_hole _ _ Hsh) ltac:(done) Hfr Hf) as (b & x & Hcr & Hb & Hfs & Hfr' & Hsv).
  set (s1 := set_buffers _ s) in *. exists b, s1. apply idle_frame in Hfr'.
  destruct (ensure_shape false es.*1 s1 Hsh) as (st & He & Hsh1 & _). unfold yy_switch_to_buffer. rewrite He.
  rewrite (current_hole _ _ Hsh1). cbn [mbind option_bind]. rewrite decide_False by done. unfold leave_buffer.
  rewrite (current_hole _ _ Hsh1). cbn [mbind option_bind].
  destruct (enter_running b f input es inps (delete f fs) (set_stack st (yy_buffer_stack_top s1) s1)) as (s2 & s3 & -> & Hlo & _ & Hr);
    [done|by eapply frame_same; [..|exact Hfr']|exact (frame_not_in _ _ _ _ _ _ Hfr Hb)|done|by rewrite lookup_delete_eq|exact Hsv|].
  cbn [mbind option_bind]. rewrite Hlo. by eexists.
Qed.

Lemma push_running f input e inp es inps fs s :
  running e inp es inps fs s -> fs !! f = Some input ->
  exists b s1 s2, create_buffer junk malloc (Some f) size s = Some (b, s1)
  /\ yypush_buffer_state (Some b) s1 = Some s2 /\ running (b, f) input (e :: es) (inp :: inps) (delete f fs) s2.
Proof.
  intros Hrun Hf. pose proof Hrun as [Hsh Hfr Heb Hef Hen Hl].
  destruct (create_idle f input {[e.1]} (Some e.1) es inps fs s (current_full _ _ _ Hsh)) as (b & x & Hcr & Hb & Hfs & Hfr' & Hsv);
    [|done|done|].
  { intros c [= <-]. rewrite (fr_dom _ _ _ _ _ Hfr). apply elem_of_union_l. by apply elem_of_singleton. }
  set (s1 := set_buffers _ s) in *. exists b, s1. unfold yypush_buffer_state.
  assert (e.1 <> b) as Hne.
  { intros Heq. apply Hb. rewrite <- Heq, (fr_dom _ _ _ _ _ Hfr). apply elem_of_union_l. by apply elem_of_singleton. }
  destruct (leave_idle {[b]} e inp es inps (delete f fs) s1) as (s2 & -> & Hc2 & Hsh2 & Hfr2 & Hs2 & Hb2); [done..| | |].
  { rewrite lookup_delete_None. auto. }
  { destruct Hl as (y & i & p & Hy & Hrest). exists y, i, p. split; [cbn; by rewrite lookup_insert_ne|exact Hrest]. }
  cbn [mbind option_bind]. rewrite Hc2. cbn [mbind option_bind]. set (s3 := set_stack _ _ s2) in *.
  destruct (enter_running b f input (e :: es) (inp :: inps) (delete f fs) s3) as (s4 & s5 & -> & Hlo & _ & Hr); [done|done| | | | |].
  - cbn [fmap list_fmap]. apply not_elem_of_cons. split; [done|exact (frame_not_in _ _ _ _ _ _ Hfr Hb)].
  - cbn [fmap list_fmap]. apply not_elem_of_cons. split; [by intros ->; rewrite Hen in Hf|done].
  - by rewrite lookup_delete_eq.
  - eapply saved_frame; [..|exact Hsv]; cbn [fst snd]; [by apply Hb2|by rewrite Hs2].
  - cbn [mbind option_bind]. rewrite Hlo. by eexists.
Qed.

(** A push on an empty stack. *)
Lemma push_idle f input fs s :
  idle [] [] fs s -> fs !! f = Some input ->
  exists b s1 s2, create_buffer junk malloc (Some f) size s = Some (b, s1)
  /\ yypush_buffer_state (Some b) s1 = Some s2 /\ running (b, f) input [] [] (delete f fs) s2.
Proof.
  intros [Hsh Hfr] Hf.
  destruct (create_idle f input ∅ None [] [] fs s (current_hole _ _ Hsh) ltac:(done) Hfr Hf) as (b & x & Hcr & Hb & Hfs & Hfr' & Hsv).
  set (s1 := set_buffers _ s) in *. exists b, s1. apply idle_frame in Hfr'.
  destruct (ensure_shape false [] s1 Hsh) as (st & He & Hsh1 & _). unfold yypush_buffer_state. rewrite He.
  unfold leave_buffer. rewrite (current_hole _ _ Hsh1). cbn [mbind option_bind]. rewrite (current_hole _ _ Hsh1). cbn [mbind option_bind].
  destruct (enter_running b f input [] [] (delete f fs) (set_stack st (yy_buffer_stack_top s1) s1)) as (s2 & s3 & -> & Hlo & _ & Hr);
    [done|by eapply frame_same; [..|exact Hfr']|by apply not_elem_of_nil|done|by rewrite lookup_delete_eq|exact Hsv|].
  cbn [mbind option_bind]. rewrite Hlo. by eexists.
Qed.

(** [yypop_buffer_state]: the buffer below is as it was left. *)
Lemma pop_refines e input es inps fs s :
  running e input es inps fs s ->
  exists s1, yypop_buffer_state s = Some s1 /\ refines_texts s1 (MkTexts fs inps).
Proof.
  intros Hr. unfold yypop_buffer_state. rewrite (current_full _ _ _ (rn_shape _ _ _ _ _ _ Hr)). cbn [mbind option_bind].
  destruct (delete_idle _ _ _ _ _ _ Hr) as (s1 & -> & [Hsh Hfr]). cbn [mbind option_bind]. rewrite (set_hole_again _ _ Hsh).
  cbn [mbind option_bind]. set (s2 := set_stack _ _ s1). pose proof (fr_saved _ _ _ _ _ Hfr) as Hsv.
  destruct Hsv as [|[b f] inp es inps Hx Hsv].
  - assert (shape false [] s2) as Hsh2.
    { destruct Hsh as (k & Hst & Ht & Hk). exists k. cbn [s2 set_stack yy_buffer_stack_top yy_buffer_stack]. by rewrite Ht. }
    rewrite (current_hole _ _ Hsh2). cbn [mbind option_bind]. eexists. split; [reflexivity|]. split; [done|].
    by eapply frame_same; [..|exact Hfr].
  - cbn [fmap list_fmap fst] in Hsh. apply pop_shape in Hsh. fold s2 in Hsh. rewrite (current_full _ _ _ Hsh). cbn [mbind option_bind].
    destruct (load_loaded s2 b f inp (current_full _ _ _ Hsh)) as (n & p & h & -> & Hl); [by eapply saved_frame; [..|exact Hx]|].
    cbn [mbind option_bind]. eexists. split; [reflexivity|]. exists (b, f), es.
    destruct Hfr as [H1 H2 H3 H4 _ H6]. cbn [fmap list_fmap fst snd] in *. apply list.NoDup_cons in H1 as [Hb H1]. apply list.NoDup_cons in H2 as [Hf H2].
    constructor; cbn [fst snd]; [done| |done|done| |by apply Hl].
    + constructor; [done|done| | | |done].
      * cbn. by rewrite H3, (left_id_L ∅ (∪)).
      * intros g i Hg. destruct (H4 g i Hg) as [? Hg']. split; [done|]. by apply not_elem_of_cons in Hg' as [_ ?].
      * by eapply all_saved_frame; [|exact Hsv].
    + apply eq_None_not_Some. intros [i Hi]. destruct (H4 f i Hi) as [_ Hg']. apply Hg'. by left.
Qed.

(** The current buffer gets another file. *)
Lemma init_running b x f input es inps fs s :
  shape true (b :: es.*1) s -> frame {[b]} es inps fs s -> b ∉ es.*1 -> fs !! f = Some input ->
  buffers s !! b = Some x -> length (ch_buf x) = buf_size x + 2 -> 2 <= buf_size x ->
  exists s1 s2, yy_init_buffer b (Some f) s = Some s1 /\ yy_load_buffer_state s1 = Some s2
  /\ running (b, f) input es inps (delete f fs) s2.
Proof.
  intros Hsh Hfr Hb Hf Hx Hlen Hsz. destruct (fr_new _ _ _ _ _ Hfr f input Hf) as [Hst Hfs].
  destruct (init_current b x (Some f) s (current_full _ _ _ Hsh) Hx) as (i & n & c & t & h & ->); [lia|].
  set (s1 := MkFlex _ _ _ _ _ _ _ _ _ _ _ _ _). exists s1. assert (saved s1 (b, f) input) as Hsv.
  { eexists _, (MkStream input false), []. cbn. rewrite lookup_insert_eq. split_and!; try done.
    destruct (ch_buf x) as [|a1 [|a2 m]]; [cbn in Hlen; lia..|]. constructor; cbn; try done; [by exists [], m|by intros [|]]. }
  destruct (load_loaded s1 b f input (current_full _ _ _ Hsh) Hsv) as (n' & p & h' & -> & Hl).
  eexists. split; [done|]. split; [done|]. constructor; cbn [fst snd]; [done| |done|done|by rewrite lookup_delete_eq|by apply Hl].
  apply frame_opened. pose proof (frame_insert _ _ _ _ _ b
    (MkBuffer (Some f) (<[1 := NUL]> (<[0 := NUL]> (ch_buf x))) 0 (buf_size x) 0 BUFFER_NEW) Hb Hfr) as Hfr'.
  rewrite (idemp_L (∪)) in Hfr'. by eapply frame_same; [..|exact Hfr'].
Qed.

Lemma restart_running f input e inp es inps fs s :
  running e inp es inps fs s -> fs !! f = Some input ->
  exists s', restart junk size malloc (Some f) s = Some s' /\ running (e.1, f) input es inps (delete f fs) s'.
Proof.
  intros [Hsh Hfr Hb Hf Hn (x & i & p & Hx & _ & _ & _ & _ & v & Hr & _)] Hnew. unfold restart.
  rewrite (current_full _ _ _ Hsh). cbn [mbind option_bind]. rewrite (current_full _ _ _ Hsh). cbn [mbind option_bind].
  pose proof (md_len _ _ _ _ Hr) as Hlen. cbn in Hlen. rewrite length_insert in Hlen.
  destruct (init_running e.1 x f input es inps fs s) as (s1 & s2 & -> & Hlo & Hrun); [done..|exact (md_size _ _ _ _ Hr)|].
  cbn [mbind option_bind]. by exists s2.
Qed.

Lemma restart_idle f input fs s :
  idle [] [] fs s -> fs !! f = Some input ->
  exists e s', restart junk size malloc (Some f) s = Some s' /\ running e input [] [] (delete f fs) s'.
Proof.
  intros [Hsh Hfr] Hnew. unfold restart. rewrite (current_hole _ _ Hsh). cbn [mbind option_bind].
  destruct (ensure_shape _ _ _ Hsh) as (st & -> & Hsh1 & _). set (s1 := set_stack _ _ s) in *.
  pose proof (create_fresh (in_ s1) s1 None (current_hole _ _ Hsh1) ltac:(done)) as Hcr. cbv zeta in Hcr. rewrite Hcr.
  set (b := malloc _) in *. set (s2 := set_buffers _ s1) in *. cbn [mbind option_bind].
  destruct (set_full b [] s2 Hsh1) as (st' & -> & Hsh2). cbn [mbind option_bind]. rewrite (current_full _ _ _ Hsh2). cbn [mbind option_bind].
  destruct (init_running b (fresh_buffer (in_ s1)) f input [] [] fs (set_stack st' (yy_buffer_stack_top s2) s2))
    as (s3 & s4 & -> & Hlo & Hrun).
  - done.
  - eapply frame_same; [..|apply (idle_frame b), (frame_insert ∅ [] [] fs s b (fresh_buffer (in_ s1)));
      [apply not_elem_of_nil|exact Hfr]]; done.
  - apply not_elem_of_nil.
  - done.
  - cbn. by rewrite lookup_insert_eq.
  - cbn. rewrite length_replicate. lia.
  - done.
  - cbn [mbind option_bind]. eauto.
Qed.

Lemma switch_refines f input fs inps s :
  refines_texts s (MkTexts fs inps) -> fs !! f = Some input ->
  exists s', switch_streams junk size malloc (Some f) s = Some s' /\ refines_texts s' (MkTexts (delete f fs) (input :: tail inps)).
Proof.
  intros Href Hf. unfold switch_streams.
  assert (exists cur s1 es, YY_CURRENT_BUFFER s = Some cur /\ yy_delete_buffer cur s = Some s1 /\ idle es (tail inps) fs s1)
    as (cur & s1 & es & -> & Hd & Hid).
  { destruct inps as [|inp inps].
    - exists None, s, []. split; [exact (current_hole _ _ (id_shape _ _ _ _ Href))|done].
    - destruct Href as (e & es & Hr). destruct (delete_idle _ _ _ _ _ _ Hr) as (s1 & Hd & Hid).
      exists (Some e.1), s1, es. split; [exact (current_full _ _ _ (rn_shape _ _ _ _ _ _ Hr))|done]. }
  cbn [mbind option_bind]. rewrite Hd. cbn [mbind option_bind].
  destruct (switch_running f input es (tail inps) fs s1 Hid Hf) as (b & s2 & s3 & -> & Hsw & Hr). cbn [mbind option_bind].
  exists s3. split; [done|]. by exists (b, f), es.
Qed.

(** *** Scanning *)

Definition fits (fuel : nat) (input : list ascii) : Prop :=
  (Z.of_nat (length input) + 1 < 2 ^ 30)%Z /\ 2 * length input + 3 <= fuel.

Lemma fits_drop fuel k input : fits fuel input -> fits fuel (drop k input).
Proof. unfold fits. rewrite length_drop. lia. Qed.

Lemma scan_text fuel l input :
  left_to_scan l input -> fits fuel input ->
  exists r rest l', text_rule input = Some (r, rest) /\ scan_rule junk rd fuel l = Some (r, l')
  /\ left_to_scan l' rest /\ fits fuel rest.
Proof.
  intros Hl [Hmax Hfuel]. destruct input as [|c input].
  - destruct (scan_rule_eof junk rd rd_pos fuel l Hl) as (l' & Hs & Hl'); [cbn in Hfuel; lia|]. by exists LEof, [], l'.
  - destruct (scan_rule_spec junk rd rd_pos fuel l c input Hl Hmax Hfuel) as (st & k & a & l' & Hm & _ & Ha & Hs & Hl').
    exists (LRule a (take k (c :: input))), (drop k (c :: input)), l'. cbn [text_rule]. rewrite Hm. cbn [mbind option_bind].
    rewrite Ha. split; [done|]. split; [done|]. split; [done|]. by apply fits_drop.
Qed.

Lemma scan_running fuel e input es inps fs s :
  running e input es inps fs s -> fits fuel input ->
  exists r rest s', text_rule input = Some (r, rest) /\ flex_rule junk size rd malloc fuel s = Some (r, s')
  /\ running e rest es inps fs s' /\ fits fuel rest.
Proof.
  intros [Hsh Hfr Hb Hf Hn (x & i & p & Hx & Hxf & Hi & Hin & Hp & Hl)] Hfits.
  destruct (scan_text fuel _ input Hl Hfits) as (r & rest & l' & Ht & Hs & Hl' & Hfits'). exists r, rest.
  unfold flex_rule, first_call. rewrite (fr_init _ _ _ _ _ Hfr). cbn [mbind option_bind]. unfold view.
  rewrite (current_full _ _ _ Hsh). cbn [mbind option_bind]. rewrite Hp. cbn [mbind option_bind]. rewrite decide_True by done.
  rewrite Hx. cbn [mbind option_bind]. rewrite Hin. cbn [mbind option_bind]. rewrite Hi. cbn [mbind option_bind].
  unfold lexer_of in Hs. rewrite Hs. cbn [mbind option_bind]. eexists. split; [done|]. split; [reflexivity|]. split; [|done].
  pose proof (frame_insert _ _ _ _ _ e.1 (MkBuffer (yy_input_file x) (yy_ch_buf l') (yy_buf_pos x) (yy_buf_size l')
    (buf_n_chars l') (yy_buffer_status l')) Hb Hfr) as [H1 H2 H3 H4 H5 H6]. rewrite (idemp_L (∪)) in H3.
  constructor; [done| |done|done|done|].
  - constructor; [done|done|done| | |done].
    + intros g inp Hg. destruct (H4 g inp Hg) as [Hstr ?]. split; [|done]. cbn. by rewrite lookup_insert_ne by congruence.
    + eapply all_saved_frame; [|exact H5]. intros e' He'. split; [done|]. cbn. rewrite lookup_insert_ne; [done|].
      intros Heq. apply Hf. rewrite Heq. by apply list_elem_of_fmap_2.
  - eexists _, (yyin l'), (yy_c_buf_p l'). cbn. rewrite !lookup_insert_eq. by split_and!.
Qed.

(** *** The refinement *)

Definition all_fit (fuel : nat) (t : texts) : Prop := map_Forall (fun _ => fits fuel) (files t) /\ Forall (fits fuel) (inputs t).

Lemma step_refines fuel o s t rs t' :
  refines_texts s t -> all_fit fuel t -> texts_step o t = Some (rs, t') ->
  exists s', flex_step junk size rd malloc fuel o s = Some (rs, s') /\ refines_texts s' t' /\ all_fit fuel t'.
Proof.
  intros Href [Hff Hfi] Hst. destruct t as [fs inps]. cbn [files inputs] in *.
  assert (forall f input, fs !! f = Some input -> all_fit fuel (MkTexts (delete f fs) (input :: inps))
    /\ all_fit fuel (MkTexts (delete f fs) (input :: tail inps))) as Hopen.
  { intros f input Hf. assert (map_Forall (fun _ => fits fuel) (delete f fs)) by (by apply map_Forall_delete).
    pose proof (Hff f input Hf). split; (split; [done|]); constructor; try done. by destruct inps; [|inversion Hfi]. }
  destruct o as [f| |f|f|]; cbn [texts_step files inputs] in Hst; cbn [flex_step].
  - destruct (fs !! f) as [input|] eqn:Hf; [|done]. injection Hst as <- <-. destruct (Hopen f input Hf) as [Hfit _].
    destruct inps as [|inp inps].
    + destruct (push_idle f input fs s Href Hf) as (b & s1 & s2 & -> & Hp & Hr). cbn [mbind option_bind]. rewrite Hp.
      eexists. split; [reflexivity|]. split; [by exists (b, f), []|done].
    + destruct Href as (e & es & Hr0). destruct (push_running f input e inp es inps fs s Hr0 Hf) as (b & s1 & s2 & -> & Hp & Hr).
      cbn [mbind option_bind]. rewrite Hp. eexists. split; [reflexivity|]. split; [by exists (b, f), (e :: es)|done].
  - injection Hst as <- <-. assert (all_fit fuel (MkTexts fs (tail inps))) as Hfit.
    { split; [done|]. by destruct inps; [|inversion Hfi]. }
    destruct inps as [|inp inps].
    + unfold yypop_buffer_state. rewrite (current_hole _ _ (id_shape _ _ _ _ Href)). cbn [mbind option_bind]. by exists s.
    + destruct Href as (e & es & Hr0). destruct (pop_refines _ _ _ _ _ _ Hr0) as (s1 & -> & Hr). by exists s1.
  - destruct (fs !! f) as [input|] eqn:Hf; [|done]. injection Hst as <- <-. destruct (Hopen f input Hf) as [_ Hfit].
    destruct (switch_refines f input fs inps s Href Hf) as (s1 & -> & Hr). by exists s1.
  - destruct (fs !! f) as [input|] eqn:Hf; [|done]. injection Hst as <- <-. destruct (Hopen f input Hf) as [_ Hfit].
    destruct inps as [|inp inps].
    + destruct (restart_idle f input fs s Href Hf) as (e & s1 & -> & Hr). exists s1. split; [done|]. split; [by exists e, []|done].
    + destruct Href as (e & es & Hr0). destruct (restart_running f input e inp es inps fs s Hr0 Hf) as (s1 & -> & Hr).
      exists s1. split; [done|]. split; [by exists (e.1, f), es|done].
  - destruct inps as [|inp inps]; [done|]. cbn [head mbind option_bind tail] in Hst. destruct Href as (e & es & Hr0).
    apply list.Forall_cons in Hfi as [Hfit Hfi].
    destruct (scan_running fuel e inp es inps fs s Hr0 Hfit) as (r & rest & s1 & Ht & -> & Hr & Hfit').
    rewrite Ht in Hst. cbn [mbind option_bind] in *. injection Hst as <- <-. exists s1. split; [done|].
    split; [by exists e, es|]. split; [done|]. by constructor.
Qed.

Lemma run_refines fuel os : forall s t rs t',
  refines_texts s t -> all_fit fuel t -> texts_run os t = Some (rs, t') ->
  exists s', flex_run junk size rd malloc fuel os s = Some (rs, s') /\ refines_texts s' t'.
Proof.
  induction os as [|o os IH]; intros s t rs t' Href Hfit; cbn [texts_run flex_run]; [intros [= <- <-]; by exists s|].
  destruct (texts_step o t) as [[r t1]|] eqn:Hst; [|done]. cbn [mbind option_bind].
  destruct (texts_run os t1) as [[rs1 t2]|] eqn:Hr; [|done]. cbn [mbind option_bind]. intros [= <- <-].
  destruct (step_refines fuel o s t r t1 Href Hfit Hst) as (s1 & -> & Href1 & Hfit1). cbn [mbind option_bind].
  destruct (IH s1 t1 rs1 t2 Href1 Hfit1 Hr) as (s2 & -> & Href2). by exists s2.
Qed.

(** The first call of [yylex] opens the stream of the constructor. *)
Lemma first_refines fs f input :
  fs !! f = Some input ->
  exists s, first_call junk size malloc (flex_new ((fun i => MkStream i false) <$> fs) (Some f)) = Some s
  /\ refines_texts s (MkTexts (delete f fs) [input]).
Proof.
  intros Hf. set (s0 := set_stack (Some [None]) 0 (MkFlex ((fun i => MkStream i false) <$> fs) ∅ None 0 (Some f) 0 None 0 NUL false true 0 0)).
  assert (idle [] [] fs s0) as [Hsh Hfr].
  { split; [exists 1; by split; [|split; [|lia]]|]. constructor; try done; try apply NoDup_nil_2.
    intros g i Hg. cbn. rewrite lookup_fmap, Hg. split; [done|apply not_elem_of_nil]. }
  destruct (create_idle f input ∅ None [] [] fs s0 (current_hole _ _ Hsh) ltac:(done) Hfr Hf) as (b & x & Hcr & Hb & _ & Hfr' & Hsv).
  apply idle_frame in Hfr'. unfold first_call. cbn -[create_buffer yy_load_buffer_state set_current]. fold s0. rewrite Hcr. cbn [mbind option_bind].
  destruct (enter_running b f input [] [] (delete f fs) (set_buffers (<[b := x]> (buffers s0)) s0)) as (s1 & s2 & -> & Hlo & Hr & _);
    [done|done|apply not_elem_of_nil|apply not_elem_of_nil|by rewrite lookup_delete_eq|exact Hsv|].
  cbn [mbind option_bind]. exists s2. split; [done|]. by exists (b, f), [].
Qed.
End refinement.

(** The destructor frees the current buffer and no other. *)
Lemma delete_leaves s t : refines_texts s t -> exists left, flex_delete s = Some left /\ size left = pred (length (inputs t)).
Proof.
  unfold refines_texts, flex_delete. destruct (inputs t) as [|inp inps].
  - intros [Hsh Hfr]. rewrite (current_hole _ _ Hsh). cbn [mbind option_bind]. eexists. split; [reflexivity|].
    rewrite <- size_dom, (fr_dom _ _ _ _ _ Hfr). done.
  - intros (e & es & Hr). rewrite (current_full _ _ _ (rn_shape _ _ _ _ _ _ Hr)). cbn [mbind option_bind].
    destruct (delete_idle _ _ _ _ _ _ Hr) as (s1 & -> & [_ Hfr]). cbn [mbind option_bind]. eexists. split; [reflexivity|].
    rewrite <- size_dom, (fr_dom _ _ _ _ _ Hfr), (left_id_L ∅ (∪)), size_list_to_set by apply (fr_bufs _ _ _ _ _ Hfr).
    rewrite length_fmap. exact (Forall2_length (fr_saved _ _ _ _ _ Hfr)).
Qed.

(** C22. Several inputs.  However buffers are pushed, popped, switched and restarted between the tokens, the scanner finds
    the tokens of a stack of texts: an input that others were read on top of goes on where it was left.  No step reads a
    freed or unallocated buffer or leaves the stack of pointers, for every way to allocate.  The destructor frees the
    current buffer only: every input that is still below it is leaked. *)
Theorem scanner_stack junk buf_size rd malloc fuel fs f input os rs t :
  (forall m, malloc m ∉ m) -> 2 <= buf_size -> 0 < rd -> fs !! f = Some input -> map_Forall (fun _ => fits fuel) fs ->
  texts_run os (MkTexts (delete f fs) [input]) = Some (rs, t) ->
  exists s0 s left, first_call junk buf_size malloc (flex_new ((fun i => MkStream i false) <$> fs) (Some f)) = Some s0
  /\ flex_run junk buf_size rd malloc fuel os s0 = Some (rs, s)
  /\ flex_delete s = Some left /\ size left = pred (length (inputs t)).
Proof.
  intros Hmal Hsize Hrd Hf Hfit Hrun. destruct (first_refines junk buf_size rd malloc Hmal Hsize Hrd fs f input Hf) as (s0 & H0 & Href).
  destruct (run_refines junk buf_size rd malloc Hmal Hsize Hrd fuel os s0 _ rs t Href) as (s & Hs & Hrefs); [|done|].
  { split; [by apply map_Forall_delete|]. constructor; [by eapply Hfit|done]. }
  destruct (delete_leaves s t Hrefs) as (left & Hd & Hl). by exists s0, s, left.
Qed.

(** An input is read on top of another one, in blocks of three characters; the last one is left behind. *)
Lemma scanner_stack_witness :
  let text := String.list_ascii_of_string in
  let fs := list_to_map [(1, text "host = x"); (2, text "true"); (3, text "3")] : gmap nat (list ascii) in
  let os := [Scan; Begin 2; Scan; Scan; End; Scan; Scan; Begin 3; Scan] in
  let rs := [LRule 16 (text "host"); LRule 12 (text "true"); LEof; LRule 17 (text " "); LRule 1 (text "="); LRule 13 (text "3")] in
  exists s0 s left, first_call NUL 4 fresh (flex_new ((fun i => MkStream i false) <$> fs) (Some 1)) = Some s0
  /\ flex_run NUL 4 3 fresh 30 os s0 = Some (rs, s) /\ flex_delete s = Some left /\ size left = 1.
Proof.
  intros text fs os rs.
  assert (exists t, texts_run os (MkTexts (delete 1 fs) [text "host = x"]) = Some (rs, t) /\ length (inputs t) = 2)
    as (t & Hrun & Hlen) by (eexists; split; vm_compute; reflexivity).
  destruct (scanner_stack NUL 4 3 fresh 30 fs 1 (text "host = x") os rs t) as (s0 & s & left & H0 & Hs & Hd & Hl);
    [apply is_fresh|lia|lia|reflexivity| |exact Hrun|].
  - intros g i Hg%elem_of_list_to_map_2. repeat (apply elem_of_cons in Hg as [[= -> ->]|Hg]; [split; cbn; lia|]).
    by apply not_elem_of_nil in Hg.
  - exists s0, s, left. rewrite Hlen in Hl. done.
Defined.

(** A character is pushed back before anything has been read, which moves the buffer; a second one does not fit
    in a buffer of two characters. *)
Lemma unput_input_witness :
  let l := yy_create_buffer "x" 2 (MkStream (String.list_ascii_of_string "=1") false) in
  (exists l1 l2, yyunput "<" l = Some l1 /\ left_to_scan l1 (String.list_ascii_of_string "<=1")
   /\ yyinput "x" 3 l1 = Some (Some "<"%char, l2) /\ left_to_scan l2 (String.list_ascii_of_string "=1"))
  /\ (yyunput "<" l ≫= yyunput "<") = None.
Proof.
  intros l. split; [|reflexivity].
  exact (unput_input "x" 3 ltac:(lia) "<" l (String.list_ascii_of_string "=1") (created_ready "x" 2 _ ltac:(lia))).
Defined.

(** ** Start conditions *)

(** [BEGIN] and [YY_START]; [yy_start] is 0 before the first call of [yylex]. *)
Definition BEGIN (state : Z) : Z := (1 + 2 * state)%Z.
Definition YY_START (yy_start : Z) : Z := ((yy_start - 1) ÷ 2)%Z.

Definition YY_START_STACK_INCR : nat := 25.
(** The memory of the stack, with its length [yy_start_stack_depth], and the number of entries in use. *)
Record conditions : Type := MkConditions { yy_start : Z; yy_start_stack : list Z; yy_start_stack_ptr : nat }.

Definition yy_push_state (new_state : Z) (s : conditions) : option conditions :=
  let st := if length (yy_start_stack s) <=? yy_start_stack_ptr s
            then yy_start_stack s ++ replicate YY_START_STACK_INCR 0%Z else yy_start_stack s in
  _ ← st !! yy_start_stack_ptr s;
  Some (MkConditions (BEGIN new_state) (<[yy_start_stack_ptr s := YY_START (yy_start s)]> st) (S (yy_start_stack_ptr s))).
Definition yy_pop_state (s : conditions) : option conditions :=
  match yy_start_stack_ptr s with
  | O => None
  | S n => c ← yy_start_stack s !! n; Some (MkConditions (BEGIN c) (yy_start_stack s) n)
  end.
Definition yy_top_state (s : conditions) : option Z :=
  match yy_start_stack_ptr s with O => None | S n => yy_start_stack s !! n end.

(** The entries in use and their start conditions. *)
Definition conditions_ok (s : conditions) : Prop := yy_start_stack_ptr s <= length (yy_start_stack s).
Definition entries (s : conditions) : list Z := rev (take (yy_start_stack_ptr s) (yy_start_stack s)).

(** The stack of start conditions is a stack: the memory suffices for every push, what is popped is what was pushed, and an
    empty stack ends the process. *)
Lemma start_conditions new_state s :
  conditions_ok s ->
  (exists s', yy_push_state new_state s = Some s' /\ conditions_ok s' /\ entries s' = YY_START (yy_start s) :: entries s
   /\ yy_start s' = BEGIN new_state /\ yy_top_state s' = Some (YY_START (yy_start s))
   /\ exists s'', yy_pop_state s' = Some s'' /\ entries s'' = entries s /\ yy_start s'' = BEGIN (YY_START (yy_start s)))
  /\ (entries s = [] -> yy_pop_state s = None).
Proof.
  unfold conditions_ok. intros Hok. split.
  - unfold yy_push_state. set (st := if _ <=? _ then _ else _).
    assert (yy_start_stack_ptr s < length st /\ take (yy_start_stack_ptr s) st = take (yy_start_stack_ptr s) (yy_start_stack s)) as [Hlt Htk].
    { subst st. destruct (_ <=? _) eqn:Hle; [|apply Nat.leb_gt in Hle; done]. rewrite length_app, take_app_le by done. split; [cbn; lia|done]. }
    destruct (lookup_lt_is_Some_2 _ _ Hlt) as [c ->]. cbn [mbind option_bind]. eexists. split; [reflexivity|].
    unfold yy_top_state, yy_pop_state, entries. cbn [yy_start_stack yy_start_stack_ptr yy_start].
    rewrite list_lookup_insert_eq by done. cbn [mbind option_bind]. rewrite length_insert. split; [lia|].
    assert (take (yy_start_stack_ptr s) (<[yy_start_stack_ptr s := YY_START (yy_start s)]> st)
      = take (yy_start_stack_ptr s) (yy_start_stack s)) as Htk' by (by rewrite take_insert_ge by lia).
    split; [|split; [done|]; split; [done|]; eexists; split; [reflexivity|]; cbn; by rewrite Htk'].
    by rewrite (take_S_r _ _ (YY_START (yy_start s))), Htk', rev_unit by (by rewrite list_lookup_insert_eq).
  - unfold entries, yy_pop_state. destruct (yy_start_stack_ptr s) as [|n]; [done|]. destruct (yy_start_stack s); [cbn in Hok; lia|].
    cbn. by destruct (rev _).
Qed.
