(* ===== verification/ParserRun.v ===== *)
(** * The generated parser with its locations and messages

    [Parser::parse] of [src/query/parser.cpp] with what [Lalr] leaves out: the stack of
    [src/query/stack.hh], the location of every symbol, the state of the error recovery and
    the messages that [yysyntax_error_] composes and [driver::error] prints.  The theorems:
    the parser does what [Lalr] says, it reports an error exactly when it gives up,
    once, at the token that no query which begins like this one can have, and with the names
    of the tokens that the state has an action for. *)

From S2P Require Import Prelude Ieee Infra Codec Query Lalr Flex Location FlexBuffer.

Local Open Scope Z_scope.

(** ** Messages *)

Definition quoted (s : string) : string := String k_quote (s +:+ String k_quote "").

Definition yytname_ : list string :=
  [ quoted "end of file"; "error"; "$undefined"; quoted "end of line";
    quoted "integer"; quoted "double"; quoted "string"; quoted "equal"; quoted "greater";
    quoted "greater_eq"; quoted "lesser"; quoted "lesser_eq"; quoted "like";
    quoted "unquotedstring"; "TRUE"; "TAGGED"; "NIL"; "OR"; "AND"; "NOT"; "'('";
    "')'"; "$accept"; "all"; "operator"; "action"; "expr"; "start" ].
Definition name_ (i : Z) : option string := if i <? 0 then None else yytname_ !! Z.to_nat i.

(** The loop of [yytnamerr_]: [None] if it runs past the end, [Some None] to keep the quotes. *)
Fixpoint strip_quotes (yystr : string) : option (option string) :=
  match yystr with
  | "" => None
  | String c rest =>
      if decide (c = "'"%char \/ c = ","%char) then Some None
      else if decide (c = "\"%char) then
        match rest with
        | String "\" rest' => r ← strip_quotes rest'; Some (option_map (String "\") r)
        | _ => Some None
        end
      else if decide (c = k_quote) then Some (Some "")
      else r ← strip_quotes rest; Some (option_map (String c) r)
  end%string.
Definition yytnamerr_ (yystr : string) : option string :=
  match yystr with
  | String c rest =>
      if decide (c = k_quote) then (fun r => default yystr r) <$> strip_quotes rest else Some yystr
  | EmptyString => Some yystr
  end.

(** The expected tokens, from [yyx] on, behind the unexpected one; none of them if they are too
    many. *)
Fixpoint collect (n : nat) (yyx yyn : Z) (yyarg : list string) : option (list string) :=
  match n with
  | O => Some yyarg
  | S n' =>
      check ← at_ yycheck_ (yyx + yyn);
      expected ←
        (if (check =? yyx) && negb (yyx =? yyterror_) then
           act ← at_ yytable_ (yyx + yyn); Some (negb (act =? yytable_ninf_))
         else Some false);
      if expected : bool then
        if (length yyarg =? 5)%nat then Some (take 1 yyarg)
        else name ← name_ yyx; collect n' (yyx + 1) yyn (yyarg ++ [name])
      else collect n' (yyx + 1) yyn yyarg
  end.

Definition yyformat (yycount : nat) : option string :=
  match yycount with
  | 0 => Some "syntax error"
  | 1 => Some "syntax error, unexpected %s"
  | 2 => Some "syntax error, unexpected %s, expecting %s"
  | 3 => Some "syntax error, unexpected %s, expecting %s or %s"
  | 4 => Some "syntax error, unexpected %s, expecting %s or %s or %s"
  | 5 => Some "syntax error, unexpected %s, expecting %s or %s or %s or %s"
  | _ => None
  end%nat.

Fixpoint expand (yyp : string) (yyarg : list string) : option string :=
  match yyp, yyarg with
  | "", _ => Some ""
  | String "%" (String "s" yyp'), arg :: yyarg' =>
      name ← yytnamerr_ arg; rest ← expand yyp' yyarg'; Some (name +:+ rest)
  | String c yyp', _ => String c <$> expand yyp' yyarg
  end%string.

(** [yytoken] is [None] for [yyempty_]. *)
Definition yysyntax_error_ (yystate : Z) (yytoken : option Z) : option string :=
  yyarg ←
    match yytoken with
    | None => Some []
    | Some yytoken =>
        name ← name_ yytoken;
        yyn ← at_ yypact_ yystate;
        if yyn =? yypact_ninf_ then Some [name]
        else
          let yyxbegin := if yyn <? 0 then - yyn else 0 in
          let yychecklim := yylast_ - yyn + 1 in
          let yyxend := if yychecklim <? yyntokens_ then yychecklim else yyntokens_ in
          collect (Z.to_nat (yyxend - yyxbegin)) yyxbegin yyn [name]
    end;
  yyformat ← yyformat (length yyarg);
  expand yyformat yyarg.

(** [driver::error]: the line on the standard error stream. *)
Definition driver_error (print_address : Z -> string) (l : location.t) (m : string) : string :=
  location.print print_address l +:+ ": " +:+ m +:+ String "010" "".

(** ** The parser *)

(** [stack_symbol_type]. *)
Record symbol : Type := Sym { state : Z; value : semantic; located : location.t }.

(** [symbol_type], the lookahead. *)
Record lookahead_symbol : Type := Look { la_type : Z; la_value : semantic; la_location : location.t }.

(** The variables of [parse]; what the scanner will return with the locations, ended by the end of the
    input or an exception; the expression of the query context; and what was reported.
    [yyerror_begin] is [yyerror_range[1].location]. *)
Record parser : Type := MkParser {
  yystack : stack.t symbol;
  yyempty : bool;
  yyla : lookahead_symbol;
  yyerrstatus_ : Z;
  yynerrs_ : Z;
  yyerror_begin : location.t;
  input : list (token * location.t);
  input_end : location.t * option exn;
  query : option query_node;
  reports : list (location.t * string)
}.

Inductive run : Type :=
| Go (p : parser)
| Accepted (p : parser)
| Aborted (p : parser)
| Raised (x : exn).

(** What the semantics leaves undefined. *)
Definition defined (r : option run) : run := default (Raised undefined_behaviour) r.

(** [yypush_] of a symbol. *)
Definition yypush_ (s : symbol) (p : parser) : parser :=
  MkParser (stack.push s (yystack p)) (yyempty p) (yyla p) (yyerrstatus_ p) (yynerrs_ p) (yyerror_begin p)
    (input p) (input_end p) (query p) (reports p).

(** [yylex], into [yyla]. *)
Definition read_token (p : parser) : result parser :=
  let loaded la rest := MkParser (yystack p) false la (yyerrstatus_ p) (yynerrs_ p) (yyerror_begin p)
                          rest (input_end p) (query p) (reports p) in
  if yyempty p then
    match input p, input_end p with
    | (t, l) :: rest, _ => Ok (loaded (Look (yytranslate_ (token_number t)) (token_value t) l) rest)
    | [], (l, None) => Ok (loaded (Look 0 VNone l) [])
    | [], (_, Some x) => Throw x
    end
  else Ok p.

(** Shifting the lookahead, whose type is emptied: to 0. *)
Definition shift (yyn : Z) (p : parser) : parser :=
  let la := yyla p in
  MkParser (stack.push (Sym yyn (la_value la) (la_location la)) (yystack p)) true
    (Look 0 (la_value la) (la_location la)) (if yyerrstatus_ p =? 0 then 0 else yyerrstatus_ p - 1)
    (yynerrs_ p) (yyerror_begin p) (input p) (input_end p) (query p) (reports p).

(** [yyreduce]. *)
Definition yyreduce (yyn : Z) (p : parser) : run :=
  defined (
    yylen ← at_ yyr2_ yyn;
    lhs ← at_ yyr1_ yyn;
    let n := Z.to_nat yylen in
    below ← stack.get (yystack p) n;
    goto ← yy_lr_goto_state_ (state below) lhs;
    l ← yylloc_default (fun i => located <$> stack.slice (yystack p) n i) n;
    let values := value <$> stack.elements (yystack p) in
    v ← action yyn values;
    e ← set_expression yyn values (query p);
    rest ← stack.pop n (yystack p);
    Some (Go (yypush_ (Sym goto v l)
      (MkParser rest (yyempty p) (yyla p) (yyerrstatus_ p) (yynerrs_ p) (yyerror_begin p) (input p)
         (input_end p) e (reports p))))).

(** [yyreturn]: the symbols above the first are popped. *)
Definition yyreturn (p : parser) : parser :=
  MkParser (stack.Mk (take 1 (stack.seq_ (yystack p)))) (yyempty p) (yyla p) (yyerrstatus_ p) (yynerrs_ p)
    (yyerror_begin p) (input p) (input_end p) (query p) (reports p).

(** Whether a state can shift the error token. *)
Definition error_shift (yyn : Z) : option (option Z) :=
  if yyn =? yypact_ninf_ then Some None
  else
    let n := yyn + yyterror_ in
    if (0 <=? n) && (n <=? yylast_) then
      check ← at_ yycheck_ n; act ← at_ yytable_ n;
      Some (if (check =? yyterror_) && (0 <? act) then Some act else None)
    else Some None.

(** The loop of [yyerrlab1]. *)
Fixpoint unwind (fuel : nat) (st : stack.t symbol) (begin : location.t)
  : option (option (Z * stack.t symbol * location.t)) :=
  match fuel with
  | O => None
  | S fuel' =>
      top ← stack.get st 0;
      yyn ← at_ yypact_ (state top);
      r ← error_shift yyn;
      match r with
      | Some act => Some (Some (act, st, begin))
      | None => if (stack.size st =? 1)%nat then Some None
                else st' ← stack.pop 1 st; unwind fuel' st' (located top)
      end
  end.
Definition yyerrlab1 (p : parser) : run :=
  defined (
    r ← unwind (stack.size (yystack p)) (yystack p) (yyerror_begin p);
    match r with
    | None => Some (Aborted (yyreturn p))
    | Some (act, st, begin) =>
        l ← yylloc_default (fun i => match i with 1%nat => Some begin | _ => Some (la_location (yyla p)) end) 2;
        Some (Go (yypush_ (Sym act VNone l)
          (MkParser st (yyempty p) (yyla p) 3 (yynerrs_ p) begin (input p) (input_end p) (query p) (reports p))))
    end).

(** [yyerrlab]. *)
Definition yyerrlab (p : parser) : run :=
  defined (
    top ← stack.get (yystack p) 0;
    '(nerrs, rs) ←
      (if yyerrstatus_ p =? 0 then
         m ← yysyntax_error_ (state top) (if yyempty p then None else Some (la_type (yyla p)));
         Some (yynerrs_ p + 1, reports p ++ [(la_location (yyla p), m)])
       else Some (yynerrs_ p, reports p));
    let p' empty := MkParser (yystack p) empty (yyla p) (yyerrstatus_ p) nerrs (la_location (yyla p))
                      (input p) (input_end p) (query p) rs in
    Some (if yyerrstatus_ p =? 3 then
            if la_type (yyla p) =? 0 then Aborted (yyreturn (p' (yyempty p))) else yyerrlab1 (p' true)
          else yyerrlab1 (p' (yyempty p)))).

(** [yydefault]. *)
Definition yydefault (yystate : Z) (p : parser) : run :=
  defined (yyn ← at_ yydefact_ yystate; Some (if yyn =? 0 then yyerrlab p else yyreduce yyn p)).

(** With the lookahead. *)
Definition yydecide (yystate yyn : Z) (p : parser) : run :=
  let n := yyn + la_type (yyla p) in
  if (n <? 0) || (yylast_ <? n) then yydefault yystate p
  else
    defined (
      check ← at_ yycheck_ n;
      act ← at_ yytable_ n;
      Some (if negb (check =? la_type (yyla p)) then yydefault yystate p
            else if act <=? 0 then if act =? yytable_ninf_ then yyerrlab p else yyreduce (- act) p
            else Go (shift act p))).

(** From [yynewstate] to the next one. *)
Definition yynewstate (p : parser) : run :=
  defined (
    top ← stack.get (yystack p) 0;
    if state top =? yyfinal_ then Some (Accepted (yyreturn p))
    else
      yyn ← at_ yypact_ (state top);
      Some (if yyn =? yypact_ninf_ then yydefault (state top) p
            else match read_token p with
                 | Ok p => yydecide (state top) yyn p
                 | Throw x => Raised x
                 end)).

Fixpoint run_parser (fuel : nat) (p : parser) : option run :=
  match fuel with
  | O => None
  | S fuel' => match yynewstate p with Go p => run_parser fuel' p | r => Some r end
  end.

(** The initial location names the stream. *)
Definition initial (streamname : file_name) : location.t :=
  location.at_position (position.Mk (Some streamname) 1 1).
Definition start_parser (l : location.t) (ts : list (token * location.t)) (e : location.t * option exn) : parser :=
  MkParser (stack.push (Sym 0 VNone l) (stack.clear stack.empty)) true (Look 0 VNone l) 0 0
    (location.initialize None 1 1) ts e None [].
Definition parse_located (l : location.t) (ts : list (token * location.t)) (e : location.t * option exn) : option run :=
  run_parser (2 * length ts + 6) (start_parser l ts e).

(** ** The parser and [Lalr] *)

(** What [Lalr] keeps of a parser that has seen no error. *)
Definition erase (s : symbol) : Z * semantic := (state s, value s).
Record refines (p : parser) (c : config) : Prop := {
  rf_stack : yystack_ c = erase <$> stack.elements (yystack p);
  rf_tokens :
    if yyempty p then tokens c = (input p).*1
    else (exists t, tokens c = t :: (input p).*1 /\ la_type (yyla p) = sym_of t /\ la_value (yyla p) = token_value t)
         \/ (tokens c = [] /\ input p = [] /\ failure c = None /\ la_type (yyla p) = 0 /\ la_value (yyla p) = VNone);
  rf_failure : failure c = snd (input_end p);
  rf_query : expression c = query p;
  rf_status : yyerrstatus_ p = 0;
  rf_reports : reports p = []
}.

(** The symbols a state has an action for, and the message that says so. *)
Definition expected (s : Z) : list Z :=
  filter (fun sym => sym <> yyterror_ /\ no_entry s sym = false) (seqZ 0 22).
Definition token_names : list string :=
  [ "end of file"; "error"; "$undefined"; "end of line"; "integer"; "double"; "string"; "equal"; "greater";
    "greater_eq"; "lesser"; "lesser_eq"; "like"; "unquotedstring"; "TRUE"; "TAGGED"; "NIL"; "OR"; "AND";
    "NOT"; "'('"; "')'" ].
Definition token_name (sym : Z) : string := default ""%string (token_names !! Z.to_nat sym).
Definition expecting (syms : list Z) : string :=
  match syms with
  | [] => ""
  | sym :: syms =>
      if (4 <=? length syms)%nat then ""
      else ", expecting " +:+ token_name sym +:+ foldr (fun sym r => " or " +:+ token_name sym +:+ r) "" syms
  end%string.
Definition message (s sym : Z) : string :=
  "syntax error, unexpected " +:+ token_name sym +:+ expecting (expected s).

Lemma message_spec s sym :
  valid_state s -> sym ∈ seqZ 0 22 -> asks s = true ->
  yysyntax_error_ s (Some sym) = Some (message s sym).
Proof.
  intros Hs Hsym Ha.
  assert (forallb (fun s => negb (asks s) || forallb (fun sym =>
    bool_decide (yysyntax_error_ s (Some sym) = Some (message s sym))) (seqZ 0 22)) (seqZ 0 35) = true) as Hall
    by (vm_compute; reflexivity).
  rewrite forallb_forall in Hall. specialize (Hall s (proj1 (list_elem_of_In _ _) Hs)).
  rewrite Ha in Hall. cbn [negb orb] in Hall. rewrite forallb_forall in Hall.
  specialize (Hall sym (proj1 (list_elem_of_In _ _) Hsym)). by apply bool_decide_eq_true in Hall.
Qed.

(** Without a lookahead nothing is rejected. *)
Lemma default_reduces s :
  valid_state s -> s <> yyfinal_ -> at_ yypact_ s = Some yypact_ninf_ ->
  exists r, at_ yydefact_ s = Some r /\ r <> 0.
Proof.
  intros Hs Hf Hp.
  assert (forallb (fun s => bool_decide (s = yyfinal_ \/ at_ yypact_ s <> Some yypact_ninf_)
    || match at_ yydefact_ s with Some r => negb (r =? 0) | None => false end) (seqZ 0 35) = true) as Hall
    by (vm_compute; reflexivity).
  rewrite forallb_forall in Hall. specialize (Hall s (proj1 (list_elem_of_In _ _) Hs)).
  apply orb_true_iff in Hall as [[?|?]%bool_decide_eq_true|Hall]; [done|done|].
  destruct (at_ yydefact_ s) as [r|]; [|done]. exists r. split; [done|]. by apply negb_true_iff, Z.eqb_neq in Hall.
Qed.

(** The rules that the automaton reduces by lead from every state to one. *)
Definition good_rule (r : Z) : Prop :=
  exists len lhs, at_ yyr2_ r = Some len /\ at_ yyr1_ r = Some lhs /\ 0 <= len
  /\ forall s, valid_state s -> exists g, yy_lr_goto_state_ s lhs = Some g /\ valid_state g.
Lemma default_rule s r :
  valid_state s -> s <> yyfinal_ -> at_ yydefact_ s = Some r -> r <> 0 -> good_rule r.
Proof.
  intros Hs Hf Hr H0. pose (ok r := match at_ yyr2_ r, at_ yyr1_ r with
    | Some len, Some lhs => (0 <=? len) && forallb (fun s => match yy_lr_goto_state_ s lhs with
        | Some g => bool_decide (valid_state g) | None => false end) (seqZ 0 35)
    | _, _ => false end).
  assert (forallb (fun s => (s =? yyfinal_) || match at_ yydefact_ s with
    | Some r => (r =? 0) || ok r | None => false end) (seqZ 0 35) = true) as Hall by (vm_compute; reflexivity).
  rewrite forallb_forall in Hall. specialize (Hall s (proj1 (list_elem_of_In _ _) Hs)).
  apply Z.eqb_neq in Hf, H0. rewrite Hf, Hr, H0 in Hall. cbn [orb] in Hall. unfold ok in Hall. unfold good_rule.
  destruct (at_ yyr2_ r) as [len|]; [|done]. destruct (at_ yyr1_ r) as [lhs|]; [|done].
  apply andb_true_iff in Hall as [Hlen Hall]. exists len, lhs. split_and!; [done|done|by apply Z.leb_le|].
  intros s' Hs'. rewrite forallb_forall in Hall. specialize (Hall s' (proj1 (list_elem_of_In _ _) Hs')).
  destruct (yy_lr_goto_state_ s' lhs) as [g|]; [|done]. exists g. split; [done|]. by apply bool_decide_eq_true in Hall.
Qed.

(** The entries of the table for a symbol are shifts. *)
Lemma table_shift s yyn sym act :
  valid_state s -> sym ∈ seqZ 0 22 -> at_ yypact_ s = Some yyn -> yyn <> yypact_ninf_ ->
  at_ yycheck_ (yyn + sym) = Some sym -> at_ yytable_ (yyn + sym) = Some act -> 0 < act /\ valid_state act.
Proof.
  intros Hs Hsym Hp Hn Hc Ht.
  assert (forallb (fun s => match at_ yypact_ s with
    | Some yyn => (yyn =? yypact_ninf_) || forallb (fun sym => match at_ yycheck_ (yyn + sym), at_ yytable_ (yyn + sym) with
        | Some check, Some act => negb (check =? sym) || bool_decide (0 < act /\ valid_state act)
        | _, _ => true end) (seqZ 0 22)
    | None => false end) (seqZ 0 35) = true) as Hall by (vm_compute; reflexivity).
  rewrite forallb_forall in Hall. specialize (Hall s (proj1 (list_elem_of_In _ _) Hs)). rewrite Hp in Hall.
  apply Z.eqb_neq in Hn. rewrite Hn in Hall. cbn [orb] in Hall. rewrite forallb_forall in Hall.
  specialize (Hall sym (proj1 (list_elem_of_In _ _) Hsym)). rewrite Hc, Ht, Z.eqb_refl in Hall.
  by apply bool_decide_eq_true in Hall.
Qed.

(** Both parsers go on, accept, give up with a report, or raise the same. *)
Definition same_run (r : run) (o : outcome) : Prop :=
  match r, o with
  | Go p, Next c => refines p c /\ valid (yystack_ c)
  | Accepted p, Accept q => query p = q /\ reports p = []
  | Aborted p, Abort q => query p = q
      /\ exists s, errs s (la_type (yyla p)) = true
         /\ reports p = [(la_location (yyla p), message s (la_type (yyla p)))]
  | Raised x, Raise y => x = y
  | _, _ => False
  end.

Section refinement.
Variables (p : parser) (c : config).
Hypothesis Href : refines p c.
Hypothesis Hvalid : valid (yystack_ c).

Lemma refines_get i : yystack_ c !! i = erase <$> stack.get (yystack p) i.
Proof. by rewrite (rf_stack _ _ Href), list_lookup_fmap, stack_get. Qed.

Lemma reduce_same r : good_rule r -> same_run (yyreduce r p) (reduce r c).
Proof.
  intros (len & lhs & Hlen & Hlhs & Hpos & Hgoto). unfold yyreduce, reduce. rewrite Hlen, Hlhs. cbn [mbind option_bind].
  set (n := Z.to_nat len). rewrite refines_get. destruct (stack.get (yystack p) n) as [below|] eqn:Hb; [|done].
  cbn [fmap option_fmap option_map mbind option_bind erase].
  assert (valid_state (state below)) as Hsb.
  { pose proof (refines_get n) as Hl. rewrite Hb in Hl. by apply (proj1 (Forall_lookup _ _) Hvalid n _ Hl). }
  destruct (Hgoto _ Hsb) as (g & -> & Hg). cbn [mbind option_bind].
  assert (value <$> stack.elements (yystack p) = snd <$> yystack_ c) as Hvals.
  { rewrite (rf_stack _ _ Href), <- list_fmap_compose. done. }
  rewrite Hvals. pose proof Hb as Hlt. rewrite stack_get in Hlt. apply lookup_lt_Some in Hlt.
  assert (forall i, (i <= n)%nat -> exists s, stack.slice (yystack p) n i = Some s) as Hslice.
  { intros i Hi. rewrite stack_slice by done. apply lookup_lt_is_Some_2. lia. }
  assert (exists l, yylloc_default (fun i => located <$> stack.slice (yystack p) n i) n = Some l) as [l Hl].
  { unfold yylloc_default. destruct n as [|n'].
    - destruct (Hslice 0%nat ltac:(lia)) as [s ->]. by eexists.
    - destruct (Hslice 1%nat ltac:(lia)) as [s1 ->]. destruct (Hslice (S n') ltac:(lia)) as [s2 ->]. by eexists. }
  rewrite Hl. cbn [mbind option_bind]. rewrite (rf_query _ _ Href).
  destruct (action r _) as [v|]; [|done]. cbn [mbind option_bind].
  destruct (set_expression r _ (query p)) as [e|]; [|done]. cbn [mbind option_bind].
  destruct (stack_pop n (yystack p)) as (st & Hst & Hel).
  { unfold stack.size. unfold stack.elements in Hlt. rewrite length_reverse in Hlt. lia. }
  rewrite Hst. cbn [mbind option_bind defined default from_option id same_run]. split.
  - destruct Href. constructor; try done. cbn [yystack_ yystack yypush_].
    rewrite stack_push, Hel, rf_stack0, fmap_cons, fmap_drop. done.
  - constructor; [done|]. by apply Forall_drop.
Qed.

(** States on the stack cannot shift the error token. *)
Lemma unwind_aborts : forall l st b,
  stack.elements st = l -> l <> [] -> recover (erase <$> l) = Some None -> unwind (length l) st b = Some None.
Proof.
  induction l as [|s l IH]; intros st b Hl Hne Hrec; [done|]. cbn [length unwind]. rewrite stack_get, Hl.
  change ((s :: l) !! 0%nat) with (Some s). rewrite fmap_cons in Hrec. cbn [recover erase mbind option_bind] in Hrec |- *.
  destruct (at_ yypact_ (state s)) as [yyn|]; [|done]. cbn [mbind option_bind] in Hrec |- *.
  change (if yyn =? yypact_ninf_ then _ else _) with (error_shift yyn) in Hrec.
  destruct (error_shift yyn) as [[act|]|]; [done| |done]. cbn [mbind option_bind] in Hrec |- *.
  assert (stack.size st = S (length l)) as Hsz.
  { unfold stack.size. rewrite <- length_reverse. unfold stack.elements in Hl. by rewrite Hl. }
  rewrite Hsz. destruct l as [|s' l]; [done|]. cbn [length Nat.eqb].
  destruct (stack_pop 1 st) as (st' & -> & Hel); [lia|]. cbn [mbind option_bind]. rewrite Hl in Hel. by apply IH.
Qed.

Lemma error_same s v stk :
  yystack_ c = (s, v) :: stk -> yyempty p = false -> la_type (yyla p) ∈ seqZ 0 22 -> errs s (la_type (yyla p)) = true ->
  same_run (yyerrlab p) (error c).
Proof.
  intros Hstk Hem Hla Herr. assert (valid_state s) as Hs by (rewrite Hstk in Hvalid; by inversion Hvalid).
  unfold error. rewrite recover_aborts; [|done|by rewrite Hstk].
  pose proof (refines_get 0) as Hget. rewrite Hstk in Hget. destruct (stack.get (yystack p) 0) as [top|] eqn:Htop; [|done].
  injection Hget as -> ->. unfold yyerrlab. rewrite Htop, (rf_status _ _ Href), Hem. cbn [Z.eqb mbind option_bind].
  rewrite message_spec; [|done|done|by apply andb_true_iff in Herr as [[? _]%andb_true_iff _]].
  cbn [mbind option_bind]. change (0 =? 3) with false. cbn match. unfold yyerrlab1.
  cbn [yystack yyerror_begin defined default from_option].
  assert (unwind (stack.size (yystack p)) (yystack p) (la_location (yyla p)) = Some None) as ->.
  { replace (stack.size (yystack p)) with (length (stack.elements (yystack p)))
      by (unfold stack.elements; by rewrite length_reverse).
    apply unwind_aborts; [done| |].
    - intros Hnil. rewrite (rf_stack _ _ Href), Hnil in Hstk. done.
    - rewrite <- (rf_stack _ _ Href). apply recover_aborts; [done|by rewrite Hstk]. }
  cbn. destruct Href. rewrite rf_reports0. split; [done|]. by eexists.
Qed.
End refinement.

Lemma read_refines p c :
  refines p c ->
  match read_token p, lookahead c with
  | Ok p', Ok sym => yyempty p' = false /\ la_type (yyla p') = sym /\ yystack p' = yystack p
      /\ refines p' (MkConfig (yystack_ c) true (tokens c) (failure c) (expression c))
  | Throw x, Throw y => x = y
  | _, _ => False
  end.
Proof.
  intros [H1 H2 H3 H4 H5 H6]. unfold read_token, lookahead. destruct (yyempty p) eqn:He.
  - rewrite H2. destruct (input p) as [|[t l] rest] eqn:Hin; cbn [fmap list_fmap].
    + rewrite H3. destruct (input_end p) as [l [x|]] eqn:Hend; cbn [snd] in *; [done|]. split_and!; [done..|].
      constructor; try done. by right.
    + split_and!; [done..|]. constructor; try done. left. by exists t.
  - destruct H2 as [(t & -> & Ht & Hv)|(-> & Hi & Hf & Ht & Hv)].
    + split_and!; [done..|]. constructor; try done. cbn. rewrite He. left. by exists t.
    + rewrite Hf. split_and!; [done..|]. constructor; try done; [|by rewrite <- H3]. cbn. rewrite He. by right.
Qed.

Lemma lookahead_value_refines p c :
  refines p c -> yyempty p = false -> la_value (yyla p) = lookahead_value c /\ (input p).*1 = tail (tokens c)
  /\ la_type (yyla p) ∈ seqZ 0 22.
Proof.
  intros [H1 H2 H3 H4 H5 H6] He. unfold lookahead_value. rewrite He in H2.
  destruct H2 as [(t & -> & Ht & Hv)|(-> & Hi & Hf & Ht & Hv)].
  - rewrite Ht. split_and!; [done|done|]. apply sym_of_range.
  - rewrite Hi, Ht. split_and!; [done|done|]. by_decide.
Qed.

Lemma default_same p c s v stk :
  refines p c -> valid (yystack_ c) -> yystack_ c = (s, v) :: stk -> s <> yyfinal_ ->
  (at_ yydefact_ s = Some 0 -> yyempty p = false /\ errs s (la_type (yyla p)) = true) ->
  same_run (yydefault s p) (default_action s c).
Proof.
  intros Href Hvalid Hstk Hf Herr. unfold yydefault, default_action.
  destruct (at_ yydefact_ s) as [r|] eqn:Hr; [|done]. cbn [mbind option_bind].
  destruct (r =? 0) eqn:H0; cbn [defined default from_option id].
  - apply Z.eqb_eq in H0 as ->. destruct (Herr eq_refl) as [He Hs]. eapply error_same; try done.
    by eapply lookahead_value_refines.
  - apply Z.eqb_neq in H0. apply reduce_same; [done|done|]. eapply default_rule; try done.
    rewrite Hstk in Hvalid. by inversion Hvalid.
Qed.

Lemma no_entry_intro s yyn sym :
  s <> yyfinal_ -> at_ yypact_ s = Some yyn -> yyn <> yypact_ninf_ ->
  (yyn + sym <? 0) || (yylast_ <? yyn + sym) = true \/ at_ yycheck_ (yyn + sym) <> Some sym ->
  no_entry s sym = true.
Proof.
  intros Hf Hp Hn Hcase. unfold no_entry, asks. rewrite Hp. change (default yypact_ninf_ (Some yyn)) with yyn.
  apply Z.eqb_neq in Hf, Hn. rewrite Hf, Hn. cbn [negb andb].
  destruct ((yyn + sym <? 0) || (yylast_ <? yyn + sym)) eqn:Hr; [done|]. cbn [orb].
  destruct Hcase as [?|Hcase]; [done|]. destruct (entry_range _ Hr) as [[check Hc] _]. rewrite Hc in *.
  change (default sym (Some check)) with check. apply negb_true_iff, Z.eqb_neq. congruence.
Qed.

Lemma step_same p c : refines p c -> valid (yystack_ c) -> same_run (yynewstate p) (step c).
Proof.
  intros Href Hvalid. unfold yynewstate, step. pose proof (refines_get p c Href 0) as Hget.
  destruct (yystack_ c) as [|[s v] stk] eqn:Hstk.
  { destruct (stack.get (yystack p) 0); [done|reflexivity]. }
  destruct (stack.get (yystack p) 0) as [top|] eqn:Htop; [|done]. injection Hget as -> ->. cbn [mbind option_bind].
  assert (valid_state (state top)) as Hs by (by inversion Hvalid).
  rewrite <- Hstk in Hvalid. destruct (state top =? yyfinal_) eqn:Hf.
  { destruct Href. by split. }
  apply Z.eqb_neq in Hf. destruct (at_ yypact_ (state top)) as [yyn|] eqn:Hp; [|done].
  cbn [mbind option_bind defined default from_option id]. destruct (yyn =? yypact_ninf_) eqn:Hn.
  { apply Z.eqb_eq in Hn as ->. eapply default_same; try done. intros H0.
    destruct (default_reduces _ Hs Hf Hp) as (r & Hr & Hr0). congruence. }
  apply Z.eqb_neq in Hn. pose proof (read_refines p c Href) as Hread.
  destruct (read_token p) as [p'|x], (lookahead c) as [sym|y]; [|done|done|done].
  destruct Hread as (He & Hla & Hst' & Href'). rewrite <- Hstk.
  set (c' := MkConfig (yystack_ c) true (tokens c) (failure c) (expression c)) in *.
  destruct (lookahead_value_refines p' c' Href' He) as (Hval & Hin & Hrange). rewrite Hla in Hrange.
  assert (no_entry (state top) sym = true -> same_run (yydefault (state top) p') (default_action (state top) c')) as Hdef.
  { intros Hne. eapply default_same; try done. intros H0. split; [done|]. unfold errs. by rewrite Hla, Hne, H0. }
  unfold yydecide, decide_action. rewrite Hla.
  destruct ((yyn + sym <? 0) || (yylast_ <? yyn + sym)) eqn:Hr.
  { apply Hdef. eapply no_entry_intro; eauto. }
  destruct (entry_range _ Hr) as [[check Hc] [act Ha]]. rewrite Hc, Ha. cbn [mbind option_bind defined default from_option id].
  destruct (check =? sym) eqn:Hcs; cbn [negb].
  2: { apply Hdef. eapply no_entry_intro; eauto. right. apply Z.eqb_neq in Hcs. congruence. }
  apply Z.eqb_eq in Hcs as ->. destruct (table_shift _ _ _ _ Hs Hrange Hp Hn Hc Ha) as [Hpos Hact].
  replace (act <=? 0) with false by (symmetry; apply Z.leb_gt; lia).
  cbn [same_run]. split; [|by constructor]. destruct Href' as [H1 H2 H3 H4 H5 H6]. constructor; try done.
  - cbn [yystack_ yystack shift]. rewrite stack_push, fmap_cons, H1. unfold erase at 1. cbn [state value]. by rewrite Hval.
  - cbn [shift yyerrstatus_]. by rewrite H5.
Qed.

Lemma run_same fuel : forall p c, refines p c -> valid (yystack_ c) ->
  match run_parser fuel p, yyparse fuel c with
  | Some r, Some o => same_run r o
  | None, None => True
  | _, _ => False
  end.
Proof.
  induction fuel as [|fuel IH]; intros p c Href Hv; [done|]. cbn [run_parser yyparse].
  pose proof (step_same p c Href Hv) as Hs.
  destruct (yynewstate p) as [p'|p'|p'|x], (step c) as [c'|q|q|y]; try done.
  destruct Hs as [Hr' Hv']. by apply IH.
Qed.

Lemma start_refines l ts e : refines (start_parser l ts e) (start_config (ts.*1) (snd e)).
Proof. by constructor. Qed.

Lemma parse_located_same l ts e :
  exists r o, parse_located l ts e = Some r /\ parser_parse (ts.*1) (snd e) = Some o /\ same_run r o
  /\ (match parse (ts.*1) with Some q => o = Accept (Some q) | None => exists q, o = Abort q end
      \/ exists x, snd e = Some x /\ o = Raise x).
Proof.
  pose proof (run_same (2 * length ts + 6) _ _ (start_refines l ts e)) as Hrun.
  specialize (Hrun ltac:(repeat constructor)).
  destruct (parse_agrees (ts.*1) (snd e)) as (o & Ho & Hcase). specialize (Ho 0%nat).
  rewrite length_fmap, Nat.add_0_r in Ho. rewrite Ho in Hrun. unfold parse_located.
  destruct (run_parser (2 * length ts + 6) (start_parser l ts e)) as [r|]; [|done]. exists r, o. unfold parser_parse. by rewrite length_fmap.
Qed.


(** ** Where an error is found *)

Definition with_input (ts : list (token * location.t)) (e : location.t * option exn) (p : parser) : parser :=
  MkParser (yystack p) (yyempty p) (yyla p) (yyerrstatus_ p) (yynerrs_ p) (yyerror_begin p) ts e (query p) (reports p).
Definition map_run (f : parser -> parser) (r : run) : run :=
  match r with Go p => Go (f p) | Accepted p => Accepted (f p) | Aborted p => Aborted (f p) | Raised x => Raised x end.

(** A part of a turn that does not read: it does not depend on the input, and the lookahead is kept
    or shifted. *)
Record acts (f : parser -> run) : Prop := {
  acts_local ts e p : f (with_input ts e p) = map_run (with_input ts e) (f p);
  acts_keeps p :
    match f p with
    | Go p' => yyempty p' = true \/ (yyempty p' = yyempty p /\ yyla p' = yyla p)
    | Aborted p' => yyla p' = yyla p
    | _ => True
    end
}.

Lemma acts_input f p : acts f ->
  match f p with
  | Go p' | Aborted p' => input p' = input p /\ input_end p' = input_end p
  | _ => True
  end.
Proof.
  intros [Hl _]. specialize (Hl (input p) (input_end p) p).
  replace (with_input (input p) (input_end p) p) with p in Hl by (by destruct p).
  destruct (f p) as [p'|p'|p'|x]; try done; injection Hl as Hl; by rewrite Hl.
Qed.

Ltac cases_of :=
  repeat match goal with
    | |- context [mbind _ ?o] => destruct o; cbn [mbind option_bind]; try done
    | |- context [if ?b then _ else _] => destruct b; try done
    | |- context [let '(_, _) := ?x in _] => destruct x
    end; cbn [defined default from_option id]; try done.

Lemma reduce_acts yyn : acts (yyreduce yyn).
Proof.
  split.
  - intros ts e p. unfold yyreduce. cbn [yystack with_input query].
    cases_of.
  - intros p. unfold yyreduce. cases_of. by right.
Qed.

Lemma errlab1_acts : acts yyerrlab1.
Proof.
  split.
  - intros ts e p. unfold yyerrlab1. cbn [yystack with_input yyerror_begin yyla]. cases_of.
    by destruct o as [[[? ?] ?]|].
  - intros p. unfold yyerrlab1. cases_of. destruct o as [[[? ?] ?]|]; [by right|done].
Qed.

Lemma errlab_acts : acts yyerrlab.
Proof.
  split.
  - intros ts e p. unfold yyerrlab. cbn [yystack with_input yyerrstatus_ yyempty yyla reports yynerrs_].
    cases_of; match goal with |- _ = map_run _ (yyerrlab1 ?q) => exact (acts_local _ errlab1_acts ts e q) end.
  - intros p. unfold yyerrlab. cases_of;
      match goal with |- context [yyerrlab1 ?q] => pose proof (acts_keeps _ errlab1_acts q) as Hk; destruct (yyerrlab1 q) end;
      try done; destruct Hk as [?|[? ?]]; auto.
Qed.

Lemma default_acts s : acts (yydefault s).
Proof.
  split.
  - intros ts e p. unfold yydefault. cases_of.
    + apply (acts_local _ errlab_acts).
    + apply (acts_local _ (reduce_acts _)).
  - intros p. unfold yydefault. cases_of.
    + apply (acts_keeps _ errlab_acts).
    + apply (acts_keeps _ (reduce_acts _)).
Qed.

Lemma decide_acts s yyn : acts (yydecide s yyn).
Proof.
  split.
  - intros ts e p. unfold yydecide. cbn [yyla with_input]. destruct (_ || _); [apply (acts_local _ (default_acts s))|].
    cases_of.
    + apply (acts_local _ (default_acts s)).
    + apply (acts_local _ errlab_acts).
    + apply (acts_local _ (reduce_acts _)).
  - intros p. unfold yydecide. destruct (_ || _); [apply (acts_keeps _ (default_acts s))|].
    cases_of.
    + apply (acts_keeps _ (default_acts s)).
    + apply (acts_keeps _ errlab_acts).
    + apply (acts_keeps _ (reduce_acts _)).
    + by left.
Qed.

(** Parsers that the automaton of [Lalr] describes. *)
Definition described (p : parser) : Prop := exists c, refines p c /\ valid (yystack_ c).

Lemma described_top p s :
  described p -> stack.get (yystack p) 0 = Some s -> valid_state (state s).
Proof.
  intros (c & Hr & Hv) Hs. pose proof (refines_get p c Hr 0) as Hg. rewrite Hs in Hg.
  exact (proj1 (Forall_lookup _ _) Hv 0%nat _ Hg).
Qed.
Lemma described_step p p' : described p -> yynewstate p = Go p' -> described p'.
Proof.
  intros (c & Hr & Hv) Hs. pose proof (step_same p c Hr Hv) as Hsame. rewrite Hs in Hsame.
  destruct (step c) as [c'|q|q|x]; try done. by exists c'.
Qed.

(** A turn reads a token, or it does not depend on the input. *)
Definition asks_at (st : stack.t symbol) (s yyn : Z) : Prop :=
  (exists top, stack.get st 0 = Some top /\ state top = s)
  /\ s <> yyfinal_ /\ at_ yypact_ s = Some yyn /\ yyn <> yypact_ninf_.
Definition reads_not (p : parser) (f : parser -> run) : Prop :=
  acts f /\ (forall ts e, yynewstate (with_input ts e p) = f (with_input ts e p))
  /\ forall p', f p = Aborted p' -> yyempty p = false.

Lemma asks_turn p s yyn :
  asks_at (yystack p) s yyn ->
  yynewstate p = match read_token p with Ok q => yydecide s yyn q | Throw x => Raised x end.
Proof.
  intros ((top & Htop & <-) & Hf & Hp & Hn). unfold yynewstate. rewrite Htop. cbn [mbind option_bind].
  apply Z.eqb_neq in Hf, Hn. rewrite Hf, Hp. cbn [mbind option_bind]. by rewrite Hn.
Qed.

Lemma turn p :
  described p -> (exists f, reads_not p f) \/ yyempty p = true /\ exists s yyn, asks_at (yystack p) s yyn.
Proof.
  intros Hd. unfold asks_at, reads_not, yynewstate. cbn [yystack with_input].
  destruct (stack.get (yystack p) 0) as [top|] eqn:Htop; cbn [mbind option_bind].
  2: { left. by exists (fun _ => Raised undefined_behaviour). }
  pose proof (described_top p top Hd Htop) as Hs.
  destruct (state top =? yyfinal_) eqn:Hf; [left; by exists (fun p => Accepted (yyreturn p))|].
  apply Z.eqb_neq in Hf.
  destruct (at_ yypact_ (state top)) as [yyn|] eqn:Hp; cbn [mbind option_bind defined default from_option id].
  2: { left. by exists (fun _ => Raised undefined_behaviour). }
  destruct (yyn =? yypact_ninf_) eqn:Hn.
  - left. exists (yydefault (state top)). split; [apply default_acts|]. split; [done|]. intros p'.
    apply Z.eqb_eq in Hn as ->. destruct (default_reduces _ Hs Hf Hp) as (r & Hr & Hr0).
    unfold yydefault. rewrite Hr. cbn [mbind option_bind defined default from_option id].
    apply Z.eqb_neq in Hr0 as ->. unfold yyreduce. cases_of.
  - apply Z.eqb_neq in Hn. destruct (yyempty p) eqn:He; [right; by eauto 10|].
    left. exists (yydecide (state top) yyn). split; [apply decide_acts|]. split; [|done].
    intros ts e. unfold read_token. cbn [yyempty with_input]. by rewrite He.
Qed.

Lemma reads_not_eq p f : reads_not p f -> yynewstate p = f p.
Proof. intros (_ & Heq & _). specialize (Heq (input p) (input_end p)). by destruct p. Qed.
Lemma read_described p q :
  described p -> read_token p = Ok q -> described q /\ yyempty q = false /\ yystack q = yystack p.
Proof.
  intros (c & Hr & Hv) Hq. pose proof (read_refines p c Hr) as H. rewrite Hq in H.
  destruct (lookahead c); [|done]. destruct H as (? & ? & ? & ?). split_and!; [|done..]. by eexists.
Qed.

(** Reading first and going on from there is the same turn. *)
Lemma read_first p q s yyn :
  asks_at (yystack p) s yyn -> yystack q = yystack p -> yyempty q = false -> read_token p = Ok q ->
  yynewstate p = yynewstate q.
Proof.
  intros Ha Hst He Hq. rewrite (asks_turn p s yyn Ha), (asks_turn q s yyn) by (by rewrite Hst).
  rewrite Hq. unfold read_token. by rewrite He.
Qed.

(** An action that does not shift keeps the lookahead. *)
Lemma default_keeps s p p' : yyerrstatus_ p = 0 -> yydefault s p = Go p' -> yyempty p' = yyempty p.
Proof.
  intros Hst. unfold yydefault. cases_of.
  - unfold yyerrlab. rewrite Hst. cbn [Z.eqb]. change (0 =? 3) with false. cases_of; unfold yyerrlab1; cases_of;
      (destruct o as [[[? ?] ?]|]; [|done]; by intros [= <-]).
  - unfold yyreduce. cases_of. by intros [= <-].
Qed.

(** Behind the end of the input is only the final state. *)
Lemma eof_shift s yyn act :
  valid_state s -> at_ yypact_ s = Some yyn -> yyn <> yypact_ninf_ -> at_ yycheck_ yyn = Some 0 ->
  at_ yytable_ yyn = Some act -> act = yyfinal_.
Proof.
  intros Hs Hp Hn Hc Ht. assert (forallb (fun s => match at_ yypact_ s with
    | Some yyn => (yyn =? yypact_ninf_) || bool_decide (at_ yycheck_ yyn <> Some 0 \/ at_ yytable_ yyn = Some yyfinal_)
    | None => false end) (seqZ 0 35) = true) as Hall by (vm_compute; reflexivity).
  rewrite forallb_forall in Hall. specialize (Hall s (proj1 (list_elem_of_In _ _) Hs)). rewrite Hp in Hall.
  apply Z.eqb_neq in Hn. rewrite Hn in Hall. cbn [orb] in Hall. apply bool_decide_eq_true in Hall as [?|?]; congruence.
Qed.

Lemma eof_accepts p p' :
  described p -> yyempty p = false -> la_type (yyla p) = 0 -> yynewstate p = Go p' -> yyempty p' = true ->
  yynewstate p' = Accepted (yyreturn p').
Proof.
  intros Hd He Hla Hgo He'. assert (yyerrstatus_ p = 0) as Hst by (destruct Hd as (c & [] & _); done).
  assert (forall s, yydefault s p <> Go p') as Hdef.
  { intros s Hs. apply default_keeps in Hs; [congruence|done]. }
  unfold yynewstate in Hgo. destruct (stack.get (yystack p) 0) as [top|] eqn:Htop; [|done].
  pose proof (described_top p top Hd Htop) as Hs. cbn [mbind option_bind] in Hgo.
  destruct (state top =? yyfinal_); [done|]. destruct (at_ yypact_ (state top)) as [yyn|] eqn:Hp; [|done].
  cbn [mbind option_bind defined default from_option id] in Hgo.
  destruct (yyn =? yypact_ninf_) eqn:Hn; [by apply Hdef in Hgo|]. apply Z.eqb_neq in Hn.
  unfold read_token in Hgo. rewrite He in Hgo. unfold yydecide in Hgo. rewrite Hla, Z.add_0_r in Hgo.
  destruct (_ || _); [by apply Hdef in Hgo|]. destruct (at_ yycheck_ yyn) as [check|] eqn:Hc; [|done].
  destruct (at_ yytable_ yyn) as [act|] eqn:Ha; [|done]. cbn [mbind option_bind defined default from_option id] in Hgo.
  destruct (check =? 0) eqn:H0; cbn [negb] in Hgo; [|by apply Hdef in Hgo]. apply Z.eqb_eq in H0 as ->.
  rewrite (eof_shift _ _ _ Hs Hp Hn Hc Ha) in Hgo. injection Hgo as <-.
  unfold yynewstate. rewrite stack_get. cbn [yystack shift]. by rewrite stack_push.
Qed.

Lemma run_eof f : forall p p', described p -> yyempty p = false -> la_type (yyla p) = 0 -> run_parser f p = Some (Aborted p') ->
  yyla p' = yyla p /\ input p' = input p.
Proof.
  induction f as [|f IH]; intros p p' Hd He Hla Hrun; [done|]. cbn [run_parser] in Hrun.
  destruct (turn p Hd) as [[g Hg]|[Hem _]]; [|congruence].
  rewrite (reads_not_eq p g Hg) in Hrun. destruct Hg as (Hacts & Heq & Hab).
  pose proof (acts_keeps g Hacts p) as Hk. pose proof (acts_input g p Hacts) as Hi.
  pose proof (reads_not_eq p g (conj Hacts (conj Heq Hab))) as Hstep.
  destruct (g p) as [p1|p1|p1|x] eqn:Hgp; [|done| |done].
  2: { injection Hrun as <-. by destruct Hi. }
  destruct (yyempty p1) eqn:He1.
  - pose proof (eof_accepts p p1 Hd He Hla Hstep He1) as Hacc. destruct f as [|f]; [done|]. cbn [run_parser] in Hrun.
    by rewrite Hacc in Hrun.
  - destruct Hk as [?|[_ Hk]]; [done|]. destruct Hi as [Hi _].
    destruct (IH p1 p') as [H1 H2]; [by eapply described_step|done|by rewrite Hk|done|]. by rewrite H1, H2.
Qed.

(** A run that gives up has read the tokens [a], the last of them the one it was at, and would have done
    the same whatever follows; or it has read the end of the input. *)
Definition gives_up (f : nat) (p p' : parser) : Prop :=
  (exists a r, input p = a ++ r /\ input p' = r
   /\ (forall r' e', run_parser f (with_input (a ++ r') e' p) = Some (Aborted (with_input r' e' p')))
   /\ match list.last a with
      | Some (_, l) => la_location (yyla p') = l
      | None => yyempty p = false /\ yyla p' = yyla p
      end)
  \/ (input p' = [] /\ snd (input_end p) = None /\ la_location (yyla p') = fst (input_end p)).

Lemma gives_up_acts f p p' g :
  (forall p1, described p1 -> run_parser f p1 = Some (Aborted p') -> gives_up f p1 p') ->
  described p -> reads_not p g -> run_parser (S f) p = Some (Aborted p') -> gives_up (S f) p p'.
Proof.
  intros IH Hd Hg Hrun. pose proof (reads_not_eq p g Hg) as Hstep. destruct Hg as (Hacts & Heq & Hab).
  cbn [run_parser] in Hrun. rewrite Hstep in Hrun.
  pose proof (acts_keeps g Hacts p) as Hk. pose proof (acts_input g p Hacts) as Hi.
  assert (forall ts e, yynewstate (with_input ts e p) = map_run (with_input ts e) (g p)) as Hloc.
  { intros ts e. rewrite Heq. by apply acts_local. }
  destruct (g p) as [p1|p1|p1|x] eqn:Hgp; [|done| |done].
  - destruct Hi as [Hi He]. destruct (IH p1) as [(a & r & Ha & Hr & Hall & Hlast)|Hright]; [by eapply described_step|done| |].
    + left. exists a, r. split; [congruence|]. split; [done|]. split.
      * intros r' e'. cbn [run_parser]. rewrite Hloc. apply Hall.
      * destruct (list.last a) as [[t l]|]; [done|]. destruct Hlast as [He1 Hla].
        destruct Hk as [?|[? ?]]; [congruence|]. split; congruence.
    + right. by rewrite <- He.
  - injection Hrun as <-. destruct Hi as [Hi He]. left. exists [], (input p). split; [done|]. split; [done|]. split.
    + intros r' e'. cbn [run_parser app]. by rewrite Hloc.
    + split; [by eapply Hab|done].
Qed.

Lemma run_gives_up f : forall p p', described p -> run_parser f p = Some (Aborted p') -> gives_up f p p'.
Proof.
  induction f as [|f IH]; intros p p' Hd Hrun; [done|].
  assert (forall p1, described p1 -> run_parser f p1 = Some (Aborted p') -> gives_up f p1 p') as IH' by eauto.
  destruct (turn p Hd) as [[g Hg]|[Hem (s & yyn & Hask)]]; [by eapply gives_up_acts|].
  destruct (read_token p) as [q|x] eqn:Hq.
  2: { cbn [run_parser] in Hrun. rewrite (asks_turn p s yyn Hask), Hq in Hrun. done. }
  destruct (read_described p q Hd Hq) as (Hdq & Heq & Hst).
  assert (run_parser (S f) p = run_parser (S f) q) as Hpq.
  { cbn [run_parser]. by rewrite (read_first p q s yyn Hask Hst Heq Hq). }
  rewrite Hpq in Hrun. unfold read_token in Hq. rewrite Hem in Hq. destruct (input p) as [|[t l] rest] eqn:Hin.
  - destruct (input_end p) as [l [x|]] eqn:Hend; [done|]. injection Hq as <-. right.
    destruct (run_eof (S f) _ p' Hdq eq_refl eq_refl Hrun) as [-> ->]. by rewrite Hend.
  - assert (forall r' e', read_token (with_input ((t, l) :: r') e' p) = Ok (with_input r' e' q)) as Hread.
    { intros r' e'. unfold read_token. cbn [yyempty with_input input]. rewrite Hem. by injection Hq as <-. }
    assert (input q = rest /\ la_location (yyla q) = l /\ input_end q = input_end p) as (Hiq & Hlq & Hendq) by (by injection Hq as <-).
    destruct (turn q Hdq) as [[g Hg]|[? _]]; [|congruence].
    destruct (gives_up_acts f q p' g IH' Hdq Hg Hrun) as [(a & r & Ha & Hr & Hall & Hlast)|Hright].
    + left. exists ((t, l) :: a), r. split; [rewrite <- Hiq in *; cbn; congruence|]. split; [done|]. split.
      * intros r' e'. rewrite <- Hall. cbn [run_parser app].
        by rewrite (read_first (with_input ((t, l) :: a ++ r') e' p) (with_input (a ++ r') e' q) s yyn) by (done || apply Hread).
      * rewrite list.last_cons. destruct (list.last a) as [[t' l']|]; [done|]. destruct Hlast as [_ ->]. done.
    + right. by rewrite <- Hendq.
Qed.

Lemma run_more f k : forall p r, run_parser f p = Some r -> run_parser (f + k) p = Some r.
Proof.
  induction f as [|f IH]; intros p r Hrun; [done|]. cbn [run_parser Nat.add] in *.
  destruct (yynewstate p); try done. by apply IH.
Qed.
Lemma run_unique f f' p r r' : run_parser f p = Some r -> run_parser f' p = Some r' -> r = r'.
Proof.
  intros H H'. apply (run_more f f') in H. apply (run_more f' f) in H'. rewrite Nat.add_comm in H'. congruence.
Qed.



(** ** The driver *)

(** [driver::parse_stream]: the scanner over the stream and the parser; at most a call of [yylex] per
    character and one for the end. *)
Definition parse_stream (junk : ascii) (size rd : nat) (streamname : file_name) (input : list ascii) : option run :=
  '(ts, e) ← scan_stream junk size rd (S (length input)) (2 * length input + 4)
               (location.start (initial streamname)) input;
  parse_located (initial streamname) ts e.

(** What the query context gets of it. *)
Definition query_result (r : run) : result (option query_node) :=
  match r with
  | Accepted p => Ok (query p)
  | Aborted p => Ok None
  | Raised x => Throw x
  | Go _ => Throw undefined_behaviour
  end.

(** C12. A query that is read through the buffer of the scanner and parsed with locations and messages
    comes to an end, with the same result as the tables of the scanner and of the parser give on the whole
    text. *)
Theorem parse_stream_correct junk size rd streamname input :
  (2 <= size)%nat -> (0 < rd)%nat -> Z.of_nat (length input) + 1 < 2 ^ 30 ->
  exists r, parse_stream junk size rd streamname input = Some r /\ (forall p, r <> Go p)
  /\ parse_string input = query_result r.
Proof.
  intros Hsize Hrd Hmax.
  destruct (scan_stream_tokens junk size rd (S (length input)) (2 * length input + 4)
    (location.start (initial streamname)) input) as (ts & e & Hscan & Hflex); [done|done|done|lia|lia|].
  unfold parse_stream. rewrite Hscan. cbn [mbind option_bind].
  destruct (parse_located_same (initial streamname) ts e) as (r & o & Hr & Ho & Hsame & Hcase).
  exists r. split; [done|]. split.
  - intros p ->. destruct o; try done. destruct Hcase as [Hc|(x & _ & ?)]; [|done].
    destruct (parse (ts.*1)); [done|by destruct Hc].
  - unfold parse_string. rewrite Hflex. cbn [mbind option_bind]. rewrite Ho.
    destruct r, o; try done; [by destruct Hsame as [<- _]|by rewrite Hsame].
Qed.

(** What the driver prints.  The message does not name [nil], which could stand here too: the
    state that knows about it has been left by a default reduction. *)
Example unexpected_true :
  let f := MkFile 0 "query" in
  match parse_stream "x" 16 8 f (String.list_ascii_of_string "state = true") with
  | Some (Aborted p) => (fun r => driver_error (fun _ => ""%string) r.1 r.2) <$> reports p
  | _ => []
  end = [("query:1.9-12: syntax error, unexpected TRUE, expecting integer or double or string"
          +:+ String "010" "")%string].
Proof. vm_compute. reflexivity. Qed.

Lemma parse_stream_correct_witness :
  let input := String.list_ascii_of_string "state = nil and (host =~ 1" in
  exists r, parse_stream "x" 4 3 (MkFile 0 "query") input = Some r /\ (forall p, r <> Go p)
  /\ parse_string input = query_result r.
Proof. intros input. apply parse_stream_correct; [lia|lia|by vm_compute]. Defined.
