(* ===== verification/Instrumentation.v ===== *)
(** * Instrumentation: reservoirs, rates, gauges, and percentiles

    [src/instrumentation/reservoir.cpp], [rate.cpp], [gauge.cpp] and
    [instrumentation.cpp], and [percentiles] of [src/streams/stream_functions_lock.cpp].
    The random engine, the clock in nanoseconds and the memory usage are parameters. *)

From S2P Require Import Prelude Ieee Events Infra.

Local Open Scope cav_scope.
Local Open Scope Z_scope.

(** ** [reservoir] *)

Module reservoir.
Section reservoir.
(** The [k]-th number drawn, from [0] to the bound. *)
Variable draw : nat -> Z -> Z.

Definition k_default_size : nat := 1000.

(** [draws_] counts the numbers drawn from the engine. *)
Record t : Type := Mk {
  reservoir_size_ : nat;
  samples_ : list double;
  n_ : Z;
  draws_ : nat
}.

Definition new : t := Mk k_default_size (replicate k_default_size d_zero) 0 0.
Definition new_sized (size : nat) : t := Mk size (replicate size d_zero) 0 0.

(** [samples_[i] = sample], undefined out of range. *)
Definition set_sample (i : nat) (sample : double) (r : t) : result t :=
  if decide (i < length (samples_ r))%nat
  then Ok (Mk (reservoir_size_ r) (<[i := sample]> (samples_ r)) (n_ r) (draws_ r))
  else Throw undefined_behaviour.

Definition add_n (r : t) : t := Mk (reservoir_size_ r) (samples_ r) ((n_ r + 1) mod two64) (draws_ r).

(** The bound of the distribution is an [int]. *)
Definition add_sample (sample : double) (r : t) : result t :=
  let idx := n_ r in
  let r := add_n r in
  if idx <? Z.of_nat (reservoir_size_ r) then set_sample (Z.to_nat idx) sample r
  else if 2 ^ 31 <=? n_ r then Throw undefined_behaviour
  else
    let index := draw (draws_ r) (n_ r) in
    let r := Mk (reservoir_size_ r) (samples_ r) (n_ r) (S (draws_ r)) in
    res_map add_n
      (if index <? Z.of_nat (reservoir_size_ r) then set_sample (Z.to_nat index) sample r
       else Ok r).

(** A snapshot has as many samples as there is room for, whatever was added. *)
Definition snapshot (r : t) : t * list double :=
  (Mk (reservoir_size_ r) (replicate k_default_size d_zero) 0 (draws_ r), samples_ r).
End reservoir.
End reservoir.

(** ** [rate] and [gauge] *)

Module rate.
(** A counter of 32 bits and the time of the last report, in nanoseconds. *)
Record t : Type := Mk { counter_ : Z; start_ : Z }.

Definition new (now : Z) : t := Mk 0 now.
Definition add (ticks : Z) (r : t) : t := Mk (wrap32 (counter_ r + ticks)) (start_ r).
Definition snapshot (now : Z) (r : t) : t * double :=
  let dt := Z.quot (now - start_ r) 1000000 in
  (Mk 0 now, d_mul (d_div (d_of_Z (counter_ r)) (d_of_Z dt)) (d_of_Z 1000)).
Definition reset (now : Z) (r : t) : t := Mk 0 now.
End rate.

Module gauge.
Definition t : Type := Z.
Definition new : t := 0.
Definition update (ticks : Z) (_ : t) : t := ticks.
Definition incr (ticks : Z) (g : t) : t := wrap32 (g + ticks).
Definition decr (ticks : Z) (g : t) : t := wrap32 (g - ticks).
Definition snapshot (g : t) : Z := g.
End gauge.

(** ** Percentiles of a reservoir *)

(** [std::stable_sort] with [<]: an element goes before the first one that is not smaller. *)
Fixpoint insert_sorted (x : double) (l : list double) : list double :=
  match l with
  | [] => [x]
  | y :: l' => if sf_lt y x then y :: insert_sorted x l' else x :: l
  end.
Definition stable_sort (l : list double) : list double := foldr insert_sorted [] l.

Section percentiles.

Definition percentile_index (n : nat) (p : double) : Z :=
  if sf_eq p (d_of_Z 1) then Z.of_nat n - 1
  else i64_of_sf (d_mul (d_of_Z (Z.of_nat n)) p).

(** [samples[index]], undefined out of range. *)
Definition percentile_event (samples : list double) (event_base : Event) (p : double)
  : result Event :=
  let index := percentile_index (length samples) p in
  if index <? 0 then Throw undefined_behaviour
  else match samples !! Z.to_nat index with
       | None => Throw undefined_behaviour
       | Some m =>
           Ok (Event.set_metric_d m
                 (Event.set_service (Event.service event_base +:+ " " +:+ d_to_string p) event_base))
       end.

Fixpoint percentile_events (samples : list double) (event_base : Event) (ps : list double)
  : result (list Event) :=
  match ps with
  | [] => Ok []
  | p :: ps' =>
      match percentile_event samples event_base p with
      | Throw x => Throw x
      | Ok e => res_map (cons e) (percentile_events samples event_base ps')
      end
  end.

Definition reservoir_to_events (r : reservoir.t) (percentiles : list double) (event_base : Event)
  : reservoir.t * result (list Event) :=
  let '(r, samples) := reservoir.snapshot r in
  match samples with
  | [] => (r, Ok [])
  | _ => (r, percentile_events (stable_sort samples) event_base percentiles)
  end.
End percentiles.

(** ** The stream [percentiles] *)

Section percentiles_stream.
Variable draw : nat -> Z -> Z.

Record percentiles_data_t : Type := MkPercentiles {
  reserv : reservoir.t;
  event : Event;
  initialized : bool
}.

Definition percentiles_state (f : fwd) : Type := percentiles_data_t * f_state f.

Definition percentiles_init (interval : Z) (f : fwd) (now : clock)
  : percentiles_state f * list effect :=
  let '(s, w) := f_new f now in
  ((MkPercentiles reservoir.new Event.empty false, s),
   (at_hop HFwd <$> w) ++ [EAddPeriodicTask [] interval]).

(** [update_percentiles_]. *)
Definition update_percentiles (e : Event) (d : percentiles_data_t) : result percentiles_data_t :=
  if negb (Event.has_metric e) then Ok d
  else
    res_map (fun r => MkPercentiles r (if initialized d then event d else e) true)
      (reservoir.add_sample draw (Event.metric e) (reserv d)).

Definition percentiles_event (f : fwd) (e : Event) : M (percentiles_state f) next_events_t :=
  on_fst (d <- getm ;;
          match update_percentiles e d with
          | Ok d => putm d
          | Throw x => throw x
          end) ;;; ret [].

(** [push_percentiles_]. *)
Definition percentiles_timer (ps : list double) (f : fwd) (p : list hop)
  : M (percentiles_state f) unit :=
  match p with
  | [] =>
      r <- on_fst (d <- getm ;;
             if negb (initialized d) then ret None
             else
               let '(r, es) := reservoir_to_events (reserv d) ps (event d) in
               putm (MkPercentiles r (event d) true) ;;;
               match es with Ok es => ret (Some es) | Throw x => throw x end) ;;
      match r with
      | None => ret ()
      | Some es => on_snd (below HFwd (f_send f es))
      end
  | HFwd :: p' => on_snd (below HFwd (f_timer f p'))
  | _ => ret ()
  end.

Definition percentiles_lock_ (interval : Z) (ps : list double) (f : fwd) : machine :=
  Machine (percentiles_state f) (percentiles_init interval f) (percentiles_event f)
    (percentiles_timer ps f).
Definition percentiles_lock (interval : Z) (ps : list double) : streams_t :=
  create_stream_init (percentiles_lock_ interval ps).
Definition percentiles (interval : Z) (ps : list double) : streams_t :=
  percentiles_lock interval ps.
End percentiles_stream.

(** ** [instrumentation] *)

Module instrumentation.
Section instrumentation.
Variable draw : nat -> Z -> Z.
Variable k_fqdn : string.

Definition k_max : nat := 1000.
Definition k_instrumentation_tag : string := "cavalieri::internal".
Definition k_default_ttl : Z := 60.

Record rate_conf_t : Type := MkRate {
  r_service : string; r_description : string; r_rate : rate.t
}.
Record percentiles_conf_t : Type := MkPerc {
  p_service : string; p_description : string; p_percentiles : list double;
  p_reservoir : reservoir.t
}.
Record gauge_conf_t : Type := MkGauge {
  g_service : string; g_description : string; g_gauge : gauge.t
}.

(** The entries in use; the vectors have room for [k_max]. *)
Record t : Type := Mk {
  rates_ : list rate_conf_t;
  latencies_ : list percentiles_conf_t;
  gauges_ : list gauge_conf_t
}.

Definition new : t := Mk [] [] [].

(** The identifier that the update function gets; [None]: the [CHECK] fails. *)
Definition add_rate (now : Z) (service description : string) (i : t) : option (nat * t) :=
  if decide (length (rates_ i) < k_max)%nat
  then Some (length (rates_ i),
             Mk (rates_ i ++ [MkRate service description (rate.new now)]) (latencies_ i) (gauges_ i))
  else None.

(** The number of rates is checked instead of that of latencies; beyond the end of the
    vector nothing is defined. *)
Definition add_latency (service description : string) (percentiles : list double) (i : t)
  : option (result (nat * t)) :=
  if decide (length (rates_ i) < k_max)%nat then
    Some (if decide (length (latencies_ i) < k_max)%nat
          then Ok (length (latencies_ i),
                   Mk (rates_ i)
                     (latencies_ i ++ [MkPerc service description percentiles reservoir.new])
                     (gauges_ i))
          else Throw undefined_behaviour)
  else None.

Definition add_gauge (service description : string) (i : t) : option (nat * t) :=
  if decide (length (gauges_ i) < k_max)%nat
  then Some (length (gauges_ i),
             Mk (rates_ i) (latencies_ i) (gauges_ i ++ [MkGauge service description gauge.new]))
  else None.

Definition update_rate (id : nat) (ticks : Z) (i : t) : t :=
  Mk (alter (fun r => MkRate (r_service r) (r_description r) (rate.add ticks (r_rate r)))
        id (rates_ i)) (latencies_ i) (gauges_ i).
Definition update_latency (id : nat) (value : double) (i : t) : result t :=
  match latencies_ i !! id with
  | None => Throw undefined_behaviour
  | Some p =>
      res_map (fun r => Mk (rates_ i)
                 (<[id := MkPerc (p_service p) (p_description p) (p_percentiles p) r]> (latencies_ i))
                 (gauges_ i))
        (reservoir.add_sample draw value (p_reservoir p))
  end.
Definition alter_gauge (f : gauge.t -> gauge.t) (id : nat) (i : t) : t :=
  Mk (rates_ i) (latencies_ i)
    (alter (fun g => MkGauge (g_service g) (g_description g) (f (g_gauge g))) id (gauges_ i)).
Definition update_gauge (id : nat) (ticks : Z) (i : t) : t := alter_gauge (gauge.update ticks) id i.
Definition incr_gauge (id : nat) (ticks : Z) (i : t) : t := alter_gauge (gauge.incr ticks) id i.
Definition decr_gauge (id : nat) (ticks : Z) (i : t) : t := alter_gauge (gauge.decr ticks) id i.

(** [event.set_service(...); event.set_description(...); event.set_metric_d(...)]. *)
Definition named (service description : string) (e : Event) : Event :=
  Event.set_description description (Event.set_service service e).

Definition set_rates (now : Z) (e : Event) (rs : list rate_conf_t)
  : list rate_conf_t * list Event :=
  ((fun r => MkRate (r_service r) (r_description r) (rate.snapshot now (r_rate r)).1) <$> rs,
   (fun r => Event.set_metric_d (rate.snapshot now (r_rate r)).2
               (named (r_service r) (r_description r) e)) <$> rs).

Fixpoint set_latencies (e : Event) (ps : list percentiles_conf_t)
  : result (list percentiles_conf_t * list Event) :=
  match ps with
  | [] => Ok ([], [])
  | p :: ps' =>
      let '(r, es) := reservoir_to_events (p_reservoir p) (p_percentiles p)
                        (named (p_service p) (p_description p) e) in
      match es with
      | Throw x => Throw x
      | Ok es =>
          res_map (fun '(ps', es') =>
                     (MkPerc (p_service p) (p_description p) (p_percentiles p) r :: ps', es ++ es'))
            (set_latencies e ps')
      end
  end.

Definition set_gauges (e : Event) (gs : list gauge_conf_t) : list Event :=
  (fun g => Event.set_metric_d (d_of_Z (gauge.snapshot (g_gauge g)))
              (named (g_service g) (g_description g) e)) <$> gs.

(** The same event serves for both, so the second has what the first has set. *)
Definition set_mem_meausres (vm rss : double) (e : Event) : list Event :=
  let e1 := Event.set_metric_d (d_div vm (d_of_Z 1024))
              (named "vm memory usage" "vm memory in MB" e) in
  [e1; Event.set_metric_d (d_div rss (d_of_Z 1024))
         (named "rss memory usage" "rss memory in MB" e1)].

Definition base_event : Event :=
  Event.set_ttl (f_of_Z k_default_ttl)
    (Event.set_state "ok" (Event.set_host k_fqdn
       (Event.add_tag k_instrumentation_tag Event.empty))).

Definition snapshot (now : Z) (vm rss : double) (i : t) : result (t * list Event) :=
  let '(rates, es1) := set_rates now base_event (rates_ i) in
  match set_latencies base_event (latencies_ i) with
  | Throw x => Throw x
  | Ok (latencies, es2) =>
      Ok (Mk rates latencies (gauges_ i),
          es1 ++ es2 ++ set_gauges base_event (gauges_ i)
          ++ set_mem_meausres vm rss base_event)
  end.
End instrumentation.
End instrumentation.

(** ** Sorting *)

Lemma insert_sorted_perm x l : insert_sorted x l ≡ₚ x :: l.
Proof.
  induction l as [|y l IH]; simpl; [done|]. destruct (sf_lt y x); [|done].
  rewrite IH. apply Permutation_swap.
Qed.

Lemma stable_sort_perm l : stable_sort l ≡ₚ l.
Proof. induction l as [|x l IH]; simpl; [done|]. by rewrite insert_sorted_perm, IH. Qed.

Abbreviation no_nan := (Forall (fun x => is_nan x = false)).
Abbreviation ascending := (StronglySorted (fun x y => sf_le x y = true)).

(** Of two numbers one is not above the other. *)
Lemma sf_not_lt x y : is_nan x = false -> is_nan y = false -> sf_lt y x = false -> sf_le x y = true.
Proof.
  intros Hx Hy Hlt. destruct (sf_le_total x y Hx Hy) as [?|?]; [done|congruence].
Qed.

Lemma insert_sorted_ascending x l :
  is_nan x = false -> no_nan l -> ascending l -> ascending (insert_sorted x l).
Proof.
  intros Hx. induction l as [|y l IH]; intros Hl Hs; simpl; [by repeat constructor|].
  apply Forall_cons_iff in Hl as [Hy Hl]. inv Hs as [|? ? Hs' Hall].
  destruct (sf_lt y x) eqn:Hlt.
  - constructor; [by apply IH|]. rewrite insert_sorted_perm. constructor; [by apply sf_lt_le|done].
  - pose proof (sf_not_lt x y Hx Hy Hlt) as Hle. constructor; [by constructor|].
    constructor; [done|]. revert Hall. apply Forall_impl. intros z Hz. by eapply sf_le_trans.
Qed.

Lemma stable_sort_ascending l : no_nan l -> ascending (stable_sort l).
Proof.
  induction l as [|x l IH]; intros Hl; simpl; [constructor|].
  apply Forall_cons_iff in Hl as [Hx Hl]. apply insert_sorted_ascending; [done| |by apply IH].
  by rewrite stable_sort_perm.
Qed.

(** How many numbers are below [m], and how many are not above it. *)
Definition below_count (m : double) (l : list double) : nat :=
  length (filter (fun x => sf_lt x m = true) l).
Definition upto_count (m : double) (l : list double) : nat :=
  length (filter (fun x => sf_le x m = true) l).

#[export] Instance below_count_perm m : Proper (Permutation ==> eq) (below_count m).
Proof. intros l l' Hl. unfold below_count. by rewrite Hl. Qed.
#[export] Instance upto_count_perm m : Proper (Permutation ==> eq) (upto_count m).
Proof. intros l l' Hl. unfold upto_count. by rewrite Hl. Qed.

(** The place of a number in a sorted list is its rank. *)
Lemma ascending_rank l i m :
  ascending l -> no_nan l -> l !! i = Some m ->
  (below_count m l <= i < upto_count m l)%nat.
Proof.
  intros Hs Hn. revert i. induction Hs as [|x l Hs IH Hall]; intros i Hi; [done|].
  apply Forall_cons_iff in Hn as [Hx Hn]. unfold below_count, upto_count in *.
  destruct i as [|i]; simpl in Hi.
  - injection Hi as ->. pose proof (sf_le_refl m Hx) as Hle.
    assert (sf_lt m m <> true) as Hlt by (intros Hlt; apply sf_lt_not_le in Hlt; congruence).
    rewrite (filter_cons_True (fun x => sf_le x m = true) m l Hle),
      (filter_cons_False (fun x => sf_lt x m = true) m l Hlt).
    rewrite filter_none; [simpl; lia|]. rewrite list.Forall_forall in Hall.
    apply list.Forall_forall. intros y Hy Hym. apply sf_lt_not_le in Hym.
    specialize (Hall y Hy). congruence.
  - destruct (IH Hn i Hi) as [H1 H2].
    assert (sf_le x m = true) as Hxm.
    { rewrite list.Forall_forall in Hall. apply Hall. by eapply list_elem_of_lookup_2. }
    rewrite (filter_cons_True (fun x => sf_le x m = true) x l Hxm), filter_cons.
    destruct (decide (sf_lt x m = true)); simpl; lia.
Qed.

(** ** What a reservoir reports *)

(** The samples of a reservoir in its first interval: what was added, then zeros. *)
Definition padded (xs : list double) : list double :=
  xs ++ replicate (reservoir.k_default_size - length xs) d_zero.

Definition filled (xs : list double) (r : reservoir.t) : Prop :=
  reservoir.reservoir_size_ r = reservoir.k_default_size
  /\ reservoir.samples_ r = padded xs /\ reservoir.n_ r = Z.of_nat (length xs).

Lemma size_Z : Z.of_nat reservoir.k_default_size = 1000.
Proof. reflexivity. Qed.

Lemma padded_length xs :
  (length xs <= reservoir.k_default_size)%nat -> length (padded xs) = reservoir.k_default_size.
Proof. intros H. unfold padded. rewrite length_app, length_replicate. lia. Qed.

Lemma filled_new : filled [] reservoir.new.
Proof. split; [done|]. split; [|done]. unfold padded. by rewrite Nat.sub_0_r. Qed.

Lemma add_sample_filled draw x xs r :
  filled xs r -> (length xs < reservoir.k_default_size)%nat ->
  exists r', reservoir.add_sample draw x r = Ok r' /\ filled (xs ++ [x]) r'.
Proof.
  intros (Hsz & Hs & Hn) Hlt. unfold reservoir.add_sample. cbn [reservoir.add_n reservoir.reservoir_size_].
  unfold reservoir.add_n. cbn [reservoir.reservoir_size_ reservoir.n_ reservoir.samples_ reservoir.draws_].
  rewrite Hn, Hsz, (proj2 (Z.ltb_lt _ _)), Nat2Z.id by lia.
  unfold reservoir.set_sample. cbn [reservoir.samples_ reservoir.reservoir_size_ reservoir.n_ reservoir.draws_].
  rewrite Hs, padded_length, decide_True by lia. eexists. split; [reflexivity|].
  split; [done|]. cbn [reservoir.samples_ reservoir.n_]. split.
  - unfold padded. rewrite insert_app_r_alt, Nat.sub_diag, length_app by lia.
    replace (reservoir.k_default_size - length xs)%nat
      with (S (reservoir.k_default_size - (length xs + 1))) by lia.
    by rewrite <- app_assoc.
  - pose proof size_Z. rewrite length_app, Z.mod_small; [simpl; lia|].
    unfold two64. lia.
Qed.

Lemma padded_zero xs x : x ∈ padded xs -> x ∈ xs \/ x = d_zero.
Proof.
  unfold padded. rewrite elem_of_app, elem_of_replicate. intros [?|[? _]]; auto.
Qed.

(** Zeros count as samples: they are below every positive number. *)
Lemma padded_below xs m :
  sf_lt d_zero m = true -> (reservoir.k_default_size - length xs <= below_count m (padded xs))%nat.
Proof.
  intros Hm. unfold below_count, padded. rewrite list.filter_app, length_app.
  rewrite (filter_all _ (replicate _ d_zero)), length_replicate; [lia|].
  by apply Forall_replicate.
Qed.

(** The event of a percentile [p] over the samples [xs] of an interval: its metric is one
    of the samples, or zero, and has the rank that [p] asks for among [xs] and as
    many zeros as are missing. *)
Definition percentile_of (base : Event) (xs : list double)
    (p : double) (e : Event) : Prop :=
  exists m,
  e = Event.set_metric_d m
        (Event.set_service (Event.service base +:+ " " +:+ d_to_string p) base)
  /\ m ∈ padded xs
  /\ Z.of_nat (below_count m (padded xs)) <= percentile_index reservoir.k_default_size p
     < Z.of_nat (upto_count m (padded xs))
  /\ (Forall (fun x => sf_lt d_zero x = true) xs ->
      percentile_index reservoir.k_default_size p
        < Z.of_nat reservoir.k_default_size - Z.of_nat (length xs) -> m = d_zero).

(** A percentile that has a place in the reservoir. *)
Definition has_place (p : double) : Prop :=
  0 <= percentile_index reservoir.k_default_size p < Z.of_nat reservoir.k_default_size.

Lemma percentile_event_of base xs p :
  (length xs <= reservoir.k_default_size)%nat -> no_nan xs -> has_place p ->
  exists e, percentile_event (stable_sort (padded xs)) base p = Ok e
  /\ percentile_of base xs p e.
Proof.
  intros Hlen Hn [H0 H1]. unfold percentile_event.
  rewrite (Permutation_length (stable_sort_perm (padded xs))), padded_length by done.
  rewrite (proj2 (Z.ltb_ge _ _)) by lia.
  set (i := percentile_index _ p) in *.
  assert (no_nan (padded xs)) as Hnp.
  { unfold padded. apply Forall_app. split; [done|]. by apply Forall_replicate. }
  destruct (lookup_lt_is_Some_2 (stable_sort (padded xs)) (Z.to_nat i)) as [m Hm].
  { rewrite (Permutation_length (stable_sort_perm (padded xs))), padded_length by done. lia. }
  rewrite Hm. eexists. split; [reflexivity|]. exists m. split; [done|].
  assert (m ∈ padded xs) as Hin.
  { rewrite <- stable_sort_perm. by eapply list_elem_of_lookup_2. }
  split; [done|]. fold i.
  pose proof (ascending_rank (stable_sort (padded xs)) (Z.to_nat i) m
    (stable_sort_ascending _ Hnp) ltac:(by rewrite stable_sort_perm) Hm) as [Hb Hu].
  rewrite stable_sort_perm in Hb, Hu. split; [lia|]. intros Hpos Hi.
  destruct (padded_zero xs m Hin) as [Hx|?]; [|done]. exfalso.
  rewrite list.Forall_forall in Hpos. pose proof (padded_below xs m (Hpos m Hx)). lia.
Qed.

Lemma percentile_events_of base xs ps :
  (length xs <= reservoir.k_default_size)%nat -> no_nan xs -> Forall has_place ps ->
  exists es, percentile_events (stable_sort (padded xs)) base ps = Ok es
  /\ Forall2 (percentile_of base xs) ps es.
Proof.
  intros Hlen Hn Hps. induction ps as [|p ps IH]; [by exists []|].
  apply Forall_cons_iff in Hps as [Hp Hps]. destruct (IH Hps) as (es & He & Hes).
  destruct (percentile_event_of base xs p Hlen Hn Hp) as (e & Hpe & Hof).
  exists (e :: es). cbn [percentile_events]. rewrite Hpe, He. split; [done|]. by constructor.
Qed.

Lemma reservoir_to_events_filled r ps base xs es :
  (length xs <= reservoir.k_default_size)%nat -> reservoir.samples_ r = padded xs ->
  percentile_events (stable_sort (padded xs)) base ps = Ok es ->
  reservoir_to_events r ps base = ((reservoir.snapshot r).1, Ok es).
Proof.
  intros Hlen Hs He. unfold reservoir_to_events. cbn [reservoir.snapshot fst]. rewrite Hs.
  pose proof (padded_length xs Hlen) as Hl. rewrite <- He.
  by destruct (padded xs).
Qed.

(** ** The stream [percentiles] over an interval *)

Section percentiles_correct.
Variable draw : nat -> Z -> Z.
Variable f : fwd.

(** The events that count, and the first one of them. *)
Definition measured (es : list (clock * Event)) : list Event :=
  filter (fun e => Event.has_metric e = true) es.*2.

Definition first_event (d : percentiles_data_t) (es : list Event) : Event :=
  if initialized d then event d else default (event d) (head es).

Lemma percentiles_event_run e (d d' : percentiles_data_t) s now :
  update_percentiles draw e d = Ok d' ->
  percentiles_event draw f e now (d, s) = ((d', s), [], Ok []).
Proof.
  intros Hd. unfold percentiles_event, bind, on_fst, getm, ret. cbn [fst snd].
  rewrite Hd. done.
Qed.

Lemma percentiles_run es (d : percentiles_data_t) s xs :
  filled xs (reserv d) ->
  (length xs + length (measured es) <= reservoir.k_default_size)%nat ->
  exists r, run_events (percentiles_event draw f) es (d, s) =
    ((MkPercentiles r (first_event d (measured es))
        (initialized d || negb (bool_decide (measured es = []))), s), [],
     replicate (length es) (Ok []))
  /\ filled (xs ++ (Event.metric <$> measured es)) r.
Proof.
  revert d xs. induction es as [|[now e] es IH]; intros d xs Hd Hlen.
  { exists (reserv d). rewrite app_nil_r. split; [|done]. unfold first_event.
    rewrite bool_decide_true by done. by destruct d as [r ev []]. }
  cbn [run_events length replicate].
  assert (measured ((now, e) :: es) =
    if Event.has_metric e then e :: measured es else measured es) as Hm.
  { unfold measured. rewrite fmap_cons, filter_cons. cbn [snd].
    by destruct (Event.has_metric e). }
  rewrite Hm in *. destruct (Event.has_metric e) eqn:He.
  - destruct (add_sample_filled draw (Event.metric e) xs (reserv d) Hd) as (r1 & Hr1 & Hf1);
      [simpl in Hlen; lia|].
    erewrite percentiles_event_run
      by (unfold update_percentiles; rewrite He; cbn [negb]; rewrite Hr1; reflexivity).
    edestruct IH as (r & -> & Hf); [exact Hf1|rewrite length_app; simpl in *; lia|].
    exists r. rewrite <- app_assoc in Hf. split; [|exact Hf]. unfold first_event.
    rewrite (bool_decide_false (e :: measured es = [])) by done.
    cbn [initialized event negb head default].
    rewrite orb_true_r. by destruct (initialized d).
  - erewrite percentiles_event_run
      by (unfold update_percentiles; rewrite He; reflexivity).
    edestruct IH as (r & -> & Hf); [exact Hd|done|]. by exists r.
Qed.

End percentiles_correct.

