(* ===== verification/Reports.v ===== *)
(** * The dispatcher and what it reports

    The class [streams] of [src/streams/stream_functions.cpp] with its rate and its two latencies, which go
    to the reservoirs of [src/instrumentation/].  [Dispatch] has the same functions without the reports; here it
    is shown when the reports change nothing, and when they end the process. *)

From S2P Require Import Prelude Ieee Events Infra Dispatch Instrumentation.

Local Open Scope Z_scope.

(** ** The reporting dispatcher *)

Section reports.
(** The random numbers of the reservoirs, and how long the [k]-th push that was measured took, in microseconds. *)
Variable draw : nat -> Z -> Z.
Variable duration : nat -> Z.

(** 0, 0.5, 0.95, 0.99 and 1. *)
Definition k_percentiles : list double :=
  [d_zero; d_of_ratio 5 10; d_of_ratio 95 100; d_of_ratio 99 100; d_of_Z 1].
Definition k_latency_desc : string := "distribution of proccessing time of events through streams".

(** [update_rate_], [update_latency_] and [update_in_latency_] are the identifiers they update. *)
Record meters : Type := MkMeters {
  instr : instrumentation.t;
  measured : nat;
  update_rate_ : nat;
  update_latency_ : nat;
  update_in_latency_ : nat
}.

Definition set_instr (i : instrumentation.t) (m : meters) : meters :=
  MkMeters i (measured m) (update_rate_ m) (update_latency_ m) (update_in_latency_ m).

(** The constructor; the rate gets the description of the latency.  [None]: a [CHECK] fails. *)
Definition new_meters (start : Z) (i : instrumentation.t) : option (result meters) :=
  '(r, i) ← instrumentation.add_rate start "cavalieri stream rate" k_latency_desc i;
  match instrumentation.add_latency "cavalieri stream latency" k_latency_desc k_percentiles i with
  | None => None
  | Some (Throw x) => Some (Throw x)
  | Some (Ok (l, i)) =>
      match instrumentation.add_latency "cavalieri incoming events latency"
              "distribution of processing time before entering streams" k_percentiles i with
      | None => None
      | Some (Throw x) => Some (Throw x)
      | Some (Ok (il, i)) => Some (Ok (MkMeters i 0 r l il))
      end
  end.

Definition observe (id : nat) (value : double) (m : meters) : result meters :=
  res_map (fun i => set_instr i m) (instrumentation.update_latency draw id value (instr m)).

(** [difftime(time(0), e.time())]. *)
Definition in_latency (wall : Z) (e : Event) : double := d_of_Z (wall - Event.time e).

(** The push between two readings of the clock. *)
Definition took (m : meters) : double * meters :=
  (d_div (d_of_Z (duration (measured m))) (d_of_Z 1000),
   MkMeters (instr m) (S (measured m)) (update_rate_ m) (update_latency_ m) (update_in_latency_ m)).

(** The body of the loop of [streams::push_event], for a library in use. *)
Definition report_push (now : clock) (wall : Z) (e : Event) (s : stream_lib) (m : meters)
  : stream_lib * meters * list effect * result unit :=
  if decide (Event.state e = "expired") then
    let '(s, w, r) := push_stream now e s in (s, m, w, r)
  else if Event.has_time e then
    match observe (update_in_latency_ m) (in_latency wall e) m with
    | Throw x => (s, m, [], Throw x)
    | Ok m =>
        let '(s, w, r) := push_stream now e s in
        match r with
        | Throw x => (s, m, w, Throw x)
        | Ok () =>
            let '(value, m) := took m in
            match observe (update_latency_ m) value m with
            | Throw x => (s, m, w, Throw x)
            | Ok m => (s, m, w, Ok ())
            end
        end
    end
  else let '(s, w, r) := push_stream now (Event.set_time now e) s in (s, m, w, r).

Fixpoint report_slots (now : clock) (wall : Z) (e : Event) (slots : list stream_lib) (m : meters)
  : list stream_lib * meters * list effect * result unit :=
  match slots with
  | [] => ([], m, [], Ok ())
  | s :: slots' =>
      if negb (used s) then
        let '(slots', m, w, r) := report_slots now wall e slots' m in (s :: slots', m, w, r)
      else
        match report_push now wall e s m with
        | (s, m, w, Throw x) => (s :: slots', m, w, Throw x)
        | (s, m, w, Ok ()) =>
            let '(slots', m, w', r) := report_slots now wall e slots' m in (s :: slots', m, w ++ w', r)
        end
  end.

Definition report_event (now : clock) (wall : Z) (e : Event) (s : streams) (m : meters)
  : streams * meters * list effect * result unit :=
  if stop_ s then (s, m, [], Ok ())
  else let '(slots, m, w, r) := report_slots now wall e (streams_ s) m in (MkStreams slots (stop_ s), m, w, r).

Fixpoint report_events (now : clock) (wall : Z) (es : list Event) (s : streams) (m : meters)
  : streams * meters * list effect * result unit :=
  match es with
  | [] => (s, m, [], Ok ())
  | e :: es' =>
      match report_event now wall e s m with
      | (s, m, w, Throw x) => (s, m, w, Throw x)
      | (s, m, w, Ok ()) =>
          let '(s, m, w', r) := report_events now wall es' s m in (s, m, w ++ w', r)
      end
  end.

Definition report_message (now : clock) (wall : Z) (events : list Event) (s : streams) (m : meters)
  : streams * meters * list effect * result unit :=
  if stop_ s then (s, m, [], Ok ())
  else report_events now wall events s
         (set_instr (instrumentation.update_rate (update_rate_ m) (Z.of_nat (length events)) (instr m)) m).

(** Messages, each with both clocks; nothing is dispatched after the process has ended. *)
Fixpoint report_messages (ms : list (clock * Z * list Event)) (s : streams) (m : meters)
  : streams * meters * list effect * result unit :=
  match ms with
  | [] => (s, m, [], Ok ())
  | (now, wall, es) :: ms' =>
      match report_message now wall es s m with
      | (s, m, w, Throw x) => (s, m, w, Throw x)
      | (s, m, w, Ok ()) => let '(s, m, w', r) := report_messages ms' s m in (s, m, w ++ w', r)
      end
  end.

(** The same messages without the reports. *)
Fixpoint plain_messages (ms : list (clock * Z * list Event)) (s : streams) : streams * list effect * result unit :=
  match ms with
  | [] => (s, [], Ok ())
  | (now, _, es) :: ms' =>
      match process_message now es s with
      | (s, w, Throw x) => (s, w, Throw x)
      | (s, w, Ok ()) => let '(s, w', r) := plain_messages ms' s in (s, w ++ w', r)
      end
  end.

(** ** A reservoir that is not read *)

(** The samples beyond the size are counted twice. *)
Definition counted (k : Z) : Z := if k <=? 1000 then k else 2 * k - 1000.
(** The number of samples that a reservoir takes between two snapshots. *)
Definition sample_limit : Z := 2 ^ 30 + 500.

Record took_samples (k : Z) (r : reservoir.t) : Prop := {
  took_n : reservoir.n_ r = counted k;
  took_size : reservoir.reservoir_size_ r = reservoir.k_default_size;
  took_room : length (reservoir.samples_ r) = reservoir.k_default_size
}.

Lemma took_none : took_samples 0 reservoir.new.
Proof. by split. Qed.

Lemma set_sample_room i x r :
  length (reservoir.samples_ r) = reservoir.k_default_size -> 0 <= i < 1000 ->
  exists samples, reservoir.set_sample (Z.to_nat i) x r
    = Ok (reservoir.Mk (reservoir.reservoir_size_ r) samples (reservoir.n_ r) (reservoir.draws_ r))
  /\ length samples = reservoir.k_default_size.
Proof.
  intros Hl Hi. unfold reservoir.set_sample. rewrite decide_True by (rewrite Hl; unfold reservoir.k_default_size; lia).
  eexists. split; [done|]. by rewrite length_insert.
Qed.

(** [std::uniform_int_distribution]: the numbers are within the bounds. *)
Hypothesis draw_range : forall i b, 0 <= b -> 0 <= draw i b <= b.

Lemma add_sample_early k x r :
  took_samples k r -> 0 <= k < 1000 -> exists r', reservoir.add_sample draw x r = Ok r' /\ took_samples (k + 1) r'.
Proof.
  intros [Hn Hs Hl] Hk. unfold reservoir.add_sample, reservoir.add_n. rewrite Hn, Hs. cbn [reservoir.n_ reservoir.reservoir_size_].
  rewrite size_Z. unfold counted. rewrite (proj2 (Z.leb_le k 1000)), (proj2 (Z.ltb_lt k 1000)) by lia.
  destruct (set_sample_room k x (reservoir.Mk reservoir.k_default_size (reservoir.samples_ r) ((k + 1) mod two64)
    (reservoir.draws_ r)) Hl Hk) as (samples & -> & Hl').
  eexists. split; [done|]. split; [|done|done]. cbn. unfold counted.
  rewrite (proj2 (Z.leb_le (k + 1) 1000)) by lia. apply Z.mod_small. change two64 with 18446744073709551616; lia.
Qed.

Lemma add_sample_late k x r :
  took_samples k r -> 1000 <= k <= sample_limit ->
  if k <? sample_limit then exists r', reservoir.add_sample draw x r = Ok r' /\ took_samples (k + 1) r'
  else reservoir.add_sample draw x r = Throw undefined_behaviour.
Proof.
  unfold sample_limit. intros [Hn Hs Hl] Hk. assert (counted k = 2 * k - 1000) as Hc.
  { unfold counted. destruct (k <=? 1000) eqn:H1; [apply Z.leb_le in H1; lia|done]. }
  unfold reservoir.add_sample, reservoir.add_n. rewrite Hn, Hs, Hc. cbn [reservoir.n_ reservoir.reservoir_size_ reservoir.draws_].
  rewrite size_Z, (proj2 (Z.ltb_ge (2 * k - 1000) 1000)) by lia.
  rewrite Z.mod_small by (change two64 with 18446744073709551616; lia). destruct (k <? 2 ^ 30 + 500) eqn:Hlt.
  2: { apply Z.ltb_ge in Hlt. by rewrite (proj2 (Z.leb_le _ _)) by lia. }
  apply Z.ltb_lt in Hlt. rewrite (proj2 (Z.leb_gt _ _)) by lia.
  assert (counted (k + 1) = 2 * k - 1000 + 1 + 1) as Hc'. { unfold counted. rewrite (proj2 (Z.leb_gt _ _)); lia. }
  set (i := draw _ _). assert (0 <= i) as Hi by (apply draw_range; lia). destruct (i <? 1000) eqn:Hi1.
  - apply Z.ltb_lt in Hi1. edestruct (set_sample_room i x) as (samples & -> & Hl'); [|split; [exact Hi|exact Hi1]|].
    { exact Hl. }
    eexists. split; [done|]. split; [|done|done]. cbn. rewrite Hc'. apply Z.mod_small. change two64 with 18446744073709551616; lia.
  - eexists. split; [done|]. split; [|done|done]. cbn. rewrite Hc'. apply Z.mod_small. change two64 with 18446744073709551616; lia.
Qed.

(** A reservoir takes [sample_limit] samples; the next one has no defined effect. *)
Lemma add_sample_took k x r :
  took_samples k r -> 0 <= k <= sample_limit ->
  if k <? sample_limit then exists r', reservoir.add_sample draw x r = Ok r' /\ took_samples (k + 1) r'
  else reservoir.add_sample draw x r = Throw undefined_behaviour.
Proof.
  intros Hr Hk. destruct (decide (k < 1000)) as [Hlt|Hge].
  - rewrite (proj2 (Z.ltb_lt _ _)) by (unfold sample_limit; lia). apply add_sample_early; [done|lia].
  - apply add_sample_late; [done|lia].
Qed.

(** ** Latencies *)

(** The latencies have taken [k] samples each, or one the less. *)
Record metered (k k' : Z) (m : meters) : Prop := {
  met_in : exists p, instrumentation.latencies_ (instr m) !! update_in_latency_ m = Some p
           /\ took_samples k (instrumentation.p_reservoir p);
  met_out : exists p, instrumentation.latencies_ (instr m) !! update_latency_ m = Some p
            /\ took_samples k' (instrumentation.p_reservoir p);
  met_ids : update_in_latency_ m <> update_latency_ m
}.

(** What the reports of the latencies leave alone. *)
Definition same_rates (m m' : meters) : Prop :=
  instrumentation.rates_ (instr m') = instrumentation.rates_ (instr m) /\ update_rate_ m' = update_rate_ m.

Lemma observe_in k k' x m :
  metered k k' m -> 0 <= k <= sample_limit ->
  if k <? sample_limit
  then exists m', observe (update_in_latency_ m) x m = Ok m' /\ metered (k + 1) k' m' /\ same_rates m m'
  else observe (update_in_latency_ m) x m = Throw undefined_behaviour.
Proof.
  intros [(p & Hp & Hr) (q & Hq & Hr') Hne] Hk. pose proof (add_sample_took k x _ Hr Hk) as Ha.
  unfold observe, instrumentation.update_latency. rewrite Hp. destruct (k <? sample_limit).
  - destruct Ha as (r' & -> & Ht). eexists. split; [done|]. split; [|done]. split; cbn.
    + eexists. split; [apply list_lookup_insert_eq; by eapply lookup_lt_Some|done].
    + exists q. split; [by rewrite list_lookup_insert_ne|done].
    + done.
  - by rewrite Ha.
Qed.

Lemma observe_out k k' x m :
  metered k k' m -> 0 <= k' < sample_limit ->
  exists m', observe (update_latency_ m) x m = Ok m' /\ metered k (k' + 1) m' /\ same_rates m m'.
Proof.
  intros [(p & Hp & Hr) (q & Hq & Hr') Hne] Hk.
  assert (0 <= k' <= sample_limit) as Hle by lia. pose proof (add_sample_took k' x _ Hr' Hle) as Ha.
  rewrite (proj2 (Z.ltb_lt _ _)) in Ha by lia. destruct Ha as (r' & Ha & Ht).
  unfold observe, instrumentation.update_latency. rewrite Hq, Ha. eexists. split; [done|]. split; [|done]. split; cbn.
  - exists p. split; [by rewrite list_lookup_insert_ne|done].
  - eexists. split; [apply list_lookup_insert_eq; by eapply lookup_lt_Some|done].
  - done.
Qed.

(** ** With and without the reports *)

(** The samples that an event gives: one for every library in use. *)
Definition timed (e : Event) : bool := negb (bool_decide (Event.state e = "expired")) && Event.has_time e.
Definition libraries (slots : list stream_lib) : Z := Z.of_nat (length (filter (fun s => used s = true) slots)).
Definition samples (slots : list stream_lib) (e : Event) : Z := if timed e then libraries slots else 0.

(** The rate has counted [ticks] more, on a counter of 32 bits. *)
Definition rate_is (total : Z) (m : meters) : Prop :=
  exists c, instrumentation.rates_ (instr m) !! update_rate_ m = Some c
  /\ rate.counter_ (instrumentation.r_rate c) = wrap32 total.
Definition moved (ticks : Z) (m m' : meters) : Prop := forall total, rate_is total m -> rate_is (total + ticks) m'.

(** A call with reports ([r]) and the same without ([r0]), when it gives [n] samples after [k] and counts [ticks]: the
    same unless there are too many samples, and then it is undefined. *)
Definition agree {A} (k n ticks : Z) (r : A * meters * list effect * result unit) (r0 : A * list effect * result unit)
    (m : meters) : Prop :=
  let '(a, m', w, x) := r in
  if k + n <=? sample_limit
  then (a, w, x) = r0 /\ (x = Ok () -> metered (k + n) (k + n) m' /\ moved ticks m m')
  else r0.2 = Ok () -> x = Throw undefined_behaviour.

Lemma moved_same m m' : same_rates m m' -> moved 0 m m'.
Proof. intros [H1 H2] total (c & Hc & Ht). exists c. rewrite H1, H2, Z.add_0_r. done. Qed.

Lemma moved_trans t t' m m' m'' : moved t m m' -> moved t' m' m'' -> moved (t + t') m m''.
Proof. intros H1 H2 total Ht. rewrite Z.add_assoc. auto. Qed.

Lemma report_push_agree now wall e s m k :
  metered k k m -> 0 <= k <= sample_limit ->
  agree k (if timed e then 1 else 0) 0 (report_push now wall e s m) (push_stream now (stamp now e) s) m.
Proof.
  intros Hm Hk. unfold report_push, stamp, timed, agree. destruct (decide _) as [He|He].
  { rewrite bool_decide_eq_true_2 by done. cbn [negb andb]. rewrite Z.add_0_r, (proj2 (Z.leb_le _ _)) by lia.
    destruct (push_stream now e s) as [[s' w] x]. split; [done|]. intros _. split; [done|by apply moved_same]. }
  rewrite bool_decide_eq_false_2 by done. cbn [negb andb]. destruct (Event.has_time e).
  2: { rewrite Z.add_0_r, (proj2 (Z.leb_le _ _)) by lia. destruct (push_stream now _ s) as [[s' w] x].
       split; [done|]. intros _. split; [done|by apply moved_same]. }
  pose proof (observe_in k k (in_latency wall e) m Hm Hk) as Hin. destruct (k <? sample_limit) eqn:Hlt.
  2: { rewrite Hin. apply Z.ltb_ge in Hlt. by rewrite (proj2 (Z.leb_gt _ _)) by lia. }
  apply Z.ltb_lt in Hlt. destruct Hin as (m1 & -> & Hm1 & Hs1). rewrite (proj2 (Z.leb_le _ _)) by lia.
  destruct (push_stream now e s) as [[s' w] [[]|x]]; [|done]. cbn [took].
  assert (metered (k + 1) k (took m1).2) as Hm2 by (by destruct Hm1).
  destruct (observe_out _ _ (took m1).1 _ Hm2) as (m3 & Ho & Hm3 & Hs3); [lia|].
  cbn [took fst snd] in Ho. rewrite Ho. split; [done|]. intros _. split; [done|].
  eapply (moved_trans 0 0); apply moved_same; [exact Hs1|exact Hs3].
Qed.

(** Two calls one after the other. *)
Lemma agree_seq {A B C} k n1 n2 t1 t2 (r1 : A * meters * list effect * result unit) p1
    (r2 : A -> meters -> B * meters * list effect * result unit) p2 (f : A -> C) (g : A -> B -> C) m :
  0 <= n1 -> 0 <= n2 -> 0 <= k -> agree k n1 t1 r1 p1 m ->
  (forall m', p1.2 = Ok () -> metered (k + n1) (k + n1) m' -> k + n1 <= sample_limit ->
    agree (k + n1) n2 t2 (r2 p1.1.1 m') (p2 p1.1.1) m') ->
  agree k (n1 + n2) (t1 + t2)
    match r1 with
    | (a, m, w, Throw x) => (f a, m, w, Throw x)
    | (a, m, w, Ok ()) => let '(b, m, w', x) := r2 a m in (g a b, m, w ++ w', x)
    end
    match p1 with
    | (a, w, Throw x) => (f a, w, Throw x)
    | (a, w, Ok ()) => let '(b, w', x) := p2 a in (g a b, w ++ w', x)
    end m.
Proof.
  intros Hn1 Hn2 Hk H1 H2. destruct r1 as [[[a m1] w] x], p1 as [[a0 w0] x0]. unfold agree in H1. cbn [fst snd] in *.
  destruct (k + n1 <=? sample_limit) eqn:Hl1.
  - destruct H1 as [[= -> -> ->] Hm1]. apply Z.leb_le in Hl1. destruct x0 as [[]|x0].
    + destruct (Hm1 eq_refl) as [Hmet Hmov]. specialize (H2 m1 eq_refl Hmet Hl1). unfold agree in *.
      destruct (r2 a0 m1) as [[[b m2] w2] x2], (p2 a0) as [[b0 w3] x3]. rewrite Z.add_assoc. destruct (_ <=? _); [|done].
      destruct H2 as [[= -> -> ->] Hm2]. split; [done|]. intros Hx. destruct (Hm2 Hx) as [Hmet2 Hmov2]. split; [done|].
      by eapply moved_trans.
    + unfold agree. destruct (_ <=? _); [by split|done].
  - apply Z.leb_gt in Hl1. unfold agree. destruct x0 as [[]|x0].
    + rewrite H1 by done. by rewrite (proj2 (Z.leb_gt _ _)) by lia.
    + destruct x as [[]|x]; [destruct (r2 a m1) as [[[b m2] w2] x2]|]; by rewrite (proj2 (Z.leb_gt _ _)) by lia.
Qed.

Lemma libraries_nonneg slots : 0 <= libraries slots.
Proof. unfold libraries. lia. Qed.

Lemma report_slots_agree now wall e slots : forall m k,
  metered k k m -> 0 <= k <= sample_limit ->
  agree k (samples slots e) 0 (report_slots now wall e slots m) (push_slots now e slots) m.
Proof.
  induction slots as [|s slots IH]; intros m k Hm Hk; cbn [report_slots push_slots].
  { assert (samples [] e = 0) as -> by (unfold samples; by destruct (timed e)). unfold agree.
    rewrite Z.add_0_r, (proj2 (Z.leb_le _ _)) by lia. split; [done|]. intros _. split; [done|by apply moved_same]. }
  destruct (used s) eqn:Hu; cbn [negb].
  - replace (samples (s :: slots) e) with ((if timed e then 1 else 0) + samples slots e).
    2: { unfold samples, libraries. rewrite filter_cons_True by done. destruct (timed e); cbn [length]; lia. }
    assert (0 <= samples slots e) as Hs by (unfold samples; pose proof (libraries_nonneg slots); destruct (timed e); lia).
    apply (agree_seq k _ (samples slots e) 0 0 (report_push now wall e s m) (push_stream now (stamp now e) s)
      (fun _ => report_slots now wall e slots) (fun _ => push_slots now e slots) (fun s => s :: slots) cons);
      [by destruct (timed e)|done|lia|by apply report_push_agree|].
    intros m' _ Hm' Hl. apply IH; [done|]. split; [destruct (timed e); lia|done].
  - replace (samples (s :: slots) e) with (samples slots e).
    2: { unfold samples, libraries. by rewrite filter_cons_False by (by rewrite Hu). }
    specialize (IH m k Hm Hk). unfold agree in *.
    destruct (report_slots now wall e slots m) as [[[sl m'] w] x], (push_slots now e slots) as [[sl0 w0] x0].
    destruct (_ <=? _); [|done]. destruct IH as [[= -> -> ->] Hx]. done.
Qed.

(** *** Events and messages *)

(** The libraries that see events, and the events with a time that are no expiry notices. *)
Definition served (s : streams) : Z := if stop_ s then 0 else libraries (streams_ s).
Definition timed_in (es : list Event) : Z := Z.of_nat (length (filter (fun e => timed e = true) es)).

Lemma served_nonneg s : 0 <= served s.
Proof. unfold served. pose proof (libraries_nonneg (streams_ s)). destruct (stop_ s); lia. Qed.

Lemma timed_in_cons e es : timed_in (e :: es) = (if timed e then 1 else 0) + timed_in es.
Proof.
  unfold timed_in. destruct (timed e) eqn:He; [rewrite filter_cons_True by done; cbn [length]; lia|].
  by rewrite filter_cons_False by (by rewrite He).
Qed.

Lemma libraries_used slots slots' : used <$> slots' = used <$> slots -> libraries slots' = libraries slots.
Proof.
  unfold libraries. revert slots'. induction slots as [|s slots IH]; intros [|s' slots']; try done.
  rewrite !fmap_cons. intros [= Hu Hr]. specialize (IH slots' Hr). rewrite !filter_cons, Hu. destruct (decide _); cbn [length]; lia.
Qed.

Lemma push_slots_used now e slots : used <$> (push_slots now e slots).1.1 = used <$> slots.
Proof.
  induction slots as [|s slots IH]; [done|]. cbn [push_slots]. destruct (used s) eqn:Hu; cbn [negb].
  - assert (used (push_stream now (stamp now e) s).1.1 = true) as Hs.
    { unfold push_stream. rewrite Hu. destruct (stream s); [|done]. by destruct (chain_push _ _ _ _) as [[? ?] ?]. }
    destruct (push_stream now (stamp now e) s) as [[s' w] [[]|x]]; cbn [fst] in Hs.
    + destruct (push_slots now e slots) as [[sl w'] r]. cbn in *. congruence.
    + cbn. congruence.
  - destruct (push_slots now e slots) as [[sl w'] r]. cbn in *. congruence.
Qed.

Lemma push_event_served now e s : served (streams_push_event now e s).1.1 = served s.
Proof.
  unfold streams_push_event, served. destruct (stop_ s) eqn:Hs; [by cbn; rewrite Hs|].
  pose proof (push_slots_used now e (streams_ s)) as Hu. destruct (push_slots now e (streams_ s)) as [[sl w] r].
  cbn in *. rewrite ?Hs. by apply libraries_used.
Qed.

Lemma push_events_served now es : forall s, served (push_events now es s).1.1 = served s.
Proof.
  induction es as [|e es IH]; intros s; [done|]. cbn [push_events]. pose proof (push_event_served now e s) as He.
  destruct (streams_push_event now e s) as [[s1 w] [[]|x]]; [|done]. specialize (IH s1).
  destruct (push_events now es s1) as [[s2 w'] r]. cbn in *. congruence.
Qed.

(** A call that does nothing. *)
Lemma agree_nothing {A} (a : A) k m : metered k k m -> k <= sample_limit -> agree k 0 0 (a, m, [], Ok ()) (a, [], Ok ()) m.
Proof.
  intros Hm Hk. unfold agree. rewrite Z.add_0_r, (proj2 (Z.leb_le _ _)) by lia. split; [done|]. intros _.
  split; [done|by apply moved_same].
Qed.

Lemma report_event_agree now wall e s m k :
  metered k k m -> 0 <= k <= sample_limit ->
  agree k (served s * if timed e then 1 else 0) 0 (report_event now wall e s m) (streams_push_event now e s) m.
Proof.
  intros Hm Hk. unfold report_event, streams_push_event, served. destruct (stop_ s); [apply agree_nothing; [done|lia]|].
  replace (libraries (streams_ s) * _) with (samples (streams_ s) e) by (unfold samples; destruct (timed e); lia).
  pose proof (report_slots_agree now wall e (streams_ s) m k Hm Hk) as Ha. unfold agree in *.
  destruct (report_slots _ _ _ _ _) as [[[sl m'] w] x], (push_slots _ _ _) as [[sl0 w0] x0].
  destruct (_ <=? _); [|done]. by destruct Ha as [[= -> -> ->] Hx].
Qed.

Lemma report_events_agree now wall es : forall s m k,
  metered k k m -> 0 <= k <= sample_limit ->
  agree k (served s * timed_in es) 0 (report_events now wall es s m) (push_events now es s) m.
Proof.
  induction es as [|e es IH]; intros s m k Hm Hk; cbn [report_events push_events].
  { rewrite Z.mul_0_r. apply agree_nothing; [done|lia]. }
  pose proof (served_nonneg s) as Hs. rewrite timed_in_cons, Z.mul_add_distr_l. apply (agree_seq k _ _ 0 0
    (report_event now wall e s m) (streams_push_event now e s)
    (fun s => report_events now wall es s) (fun s => push_events now es s) (fun s => s) (fun _ s => s));
    [destruct (timed e); lia|unfold timed_in; lia|lia|by apply report_event_agree|].
  intros m' _ Hm' Hl. rewrite <- (push_event_served now e s). apply IH; rewrite ?push_event_served; [done|].
  split; [destruct (timed e); lia|done].
Qed.

(** The rate is told before the events are dispatched. *)
Lemma update_rate_moved ticks m :
  moved ticks m (set_instr (instrumentation.update_rate (update_rate_ m) ticks (instr m)) m).
Proof.
  intros total (c & Hc & Ht). unfold rate_is. cbn. rewrite list_lookup_alter_eq, Hc. eexists. split; [done|]. cbn.
  by rewrite Ht, wrap32_add.
Qed.

Lemma agree_moved {A} k n t t' (r : A * meters * list effect * result unit) r0 m m1 :
  moved t m m1 -> agree k n t' r r0 m1 -> agree k n (t + t') r r0 m.
Proof.
  intros Hm. unfold agree. destruct r as [[[a m'] w] x]. destruct (_ <=? _); [|done]. intros [Hr Hx]. split; [done|].
  intros Ho. destruct (Hx Ho) as [Hmet Hmov]. split; [done|]. by eapply moved_trans.
Qed.

(** What the rate counts. *)
Definition counts (s : streams) (es : list Event) : Z := if stop_ s then 0 else Z.of_nat (length es).

Lemma report_message_agree now wall es s m k :
  metered k k m -> 0 <= k <= sample_limit ->
  agree k (served s * timed_in es) (counts s es) (report_message now wall es s m) (process_message now es s) m.
Proof.
  intros Hm Hk. unfold report_message, process_message, counts. destruct (stop_ s) eqn:Hs.
  - replace (served s * timed_in es) with 0 by (unfold served; rewrite Hs; lia). apply agree_nothing; [done|lia].
  - set (n := Z.of_nat (length es)). replace n with (n + 0) at 1 by lia. eapply agree_moved; [apply update_rate_moved|].
    apply report_events_agree; [|done]. by destruct Hm.
Qed.

Lemma process_message_kept now es s :
  (process_message now es s).2 = Ok () ->
  served (process_message now es s).1.1 = served s /\ stop_ (process_message now es s).1.1 = stop_ s.
Proof.
  intros _. unfold process_message. destruct (stop_ s) eqn:Hs; [done|]. split; [apply push_events_served|].
  revert s Hs. induction es as [|e es IH]; intros s Hs; [done|]. cbn [push_events].
  assert (stop_ (streams_push_event now e s).1.1 = false) as He.
  { unfold streams_push_event. rewrite Hs. by destruct (push_slots _ _ _) as [[? ?] ?]. }
  destruct (streams_push_event now e s) as [[s1 w] [[]|x]]; [|done]. specialize (IH s1 He).
  by destruct (push_events now es s1) as [[s2 w'] r].
Qed.

Abbreviation all_events ms := (mjoin (snd <$> ms)).

Lemma report_messages_agree ms : forall s m k,
  metered k k m -> 0 <= k <= sample_limit ->
  agree k (served s * timed_in (all_events ms)) (counts s (all_events ms)) (report_messages ms s m) (plain_messages ms s) m.
Proof.
  induction ms as [|[[now wall] es] ms IH]; intros s m k Hm Hk; cbn [report_messages plain_messages].
  { assert (counts s (all_events []) = 0) as -> by (unfold counts; by destruct (stop_ s)).
    rewrite Z.mul_0_r. apply agree_nothing; [done|lia]. }
  pose proof (served_nonneg s) as Hs. rewrite fmap_cons. change (mjoin (?x :: ?l)) with (x ++ mjoin l). cbn [snd].
  replace (timed_in (es ++ all_events ms)) with (timed_in es + timed_in (all_events ms))
    by (unfold timed_in; rewrite list.filter_app, length_app; lia).
  replace (counts s (es ++ all_events ms)) with (counts s es + counts s (all_events ms))
    by (unfold counts; destruct (stop_ s); rewrite ?length_app; lia).
  rewrite Z.mul_add_distr_l. apply (agree_seq k _ _ _ _ (report_message now wall es s m) (process_message now es s)
    (fun s => report_messages ms s) (fun s => plain_messages ms s) (fun s => s) (fun _ s => s));
    [unfold timed_in; lia|unfold timed_in; lia|lia|by apply report_message_agree|].
  intros m' Hok Hm' Hl. destruct (process_message_kept now es s Hok) as [Hk1 Hk2].
  replace (counts s (all_events ms)) with (counts (process_message now es s).1.1 (all_events ms))
    by (unfold counts; by rewrite Hk2).
  rewrite <- Hk1 at 2. apply IH; [done|]. split; [unfold timed_in; lia|done].
Qed.

Lemma new_meters_metered start i m : new_meters start i = Some (Ok m) -> metered 0 0 m /\ rate_is 0 m.
Proof.
  unfold new_meters, instrumentation.add_rate, instrumentation.add_latency. destruct (decide _) as [Hr|]; [|done]. cbn.
  destruct (decide _); [|done]. destruct (decide _) as [Hl|]; [|done]. cbn. destruct (decide _); [|done].
  destruct (decide _) as [Hl2|]; [|done]. intros [= <-]. rewrite !length_app in *. cbn in *. split; [split|]; cbn.
  - eexists. split; [apply list_lookup_middle; by rewrite length_app|apply took_none].
  - eexists. split; [rewrite lookup_app_l by (rewrite length_app; cbn; lia); by apply list_lookup_middle|apply took_none].
  - lia.
  - eexists. split; [by apply list_lookup_middle|done].
Qed.

(** C31. The dispatcher with its reports does with the messages what the dispatcher alone does, and its rate counts their
    events, as long as the latencies get no more than [sample_limit] samples, one for every event with a time and every
    library in use; nobody reads the reservoirs, as is the case unless internal metrics are enabled.  The first
    sample beyond that has no defined effect: the counter of the reservoir leaves the range of the distribution. *)
Theorem dispatcher_reports (start : Z) (i : instrumentation.t) (s : streams) (ms : list (clock * Z * list Event))
    (m : meters) :
  new_meters start i = Some (Ok m) ->
  let '(s', m', w, r) := report_messages ms s m in
  if served s * timed_in (all_events ms) <=? sample_limit
  then (s', w, r) = plain_messages ms s /\ (r = Ok () -> rate_is (counts s (all_events ms)) m')
  else (plain_messages ms s).2 = Ok () -> r = Throw undefined_behaviour.
Proof.
  intros Hm. destruct (new_meters_metered _ _ _ Hm) as [Hmet Hrate].
  pose proof (report_messages_agree ms s m 0 Hmet) as Ha. unfold agree in Ha.
  destruct (report_messages ms s m) as [[[s' m'] w] r]. rewrite Z.add_0_l in Ha. specialize (Ha ltac:(unfold sample_limit; lia)).
  destruct (_ <=? _); [|done]. destruct Ha as [-> Hx]. split; [done|]. intros Hr. destruct (Hx Hr) as [_ Hmov].
  exact (Hmov 0 Hrate).
Qed.
End reports.

(** ** Runs *)

(** One library, which does nothing; an event with a time. *)
Definition quiet_slot : stream_lib :=
  let c := init_streams (create_stream (fun _ => ret [])) in MkSlot "a.so" 0 true (Some (MkLoaded c (chain_init 0 c 0).1)) true.
Definition quiet : streams := MkStreams [quiet_slot; empty_slot] false.
Definition timed_event : Event := Event.set_time 5 Event.empty.

Lemma dispatcher_reports_witness :
  exists m, new_meters 0 instrumentation.new = Some (Ok m)
  /\ let ms := [(7, 8, [timed_event; Event.empty]); (9, 9, [timed_event])] in
     let '(s', m', w, r) := report_messages (fun _ _ => 0) (fun _ => 250) ms quiet m in
     (s', w, r) = plain_messages ms quiet /\ (r = Ok () -> rate_is 3 m').
Proof.
  eexists. split; [vm_compute; reflexivity|].
  eapply (dispatcher_reports (fun _ _ => 0) (fun _ => 250) ltac:(intros; lia) 0 instrumentation.new quiet
    [(7, 8, [timed_event; Event.empty]); (9, 9, [timed_event])]).
  vm_compute. reflexivity.
Defined.

(** That many events do end the process, whatever the random numbers are. *)
Lemma quiet_stays now n : push_events now (replicate n timed_event) quiet = (quiet, [], Ok ()).
Proof.
  assert (streams_push_event now timed_event quiet = (quiet, [], Ok ())) as He by done.
  induction n as [|n IH]; [done|]. cbn [replicate push_events]. rewrite He. by rewrite IH.
Qed.

Lemma quiet_samples n : timed_in (replicate n timed_event) = Z.of_nat n.
Proof. induction n as [|n IH]; [done|]. cbn [replicate]. rewrite timed_in_cons, IH. change (timed timed_event) with true. lia. Qed.

Lemma quiet_overflow draw duration n m :
  (forall i b, 0 <= b -> 0 <= draw i b <= b) -> sample_limit < Z.of_nat n -> new_meters 0 instrumentation.new = Some (Ok m) ->
  (report_messages draw duration [(7, 8, replicate n timed_event)] quiet m).2 = Throw undefined_behaviour.
Proof.
  intros Hd Hn Hm. destruct (new_meters_metered 0 instrumentation.new m Hm) as [Hmet _].
  assert (plain_messages [(7, 8, replicate n timed_event)] quiet = (quiet, [], Ok ())) as Hp.
  { cbn [plain_messages]. unfold process_message. cbn [stop_ quiet]. by rewrite quiet_stays. }
  pose proof (report_messages_agree draw duration Hd [(7, 8, replicate n timed_event)] quiet m 0
    Hmet ltac:(unfold sample_limit; lia)) as Ha.
  rewrite Hp in Ha. unfold agree in Ha. destruct (report_messages _ _ _ _ _) as [[[s' m'] w] r].
  cbn [fmap list_fmap snd] in Ha. change (mjoin [?x]) with (x ++ []) in Ha. rewrite app_nil_r, quiet_samples in Ha.
  change (served quiet) with 1 in Ha. rewrite (proj2 (Z.leb_gt _ _)) in Ha by lia. by apply Ha.
Qed.

Lemma latencies_overflow draw duration :
  (forall i b, 0 <= b -> 0 <= draw i b <= b) ->
  exists m es, new_meters 0 instrumentation.new = Some (Ok m)
  /\ plain_messages [(7, 8, es)] quiet = (quiet, [], Ok ())
  /\ (report_messages draw duration [(7, 8, es)] quiet m).2 = Throw undefined_behaviour.
Proof.
  intros Hd. assert (exists n : nat, sample_limit < Z.of_nat n) as [n Hn].
  { exists (Z.to_nat (sample_limit + 1)). rewrite Z2Nat.id; unfold sample_limit; lia. }
  destruct (new_meters 0 instrumentation.new) as [[m|x]|] eqn:Hm; [|by vm_compute in Hm..].
  exists m, (replicate n timed_event). split; [done|]. split; [|by apply quiet_overflow].
  cbn [plain_messages]. unfold process_message. cbn [stop_ quiet]. by rewrite quiet_stays.
Qed.
