(* ===== verification/Metrics.v ===== *)
(** * Internal metrics over time, and the memory of the process

    [start_instrumentation] and [snapshot] of [src/core/real_core_helper.cpp]: every five seconds what has been
    measured is reported as events, which go through the rules, and the reservoirs of [Reports] start afresh.  So the dispatcher
    is defined for ever if the messages of one interval are not too many.  The second part is
    [src/instrumentation/mem.cpp]: two numbers out of [/proc/self/stat]. *)

From S2P Require Import Prelude Ieee Events Infra Dispatch Instrumentation Reports.

Local Open Scope Z_scope.

(** ** Reports that are read *)

Section metrics.
Variable draw : nat -> Z -> Z.
Variable duration : nat -> Z.
Variable k_fqdn : string.

(** The clock of the rates is in nanoseconds; the memory is that of the process. *)
Inductive metrics_op : Type :=
| MMessage (now : clock) (wall : Z) (es : list Event)
| MSnapshot (now : clock) (wall : Z) (nanos : Z) (vm rss : double).

Definition report_snapshot (now : clock) (wall nanos : Z) (vm rss : double) (s : streams) (m : meters)
  : streams * meters * list effect * result unit :=
  match instrumentation.snapshot k_fqdn nanos vm rss (instr m) with
  | Throw x => (s, m, [], Throw x)
  | Ok (i, es) => report_events draw duration now wall es s (set_instr i m)
  end.

Fixpoint report_ops (os : list metrics_op) (s : streams) (m : meters) : streams * meters * list effect * result unit :=
  match os with
  | [] => (s, m, [], Ok ())
  | o :: os' =>
      match
        match o with
        | MMessage now wall es => report_message draw duration now wall es s m
        | MSnapshot now wall nanos vm rss => report_snapshot now wall nanos vm rss s m
        end
      with
      | (s, m, w, Throw x) => (s, m, w, Throw x)
      | (s, m, w, Ok ()) => let '(s, m, w', r) := report_ops os' s m in (s, m, w ++ w', r)
      end
  end.

(** The dispatcher alone, with the events that the snapshots give. *)
Fixpoint plain_ops (os : list metrics_op) (ess : list (list Event)) (s : streams) : streams * list effect * result unit :=
  match os with
  | [] => (s, [], Ok ())
  | o :: os' =>
      let '(r, ess) :=
        match o with
        | MMessage now _ es => (process_message now es s, ess)
        | MSnapshot now _ _ _ _ => (push_events now (default [] (head ess)) s, tail ess)
        end in
      match r with
      | (s, w, Throw x) => (s, w, Throw x)
      | (s, w, Ok ()) => let '(s, w', r) := plain_ops os' ess s in (s, w ++ w', r)
      end
  end.

(** No interval has too many samples, after [k] in this one, with [n] libraries. *)
Fixpoint within (n k : Z) (os : list metrics_op) : bool :=
  match os with
  | [] => true
  | MMessage _ _ es :: os' => let k := k + n * timed_in es in (k <=? sample_limit) && within n k os'
  | MSnapshot _ _ _ _ _ :: os' => within n 0 os'
  end.

(** *** What a snapshot does *)

(** Reservoirs as the constructor makes them, and percentiles that exist. *)
Definition latency_ok (p : instrumentation.percentiles_conf_t) : Prop :=
  length (reservoir.samples_ (instrumentation.p_reservoir p)) = reservoir.k_default_size
  /\ Forall has_place (instrumentation.p_percentiles p).
Definition latencies_ok (i : instrumentation.t) : Prop := Forall latency_ok (instrumentation.latencies_ i).

Lemma percentile_events_ok samples base ps :
  length samples = reservoir.k_default_size -> Forall has_place ps ->
  exists es, percentile_events samples base ps = Ok es
  /\ Forall (fun e => exists m s, e = Event.set_metric_d m (Event.set_service s base)) es.
Proof.
  intros Hl Hps. induction Hps as [|p ps [H0 H1] _ (es & He & Hes)]; [by exists []|]. cbn [percentile_events].
  unfold percentile_event. rewrite Hl, (proj2 (Z.ltb_ge _ _)) by lia.
  destruct (lookup_lt_is_Some_2 samples (Z.to_nat (percentile_index reservoir.k_default_size p))) as [m ->]; [rewrite Hl; lia|].
  rewrite He. eexists. split; [reflexivity|]. constructor; [by eexists _, _|done].
Qed.

(** Only these differ between the events of a snapshot. *)
Definition internal (e : Event) : Prop :=
  timed e = false /\ instrumentation.k_instrumentation_tag ∈ p_tags e.

Lemma base_internal : internal (instrumentation.base_event k_fqdn).
Proof. split; [done|by left]. Qed.

Lemma set_latencies_ok ps :
  Forall latency_ok ps ->
  exists ps' es, instrumentation.set_latencies (instrumentation.base_event k_fqdn) ps = Ok (ps', es)
  /\ ps' = (fun p => instrumentation.MkPerc (instrumentation.p_service p) (instrumentation.p_description p)
              (instrumentation.p_percentiles p) (reservoir.snapshot (instrumentation.p_reservoir p)).1) <$> ps
  /\ Forall internal es.
Proof.
  intros Hps. induction Hps as [|p ps [Hl Hp] _ (ps' & es & He & -> & Hes)]; [by exists [], []|]. cbn [instrumentation.set_latencies].
  unfold reservoir_to_events. cbn [reservoir.snapshot].
  set (base := instrumentation.named _ _ _).
  destruct (percentile_events_ok (stable_sort (reservoir.samples_ (instrumentation.p_reservoir p))) base
    (instrumentation.p_percentiles p)) as (es1 & He1 & Hin1); [by rewrite stable_sort_perm|done|].
  destruct (reservoir.samples_ (instrumentation.p_reservoir p)) as [|x l] eqn:Hsamples; [done|]. rewrite He1, He. cbn [res_map].
  eexists _, _. split; [reflexivity|]. split; [done|]. apply Forall_app. split; [|done].
  eapply Forall_impl; [|exact Hin1]. intros e (m & s & ->). exact base_internal.
Qed.

Lemma snapshot_ok nanos vm rss i :
  latencies_ok i -> exists i' es, instrumentation.snapshot k_fqdn nanos vm rss i = Ok (i', es)
  /\ Forall internal es /\ latencies_ok i'
  /\ instrumentation.latencies_ i' = (fun p => instrumentation.MkPerc (instrumentation.p_service p) (instrumentation.p_description p)
       (instrumentation.p_percentiles p) (reservoir.snapshot (instrumentation.p_reservoir p)).1) <$> instrumentation.latencies_ i.
Proof.
  intros Hi. unfold instrumentation.snapshot. destruct (set_latencies_ok _ Hi) as (ps' & es & -> & -> & Hes). cbn [instrumentation.set_rates].
  eexists _, _. split; [reflexivity|]. split; [|split; [|done]].
  - repeat (apply Forall_app; split); [|done| |repeat constructor; exact base_internal];
      apply Forall_fmap, list.Forall_forall; intros; exact base_internal.
  - apply Forall_fmap. eapply Forall_impl; [|exact Hi]. intros p [Hl Hp]. split; [|done]. apply length_replicate.
Qed.

Lemma snapshot_metered k nanos vm rss m i es :
  metered k k m -> latencies_ok (instr m) -> instrumentation.snapshot k_fqdn nanos vm rss (instr m) = Ok (i, es) ->
  metered 0 0 (set_instr i m).
Proof.
  intros [(p & Hp & [? ? ?]) (q & Hq & [? ? ?]) Hne] Hok Hs. destruct (snapshot_ok nanos vm rss (instr m) Hok) as (i' & es' & Hs' & _ & _ & Hl).
  rewrite Hs in Hs'. injection Hs' as <- <-. split; cbn; [| |done]; rewrite Hl, list_lookup_fmap, ?Hp, ?Hq; eexists; (split; [done|]);
    (split; [done|done|apply length_replicate]).
Qed.

(** *** What the reports keep *)

Lemma add_sample_length x r r' :
  reservoir.add_sample draw x r = Ok r' -> length (reservoir.samples_ r') = length (reservoir.samples_ r).
Proof.
  assert (forall k x (r r' : reservoir.t), reservoir.set_sample k x r = Ok r' ->
    length (reservoir.samples_ r') = length (reservoir.samples_ r)) as Hset.
  { intros k y r1 r2. unfold reservoir.set_sample. destruct (decide _); [|done]. intros [= <-]. apply length_insert. }
  unfold reservoir.add_sample. destruct (_ <? _); [exact (Hset _ _ (reservoir.add_n r) r')|]. destruct (_ <=? _); [done|]. destruct (_ <? _); [|by intros [= <-]].
  destruct (reservoir.set_sample _ x _) as [r1|] eqn:Hs; [|done]. intros [= <-]. exact (Hset _ _ _ _ Hs).
Qed.

Definition meters_ok (m : meters) : Prop := latencies_ok (instr m).

Lemma observe_ok id x m m' : meters_ok m -> observe draw id x m = Ok m' -> meters_ok m'.
Proof.
  unfold meters_ok, observe, instrumentation.update_latency. intros Hok. destruct (_ !! id) as [p|] eqn:Hp; [|done].
  destruct (reservoir.add_sample draw x _) as [r|] eqn:Hr; [|done]. intros [= <-]. apply add_sample_length in Hr.
  pose proof Hok as Hok'. unfold latencies_ok in Hok. rewrite Forall_lookup in Hok. destruct (Hok id p Hp) as [Hl Hps].
  apply Forall_insert; [exact Hok'|]. split; [exact (eq_trans Hr Hl)|done].
Qed.

(** The meters of a call with reports. *)
Abbreviation kept m r := (meters_ok m -> meters_ok (r : _ * meters * list effect * result unit).1.1.2).

Lemma report_push_ok now wall e s m : kept m (report_push draw duration now wall e s m).
Proof.
  intros Hm. unfold report_push. destruct (decide _); [by destruct (push_stream _ _ _) as [[? ?] ?]|].
  destruct (Event.has_time e); [|by destruct (push_stream _ _ _) as [[? ?] ?]].
  destruct (observe _ _ _ m) as [m1|] eqn:H1; [|done]. apply observe_ok in H1; [|done].
  destruct (push_stream _ _ _) as [[s' w] [[]|x]]; [|done]. cbn [took].
  destruct (observe _ _ _ _) as [m2|] eqn:H2; [|done]. by apply observe_ok in H2.
Qed.

Lemma report_slots_ok now wall e slots : forall m, kept m (report_slots draw duration now wall e slots m).
Proof.
  induction slots as [|s slots IH]; intros m Hm; [done|]. cbn [report_slots]. destruct (used s); cbn [negb].
  - pose proof (report_push_ok now wall e s m Hm) as Hp. destruct (report_push _ _ _ _ _ _ _) as [[[s' m1] w] [[]|x]]; [|done].
    specialize (IH m1 Hp). by destruct (report_slots _ _ _ _ _ _ _) as [[[? ?] ?] ?].
  - specialize (IH m Hm). by destruct (report_slots _ _ _ _ _ _ _) as [[[? ?] ?] ?].
Qed.

Lemma report_events_ok now wall es : forall s m, kept m (report_events draw duration now wall es s m).
Proof.
  induction es as [|e es IH]; intros s m Hm; [done|]. cbn [report_events].
  assert (meters_ok (report_event draw duration now wall e s m).1.1.2) as He.
  { unfold report_event. destruct (stop_ s); [done|]. pose proof (report_slots_ok now wall e (streams_ s) m Hm) as Hs.
    by destruct (report_slots _ _ _ _ _ _ _) as [[[? ?] ?] ?]. }
  destruct (report_event _ _ _ _ _ _ _) as [[[s' m1] w] [[]|x]]; [|done]. specialize (IH s' m1 He).
  by destruct (report_events _ _ _ _ _ _ _) as [[[? ?] ?] ?].
Qed.

Lemma report_message_ok now wall es s m : kept m (report_message draw duration now wall es s m).
Proof. intros Hm. unfold report_message. destruct (stop_ s); [done|]. by apply report_events_ok. Qed.

Lemma new_meters_ok start i m : latencies_ok i -> new_meters start i = Some (Ok m) -> meters_ok m.
Proof.
  intros Hi. unfold new_meters, instrumentation.add_rate, instrumentation.add_latency. destruct (decide _); [|done]. cbn.
  destruct (decide _); [|done]. destruct (decide _); [|done]. cbn. destruct (decide _); [|done].
  destruct (decide _); [|done]. intros [= <-]. repeat (apply Forall_app; split); [exact Hi| |]; (constructor; [|done]);
    (split; [apply length_replicate|repeat constructor; by vm_compute]).
Qed.

(** *** Every interval *)

Hypothesis draw_range : forall i b, 0 <= b -> 0 <= draw i b <= b.

Lemma internal_untimed es : Forall internal es -> timed_in es = 0.
Proof.
  induction 1 as [|e es [He _] _ IH]; [done|]. rewrite timed_in_cons, He, IH. done.
Qed.

Lemma report_snapshot_agrees now wall nanos vm rss s m k :
  metered k k m -> meters_ok m ->
  exists es, Forall internal es /\ let '(s', m', w, r) := report_snapshot now wall nanos vm rss s m in
    (s', w, r) = push_events now es s /\ (r = Ok () -> metered 0 0 m' /\ meters_ok m').
Proof.
  intros Hm Hok. unfold report_snapshot. destruct (snapshot_ok nanos vm rss (instr m) Hok) as (i & es & Hs & Hes & Hok' & _).
  rewrite Hs. apply (snapshot_metered k) in Hs; [|done|done]. exists es. split; [done|].
  pose proof (report_events_agree draw duration draw_range now wall es s (set_instr i m) 0 Hs) as Ha.
  pose proof (report_events_ok now wall es s (set_instr i m) Hok') as Hk. unfold agree in Ha.
  destruct (report_events _ _ _ _ _ _ _) as [[[s' m'] w] r]. cbn [fst snd] in Hk.
  rewrite (internal_untimed es Hes), Z.mul_0_r in Ha. destruct Ha as [Heq Hx]; [unfold sample_limit; lia|]. cbn in Heq, Hx.
  split; [done|]. intros Hr. destruct (Hx Hr) as [? _]. done.
Qed.

Lemma report_ops_plain os : forall s m k,
  metered k k m -> meters_ok m -> 0 <= k <= sample_limit -> within (served s) k os = true ->
  exists ess, Forall (Forall internal) ess
  /\ let '(s', m', w, r) := report_ops os s m in (s', w, r) = plain_ops os ess s.
Proof.
  induction os as [|[now wall es|now wall nanos vm rss] os IH]; intros s m k Hm Hok Hk; cbn [report_ops plain_ops within].
  { intros _. by exists []. }
  - intros [Hl Hw]%andb_true_iff. pose proof (report_message_agree draw duration draw_range now wall es s m k Hm Hk) as Ha.
    pose proof (report_message_ok now wall es s m Hok) as Hok1. unfold agree in Ha. rewrite Hl in Ha. apply Z.leb_le in Hl.
    destruct (report_message _ _ _ _ _ _ _) as [[[s1 m1] w1] r1]. destruct Ha as [Heq Hx]. cbn [fst snd] in Hok1.
    destruct (process_message now es s) as [[s0 w0] r0] eqn:Hp. injection Heq as -> -> ->.
    destruct r0 as [[]|x]; [|by exists []]. destruct (Hx eq_refl) as [Hm1 _].
    destruct (process_message_kept now es s) as [Hs _]; [by rewrite Hp|]. rewrite Hp in Hs. cbn [fst] in Hs.
    destruct (IH s0 m1 _ Hm1 Hok1) as (ess & Hin & Hr).
    { split; [|done]. pose proof (served_nonneg s). unfold timed_in. lia. }
    { by rewrite Hs. }
    exists ess. split; [done|]. destruct (report_ops os s0 m1) as [[[s2 m2] w2] r2]. by rewrite <- Hr.
  - intros Hw. destruct (report_snapshot_agrees now wall nanos vm rss s m k Hm Hok) as (es & Hes & Ha).
    destruct (report_snapshot _ _ _ _ _ _ _) as [[[s1 m1] w1] r1]. destruct Ha as [Heq Hx].
    pose proof (push_events_served now es s) as Hs. destruct (push_events now es s) as [[s0 w0] r0] eqn:Hp. cbn [fst] in Hs.
    injection Heq as -> -> ->. destruct r0 as [[]|x].
    + destruct (Hx eq_refl) as [Hm1 Hok1]. destruct (IH s0 m1 0 Hm1 Hok1) as (ess & Hin & Hr); [unfold sample_limit; lia|by rewrite Hs|].
      exists (es :: ess). split; [by constructor|]. change (default [] (head (es :: ess))) with es. rewrite Hp. cbn [tail].
      destruct (report_ops os s0 m1) as [[[s2 m2] w2] r2]. by rewrite <- Hr.
    + exists [es]. split; [by repeat constructor|]. change (default [] (head [es])) with es. by rewrite Hp.
Qed.

(** C32. With internal metrics enabled the dispatcher is defined for ever.  If no interval between two snapshots has more than
    [sample_limit] samples, about a billion, the dispatcher with its reports does what the dispatcher alone does with the same
    messages and with the events of the snapshots; these carry the tag of the instrumentation and give no samples
    themselves. *)
Theorem metrics_defined (start : Z) (i : instrumentation.t) (m : meters) (s : streams) (os : list metrics_op) :
  latencies_ok i -> new_meters start i = Some (Ok m) -> within (served s) 0 os = true ->
  exists ess, Forall (Forall internal) ess
  /\ let '(s', m', w, r) := report_ops os s m in (s', w, r) = plain_ops os ess s.
Proof.
  intros Hi Hm Hw. destruct (new_meters_metered _ _ _ Hm) as [Hmet _].
  apply (report_ops_plain os s m 0); [done|by eapply new_meters_ok|unfold sample_limit; lia|done].
Qed.
End metrics.

Lemma metrics_defined_witness :
  let os := [MMessage 7 8 [timed_event; Event.empty]; MSnapshot 10 10 5000000000 d_zero d_zero; MMessage 11 11 [timed_event]] in
  exists m ess, new_meters 0 instrumentation.new = Some (Ok m)
  /\ Forall (Forall internal) ess
  /\ let '(s', m', w, r) := report_ops (fun _ _ => 0) (fun _ => 250) "a.example" os quiet m in (s', w, r) = plain_ops os ess quiet.
Proof.
  intros os. destruct (new_meters 0 instrumentation.new) as [[m|x]|] eqn:Hm; [|discriminate Hm..].
  destruct (metrics_defined (fun _ _ => 0) (fun _ => 250) "a.example" ltac:(intros; lia) 0 instrumentation.new m quiet os) as (ess & H1 & H2);
    [constructor|exact Hm|vm_compute; reflexivity|].
  exists m, ess. split; [reflexivity|]. split; [exact H1|exact H2].
Defined.

(** ** [process_mem_usage] *)

(** [isspace] in the C locale. *)
Definition is_space (c : ascii) : bool := let n := Z.of_N (N_of_ascii c) in (n =? 32) || (9 <=? n) && (n <=? 13).
Definition dec_digit (c : ascii) : bool := let n := Z.of_N (N_of_ascii c) in (48 <=? n) && (n <=? 57).

Fixpoint span_while (p : ascii -> bool) (s : list ascii) : list ascii * list ascii :=
  match s with
  | c :: s' => if p c then let '(a, b) := span_while p s' in (c :: a, b) else ([], s)
  | [] => ([], [])
  end.

(** [>>] from a stream that has not failed: what is left of it, [None] if it has failed then. *)
Definition get_word (s : list ascii) : option (list ascii) :=
  match (span_while is_space s).2 with
  | [] => None
  | s => Some (span_while (fun c => negb (is_space c)) s).2
  end.

Definition dec_value (ds : list ascii) : Z := foldl (fun n c => n * 10 + (Z.of_N (N_of_ascii c) - 48)) 0 ds.

(** [>>] into an integer between [lo] and [hi]; [None]: the variable is not written.  A number without digits is 0, one out of
    range is the bound; both fail.  A negative number for an unsigned type is taken modulo 2^64. *)
Definition get_integer (lo hi : Z) (s : list ascii) : option (Z * option (list ascii)) :=
  match (span_while is_space s).2 with
  | [] => None
  | c :: s' =>
      let neg := bool_decide (c = "-"%char) in
      let s := if neg || bool_decide (c = "+"%char) then s' else c :: s' in
      let '(ds, rest) := span_while dec_digit s in
      let v := dec_value ds in
      let v := if neg then - v else v in
      if bool_decide (ds = []) then Some (0, None)
      else if (lo =? 0) && neg then if v <? - hi then Some (hi, None) else Some (v mod two64, Some rest)
      else if v <? lo then Some (lo, None) else if hi <? v then Some (hi, None) else Some (v, Some rest)
  end.

Fixpoint get_words (n : nat) (s : list ascii) : option (list ascii) :=
  match n with O => Some s | S n' => s ← get_word s; get_words n' s end.

(** The contents of the file, [None] if it cannot be opened.  A number that was not read is not initialised; the product is a
    [long]. *)
Definition process_mem_usage (page_size : Z) (stat : option (list ascii)) : result (double * double) :=
  match
    s ← stat;
    s ← get_words 22 s;
    '(vsize, s) ← get_integer 0 (two64 - 1) s;
    s ← s;
    '(rss, _) ← get_integer (- 2 ^ 63) (2 ^ 63 - 1) s;
    Some (vsize, rss * (page_size ÷ 1024))
  with
  | None => Throw undefined_behaviour
  | Some (vsize, kb) =>
      if (- 2 ^ 63 <=? kb) && (kb <? 2 ^ 63) then Ok (d_div (d_of_Z vsize) (d_of_Z 1024), d_of_Z kb)
      else Throw undefined_behaviour
  end.

(** *** A line of the expected form *)

Definition word (w : list ascii) : Prop := w <> [] /\ Forall (fun c => is_space c = false) w.
Definition number (ds : list ascii) : Prop := ds <> [] /\ Forall (fun c => dec_digit c = true) ds.
Definition ends_word (rest : list ascii) : Prop := match rest with [] => True | c :: _ => is_space c = true end.

Lemma digit_not_space c : dec_digit c = true -> is_space c = false /\ c <> "-"%char /\ c <> "+"%char.
Proof. revert c. intros [[] [] [] [] [] [] [] []]; by vm_compute. Qed.

Lemma number_word ds : number ds -> word ds.
Proof. intros [Hne Hd]. split; [done|]. eapply Forall_impl; [|exact Hd]. intros c Hc. by apply digit_not_space. Qed.

Lemma span_while_stop (p : ascii -> bool) u rest :
  Forall (fun c => p c = true) u -> match rest with [] => True | c :: _ => p c = false end -> span_while p (u ++ rest) = (u, rest).
Proof.
  intros Hu Hr. induction Hu as [|c u Hc _ IH]; cbn [app span_while].
  - destruct rest as [|c rest]; [done|]. cbn. by rewrite Hr.
  - by rewrite Hc, IH.
Qed.

Lemma get_word_spec sp w rest :
  Forall (fun c => is_space c = true) sp -> word w -> ends_word rest -> get_word (sp ++ w ++ rest) = Some rest.
Proof.
  intros Hsp [Hne Hw] Hr. unfold get_word. destruct w as [|c w]; [done|]. rewrite (span_while_stop is_space sp ((c :: w) ++ rest) Hsp).
  2: { cbn. by inversion Hw. }
  cbn [snd app]. change (c :: w ++ rest) with ((c :: w) ++ rest). rewrite (span_while_stop _ (c :: w) rest); [done| |].
  - eapply Forall_impl; [|exact Hw]. intros d Hd. cbn. by rewrite Hd.
  - destruct rest as [|d rest]; [done|]. cbn in *. by rewrite Hr.
Qed.

Lemma get_integer_spec lo hi sp ds rest :
  Forall (fun c => is_space c = true) sp -> number ds -> ends_word rest -> lo <= dec_value ds <= hi ->
  get_integer lo hi (sp ++ ds ++ rest) = Some (dec_value ds, Some rest).
Proof.
  intros Hsp Hn Hr Hv. pose proof Hn as [Hne Hd]. unfold get_integer. destruct ds as [|c ds]; [done|].
  apply list.Forall_cons in Hd as Hd'. destruct Hd' as [Hc _]. destruct (digit_not_space c Hc) as (Hs & Hm & Hp).
  rewrite (span_while_stop is_space sp ((c :: ds) ++ rest) Hsp) by done. cbn [snd app].
  rewrite !bool_decide_eq_false_2 by done. cbn [orb]. change (c :: ds ++ rest) with ((c :: ds) ++ rest).
  rewrite (span_while_stop dec_digit (c :: ds) rest) by (done || (destruct rest as [|d rest]; [done|]; cbn in Hr |- *;
    destruct (dec_digit d) eqn:He; [by apply digit_not_space in He as [? _]; congruence|done])).
  rewrite bool_decide_eq_false_2, andb_false_r by done. by rewrite (proj2 (Z.ltb_ge _ lo)), (proj2 (Z.ltb_ge hi _)) by lia.
Qed.

Definition blank : ascii := " "%char.

Lemma get_words_spec ws rest :
  Forall word ws -> get_words (length ws) (blank :: (ws ≫= (fun w => w ++ [blank])) ++ rest) = Some (blank :: rest).
Proof.
  induction 1 as [|w ws Hw _ IH]; [done|]. cbn [length get_words]. rewrite bind_cons, <- !app_assoc.
  change (blank :: ?x) with ([blank] ++ x) at 1. rewrite (get_word_spec [blank]); [|by repeat constructor|done|done].
  cbn [mbind option_bind]. exact IH.
Qed.

(** A line with 22 fields, the size and the pages, separated by blanks, gives the memory in kilobytes.  (A first blank
    makes no difference.) *)
Lemma mem_usage_read page_size ws v r rest :
  length ws = 22%nat -> Forall word ws -> number v -> number r -> ends_word rest ->
  dec_value v < two64 -> 0 <= dec_value v -> 0 <= dec_value r < 2 ^ 63 -> 0 <= dec_value r * (page_size ÷ 1024) < 2 ^ 63 ->
  process_mem_usage page_size (Some (blank :: (ws ≫= (fun w => w ++ [blank])) ++ v ++ blank :: r ++ rest))
  = Ok (d_div (d_of_Z (dec_value v)) (d_of_Z 1024), d_of_Z (dec_value r * (page_size ÷ 1024))).
Proof.
  intros Hl Hws Hv Hr Hrest Hv1 Hv0 Hr1 Hp. unfold process_mem_usage. cbn [mbind option_bind].
  pose proof (get_words_spec ws (v ++ blank :: r ++ rest) Hws) as Hw. rewrite Hl in Hw. rewrite Hw. cbn [mbind option_bind].
  change (blank :: v ++ ?x) with ([blank] ++ v ++ x). rewrite (get_integer_spec 0 (two64 - 1) [blank]);
    [|by repeat constructor|done|done|lia]. cbn [mbind option_bind].
  change (blank :: r ++ rest) with ([blank] ++ r ++ rest). rewrite (get_integer_spec _ _ [blank]);
    [|by repeat constructor|done|done|lia]. cbn [mbind option_bind].
  by rewrite (proj2 (Z.leb_le _ _)), (proj2 (Z.ltb_lt _ _)) by lia.
Qed.

(** A process name with a blank shifts the fields: the start time is taken for the size, and the size for the pages.  Without the file
    nothing is read. *)
Example mem_usage_shifted :
  let stat comm := Some (String.list_ascii_of_string
    ("7 (" +:+ comm +:+ ") S 1 7 7 0 -1 4194560 0 0 0 0 1 2 0 0 20 0 9 0 5555 204800 30 18446744073709551615")) in
  process_mem_usage 4096 (stat "cavalieri") = Ok (d_of_Z 200, d_of_Z 120)
  /\ process_mem_usage 4096 (stat "my server") = Ok (d_of_ratio 5555 1024, d_of_Z 819200)
  /\ process_mem_usage 4096 None = Throw undefined_behaviour.
Proof. split_and!; vm_compute; reflexivity. Qed.
