(* ===== verification/External.v ===== *)
(** * External services

    What is sent to graphite ([src/external/graphite_pool.cpp]), by mail
    ([mailer_pool.cpp]) and to pagerduty ([pagerduty_pool.cpp]), the object that the
    streams call ([real_external.cpp]) and the one of the rule tester
    ([mock_external.cpp]).  libcurl and JsonCpp are outside: a request is the list of the
    options that are set, and the text of a JSON object is a parameter. *)

From stdpp Require Import pretty.
From S2P Require Import Prelude Ieee Events Codec Instrumentation.

Local Open Scope Z_scope.

(** ** Graphite *)

Definition k_newline : ascii := "010".

(** [boost::replace_all_copy] with a pattern of one character. *)
Fixpoint replace_all (from to : ascii) (s : string) : string :=
  match s with
  | EmptyString => EmptyString
  | String c s' => String (if decide (c = from) then to else c) (replace_all from to s')
  end.

Definition escape (str : string) : string := replace_all " " "-" (replace_all "." "-" str).

Definition graphite_line (e : Event) : string :=
  Event.host e +:+ "." +:+ escape (Event.service e) +:+ " "
  +:+ Event.metric_to_str e +:+ " " +:+ pretty (Event.time e) +:+ String k_newline "".

Definition graphite_output_events (events : list Event) : list ascii :=
  chars (foldl (fun sstream e => sstream +:+ graphite_line e) "" events).

(** ** Mail *)

Record mailer_extra : Type := MkMail { server : string; from : string; to : list string }.

(** [payload_t]: the text and how much of it has been copied. *)
Definition payload_t : Type := list ascii * nat.

(** The callback that libcurl takes the text from: what it copies. *)
Definition payload_source (size nmemb : Z) (p : payload_t) : payload_t * list ascii :=
  let '(data, copied) := p in
  let room := (size * nmemb) mod two64 in
  if (size =? 0) || (nmemb =? 0) || (room <? 1) then (p, [])
  else
    let left := Z.of_nat (length data) - Z.of_nat copied in
    let to_copy := Z.to_nat (Z.min room left) in
    if (0 <? to_copy)%nat then ((data, (copied + to_copy)%nat), take to_copy (drop copied data))
    else (p, []).

Section text.
Variable toStyledString : gmap string jvalue -> string.

Definition k_crlf : string := String "013" (String k_newline "").

Definition payload_text (extra : mailer_extra) (e : Event) : list ascii :=
  let to_ := match to extra with t :: _ => t | [] => "unknown" end in
  let subject := Event.host e +:+ " " +:+ Event.service e +:+ " is " +:+ Event.state e in
  let subject :=
    if Event.has_metric e then subject +:+ " (" +:+ Event.metric_to_str e +:+ ")" else subject in
  chars ("To: " +:+ to_ +:+ k_crlf +:+ "From: " +:+ from extra +:+ k_crlf
         +:+ "Subject: " +:+ subject +:+ k_crlf +:+ k_crlf +:+ json_str toStyledString e).

(** The options of a mail. *)
Record mail_request : Type := MkMailRequest {
  m_url : string; m_from : string; m_rcpt : list string; m_payload : payload_t
}.

Definition mail_event (extra : mailer_extra) (e : Event) : mail_request :=
  MkMailRequest ("smtp://" +:+ server extra) (from extra) (to extra) (payload_text extra e, 0%nat).

(** ** Pagerduty *)

Inductive pd_action : Type := trigger | acknowledge | resolve.

#[export] Instance pd_action_eq_dec : EqDecision pd_action.
Proof. solve_decision. Defined.

Definition pd_action_to_string (action : pd_action) : string :=
  match action with trigger => "trigger" | acknowledge => "acknowledge" | resolve => "resolve" end.

Definition k_pd_url : string := "https://events.pagerduty.com/generic/2010-04-15/create_event.json".

Definition pd_json (action : pd_action) (pg_key : string) (e : Event) : gmap string jvalue :=
  let desc := Event.host e +:+ " " +:+ Event.service e +:+ " is " +:+ Event.state e
              +:+ "(" +:+ Event.metric_to_str e +:+ ")" in
  <["details" := JString (json_str toStyledString e)]>
  (<["description" := JString desc]>
  (<["event_type" := JString (pd_action_to_string action)]>
  (<["service_key" := JString pg_key]>
  (<["incident_key" := JString (Event.host e +:+ "/" +:+ Event.service e)]> ∅)))).

(** The URL and the body of the request. *)
Definition pd_event (action : pd_action) (pg_key : string) (e : Event) : string * string :=
  (k_pd_url, toStyledString (pd_json action pg_key e)).
End text.

(** ** [real_external] *)

(** A call of one of the pools. *)
Inductive pool_call : Type :=
| PForward (server : string) (port : Z) (e : Event)
| PGraphite (server : string) (port : Z) (e : Event)
| PPagerduty (action : pd_action) (pg_key : string) (e : Event)
| PEmail (server from : string) (to : list string) (e : Event).

Module real_external.
Definition k_forward_id : nat := 0.
Definition k_graphite_id : nat := 1.
Definition k_pagerduty_id : nat := 2.
Definition k_email_id : nat := 3.

(** The object, with what it reaches: the instrumentation and the calls of its pools. *)
Record t : Type := Mk {
  instr : instrumentation.t;
  rates_ : list nat;
  calls : list pool_call
}.

Definition push_rate (now : Z) (service description : string) (x : t) : option t :=
  match instrumentation.add_rate now service description (instr x) with
  | Some (id, i) => Some (Mk i (rates_ x ++ [id]) (calls x))
  | None => None
  end.

(** [None]: there is no room for the rates. *)
Definition new (now : Z) (i : instrumentation.t) : option t :=
  x ← push_rate now "forward" "forward rate" (Mk i [] []);
  x ← push_rate now "graphite" "graphite rate" x;
  x ← push_rate now "pagerduty" "pagerduty rate" x;
  push_rate now "email" "email rate" x.

(** [rates_[id](1)]. *)
Definition tick (id : nat) (x : t) : result t :=
  match rates_ x !! id with
  | Some r => Ok (Mk (instrumentation.update_rate r 1 (instr x)) (rates_ x) (calls x))
  | None => Throw undefined_behaviour
  end.

Definition call (c : pool_call) (id : nat) (x : t) : result t :=
  tick id (Mk (instr x) (rates_ x) (calls x ++ [c])).

Definition forward (server : string) (port : Z) (e : Event) : t -> result t :=
  call (PForward server port e) k_forward_id.
Definition graphite (server : string) (port : Z) (e : Event) : t -> result t :=
  call (PGraphite server port e) k_graphite_id.
Definition pager_duty_trigger (pg_key : string) (e : Event) : t -> result t :=
  call (PPagerduty trigger pg_key e) k_pagerduty_id.
Definition pager_duty_resolve (pg_key : string) (e : Event) : t -> result t :=
  call (PPagerduty resolve pg_key e) k_pagerduty_id.
Definition pager_duty_acknowledge (pg_key : string) (e : Event) : t -> result t :=
  call (PPagerduty acknowledge pg_key e) k_pagerduty_id.
Definition email (server from : string) (to : list string) (e : Event) : t -> result t :=
  call (PEmail server from to e) k_email_id.
End real_external.

(** ** [mock_external] *)

Module mock_external.
Record external_event_t : Type := MkCall {
  external_method : string; message : string; extra : string; time : Z; e : Event
}.

Definition add_call (now : Z) (method message : string) (e : Event) (calls : list external_event_t)
  : list external_event_t :=
  calls ++ [MkCall method message "" now e].

Definition forward (now : Z) (server : string) (port : Z) (e : Event) :=
  add_call now "forward" ("forward event to " +:+ server) e.
Definition graphite (now : Z) (server : string) (port : Z) (e : Event) :=
  add_call now "graphite" ("send event to " +:+ server) e.
Definition pager_duty_trigger (now : Z) (pg_key : string) (e : Event) :=
  add_call now "pagerduty" ("trigger pagerduty for key " +:+ pg_key) e.
Definition pager_duty_resolve (now : Z) (pg_key : string) (e : Event) :=
  add_call now "pagerduty" ("resolve pagerduty for key " +:+ pg_key) e.
Definition pager_duty_acknowledge (now : Z) (pg_key : string) (e : Event) :=
  add_call now "pagerduty" ("acknowledge pagerduty for key " +:+ pg_key) e.
(** The recipients are not part of the message. *)
Definition email (now : Z) (server from : string) (to : list string) (e : Event) :=
  add_call now "email" ("send email from " +:+ from +:+ " to ") e.
End mock_external.

(** ** Text *)

Lemma chars_app a b : chars (a +:+ b) = chars a ++ chars b.
Proof. induction a as [|c a IH]; simpl; [done|]. by f_equal. Qed.

Lemma chars_replace_all x y s :
  chars (replace_all x y s) = (fun c => if decide (c = x) then y else c) <$> chars s.
Proof. induction s as [|c s IH]; simpl; [done|]. by rewrite IH. Qed.

Lemma replace_all_gone x y s : x <> y -> (x ∉ chars (replace_all x y s)).
Proof.
  intros Hxy. rewrite chars_replace_all. intros (c & Hc & _)%list_elem_of_fmap.
  by case_decide.
Qed.

Lemma replace_all_keeps x y z s :
  z <> y -> (z ∉ chars s) -> (z ∉ chars (replace_all x y s)).
Proof.
  intros Hzy Hz. rewrite chars_replace_all. intros (c & Hc & Hin)%list_elem_of_fmap.
  case_decide; congruence.
Qed.

Lemma escape_chars s : (" "%char ∉ chars (escape s)) /\ ("."%char ∉ chars (escape s)).
Proof.
  unfold escape. split; [by apply replace_all_gone|].
  apply replace_all_keeps; [done|]. by apply replace_all_gone.
Qed.

(** Numbers are printed without blanks. *)
Definition printed (s : string) : Prop := Forall (fun c => c <> " "%char /\ c <> k_newline) (chars s).

Lemma printed_app a b : printed a -> printed b -> printed (a +:+ b).
Proof. unfold printed. rewrite chars_app. apply Forall_app_2. Qed.

Lemma pretty_N_printed (n : N) : printed (pretty n).
Proof.
  assert (forall n s, printed s -> printed (pretty_N_go n s)) as Hgo.
  { intros m. induction (N.lt_wf_0 m) as [m _ IH]. intros s Hs.
    destruct (decide (m = 0)%N) as [->|Hm]; [by rewrite pretty_N_go_0|].
    rewrite pretty_N_go_step by lia. apply IH; [apply N.div_lt; lia|].
    apply Forall_cons_2; [|done]. unfold pretty_N_char.
    by repeat case_match. }
  unfold pretty, pretty_N. case_decide; [by repeat constructor|]. apply Hgo. constructor.
Qed.

Lemma pretty_Z_printed (z : Z) : printed (pretty z).
Proof.
  destruct z; [apply (pretty_N_printed 0)|apply (pretty_N_printed (N.pos p))|].
  apply (printed_app "-" (pretty (N.pos p))); [by repeat constructor|apply pretty_N_printed].
Qed.

Lemma digits_printed k n : printed (digits k n).
Proof.
  revert n. induction k as [|k IH]; intros n; simpl; [constructor|].
  apply printed_app; [apply IH|apply pretty_Z_printed].
Qed.

Lemma d_to_string_printed x : printed (d_to_string x).
Proof.
  unfold d_to_string.
  assert (forall s : bool, printed (if s then "-" else "")) as Hsign by (intros []; by repeat constructor).
  destruct x; repeat apply printed_app;
    by first [apply Hsign|apply pretty_Z_printed|apply digits_printed|repeat constructor].
Qed.

Lemma metric_to_str_printed e : printed (Event.metric_to_str e).
Proof.
  unfold Event.metric_to_str.
  destruct (Event.has_metric e); [apply d_to_string_printed|by repeat constructor].
Qed.

(** ** What graphite reads *)

(** The pieces of a text between the characters [c]. *)
Fixpoint pieces (c : ascii) (l : list ascii) : list (list ascii) :=
  match l with
  | [] => [[]]
  | x :: l' =>
      if decide (x = c) then [] :: pieces c l'
      else match pieces c l' with p :: ps => (x :: p) :: ps | [] => [[x]] end
  end.

Lemma pieces_none c a : (c ∉ a) -> pieces c a = [a].
Proof.
  induction a as [|x a IH]; intros Hc; simpl; [done|].
  apply not_elem_of_cons in Hc as [Hx Hc]. by rewrite decide_False, IH.
Qed.

Lemma pieces_sep c a l : pieces c (a ++ c :: l) = pieces c a ++ pieces c l.
Proof.
  induction a as [|x a IH]; simpl; [by rewrite decide_True|]. rewrite IH.
  case_decide; [done|]. destruct (pieces c a) eqn:Hp; [|done].
  destruct a as [|y a]; simpl in Hp; [done|]. by repeat case_match.
Qed.

Lemma pieces_app c a l : (c ∉ a) -> pieces c (a ++ c :: l) = a :: pieces c l.
Proof. intros Hc. by rewrite pieces_sep, (pieces_none c a). Qed.

Lemma printed_not s : printed s -> (" "%char ∉ chars s) /\ (k_newline ∉ chars s).
Proof.
  unfold printed. rewrite list.Forall_forall.
  intros H. split; intros Hin; by destruct (H _ Hin).
Qed.

(** The name of a metric: the host, which may have dots, and the service. *)
Definition graphite_path (e : Event) : list ascii :=
  chars (Event.host e) ++ "."%char :: chars (escape (Event.service e)).

Definition graphite_ok (e : Event) : Prop :=
  (" "%char ∉ chars (Event.host e)) /\ (k_newline ∉ chars (Event.host e))
  /\ (k_newline ∉ chars (Event.service e)).

Lemma graphite_line_chars e :
  chars (graphite_line e)
  = (graphite_path e ++ " "%char :: chars (Event.metric_to_str e)
     ++ " "%char :: chars (pretty (Event.time e))) ++ [k_newline].
Proof.
  unfold graphite_line, graphite_path. rewrite !chars_app, <- !app_assoc. cbn [app].
  by rewrite <- !app_assoc.
Qed.

Lemma graphite_fields e :
  graphite_ok e ->
  let line := graphite_path e ++ " "%char :: chars (Event.metric_to_str e)
              ++ " "%char :: chars (pretty (Event.time e)) in
  (k_newline ∉ line)
  /\ pieces " " line = [graphite_path e; chars (Event.metric_to_str e); chars (pretty (Event.time e))].
Proof.
  intros (Hb & Hn & Hs). cbv zeta.
  destruct (printed_not _ (metric_to_str_printed e)) as [Hmb Hmn].
  destruct (printed_not _ (pretty_Z_printed (Event.time e))) as [Htb Htn].
  destruct (escape_chars (Event.service e)) as [Heb _].
  assert (k_newline ∉ chars (escape (Event.service e))) as Hen
    by (unfold escape; by do 2 (apply replace_all_keeps; [done|])).
  split.
  - unfold graphite_path. rewrite !elem_of_app, !elem_of_cons, !elem_of_app, !elem_of_cons.
    intros [[?|[?|?]]|[?|[?|[?|?]]]]; done.
  - rewrite pieces_app, pieces_app, pieces_none; [done|done|done|].
    unfold graphite_path. rewrite !elem_of_app, !elem_of_cons. intros [?|[?|?]]; done.
Qed.

Lemma graphite_output_lines es : graphite_output_events es = es ≫= (fun e => chars (graphite_line e)).
Proof.
  assert (forall s, chars (foldl (fun ss e => ss +:+ graphite_line e) s es)
    = chars s ++ (es ≫= (fun e => chars (graphite_line e)))) as H; [|apply H].
  induction es as [|e es IH]; intros s; simpl; [by rewrite app_nil_r|]. by rewrite IH, chars_app, <- app_assoc.
Qed.

(** What is sent to graphite has one line per event, in order, of three fields: the path, the
    metric and the time; the last component of the path is the service with its dots and
    blanks replaced, whatever the service is.  Hosts must not have blanks, and neither
    hosts nor services ends of lines: these are not replaced. *)
Theorem graphite_lines (es : list Event) :
  Forall graphite_ok es ->
  pieces " " <$> pieces k_newline (graphite_output_events es)
  = ((fun e => [graphite_path e; chars (Event.metric_to_str e); chars (pretty (Event.time e))]) <$> es)
    ++ [[[]]]
  /\ Forall (fun e => list.last (pieces "." (graphite_path e))
                      = Some (chars (escape (Event.service e)))) es.
Proof.
  intros Hes. split.
  - rewrite graphite_output_lines. induction Hes as [|e es He Hes IH]; [done|].
    destruct (graphite_fields e He) as [Hn Hf].
    rewrite bind_cons, graphite_line_chars, <- app_assoc. cbn [app].
    rewrite pieces_app, !fmap_cons, Hf, IH by done. done.
  - apply list.Forall_forall. intros e _. unfold graphite_path.
    destruct (escape_chars (Event.service e)) as [_ Hd].
    by rewrite pieces_sep, (pieces_none _ _ Hd), last_snoc.
Qed.

Lemma graphite_lines_witness :
  let e := Event.set_time 7 (Event.set_metric_d (d_of_Z 3)
    (Event.set_service "disk /var.log" (Event.set_host "db1.site" Event.empty))) in
  pieces " " <$> pieces k_newline (graphite_output_events [e; e])
  = (let l := [chars "db1.site.disk-/var-log"; chars "3.000000"; chars "7"] in [l; l]) ++ [[[]]].
Proof.
  cbv zeta. apply graphite_lines. repeat constructor; by_decide.
Defined.

(** ** The text of a mail *)

(** What libcurl has got after some calls. *)
Fixpoint pull (calls : list (Z * Z)) (p : payload_t) : payload_t * list (list ascii) :=
  match calls with
  | [] => (p, [])
  | (size, nmemb) :: calls' =>
      let '(p, chunk) := payload_source size nmemb p in
      let '(p, chunks) := pull calls' p in (p, chunk :: chunks)
  end.

Definition room (c : Z * Z) : Z := c.1 * c.2.
Abbreviation rooms calls := (foldr (fun c n => room c + n) 0 calls).

Lemma payload_source_spec size nmemb data copied :
  1 <= size * nmemb < two64 -> (copied <= length data)%nat ->
  let n := Nat.min (Z.to_nat (size * nmemb)) (length data - copied) in
  payload_source size nmemb (data, copied)
  = ((data, (copied + n)%nat), take n (drop copied data)).
Proof.
  intros Hr Hc. cbv zeta. unfold payload_source.
  rewrite Z.mod_small by lia.
  rewrite (proj2 (Z.eqb_neq size 0)), (proj2 (Z.eqb_neq nmemb 0)) by (intros ->; lia).
  rewrite (proj2 (Z.ltb_ge _ _)) by lia. cbn [orb].
  replace (Z.to_nat (Z.min (size * nmemb) (Z.of_nat (length data) - Z.of_nat copied)))
    with (Nat.min (Z.to_nat (size * nmemb)) (length data - copied)) by lia.
  destruct (0 <? _)%nat eqn:Hn; [done|]. apply Nat.ltb_ge in Hn.
  replace (Nat.min _ _) with 0%nat by lia. by rewrite Nat.add_0_r.
Qed.

Lemma pull_spec calls data copied :
  Forall (fun c => 1 <= room c < two64) calls -> (copied <= length data)%nat ->
  let n := Nat.min (Z.to_nat (rooms calls)) (length data - copied) in
  exists chunks, pull calls (data, copied) = ((data, (copied + n)%nat), chunks)
  /\ concat chunks = take n (drop copied data)
  /\ Forall2 (fun c chunk => (Z.of_nat (length chunk) <= room c)) calls chunks.
Proof.
  intros Hcalls. revert copied. induction Hcalls as [|[size nmemb] calls Hr Hcalls IH];
    intros copied Hc; cbv zeta; cbn [pull foldr].
  - exists []. cbn [Z.to_nat Nat.min]. by rewrite Nat.add_0_r.
  - unfold room in Hr. cbn [fst snd] in Hr. rewrite payload_source_spec by done.
    assert (0 <= rooms calls) as Hpos.
    { clear -Hcalls. induction Hcalls; simpl; lia. }
    change (room (size, nmemb)) with (size * nmemb).
    set (n := Nat.min (Z.to_nat (size * nmemb)) _).
    destruct (IH (copied + n)%nat) as (chunks & -> & Hcat & Hall); [lia|].
    exists (take n (drop copied data) :: chunks).
    replace (Nat.min (Z.to_nat (size * nmemb + rooms calls)) (length data - copied))
      with (n + Nat.min (Z.to_nat (rooms calls)) (length data - (copied + n)))%nat by lia.
    split; [by rewrite Nat.add_assoc|]. split.
    + cbn [concat]. by rewrite Hcat, <- drop_drop, take_take_drop.
    + constructor; [|done]. unfold room. cbn [fst snd]. rewrite length_take. lia.
Qed.

(** libcurl gets the text of a mail piece by piece, whatever room it offers: no piece is larger
    than the room, the pieces are the text from its start without gaps or repetitions,
    and once there was room for all of it the text is complete and the next call
    returns nothing, which ends the upload. *)
Theorem payload_uploaded (text : list ascii) (calls : list (Z * Z)) :
  Forall (fun c => 1 <= room c < two64) calls ->
  exists p chunks, pull calls (text, 0%nat) = (p, chunks)
  /\ concat chunks = take (Z.to_nat (rooms calls)) text
  /\ Forall2 (fun c chunk => Z.of_nat (length chunk) <= room c) calls chunks
  /\ (Z.of_nat (length text) <= rooms calls ->
      concat chunks = text
      /\ forall size nmemb, payload_source size nmemb p = (p, [])).
Proof.
  intros Hcalls. destruct (pull_spec calls text 0 Hcalls) as (chunks & Hpull & Hcat & Hall); [lia|].
  rewrite Nat.sub_0_r, drop_0 in *. cbn [Nat.add] in Hpull.
  eexists _, chunks. split; [exact Hpull|]. rewrite Hcat. split; [|split; [done|]].
  - destruct (decide (Z.to_nat (rooms calls) <= length text)%nat);
      [by rewrite Nat.min_l|by rewrite Nat.min_r, !take_ge by lia].
  - intros Hlen. rewrite take_ge by lia. split; [done|]. intros size nmemb. unfold payload_source.
    case_match; [done|]. by replace (Z.to_nat (Z.min _ _)) with 0%nat by lia.
Qed.

Lemma payload_uploaded_witness :
  exists p chunks, pull [(1, 3); (1, 1); (2, 4)] (chars "hello world", 0%nat) = (p, chunks)
  /\ concat chunks = chars "hello world".
Proof.
  destruct (payload_uploaded (chars "hello world") [(1, 3); (1, 1); (2, 4)])
    as (p & chunks & Hp & _ & _ & H); [by_decide|].
  exists p, chunks. split; [done|]. by apply H.
Defined.

(** ** The rates of the calls *)

(** The operation that makes a call. *)
Definition do_call (c : pool_call) (x : real_external.t) : result real_external.t :=
  match c with
  | PForward server port e => real_external.forward server port e x
  | PGraphite server port e => real_external.graphite server port e x
  | PPagerduty trigger key e => real_external.pager_duty_trigger key e x
  | PPagerduty resolve key e => real_external.pager_duty_resolve key e x
  | PPagerduty acknowledge key e => real_external.pager_duty_acknowledge key e x
  | PEmail server from to e => real_external.email server from to e x
  end.

Fixpoint do_calls (cs : list pool_call) (x : real_external.t) : result real_external.t :=
  match cs with
  | [] => Ok x
  | c :: cs' => res_bind (do_calls cs') (do_call c x)
  end.

(** The rates by their position, and the one a call counts for. *)
Definition services : list string := ["forward"; "graphite"; "pagerduty"; "email"].
Definition call_id (c : pool_call) : nat :=
  match c with PForward _ _ _ => 0 | PGraphite _ _ _ => 1 | PPagerduty _ _ _ => 2 | PEmail _ _ _ _ => 3 end.
Definition count_calls (id : nat) (cs : list pool_call) : Z :=
  Z.of_nat (length (filter (fun c => call_id c = id) cs)).

Section rates.
Variable now : Z.
Variable i : instrumentation.t.

Definition rate_entry (cs : list pool_call) (id : nat) (service : string) : instrumentation.rate_conf_t :=
  instrumentation.MkRate service (service +:+ " rate") (rate.Mk (wrap32 (count_calls id cs)) now).

(** The object after the calls [cs]. *)
Definition after (cs : list pool_call) : real_external.t :=
  let n := length (instrumentation.rates_ i) in
  real_external.Mk
    (instrumentation.Mk (instrumentation.rates_ i ++ imap (rate_entry cs) services)
       (instrumentation.latencies_ i) (instrumentation.gauges_ i))
    [n; n + 1; n + 2; n + 3]%nat cs.

Lemma new_after x : real_external.new now i = Some x -> x = after [].
Proof.
  unfold real_external.new, real_external.push_rate, instrumentation.add_rate.
  intros H. repeat (case_decide; [|done]).
  cbn [mbind option_bind real_external.instr real_external.rates_ instrumentation.rates_] in H.
  repeat (case_decide; [|done]; cbn in H). injection H as <-.
  unfold after. rewrite !length_app. cbn [length imap]. rewrite <- !app_assoc.
  by rewrite <- !Nat.add_assoc.
Qed.

Abbreviation add_tick := (fun r => instrumentation.MkRate (instrumentation.r_service r)
  (instrumentation.r_description r) (rate.add 1 (instrumentation.r_rate r))).

Lemma entries_tick cs c :
  alter add_tick (call_id c) (imap (rate_entry cs) services)
  = imap (rate_entry (cs ++ [c])) services.
Proof.
  assert (forall id service, rate_entry (cs ++ [c]) id service
    = if decide (call_id c = id) then add_tick (rate_entry cs id service)
      else rate_entry cs id service) as He.
  { intros id service. unfold rate_entry, count_calls, rate.add, wrap32. cbn.
    rewrite list.filter_app, length_app, filter_cons, filter_nil.
    case_decide; cbn [length]; [|by rewrite Nat.add_0_r].
    by rewrite Zplus_mod_idemp_l, Nat2Z.inj_add. }
  cbn [imap services compose]. rewrite !He. by destruct c.
Qed.

Lemma do_call_after cs c : do_call c (after cs) = Ok (after (cs ++ [c])).
Proof.
  unfold after at 2. rewrite <- entries_tick, <- alter_app_r.
  destruct c as [| |[] key e|]; cbn [call_id]; try rewrite Nat.add_0_r; reflexivity.
Qed.

Lemma do_calls_after cs cs0 : do_calls cs (after cs0) = Ok (after (cs0 ++ cs)).
Proof.
  revert cs0. induction cs as [|c cs IH]; intros cs0; cbn [do_calls]; [by rewrite app_nil_r|].
  rewrite do_call_after. cbn [res_bind]. by rewrite IH, <- app_assoc.
Qed.
End rates.

(** Every call of the external interface reaches the pool it is for, in order, and counts one
    in the rate of its service and in no other, among those of the instrumentation:
    after any calls the four rates stand at the number of calls of their service modulo
    2^32, and the rates, latencies and gauges that were there before are as they were. *)
Theorem real_external_calls (now : Z) (i : instrumentation.t) (x : real_external.t)
    (cs : list pool_call) :
  real_external.new now i = Some x ->
  exists x', do_calls cs x = Ok x' /\ real_external.calls x' = cs
  /\ instrumentation.rates_ (real_external.instr x') = instrumentation.rates_ i
       ++ imap (fun id service => instrumentation.MkRate service (service +:+ " rate")
                  (rate.Mk (count_calls id cs mod 2 ^ 32) now)) services
  /\ instrumentation.latencies_ (real_external.instr x') = instrumentation.latencies_ i
  /\ instrumentation.gauges_ (real_external.instr x') = instrumentation.gauges_ i.
Proof.
  intros ->%new_after. rewrite do_calls_after. by eexists.
Qed.

Lemma real_external_calls_witness :
  exists x x', real_external.new 5 instrumentation.new = Some x
  /\ do_calls [PGraphite "g" 2003 Event.empty; PPagerduty resolve "k" Event.empty;
               PGraphite "h" 2003 Event.empty] x = Ok x'
  /\ (fun r => rate.counter_ (instrumentation.r_rate r)) <$>
       instrumentation.rates_ (real_external.instr x') = [0; 2; 1; 0].
Proof.
  destruct (real_external.new 5 instrumentation.new) as [x|] eqn:Hx; [|discriminate Hx].
  destruct (real_external_calls 5 instrumentation.new x
    [PGraphite "g" 2003 Event.empty; PPagerduty resolve "k" Event.empty;
     PGraphite "h" 2003 Event.empty] Hx) as (x' & Hd & _ & Hr & _).
  exists x, x'. split; [done|]. split; [done|]. by rewrite Hr.
Defined.
