(* ===== verification/System.v ===== *)
(** * From messages to queries

    What the rules ask of the core is done: the stream of a library calls [g_core->idx()] and
    [g_core->externals()] ([src/streams/stream_functions.cpp]), the index gives its expired events back to the
    dispatcher ([push_event_fn_], set by [real_core] in [src/core/real_core.cpp]) and tells the
    subscriber of its topic what happens.  [Dispatch], [Index] and [External] are the parts.

    A message goes through the dispatcher in one step, and what its rules asked for is done in that
    order; the steps of the thread that expires events come in between messages. *)

From S2P Require Import Prelude Containers Events Infra Predicates Streams Dispatch Instrumentation External Index.

Local Open Scope Z_scope.

Section system.
Context {U : Type -> Type} `{UnorderedMap U}.
Variable hash_fn : string -> nat.

(** The parts; what was published, and what the rules have asked for. *)
Record system : Type := MkSystem {
  rules_ : streams;
  index_ : real_index.t U;
  externals_ : real_external.t;
  published : list Event;
  asked : list effect
}.
Definition system_new (s : streams) (x : real_external.t) : system := MkSystem s real_index.new x [] [].

Definition set_rules (s : streams) (y : system) : system :=
  MkSystem s (index_ y) (externals_ y) (published y) (asked y).
Definition set_index (i : real_index.t U) (y : system) : system :=
  MkSystem (rules_ y) i (externals_ y) (published y) (asked y).
Definition publish (e : Event) (y : system) : system :=
  MkSystem (rules_ y) (index_ y) (externals_ y) (published y ++ [e]) (asked y).

(** The call of the external interface, if it is one. *)
Definition call_of (x : effect) : option pool_call :=
  match x with
  | EGraphite host port e => Some (PGraphite host port e)
  | EForward host port e => Some (PForward host port e)
  | EEmail server from to e => Some (PEmail server from to e)
  | EPagerduty action key e =>
      Some (PPagerduty (if decide (action = "trigger") then trigger
                        else if decide (action = "resolve") then resolve else acknowledge) key e)
  | EPrn _ _ | EIndex _ | EAddPeriodicTask _ _ => None
  end.

(** Tasks go to the scheduler, which is not part of this. *)
Definition perform (x : effect) (y : system) : result system :=
  let y := MkSystem (rules_ y) (index_ y) (externals_ y) (published y) (asked y ++ [x]) in
  match x with
  | EIndex e =>
      let '(i, out) := real_index.add_event hash_fn e (index_ y) in
      Ok (foldl (fun y o => match o with Publish e => publish e y | _ => y end) (set_index i y) out)
  | _ =>
      match call_of x with
      | Some c => res_map (fun ex => MkSystem (rules_ y) (index_ y) ex (published y) (asked y)) (do_call c (externals_ y))
      | None => Ok y
      end
  end.
Fixpoint perform_all (xs : list effect) (y : system) : result system :=
  match xs with [] => Ok y | x :: xs' => res_bind (perform_all xs') (perform x y) end.

Definition finish (r : streams * list effect * result unit) (y : system) : result system :=
  match r with
  | (s, w, Ok ()) => perform_all w (set_rules s y)
  | (_, _, Throw x) => Throw x
  end.

(** What the index puts out; the gauges are not looked at. *)
Fixpoint deliver (now : clock) (out : list index_out) (y : system) : result system :=
  match out with
  | [] => Ok y
  | Publish e :: out' => deliver now out' (publish e y)
  | PushEvent e :: out' => res_bind (deliver now out') (finish (streams_push_event now e (rules_ y)) y)
  | PreGauge _ :: out' | PostGauge _ :: out' => deliver now out' y
  end.

Inductive system_op : Type :=
| Message (now : clock) (events : list Event)
| Timer (now : clock)
| Next
| Report (now : clock).

Definition system_step (o : system_op) (y : system) : result system :=
  match o with
  | Message now events => finish (process_message now events (rules_ y)) y
  | Timer now => let '(i, out) := real_index.timer_cb now (index_ y) in deliver now out (set_index i y)
  | Next => let '(i, out) := real_index.expire_next (index_ y) in deliver 0 out (set_index i y)
  | Report now => let '(i, out) := real_index.expire_report (index_ y) in deliver now out (set_index i y)
  end.
Fixpoint system_run (os : list system_op) (y : system) : result system :=
  match os with [] => Ok y | o :: os' => res_bind (system_run os') (system_step o y) end.
End system.
Arguments system : clear implicits.

(** ** What is asked for is done *)

Section done.
Context {U : Type -> Type} `{UnorderedMap U}.
Variable hash_fn : string -> nat.
Variable start : Z.
Variable i : instrumentation.t.

Definition indexed (x : effect) : option Event := match x with EIndex e => Some e | _ => None end.
Definition added_by (o : real_index.op) : option Event := match o with real_index.AddEvent e => Some e | _ => None end.

(** The external services have got the calls that were asked for, in order, and the index is where the additions that were
    asked for, in order, and the steps of its thread lead. *)
Definition performed (y : system U) : Prop :=
  externals_ y = after start i (omap call_of (asked y))
  /\ exists log, index_ y = (real_index.run hash_fn log real_index.new).1 /\ omap added_by log = omap indexed (asked y).

Lemma run_snoc o : forall log (s : real_index.t U),
  (real_index.run hash_fn (log ++ [o]) s).1 = (real_index.step hash_fn o (real_index.run hash_fn log s).1).1.
Proof.
  induction log as [|o' log IH]; intros s; cbn [app real_index.run].
  - destruct (real_index.step hash_fn o s) as [s1 out] eqn:Hs. cbn. by rewrite Hs.
  - destruct (real_index.step hash_fn o' s) as [s1 out]. specialize (IH s1).
    destruct (real_index.run hash_fn (log ++ [o]) s1) as [s2 out2], (real_index.run hash_fn log s1) as [s3 out3]. done.
Qed.

(** An operation of the index, and what the rules ask for with it. *)
Lemma index_step_performed o xs y :
  performed y -> externals_ y = after start i (omap call_of (asked y ++ xs)) ->
  omap indexed xs = omap added_by [o] ->
  performed (MkSystem (rules_ y) (real_index.step hash_fn o (index_ y)).1 (externals_ y) (published y) (asked y ++ xs)).
Proof.
  intros (_ & log & Hl & Ha) Hc Ho. split; [done|]. cbn. exists (log ++ [o]).
  by rewrite run_snoc, <- Hl, !omap_app, Ha, Ho.
Qed.

Lemma perform_done x y : performed y -> exists y', perform hash_fn x y = Ok y' /\ performed y' /\ rules_ y' = rules_ y.
Proof.
  unfold perform. intros Hy. pose proof Hy as (Hc & log & Hl & Ha). destruct x.
  2: { eexists. split; [reflexivity|]. split; [|done]. apply (index_step_performed (real_index.AddEvent e) [EIndex e] y Hy); [|done].
       by rewrite omap_app, app_nil_r. }
  1, 6: eexists; split; [reflexivity|]; split; [|done]; split; cbn; [by rewrite omap_app, app_nil_r|];
    exists log; by rewrite omap_app, app_nil_r.
  all: cbn [call_of externals_]; rewrite Hc, do_call_after; eexists; split; [reflexivity|]; split; [|done]; split; cbn;
    [by rewrite omap_app|]; exists log; by rewrite omap_app, app_nil_r.
Qed.

Lemma perform_all_done xs : forall y, performed y ->
  exists y', perform_all hash_fn xs y = Ok y' /\ performed y' /\ rules_ y' = rules_ y.
Proof.
  induction xs as [|x xs IH]; intros y Hy; cbn [perform_all]; [by exists y|].
  destruct (perform_done x y Hy) as (y1 & -> & Hy1 & Hr1). cbn [res_bind].
  destruct (IH y1 Hy1) as (y2 & -> & Hy2 & Hr2). exists y2. split; [done|]. split; [done|congruence].
Qed.

(** Only a library whose behaviour is undefined ends the process. *)
Definition safe (r : result (system U)) : Prop :=
  match r with Ok y => performed y | Throw x => x = undefined_behaviour end.

Lemma finish_done r y : performed y -> caught r.2 -> safe (finish hash_fn r y).
Proof.
  destruct r as [[s w] x]. cbn. intros Hy [-> | ->]; [|done].
  destruct (perform_all_done w (set_rules s y)) as (y' & -> & Hy' & _); [exact Hy|done].
Qed.

Lemma push_event_caught now e s : caught (streams_push_event now e s).2.
Proof.
  unfold streams_push_event. destruct (stop_ s); [by left|]. pose proof (push_slots_caught now e (streams_ s)).
  by destruct (push_slots _ _ _) as [[? ?] ?].
Qed.

Lemma deliver_done now out : forall y, performed y -> safe (deliver hash_fn now out y).
Proof.
  induction out as [|[e|e|n|n] out IH]; intros y Hy; cbn [deliver]; try done; try (apply IH; exact Hy).
  pose proof (finish_done (streams_push_event now e (rules_ y)) y Hy (push_event_caught _ _ _)) as Hf.
  destruct (finish hash_fn _ y) as [y1|x]; cbn [res_bind]; [by apply IH|done].
Qed.

Lemma step_done o y : performed y -> safe (system_step hash_fn o y).
Proof.
  intros Hy. assert (forall now o out, (real_index.step hash_fn o (index_ y)).2 = out -> omap added_by [o] = [] ->
    safe (deliver hash_fn now out (set_index (real_index.step hash_fn o (index_ y)).1 y))) as Hgo.
  { intros now o' out _ Ho. apply deliver_done.
    pose proof (index_step_performed o' [] y) as Hp. rewrite !app_nil_r in Hp. apply Hp; [done|by destruct Hy|done]. }
  destruct o as [now es|now| |now]; cbn [system_step].
  - apply finish_done; [done|]. unfold process_message. destruct (stop_ (rules_ y)); [by left|apply push_events_caught].
  - specialize (Hgo now (real_index.TimerCb now) _ eq_refl eq_refl). cbn [real_index.step] in Hgo.
    by destruct (real_index.timer_cb now (index_ y)) as [j out].
  - specialize (Hgo 0 real_index.ExpireNext _ eq_refl eq_refl). cbn [real_index.step] in Hgo.
    by destruct (real_index.expire_next (index_ y)) as [j out].
  - specialize (Hgo now real_index.ExpireReport _ eq_refl eq_refl). cbn [real_index.step] in Hgo.
    by destruct (real_index.expire_report (index_ y)) as [j out].
Qed.

Lemma run_done os : forall y, performed y -> safe (system_run hash_fn os y).
Proof.
  induction os as [|o os IH]; intros y Hy; cbn [system_run]; [done|].
  pose proof (step_done o y Hy) as Hs. destruct (system_step hash_fn o y) as [y1|x]; [by apply IH|done].
Qed.

(** Whatever the rules are, and however messages and the steps of the expiring thread come: what the rules ask for
    is done, in order.  The external services get the calls, each counted in its rate, and the index is
    where the additions and the steps of its thread lead; nothing but undefined behaviour of a rule ends the process. *)
Theorem requests_performed (s : streams) (x : real_external.t) (os : list system_op) :
  real_external.new start i = Some x ->
  match system_run hash_fn os (system_new s x) with
  | Ok y =>
      real_external.calls (externals_ y) = omap call_of (asked y)
      /\ instrumentation.rates_ (real_external.instr (externals_ y)) = instrumentation.rates_ i
           ++ imap (fun id service => instrumentation.MkRate service (service +:+ " rate")
                      (rate.Mk (wrap32 (count_calls id (omap call_of (asked y)))) start)) services
      /\ exists log, index_ y = (real_index.run hash_fn log real_index.new).1 /\ omap added_by log = omap indexed (asked y)
  | Throw z => z = undefined_behaviour
  end.
Proof.
  intros ->%new_after. assert (performed (system_new s (after start i []))) as Hy by (split; [done|by exists []]).
  pose proof (run_done os _ Hy) as Hr. destruct (system_run hash_fn os _) as [y|z]; [|done].
  destruct Hr as [-> Hlog]. done.
Qed.
End done.

(** ** A library that indexes *)

(** The rules: one library with [send_index()]. *)
Definition index_slot : stream_lib :=
  let c := init_streams fns.send_index in MkSlot "index.so" 0 true (Some (MkLoaded c (chain_init 0 c 0).1)) true.
Definition indexing : streams := MkStreams [index_slot] false.

(** What that means for the index, message by message. *)
Definition additions (now : clock) (e : Event) : list Event :=
  let e := stamp now e in if predicates.expired now e then [] else [e].
Definition index_ops (o : system_op) : list real_index.op :=
  match o with
  | Message now es => real_index.AddEvent <$> (es ≫= additions now)
  | Timer now => [real_index.TimerCb now]
  | Next => [real_index.ExpireNext]
  | Report _ => [real_index.ExpireReport]
  end.
(** The events that an operation puts into the index. *)
Definition indexed_by (o : system_op) : list Event :=
  match o with Message now es => es ≫= additions now | _ => [] end.

Lemma indexing_push now e :
  streams_push_event now e indexing = (indexing, EIndex <$> additions now e, Ok ()).
Proof.
  unfold additions. assert (push_stream now (stamp now e) index_slot
    = (index_slot, if predicates.expired now (stamp now e) then [] else [EIndex (stamp now e)], Ok ())) as Hp.
  { unfold push_stream. cbn. unfold bind, on_fst, below, ask. by destruct (predicates.expired now (stamp now e)). }
  unfold streams_push_event. cbn [stop_ indexing streams_ push_slots]. change (used index_slot) with true. cbn [negb].
  rewrite Hp. by destruct (predicates.expired now (stamp now e)).
Qed.

Lemma indexing_events now es :
  push_events now es indexing = (indexing, EIndex <$> (es ≫= additions now), Ok ()).
Proof.
  induction es as [|e es IH]; [done|]. cbn [push_events]. rewrite indexing_push, IH. by rewrite bind_cons, fmap_app.
Qed.

Section indexing.
Context {U : Type -> Type} `{UnorderedMapLaws U}.
Variable hash_fn : string -> nat.

Abbreviation index_run := (real_index.run (U := U) hash_fn).

Lemma index_run_app os os' : forall s, (index_run (os ++ os') s).1 = (index_run os' (index_run os s).1).1.
Proof.
  induction os as [|o os IH]; intros s; [done|]. cbn [app real_index.run].
  destruct (real_index.step hash_fn o s) as [s1 out]. specialize (IH s1).
  destruct (index_run (os ++ os') s1) as [s2 out2], (index_run os s1) as [s3 out3]. done.
Qed.

Lemma perform_additions l : forall y : system U,
  exists y', perform_all hash_fn (EIndex <$> l) y = Ok y' /\ rules_ y' = rules_ y
  /\ index_ y' = (index_run (real_index.AddEvent <$> l) (index_ y)).1 /\ asked y' = asked y ++ (EIndex <$> l).
Proof.
  induction l as [|e l IH]; intros y; [exists y; by rewrite app_nil_r|]. rewrite !fmap_cons. cbn [perform_all perform real_index.add_event foldl res_bind].
  match goal with |- context [perform_all _ _ ?y1] => destruct (IH y1) as (y' & -> & Hr & Hi & Ha) end.
  exists y'. split; [done|]. split; [done|]. split; [|rewrite Ha; cbn; by rewrite <- app_assoc].
  rewrite Hi. cbn [real_index.run real_index.step real_index.add_event].
  cbn [index_ set_index publish]. by destruct (index_run _ _).
Qed.

(** An expiry notice is not indexed. *)
Lemma notices_ignored now out : forall y : system U,
  rules_ y = indexing -> Forall (fun o => match o with PushEvent e => Event.state e = "expired" | _ => True end) out ->
  exists y', deliver hash_fn now out y = Ok y' /\ rules_ y' = indexing /\ index_ y' = index_ y /\ asked y' = asked y.
Proof.
  induction out as [|o out IH]; intros y Hy Hout; cbn [deliver]; [by exists y|].
  apply list.Forall_cons in Hout as [Ho Hout]. destruct o as [e|e|n|n];
    [exact (IH (publish e y) Hy Hout)| |exact (IH y Hy Hout)..].
  rewrite Hy, indexing_push. assert (additions now e = []) as ->.
  { assert (stamp now e = e) as Hs by (unfold stamp; by destruct (decide _)). unfold additions, predicates.expired.
    rewrite Hs. by destruct (decide _). }
  cbn [fmap list_fmap finish perform_all res_bind]. apply (IH (set_rules indexing y)); done.
Qed.

Lemma indexing_step o (y : system U) :
  rules_ y = indexing ->
  exists y', system_step hash_fn o y = Ok y' /\ rules_ y' = indexing /\ index_ y' = (index_run (index_ops o) (index_ y)).1
  /\ asked y' = asked y ++ (EIndex <$> indexed_by o).
Proof.
  intros Hy. destruct o as [now es|now| |now]; cbn [system_step index_ops indexed_by].
  2-4: change (EIndex <$> []) with (@nil effect); rewrite app_nil_r.
  - rewrite Hy. unfold process_message. cbn [stop_ indexing]. rewrite indexing_events. cbn [finish].
    destruct (perform_additions (es ≫= additions now) (set_rules indexing y)) as (y' & Hp & Hr & Hi). by exists y'.
  - cbn [real_index.run real_index.step]. destruct (real_index.timer_cb now (index_ y)) as [j out] eqn:Ht.
    assert (out = []) as -> by (unfold real_index.timer_cb in Ht; by destruct (real_index.expiring_ _); injection Ht as _ <-).
    by eexists.
  - cbn [real_index.run real_index.step]. destruct (real_index.expire_next (index_ y)) as [j out] eqn:Ht.
    assert (out = []) as ->; [|by eexists]. unfold real_index.expire_next in Ht. repeat case_match; by injection Ht as _ <-.
  - cbn [real_index.run real_index.step]. destruct (real_index.expire_report (index_ y)) as [j out] eqn:Ht. cbn [fst].
    destruct (notices_ignored now out (set_index j y)) as (y' & Hd & Hr & Hi & Ha); [done| |by exists y'].
    unfold real_index.expire_report in Ht. repeat case_match; injection Ht as _ <-; [|done|done].
    constructor; [done|]. constructor; [done|]. apply list.Forall_forall. intros o Ho.
    apply list_elem_of_bind in Ho as (e' & Ho & _). cbn in Ho. apply elem_of_cons in Ho as [->|Ho]; [done|].
    by apply list_elem_of_singleton in Ho as ->.
Qed.

Lemma indexing_run os : forall y : system U, rules_ y = indexing ->
  exists y', system_run hash_fn os y = Ok y' /\ index_ y' = (index_run (os ≫= index_ops) (index_ y)).1
  /\ asked y' = asked y ++ (EIndex <$> (os ≫= indexed_by)).
Proof.
  induction os as [|o os IH]; intros y Hy; cbn [system_run]; [exists y; by rewrite app_nil_r|].
  destruct (indexing_step o y Hy) as (y1 & -> & Hr1 & Hi1 & Ha1). cbn [res_bind].
  destruct (IH y1 Hr1) as (y2 & -> & Hi2 & Ha2). exists y2. split; [done|].
  by rewrite !bind_cons, index_run_app, <- Hi1, fmap_app, app_assoc, <- Ha1.
Qed.

(** C4. From messages to queries.  With a library that indexes what it gets, and messages and the steps of the thread
    that expires events in any order, the process goes on, and a query finds events without duplicates: each
    matches and is the latest of its key among the events of the messages (stamped with the time of their arrival if they have
    none, and not expired then) that the thread has not taken out since; and it finds all of those unless it was cut off. *)
Theorem messages_found (x : real_external.t) (os : list system_op) (match_fn : Event -> bool) (max_matches : nat) :
  exists y, system_run hash_fn os (system_new indexing x) = Ok y
  /\ let r := real_index.query_index match_fn max_matches (index_ y) in
     NoDup r
     /\ (forall e, e ∈ r -> match_fn e = true /\ latest hash_fn (index_key e) (os ≫= index_ops) = Some e)
     /\ (max_matches = 0%nat \/ (length r < max_matches)%nat ->
         forall k e, latest hash_fn k (os ≫= index_ops) = Some e -> match_fn e = true -> e ∈ r).
Proof.
  destruct (indexing_run os (system_new indexing x) eq_refl) as (y & Hy & Hi & _). exists y. split; [done|]. cbv zeta.
  rewrite Hi. cbn [index_ system_new].
  destruct (query_latest (U := U) hash_fn (os ≫= index_ops) match_fn max_matches) as (Hnd & Hall & _ & Hin). auto.
Qed.
End indexing.

(** ** Runs *)

Definition fresh_external : real_external.t := default (real_external.Mk instrumentation.new [] []) (real_external.new 0 instrumentation.new).
Definition full_pass (now : clock) : list system_op := Timer now :: replicate k_indexes Next ++ [Report now].

(** Of three events, one is replaced and one expires. *)
Lemma messages_found_witness :
  let a := index_event "a" 1 120 in
  let a' := index_event "a" 3 120 in
  let b := index_event "b" 1 10 in
  let os := [Message 2 [a; b]; Message 4 [a']] ++ full_pass 50 in
  exists y, system_run String.length os (system_new (U := hash_map) indexing fresh_external) = Ok y
  /\ real_index.query_index (fun _ => true) 10 (index_ y) = [a']
  /\ latest String.length (index_key a') (os ≫= index_ops) = Some a'.
Proof.
  intros a a' b os.
  destruct (messages_found (U := hash_map) String.length fresh_external os (fun _ => true) 10) as (y & Hy & _ & Hall & _).
  exists y. split; [done|]. assert (res_map (fun y => real_index.query_index (fun _ => true) 10 (index_ y))
    (system_run String.length os (system_new (U := hash_map) indexing fresh_external)) = Ok [a']) as Hq by (vm_compute; reflexivity).
  rewrite Hy in Hq. assert (real_index.query_index (fun _ => true) 10 (index_ y) = [a']) as Hq' by (by injection Hq).
  split; [exact Hq'|]. apply Hall. rewrite Hq'. left.
Defined.

(** An event without a ttl counts as expired in the index as soon as its time is in the past, although the rules take it to
    have 60 seconds: it is indexed and lost with the next pass. *)
Example no_ttl_lost :
  let e := Event.set_time 100 (Event.set_host "a" Event.empty) in
  predicates.expired 101 e = false
  /\ res_map (fun y => (real_index.query_index (fun _ => true) 10 (index_ y), published y))
       (system_run String.length (Message 100 [e] :: full_pass 101) (system_new (U := hash_map) indexing fresh_external))
     = Ok ([], [e; Event.set_state "expired" e]).
Proof. split; vm_compute; reflexivity. Qed.
