(* ===== verification/TcpPool.v ===== *)
(** * Pools of connections

    [src/transport/tcp_pool.cpp]: descriptors handed to the loops of a thread pool, and the
    map of connections of every loop.  Who uses a pool gives it functions for a new
    connection, for a connection that is ready and for a signal; here they are variables of a
    section, on the state of a loop, which has room for what the user keeps for it.
    Also what the pools of this development share. *)

From S2P Require Import Prelude Events Tcp.

Local Open Scope Z_scope.

(** [std::unordered_map::insert]: an entry that is there stays. *)
Definition insert_new {A} (k : Z) (v : A) (m : gmap Z A) : gmap Z A :=
  match m !! k with Some _ => m | None => <[k := v]> m end.

Lemma insert_new_fresh {A} k (v : A) m : m !! k = None -> insert_new k v m = <[k := v]> m.
Proof. unfold insert_new. by intros ->. Qed.

(** What loop [i] has put out. *)
Definition outs_of {A} (i : nat) (outs : list (nat * A)) : list A :=
  (filter (fun x => x.1 = i) outs).*2.

Lemma outs_of_app {A} i (a b : list (nat * A)) : outs_of i (a ++ b) = outs_of i a ++ outs_of i b.
Proof. unfold outs_of. by rewrite list.filter_app, fmap_app. Qed.

Lemma outs_of_pair {A} i j (out : list A) :
  outs_of i (pair j <$> out) = if decide (i = j) then out else [].
Proof.
  unfold outs_of. induction out as [|o out IH]; csimpl; [by case_decide|].
  rewrite filter_cons. cbn [fst]. repeat case_decide; subst; try done; csimpl; by rewrite IH.
Qed.

(** A descriptor that is ready: [real_async_fd::error], and for reading and writing what
    the system call will return. *)
Record fd_ready : Type := MkReady {
  ready_error : bool;
  ready_read : option (option (list Z));
  ready_write : option (option nat)
}.

Module tcp_pool.
Section pool.
Context {B : Type} `{CircularBuffer B}.
(** What the user of the pool keeps for a loop, and what it puts out. *)
Context {U O : Type}.

(** What belongs to a loop: its entry of [new_fds_] and of [conn_maps_], the [fds_] of the event
    loop, and whether a signal is pending. *)
Record loop_t : Type := MkLoop {
  signalled : bool;
  new_fds : list Z;
  fds : gmap Z fd_mode;
  conn_map : gmap Z (tcp_connection.t B);
  user : U
}.

Record t : Type := Mk { loops : list loop_t; next_thread_ : nat }.

Definition new (thread_num : nat) (u : U) : t :=
  Mk (replicate thread_num (MkLoop false [] ∅ ∅ u)) 0.

Definition signal_thread (l : loop_t) : loop_t :=
  MkLoop true (new_fds l) (fds l) (conn_map l) (user l).
Definition signal_threads (p : t) : t := Mk (signal_thread <$> loops p) (next_thread_ p).

(** [async_thread_pool::next_thread]. *)
Definition next_thread (p : t) : nat := ((next_thread_ p + 1) mod length (loops p))%nat.

(** [add_client(loop_id, fd)] and [add_client(fd)]. *)
Definition add_client_to (fd : Z) (l : loop_t) : loop_t :=
  signal_thread (MkLoop (signalled l) (new_fds l ++ [fd]) (fds l) (conn_map l) (user l)).
Definition add_client (fd : Z) (p : t) : t :=
  let i := next_thread p in Mk (alter (add_client_to fd) i (loops p)) i.

Definition add_client_sync (fd : Z) (l : loop_t) : loop_t :=
  MkLoop (signalled l) (new_fds l) (insert_new fd mode_none (fds l))
    (insert_new fd tcp_connection.new (conn_map l)) (user l).

Definition remove_client_sync (fd : Z) (l : loop_t) : result loop_t :=
  match conn_map l !! fd with
  | None => Throw (user_exception "CHECK")
  | Some _ => Ok (MkLoop (signalled l) (new_fds l) (delete fd (fds l)) (delete fd (conn_map l)) (user l))
  end.

(** [real_async_loop::set_fd_mode]: undefined if there is no such descriptor. *)
Definition set_fd_mode (fd : Z) (mode : fd_mode) (l : loop_t) : result loop_t :=
  match fds l !! fd with
  | Some _ => Ok (MkLoop (signalled l) (new_fds l) (<[fd := mode]> (fds l)) (conn_map l) (user l))
  | None => Throw undefined_behaviour
  end.

Variable tcp_create_conn_fn_ : Z -> U -> U * list O.
Variable tcp_ready_fn_ : fd_ready -> Z -> loop_t -> result (loop_t * list O).
Variable async_fn_ : loop_t -> result (loop_t * list O).

Definition add_fd (fd : Z) (l : loop_t) : loop_t * list O :=
  let '(u, out) := tcp_create_conn_fn_ fd (user l) in
  (MkLoop (signalled l) (new_fds l) (insert_new fd mode_read (fds l))
     (insert_new fd tcp_connection.new (conn_map l)) u, out).

Fixpoint add_each (new : list Z) (l : loop_t) : loop_t * list O :=
  match new with
  | [] => (l, [])
  | fd :: new' =>
      let '(l, out) := add_fd fd l in
      let '(l, out') := add_each new' l in (l, out ++ out')
  end.

Definition add_fds (l : loop_t) : loop_t * list O :=
  add_each (new_fds l) (MkLoop (signalled l) [] (fds l) (conn_map l) (user l)).

(** The hook for a signal, which is no longer pending. *)
Definition async_hook (l : loop_t) : result (loop_t * list O) :=
  let '(l, out) := add_fds (MkLoop false (new_fds l) (fds l) (conn_map l) (user l)) in
  res_map (fun '(l, out') => (l, out ++ out')) (async_fn_ l).

(** The connection is found, told, and removed if it is to be closed. *)
Definition socket_callback (r : fd_ready) (fd : Z) (l : loop_t) : result (loop_t * list O) :=
  match conn_map l !! fd with
  | None => Throw (user_exception "CHECK")
  | Some _ =>
      res_bind (fun '(l, out) =>
          match conn_map l !! fd with
          | None => Throw undefined_behaviour
          | Some conn =>
              if tcp_connection.close_connection conn then
                Ok (MkLoop (signalled l) (new_fds l) (delete fd (fds l)) (delete fd (conn_map l)) (user l),
                    out)
              else Ok (l, out)
          end)
        (tcp_ready_fn_ r fd l)
  end.

(** A function on the state of loop [i]. *)
Definition on_loop (i : nat) (f : loop_t -> result (loop_t * list O)) (p : t)
  : result (t * list (nat * O)) :=
  match loops p !! i with
  | None => Ok (p, [])
  | Some l =>
      res_map (fun '(l, out) => (Mk (<[i := l]> (loops p)) (next_thread_ p), pair i <$> out)) (f l)
  end.
End pool.
Arguments t : clear implicits.
Arguments loop_t : clear implicits.
End tcp_pool.
