(* ===== verification/AsyncLoop.v ===== *)
(** * Event loops

    [src/async/real_async_loop.cpp] beside its timers (see [Timers]): the descriptors that a loop
    watches and their callbacks, the signals between threads, the vector of loops of a pool, and the
    main loop with its listening sockets, its periodic tasks and the signals of the process.  The
    watchers of libev are a parameter, with what its manual says of them. *)

From S2P Require Import Prelude Events Tcp TcpPool.

Local Open Scope Z_scope.

(** ** libev *)

(** Watchers for descriptors, [ev::io]: started with a descriptor and a set of events, given another
    set of events, stopped; [io_watch] is what a watcher waits for while it is active. *)
Class EvIo (W : Type) := {
  io_new : W;
  io_start : Z -> Z -> W -> W;
  io_set : Z -> W -> W;
  io_stop : W -> W;
  io_watch : W -> option (Z * Z)
}.
Class EvIoLaws (W : Type) `{EvIo W} : Prop := {
  io_watch_start : forall fd ev (w : W), io_watch (io_start fd ev w) = Some (fd, ev);
  io_watch_set : forall ev (w : W), io_watch (io_set ev w) = (fun x => (x.1, ev)) <$> io_watch w
}.

(** Watchers for signals, [ev::sig]: one that is started again waits for the new signal. *)
Class EvSig (W : Type) := {
  sig_new : W;
  sig_start : Z -> W -> W;
  sig_watch : W -> option Z
}.
Class EvSigLaws (W : Type) `{EvSig W} : Prop := {
  sig_watch_new : sig_watch (sig_new : W) = None;
  sig_watch_start : forall n (w : W), sig_watch (sig_start n w) = Some n
}.

(** Watchers that are what they wait for. *)
#[export] Instance plain_io : EvIo (option (Z * Z)) := {|
  io_new := None;
  io_start fd ev _ := Some (fd, ev);
  io_set ev w := (fun x => (x.1, ev)) <$> w;
  io_stop _ := None;
  io_watch w := w
|}.
#[export] Instance plain_io_laws : EvIoLaws (option (Z * Z)).
Proof. by split. Qed.
#[export] Instance plain_sig : EvSig (option Z) := {|
  sig_new := None; sig_start n _ := Some n; sig_watch w := w
|}.
#[export] Instance plain_sig_laws : EvSigLaws (option Z).
Proof. by split. Qed.

Definition EV_READ : Z := 1.
Definition EV_WRITE : Z := 2.
Definition EV_ERROR : Z := 2 ^ 31.

Definition ev_mode (initial_mode : fd_mode) : Z :=
  let mode := 0 in
  let mode := if decide (initial_mode = mode_read) then Z.lor mode EV_READ else mode in
  let mode := if decide (initial_mode = mode_write) then Z.lor mode EV_WRITE else mode in
  if decide (initial_mode = mode_readwrite) then Z.lor mode (Z.lor EV_WRITE EV_READ) else mode.

(** ** Descriptors *)

Module real_async_fds.
Section fds.
(** Watchers, and the names of callbacks. *)
Context {W C : Type} `{EvIo W}.

(** [real_async_fd]. *)
Record fd_t : Type := MkFd {
  fd_ : Z;
  io_ : W;
  error_ : bool;
  read_ : bool;
  write_ : bool;
  fd_cb_fn_ : C
}.

Definition new_fd (fd : Z) (initial_mode : fd_mode) (cb : C) : fd_t :=
  MkFd fd (io_start fd (ev_mode initial_mode) io_new) false false false cb.
Definition set_mode (mode : fd_mode) (f : fd_t) : fd_t :=
  MkFd (fd_ f) (io_set (ev_mode mode) (io_ f)) (error_ f) (read_ f) (write_ f) (fd_cb_fn_ f).

(** [real_async_loop]: its descriptors, the calls of [close] so far, whether the callback for signals
    is set, whether [async_.send()] has been called since it ran, whether the loop is to stop and
    whether it has been left. *)
Record loop_t : Type := MkLoop {
  id_ : nat;
  stop_ : bool;
  has_async_cb : bool;
  sent : bool;
  unlooped : bool;
  fds_ : gmap Z fd_t;
  closed : list Z
}.
Definition new_loop : loop_t := MkLoop 0 false false false false ∅ [].
Definition with_fds (fds : gmap Z fd_t) (closed : list Z) (l : loop_t) : loop_t :=
  MkLoop (id_ l) (stop_ l) (has_async_cb l) (sent l) (unlooped l) fds closed.

Definition set_id (id : nat) (l : loop_t) : loop_t :=
  MkLoop id (stop_ l) (has_async_cb l) (sent l) (unlooped l) (fds_ l) (closed l).
Definition set_async_cb (l : loop_t) : loop_t :=
  MkLoop (id_ l) (stop_ l) true (sent l) (unlooped l) (fds_ l) (closed l).
Definition signal (l : loop_t) : loop_t :=
  MkLoop (id_ l) (stop_ l) (has_async_cb l) true (unlooped l) (fds_ l) (closed l).
Definition stop (l : loop_t) : loop_t :=
  MkLoop (id_ l) true (has_async_cb l) true (unlooped l) (fds_ l) (closed l).

(** [~real_async_fd] closes the descriptor. *)
Definition destroy (f : fd_t) (l : loop_t) : loop_t := with_fds (fds_ l) (closed l ++ [fd_ f]) l.

(** If the descriptor is there, [insert] fails and the new object is destroyed. *)
Definition add_fd (fd : Z) (mode : fd_mode) (cb : C) (l : loop_t) : loop_t :=
  let f := new_fd fd mode cb in
  match fds_ l !! fd with
  | Some _ => destroy f l
  | None => with_fds (<[fd := f]> (fds_ l)) (closed l) l
  end.
Definition remove_fd (fd : Z) (l : loop_t) : loop_t :=
  match fds_ l !! fd with
  | Some f => destroy f (with_fds (delete fd (fds_ l)) (closed l) l)
  | None => l
  end.
(** [it->second] of the end of the map is undefined. *)
Definition set_fd_mode (fd : Z) (mode : fd_mode) (l : loop_t) : result loop_t :=
  match fds_ l !! fd with
  | Some f => Ok (with_fds (<[fd := set_mode mode f]> (fds_ l)) (closed l) l)
  | None => Throw undefined_behaviour
  end.

(** [real_async_fd::stop]. *)
Definition stop_fd (f : fd_t) (l : loop_t) : loop_t := remove_fd (fd_ f) l.

(** [real_async_fd::async_cb]: the flags, and the callback that is called with them. *)
Definition has_bit (revents bit : Z) : bool := negb (Z.land bit revents =? 0).
Definition set_ready (revents : Z) (f : fd_t) : fd_t :=
  MkFd (fd_ f) (io_ f) (has_bit revents EV_ERROR) (has_bit revents EV_READ) (has_bit revents EV_WRITE)
    (fd_cb_fn_ f).
(** What a callback can ask: [fd], [error], [ready_read] and [ready_write]. *)
Record view : Type := MkView { v_fd : Z; v_error : bool; v_ready_read : bool; v_ready_write : bool }.
Definition view_of (f : fd_t) : view := MkView (fd_ f) (error_ f) (read_ f) (write_ f).
Definition async_cb (fd revents : Z) (l : loop_t) : loop_t * list (C * view) :=
  match fds_ l !! fd with
  | Some f =>
      let f := set_ready revents f in
      (with_fds (<[fd := f]> (fds_ l)) (closed l) l, [(fd_cb_fn_ f, view_of f)])
  | None => (l, [])
  end.

(** [async_callback]: the loop, and whether the callback of the loop is called. *)
Definition async_callback (l : loop_t) : result (loop_t * bool) :=
  let l := MkLoop (id_ l) (stop_ l) (has_async_cb l) false (unlooped l) (fds_ l) (closed l) in
  if negb (stop_ l) then
    if has_async_cb l then Ok (l, true) else Throw (user_exception "CHECK")
  else Ok (MkLoop (id_ l) (stop_ l) (has_async_cb l) false true (fds_ l) (closed l), false).

(** ** What a loop is asked to do, and what it is woken up for *)

Inductive op : Type :=
| AddFd (fd : Z) (mode : fd_mode) (cb : C)
| RemoveFd (fd : Z)
| SetFdMode (fd : Z) (mode : fd_mode)
| Ready (fd revents : Z)
| Signal
| Stop.

(** libev calls a watcher for events that it waits for; or it reports an error. *)
Definition asked (l : loop_t) (fd revents : Z) : bool :=
  match fds_ l !! fd with
  | Some f => match io_watch (io_ f) with
              | Some (_, ev) => revents =? Z.land revents (Z.lor ev EV_ERROR)
              | None => false
              end
  | None => false
  end.

Definition step (o : op) (l : loop_t) : result (loop_t * list (C * view)) :=
  match o with
  | AddFd fd mode cb => Ok (add_fd fd mode cb l, [])
  | RemoveFd fd => Ok (remove_fd fd l, [])
  | SetFdMode fd mode => res_map (fun l => (l, [])) (set_fd_mode fd mode l)
  | Ready fd revents => Ok (if asked l fd revents then async_cb fd revents l else (l, []))
  | Signal => Ok (signal l, [])
  | Stop => Ok (stop l, [])
  end.
Fixpoint run (os : list op) (l : loop_t) : result (loop_t * list (C * view)) :=
  match os with
  | [] => Ok (l, [])
  | o :: os' => res_bind (fun '(l, out) => res_map (fun '(l, out') => (l, out ++ out')) (run os' l)) (step o l)
  end.

(** The same with a map from the descriptors to what they wait for and who is told. *)
Abbreviation table := (gmap Z (fd_mode * C)).
Definition spec_step (o : op) (m : table) : result (table * list (C * view)) :=
  match o with
  | AddFd fd mode cb => Ok (insert_new fd (mode, cb) m, [])
  | RemoveFd fd => Ok (delete fd m, [])
  | SetFdMode fd mode =>
      match m !! fd with Some (_, cb) => Ok (<[fd := (mode, cb)]> m, []) | None => Throw undefined_behaviour end
  | Ready fd revents =>
      Ok (m, match m !! fd with
             | Some (mode, cb) =>
                 if revents =? Z.land revents (Z.lor (ev_mode mode) EV_ERROR) then
                   [(cb, MkView fd (has_bit revents EV_ERROR) (has_bit revents EV_READ) (has_bit revents EV_WRITE))]
                 else []
             | None => []
             end)
  | Signal | Stop => Ok (m, [])
  end.
Fixpoint spec_run (os : list op) (m : table) : result (table * list (C * view)) :=
  match os with
  | [] => Ok (m, [])
  | o :: os' =>
      res_bind (fun '(m, out) => res_map (fun '(m, out') => (m, out ++ out')) (spec_run os' m)) (spec_step o m)
  end.
End fds.
Arguments fd_t : clear implicits.
Arguments loop_t : clear implicits.
Arguments op : clear implicits.
End real_async_fds.

(** ** The loops of a pool *)

Module real_async_events.
Section events.
Context {W C : Type} `{EvIo W}.
Abbreviation loop_t := (real_async_fds.loop_t W C).

(** [real_async_events]: the loops with their numbers and the callback. *)
Definition new (num_loops : nat) : list loop_t :=
  imap (fun i l => real_async_fds.set_async_cb (real_async_fds.set_id i l)) (replicate num_loops real_async_fds.new_loop).
Definition stop_all_loops (loops : list loop_t) : list loop_t := real_async_fds.stop <$> loops.
(** [operator[]] does not check. *)
Definition signal_loop (loop_id : nat) (loops : list loop_t) : result (list loop_t) :=
  match loops !! loop_id with
  | Some l => Ok (<[loop_id := real_async_fds.signal l]> loops)
  | None => Throw undefined_behaviour
  end.
Definition loop (loop_id : nat) (loops : list loop_t) : result loop_t :=
  match loops !! loop_id with Some l => Ok l | None => Throw undefined_behaviour end.
End events.
End real_async_events.

(** ** The main loop *)

(** [listen_io::io_accept_cb]: [accepted] is what [accept] returns; the new clients. *)
Definition io_accept_cb (revents accepted : Z) : list Z :=
  if negb (Z.land EV_ERROR revents =? 0) then []
  else if accepted <? 0 then []
  else [accepted].

Module real_main_async_loop.
Section main.
(** Watchers for signals, tasks, and their intervals. *)
Context {W T F : Type} `{EvSig W}.

Definition SIGHUP : Z := 1.
Definition SIGINT : Z := 2.
Definition SIGTERM : Z := 15.

(** The watchers of the signals; whether [async_.send()] has been called since the callback ran; the
    listening sockets; the tasks with a timer; the tasks that wait for one; whether the loop has been
    left; and how often the rules have been reloaded. *)
Record t : Type := Mk {
  sigint_ : W;
  sigterm_ : W;
  sent : bool;
  listen_ios_ : list Z;
  timer_ios_ : list (T * F);
  new_tasks_ : list (T * F);
  broken : bool;
  reloads : nat
}.

(** The constructor starts [sigterm_] twice. *)
Definition new : t :=
  let sigint := sig_start SIGINT sig_new in
  let sigterm := sig_start SIGTERM sig_new in
  let sigterm := sig_start SIGHUP sigterm in
  Mk sigint sigterm false [] [] [] false 0.

Definition add_tcp_listen_fd (fd : Z) (m : t) : t :=
  Mk (sigint_ m) (sigterm_ m) (sent m) (listen_ios_ m ++ [fd]) (timer_ios_ m) (new_tasks_ m) (broken m) (reloads m).

Definition signal_cb (signum : Z) (m : t) : t :=
  if signum =? SIGHUP then
    Mk (sigint_ m) (sigterm_ m) (sent m) (listen_ios_ m) (timer_ios_ m) (new_tasks_ m) (broken m) (S (reloads m))
  else Mk (sigint_ m) (sigterm_ m) (sent m) (listen_ios_ m) (timer_ios_ m) (new_tasks_ m) true (reloads m).

(** Under the lock; from any thread. *)
Definition add_periodic_task (task : T) (interval : F) (m : t) : t :=
  Mk (sigint_ m) (sigterm_ m) true (listen_ios_ m) (timer_ios_ m) (new_tasks_ m ++ [(task, interval)]) (broken m)
    (reloads m).

(** The loop of [async_cb]. *)
Fixpoint start_tasks (new_tasks timers : list (T * F)) : list (T * F) :=
  match new_tasks with
  | [] => timers
  | p :: new_tasks' => start_tasks new_tasks' (timers ++ [p])
  end.
Definition async_cb (m : t) : t :=
  Mk (sigint_ m) (sigterm_ m) false (listen_ios_ m) (start_tasks (new_tasks_ m) (timer_ios_ m)) [] (broken m)
    (reloads m).

(** The signals that reach [signal_cb]: those with a watcher. *)
Definition watched (m : t) : list Z := omap sig_watch [sigint_ m; sigterm_ m].

(** What happens: a task is added, the main thread comes to its signal, a signal arrives for the
    process, a timer runs out. *)
Inductive op : Type :=
| AddTask (task : T) (interval : F)
| Listen (fd : Z)
| Wake
| Deliver (signum : Z)
| Tick (i : nat).

(** A timer calls [timer_io::timer], which runs its task. *)
Definition step (o : op) (m : t) : t * list T :=
  match o with
  | AddTask task interval => (add_periodic_task task interval m, [])
  | Listen fd => (add_tcp_listen_fd fd m, [])
  | Wake => (if sent m && negb (broken m) then async_cb m else m, [])
  | Deliver signum => (if bool_decide (signum ∈ watched m) then signal_cb signum m else m, [])
  | Tick i => (m, if broken m then [] else match timer_ios_ m !! i with Some p => [p.1] | None => [] end)
  end.
Fixpoint run (os : list op) (m : t) : t * list T :=
  match os with
  | [] => (m, [])
  | o :: os' => let '(m, out) := step o m in let '(m, out') := run os' m in (m, out ++ out')
  end.
End main.
Arguments t : clear implicits.
Arguments op : clear implicits.
End real_main_async_loop.

(** ** The descriptors are what was asked for *)

Section descriptors.
Import real_async_fds.
Context {W C : Type} `{EvIoLaws W}.
Implicit Types (l : loop_t W C) (m : gmap Z (fd_mode * C)) (o : op C).

(** Every entry has the number of its key and waits for what its mode says. *)
Definition implements l m : Prop :=
  forall fd, match fds_ l !! fd, m !! fd with
             | Some f, Some (mode, cb) => fd_ f = fd /\ fd_cb_fn_ f = cb /\ io_watch (io_ f) = Some (fd, ev_mode mode)
             | None, None => True
             | _, _ => False
             end.

Lemma implements_with l m fd f mode cb c :
  implements l m -> fd_ f = fd -> fd_cb_fn_ f = cb -> io_watch (io_ f) = Some (fd, ev_mode mode) ->
  implements (with_fds (<[fd := f]> (fds_ l)) c l) (<[fd := (mode, cb)]> m).
Proof.
  intros Hi H1 H2 H3 fd'. cbn [fds_ with_fds]. destruct (decide (fd' = fd)) as [->|Hne].
  - rewrite !lookup_insert_eq. done.
  - rewrite !lookup_insert_ne by done. apply Hi.
Qed.

Lemma step_implements o l m :
  implements l m ->
  match step o l, spec_step o m with
  | Ok (l', out), Ok (m', out') => implements l' m' /\ out = out'
  | Throw x, Throw y => x = y
  | _, _ => False
  end.
Proof.
  intros Hi. destruct o as [fd mode cb|fd|fd mode|fd revents| |]; cbn [step spec_step]; [| | | |done|done];
    pose proof (Hi fd) as Hfd.
  - unfold add_fd, insert_new. destruct (fds_ l !! fd) as [f|] eqn:Hf, (m !! fd) as [[md c]|] eqn:Hm; try done.
    split; [|done]. apply implements_with; [done..|]. apply io_watch_start.
  - unfold remove_fd. destruct (fds_ l !! fd) as [f|] eqn:Hf, (m !! fd) as [[md c]|] eqn:Hm; try done; (split; [|done]).
    + intros fd'. cbn [fds_ with_fds destroy]. destruct (decide (fd' = fd)) as [->|Hne].
      * by rewrite !lookup_delete_eq.
      * rewrite !lookup_delete_ne by done. apply Hi.
    + by rewrite delete_id.
  - unfold set_fd_mode. destruct (fds_ l !! fd) as [f|] eqn:Hf, (m !! fd) as [[md c]|] eqn:Hm; try done.
    destruct Hfd as (? & ? & Hw). split; [|done]. apply implements_with; [done..|]. cbn [io_ set_mode].
    rewrite io_watch_set, Hw. done.
  - unfold asked, async_cb. destruct (fds_ l !! fd) as [f|] eqn:Hf, (m !! fd) as [[md c]|] eqn:Hm; try done.
    destruct Hfd as (Hn & Hc & Hw). rewrite Hw. destruct (revents =? _); [|done]. split.
    + replace m with (<[fd := (md, c)]> m) by (by apply insert_id). by apply implements_with.
    + unfold view_of. cbn [set_ready fd_ error_ read_ write_ fd_cb_fn_]. by rewrite Hn, Hc.
Qed.

Lemma run_implements os : forall l m, implements l m ->
  match run os l, spec_run os m with
  | Ok (l', out), Ok (m', out') => implements l' m' /\ out = out'
  | Throw x, Throw y => x = y
  | _, _ => False
  end.
Proof.
  induction os as [|o os IH]; intros l m Hi; [done|]. cbn [run spec_run]. pose proof (step_implements o l m Hi) as Hs.
  destruct (step o l) as [[l1 out1]|x], (spec_step o m) as [[m1 out1']|y]; try done. destruct Hs as [Hi1 ->].
  cbn [res_bind]. specialize (IH l1 m1 Hi1).
  destruct (run os l1) as [[l2 out2]|x], (spec_run os m1) as [[m2 out2']|y]; try done. cbn [res_map].
  by destruct IH as [? ->].
Qed.


(** *** Closing *)

Definition added (os : list (op C)) : list Z :=
  omap (fun o => match o with AddFd fd _ _ => Some fd | _ => None end) os.
Definition descriptors l : list Z := (map_to_list (fds_ l)).*1.
Definition own_number l : Prop := forall fd f, fds_ l !! fd = Some f -> fd_ f = fd.

Lemma descriptors_insert l fd f c :
  fds_ l !! fd = None -> descriptors (with_fds (<[fd := f]> (fds_ l)) c l) ≡ₚ fd :: descriptors l.
Proof. intros Hf. unfold descriptors. cbn [fds_ with_fds]. by rewrite map_to_list_insert. Qed.
Lemma descriptors_update l fd f f' c :
  fds_ l !! fd = Some f -> descriptors (with_fds (<[fd := f']> (fds_ l)) c l) ≡ₚ descriptors l.
Proof.
  intros Hf. unfold descriptors. cbn [fds_ with_fds].
  rewrite <- (insert_delete_eq (fds_ l) fd f'), map_to_list_insert by apply lookup_delete_eq.
  rewrite <- (insert_delete_id (fds_ l) fd f Hf) at 2. rewrite map_to_list_insert by apply lookup_delete_eq. done.
Qed.

Lemma own_number_insert l fd f c :
  own_number l -> fd_ f = fd -> own_number (with_fds (<[fd := f]> (fds_ l)) c l).
Proof.
  intros Hn Hf fd' f'. cbn [fds_ with_fds]. destruct (decide (fd' = fd)) as [->|Hne].
  - rewrite lookup_insert_eq. by intros [= <-].
  - rewrite lookup_insert_ne by done. apply Hn.
Qed.

Lemma step_closes o l l' out :
  own_number l -> step o l = Ok (l', out) ->
  own_number l' /\ added [o] ++ closed l ++ descriptors l ≡ₚ closed l' ++ descriptors l'.
Proof.
  intros Hn. destruct o as [fd mode cb|fd|fd mode|fd revents| |]; cbn [step]; try (by intros [= <- <-]).
  - intros [= <- <-]. unfold add_fd. destruct (fds_ l !! fd) as [f|] eqn:Hf.
    + split; [done|]. unfold descriptors. cbn. rewrite <- app_assoc. cbn [app]. by rewrite Permutation_middle.
    + split; [by apply own_number_insert|]. rewrite descriptors_insert by done. cbn. by rewrite Permutation_middle.
  - intros [= <- <-]. unfold remove_fd. destruct (fds_ l !! fd) as [f|] eqn:Hf; [|done]. split.
    + intros fd' f'. cbn [fds_ with_fds destroy]. intros [_ ?]%lookup_delete_Some. by apply Hn.
    + unfold descriptors. cbn. rewrite (Hn fd f Hf), <- app_assoc. cbn [app].
      rewrite <- (insert_delete_id (fds_ l) fd f Hf) at 1. by rewrite map_to_list_insert by apply lookup_delete_eq.
  - unfold set_fd_mode. destruct (fds_ l !! fd) as [f|] eqn:Hf; [|done]. intros [= <- <-].
    split; [apply own_number_insert; [done|exact (Hn fd f Hf)]|]. by rewrite (descriptors_update l fd f).
  - intros [= Hl]. destruct (asked l fd revents); [|by injection Hl as <- <-].
    unfold async_cb in Hl. destruct (fds_ l !! fd) as [f|] eqn:Hf; injection Hl as <- <-; [|done].
    split; [apply own_number_insert; [done|exact (Hn fd f Hf)]|]. by rewrite (descriptors_update l fd f).
Qed.

Lemma run_closes os : forall l l' out,
  own_number l -> run os l = Ok (l', out) -> added os ++ closed l ++ descriptors l ≡ₚ closed l' ++ descriptors l'.
Proof.
  induction os as [|o os IH]; intros l l' out Hn; cbn [run]; [by intros [= <- <-]|].
  destruct (step o l) as [[l1 out1]|x] eqn:Hs; [|done]. cbn [res_bind].
  destruct (step_closes o l l1 out1 Hn Hs) as [Hn1 Hp1].
  destruct (run os l1) as [[l2 out2]|x] eqn:Hr; [|done]. intros [= <- <-]. rewrite <- (IH l1 l2 out2 Hn1 Hr), <- Hp1.
  change (added (o :: os)) with (added ([o] ++ os)). unfold added. rewrite omap_app. solve_Permutation.
Qed.

(** No descriptor leaks and none is closed twice for one registration: the descriptors that were given to
    the loop are those that have been closed together with those that it still watches. *)
Theorem descriptors_closed_once (os : list (op C)) (l : loop_t W C) (out : list (C * view)) :
  run os (new_loop : loop_t W C) = Ok (l, out) -> added os ≡ₚ closed l ++ descriptors l.
Proof.
  intros Hr. rewrite <- (run_closes os new_loop l out); [|by intros fd f Hf; cbn in Hf; rewrite lookup_empty in Hf|done].
  unfold descriptors. cbn. by rewrite map_to_list_empty, !app_nil_r.
Qed.
End descriptors.

Lemma descriptors_closed_once_witness :
  let os := [real_async_fds.AddFd 7 mode_read "a"%string; real_async_fds.AddFd 8 mode_none "b"%string;
             real_async_fds.Ready 7 1; real_async_fds.RemoveFd 7] in
  exists l out, real_async_fds.run os (real_async_fds.new_loop : real_async_fds.loop_t (option (Z * Z)) string) = Ok (l, out)
  /\ added os ≡ₚ real_async_fds.closed l ++ descriptors l.
Proof.
  intros os. eexists _, _. split; [vm_compute; reflexivity|].
  eapply (descriptors_closed_once os). vm_compute. reflexivity.
Defined.

(** A descriptor that is given to the loop twice is closed at once, and still watched. *)
Example added_twice :
  match real_async_fds.run [real_async_fds.AddFd 7 mode_read "a"%string; real_async_fds.AddFd 7 mode_read "b"%string]
          (real_async_fds.new_loop : real_async_fds.loop_t (option (Z * Z)) string) with
  | Ok (l, _) => real_async_fds.closed l = [7] /\ descriptors l = [7]
  | Throw _ => False
  end.
Proof. vm_compute. done. Qed.

(** ** The loops of a pool *)

Section pool.
Context {W C : Type} `{EvIo W}.

(** Every loop has its number, and a loop that is told to stop is left at the next signal, which is
    there. *)
Lemma stopped_loops_leave n i :
  (i < n)%nat ->
  exists l : real_async_fds.loop_t W C,
    real_async_events.loop i (real_async_events.stop_all_loops (real_async_events.new n)) = Ok l
  /\ real_async_fds.id_ l = i /\ real_async_fds.sent l = true
  /\ exists l', real_async_fds.async_callback l = Ok (l', false) /\ real_async_fds.unlooped l' = true.
Proof.
  intros Hi. unfold real_async_events.loop, real_async_events.stop_all_loops, real_async_events.new.
  rewrite list_lookup_fmap, list_lookup_imap, lookup_replicate_2 by done. cbn. by eauto 10.
Qed.
End pool.

(** ** The main loop *)

Section main_loop.
Import real_main_async_loop.
Context {W T F : Type} `{EvSigLaws W}.
Implicit Types (m : t W T F) (o : op T F).

(** The main loop does not watch SIGTERM: the watcher that the constructor starts for it is started
    again for SIGHUP.  SIGINT and SIGHUP are watched, so that SIGTERM neither stops the loop, as SIGINT does, nor
    does anything else in it. *)
Theorem sigterm_not_watched (os : list (op T F)) (m : t W T F) (out : list T) :
  run os new = (m, out) -> watched m = [SIGINT; SIGHUP] /\ step (Deliver SIGTERM) m = (m, []).
Proof.
  assert (forall os m m' out, watched m = [SIGINT; SIGHUP] -> run os m = (m', out) -> watched m' = [SIGINT; SIGHUP]) as Hrun.
  { clear os m out. induction os as [|o os IH]; intros m m' out Hw; cbn [run]; [by intros [= <- <-]|].
    destruct (step o m) as [m1 out1] eqn:Hs. destruct (run os m1) as [m2 out2] eqn:Hr. intros [= <- <-].
    apply (IH m1 m2 out2); [|done]. destruct o; cbn [step] in Hs; injection Hs as <- <-; try done.
    - by destruct (_ && _).
    - destruct (bool_decide _); [|done]. unfold signal_cb. by destruct (_ =? _). }
  intros Hr. assert (watched m = [SIGINT; SIGHUP]) as Hw.
  { eapply Hrun; [|exact Hr]. unfold watched, new. cbn. by rewrite !sig_watch_start. }
  split; [done|]. cbn [step]. rewrite Hw. by rewrite bool_decide_eq_false_2 by by_decide.
Qed.

Definition tasks_added (os : list (op T F)) : list (T * F) :=
  omap (fun o => match o with AddTask task interval => Some (task, interval) | _ => None end) os.

Lemma start_tasks_app (new_tasks timers : list (T * F)) : start_tasks new_tasks timers = timers ++ new_tasks.
Proof.
  revert timers. induction new_tasks as [|p new_tasks IH]; intros timers; cbn [start_tasks]; [by rewrite app_nil_r|].
  by rewrite IH, <- app_assoc.
Qed.

Lemma step_tasks o m :
  let m' := (step o m).1 in
  (new_tasks_ m <> [] -> sent m = true) ->
  timer_ios_ m' ++ new_tasks_ m' = (timer_ios_ m ++ new_tasks_ m) ++ tasks_added [o]
  /\ (new_tasks_ m' <> [] -> sent m' = true).
Proof.
  intros m' Hs. subst m'. destruct o as [task interval|fd| |signum|i]; cbn [step fst tasks_added omap list_omap].
  - cbn. by rewrite app_assoc.
  - by rewrite app_nil_r.
  - rewrite app_nil_r. destruct (_ && _); [|done]. cbn. by rewrite start_tasks_app, app_nil_r.
  - rewrite app_nil_r. destruct (bool_decide _); [|done]. unfold signal_cb. by destruct (_ =? _).
  - by rewrite app_nil_r.
Qed.

Lemma run_tasks os : forall m,
  (new_tasks_ m <> [] -> sent m = true) ->
  timer_ios_ (run os m).1 ++ new_tasks_ (run os m).1 = (timer_ios_ m ++ new_tasks_ m) ++ tasks_added os
  /\ (new_tasks_ (run os m).1 <> [] -> sent (run os m).1 = true).
Proof.
  induction os as [|o os IH]; intros m Hs; cbn [run]; [by rewrite app_nil_r|].
  destruct (step_tasks o m Hs) as [Ht1 Hs1]. destruct (step o m) as [m1 out1]. cbn [fst] in Ht1, Hs1.
  destruct (IH m1 Hs1) as [Ht2 Hs2]. destruct (run os m1) as [m2 out2]. cbn [fst] in Ht2, Hs2 |- *.
  split; [|done]. change (o :: os) with ([o] ++ os). unfold tasks_added in *. by rewrite omap_app, Ht2, Ht1, <- app_assoc.
Qed.

(** No periodic task is lost, repeated or overtaken: the tasks that have a timer and those that wait for
    one are, in order, the tasks that were added, by whatever threads; while some wait a signal is pending, and
    when the main thread comes to it none waits. *)
Theorem main_tasks_kept (os : list (op T F)) :
  let m := (run os (new : t W T F)).1 in
  timer_ios_ m ++ new_tasks_ m = tasks_added os
  /\ (new_tasks_ m <> [] -> sent m = true)
  /\ (broken m = false -> new_tasks_ (step Wake m).1 = []).
Proof.
  intros m. destruct (run_tasks os new) as [Ht Hs]; [done|]. split; [exact Ht|]. split; [exact Hs|].
  intros Hb. cbn [step fst]. rewrite Hb, andb_true_r. destruct (sent m) eqn:He; [done|].
  destruct (new_tasks_ m) as [|p ps] eqn:Hn; [done|]. unfold m in *. rewrite Hn in Hs. rewrite Hs in He; done.
Qed.
End main_loop.

Lemma sigterm_not_watched_witness :
  let m := (real_main_async_loop.run [real_main_async_loop.AddTask "expire"%string 10; real_main_async_loop.Wake;
              real_main_async_loop.Deliver 15] (real_main_async_loop.new : real_main_async_loop.t (option Z) string Z)) in
  real_main_async_loop.watched m.1 = [real_main_async_loop.SIGINT; real_main_async_loop.SIGHUP]
  /\ real_main_async_loop.step (real_main_async_loop.Deliver real_main_async_loop.SIGTERM) m.1 = (m.1, []).
Proof.
  intros m. eapply (sigterm_not_watched (W := option Z) [real_main_async_loop.AddTask "expire"%string 10;
    real_main_async_loop.Wake; real_main_async_loop.Deliver 15]). reflexivity.
Defined.

