(* ===== verification/Sockets.v ===== *)
(** * Sockets

    How sockets are made: [src/transport/listen_tcp_socket.cpp], [create_listen_udp_socket] of
    [src/transport/udp_pool.cpp] and [connect_client] and [add_client] of
    [src/transport/tcp_client_pool.cpp].  What the system calls return is an argument;
    the calls that open and close descriptors, and the list of addresses of [getaddrinfo], are put out. *)

From S2P Require Import Prelude.

Local Open Scope Z_scope.

(** What the calls return; [fcntl] and [listen] are not looked at, and that [setsockopt] failed is only logged. *)
Record replies : Type := MkReplies {
  sys_socket : Z;
  sys_bind : Z;
  sys_getaddrinfo : Z;
  sys_connect : Z
}.

Inductive call : Type :=
| Socket (fd : Z)            (** a descriptor was opened *)
| Close (fd : Z)
| Getaddrinfo                (** a list was allocated *)
| Freeaddrinfo
| Bind (fd : Z) (port : Z)   (** any address, and the port *)
| SetNonblock (fd : Z)
| Listen (fd : Z).

(** [socket], which fails with a negative number. *)
Definition socket (r : replies) : list call := if 0 <=? sys_socket r then [Socket (sys_socket r)] else [].

(** [htons]: the port is cut to 16 bits. *)
Definition sin_port (port : Z) : Z := port mod 65536.

(** [LOG(FATAL)] ends the process. *)
Definition create_tcp_listen_socket (port : Z) (r : replies) : result (Z * list call) :=
  let socket_fd := sys_socket r in
  if negb (sys_bind r =? 0) then Throw (user_exception "FATAL")
  else Ok (socket_fd, socket r ++ [Bind socket_fd (sin_port port); SetNonblock socket_fd; Listen socket_fd]).

Definition create_listen_udp_socket (port : Z) (r : replies) : result (Z * list call) :=
  if negb (sys_bind r =? 0) then Throw (user_exception "FATAL")
  else Ok (sys_socket r, socket r ++ [Bind (sys_socket r) (sin_port port)]).

Definition connect_client (r : replies) : Z * list call :=
  let sock_fd := sys_socket r in
  if sock_fd <? 0 then (-1, socket r)
  else if negb (sys_getaddrinfo r =? 0) then (-1, socket r)
  else if sys_connect r <? 0 then (-1, socket r ++ [Getaddrinfo; Freeaddrinfo; Close sock_fd])
  else (sock_fd, socket r ++ [Getaddrinfo; Freeaddrinfo; SetNonblock sock_fd]).

(** Whether there is a client, the descriptors given to the pool, and the calls. *)
Definition add_client (r : replies) : bool * list Z * list call :=
  let '(socket_fd, calls) := connect_client r in
  if socket_fd =? -1 then (false, [], calls) else (true, [socket_fd], calls).

(** ** Descriptors *)

Definition opened (cs : list call) : list Z := omap (fun c => match c with Socket fd => Some fd | _ => None end) cs.
Definition closed (cs : list call) : list Z := omap (fun c => match c with Close fd => Some fd | _ => None end) cs.

(** The attempts of a periodic task: what each was answered. *)
Fixpoint attempts (rs : list replies) : list Z * list call :=
  match rs with
  | [] => ([], [])
  | r :: rs' =>
      let '(_, fds, calls) := add_client r in
      let '(fds', calls') := attempts rs' in (fds ++ fds', calls ++ calls')
  end.

(** An attempt that made a socket and could not resolve the name of the host. *)
Definition unresolved (r : replies) : bool := (0 <=? sys_socket r) && negb (sys_getaddrinfo r =? 0).

Lemma add_client_descriptors r :
  let '(ok, fds, calls) := add_client r in
  opened calls = closed calls ++ fds ++ (if unresolved r then [sys_socket r] else [])
  /\ ok = bool_decide (fds <> []).
Proof.
  unfold add_client, connect_client, unresolved, socket. destruct (sys_socket r <? 0) eqn:Hs.
  - apply Z.ltb_lt in Hs. by rewrite (proj2 (Z.leb_gt 0 (sys_socket r)) Hs).
  - apply Z.ltb_ge in Hs. rewrite (proj2 (Z.leb_le 0 (sys_socket r)) Hs).
    destruct (sys_getaddrinfo r =? 0); [|done]. cbn [negb andb]. destruct (sys_connect r <? 0); [done|].
    destruct (sys_socket r =? -1) eqn:Hm; [apply Z.eqb_eq in Hm; lia|done].
Qed.

(** What becomes of the descriptors of the attempts to connect: each is given to the pool, or closed, or it
    belongs to an attempt whose host name could not be resolved; those are leaked, one for every attempt. *)
Theorem connect_descriptors (rs : list replies) :
  let '(fds, calls) := attempts rs in
  opened calls ≡ₚ closed calls ++ fds ++ (sys_socket <$> filter (fun r => unresolved r = true) rs).
Proof.
  induction rs as [|r rs IH]; [exact (Permutation_refl [])|]. cbn [attempts]. pose proof (add_client_descriptors r) as Hr.
  destruct (add_client r) as [[ok fds] calls]. destruct Hr as [Hr _]. destruct (attempts rs) as [fds' calls'].
  unfold opened, closed in *. rewrite !omap_app, Hr, IH, filter_cons.
  destruct (decide (unresolved r = true)) as [->|Hu].
  - rewrite fmap_cons. solve_Permutation.
  - rewrite (not_true_is_false _ Hu), app_nil_r. solve_Permutation.
Qed.

(** A name that is never resolved costs a descriptor every time. *)
Example unresolved_host_leaks :
  let '(fds, calls) := attempts ((fun fd => MkReplies fd 0 (-2) 0) <$> [7; 8; 9]) in
  fds = [] /\ opened calls = [7; 8; 9] /\ closed calls = [].
Proof. done. Qed.

(** A port that has more than 16 bits is another port. *)
Example port_is_cut :
  create_tcp_listen_socket 70000 (MkReplies 7 0 0 0) = Ok (7, [Socket 7; Bind 7 4464; SetNonblock 7; Listen 7]).
Proof. done. Qed.
