(* ===== verification/ClientPool.v ===== *)
(** * The TCP client pool

    [src/transport/tcp_client_pool.cpp] with the parts of [src/transport/tcp_pool.cpp]
    and of the file descriptors of [src/async/real_async_loop.cpp] that it uses, and the
    maps of pools in [src/external/graphite.cpp] and [riemann_tcp_client.cpp].

    Every loop has a queue of events; [push_event] fills them in turn, the loop makes
    batches of them, and every batch goes to the queue of each connection and from there
    through its write buffer to the socket.  Signals, timers and sockets that are ready
    are the operations of the environment; what [connect], [recv] and [write] return is an
    input. *)

From S2P Require Import Prelude Events Tcp TcpPool.

Local Open Scope Z_scope.

(** What can be observed of a loop. *)
Inductive pool_out : Type :=
| Queued (e : Event)                   (** taken by the queue of the loop *)
| Rejected (e : Event)                 (** the queue was full *)
| Added (fd : Z)                       (** a connection *)
| Batch (es : list Event)              (** taken from the queue at once *)
| Overflow (fd : Z)                    (** a batch dropped for this connection *)
| Sent (fd : Z) (bytes : list Z)       (** to the socket *)
| Closed (fd : Z).

Module tcp_client_pool.
Section pool.
Context {B : Type} `{CircularBuffer B}.
Variable output_events_fn_ : list Event -> list Z.
Variable batch_size_ : nat.
(** The order in which a hash map with these keys is walked. *)
Variable walk : list Z -> list Z.

Definition k_queue_capacity : Z := 10000.

(** What belongs to one loop: its entry of [thread_event_queues_], [flush_batch_] and
    [fd_event_queues_], of [new_fds_] and [conn_maps_] in [tcp_pool], and the [fds_] of the
    event loop.  [signalled]: the asynchronous hook is due. *)
Record loop_t : Type := MkLoop {
  event_queue : list Event;
  flush_batch : bool;
  signalled : bool;
  new_fds : list Z;
  fds : gmap Z fd_mode;
  conn_map : gmap Z (tcp_connection.t B);
  fd_event_queues : gmap Z (list (list Z))
}.

Record t : Type := Mk { loops : list loop_t; next_thread_ : nat }.

Definition new_loop : loop_t := MkLoop [] false false [] ∅ ∅ ∅.
Definition new (thread_num : nat) : t := Mk (replicate thread_num new_loop) 0.

Definition signal_thread (l : loop_t) : loop_t :=
  MkLoop (event_queue l) (flush_batch l) true (new_fds l) (fds l) (conn_map l) (fd_event_queues l).

(** [fds_.find(fd)->second->set_mode(mode)], undefined if there is no such descriptor. *)
Definition set_fd_mode (fd : Z) (mode : fd_mode) (l : loop_t) : result loop_t :=
  match fds l !! fd with
  | Some _ => Ok (MkLoop (event_queue l) (flush_batch l) (signalled l) (new_fds l)
                    (<[fd := mode]> (fds l)) (conn_map l) (fd_event_queues l))
  | None => Throw undefined_behaviour
  end.

(** [push_event] on the loop that is next; whether it is the turn of another one. *)
Definition push (e : Event) (l : loop_t) : loop_t * list pool_out * bool :=
  if k_queue_capacity <=? Z.of_nat (length (event_queue l)) then (l, [Rejected e], false)
  else
    let l := MkLoop (event_queue l ++ [e]) (flush_batch l) (signalled l) (new_fds l) (fds l)
               (conn_map l) (fd_event_queues l) in
    if (length (event_queue l) <? batch_size_)%nat then (l, [Queued e], false)
    else (signal_thread l, [Queued e], true).

(** [connect_clients], with what [connect_client] returns. *)
Definition connect_clients (socket_fd : option Z) (l : loop_t) : loop_t :=
  if decide (fd_event_queues l = ∅) then
    match socket_fd with
    | Some fd => signal_thread (MkLoop (event_queue l) (flush_batch l) (signalled l)
                   (new_fds l ++ [fd]) (fds l) (conn_map l) (fd_event_queues l))
    | None => l
    end
  else l.

Definition signal_batch_flush (l : loop_t) : loop_t :=
  signal_thread (MkLoop (event_queue l) true (signalled l) (new_fds l) (fds l) (conn_map l)
                   (fd_event_queues l)).

(** [tcp_pool::add_fds] for one descriptor, with [create_conn]. *)
Definition add_fd (l : loop_t) (fd : Z) : loop_t :=
  MkLoop (event_queue l) (flush_batch l) (signalled l) (new_fds l)
    (insert_new fd mode_read (fds l))
    (insert_new fd tcp_connection.new (conn_map l))
    (insert_new fd [] (fd_event_queues l)).

Definition add_fds (l : loop_t) : loop_t * list pool_out :=
  (foldl add_fd (MkLoop (event_queue l) (flush_batch l) (signalled l) [] (fds l) (conn_map l)
                   (fd_event_queues l)) (new_fds l), Added <$> new_fds l).

(** The result goes to the connections; it is moved into the first queue that has room. *)
Fixpoint hand_out (output : list Z) (ks : list Z) (l : loop_t) : result (loop_t * list pool_out) :=
  match ks with
  | [] => Ok (l, [])
  | fd :: ks' =>
      let q := default [] (fd_event_queues l !! fd) in
      if k_queue_capacity <? Z.of_nat (length q) then
        res_map (fun '(l, out) => (l, Overflow fd :: out)) (hand_out output ks' l)
      else
        res_bind (hand_out [] ks')
          (set_fd_mode fd mode_readwrite
             (MkLoop (event_queue l) (flush_batch l) (signalled l) (new_fds l) (fds l) (conn_map l)
                (<[fd := q ++ [output]]> (fd_event_queues l))))
  end.

(** [async], of a pool with batches. *)
Definition async (l : loop_t) : result (loop_t * list pool_out) :=
  if decide (fd_event_queues l = ∅) then Ok (l, [])
  else
    let flush := flush_batch l in
    if flush || (batch_size_ <? length (event_queue l))%nat then
      match event_queue l with
      | [] => Ok (l, [])
      | events =>
          let l := MkLoop [] false (signalled l) (new_fds l) (fds l) (conn_map l)
                     (fd_event_queues l) in
          res_map (fun '(l, out) => (l, Batch events :: out))
            (hand_out (output_events_fn_ events) (walk (map_to_list (fd_event_queues l)).*1) l)
      end
    else Ok (l, []).

(** [tcp_pool::async_hook]. *)
Definition async_hook (l : loop_t) : result (loop_t * list pool_out) :=
  let l := MkLoop (event_queue l) (flush_batch l) false (new_fds l) (fds l) (conn_map l)
             (fd_event_queues l) in
  let '(l, out) := add_fds l in
  res_map (fun '(l, out') => (l, out ++ out')) (async l).

(** The loop of [data_ready] that fills the write buffer. *)
Fixpoint fill (q : list (list Z)) (c : tcp_connection.t B) : list (list Z) * tcp_connection.t B :=
  match q with
  | [] => ([], c)
  | m :: q' =>
      match tcp_connection.queue_write m c with
      | (c, true) => fill q' c
      | (c, false) => (q, c)
      end
  end.

Definition set_conn (fd : Z) (c : tcp_connection.t B) (q : list (list Z)) (l : loop_t) : loop_t :=
  MkLoop (event_queue l) (flush_batch l) (signalled l) (new_fds l) (fds l)
    (<[fd := c]> (conn_map l)) (<[fd := q]> (fd_event_queues l)).

(** [data_ready]: [rd] is what [recv] returns if the descriptor is ready to be read, [wr]
    what [write] returns, of at most the bytes in the buffer, if it is ready to be
    written. *)
Definition data_ready (rd : option (option (list Z))) (wr : option (option nat)) (fd : Z)
    (c : tcp_connection.t B) (q : list (list Z)) (l : loop_t) : result (loop_t * list pool_out) :=
  let c := match rd with Some recv => (tcp_connection.read recv c).1 | None => c end in
  if bool_decide (is_Some rd) && tcp_connection.close_connection c then
    Ok (MkLoop (event_queue l) (flush_batch l) (signalled l) (new_fds l) (fds l)
          (<[fd := c]> (conn_map l)) (delete fd (fd_event_queues l)), [])
  else
    if negb (tcp_connection.pending_write c) && bool_decide (q = []) then
      res_map (fun l => (l, [])) (set_fd_mode fd mode_read (set_conn fd c q l))
    else
      match wr with
      | None => Ok (set_conn fd c q l, [])
      | Some written =>
          let '(q', c) := fill q c in
          let bytes := cb_data (tcp_connection.w_buffer c) in
          let written := (fun n => Nat.min n (length bytes)) <$> written in
          let l := set_conn fd (tcp_connection.write written c).1 q' l in
          let out := match written with Some n => [Sent fd (take n bytes)] | None => [] end in
          if bool_decide (q' = q) then Ok (l, out)
          else res_map (fun l => (l, out)) (set_fd_mode fd mode_readwrite l)
      end.

(** [tcp_pool::socket_callback], which finds the connection; [CHECK] fails without it. *)
Definition socket_callback (rd : option (option (list Z))) (wr : option (option nat)) (fd : Z)
    (l : loop_t) : result (loop_t * list pool_out) :=
  match conn_map l !! fd, fd_event_queues l !! fd with
  | Some c, Some q =>
      res_map (fun '(l, out) =>
          match conn_map l !! fd with
          | Some c =>
              if tcp_connection.close_connection c then
                (MkLoop (event_queue l) (flush_batch l) (signalled l) (new_fds l)
                   (delete fd (fds l)) (delete fd (conn_map l)) (fd_event_queues l),
                 out ++ [Closed fd])
              else (l, out)
          | None => (l, out)
          end)
        (data_ready rd wr fd c q l)
  | _, _ => Throw (user_exception "CHECK")
  end.

(** ** The pool *)

(** What happens to it. *)
Inductive pool_op : Type :=
| PushEvent (e : Event)
| Connect (loop_id : nat) (socket_fd : option Z)
| Flush (loop_id : nat)
| Async (loop_id : nat)
| Ready (loop_id : nat) (fd : Z) (rd : option (option (list Z))) (wr : option (option nat)).

Definition on_loop (i : nat) (f : loop_t -> result (loop_t * list pool_out)) (p : t)
  : result (t * list (nat * pool_out)) :=
  match loops p !! i with
  | None => Throw undefined_behaviour
  | Some l =>
      res_map (fun '(l, out) => (Mk (<[i := l]> (loops p)) (next_thread_ p), pair i <$> out)) (f l)
  end.

Definition push_event (e : Event) (p : t) : result (t * list (nat * pool_out)) :=
  let i := next_thread_ p in
  match loops p !! i with
  | None => Throw undefined_behaviour
  | Some l =>
      let '(l, out, turn) := push e l in
      Ok (Mk (<[i := l]> (loops p)) (if turn : bool then (i + 1) mod length (loops p) else i)%nat,
          pair i <$> out)
  end.

(** A signal is needed for the hook, and a descriptor in the loop for its callback. *)
Definition step (o : pool_op) (p : t) : result (t * list (nat * pool_out)) :=
  match o with
  | PushEvent e => push_event e p
  | Connect i fd => on_loop i (fun l => Ok (connect_clients fd l, [])) p
  | Flush i => on_loop i (fun l => Ok (signal_batch_flush l, [])) p
  | Async i => on_loop i (fun l => if signalled l then async_hook l else Ok (l, [])) p
  | Ready i fd rd wr =>
      on_loop i (fun l => match fds l !! fd with
                          | Some _ => socket_callback rd wr fd l
                          | None => Ok (l, [])
                          end) p
  end.

Fixpoint run (ops : list pool_op) (p : t) : result (t * list (nat * pool_out)) :=
  match ops with
  | [] => Ok (p, [])
  | o :: ops' =>
      match step o p with
      | Throw x => Throw x
      | Ok (p, out) => res_map (fun '(p, out') => (p, out ++ out')) (run ops' p)
      end
  end.
End pool.
Arguments t : clear implicits.
Arguments loop_t : clear implicits.
End tcp_client_pool.

(** ** What a loop has done *)

Definition queued (outs : list pool_out) : list Event :=
  omap (fun o => match o with Queued e => Some e | _ => None end) outs.
Definition batches (outs : list pool_out) : list (list Event) :=
  omap (fun o => match o with Batch es => Some es | _ => None end) outs.
Definition sent_bytes (outs : list pool_out) : list Z :=
  concat (omap (fun o => match o with Sent _ b => Some b | _ => None end) outs).
Definition added (outs : list pool_out) : list Z :=
  omap (fun o => match o with Added fd => Some fd | _ => None end) outs.
(** A connection was closed or a batch was dropped. *)
Definition broken (outs : list pool_out) : bool :=
  existsb (fun o => match o with Closed _ | Overflow _ => true | _ => false end) outs.

Lemma queued_app a b : queued (a ++ b) = queued a ++ queued b.
Proof. apply omap_app. Qed.
Lemma batches_app a b : batches (a ++ b) = batches a ++ batches b.
Proof. apply omap_app. Qed.
Lemma sent_bytes_app a b : sent_bytes (a ++ b) = sent_bytes a ++ sent_bytes b.
Proof. unfold sent_bytes. by rewrite omap_app, concat_app. Qed.
Lemma added_app a b : added (a ++ b) = added a ++ added b.
Proof. apply omap_app. Qed.
Lemma broken_app a b : broken (a ++ b) = broken a || broken b.
Proof. apply existsb_app. Qed.

Create Rewrite HintDb pool.
#[export] Hint Rewrite queued_app batches_app sent_bytes_app added_app broken_app : pool.

Lemma added_Added l : added (Added <$> l) = l.
Proof. unfold added. induction l as [|x l IH]; csimpl; [done|]. by rewrite IH. Qed.
Lemma only_Added l :
  queued (Added <$> l) = [] /\ batches (Added <$> l) = [] /\ sent_bytes (Added <$> l) = []
  /\ broken (Added <$> l) = false.
Proof. induction l; csimpl; done. Qed.

Section client_pool.
Import tcp_client_pool tcp_connection.
Context {B : Type} `{CircularBufferLaws B}.
Variable output_events_fn_ : list Event -> list Z.
Variable batch_size_ : nat.
Variable walk : list Z -> list Z.
Hypothesis walk_perm : forall l, walk l ≡ₚ l.

Abbreviation w_data c := (cb_data (w_buffer c)).
Abbreviation outputs bs := (concat (output_events_fn_ <$> bs)).

(** The one connection of a loop holds what was batched and not sent yet. *)
Record one_conn (l : loop_t B) (outs : list pool_out) (fd : Z) (c : tcp_connection.t B)
    (q : list (list Z)) : Prop := {
  one_fds : is_Some (fds l !! fd);
  one_conn_map : conn_map l = {[fd := c]};
  one_queue : fd_event_queues l = {[fd := q]};
  one_open : close_connection c = false;
  one_bytes : sent_bytes outs ++ w_data c ++ concat q = outputs (batches outs)
}.

Record loop_ok (l : loop_t B) (outs : list pool_out) : Prop := {
  ok_events : queued outs = concat (batches outs) ++ event_queue l;
  ok_none : added outs = [] ->
    fds l = ∅ /\ conn_map l = ∅ /\ fd_event_queues l = ∅ /\ batches outs = [] /\ sent_bytes outs = [];
  ok_one : forall fd, added outs = [fd] -> broken outs = false ->
    exists c q, one_conn l outs fd c q
}.

Lemma new_loop_ok : loop_ok new_loop [].
Proof. by constructor. Qed.

(** Operations that touch neither the connections nor the batches. *)
Lemma loop_ok_same l l' outs out :
  loop_ok l outs ->
  fds l' = fds l -> conn_map l' = conn_map l -> fd_event_queues l' = fd_event_queues l ->
  event_queue l' = event_queue l ++ queued out ->
  batches out = [] -> sent_bytes out = [] -> added out = [] -> broken out = false ->
  loop_ok l' (outs ++ out).
Proof.
  intros [He Hn H1] Hf Hc Hq Hev Hb Hs Ha Hbr.
  constructor; autorewrite with pool; rewrite ?Hb, ?Hs, ?Ha, ?Hbr, ?app_nil_r, ?orb_false_r, ?Hf, ?Hc, ?Hq;
    [|done|].
  - by rewrite He, Hev, app_assoc.
  - intros fd Hfd Hbroken. destruct (H1 fd Hfd Hbroken) as (c & q & []).
    exists c, q. constructor; autorewrite with pool;
      rewrite ?Hb, ?Hs, ?app_nil_r, ?Hf, ?Hc, ?Hq; done.
Qed.

Lemma push_ok e l outs :
  loop_ok l outs -> loop_ok (push batch_size_ e l).1.1 (outs ++ (push batch_size_ e l).1.2).
Proof.
  intros Hok. unfold push. case_match; [apply (loop_ok_same l); simpl; try done; by rewrite app_nil_r|].
  by case_match; apply (loop_ok_same l).
Qed.

Lemma connect_ok fd l outs : loop_ok l outs -> loop_ok (connect_clients fd l) (outs ++ []).
Proof.
  intros Hok. unfold connect_clients. repeat case_match; apply (loop_ok_same l); simpl; try done;
    by rewrite app_nil_r.
Qed.

Lemma flush_ok l outs : loop_ok l outs -> loop_ok (signal_batch_flush l) (outs ++ []).
Proof. intros Hok. apply (loop_ok_same l); simpl; try done. by rewrite app_nil_r. Qed.

Lemma add_fds_queue l : event_queue (add_fds l).1 = event_queue l.
Proof.
  unfold add_fds. cbn [fst].
  change (event_queue l) with (event_queue (MkLoop (event_queue l) (flush_batch l) (signalled l) []
    (fds l) (conn_map l) (fd_event_queues l))) at 2.
  generalize (MkLoop (event_queue l) (flush_batch l) (signalled l) [] (fds l) (conn_map l)
    (fd_event_queues l)).
  induction (new_fds l) as [|fd fs IH]; intros l0; simpl; [done|]. by rewrite IH.
Qed.

Lemma add_fds_ok l outs :
  loop_ok l outs -> loop_ok (add_fds l).1 (outs ++ (add_fds l).2).
Proof.
  intros [He Hn H1]. destruct (only_Added (new_fds l)) as (Hq & Hb & Hs & Hbr).
  pose proof (add_fds_queue l) as Heq. unfold add_fds in *. cbn [fst snd] in *.
  constructor; autorewrite with pool;
    rewrite ?Hq, ?Hb, ?Hs, ?Hbr, ?added_Added, ?app_nil_r, ?orb_false_r.
  - by rewrite He, Heq.
  - intros [Ha Hnew]%app_nil. rewrite Hnew. by apply Hn.
  - intros fd Ha Hbroken. destruct (added outs) as [|fd0 a] eqn:Hadd.
    + destruct (Hn eq_refl) as (Hf & Hc & Hqs & Hb0 & Hs0). simpl in Ha.
      rewrite Ha. exists tcp_connection.new, []. cbn [foldl].
      constructor; unfold add_fd, insert_new; cbn [fds conn_map fd_event_queues];
        rewrite ?Hf, ?Hc, ?Hqs, ?lookup_empty; autorewrite with pool.
      * rewrite lookup_insert_eq. by eexists.
      * done.
      * done.
      * done.
      * destruct (only_Added [fd]) as (_ & -> & -> & _). simpl.
        rewrite Hb0, Hs0, cb_data_new. done.
    + injection Ha as -> Ha. apply app_nil in Ha as [-> Hnew]. rewrite Hnew.
      destruct (H1 fd eq_refl Hbroken) as (c & q & []). exists c, q.
      constructor; simpl; autorewrite with pool; rewrite ?app_nil_r; done.
Qed.

(** *** Batches *)

Lemma hand_out_outs output ks (l l' : loop_t B) out :
  hand_out output ks l = Ok (l', out) ->
  event_queue l' = event_queue l
  /\ queued out = [] /\ batches out = [] /\ sent_bytes out = [] /\ added out = [].
Proof.
  revert output l l' out. induction ks as [|fd ks IH]; intros output l l' out; cbn [hand_out].
  { by intros [= <- <-]. }
  case_match.
  - destruct (hand_out output ks l) as [[l1 out1]|] eqn:Hh; [|done]. intros [= <- <-].
    by apply IH in Hh.
  - unfold set_fd_mode. case_match; [|done]. cbn [res_bind]. intros Hh. by apply IH in Hh.
Qed.

(** With one connection there is only one order to walk the map. *)
Lemma walk_one fd (q : list (list Z)) : walk (map_to_list ({[fd := q]} : gmap Z _)).*1 = [fd].
Proof.
  rewrite map_to_list_singleton. apply Permutation_singleton_r. apply walk_perm.
Qed.

Lemma hand_out_one output l outs fd c q l' out :
  one_conn l outs fd c q -> hand_out output [fd] l = Ok (l', out) -> broken out = false ->
  is_Some (fds l' !! fd) /\ conn_map l' = {[fd := c]} /\ fd_event_queues l' = {[fd := q ++ [output]]}.
Proof.
  intros [Hf Hc Hq _ _]. cbn [hand_out]. rewrite Hq, lookup_singleton_eq. cbn [default].
  case_match.
  - cbn [res_map]. by intros [= <- <-].
  - unfold set_fd_mode. cbn [fds]. destruct (fds l !! fd) eqn:Hfd; [|by destruct Hf].
    cbn [res_bind]. intros [= <- <-] _. cbn [fds conn_map fd_event_queues].
    rewrite lookup_insert_eq, insert_singleton_eq, Hc. by eexists.
Qed.

Lemma async_ok l outs l' out :
  loop_ok l outs -> async output_events_fn_ batch_size_ walk l = Ok (l', out) ->
  loop_ok l' (outs ++ out).
Proof.
  intros Hok. unfold async.
  assert (loop_ok l (outs ++ [])) as Hsame by (by rewrite app_nil_r).
  case_decide as Hempty; [by intros [= <- <-]|].
  destruct (flush_batch l || _); [|by intros [= <- <-]].
  destruct (event_queue l) as [|e0 es0] eqn:Hevs; [by intros [= <- <-]|].
  rewrite <- Hevs. set (events := event_queue l) in *.
  destruct (hand_out _ _ _) as [[l1 out1]|] eqn:Hh; [|done]. intros [= <- <-].
  pose proof (hand_out_outs _ _ _ _ _ Hh) as (Hev & Hqd & Hb & Hs & Ha).
  destruct Hok as [He Hn H1].
  change (Batch events :: out1) with ([Batch events] ++ out1).
  constructor; autorewrite with pool; rewrite ?Hqd, ?Hb, ?Hs, ?Ha, ?app_nil_r.
  - rewrite Hev, concat_app. cbn [batches queued omap list_omap concat event_queue].
    rewrite !app_nil_r. by rewrite He.
  - intros Hadd. destruct (Hn Hadd) as (_ & _ & Hq & _). congruence.
  - intros fd Hadd Hbr. rewrite !orb_false_iff in Hbr. destruct Hbr as (Hbr1 & _ & Hbr3).
    destruct (H1 fd Hadd Hbr1) as (c & q & Hone).
    cbn [fd_event_queues] in Hh. rewrite (one_queue _ _ _ _ _ Hone), walk_one in Hh.
    destruct Hone as [Hf Hc Hq Ho Hbytes].
    edestruct (hand_out_one (output_events_fn_ events)
      (MkLoop [] false (signalled l) (new_fds l) (fds l) (conn_map l) {[fd := q]}) outs fd c q)
      as (Hf' & Hc' & Hq'); [by constructor|exact Hh|done|].
    exists c, (q ++ [output_events_fn_ events]). constructor; [done|done|done|done|].
    autorewrite with pool. rewrite Hb, Hs, !app_nil_r, fmap_app, !concat_app, <- Hbytes.
    cbn. by rewrite !app_nil_r, <- !app_assoc.
Qed.

Lemma client_async_hook_ok l outs l' out :
  loop_ok l outs -> async_hook output_events_fn_ batch_size_ walk l = Ok (l', out) ->
  loop_ok l' (outs ++ out).
Proof.
  intros Hok. unfold async_hook. set (l0 := MkLoop _ _ _ _ _ _ _).
  assert (loop_ok l0 outs) as Hok0.
  { rewrite <- (app_nil_r outs). apply (loop_ok_same l); simpl; try done. by rewrite app_nil_r. }
  pose proof (add_fds_ok l0 outs Hok0) as Hok1. destruct (add_fds l0) as [l1 out1].
  destruct (async _ _ _ l1) as [[l2 out2]|] eqn:Ha; [|done]. intros [= <- <-].
  rewrite app_assoc. by eapply async_ok.
Qed.

(** *** Sockets *)

Lemma fill_data q (c : tcp_connection.t B) q' c' :
  fill q c = (q', c') ->
  w_data c' ++ concat q' = w_data c ++ concat q /\ close_connection c' = close_connection c.
Proof.
  revert c. induction q as [|m q IH]; intros c; cbn [fill]; [by intros [= <- <-]|].
  unfold queue_write. destruct (cb_reserve (w_buffer c) <? Z.of_nat (length m)) eqn:Hr.
  - by intros [= <- <-].
  - apply Z.ltb_ge in Hr. intros [Hd Hc]%IH. split; [|done].
    rewrite Hd. cbn [w_buffer concat]. rewrite cb_data_insert by done. by rewrite app_assoc.
Qed.

Lemma data_ready_outs rd wr fd c q (l l' : loop_t B) out :
  data_ready rd wr fd c q l = Ok (l', out) ->
  event_queue l' = event_queue l
  /\ queued out = [] /\ batches out = [] /\ added out = [] /\ broken out = false
  /\ is_Some (conn_map l' !! fd).
Proof.
  unfold data_ready, set_fd_mode. intros Hd.
  repeat (case_match; simplify_eq/=); rewrite lookup_insert_eq; by repeat split.
Qed.

Lemma read_keeps recv (c : tcp_connection.t B) :
  w_buffer (read recv c).1 = w_buffer c.
Proof. unfold read. repeat (case_match; simplify_eq/=; try done). Qed.

(** The connection after [data_ready], with what is left to be sent. *)
Lemma one_conn_set l outs fd c q c' q' mode out :
  one_conn l outs fd c q -> close_connection c' = false -> batches out = [] ->
  sent_bytes out ++ w_data c' ++ concat q' = w_data c ++ concat q ->
  one_conn (set_conn fd c' q' l) (outs ++ out) fd c' q'
  /\ exists l', set_fd_mode fd mode (set_conn fd c' q' l) = Ok l'
     /\ one_conn l' (outs ++ out) fd c' q' /\ conn_map l' = {[fd := c']}.
Proof.
  intros [Hf Hc Hq Ho Hb] Ho' Hbo Hbytes.
  assert (sent_bytes (outs ++ out) ++ w_data c' ++ concat q' = outputs (batches (outs ++ out))) as Heq.
  { autorewrite with pool. by rewrite Hbo, app_nil_r, <- Hb, <- app_assoc, Hbytes. }
  split.
  - constructor; simpl; try done; [by rewrite Hc, insert_singleton_eq|by rewrite Hq, insert_singleton_eq].
  - unfold set_fd_mode. cbn [set_conn fds]. destruct (fds l !! fd) eqn:Hfd; [|by destruct Hf].
    eexists. split; [reflexivity|]. split.
    + constructor; cbn [set_conn fds conn_map fd_event_queues]; try done; [by rewrite lookup_insert_eq; eexists| |];
        [by rewrite Hc, insert_singleton_eq|by rewrite Hq, insert_singleton_eq].
    + cbn [set_conn conn_map]. by rewrite Hc, insert_singleton_eq.
Qed.

Lemma data_ready_one rd wr l outs fd c q l1 out c1 :
  one_conn l outs fd c q -> data_ready rd wr fd c q l = Ok (l1, out) ->
  conn_map l1 !! fd = Some c1 -> close_connection c1 = false ->
  exists q', one_conn l1 (outs ++ out) fd c1 q'.
Proof.
  intros Hone. unfold data_ready.
  set (c0 := match rd with Some recv => (read recv c).1 | None => c end).
  assert (w_buffer c0 = w_buffer c) as Hw by (unfold c0; destruct rd; [apply read_keeps|done]).
  destruct (bool_decide (is_Some rd) && close_connection c0) eqn:Hclosed.
  { intros [= <- <-] Hc1 Ho. cbn [conn_map] in Hc1. rewrite lookup_insert_eq in Hc1.
    injection Hc1 as <-. apply andb_true_iff in Hclosed as [_ Hclosed]. congruence. }
  assert (close_connection c0 = false) as Ho0.
  { apply andb_false_iff in Hclosed as [Hr|?]; [|done]. apply bool_decide_eq_false in Hr.
    unfold c0. destruct rd; [by destruct Hr; eexists|apply Hone]. }
  clearbody c0. clear Hclosed.
  destruct (negb (pending_write c0) && bool_decide (q = [])).
  { destruct (one_conn_set l outs fd c q c0 q mode_read [] Hone Ho0) as (_ & l2 & -> & H2 & Hm);
      [done|by rewrite Hw|].
    cbn [res_map]. intros [= <- <-] Hc1 _. exists q.
    rewrite Hm, lookup_singleton_eq in Hc1. by injection Hc1 as <-. }
  destruct wr as [written|].
  2: { destruct (one_conn_set l outs fd c q c0 q mode_read [] Hone Ho0) as [H2 _];
         [done|by rewrite Hw|].
       intros [= <- <-] Hc1 _. cbn [set_conn conn_map] in Hc1. rewrite lookup_insert_eq in Hc1.
       injection Hc1 as <-. by exists q. }
  destruct (fill q c0) as [q' c2] eqn:Hfill. apply fill_data in Hfill as [Hd Hc2].
  destruct written as [n|]; cbn [fmap option_fmap option_map].
  2: { destruct (bool_decide (q' = q)); unfold set_fd_mode;
         [|case_match; [|done]]; intros [= <- <-] Hc1 Ho1; cbn in Hc1;
         rewrite lookup_insert_eq in Hc1; by injection Hc1 as <-. }
  set (k := Nat.min n _). cbn [write write_to_fd fst].
  destruct (one_conn_set l outs fd c q
    (Mk (buff_size c2) (close_connection c2) (r_buffer c2) (cb_erase_begin k (w_buffer c2))) q'
    mode_readwrite [Sent fd (take k (w_data c2))] Hone)
    as (H2 & l2 & Hmode & H3 & Hm); [by rewrite Hc2|done| |].
  { cbn. rewrite app_nil_r, cb_data_erase, (app_assoc (take _ _)), take_drop by lia.
    by rewrite Hd, Hw. }
  destruct (bool_decide (q' = q)).
  - intros [= <- <-] Hc1 _. cbn in Hc1. rewrite lookup_insert_eq in Hc1. injection Hc1 as <-. by exists q'.
  - rewrite Hmode. intros [= <- <-] Hc1 _. rewrite Hm, lookup_singleton_eq in Hc1.
    injection Hc1 as <-. by exists q'.
Qed.

Lemma socket_callback_ok rd wr fd l outs l' out :
  loop_ok l outs -> is_Some (fds l !! fd) -> socket_callback rd wr fd l = Ok (l', out) ->
  loop_ok l' (outs ++ out).
Proof.
  intros [He Hn H1] Hfd. unfold socket_callback.
  destruct (conn_map l !! fd) as [c|] eqn:Hc; [|done].
  destruct (fd_event_queues l !! fd) as [q|] eqn:Hq; [|done].
  destruct (data_ready rd wr fd c q l) as [[l1 out1]|] eqn:Hd; [|done]. cbn [res_map].
  pose proof (data_ready_outs _ _ _ _ _ _ _ _ Hd) as (Hev & Hqd & Hb & Ha & Hbr & Hc1).
  assert (added outs <> []) as Hadd.
  { intros Hadd. destruct (Hn Hadd) as (Hf & _). rewrite Hf, lookup_empty in Hfd. by destruct Hfd. }
  destruct Hc1 as [c1 Hc1]. rewrite Hc1.
  destruct (close_connection c1) eqn:Ho; intros [= <- <-].
  - constructor; autorewrite with pool; rewrite ?Ha, ?Hqd, ?Hb, ?Hbr; cbn; rewrite ?app_nil_r.
    + by rewrite Hev.
    + done.
    + intros fd0 _. by rewrite orb_true_r.
  - constructor; autorewrite with pool; rewrite ?Ha, ?Hqd, ?Hb, ?Hbr, ?app_nil_r, ?orb_false_r.
    + by rewrite Hev.
    + done.
    + intros fd0 Hfd0 Hbroken. destruct (H1 fd0 Hfd0 Hbroken) as (c0 & q0 & Hone).
      pose proof Hone as [_ Hcm Hqm _ _].
      rewrite Hcm, lookup_singleton_Some in Hc. destruct Hc as [<- <-].
      rewrite Hqm, lookup_singleton_eq in Hq. injection Hq as <-.
      exists c1. by eapply data_ready_one.
Qed.

(** *** The pool *)

Definition pool_ok (p : tcp_client_pool.t B) (outs : list (nat * pool_out)) : Prop :=
  forall i l, loops p !! i = Some l -> loop_ok l (outs_of i outs).

Abbreviation step := (tcp_client_pool.step output_events_fn_ batch_size_ walk).
Abbreviation run := (tcp_client_pool.run output_events_fn_ batch_size_ walk).

(** What an operation does to the one loop that it is about. *)
Inductive loop_step (l : loop_t B) : loop_t B -> list pool_out -> Prop :=
| LPush e l' out turn : push batch_size_ e l = (l', out, turn) -> loop_step l l' out
| LConnect fd : loop_step l (connect_clients fd l) []
| LFlush : loop_step l (signal_batch_flush l) []
| LAsync l' out : async_hook output_events_fn_ batch_size_ walk l = Ok (l', out) -> loop_step l l' out
| LReady fd rd wr l' out : is_Some (fds l !! fd) ->
    socket_callback rd wr fd l = Ok (l', out) -> loop_step l l' out
| LIdle : loop_step l l [].

Lemma step_on_loop o p p' outs :
  step o p = Ok (p', outs) ->
  exists j l l' out, loops p !! j = Some l /\ loops p' = <[j := l']> (loops p)
  /\ outs = (pair j <$> out) /\ loop_step l l' out.
Proof.
  destruct o as [e|i fd|i|i|i fd rd wr]; cbn [tcp_client_pool.step].
  1: { unfold push_event. destruct (loops p !! next_thread_ p) as [l|] eqn:Hl; [|done].
       destruct (push batch_size_ e l) as [[l' out] turn] eqn:Hp. intros [= <- <-].
       eexists _, l, l', out. by repeat split; [..|eapply LPush]. }
  all: unfold on_loop; destruct (loops p !! i) as [l|] eqn:Hl; [|done].
  1-2: intros [= <- <-]; eexists i, l, _, []; by repeat split; [..|constructor].
  - destruct (signalled l).
    + destruct (async_hook _ _ _ l) as [[l' out]|] eqn:Ha; [|done]. intros [= <- <-].
      exists i, l, l', out. by repeat split; [..|apply LAsync].
    + intros [= <- <-]. exists i, l, l, []. by repeat split; [..|apply LIdle].
  - destruct (fds l !! fd) eqn:Hf.
    + destruct (socket_callback rd wr fd l) as [[l' out]|] eqn:Ha; [|done]. intros [= <- <-].
      exists i, l, l', out. repeat split; [done..|]. by eapply LReady.
    + intros [= <- <-]. exists i, l, l, []. by repeat split; [..|apply LIdle].
Qed.

Lemma loop_step_ok l l' out outs : loop_step l l' out -> loop_ok l outs -> loop_ok l' (outs ++ out).
Proof.
  intros [e l1 out1 turn Hp|fd| |l1 out1 Ha|fd rd wr l1 out1 Hf Hs|] Hok.
  - pose proof (push_ok e l outs Hok) as H1. by rewrite Hp in H1.
  - by apply connect_ok.
  - by apply flush_ok.
  - by eapply client_async_hook_ok.
  - by eapply socket_callback_ok.
  - by rewrite app_nil_r.
Qed.

Lemma client_step_ok o p outs p' out :
  pool_ok p outs -> step o p = Ok (p', out) -> pool_ok p' (outs ++ out).
Proof.
  intros Hok (j & l & l' & out' & Hl & Hp & -> & Hstep)%step_on_loop i l0.
  rewrite Hp, outs_of_app, outs_of_pair. destruct (decide (i = j)) as [->|Hne].
  - rewrite list_lookup_insert_eq by (by eapply lookup_lt_Some).
    intros [= <-]. eapply loop_step_ok; [done|]. by apply Hok.
  - rewrite list_lookup_insert_ne by done. rewrite app_nil_r. apply Hok.
Qed.

Lemma client_run_ok ops p outs p' out :
  pool_ok p outs -> run ops p = Ok (p', out) -> pool_ok p' (outs ++ out).
Proof.
  revert p outs out. induction ops as [|o ops IH]; intros p outs out Hok; cbn [tcp_client_pool.run].
  { intros [= <- <-]. by rewrite app_nil_r. }
  destruct (step o p) as [[p1 out1]|] eqn:Hs; [|done].
  destruct (run ops p1) as [[p2 out2]|] eqn:Hr; [|done]. intros [= <- <-].
  rewrite app_assoc. eapply IH; [|done]. by eapply client_step_ok.
Qed.

Lemma client_new_ok n : pool_ok (tcp_client_pool.new n) [].
Proof.
  intros i l Hl. apply lookup_replicate in Hl as [-> _]. apply new_loop_ok.
Qed.

(** C25. A client pool sends what it was given.  In every run, what the queue of a loop has taken
    are the events of its batches, in order, and the events still in the queue.  While
    the loop has one connection, which has neither been closed nor overflowed,
    the bytes that the socket has taken, those in the write buffer and those queued for
    the connection are together the outputs of the batches: no event is lost,
    repeated or reordered between [push_event] and the socket, and no output is torn. *)
Theorem client_pool_fifo (n : nat) (ops : list pool_op) (p : tcp_client_pool.t B)
    (outs : list (nat * pool_out)) (i : nat) (l : loop_t B) :
  run ops (tcp_client_pool.new n) = Ok (p, outs) -> loops p !! i = Some l ->
  let o := outs_of i outs in
  queued o = concat (batches o) ++ event_queue l
  /\ (forall fd, added o = [fd] -> broken o = false ->
      exists c q, conn_map l !! fd = Some c /\ fd_event_queues l !! fd = Some q
      /\ sent_bytes o ++ w_data c ++ concat q = concat (output_events_fn_ <$> batches o)).
Proof.
  intros Hrun Hl o. pose proof (client_run_ok ops _ [] _ _ (client_new_ok n) Hrun i l Hl) as [He _ H1].
  split; [done|]. intros fd Ha Hb. destruct (H1 fd Ha Hb) as (c & q & [_ Hc Hq _ Hbytes]).
  exists c, q. by rewrite Hc, Hq, !lookup_singleton_eq.
Qed.

(** *** A failed write *)

(** The connection is gone, but its queue is still there. *)
Record doomed (l : loop_t B) (fd : Z) (q : list (list Z)) : Prop := {
  doom_fds : fds l = ∅;
  doom_new_fds : new_fds l = [];
  doom_queue : fd_event_queues l = {[fd := q]};
  doom_capacity : Z.of_nat (length q) <= k_queue_capacity
}.

Definition silent (outs : list pool_out) : Prop :=
  Forall (fun o => match o with Queued _ | Rejected _ => True | _ => False end) outs.

Lemma silent_nothing outs :
  silent outs -> added outs = [] /\ batches outs = [] /\ sent_bytes outs = [].
Proof. induction 1 as [|[] outs Ho _ IH]; by try destruct Ho. Qed.

Lemma doomed_async l fd q :
  doomed l fd q ->
  async_hook output_events_fn_ batch_size_ walk l = Throw undefined_behaviour
  \/ (exists l', async_hook output_events_fn_ batch_size_ walk l = Ok (l', []) /\ doomed l' fd q).
Proof.
  intros [Hf Hn Hq Hcap]. unfold async_hook, add_fds. cbn [new_fds]. rewrite Hn. cbn [foldl fmap list_fmap].
  unfold async. cbn [fd_event_queues event_queue flush_batch].
  rewrite Hq, decide_False by (apply map_non_empty_singleton).
  destruct (flush_batch l || _); [|right; eexists; split; [reflexivity|by constructor]].
  destruct (event_queue l) eqn:He; [right; eexists; split; [reflexivity|by constructor]|].
  left. rewrite walk_one. cbn [hand_out fd_event_queues]. rewrite lookup_singleton_eq. cbn [default].
  rewrite (proj2 (Z.ltb_ge _ _)) by done. unfold set_fd_mode. cbn [fds]. by rewrite Hf.
Qed.

Lemma doomed_loop_step l l' out fd q :
  doomed l fd q -> loop_step l l' out -> silent out /\ doomed l' fd q.
Proof.
  intros Hd [e l1 out1 turn Hp|fd'| |l1 out1 Ha|fd' rd wr l1 out1 [m Hf] Hs|].
  - destruct Hd. unfold push in Hp. repeat case_match; simplify_eq; by repeat constructor.
  - split; [constructor|]. destruct Hd as [? ? Hq ?]. unfold connect_clients.
    rewrite Hq, decide_False by (apply map_non_empty_singleton). by constructor.
  - split; [constructor|]. by destruct Hd.
  - destruct (doomed_async l fd q Hd) as [Ht|(l2 & Ht & Hd2)]; rewrite Ht in Ha; [done|].
    injection Ha as <- <-. by split; [constructor|].
  - rewrite (doom_fds _ _ _ Hd), lookup_empty in Hf. done.
  - by split; [constructor|].
Qed.

Lemma doomed_step o p p' outs i l fd q :
  loops p !! i = Some l -> doomed l fd q -> step o p = Ok (p', outs) ->
  silent (outs_of i outs) /\ exists l', loops p' !! i = Some l' /\ doomed l' fd q.
Proof.
  intros Hl Hd (j & l0 & l' & out & Hj & -> & -> & Hstep)%step_on_loop. rewrite outs_of_pair.
  destruct (decide (i = j)) as [->|Hne].
  - rewrite Hl in Hj. injection Hj as <-.
    destruct (doomed_loop_step l l' out fd q Hd Hstep). split; [done|]. exists l'.
    by rewrite list_lookup_insert_eq by (by eapply lookup_lt_Some).
  - split; [constructor|]. exists l. by rewrite list_lookup_insert_ne.
Qed.

Lemma doomed_run ops p p' outs i l fd q :
  loops p !! i = Some l -> doomed l fd q -> run ops p = Ok (p', outs) ->
  silent (outs_of i outs) /\ exists l', loops p' !! i = Some l' /\ doomed l' fd q.
Proof.
  revert p outs l. induction ops as [|o ops IH]; intros p outs l Hl Hd; cbn [tcp_client_pool.run].
  { intros [= <- <-]. by split; [constructor|exists l]. }
  destruct (step o p) as [[p1 out1]|] eqn:Hs; [|done].
  destruct (run ops p1) as [[p2 out2]|] eqn:Hr; [|done]. intros [= <- <-].
  destruct (doomed_step o p p1 out1 i l fd q Hl Hd Hs) as (Hs1 & l1 & Hl1 & Hd1).
  destruct (IH p1 out2 l1 Hl1 Hd1 Hr) as (Hs2 & l2 & Hl2 & Hd2).
  rewrite outs_of_app. split; [by apply Forall_app_2|by exists l2].
Qed.

Lemma doomed_flush p i l fd q :
  loops p !! i = Some l -> doomed l fd q -> event_queue l <> [] ->
  run [Flush i; Async i] p = Throw undefined_behaviour.
Proof.
  intros Hl [Hf Hn Hq Hcap] He. cbn [tcp_client_pool.run tcp_client_pool.step]. unfold on_loop.
  rewrite Hl. cbn [res_map loops]. rewrite list_lookup_insert_eq by (by eapply lookup_lt_Some).
  cbn [signal_batch_flush signal_thread signalled].
  unfold async_hook, add_fds, async. cbn [new_fds signal_batch_flush signal_thread]. rewrite Hn.
  cbn [foldl fmap list_fmap fd_event_queues event_queue flush_batch signal_batch_flush signal_thread].
  rewrite Hq, decide_False by (apply map_non_empty_singleton). cbn [orb].
  destruct (event_queue l) as [|e es]; [done|]. rewrite walk_one.
  cbn [hand_out fd_event_queues]. rewrite lookup_singleton_eq. cbn [default].
  rewrite (proj2 (Z.ltb_ge _ _)) by done. unfold set_fd_mode. cbn [fds signal_batch_flush signal_thread].
  by rewrite Hf.
Qed.

Lemma fill_length q (c : tcp_connection.t B) : (length (fill q c).1 <= length q)%nat.
Proof.
  revert c. induction q as [|m q IH]; intros c; cbn [fill]; [done|].
  destruct (queue_write m c) as [c' []]; [|done]. specialize (IH c'). simpl. lia.
Qed.

Lemma write_fails l fd m (c : tcp_connection.t B) q :
  new_fds l = [] -> fds l = {[fd := m]} -> fd_event_queues l = {[fd := q]} ->
  Z.of_nat (length q) <= k_queue_capacity -> q <> [] ->
  exists q' l1, Z.of_nat (length q') <= k_queue_capacity
  /\ data_ready None (Some None) fd c q l = Ok (l1, [])
  /\ (exists c1, conn_map l1 !! fd = Some c1 /\ close_connection c1 = true)
  /\ new_fds l1 = [] /\ delete fd (fds l1) = ∅ /\ fd_event_queues l1 = {[fd := q']}.
Proof.
  intros Hn Hf Hq Hcap Hne. unfold data_ready. cbn [bool_decide andb].
  rewrite (bool_decide_false (q = [])), andb_false_r by done.
  rewrite (bool_decide_false (is_Some None)) by (by intros []). cbn [andb].
  pose proof (fill_length q c) as Hlen. destruct (fill q c) as [q' c'].
  exists q'. cbn [fmap option_fmap option_map write write_to_fd fst] in *.
  destruct (bool_decide (q' = q)).
  - eexists. split; [lia|]. split; [reflexivity|]. cbn [set_conn conn_map new_fds fds fd_event_queues].
    rewrite lookup_insert_eq, Hn, Hf, Hq, delete_singleton_eq, insert_singleton_eq. split; [by eexists|done].
  - unfold set_fd_mode. cbn [set_conn fds]. rewrite Hf, lookup_singleton_eq. cbn [res_map].
    eexists. split; [lia|]. split; [reflexivity|]. cbn [set_conn conn_map new_fds fds fd_event_queues].
    rewrite lookup_insert_eq, Hn, Hq, !insert_singleton_eq, delete_singleton_eq. split; [by eexists|done].
Qed.

(** A failed write is fatal.  When the write to the connection of a loop fails, the connection
    is closed but its queue stays in [fd_event_queues_]: whatever happens afterwards,
    for as long as the process is alive, the loop never connects again and sends nothing,
    and the next time that it flushes events it sets the mode of a descriptor
    which is not there any more, which is undefined. *)
Theorem write_error_fatal (p : tcp_client_pool.t B) (i : nat) (l : loop_t B) (fd : Z) (m : fd_mode)
    (c : tcp_connection.t B) (q : list (list Z)) :
  loops p !! i = Some l -> new_fds l = [] -> fds l = {[fd := m]} -> conn_map l = {[fd := c]} ->
  fd_event_queues l = {[fd := q]} -> Z.of_nat (length q) <= k_queue_capacity ->
  close_connection c = false -> q <> [] ->
  exists p1, step (Ready i fd None (Some None)) p = Ok (p1, [(i, Closed fd)])
  /\ forall ops p2 outs, run ops p1 = Ok (p2, outs) ->
     added (outs_of i outs) = [] /\ batches (outs_of i outs) = [] /\ sent_bytes (outs_of i outs) = []
     /\ forall l2, loops p2 !! i = Some l2 -> event_queue l2 <> [] ->
        run [Flush i; Async i] p2 = Throw undefined_behaviour.
Proof.
  intros Hl Hn Hf Hc Hq Hcap Ho Hne. cbn [tcp_client_pool.step]. unfold on_loop. rewrite Hl, Hf.
  rewrite lookup_singleton_eq. unfold socket_callback. rewrite Hc, Hq, !lookup_singleton_eq.
  assert (exists q' l1, Z.of_nat (length q') <= k_queue_capacity
    /\ data_ready None (Some None) fd c q l = Ok (l1, [])
    /\ (exists c1, conn_map l1 !! fd = Some c1 /\ close_connection c1 = true)
    /\ new_fds l1 = [] /\ delete fd (fds l1) = ∅ /\ fd_event_queues l1 = {[fd := q']})
    as (q' & l1 & Hcap' & Hd & (c1 & Hc1 & Ho1) & Hn1 & Hf1 & Hq1).
  { by eapply write_fails. }
  rewrite Hd. cbn [res_map]. rewrite Hc1, Ho1. eexists. split; [reflexivity|].
  intros ops p2 outs Hrun.
  edestruct (doomed_run ops) as (Hs & l2 & Hl2 & Hd2); [| |exact Hrun|].
  - cbn [loops]. rewrite list_lookup_insert_eq by (by eapply lookup_lt_Some). reflexivity.
  - by constructor.
  - destruct (silent_nothing _ Hs) as (? & ? & ?). repeat split; [done..|].
    intros l3 Hl3 He. rewrite Hl2 in Hl3. injection Hl3 as <-. by eapply doomed_flush.
Qed.
End client_pool.

(** ** [graphite] and [riemann_tcp_client] *)

Import tcp_client_pool.

(** [push_event] of both: the pools are kept by host, and a host keeps the port that its
    pool was made with. *)
Definition client_push_event {B} `{CircularBuffer B} (batch_size pool_size : nat) (host : string)
    (port : Z) (e : Event) (pool_map_ : gmap string (Z * t B))
  : result (gmap string (Z * t B) * list (Z * nat * pool_out)) :=
  let '(port, pool) := default (port, new pool_size) (pool_map_ !! host) in
  res_map (fun '(pool, out) =>
             (<[host := (port, pool)]> pool_map_, (fun '(i, o) => (port, i, o)) <$> out))
    (push_event batch_size e pool).

(** ** Concrete pools *)

(** What is meant for another port of a host goes to the first one. *)
Example port_ignored :
  let push port e m := client_push_event (B := ring) 10 1 "graphite" port e m in
  res_map snd (res_bind (fun '(m, _) => push 2004 (Event.set_time 2 Event.empty) m)
                 (push 2003 (Event.set_time 1 Event.empty) ∅))
  = Ok [(2003, 0%nat, Queued (Event.set_time 2 Event.empty))].
Proof. vm_compute. reflexivity. Qed.

(** A full batch is signalled, but the loop asks for one event more. *)
Example full_batch_waits :
  res_map (fun '(_, outs) => batches (outs_of 0 outs))
    (run (fun _ => [1]) 2 (fun ks => ks)
       [Connect 0 (Some 5); Async 0; PushEvent Event.empty; PushEvent Event.empty; Async 0]
       (new (B := ring) 1))
  = Ok [].
Proof. vm_compute. reflexivity. Qed.

(** Two events in one batch, of which the socket takes three bytes. *)
Lemma client_pool_fifo_witness :
  let ev t := Event.set_time t Event.empty in
  let output es := es ≫= (fun e => [7; Event.time e]) in
  let ops := [PushEvent (ev 1); Connect 0 (Some 5); Async 0; PushEvent (ev 2); Flush 0; Async 0;
              Ready 0 5 None (Some (Some 3%nat))] in
  exists p outs l c q,
    run output 10 (fun ks => ks) ops (new (B := ring) 1) = Ok (p, outs)
    /\ loops p !! 0%nat = Some l /\ conn_map l !! 5 = Some c /\ fd_event_queues l !! 5 = Some q
    /\ sent_bytes (outs_of 0 outs) = [7; 1; 7]
    /\ [7; 1; 7] ++ cb_data (tcp_connection.w_buffer c) ++ concat q = [7; 1; 7; 2].
Proof.
  cbv zeta.
  destruct (run _ 10 (fun ks => ks) _ (new (B := ring) 1)) as [[p outs]|] eqn:Hrun;
    [|vm_compute in Hrun; discriminate Hrun].
  assert (exists l, loops p !! 0%nat = Some l) as [l Hl]
    by (vm_compute in Hrun; injection Hrun as <- _; by eexists).
  pose proof (client_pool_fifo _ 10 (fun ks => ks) (fun ks => Permutation_refl ks) 1 _ p outs 0 l
    Hrun Hl) as [_ H]. cbv zeta in H.
  assert (outs_of 0 outs = [Queued (Event.set_time 1 Event.empty); Added 5;
    Queued (Event.set_time 2 Event.empty);
    Batch [Event.set_time 1 Event.empty; Event.set_time 2 Event.empty]; Sent 5 [7; 1; 7]]) as Ho
    by (vm_compute in Hrun; injection Hrun as _ <-; reflexivity).
  rewrite Ho in H. destruct (H 5 eq_refl eq_refl) as (c & q & Hc & Hq & Hb).
  exists p, outs, l, c, q. rewrite Ho. repeat split; try done.
Defined.

(** The write of a queued output fails; the next event brings the process down. *)
Lemma write_error_fatal_witness :
  let l := MkLoop (B := ring) [] false false [] {[5 := mode_readwrite]}
             {[5 := tcp_connection.new]} {[5 := [[1; 2]]]} in
  exists p1 p2 outs,
    step (fun _ => [3]) 10 (fun ks => ks) (Ready 0 5 None (Some None)) (Mk [l] 0)
    = Ok (p1, [(0%nat, Closed 5)])
    /\ run (fun _ => [3]) 10 (fun ks => ks) [PushEvent Event.empty] p1 = Ok (p2, outs)
    /\ run (fun _ => [3]) 10 (fun ks => ks) [Flush 0; Async 0] p2 = Throw undefined_behaviour.
Proof.
  cbv zeta. set (l := MkLoop _ _ _ _ _ _ _).
  destruct (write_error_fatal (fun _ => [3]) 10 (fun ks => ks) (fun ks => Permutation_refl ks)
    (Mk [l] 0) 0 l 5 mode_readwrite tcp_connection.new [[1; 2]]) as (p1 & Hs & Hrest); try done.
  exists p1.
  destruct (run (fun _ => [3]) 10 (fun ks => ks) [PushEvent Event.empty] p1) as [[p2 outs]|] eqn:Hr.
  - exists p2, outs. split; [done|]. split; [done|].
    destruct (Hrest [PushEvent Event.empty] p2 outs Hr) as (_ & _ & _ & Hf).
    vm_compute in Hs. injection Hs as <-. vm_compute in Hr. injection Hr as <- <-.
    eapply Hf; [reflexivity|done].
  - exfalso. vm_compute in Hs. injection Hs as <-. vm_compute in Hr. discriminate Hr.
Defined.
