(* ===== verification/Outlets.v ===== *)
(** * From the rules to other servers

    [graphite] and [riemann_tcp_client] of [src/external/] keep a client pool for every host
    ([client_push_event] of [ClientPool]).  Here the pools of all hosts run together with the calls of
    the rules ([System]): what the rules send to a graphite server is what its socket gets, line by line, and
    what they forward to another server is what that server reads from its connection ([Tcp]). *)

From S2P Require Import Prelude Containers Events Infra Dispatch Tcp TcpPool WebSocket Instrumentation External Index System ClientPool.

Local Open Scope Z_scope.

(** ** Pools by host *)

Section outlets.
Import tcp_client_pool.
Context {B : Type} `{CircularBuffer B}.
Variable output : list Event -> list Z.
Variable batch_size pool_size : nat.
Variable walk : list Z -> list Z.

(** The pools with their ports, and what they have done. *)
Record outlet : Type := MkOutlet {
  pool_map_ : gmap string (Z * tcp_client_pool.t B);
  seen : gmap string (list (nat * pool_out))
}.
Definition outlet_new : outlet := MkOutlet ∅ ∅.

(** The calls of the rules, and what happens to the pool of a host. *)
Inductive outlet_op : Type :=
| Push (host : string) (port : Z) (e : Event)
| Pool (host : string) (o : pool_op).

Definition note (host : string) (outs : list (nat * pool_out)) (d : gmap string (list (nat * pool_out)))
  : gmap string (list (nat * pool_out)) := <[host := default [] (d !! host) ++ outs]> d.

Definition outlet_step (o : outlet_op) (x : outlet) : result outlet :=
  match o with
  | Push host port e =>
      res_map (fun '(pools, out) => MkOutlet pools (note host ((fun '(_, i, o) => (i, o)) <$> out) (seen x)))
        (client_push_event batch_size pool_size host port e (pool_map_ x))
  | Pool host (PushEvent _) => Ok x
  | Pool host o =>
      match pool_map_ x !! host with
      | Some (port, p) =>
          res_map (fun '(p, out) => MkOutlet (<[host := (port, p)]> (pool_map_ x)) (note host out (seen x)))
            (tcp_client_pool.step output batch_size walk o p)
      | None => Ok x
      end
  end.
Fixpoint outlet_run (os : list outlet_op) (x : outlet) : result outlet :=
  match os with [] => Ok x | o :: os' => res_bind (outlet_run os') (outlet_step o x) end.

(** The events that were pushed for a host, and those that its pool has taken or rejected. *)
Definition pushed (host : string) (os : list outlet_op) : list Event :=
  omap (fun o => match o with Push h _ e => if decide (h = host) then Some e else None | _ => None end) os.
Definition answered (o : nat * pool_out) : option Event :=
  match o.2 with Queued e | Rejected e => Some e | _ => None end.

(** *** The pool of a host is a run of a client pool *)

Definition answers (outs : list (nat * pool_out)) : list Event := omap answered outs.

Lemma run_snoc_pool o : forall ops (p0 p p' : tcp_client_pool.t B) outs out,
  tcp_client_pool.run output batch_size walk ops p0 = Ok (p, outs) ->
  tcp_client_pool.step output batch_size walk o p = Ok (p', out) ->
  tcp_client_pool.run output batch_size walk (ops ++ [o]) p0 = Ok (p', outs ++ out).
Proof.
  induction ops as [|o1 ops IH]; intros p0 p p' outs out; cbn [app tcp_client_pool.run].
  - intros [= <- <-] ->. cbn. by rewrite app_nil_r.
  - destruct (tcp_client_pool.step _ _ _ o1 p0) as [[p1 out1]|]; [|done].
    destruct (tcp_client_pool.run _ _ _ ops p1) as [[p2 out2]|] eqn:Hr; [|done]. intros [= <- <-] Hs.
    rewrite (IH _ _ _ _ _ Hr Hs). cbn. by rewrite app_assoc.
Qed.

(** Only [push_event] answers. *)
Lemma push_answers e (p p' : tcp_client_pool.t B) out : push_event batch_size e p = Ok (p', out) -> answers out = [e].
Proof.
  unfold push_event, push. destruct (loops p !! next_thread_ p) as [l|]; [|done].
  destruct (_ <=? _); [by intros [= <- <-]|]. cbn [event_queue]. by destruct (_ <? _)%nat; intros [= <- <-].
Qed.

Lemma hand_out_answers bytes ks : forall (l l' : loop_t B) out i,
  hand_out bytes ks l = Ok (l', out) -> answers (pair i <$> out) = [].
Proof.
  revert bytes. induction ks as [|fd ks IH]; intros bytes l l' out i; cbn [hand_out]; [by intros [= <- <-]|].
  destruct (_ <? _).
  - destruct (hand_out bytes ks l) as [[l1 out1]|] eqn:Hh; [|done]. intros [= <- <-]. exact (IH _ _ _ _ i Hh).
  - destruct (set_fd_mode _ _ _) as [l1|]; [|done]. apply IH.
Qed.

Lemma answers_app a b : answers (a ++ b) = answers a ++ answers b.
Proof. apply omap_app. Qed.

Lemma added_answers i fds : answers (pair i <$> (Added <$> fds)) = [].
Proof. by induction fds. Qed.

Lemma async_hook_answers (l l' : loop_t B) out i :
  async_hook output batch_size walk l = Ok (l', out) -> answers (pair i <$> out) = [].
Proof.
  unfold async_hook, add_fds, async. cbn zeta. set (l1 := foldl _ _ _).
  assert (forall l2 out2, Ok (l1, []) = Ok (l2, out2) -> answers (pair i <$> out2) = []) as Hnil by (by intros ? ? [= <- <-]).
  destruct (decide _). { intros [= <- <-]. rewrite app_nil_r. apply added_answers. }
  destruct (_ || _). 2: { intros [= <- <-]. rewrite app_nil_r. apply added_answers. }
  destruct (event_queue l1) as [|e es] eqn:He. { intros [= <- <-]. rewrite app_nil_r. apply added_answers. }
  destruct (hand_out _ _ _) as [[l2 out2]|] eqn:Hh; [|done]. intros [= <- <-].
  rewrite fmap_app, answers_app, added_answers. cbn. exact (hand_out_answers _ _ _ _ _ i Hh).
Qed.

Lemma data_ready_answers rd wr fd c q (l l' : loop_t B) out i :
  data_ready rd wr fd c q l = Ok (l', out) -> answers (pair i <$> out) = [].
Proof.
  unfold data_ready. destruct (_ && _); [by intros [= <- <-]|]. destruct (_ && _).
  { destruct (set_fd_mode _ _ _); [|done]. by intros [= <- <-]. }
  destruct wr as [written|]; [|by intros [= <- <-]]. destruct (fill q _) as [q' c'].
  destruct (bool_decide _); [|destruct (set_fd_mode _ _ _); [|done]]; intros [= <- <-]; by destruct written.
Qed.

Lemma callback_answers rd wr fd (l l' : loop_t B) out i :
  socket_callback rd wr fd l = Ok (l', out) -> answers (pair i <$> out) = [].
Proof.
  unfold socket_callback. destruct (conn_map l !! fd) as [c|]; [|done]. destruct (fd_event_queues l !! fd) as [q|]; [|done].
  destruct (data_ready rd wr fd c q l) as [[l1 out1]|] eqn:Hd; [|done]. cbn.
  pose proof (data_ready_answers _ _ _ _ _ _ _ _ i Hd) as Ha.
  destruct (conn_map l1 !! fd) as [c1|]; [destruct (tcp_connection.close_connection c1)|]; intros [= <- <-]; [|done|done].
  by rewrite fmap_app, answers_app, Ha.
Qed.

Lemma step_answers o (p p' : tcp_client_pool.t B) out :
  tcp_client_pool.step output batch_size walk o p = Ok (p', out) ->
  answers out = match o with PushEvent e => [e] | _ => [] end.
Proof.
  destruct o as [e|i fd|i|i|i fd rd wr]; cbn [tcp_client_pool.step]; unfold on_loop.
  { apply push_answers. }
  all: destruct (loops p !! i) as [l|]; [|done].
  - by intros [= <- <-].
  - by intros [= <- <-].
  - destruct (signalled l); [|by intros [= <- <-]].
    destruct (async_hook output batch_size walk l) as [[l' out']|] eqn:Ha; [|done]. intros [= <- <-].
    exact (async_hook_answers _ _ _ i Ha).
  - destruct (fds l !! fd); [|by intros [= <- <-]].
    destruct (socket_callback rd wr fd l) as [[l' out']|] eqn:Hc; [|done]. intros [= <- <-].
    exact (callback_answers _ _ _ _ _ _ i Hc).
Qed.

(** The pool of a host, or the one that it would get, and what it has done. *)
Definition pool_of (host : string) (x : outlet) : tcp_client_pool.t B := (default (0, new pool_size) (pool_map_ x !! host)).2.
Definition seen_of (host : string) (x : outlet) : list (nat * pool_out) := default [] (seen x !! host).

(** What is known of the pool of [host] after the operations [os]. *)
Record host_ok (host : string) (os : list outlet_op) (p : tcp_client_pool.t B) (outs : list (nat * pool_out)) : Prop := {
  host_run : exists ops, tcp_client_pool.run output batch_size walk ops (new pool_size) = Ok (p, outs);
  host_pushed : answers outs = pushed host os
}.

Definition outlet_ok (os : list outlet_op) (x : outlet) : Prop :=
  forall host, host_ok host os (pool_of host x) (seen_of host x).

Lemma host_ok_step host os o p outs po p' out :
  host_ok host os p outs -> tcp_client_pool.step output batch_size walk po p = Ok (p', out) ->
  pushed host [o] = match po with PushEvent e => [e] | _ => [] end ->
  host_ok host (os ++ [o]) p' (outs ++ out).
Proof.
  intros [[ops Hrun] Hp] Hs Ho. split.
  - exists (ops ++ [po]). by eapply run_snoc_pool.
  - unfold pushed in *. by rewrite answers_app, (step_answers _ _ _ _ Hs), Hp, omap_app, Ho.
Qed.

Lemma host_ok_other host os o p outs : host_ok host os p outs -> pushed host [o] = [] -> host_ok host (os ++ [o]) p outs.
Proof. intros [Hr Hp] Ho. split; [done|]. unfold pushed in *. by rewrite omap_app, Ho, app_nil_r. Qed.

(** A step of the pool of [h]. *)
Lemma outlet_ok_at os o x h port p' out po :
  outlet_ok os x -> tcp_client_pool.step output batch_size walk po (pool_of h x) = Ok (p', out) ->
  (forall host, pushed host [o] = if decide (host = h) then match po with PushEvent e => [e] | _ => [] end else []) ->
  outlet_ok (os ++ [o]) (MkOutlet (<[h := (port, p')]> (pool_map_ x)) (note h out (seen x))).
Proof.
  intros Hok Hs Ho host. specialize (Ho host). unfold pool_of, seen_of, note. cbn [pool_map_ seen].
  destruct (decide (host = h)) as [->|Hne].
  - rewrite !lookup_insert_eq. cbn. by eapply host_ok_step; [apply Hok|done|].
  - rewrite !lookup_insert_ne by done. by apply host_ok_other; [apply Hok|].
Qed.

Lemma outlet_step_ok os o x x' : outlet_ok os x -> outlet_step o x = Ok x' -> outlet_ok (os ++ [o]) x'.
Proof.
  intros Hok. destruct o as [h port e|h po]; cbn [outlet_step].
  - unfold client_push_event. destruct (default (port, new pool_size) (pool_map_ x !! h)) as [port' p] eqn:Hd.
    assert (p = pool_of h x) as -> by (unfold pool_of; destruct (pool_map_ x !! h) as [[]|]; by injection Hd as -> ->).
    destruct (push_event batch_size e (pool_of h x)) as [[p' out]|] eqn:Hp; [|done]. cbn. intros [= <-].
    rewrite <- list_fmap_compose. replace (compose _ _ <$> out) with out
      by (rewrite <- (list_fmap_id out) at 1; apply list_fmap_ext; by intros ? [] ?).
    eapply (outlet_ok_at _ _ _ _ _ _ _ (PushEvent e)); [done|exact Hp|].
    intros host. unfold pushed. cbn. destruct (decide (host = h)), (decide (h = host)); congruence.
  - assert (forall host, pushed host [Pool h po] = []) as Hn by done.
    assert (outlet_ok (os ++ [Pool h po]) x) as Hsame by (intros host; by apply host_ok_other; [apply Hok|]).
    assert (forall r, (forall e, po <> PushEvent e) -> match pool_map_ x !! h with
      | Some (port, p) => res_map (fun '(p, out) => MkOutlet (<[h := (port, p)]> (pool_map_ x)) (note h out (seen x)))
            (tcp_client_pool.step output batch_size walk po p)
      | None => Ok x end = Ok r -> outlet_ok (os ++ [Pool h po]) r) as Hgo.
    { intros r Hpo. destruct (pool_map_ x !! h) as [[port p]|] eqn:Hm; [|by intros [= <-]].
      destruct (tcp_client_pool.step output batch_size walk po p) as [[p' out]|] eqn:Hs; [|done]. intros [= <-].
      eapply (outlet_ok_at _ _ _ _ _ _ _ po); [done|unfold pool_of; by rewrite Hm|].
      intros host. rewrite Hn. by destruct (decide _), po; try done; edestruct Hpo. }
    destruct po; [by intros [= <-]|..]; by apply Hgo.
Qed.

Lemma outlet_run_ok os : forall os0 x x', outlet_ok os0 x -> outlet_run os x = Ok x' -> outlet_ok (os0 ++ os) x'.
Proof.
  induction os as [|o os IH]; intros os0 x x' Hok; cbn [outlet_run]; [intros [= <-]; by rewrite app_nil_r|].
  destruct (outlet_step o x) as [x1|] eqn:Hs; [|done]. cbn [res_bind]. intros Hr.
  rewrite cons_middle, app_assoc. eapply IH; [|done]. by eapply outlet_step_ok.
Qed.

Lemma outlet_new_ok : outlet_ok [] outlet_new.
Proof.
  intros host. unfold pool_of, seen_of. cbn. rewrite !lookup_empty. split; [|done]. by exists [].
Qed.
End outlets.

(** ** What arrives *)

(** The calls that an operation stands for, and those of the rules to a host. *)
Definition graphite_push (o : outlet_op) : option pool_call := match o with Push h port e => Some (PGraphite h port e) | _ => None end.
Definition forward_push (o : outlet_op) : option pool_call := match o with Push h port e => Some (PForward h port e) | _ => None end.
Definition is_graphite (c : pool_call) : option pool_call := match c with PGraphite _ _ _ => Some c | _ => None end.
Definition is_forward (c : pool_call) : option pool_call := match c with PForward _ _ _ => Some c | _ => None end.

Definition to_graphite (host : string) (xs : list effect) : list Event :=
  omap (fun x => match x with EGraphite h _ e => if decide (h = host) then Some e else None | _ => None end) xs.
Definition to_forward (host : string) (xs : list effect) : list Event :=
  omap (fun x => match x with EForward h _ e => if decide (h = host) then Some e else None | _ => None end) xs.

Definition call_to (host : string) (c : pool_call) : option Event :=
  match c with PGraphite h _ e | PForward h _ e => if decide (h = host) then Some e else None | _ => None end.

Lemma omap_omap {A A' A''} (f : A -> option A') (g : A' -> option A'') (l : list A) : omap g (omap f l) = omap (fun x => f x ≫= g) l.
Proof. induction l as [|x l IH]; [done|]. csimpl. destruct (f x) as [y|]; csimpl; [by destruct (g y); rewrite IH|done]. Qed.

Lemma omap_ext_in {A A'} (f g : A -> option A') (l : list A) : (forall x, f x = g x) -> omap f l = omap g l.
Proof. intros Hfg. induction l as [|x l IH]; [done|]. csimpl. by rewrite Hfg, IH. Qed.

Lemma graphite_pushed host os xs :
  omap graphite_push os = omap is_graphite (omap call_of xs) -> pushed host os = to_graphite host xs.
Proof.
  intros Hl. apply (f_equal (omap (call_to host))) in Hl. rewrite !omap_omap in Hl.
  transitivity (omap (fun o => graphite_push o ≫= call_to host) os); [|rewrite Hl]; apply omap_ext_in; by intros [].
Qed.
Lemma forward_pushed host os xs :
  omap forward_push os = omap is_forward (omap call_of xs) -> pushed host os = to_forward host xs.
Proof.
  intros Hl. apply (f_equal (omap (call_to host))) in Hl. rewrite !omap_omap in Hl.
  transitivity (omap (fun o => forward_push o ≫= call_to host) os); [|rewrite Hl]; apply omap_ext_in; by intros [].
Qed.

Section delivery.
Import tcp_client_pool.
Context {B : Type} `{CircularBufferLaws B}.
Context {U : Type -> Type} `{UnorderedMap U}.
Variable hash_fn : string -> nat.
Variable pool_size : nat.
Variable walk : list Z -> list Z.
Hypothesis walk_perm : forall l, walk l ≡ₚ l.

Abbreviation w_data c := (cb_data (tcp_connection.w_buffer c)).

Lemma outlet_loop_ok output batch_size os (x : outlet) host i l :
  outlet_run (B := B) output batch_size pool_size walk os outlet_new = Ok x ->
  loops (pool_of pool_size host x) !! i = Some l -> loop_ok output l (outs_of i (seen_of host x))
  /\ answers (seen_of host x) = pushed host os.
Proof.
  intros Hrun Hl. destruct (outlet_run_ok output batch_size pool_size walk os [] _ _
    (outlet_new_ok output batch_size pool_size walk) Hrun host) as [[ops Hr] Ha]. split; [|done].
  exact (client_run_ok output batch_size walk walk_perm ops _ [] _ _ (client_new_ok _ _) Hr i l Hl).
Qed.

(** What the rules have asked for is what the external services were called with. *)
Lemma system_calls start i s ex sos (y : system U) :
  real_external.new start i = Some ex -> system_run hash_fn sos (system_new s ex) = Ok y ->
  real_external.calls (externals_ y) = omap call_of (asked y).
Proof. intros Hex Hrun. pose proof (requests_performed hash_fn start i s ex sos Hex) as Hr. rewrite Hrun in Hr. apply Hr. Qed.

Definition k_batch_size : nat := 100.
Definition graphite_bytes (es : list Event) : list Z := byte_of <$> graphite_output_events es.

Lemma graphite_bytes_app a b : graphite_bytes (a ++ b) = graphite_bytes a ++ graphite_bytes b.
Proof. unfold graphite_bytes. by rewrite !graphite_output_lines, bind_app, fmap_app. Qed.

Lemma graphite_bytes_concat bs es : concat (graphite_bytes <$> bs) ++ graphite_bytes es = graphite_bytes (concat bs ++ es).
Proof.
  induction bs as [|b bs IH]; [done|]. rewrite fmap_cons. cbn [concat].
  by rewrite <- !app_assoc, IH, (graphite_bytes_app b).
Qed.

(** C7. From the rules to graphite.  Every event that the rules send to a graphite server is answered by its pool, in
    order: it is taken by the queue of a loop, or rejected because the queue is full.  While a loop has one
    connection, which has neither been closed nor overflowed, the bytes that its socket has taken,
    those in its write buffer, those queued behind it and the lines of the events that
    wait for a batch are together the lines of the events that its queue has taken: no line is lost, repeated,
    reordered or torn, however rules, timers, signals and sockets interleave. *)
Theorem graphite_delivery (start : Z) (i : instrumentation.t) (s : streams) (ex : real_external.t) (sos : list system_op)
    (y : system U) (os : list outlet_op) (x : outlet) (host : string) :
  real_external.new start i = Some ex ->
  system_run hash_fn sos (system_new s ex) = Ok y ->
  omap graphite_push os = omap is_graphite (real_external.calls (externals_ y)) ->
  outlet_run (B := B) graphite_bytes k_batch_size pool_size walk os outlet_new = Ok x ->
  answers (seen_of host x) = to_graphite host (asked y)
  /\ forall j l fd, loops (pool_of pool_size host x) !! j = Some l ->
     let outs := outs_of j (seen_of host x) in
     added outs = [fd] -> broken outs = false ->
     exists c q, conn_map l !! fd = Some c /\ fd_event_queues l !! fd = Some q
     /\ sent_bytes outs ++ w_data c ++ concat q ++ graphite_bytes (event_queue l) = graphite_bytes (queued outs).
Proof.
  intros Hex Hsys Hlink Hrun. rewrite (system_calls _ _ _ _ _ _ Hex Hsys) in Hlink. split.
  - destruct (outlet_run_ok _ _ _ _ os [] _ _ (outlet_new_ok _ _ _ _) Hrun host) as [_ ->]. by apply graphite_pushed.
  - intros j l fd Hl outs Ha Hb. destruct (outlet_loop_ok _ _ _ _ _ _ _ Hrun Hl) as [[He _ Hone] _].
    destruct (Hone fd Ha Hb) as (c & q & [_ Hc Hq _ Hbytes]). exists c, q. rewrite Hc, Hq, !lookup_singleton_eq.
    split; [done|]. split; [done|]. fold outs in He, Hbytes. rewrite He, <- graphite_bytes_concat, <- Hbytes.
    by rewrite <- !app_assoc.
Qed.

End delivery.

(** ** Runs *)

(** A library that sends what it gets to graphite and forwards it. *)
Definition sending_slot : stream_lib :=
  let c := init_streams (create_stream (fun e => bind (tell (EGraphite "g" 2003 e)) (fun _ => bind (tell (EForward "f" 5555 e)) (fun _ => ret [])))) in
  MkSlot "send.so" 0 true (Some (MkLoaded c (chain_init 0 c 0).1)) true.
Definition sending : streams := MkStreams [sending_slot] false.
Definition sent_event (t : Z) : Event :=
  Event.set_time t (Event.set_service "disk free" (Event.set_host "a" Event.empty)).
Definition sending_ops : list system_op := [Message 7 [sent_event 1; sent_event 2]].

(** The first event is batched before the second one comes. *)
Definition outlet_sample (host : string) (port : Z) : list outlet_op :=
  [ Push host port (sent_event 1); Pool host (tcp_client_pool.Connect 0 (Some 5)); Pool host (tcp_client_pool.Flush 0);
    Pool host (tcp_client_pool.Async 0); Pool host (tcp_client_pool.Ready 0 5 None (Some (Some 1000%nat)));
    Push host port (sent_event 2) ].

Lemma graphite_delivery_witness :
  exists (y : system hash_map) (x : outlet (B := ring)),
    system_run String.length sending_ops (system_new sending fresh_external) = Ok y
    /\ outlet_run graphite_bytes k_batch_size 1 (fun ks => ks) (outlet_sample "g" 2003) outlet_new = Ok x
    /\ answers (seen_of "g" x) = to_graphite "g" (asked y)
    /\ to_graphite "g" (asked y) = [sent_event 1; sent_event 2].
Proof.
  destruct (system_run (U := hash_map) String.length sending_ops (system_new sending fresh_external)) as [y|] eqn:Hy;
    [|vm_compute in Hy; discriminate Hy].
  destruct (outlet_run (B := ring) graphite_bytes k_batch_size 1 (fun ks => ks) (outlet_sample "g" 2003) outlet_new)
    as [x|] eqn:Hx; [|vm_compute in Hx; discriminate Hx].
  assert (asked y = [EGraphite "g" 2003 (sent_event 1); EForward "f" 5555 (sent_event 1);
    EGraphite "g" 2003 (sent_event 2); EForward "f" 5555 (sent_event 2)]) as Ha
    by (vm_compute in Hy; by injection Hy as <-).
  assert (omap graphite_push (outlet_sample "g" 2003) = omap is_graphite (real_external.calls (externals_ y))) as Hc
    by (vm_compute in Hy; by injection Hy as <-).
  exists y, x. split; [done|]. split; [done|]. split; [|by rewrite Ha].
  exact (proj1 (graphite_delivery (B := ring) (U := hash_map) String.length 1 (fun ks => ks) (fun ks => Permutation_refl ks)
    0 instrumentation.new sending fresh_external sending_ops y (outlet_sample "g" 2003) x "g" eq_refl Hy Hc Hx)).
Defined.

