(* ===== verification/RiemannPool.v ===== *)
(** * The riemann servers

    [src/riemann_tcp_pool.cpp] on top of [tcp_pool], and [src/transport/udp_pool.cpp] with
    [src/riemann_udp_pool.cpp].

    Accepted descriptors go to the loops in turn; every loop reads from its clients, cuts the
    bytes into messages and hands them on.  New clients, signals and descriptors that are ready
    come in any order; what [recv] and [write] return is an input. *)

From S2P Require Import Prelude Events Tcp TcpPool.

Local Open Scope Z_scope.

(** What can be observed: a connection is made or dropped (the gauge goes up or down), bytes come
    from a client or go to it, and a message is handed on. *)
Inductive server_out : Type :=
| Opened (fd : Z)
| Dropped (fd : Z)
| Received (fd : Z) (bytes : list Z)
| Written (fd : Z) (bytes : list Z)
| Message (fd : Z) (msg : list Z).

Module riemann_tcp_pool.
Import tcp_connection.
Section pool.
Context {B : Type} `{CircularBuffer B}.
Variable msg_ok : list Z.

(** The fields of a [riemann_tcp_connection]; its reference to the [tcp_connection] is the entry
    of [conn_map] with the same descriptor. *)
Record conn_data : Type := MkData { reading_header : bool; protobuf_size : Z }.
Abbreviation connections := (gmap Z conn_data).
Abbreviation loop := (tcp_pool.loop_t B connections).

Definition conn_to_mode (c : tcp_connection.t B) : fd_mode :=
  if pending_read c && pending_write c then mode_readwrite
  else if pending_read c then mode_read
  else if pending_write c then mode_write
  else mode_none.

Definition create_conn (fd : Z) (cs : connections) : connections * list server_out :=
  (insert_new fd (MkData true 0) cs, [Opened fd]).

Definition state_of (c : tcp_connection.t B) (d : conn_data) : riemann_tcp_connection.state B :=
  riemann_tcp_connection.MkState c (reading_header d) (protobuf_size d).

Definition data_ready (r : fd_ready) (fd : Z) (l : loop) : result (loop * list server_out) :=
  match tcp_pool.user l !! fd, tcp_pool.conn_map l !! fd with
  | Some d, Some c =>
      match riemann_tcp_connection.callback msg_ok (ready_read r) (ready_write r) (state_of c d) with
      | None => Throw undefined_behaviour
      | Some (s, msgs) =>
          let c := riemann_tcp_connection.tcp_connection_ s in
          let d := MkData (riemann_tcp_connection.reading_header_ s)
                     (riemann_tcp_connection.protobuf_size_ s) in
          let fds := alter (fun _ => conn_to_mode c) fd (tcp_pool.fds l) in
          let conns := <[fd := c]> (tcp_pool.conn_map l) in
          if close_connection c then
            Ok (tcp_pool.MkLoop (tcp_pool.signalled l) (tcp_pool.new_fds l) fds conns
                  (delete fd (tcp_pool.user l)), (Message fd <$> msgs) ++ [Dropped fd])
          else
            Ok (tcp_pool.MkLoop (tcp_pool.signalled l) (tcp_pool.new_fds l) fds conns
                  (<[fd := d]> (tcp_pool.user l)), Message fd <$> msgs)
      end
  | _, _ => Throw (user_exception "CHECK")
  end.

(** There is no function for a signal. *)
Definition no_async (l : loop) : result (loop * list server_out) := Ok (l, []).

Definition new (thread_num : nat) : tcp_pool.t B connections := tcp_pool.new thread_num ∅.
Definition add_client (fd : Z) (p : tcp_pool.t B connections) : tcp_pool.t B connections :=
  tcp_pool.add_client fd p.

(** ** What happens to it *)

(** The system reads at most what there is room for, and writes at most what is there: what the
    calls return for a descriptor that is ready, and the bytes that they move. *)
Definition clip (s : riemann_tcp_connection.state B) (r : fd_ready) : fd_ready * list Z * list Z :=
  let c := riemann_tcp_connection.tcp_connection_ s in
  let free := Z.to_nat (cb_reserve (r_buffer c)) in
  let rd := option_map (option_map (take free)) (ready_read r) in
  let bytes := match rd with Some (Some l) => l | _ => [] end in
  match riemann_tcp_connection.callback msg_ok rd None s with
  | None => (MkReady (ready_error r) rd None, bytes, [])
  | Some (s, _) =>
      let w := cb_data (w_buffer (riemann_tcp_connection.tcp_connection_ s)) in
      let wr := option_map (option_map (fun n => Nat.min n (length w))) (ready_write r) in
      let out :=
        match wr with
        | Some (Some n) =>
            if close_connection (riemann_tcp_connection.tcp_connection_ s) then [] else take n w
        | _ => []
        end in
      (MkReady (ready_error r) rd wr, bytes, out)
  end.

Definition ready (r : fd_ready) (fd : Z) (l : loop) : result (loop * list server_out) :=
  match tcp_pool.user l !! fd, tcp_pool.conn_map l !! fd with
  | Some d, Some c =>
      let '(r, bytes, out) := clip (state_of c d) r in
      res_map (fun '(l, out') => (l, [Received fd bytes] ++ out' ++ [Written fd out]))
        (tcp_pool.socket_callback data_ready r fd l)
  | _, _ => tcp_pool.socket_callback data_ready r fd l
  end.

Inductive pool_op : Type :=
| AddClient (fd : Z)
| Async (loop_id : nat)
| Ready (loop_id : nat) (fd : Z) (r : fd_ready).

(** [accept] does not return a descriptor that is open. *)
Definition open_fd (fd : Z) (p : tcp_pool.t B connections) : bool :=
  existsb (fun l => bool_decide (fd ∈ tcp_pool.new_fds l \/ is_Some (tcp_pool.fds l !! fd)))
    (tcp_pool.loops p).

(** A signal is needed for the hook, and a descriptor in the loop for its callback. *)
Definition step (o : pool_op) (p : tcp_pool.t B connections)
  : result (tcp_pool.t B connections * list (nat * server_out)) :=
  match o with
  | AddClient fd => Ok (if open_fd fd p then p else add_client fd p, [])
  | Async i =>
      tcp_pool.on_loop i
        (fun l => if tcp_pool.signalled l then tcp_pool.async_hook create_conn no_async l else Ok (l, [])) p
  | Ready i fd r =>
      tcp_pool.on_loop i
        (fun l => match tcp_pool.fds l !! fd with Some _ => ready r fd l | None => Ok (l, []) end) p
  end.

Fixpoint run (ops : list pool_op) (p : tcp_pool.t B connections)
  : result (tcp_pool.t B connections * list (nat * server_out)) :=
  match ops with
  | [] => Ok (p, [])
  | o :: ops' =>
      match step o p with
      | Throw x => Throw x
      | Ok (p, out) => res_map (fun '(p, out') => (p, out ++ out')) (run ops' p)
      end
  end.
End pool.
End riemann_tcp_pool.

(** ** [udp_pool] *)

Module udp_pool.
Definition k_udp_buffer_size : nat := 4096.

(** What [recvfrom] returns goes into a [size_t]: of a datagram what fits into the buffer, or, when
    it fails, a size that no vector can have. *)
Definition socket_callback (error : bool) (recvfrom : option (list Z)) : result (list (list Z)) :=
  if error then Ok []
  else
    match recvfrom with
    | None => Throw (user_exception "length_error")
    | Some datagram => Ok [take k_udp_buffer_size datagram]
    end.
End udp_pool.

(** ** What is known of a client *)

Definition out_fd (o : server_out) : Z :=
  match o with Opened fd | Dropped fd | Received fd _ | Written fd _ | Message fd _ => fd end.

Definition is_opened (o : server_out) : bool := match o with Opened _ => true | _ => false end.

(** What happened to the client of a descriptor since it was accepted. *)
Definition since (fd : Z) (outs : list server_out) : list server_out :=
  foldl (fun acc o => if decide (out_fd o = fd) then if is_opened o then [] else acc ++ [o] else acc)
    [] outs.

Definition received (h : list server_out) : list Z :=
  concat (omap (fun o => match o with Received _ b => Some b | _ => None end) h).
Definition written (h : list server_out) : list Z :=
  concat (omap (fun o => match o with Written _ b => Some b | _ => None end) h).
Definition messages (h : list server_out) : list (list Z) :=
  omap (fun o => match o with Message _ m => Some m | _ => None end) h.

(** The gauge: connections made less connections dropped. *)
Definition gauge (outs : list server_out) : Z :=
  foldr (fun o n => match o with Opened _ => n + 1 | Dropped _ => n - 1 | _ => n end) 0 outs.

Lemma received_app a b : received (a ++ b) = received a ++ received b.
Proof. unfold received. by rewrite omap_app, concat_app. Qed.
Lemma written_app a b : written (a ++ b) = written a ++ written b.
Proof. unfold written. by rewrite omap_app, concat_app. Qed.
Lemma messages_app a b : messages (a ++ b) = messages a ++ messages b.
Proof. apply omap_app. Qed.
Lemma gauge_app a b : gauge (a ++ b) = gauge a + gauge b.
Proof. induction a as [|[] a IH]; simpl; rewrite ?IH; lia. Qed.

Lemma only_messages fd msgs :
  received (Message fd <$> msgs) = [] /\ written (Message fd <$> msgs) = []
  /\ messages (Message fd <$> msgs) = msgs /\ gauge (Message fd <$> msgs) = 0.
Proof.
  induction msgs as [|m msgs (IH1 & IH2 & IH3 & IH4)]; [done|]. rewrite fmap_cons.
  repeat split; [done|done| |done]. change (m :: messages (Message fd <$> msgs) = m :: msgs).
  by rewrite IH3.
Qed.

(** Later outputs about the client, and outputs about others. *)
Lemma since_same fd outs out :
  Forall (fun o => out_fd o = fd /\ is_opened o = false) out ->
  since fd (outs ++ out) = since fd outs ++ out.
Proof.
  unfold since. rewrite foldl_app. generalize (foldl (fun acc o => if decide (out_fd o = fd) then
    if is_opened o then [] else acc ++ [o] else acc) [] outs) as acc.
  intros acc Ho. revert acc. induction Ho as [|o out [Hf Hn] _ IH]; intros acc; simpl;
    [by rewrite app_nil_r|].
  rewrite decide_True, Hn by done. rewrite IH. by rewrite <- app_assoc.
Qed.

Lemma since_other fd outs out :
  Forall (fun o => out_fd o <> fd) out -> since fd (outs ++ out) = since fd outs.
Proof.
  unfold since. rewrite foldl_app. generalize (foldl (fun acc o => if decide (out_fd o = fd) then
    if is_opened o then [] else acc ++ [o] else acc) [] outs) as acc.
  intros acc Ho. revert acc. induction Ho as [|o out Hf _ IH]; intros acc; simpl; [done|].
  by rewrite decide_False by done.
Qed.

Lemma since_opened fd outs : since fd (outs ++ [Opened fd]) = [].
Proof. unfold since. rewrite foldl_app. simpl. by rewrite decide_True. Qed.

Section server.
Import riemann_tcp_pool tcp_connection.
Context {B : Type} `{CircularBufferLaws B}.
Variable msg_ok : list Z.

Abbreviation callback := (riemann_tcp_connection.callback (B := B) msg_ok).
Abbreviation tcp_of := riemann_tcp_connection.tcp_connection_.
Abbreviation cstate := (riemann_tcp_connection.state B).
Abbreviation w_data s := (cb_data (w_buffer (tcp_of s))).
Abbreviation ack := (riemann_tcp_connection.generate_msg_ok msg_ok).
Abbreviation stream ms := (concat (frame <$> ms)).

(** *** One connection *)

(** The loop that cuts the bytes into messages ends, whatever they are. *)
Lemma turn_shrinks (s : cstate) :
  let s' := (if riemann_tcp_connection.reading_header_ s
             then (riemann_tcp_connection.read_header s, [])
             else riemann_tcp_connection.read_message msg_ok s).1 in
  (length (cb_data (r_buffer (tcp_of s'))) <= length (cb_data (r_buffer (tcp_of s))))%nat.
Proof.
  destruct s as [c rh ps]. cbn [riemann_tcp_connection.reading_header_]. destruct rh; cbn [fst].
  - unfold riemann_tcp_connection.read_header. cbn [riemann_tcp_connection.tcp_connection_].
    destruct (read_bytes c <? 4) eqn:H4; [done|]. apply Z.ltb_ge in H4. unfold read_bytes, cb_size in H4.
    unfold riemann_tcp_connection.msg_size. case_match; simpl; rewrite cb_data_erase, length_drop; lia.
  - unfold riemann_tcp_connection.read_message. cbn [riemann_tcp_connection.tcp_connection_
      riemann_tcp_connection.protobuf_size_].
    destruct (read_bytes c <? ps) eqn:Hp; [done|]. apply Z.ltb_ge in Hp. unfold read_bytes, cb_size in Hp.
    unfold riemann_tcp_connection.add_ok_response, queue_write. destruct (cb_reserve _ <? _); simpl; [done|].
    rewrite cb_data_erase, length_drop; lia.
Qed.

Lemma read_loop_total fuel (s : cstate) :
  (length (cb_data (r_buffer (tcp_of s))) < fuel)%nat ->
  is_Some (riemann_tcp_connection.read_loop msg_ok fuel s).
Proof.
  revert s. induction fuel as [|fuel IH]; intros s Hf; [lia|]. cbn [riemann_tcp_connection.read_loop].
  pose proof (turn_shrinks s) as Hs. destruct (if riemann_tcp_connection.reading_header_ s then _ else _)
    as [s' out]. cbn [fst] in Hs.
  destruct (read_bytes (tcp_of s) =? read_bytes (tcp_of s')) eqn:Hb; [by eexists|].
  apply Z.eqb_neq in Hb. unfold read_bytes, cb_size in Hb.
  destruct (IH s') as [[s'' out'] ->]; [lia|]. by eexists.
Qed.

Lemma callback_total rd wr (s : cstate) : is_Some (callback rd wr s).
Proof.
  unfold riemann_tcp_connection.callback.
  assert (is_Some (match rd with
                   | Some recv => riemann_tcp_connection.read_cb msg_ok recv s
                   | None => Some (s, [])
                   end)) as [[s' out] ->].
  { destruct rd as [recv|]; [|by eexists]. unfold riemann_tcp_connection.read_cb.
    destruct (read recv _) as [c []]; [|by eexists]. apply read_loop_total. simpl. lia. }
  case_match; by eexists.
Qed.

(** Reading, and then writing if the connection is not to be closed. *)
Lemma callback_split rd wr (s : cstate) :
  callback rd wr s =
  '(s1, out1) ← callback rd None s;
  if close_connection (tcp_of s1) then Some (s1, out1)
  else '(s2, out2) ← callback None wr s1; Some (s2, out1 ++ out2).
Proof.
  unfold riemann_tcp_connection.callback.
  destruct (match rd with Some recv => _ | None => _ end) as [[s1 out]|]; [|done].
  simpl. destruct (close_connection (tcp_of s1)) eqn:Hc; simpl; rewrite Hc; [done|].
  simpl. by rewrite app_nil_r.
Qed.

(** The peer is there: what is read is not empty, and nothing fails. *)
Definition peer_alive (rd : option (option (list Z))) (wr : option (option nat)) : Prop :=
  match rd with Some None | Some (Some []) => False | _ => True end /\ wr <> Some None.

Lemma read_net ms pre post d w (s s1 : cstate) (recv : option (option (list Z))) out :
  Forall carried ms -> Z.of_nat (length ms * length ack) <= k_default_buffer_size ->
  net_ok msg_ok ms (MkNet pre s d w) ->
  match recv with
  | Some (Some l) => Z.of_nat (length l) <= cb_reserve (r_buffer (tcp_of s)) /\ pre = l ++ post
  | _ => pre = post
  end ->
  callback recv None s = Some (s1, out) ->
  peer_alive recv None \/ close_connection (tcp_of s1) = false ->
  net_ok msg_ok ms (MkNet post s1 (d ++ out) w).
Proof.
  intros Hms Hacks Hok Hpre Hcb Hopen.
  pose proof Hok as [Hc Hi _ _ _]. cbn [conn] in Hc, Hi. pose proof (idle_room s Hc Hi) as Hroom.
  assert (forall recv', read_from_fd recv' (r_buffer (tcp_of s)) = (r_buffer (tcp_of s), false) ->
    callback (Some recv') None s = Some (s1, out) -> close_connection (tcp_of s1) = true) as Hgone.
  { intros recv' Hr. unfold riemann_tcp_connection.callback, riemann_tcp_connection.read_cb, read.
    rewrite (proj2 (Z.leb_gt _ _)) by done. rewrite Hr. by intros [= <- <-]. }
  destruct recv as [[[|z l]|]|].
  - apply Hgone in Hcb; [|done]. destruct Hopen as [[[] _]|?]; congruence.
  - destruct Hpre as [Hlen ->].
    destruct (readable_ok msg_ok ms (Z.of_nat (length (z :: l))) _ Hms Hacks Hok) as (n & Hn & Hok' & _).
    revert Hn. cbn [turn sock conn delivered sent app].
    replace (Z.to_nat _) with (length (z :: l)) by (rewrite length_cons in *; lia).
    change (z :: l ++ post) with ((z :: l) ++ post).
    rewrite take_app_length, drop_app_length, Hcb. intros [= <-]. done.
  - apply Hgone in Hcb; [|done]. destruct Hopen as [[[] _]|?]; congruence.
  - subst post. revert Hcb. unfold riemann_tcp_connection.callback. rewrite (ok_open _ Hc).
    intros [= <- <-]. by rewrite app_nil_r.
Qed.

Lemma write_net ms pre d w (s s1 : cstate) (wr : option (option nat)) out :
  net_ok msg_ok ms (MkNet pre s d w) ->
  match wr with Some (Some n) => (n <= length (w_data s))%nat | _ => True end ->
  callback None wr s = Some (s1, out) ->
  peer_alive None wr \/ close_connection (tcp_of s1) = false ->
  net_ok msg_ok ms (MkNet pre s1 (d ++ out)
    (w ++ match wr with Some (Some n) => take n (w_data s) | _ => [] end)).
Proof.
  intros Hok Hle Hcb Hopen. pose proof Hok as [Hc _ _ _ _]. cbn [conn] in Hc.
  destruct wr as [[n|]|].
  - destruct (writable_ok msg_ok ms n _ Hok) as (n' & Hn & Hok' & _).
    revert Hn. cbn [turn sock conn delivered sent]. rewrite Nat.min_l, Hcb by done. by intros [= <-].
  - revert Hcb. unfold riemann_tcp_connection.callback. rewrite (ok_open _ Hc).
    unfold riemann_tcp_connection.write_cb, pending_write. intros [= <- <-].
    rewrite !app_nil_r. case_match; [done|]. destruct Hopen as [[_ []]|Ho]; done.
  - revert Hcb. unfold riemann_tcp_connection.callback. rewrite (ok_open _ Hc).
    intros [= <- <-]. by rewrite !app_nil_r.
Qed.

(** What a connection has done with what it read, if that is the beginning of a stream of
    frames. *)
Definition conn_inv (s : cstate) (h : list server_out) : Prop :=
  forall ms sock, Forall carried ms -> Z.of_nat (length ms * length ack) <= k_default_buffer_size ->
  received h ++ sock = stream ms -> net_ok msg_ok ms (MkNet sock s (messages h) (written h)).

Lemma new_conn_inv d : d = MkData true 0 -> conn_inv (state_of tcp_connection.new d) [].
Proof. intros ->. intros ms sock _ _ Hs. simpl in Hs. subst sock. apply net_init_ok. Qed.

(** A turn of the connection, which stays open if the peer is there. *)
Lemma ready_net s h r r' bytes out s' msgs ms sock :
  conn_inv s h -> clip msg_ok s r = (r', bytes, out) ->
  callback (ready_read r') (ready_write r') s = Some (s', msgs) ->
  Forall carried ms -> Z.of_nat (length ms * length ack) <= k_default_buffer_size ->
  received h ++ bytes ++ sock = stream ms ->
  peer_alive (ready_read r) (ready_write r) \/ close_connection (tcp_of s') = false ->
  net_ok msg_ok ms (MkNet sock s' (messages h ++ msgs) (written h ++ out)).
Proof.
  intros Hinv Hclip Hcb Hms Hacks Hs Hopen. specialize (Hinv ms (bytes ++ sock) Hms Hacks Hs).
  pose proof Hinv as [Hc Hi _ _ _]. cbn [conn] in Hc, Hi. pose proof (idle_room s Hc Hi) as Hroom.
  rewrite callback_split in Hcb. unfold clip in Hclip.
  set (rd := option_map _ (ready_read r)) in *.
  destruct (callback rd None s) as [[s1 out1]|] eqn:Hcb1;
    [|destruct (callback_total rd None s) as [? ?]; congruence].
  injection Hclip as <- <- <-. cbn [ready_read ready_write] in Hcb. rewrite Hcb1 in Hcb.
  cbn [mbind option_bind] in Hcb. set (wr := option_map _ (ready_write r)) in *.
  assert (net_ok msg_ok ms (MkNet sock s1 (messages h ++ out1) (written h))) as Hok1.
  { eapply (read_net ms _ sock); [done|done|exact Hinv| |exact Hcb1|].
    - subst rd. destruct (ready_read r) as [[l|]|]; [|done|done]. cbn [option_map]. split; [|done].
      rewrite length_take. lia.
    - destruct Hopen as [[Hrd _]|Hopen].
      + left. split; [|done]. subst rd. destruct (ready_read r) as [[[|z l]|]|]; try done. simpl.
        destruct (Z.to_nat _) eqn:Hz; [lia|done].
      + right. destruct (close_connection (tcp_of s1)) eqn:Hc1; [|done]. injection Hcb as <- <-. congruence. }
  pose proof Hok1 as [[Hc1 _ _ _] _ _ _ _]. cbn [conn] in Hc1. rewrite Hc1 in *.
  destruct (callback None wr s1) as [[s2 out2]|] eqn:Hcb2; [|done]. cbn [mbind option_bind] in Hcb.
  injection Hcb as <- <-. rewrite app_assoc. eapply (write_net _ _ _ _ s1); [done| |done|].
  - subst wr. destruct (ready_write r) as [[n|]|]; simpl; [lia|done|done].
  - destruct Hopen as [[_ Hwr]|Hopen]; [left|by right]. split; [done|]. subst wr.
    by destruct (ready_write r) as [[n|]|].
Qed.

Lemma ready_conn_inv fd s h r r' bytes out s' msgs :
  conn_inv s h -> clip msg_ok s r = (r', bytes, out) ->
  callback (ready_read r') (ready_write r') s = Some (s', msgs) ->
  close_connection (tcp_of s') = false ->
  conn_inv s' (h ++ [Received fd bytes] ++ (Message fd <$> msgs) ++ [Written fd out]).
Proof.
  intros Hinv Hclip Hcb Hopen ms sock Hms Hacks Hs.
  destruct (only_messages fd msgs) as (Hm1 & Hm2 & Hm3 & _).
  rewrite !received_app, !written_app, !messages_app, Hm1, Hm2, Hm3 in *.
  change (received [Received fd bytes]) with (bytes ++ []) in Hs.
  change (received [Written fd out]) with (@nil Z) in Hs.
  change (written [Received fd bytes]) with (@nil Z). change (written [Written fd out]) with (out ++ []).
  change (messages [Received fd bytes]) with (@nil (list Z)).
  change (messages [Written fd out]) with (@nil (list Z)).
  rewrite !app_nil_r in *. cbn [app] in *. rewrite <- app_assoc in Hs.
  by eapply ready_net; eauto.
Qed.

(** *** A loop *)

Abbreviation loop := (tcp_pool.loop_t B (gmap Z conn_data)).

(** The three maps of a loop at one descriptor. *)
Definition entry_ok (h : list server_out) (m : option fd_mode) (c : option (tcp_connection.t B))
    (d : option conn_data) : Prop :=
  match m, c, d with
  | Some m, Some c, Some d =>
      m = conn_to_mode c /\ close_connection c = false /\ conn_inv (state_of c d) h
  | None, None, None => True
  | _, _, _ => False
  end.

Record loop_ok (l : loop) (outs : list server_out) : Prop := {
  lk_entry : forall fd, entry_ok (since fd outs) (tcp_pool.fds l !! fd) (tcp_pool.conn_map l !! fd)
                          (tcp_pool.user l !! fd);
  lk_new : NoDup (tcp_pool.new_fds l)
           /\ forall fd, fd ∈ tcp_pool.new_fds l -> tcp_pool.fds l !! fd = None;
  lk_gauge : gauge outs = Z.of_nat (size (tcp_pool.user l))
}.

Lemma entry_closed h m c d : entry_ok h m c d -> m = None -> c = None /\ d = None.
Proof. destruct m, c, d; done. Qed.

Lemma entry_open h m c d :
  entry_ok h (Some m) c d -> exists c' d', c = Some c' /\ d = Some d'
  /\ m = conn_to_mode c' /\ close_connection c' = false /\ conn_inv (state_of c' d') h.
Proof. destruct c as [c'|], d as [d'|]; try done. intros (-> & ? & ?). by exists c', d'. Qed.

Lemma add_fd_ok fd (l : loop) outs l' out :
  (forall fd, entry_ok (since fd outs) (tcp_pool.fds l !! fd) (tcp_pool.conn_map l !! fd)
                (tcp_pool.user l !! fd)) ->
  gauge outs = Z.of_nat (size (tcp_pool.user l)) ->
  tcp_pool.fds l !! fd = None -> tcp_pool.add_fd create_conn fd l = (l', out) ->
  (forall fd, entry_ok (since fd (outs ++ out)) (tcp_pool.fds l' !! fd) (tcp_pool.conn_map l' !! fd)
                (tcp_pool.user l' !! fd))
  /\ gauge (outs ++ out) = Z.of_nat (size (tcp_pool.user l'))
  /\ tcp_pool.new_fds l' = tcp_pool.new_fds l
  /\ tcp_pool.fds l' = <[fd := mode_read]> (tcp_pool.fds l).
Proof.
  intros He Hg Hfd [= <- <-]. destruct (entry_closed _ _ _ _ (He fd) Hfd) as [Hc Hd].
  cbn [tcp_pool.fds tcp_pool.conn_map tcp_pool.user tcp_pool.new_fds].
  rewrite !insert_new_fresh by done. split; [|split; [|done]].
  - intros fd'. destruct (decide (fd' = fd)) as [->|Hne].
    + rewrite !lookup_insert_eq, since_opened. unfold entry_ok. split; [|split; [done|by apply new_conn_inv]].
      unfold conn_to_mode, pending_write, cb_size. simpl. by rewrite cb_data_new.
    + rewrite !lookup_insert_ne by done. rewrite since_other; [done|]. by repeat constructor.
  - rewrite gauge_app, Hg, map_size_insert_None by done. simpl. lia.
Qed.

Lemma add_each_ok new (l : loop) outs l' out :
  loop_ok l outs -> tcp_pool.new_fds l = [] -> NoDup new ->
  (forall fd, fd ∈ new -> tcp_pool.fds l !! fd = None) ->
  tcp_pool.add_each create_conn new l = (l', out) -> loop_ok l' (outs ++ out).
Proof.
  revert l outs l' out. induction new as [|fd new IH]; intros l outs l' out [He Hn Hg] Hnil Hnd Hnew.
  { cbn [tcp_pool.add_each]. intros [= <- <-]. rewrite app_nil_r. by constructor. }
  cbn [tcp_pool.add_each]. destruct (tcp_pool.add_fd create_conn fd l) as [l1 out1] eqn:H1.
  destruct (tcp_pool.add_each create_conn new l1) as [l2 out2] eqn:H2. intros [= <- <-].
  apply list.NoDup_cons in Hnd as [Hni Hnd].
  destruct (add_fd_ok fd l outs l1 out1 He Hg (Hnew fd ltac:(by left)) H1) as (He1 & Hg1 & Hn1 & Hf1).
  rewrite app_assoc. eapply IH; [|by rewrite Hn1|done| |exact H2].
  - constructor; [done| |done]. rewrite Hn1, Hnil. split; [constructor|]. intros ? []%elem_of_nil.
  - intros fd' Hin. rewrite Hf1, lookup_insert_ne by (by intros ->). apply Hnew. by right.
Qed.

Lemma server_async_hook_ok (l : loop) outs :
  loop_ok l outs -> exists l' out, tcp_pool.async_hook create_conn no_async l = Ok (l', out)
  /\ loop_ok l' (outs ++ out).
Proof.
  intros [He [Hnd Hn] Hg]. unfold tcp_pool.async_hook, tcp_pool.add_fds.
  cbn [tcp_pool.new_fds tcp_pool.fds tcp_pool.conn_map tcp_pool.user tcp_pool.signalled].
  destruct (tcp_pool.add_each create_conn _ _) as [l' out] eqn:Ha. exists l', out. split.
  { cbn. by rewrite app_nil_r. }
  eapply (add_each_ok _ (tcp_pool.MkLoop false [] _ _ _)); [|done|exact Hnd| |exact Ha]; [|done].
  constructor; [done| |done]. split; [constructor|]. intros ? []%elem_of_nil.
Qed.

Lemma ready_outs_fd fd bytes msgs out dropped :
  Forall (fun o => out_fd o = fd /\ is_opened o = false)
    ([Received fd bytes] ++ ((Message fd <$> msgs) ++ (if dropped : bool then [Dropped fd] else []))
     ++ [Written fd out]).
Proof.
  repeat (apply Forall_app; split); try by repeat constructor.
  - apply Forall_fmap, Forall_true. done.
  - destruct dropped; by repeat constructor.
Qed.

Lemma ready_ok r fd (l : loop) outs m :
  loop_ok l outs -> tcp_pool.fds l !! fd = Some m ->
  exists l' out, ready msg_ok r fd l = Ok (l', out) /\ loop_ok l' (outs ++ out).
Proof.
  intros [He [Hnd Hn] Hg] Hm. pose proof (He fd) as Hfd. rewrite Hm in Hfd.
  apply entry_open in Hfd as (c & d & Hc & Hd & -> & Hopen & Hinv).
  unfold ready. rewrite Hd, Hc. destruct (clip msg_ok (state_of c d) r) as [[r' bytes] o] eqn:Hclip.
  unfold tcp_pool.socket_callback. rewrite Hc. unfold data_ready. rewrite Hd, Hc.
  destruct (callback_total (ready_read r') (ready_write r') (state_of c d)) as [[s' msgs] Hcb].
  rewrite Hcb. set (c' := tcp_of s').
  pose proof (ready_outs_fd fd bytes msgs o) as Houts.
  assert (forall b fd', fd' <> fd -> since fd' (outs ++ [Received fd bytes] ++
    ((Message fd <$> msgs) ++ (if b : bool then [Dropped fd] else [])) ++ [Written fd o]) = since fd' outs)
    as Hother.
  { intros b fd' Hne. apply since_other. eapply list.Forall_impl; [apply (Houts b)|].
    cbv beta. intros x [-> _]. congruence. }
  destruct (only_messages fd msgs) as (_ & _ & _ & Hgm).
  destruct (close_connection c') eqn:Hclose; cbn [res_bind res_map tcp_pool.conn_map];
    rewrite lookup_insert_eq, Hclose; cbn [res_map]; eexists _, _; (split; [reflexivity|]).
  - constructor; cbn [tcp_pool.fds tcp_pool.conn_map tcp_pool.user tcp_pool.new_fds].
    + intros fd'. destruct (decide (fd' = fd)) as [->|Hne]; [by rewrite !lookup_delete_eq|].
      rewrite !lookup_delete_ne, lookup_insert_ne, lookup_alter_ne by done.
      rewrite (Hother true) by done. apply He.
    + split; [done|]. intros fd' Hin. destruct (decide (fd' = fd)) as [->|Hne];
        [by rewrite lookup_delete_eq|]. rewrite lookup_delete_ne, lookup_alter_ne by done. by apply Hn.
    + rewrite !gauge_app, Hg, Hgm, map_size_delete_Some by (by rewrite Hd). simpl.
      assert (size (tcp_pool.user l) <> 0)%nat 
        by (rewrite map_size_empty_iff; intros Hemp; by rewrite Hemp, lookup_empty in Hd).
      lia.
  - constructor; cbn [tcp_pool.fds tcp_pool.conn_map tcp_pool.user tcp_pool.new_fds].
    + intros fd'. destruct (decide (fd' = fd)) as [->|Hne].
      * rewrite lookup_alter_eq, Hm, !lookup_insert_eq. unfold entry_ok. simpl fmap. cbn iota.
        split; [done|]. split; [done|].
        specialize (Houts false). rewrite app_nil_r in Houts. rewrite since_same by done.
        destruct s'. by eapply (ready_conn_inv fd).
      * rewrite !lookup_insert_ne, lookup_alter_ne by done.
        specialize (Hother false). rewrite app_nil_r in Hother. rewrite Hother by done. apply He.
    + split; [done|]. intros fd' Hin. rewrite lookup_alter_ne; [by apply Hn|].
      intros <-. rewrite Hn in Hm; done.
    + rewrite !gauge_app, Hg, Hgm, map_size_insert_Some by (by rewrite Hd). simpl. lia.
Qed.

(** *** The pool *)

Abbreviation pool := (tcp_pool.t B (gmap Z conn_data)).
Abbreviation step := (riemann_tcp_pool.step (B := B) msg_ok).
Abbreviation run := (riemann_tcp_pool.run (B := B) msg_ok).
Abbreviation new_pool := (riemann_tcp_pool.new (B := B)).

Definition pool_ok (p : pool) (outs : list (nat * server_out)) : Prop :=
  forall i l, tcp_pool.loops p !! i = Some l -> loop_ok l (outs_of i outs).

Lemma new_pool_ok n : pool_ok (new_pool n) [].
Proof.
  intros i l [-> _]%lookup_replicate. constructor; cbn.
  - intros fd. by rewrite !lookup_empty.
  - split; [constructor|]. intros ? []%elem_of_nil.
  - done.
Qed.

Lemma on_loop_ok i f (p : pool) outs :
  pool_ok p outs ->
  (forall l, tcp_pool.loops p !! i = Some l ->
     exists l' out, f l = Ok (l', out) /\ loop_ok l' (outs_of i outs ++ out)) ->
  exists p' out, tcp_pool.on_loop i f p = Ok (p', out) /\ pool_ok p' (outs ++ out).
Proof.
  intros Hp Hf. unfold tcp_pool.on_loop. destruct (tcp_pool.loops p !! i) as [l|] eqn:Hi.
  - destruct (Hf l eq_refl) as (l' & out & -> & Hl'). eexists _, _. split; [reflexivity|].
    intros j l'' Hj. cbn [tcp_pool.loops] in Hj. rewrite outs_of_app, outs_of_pair.
    destruct (decide (j = i)) as [->|Hne].
    + rewrite list_lookup_insert_eq in Hj by (by eapply lookup_lt_Some). by injection Hj as <-.
    + rewrite list_lookup_insert_ne in Hj by done. rewrite app_nil_r. by apply Hp.
  - exists p, []. by rewrite app_nil_r.
Qed.

Lemma open_fd_false fd (p : pool) i l :
  open_fd fd p = false -> tcp_pool.loops p !! i = Some l ->
  (fd ∉ tcp_pool.new_fds l) /\ tcp_pool.fds l !! fd = None.
Proof.
  intros Ho Hi. unfold open_fd in Ho.
  destruct (decide (fd ∈ tcp_pool.new_fds l \/ is_Some (tcp_pool.fds l !! fd))) as [Hin|Hno].
  - exfalso. assert (existsb (fun l => bool_decide (fd ∈ tcp_pool.new_fds l
      \/ is_Some (tcp_pool.fds l !! fd))) (tcp_pool.loops p) = true) as Hex; [|congruence].
    apply existsb_exists. exists l. split; [by eapply list_elem_of_In, list_elem_of_lookup_2|].
    by apply bool_decide_eq_true.
  - split; [tauto|]. apply eq_None_not_Some. tauto.
Qed.

Lemma server_step_ok o (p : pool) outs :
  pool_ok p outs -> exists p' out, step o p = Ok (p', out) /\ pool_ok p' (outs ++ out).
Proof.
  intros Hp. destruct o as [fd|i|i fd r]; cbn [riemann_tcp_pool.step].
  - eexists _, _. split; [reflexivity|]. rewrite app_nil_r.
    destruct (open_fd fd p) eqn:Ho; [done|]. intros j l Hj. unfold add_client, tcp_pool.add_client in Hj.
    cbn [tcp_pool.loops] in Hj. destruct (decide (tcp_pool.next_thread p = j)) as [<-|Hne].
    + rewrite list_lookup_alter_eq in Hj.
      destruct (tcp_pool.loops p !! tcp_pool.next_thread p) as [l0|] eqn:Hl0; [|done].
      injection Hj as <-. destruct (open_fd_false _ _ _ _ Ho Hl0) as [Hni Hfd].
      destruct (Hp _ _ Hl0) as [He [Hnd Hn] Hg]. constructor; [done| |done].
      cbn [tcp_pool.new_fds tcp_pool.fds tcp_pool.add_client_to tcp_pool.signal_thread]. split.
      * apply list.NoDup_app. split; [done|]. split; [|apply NoDup_singleton].
        intros x Hx Hs%list_elem_of_singleton. by subst x.
      * intros x [Hx|Hs%list_elem_of_singleton]%elem_of_app; [by apply Hn|by subst x].
    + rewrite list_lookup_alter_ne in Hj by done. by apply Hp.
  - apply on_loop_ok; [done|]. intros l Hl. destruct (tcp_pool.signalled l).
    + by apply server_async_hook_ok, Hp.
    + exists l, []. rewrite app_nil_r. split; [done|]. by apply Hp.
  - apply on_loop_ok; [done|]. intros l Hl. destruct (tcp_pool.fds l !! fd) eqn:Hfd.
    + eapply ready_ok; [by apply Hp|done].
    + exists l, []. rewrite app_nil_r. split; [done|]. by apply Hp.
Qed.

Lemma server_run_ok ops (p : pool) outs :
  pool_ok p outs -> exists p' out, run ops p = Ok (p', out) /\ pool_ok p' (outs ++ out).
Proof.
  revert p outs. induction ops as [|o ops IH]; intros p outs Hp; cbn [riemann_tcp_pool.run].
  { exists p, []. by rewrite app_nil_r. }
  destruct (server_step_ok o p outs Hp) as (p1 & out1 & -> & Hp1).
  destruct (IH p1 _ Hp1) as (p2 & out2 & -> & Hp2). eexists _, _. split; [reflexivity|].
  by rewrite app_assoc.
Qed.

(** C9. The riemann server.  Any number of clients come, send what they like in pieces of any
    size, and go, in any order and over any number of loops.  The server never fails; the gauge of
    every loop is the number of its connections; a connection waits for its descriptor to take
    bytes exactly while there are bytes to send.  And every client that sends frames gets
    its messages handed on, whatever the other clients do: what was handed on since it was accepted
    is a beginning of what it sent, each message whole and in order, all of them when all bytes
    have come, with one response written or waiting for each.  The messages must fit into the
    buffer and not be empty, and the responses must fit into the write buffer. *)
Theorem riemann_pool_delivery (thread_num : nat) (ops : list pool_op) :
  exists p outs, run ops (new_pool thread_num) = Ok (p, outs)
  /\ forall i l, tcp_pool.loops p !! i = Some l ->
     gauge (outs_of i outs) = Z.of_nat (size (tcp_pool.user l))
     /\ forall fd d, tcp_pool.user l !! fd = Some d ->
        let h := since fd (outs_of i outs) in
        exists c, tcp_pool.conn_map l !! fd = Some c /\ close_connection c = false
        /\ tcp_pool.fds l !! fd
           = Some (if cb_size (w_buffer c) >? 0 then mode_readwrite else mode_read)
        /\ forall ms, Forall carried ms ->
           Z.of_nat (length ms * length ack) <= k_default_buffer_size ->
           received h `prefix_of` stream ms ->
           messages h `prefix_of` ms /\ (received h = stream ms -> messages h = ms)
           /\ written h ++ cb_data (w_buffer c) = concat (replicate (length (messages h)) ack).
Proof.
  destruct (server_run_ok ops (new_pool thread_num) [] (new_pool_ok _)) as (p & outs & Hrun & Hp).
  exists p, outs. split; [done|]. intros i l Hi. specialize (Hp i l Hi) as [He _ Hg].
  split; [done|]. intros fd d Hd h. specialize (He fd). fold h in He. rewrite Hd in He.
  destruct (tcp_pool.fds l !! fd) as [m|], (tcp_pool.conn_map l !! fd) as [c|]; try done.
  destruct He as (-> & Hopen & Hinv). exists c. split; [done|]. split; [done|].
  split; [unfold conn_to_mode, pending_write; simpl; by case_match|].
  intros ms Hms Hacks [sock Hs]. specialize (Hinv ms sock Hms Hacks (eq_sym Hs)).
  pose proof Hinv as [_ _ (rest & Hr & _) Ha _]. split; [by exists rest|]. split; [|done].
  intros Hall. rewrite Hall in Hs. eapply (all_delivered msg_ok ms _ Hms Hinv). cbn.
  apply (f_equal length) in Hs. rewrite length_app in Hs. apply nil_length_inv. lia.
Qed.

(** What a descriptor that is ready has to be read. *)
Definition ready_bytes (r : fd_ready) : list Z :=
  match ready_read r with Some (Some b) => b | _ => [] end.

Lemma clip_bytes (s : cstate) r : (clip msg_ok s r).1.2 `prefix_of` ready_bytes r.
Proof.
  unfold clip, ready_bytes. destruct (callback _ _ s) as [[s1 out]|];
    (destruct (ready_read r) as [[b|]|]; simpl; [apply prefix_take|done|done]).
Qed.

Lemma ready_keeps r fd (l : loop) outs m ms :
  loop_ok l outs -> tcp_pool.fds l !! fd = Some m ->
  peer_alive (ready_read r) (ready_write r) ->
  Forall carried ms -> Z.of_nat (length ms * length ack) <= k_default_buffer_size ->
  received (since fd outs) ++ ready_bytes r `prefix_of` stream ms ->
  exists l' out, ready msg_ok r fd l = Ok (l', out) /\ is_Some (tcp_pool.user l' !! fd).
Proof.
  intros [He _ _] Hm Halive Hms Hacks Hpre. pose proof (He fd) as Hfd. rewrite Hm in Hfd.
  apply entry_open in Hfd as (c & d & Hc & Hd & -> & Hopen & Hinv).
  pose proof (clip_bytes (state_of c d) r) as Hb. unfold ready. rewrite Hd, Hc.
  destruct (clip msg_ok (state_of c d) r) as [[r' bytes] o] eqn:Hclip. cbn [fst snd] in Hb.
  unfold tcp_pool.socket_callback. rewrite Hc. unfold data_ready. rewrite Hd, Hc.
  destruct (callback_total (ready_read r') (ready_write r') (state_of c d)) as [[s' msgs] Hcb].
  rewrite Hcb. assert (close_connection (tcp_of s') = false) as Hclose.
  { destruct Hb as [more Hmore], Hpre as [rest Hrest].
    rewrite Hmore, <- !app_assoc in Hrest. symmetry in Hrest.
    destruct (ready_net _ _ _ _ _ _ _ _ ms (more ++ rest) Hinv Hclip Hcb Hms Hacks) as [[Ho _ _ _] _ _ _ _];
      [done|by left|done]. }
  rewrite Hclose. cbn [res_bind res_map tcp_pool.conn_map]. rewrite lookup_insert_eq, Hclose.
  eexists _, _. split; [reflexivity|]. cbn [tcp_pool.user]. by rewrite lookup_insert_eq.
Qed.

(** The server does not drop a client that sends frames: as long as the client is there
    ([recv] and [write] do not fail, and reading does not give the end of the stream) and what it
    has sent since it was accepted, with what is to be read now, is a beginning of a stream of
    frames, it is still connected afterwards. *)
Theorem riemann_pool_keeps (thread_num : nat) (ops : list pool_op) (p : pool)
    (outs : list (nat * server_out)) (i : nat) (l : loop) (fd : Z) (r : fd_ready) (ms : list (list Z)) :
  run ops (new_pool thread_num) = Ok (p, outs) ->
  tcp_pool.loops p !! i = Some l -> is_Some (tcp_pool.fds l !! fd) ->
  peer_alive (ready_read r) (ready_write r) ->
  Forall carried ms -> Z.of_nat (length ms * length ack) <= k_default_buffer_size ->
  received (since fd (outs_of i outs)) ++ ready_bytes r `prefix_of` stream ms ->
  exists p' out l', step (Ready i fd r) p = Ok (p', out)
  /\ tcp_pool.loops p' !! i = Some l' /\ is_Some (tcp_pool.user l' !! fd).
Proof.
  intros Hrun Hi [m Hm] Halive Hms Hacks Hpre.
  destruct (server_run_ok ops (new_pool thread_num) [] (new_pool_ok _)) as (p' & outs' & Hrun' & Hp).
  rewrite Hrun in Hrun'. injection Hrun' as <- <-.
  destruct (ready_keeps r fd l _ m ms (Hp i l Hi) Hm Halive Hms Hacks Hpre) as (l' & out & Hr & Hu).
  cbn [riemann_tcp_pool.step]. unfold tcp_pool.on_loop. rewrite Hi, Hm, Hr.
  eexists _, _, l'. split; [reflexivity|]. split; [|done]. cbn [tcp_pool.loops].
  apply list_lookup_insert_eq. by eapply lookup_lt_Some.
Qed.
End server.

(** ** Two clients *)

Definition sample_ready (bytes : list Z) : fd_ready := MkReady false (Some (Some bytes)) None.

(** Two loops; the second client sends a header that announces too much and is dropped. *)
Definition sample_ops : list riemann_tcp_pool.pool_op :=
  [ riemann_tcp_pool.AddClient 7; riemann_tcp_pool.AddClient 8; riemann_tcp_pool.Async 1;
    riemann_tcp_pool.Async 0; riemann_tcp_pool.Ready 1 7 (sample_ready [0; 0]);
    riemann_tcp_pool.Ready 0 8 (sample_ready [255; 255; 255; 255]);
    riemann_tcp_pool.Ready 1 7 (sample_ready [0; 2; 10; 1; 0]) ].

Lemma riemann_pool_delivery_witness :
  exists p outs, riemann_tcp_pool.run (B := ring) [16; 1] sample_ops (riemann_tcp_pool.new 2) = Ok (p, outs)
  /\ messages (since 7 (outs_of 1 outs)) `prefix_of` [[10; 1]; [10; 2]].
Proof.
  destruct (riemann_pool_delivery (B := ring) [16; 1] 2 sample_ops) as (p & outs & Hrun & Hall).
  exists p, outs. split; [exact Hrun|].
  vm_compute in Hrun. injection Hrun as <- <-.
  destruct (Hall 1%nat _ eq_refl) as [_ Hfd].
  destruct (Hfd 7 _ eq_refl) as (c & _ & _ & _ & Hms).
  destruct (Hms [[10; 1]; [10; 2]]) as (Hpre & _).
  - repeat constructor; by vm_compute.
  - by vm_compute.
  - by exists [0; 0; 2; 10; 2].
  - exact Hpre.
Defined.

Lemma riemann_pool_keeps_witness :
  exists p outs p' out l',
    riemann_tcp_pool.run (B := ring) [16; 1] sample_ops (riemann_tcp_pool.new 2) = Ok (p, outs)
    /\ riemann_tcp_pool.step [16; 1] (riemann_tcp_pool.Ready 1 7 (sample_ready [0; 0; 2])) p = Ok (p', out)
    /\ tcp_pool.loops p' !! 1%nat = Some l' /\ is_Some (tcp_pool.user l' !! 7).
Proof.
  destruct (riemann_tcp_pool.run (B := ring) [16; 1] sample_ops (riemann_tcp_pool.new 2))
    as [[p outs]|] eqn:Hrun; [|vm_compute in Hrun; discriminate Hrun].
  exists p, outs. pose proof Hrun as Hcopy. vm_compute in Hcopy. injection Hcopy as Hp Houts.
  destruct (riemann_pool_keeps (B := ring) [16; 1] 2 sample_ops p outs 1
    (nth 1 (tcp_pool.loops p) (tcp_pool.MkLoop false [] ∅ ∅ ∅)) 7 (sample_ready [0; 0; 2])
    [[10; 1]; [10; 2]] Hrun) as (p' & out & l' & Hs & Hl & Hu).
  - by rewrite <- Hp.
  - rewrite <- Hp. by eexists.
  - split; [exact I|discriminate].
  - repeat constructor; by vm_compute.
  - by vm_compute.
  - rewrite <- Houts. by exists [10; 2].
  - exists p', out, l'. split; [reflexivity|]. split; [exact Hs|]. split; [exact Hl|exact Hu].
Defined.

(** A datagram that cannot be received ends the process: the failure becomes the new size of the
    buffer. *)
Example udp_error_fatal :
  udp_pool.socket_callback false None = Throw (user_exception "length_error").
Proof. reflexivity. Qed.
