(* ===== verification/UdpPool.v ===== *)
(** * The UDP server

    [src/transport/udp_pool.cpp] and [src/riemann_udp_pool.cpp] on the event loops of [AsyncLoop] and the sockets of
    [Sockets]: the run hook of a thread binds a socket and adds it to the loop of the thread, and the callback
    hands over one datagram.  Shown: datagrams are handed over in order, each once, cut at 4096 bytes; the server is always able to
    take the next one; and a pool cannot have a second thread. *)

From S2P Require Import Prelude Tcp TcpPool AsyncLoop Sockets RiemannPool.

Local Open Scope Z_scope.

Module udp_server.
Section server.
Context {W : Type} `{EvIo W}.

(** The loops; of the system, the socket that the port is bound to and the datagrams that wait for it; what has arrived and what
    [udp_read_fn_] got. *)
Record t : Type := Mk {
  loops : list (real_async_fds.loop_t W ());
  bound : option Z;
  waiting : list (list Z);
  arrived : list (list Z);
  given : list (list Z)
}.

(** [udp_pool] with its [async_thread_pool]; and [riemann_udp_pool], which has one thread. *)
Definition new (thread_num : nat) : result t :=
  if (thread_num <? 1)%nat then Throw (user_exception "FATAL")
  else Ok (Mk (real_async_events.new thread_num) None [] [] []).
Definition riemann_udp_pool : result t := new 1.

Inductive op : Type :=
| RunHook (i : nat) (fd : Z)                 (** thread [i] starts; [socket] returns [fd] *)
| Arrive (datagram : list Z)
| Ready (i : nat) (fd revents : Z).

(** A port is bound to one socket: neither [SO_REUSEADDR] nor [SO_REUSEPORT] is set. *)
Definition sys_bind (fd : Z) (p : t) : Z := if bool_decide (bound p = None) && (0 <=? fd) then 0 else -1.

Definition run_hook (port : Z) (i : nat) (fd : Z) (p : t) : result t :=
  res_bind (fun l =>
      res_map (fun '(fd, _) =>
          Mk (<[i := real_async_fds.add_fd fd mode_read () l]> (loops p)) (Some fd) (waiting p) (arrived p) (given p))
        (create_listen_udp_socket port (MkReplies fd (sys_bind fd p) 0 0)))
    (real_async_events.loop i (loops p)).

(** [recvfrom] waits for a datagram; then nothing has happened yet. *)
Definition on_ready (i : nat) (l : real_async_fds.loop_t W ()) (v : real_async_fds.view) (p : t) : result t :=
  match waiting p with
  | [] => if real_async_fds.v_error v then Ok (Mk (<[i := l]> (loops p)) (bound p) [] (arrived p) (given p)) else Ok p
  | d :: ds =>
      res_bind (fun msgs =>
          if real_async_fds.v_error v then Ok (Mk (<[i := l]> (loops p)) (bound p) (waiting p) (arrived p) (given p))
          else
            res_map (fun l => Mk (<[i := l]> (loops p)) (bound p) ds (arrived p) (given p ++ msgs))
              (real_async_fds.set_fd_mode (real_async_fds.v_fd v) mode_read l))
        (udp_pool.socket_callback (real_async_fds.v_error v) (Some d))
  end.

Definition step (port : Z) (o : op) (p : t) : result t :=
  match o with
  | RunHook i fd => run_hook port i fd p
  | Arrive d =>
      Ok (match bound p with
          | Some _ => Mk (loops p) (bound p) (waiting p ++ [d]) (arrived p ++ [d]) (given p)
          | None => p
          end)
  | Ready i fd revents =>
      res_bind (fun l =>
          res_bind (fun '(l, out) =>
              match out with
              | [] => Ok p
              | (_, v) :: _ => on_ready i l v p
              end)
            (real_async_fds.step (real_async_fds.Ready fd revents) l))
        (real_async_events.loop i (loops p))
  end.
Fixpoint run (port : Z) (os : list op) (p : t) : result t :=
  match os with [] => Ok p | o :: os' => res_bind (run port os') (step port o p) end.
End server.
Arguments t : clear implicits.
End udp_server.

(** ** Datagrams *)

Section datagrams.
Import udp_server.
Context {W : Type} `{EvIoLaws W}.
Variable port : Z.

Abbreviation cut := (fun d : list Z => take udp_pool.k_udp_buffer_size d).

(** The one loop that has the socket waits for it. *)
Definition watching (i : nat) (fd : Z) (ls : list (real_async_fds.loop_t W ())) : Prop :=
  is_Some (ls !! i)
  /\ forall j l, ls !! j = Some l -> implements l (if decide (j = i) then {[fd := (mode_read, ())]} else ∅).

Record udp_ok (hooks : nat) (p : t W) : Prop := {
  udp_loops : match bound p with
              | None => forall j l, loops p !! j = Some l -> implements l ∅
              | Some fd => exists i, watching i fd (loops p)
              end;
  udp_hooks : hooks = match bound p with Some _ => 1%nat | None => 0%nat end;
  udp_unbound : bound p = None -> waiting p = [];
  udp_given : given p ++ (cut <$> waiting p) = cut <$> arrived p
}.

Lemma watching_insert i fd j l ls :
  watching i fd ls -> implements l (if decide (j = i) then {[fd := (mode_read, ())]} else ∅) -> watching i fd (<[j := l]> ls).
Proof.
  intros [Hi Hall] Hl. split.
  - apply lookup_lt_is_Some. rewrite length_insert. by apply lookup_lt_is_Some.
  - intros k l' Hk. apply list_lookup_insert_Some in Hk as [(<- & <- & _)|[_ Hk]]; [done|by apply Hall].
Qed.

(** The callback runs for the socket alone, and the loop stays as it was. *)
Lemma ready_socket fd fd' revents l l' v out :
  implements l {[fd := (mode_read, ())]} -> real_async_fds.step (real_async_fds.Ready fd' revents) l = Ok (l', v :: out) ->
  fd' = fd /\ implements l' {[fd := (mode_read, ())]} /\ real_async_fds.v_fd v.2 = fd
  /\ exists l2, real_async_fds.set_fd_mode fd mode_read l' = Ok l2 /\ implements l2 {[fd := (mode_read, ())]}.
Proof.
  intros Hl Hs. pose proof (step_implements (real_async_fds.Ready fd' revents) l _ Hl) as Hi. rewrite Hs in Hi.
  cbn [real_async_fds.spec_step] in Hi. destruct (decide (fd' = fd)) as [->|Hne].
  2: { rewrite lookup_singleton_ne in Hi by done. by destruct Hi. }
  rewrite lookup_singleton_eq in Hi. destruct (revents =? _); [|by destruct Hi]. destruct Hi as [Hi [= -> ->]].
  split; [done|]. split; [done|]. split; [done|].
  pose proof (step_implements (real_async_fds.SetFdMode fd mode_read) l' _ Hi) as Hm. cbn [real_async_fds.step real_async_fds.spec_step] in Hm.
  rewrite lookup_singleton_eq, insert_singleton_eq in Hm. destruct (real_async_fds.set_fd_mode fd mode_read l') as [l2|]; [|done].
  exists l2. by destruct Hm.
Qed.

Lemma ready_none fd revents (l l' : real_async_fds.loop_t W ()) out :
  implements l ∅ -> real_async_fds.step (real_async_fds.Ready fd revents) l = Ok (l', out) -> out = [].
Proof.
  intros Hl Hs. pose proof (step_implements (real_async_fds.Ready fd revents) l _ Hl) as Hi. rewrite Hs in Hi.
  cbn in Hi. rewrite lookup_empty in Hi. by destruct Hi.
Qed.

Definition is_hook (o : op) : bool := match o with RunHook _ _ => true | _ => false end.
Definition hooks_of (os : list op) : nat := length (filter (fun o => is_hook o = true) os).

Lemma hook_ok h i fd p p' : udp_ok h p -> run_hook port i fd p = Ok p' -> udp_ok (S h) p'.
Proof.
  intros [Hl Hh Hu Hg]. unfold run_hook, real_async_events.loop. destruct (loops p !! i) as [l|] eqn:Hi; [|done]. cbn [res_bind].
  unfold create_listen_udp_socket, sys_bind. cbn [Sockets.sys_bind]. destruct (bound p) eqn:Hb; [done|].
  rewrite bool_decide_eq_true_2 by done. cbn [andb]. destruct (0 <=? fd); [|done]. cbn. intros [= <-].
  split; cbn; [|by rewrite Hh|done|done]. exists i. split.
  - apply lookup_lt_is_Some. rewrite length_insert. by eapply lookup_lt_Some.
  - intros j l' Hj. apply list_lookup_insert_Some in Hj as [(-> & <- & _)|[Hne Hj]].
    + rewrite decide_True by done. pose proof (step_implements (real_async_fds.AddFd fd mode_read ()) l _ (Hl _ _ Hi)) as [Hs _].
      unfold insert_new in Hs. rewrite lookup_empty in Hs. exact Hs.
    + rewrite decide_False by done. by eapply Hl.
Qed.

Lemma udp_ready_ok h i fd revents p p' : udp_ok h p -> step port (Ready i fd revents) p = Ok p' -> udp_ok h p'.
Proof.
  intros Hp. pose proof Hp as [Hl Hh Hu Hg]. cbn [step]. unfold real_async_events.loop. destruct (loops p !! i) as [l|] eqn:Hi; [|done].
  cbn [res_bind]. destruct (real_async_fds.step _ l) as [[l' out]|] eqn:Hs; [|done]. cbn [res_bind].
  destruct out as [|[[] v] out]; [by intros [= <-]|]. destruct (bound p) as [fd0|] eqn:Hb.
  2: { apply ready_none in Hs; [done|by eapply Hl]. }
  destruct Hl as (i0 & Hw). pose proof (proj2 Hw i l Hi) as Hli. destruct (decide (i = i0)) as [->|Hne].
  2: { by apply ready_none in Hs. }
  destruct (ready_socket _ _ _ _ _ _ _ Hli Hs) as (-> & Hl' & Hv & l2 & Hm & Hl2). cbn [snd] in Hv.
  assert (forall l3, implements l3 {[fd0 := (mode_read, ())]} -> exists i, watching i fd0 (<[i0 := l3]> (loops p))) as Hins.
  { intros l3 Hl3. exists i0. apply watching_insert; [done|]. by rewrite decide_True. }
  unfold on_ready. destruct (waiting p) as [|d ds] eqn:Hwait.
  - destruct (real_async_fds.v_error v); [|by intros [= <-]]. intros [= <-]. split; cbn; rewrite ?Hb; [by apply Hins|done|done|exact Hg].
  - unfold udp_pool.socket_callback. destruct (real_async_fds.v_error v); cbn [res_bind].
    + intros [= <-]. split; cbn; rewrite ?Hb; [by apply Hins|done|done|exact Hg].
    + rewrite Hv, Hm. cbn. intros [= <-]. split; cbn; rewrite ?Hb; [by apply Hins|done|done|].
      rewrite <- app_assoc. exact Hg.
Qed.

Lemma udp_step_ok o h p p' : udp_ok h p -> step port o p = Ok p' -> udp_ok (h + if is_hook o then 1 else 0) p'.
Proof.
  destruct o as [i fd|d|i fd revents]; cbn [is_hook]; rewrite ?Nat.add_0_r, ?Nat.add_1_r.
  - by apply hook_ok.
  - cbn [step]. intros [Hl Hh Hu Hg] [= <-]. destruct (bound p) as [fd|] eqn:Hb; [|split; by rewrite ?Hb].
    split; cbn [loops bound waiting arrived given]; rewrite ?Hb; [done|done|done|].
    rewrite !fmap_app, app_assoc. by f_equal.
  - by apply udp_ready_ok.
Qed.

Lemma udp_run_ok os : forall h p p', udp_ok h p -> run port os p = Ok p' -> udp_ok (h + hooks_of os) p'.
Proof.
  induction os as [|o os IH]; intros h p p' Hp; cbn [run]; [intros [= <-]; by rewrite Nat.add_0_r|].
  destruct (step port o p) as [p1|] eqn:Hs; [|done]. cbn [res_bind]. intros Hr. apply (udp_step_ok o h) in Hs; [|done].
  replace (h + hooks_of (o :: os))%nat with ((h + if is_hook o then 1 else 0) + hooks_of os)%nat; [by eapply IH|].
  unfold hooks_of. rewrite filter_cons. destruct (is_hook o); cbn [decide]; [rewrite decide_True by done; cbn [length]; lia|].
  rewrite decide_False by done. lia.
Qed.

Lemma udp_new_ok n p : new n = Ok p -> udp_ok 0 p.
Proof.
  unfold new. destruct (_ <? _)%nat; [done|]. intros [= <-]. split; cbn; [|done|done|done]. intros j l Hj.
  unfold real_async_events.new in Hj. rewrite list_lookup_imap, fmap_Some in Hj. destruct Hj as (l0 & Hj & ->).
  apply lookup_replicate in Hj as [-> _]. intros fd. cbn. by rewrite !lookup_empty.
Qed.

(** C26. The UDP server hands over the datagrams that arrive in their order, each once, cut at 4096 bytes, and what it has not handed
    over is still waiting.  Whenever one is waiting, the loop that has the socket can hand over the next.  The run hook of a second
    thread ends the process, because the port is bound already: no run gets past it. *)
Theorem udp_in_order (n : nat) (os : list op) (p0 p : t W) :
  new n = Ok p0 -> run port os p0 = Ok p ->
  given p ++ (cut <$> waiting p) = cut <$> arrived p
  /\ (hooks_of os <= 1)%nat
  /\ forall d ds, waiting p = d :: ds -> exists i fd p', step port (Ready i fd EV_READ) p = Ok p'
     /\ given p' = given p ++ [cut d] /\ waiting p' = ds.
Proof.
  intros Hnew Hr. apply udp_new_ok in Hnew. destruct (udp_run_ok os 0 p0 p Hnew Hr) as [Hl Hh Hu Hg].
  split; [done|]. split; [destruct (bound p); lia|]. intros d ds Hw. destruct (bound p) as [fd|]; [|by rewrite Hu in Hw].
  destruct Hl as (i & [l Hi] & Hall). pose proof (Hall i l Hi) as Himp. rewrite decide_True in Himp by done. exists i, fd.
  cbn [step]. unfold real_async_events.loop. rewrite Hi. cbn [res_bind].
  pose proof (step_implements (real_async_fds.Ready fd EV_READ) l _ Himp) as Hs. cbn [real_async_fds.spec_step] in Hs.
  rewrite lookup_singleton_eq in Hs.
  change (EV_READ =? Z.land EV_READ (Z.lor (ev_mode mode_read) EV_ERROR)) with true in Hs. destruct (real_async_fds.step _ l) as [[l' out]|] eqn:Hst; [|done].
  destruct Hs as [_ ->]. destruct (ready_socket _ _ _ _ _ _ _ Himp Hst) as (_ & _ & _ & l2 & Hm & _).
  cbn [res_bind]. unfold on_ready. rewrite Hw. cbn [real_async_fds.v_error real_async_fds.v_fd].
  change (real_async_fds.has_bit EV_READ EV_ERROR) with false. cbn [udp_pool.socket_callback res_bind]. rewrite Hm. by eexists.
Qed.
End datagrams.

(** A long datagram and a short one; then a second thread. *)
Lemma udp_in_order_witness :
  let os := [udp_server.RunHook 0 9; udp_server.Arrive (repeat 7 5000); udp_server.Arrive [1; 2]; udp_server.Ready 0 9 EV_READ] in
  exists p0 p, udp_server.new 2 = Ok p0 /\ udp_server.run (W := option (Z * Z)) 5555 os p0 = Ok p
  /\ udp_server.given p ++ ((fun d => take udp_pool.k_udp_buffer_size d) <$> udp_server.waiting p) = [repeat 7 4096; [1; 2]]
  /\ udp_server.run 5555 (os ++ [udp_server.RunHook 1 10]) p0 = Throw (user_exception "FATAL").
Proof.
  intros os. destruct (udp_server.new (W := option (Z * Z)) 2) as [p0|] eqn:H0; [|discriminate H0].
  destruct (udp_server.run 5555 os p0) as [p|] eqn:Hr; [|injection H0 as <-; vm_compute in Hr; discriminate Hr].
  exists p0, p. split; [reflexivity|]. split; [exact Hr|]. split.
  - rewrite (proj1 (udp_in_order 5555 2 os p0 p H0 Hr)). injection H0 as <-. vm_compute in Hr. injection Hr as <-. vm_compute. reflexivity.
  - injection H0 as <-. vm_compute. reflexivity.
Defined.
