(* ===== verification/Core.v ===== *)
(** * The event server

    [src/core/real_core_helper.cpp]: how the servers, the executor and the dispatcher are put
    together ([incoming_event], [init_tcp_server], [init_udp_server], [snapshot]).

    A message of a TCP client becomes a task of the executor, a thread of which parses it and gives
    its events to the dispatcher; a datagram is parsed at once by the thread that received it.  The
    steps of the parts come in any order; a message goes through the dispatcher in one
    step, at one reading of the clock. *)

From S2P Require Import Prelude Events Infra Dispatch ThreadPools Tcp TcpPool RiemannPool.

Local Open Scope Z_scope.

Section core.
Import riemann_tcp_pool.
Context {B : Type} `{CircularBuffer B}.
Variable msg_ok : list Z.
(** [riemann::Msg::ParseFromArray]: whether there is a query, and the events. *)
Variable parse_msg : list Z -> option (bool * list Event).

(** A message that is none, or that has a query, is dropped. *)
Definition incoming_event (now : clock) (raw_msg : list Z) (s : streams)
  : streams * list effect * result unit :=
  match parse_msg raw_msg with
  | None => (s, [], Ok ())
  | Some (true, _) => (s, [], Ok ())
  | Some (false, events) => process_message now events s
  end.

(** [snapshot]: the events of the instrumentation go to the streams. *)
Definition snapshot (now : clock) (events : list Event) (s : streams)
  : streams * list effect * result unit := push_events now events s.

(** The parts, what the TCP server has put out, and the messages that were dispatched, each with
    the clock and with whether it came over TCP. *)
Record core : Type := MkCore {
  tcp_server_ : tcp_pool.t B (gmap Z conn_data);
  executor_pool_ : executor_thread_pool.t (list Z);
  streams_ : streams;
  outs : list (nat * server_out);
  handled : list (clock * bool * list Z)
}.

Definition core_new (riemann_tcp_pool_size executor_pool_size : nat) (s : streams) : core :=
  MkCore (riemann_tcp_pool.new riemann_tcp_pool_size) (executor_thread_pool.new executor_pool_size)
    s [] [].

(** [income_tcp_event], for each message in turn; [None] while the queue is full. *)
Fixpoint income_tcp_events (msgs : list (list Z)) (p : executor_thread_pool.t (list Z))
  : option (executor_thread_pool.t (list Z)) :=
  match msgs with
  | [] => Some p
  | m :: msgs' => p ← executor_thread_pool.add_task m p; income_tcp_events msgs' p
  end.

(** The messages handed on by all loops. *)
Definition all_messages (outs : list (nat * server_out)) : list (list Z) := messages outs.*2.

Definition dispatch (now : clock) (tcp : bool) (raw : list Z) (c : core) : option core :=
  match incoming_event now raw (streams_ c) with
  | (s, _, Ok ()) =>
      Some (MkCore (tcp_server_ c) (executor_pool_ c) s (outs c) (handled c ++ [(now, tcp, raw)]))
  | (_, _, Throw _) => None
  end.

Fixpoint income_udp_events (now : clock) (msgs : list (list Z)) (c : core) : option core :=
  match msgs with
  | [] => Some c
  | m :: msgs' => c ← dispatch now false m c; income_udp_events now msgs' c
  end.

Inductive core_op : Type :=
| TcpServer (o : pool_op)
| TakeTask (i : nat)
| EndTask (i : nat) (now : clock)
| Datagram (error : bool) (recvfrom : option (list Z)) (now : clock).

(** [None]: it cannot happen now, or it ends the process. *)
Definition step (o : core_op) (c : core) : option core :=
  match o with
  | TcpServer o =>
      match riemann_tcp_pool.step msg_ok o (tcp_server_ c) with
      | Throw _ => None
      | Ok (p, out) =>
          ex ← income_tcp_events (all_messages out) (executor_pool_ c);
          Some (MkCore p ex (streams_ c) (outs c ++ out) (handled c))
      end
  | TakeTask i =>
      ex ← executor_thread_pool.take_task i (executor_pool_ c);
      Some (MkCore (tcp_server_ c) ex (streams_ c) (outs c) (handled c))
  | EndTask i now =>
      match executor_thread_pool.running (executor_pool_ c) !! i with
      | Some (Some raw) =>
          ex ← executor_thread_pool.end_task i (executor_pool_ c);
          dispatch now true raw (MkCore (tcp_server_ c) ex (streams_ c) (outs c) (handled c))
      | _ => None
      end
  | Datagram error recvfrom now =>
      match udp_pool.socket_callback error recvfrom with
      | Throw _ => None
      | Ok msgs => income_udp_events now msgs c
      end
  end.

Fixpoint run (ops : list core_op) (c : core) : option core :=
  match ops with
  | [] => Some c
  | o :: ops' => c ← step o c; run ops' c
  end.

(** ** From the sockets to the rules *)

(** The messages dispatched that came over TCP, and what all messages say. *)
Definition tcp_handled (h : list (clock * bool * list Z)) : list (list Z) :=
  omap (fun x : clock * bool * list Z => if x.1.2 then Some x.2 else None) h.
Definition parsed (h : list (clock * bool * list Z)) : list (clock * list Event) :=
  omap (fun x : clock * bool * list Z => match parse_msg x.2 with Some (false, es) => Some (x.1.1, es) | _ => None end) h.

(** The executor has nothing to do. *)
Definition executor_idle (p : executor_thread_pool.t (list Z)) : Prop :=
  Forall (fun q => q = []) (executor_thread_pool.tasks_ p)
  /\ Forall (fun r => r = None) (executor_thread_pool.running p).
End core.
Arguments core : clear implicits.

Section end_to_end.
Context {B : Type} `{CircularBufferLaws B}.
Variable msg_ok : list Z.
Variable parse_msg : list Z -> option (bool * list Event).

Abbreviation parsed := (parsed parse_msg).

(** Every task is dealt to one thread. *)
Lemma dealt_all {T} n (l : list T) :
  (0 < n)%nat -> concat ((fun i => dealt n i l) <$> seq 0 n) ≡ₚ l.
Proof.
  intros Hn. induction l as [|f l IH] using rev_ind.
  { clear Hn. induction (seq 0 n) as [|i s IHs]; [done|]. rewrite fmap_cons. exact IHs. }
  set (k := (length l mod n)%nat). assert (k < n)%nat as Hk by (by apply Nat.mod_upper_bound; lia).
  assert (forall s, NoDup s -> concat ((fun i => dealt n i (l ++ [f])) <$> s)
    ≡ₚ concat ((fun i => dealt n i l) <$> s) ++ (if decide (k ∈ s) then [f] else [])) as Hs.
  { clear IH Hn Hk. induction s as [|i s IHs]; intros Hnd; [done|].
    apply list.NoDup_cons in Hnd as [Hi Hnd]. rewrite !fmap_cons. cbn [concat].
    rewrite dealt_snoc, IHs, <- !app_assoc by done. apply Permutation_app_head.
    fold k. destruct (decide (k = i)) as [->|Hne].
    - rewrite (decide_False (P := i ∈ s)), decide_True, app_nil_r by (done || by left).
      by rewrite (Permutation_app_comm [f]).
    - cbn [app]. destruct (decide (k ∈ s)) as [Hin|Hni].
      + by rewrite decide_True by (by right).
      + rewrite decide_False; [done|]. by intros [?|?]%elem_of_cons. }
  rewrite Hs by apply NoDup_seq. rewrite decide_True by (apply elem_of_seq; lia). by rewrite IH.
Qed.

Lemma process_messages_app a b s s' :
  process_messages a s = (s', Ok ()) -> process_messages (a ++ b) s = process_messages b s'.
Proof.
  revert s. induction a as [|[now es] a IH]; intros s; cbn [app process_messages]; [by intros [= <-]|].
  destruct (process_message now es s) as [[s1 w] [[]|x]]; [apply IH|done].
Qed.

(** The senders' side: the TCP server, the executor, what the server has put out, and the messages
    given to the rules. *)
Record front_inv (m : nat) (p : tcp_pool.t B (gmap Z riemann_tcp_pool.conn_data)) (ex : executor_thread_pool.t (list Z))
    (os : list (nat * server_out)) (h : list (clock * bool * list Z)) : Prop := {
  fi_pool : RiemannPool.pool_ok msg_ok p os;
  fi_executor : exists done, executor_ok m (all_messages os) done ex;
  fi_handled : tcp_handled h ≡ₚ concat (executor_thread_pool.executed ex)
}.

Record core_inv (m : nat) (s0 : streams) (c : core B) : Prop := {
  ci_front : front_inv m (tcp_server_ c) (executor_pool_ c) (outs c) (handled c);
  ci_streams : process_messages (parsed (handled c)) s0 = (streams_ c, Ok ())
}.

Lemma income_tcp_ok msgs m l done p p' :
  executor_ok m l done p -> income_tcp_events msgs p = Some p' ->
  executor_ok m (l ++ msgs) done p'
  /\ executor_thread_pool.executed p' = executor_thread_pool.executed p.
Proof.
  revert l p. induction msgs as [|x msgs IH]; intros l p Hp; cbn [income_tcp_events].
  { intros [= <-]. by rewrite app_nil_r. }
  destruct (executor_thread_pool.add_task x p) as [p1|] eqn:Ha; [|done]. cbn [mbind option_bind]. intros Hr.
  pose proof (add_task_ok _ _ _ _ _ _ Hp Ha) as Hp1. destruct (IH _ _ Hp1 Hr) as [Hok He].
  rewrite <- app_assoc in Hok. split; [exact Hok|]. rewrite He. revert Ha.
  unfold executor_thread_pool.add_task. destruct (_ !! _); [|done]. cbn [mbind option_bind].
  case_match; [done|]. by intros [= <-].
Qed.

Lemma concat_insert_snoc {T} (ls : list (list T)) i l f :
  ls !! i = Some l -> concat (<[i := l ++ [f]]> ls) ≡ₚ concat ls ++ [f].
Proof.
  revert i. induction ls as [|l' ls IH]; intros [|i]; cbn; [done|done| |].
  - intros [= ->]. rewrite <- !app_assoc. apply Permutation_app_head. apply Permutation_app_comm.
  - intros Hi. rewrite IH by done. by rewrite app_assoc.
Qed.

Lemma end_task_executed i (p p' : executor_thread_pool.t (list Z)) raw :
  executor_thread_pool.running p !! i = Some (Some raw) ->
  executor_thread_pool.end_task i p = Some p' ->
  concat (executor_thread_pool.executed p') ≡ₚ concat (executor_thread_pool.executed p) ++ [raw].
Proof.
  intros Hr. unfold executor_thread_pool.end_task. rewrite Hr.
  destruct (executor_thread_pool.executed p !! i) as [l|] eqn:He; [|done]. intros [= <-]. cbn.
  by apply concat_insert_snoc.
Qed.

Lemma take_task_executed i (p p' : executor_thread_pool.t (list Z)) :
  executor_thread_pool.take_task i p = Some p' ->
  executor_thread_pool.executed p' = executor_thread_pool.executed p.
Proof.
  unfold executor_thread_pool.take_task. intros Ht. repeat (case_match; try discriminate);
    by injection Ht as <-.
Qed.

Lemma front_new n m : front_inv m (riemann_tcp_pool.new n) (executor_thread_pool.new m) [] [].
Proof.
  constructor; cbn.
  - apply RiemannPool.new_pool_ok.
  - exists 0%nat. apply executor_new_ok.
  - clear. induction m as [|m IH]; [done|]. exact IH.
Qed.

Lemma front_tcp m p ex os h o p' out ex' :
  front_inv m p ex os h -> riemann_tcp_pool.step msg_ok o p = Ok (p', out) ->
  income_tcp_events (all_messages out) ex = Some ex' -> front_inv m p' ex' (os ++ out) h.
Proof.
  intros [Hp [done Hex] Hh] Hs Hi. destruct (RiemannPool.server_step_ok msg_ok o _ _ Hp) as (p1 & out1 & Hs1 & Hp1).
  rewrite Hs in Hs1. injection Hs1 as <- <-. destruct (income_tcp_ok _ _ _ _ _ _ Hex Hi) as [Hex' He].
  split; [done| |by rewrite He]. exists done. unfold all_messages in *. by rewrite fmap_app, messages_app.
Qed.

Lemma front_take m p ex os h i ex' :
  front_inv m p ex os h -> executor_thread_pool.take_task i ex = Some ex' -> front_inv m p ex' os h.
Proof.
  intros [Hp [done Hex] Hh] Ht. split; [done| |by rewrite (take_task_executed _ _ _ Ht)].
  exists done. by eapply take_task_ok.
Qed.

Lemma front_end m p ex os h i ex' now raw :
  front_inv m p ex os h -> executor_thread_pool.running ex !! i = Some (Some raw) ->
  executor_thread_pool.end_task i ex = Some ex' -> front_inv m p ex' os (h ++ [(now, true, raw)]).
Proof.
  intros [Hp [done Hex] Hh] Hr He. split; [done|exists (S done); by eapply end_task_ok|].
  unfold tcp_handled in *. rewrite omap_app, Hh. symmetry. by eapply end_task_executed.
Qed.

Lemma front_udp m p ex os h now raw : front_inv m p ex os h -> front_inv m p ex os (h ++ [(now, false, raw)]).
Proof. intros [Hp Hex Hh]. split; [done..|]. unfold tcp_handled in *. by rewrite omap_app, Hh, app_nil_r. Qed.

Lemma dispatch_inv now tcp raw m s0 (c c' : core B) :
  front_inv m (tcp_server_ c) (executor_pool_ c) (outs c) (handled c ++ [(now, tcp, raw)]) ->
  process_messages (parsed (handled c)) s0 = (streams_ c, Ok ()) ->
  dispatch parse_msg now tcp raw c = Some c' -> core_inv m s0 c'.
Proof.
  intros Hf Hs. unfold dispatch. destruct (incoming_event parse_msg now raw (streams_ c)) as [[s w] [[]|]] eqn:Hin; [|done].
  intros [= <-]. split; [done|]. cbn [streams_ handled].
  unfold Core.parsed in *. rewrite omap_app, (process_messages_app _ _ _ _ Hs). cbn.
  unfold incoming_event in Hin. destruct (parse_msg raw) as [[[] es]|]; simpl; [by injection Hin as <- _|
    |by injection Hin as <- _]. by rewrite Hin.
Qed.

Lemma income_udp_inv now msgs m s0 (c c' : core B) :
  core_inv m s0 c -> income_udp_events parse_msg now msgs c = Some c' -> core_inv m s0 c'.
Proof.
  revert c. induction msgs as [|x msgs IH]; intros c [Hf Hs]; cbn [income_udp_events]; [by intros [= <-]|].
  destruct (dispatch parse_msg now false x c) as [c1|] eqn:Hd; [|done]. cbn [mbind option_bind].
  apply IH. eapply dispatch_inv; [by apply front_udp|done..].
Qed.

Lemma core_step_inv o m s0 (c c' : core B) :
  core_inv m s0 c -> step msg_ok parse_msg o c = Some c' -> core_inv m s0 c'.
Proof.
  intros Hc. pose proof Hc as [Hf Hs]. destruct o as [o|i|i now|error recv now]; cbn [step].
  - destruct (riemann_tcp_pool.step msg_ok o (tcp_server_ c)) as [[p out]|] eqn:Hst; [|done].
    destruct (income_tcp_events (all_messages out) (executor_pool_ c)) as [ex|] eqn:Hi; [|done].
    cbn [mbind option_bind]. intros [= <-]. split; [by eapply front_tcp|done].
  - destruct (executor_thread_pool.take_task i (executor_pool_ c)) as [ex|] eqn:Ht; [|done].
    cbn [mbind option_bind]. intros [= <-]. split; [by eapply front_take|done].
  - destruct (executor_thread_pool.running (executor_pool_ c) !! i) as [[raw|]|] eqn:Hr; [|done..].
    destruct (executor_thread_pool.end_task i (executor_pool_ c)) as [ex|] eqn:He; [|done].
    cbn [mbind option_bind]. apply dispatch_inv; [by eapply front_end|done].
  - destruct (udp_pool.socket_callback error recv) as [msgs|]; [|done]. by apply income_udp_inv.
Qed.

Lemma core_run_inv ops m s0 (c c' : core B) :
  core_inv m s0 c -> run msg_ok parse_msg ops c = Some c' -> core_inv m s0 c'.
Proof.
  revert c. induction ops as [|o ops IH]; intros c Hc; cbn [run]; [by intros [= <-]|].
  destruct (step msg_ok parse_msg o c) as [c1|] eqn:Hs; [|done]. apply IH. by eapply core_step_inv.
Qed.

Lemma core_new_inv n m s0 : core_inv m s0 (core_new n m s0).
Proof. split; [apply front_new|done]. Qed.

(** An idle executor has executed what was added. *)
Lemma idle_executed m l done (p : executor_thread_pool.t (list Z)) :
  (0 < m)%nat -> executor_ok m l done p -> executor_idle p ->
  concat (executor_thread_pool.executed p) ≡ₚ l.
Proof.
  intros Hm [H1 H2 H3 _ _ _ H7] [Hq Hr]. rewrite <- (dealt_all m l Hm).
  replace (executor_thread_pool.executed p) with ((fun i => dealt m i l) <$> seq 0 m); [done|].
  apply list_eq. intros i. rewrite list_lookup_fmap. destruct (decide (i < m)%nat) as [Hi|Hi].
  - rewrite lookup_seq_lt by done. cbn [fmap option_fmap option_map].
    destruct (lookup_lt_is_Some_2 (executor_thread_pool.executed p) i) as [e He]; [lia|].
    destruct (lookup_lt_is_Some_2 (executor_thread_pool.running p) i) as [r Hri]; [lia|].
    destruct (lookup_lt_is_Some_2 (executor_thread_pool.tasks_ p) i) as [q Hqi]; [lia|].
    specialize (H7 i Hi). unfold thread_tasks in H7. rewrite He, Hri, Hqi in H7.
    rewrite list.Forall_lookup in Hq. rewrite list.Forall_lookup in Hr.
    rewrite (Hq _ _ Hqi), (Hr _ _ Hri) in H7. simpl in H7.
    rewrite app_nil_r in H7. apply (inj (fmap Some)) in H7. by rewrite He, H7.
  - rewrite lookup_seq_ge by lia. symmetry. apply lookup_ge_None. lia.
Qed.

(** What was executed is part of what was added. *)
Lemma executed_part m l done (p : executor_thread_pool.t (list Z)) :
  (0 < m)%nat -> executor_ok m l done p -> concat (executor_thread_pool.executed p) ⊆+ l.
Proof.
  intros Hm [_ _ H3 _ _ _ H7]. transitivity (concat ((fun i => dealt m i l) <$> seq 0 m)); [|by rewrite dealt_all].
  assert (Forall2 prefix (executor_thread_pool.executed p) ((fun i => dealt m i l) <$> seq 0 m)) as Hpre.
  { apply Forall2_same_length_lookup_2; [by rewrite length_fmap, length_seq|]. intros i e d He Hd.
    apply list_lookup_fmap_Some in Hd as (j & -> & [-> Hj]%lookup_seq). cbn in *. specialize (H7 i ltac:(lia)).
    unfold thread_tasks in H7. rewrite He in H7. cbn [default from_option] in H7. symmetry in H7.
    apply fmap_app_inv in H7 as (a & b & Ha & _ & ->). apply (inj (fmap Some)) in Ha as <-. by exists b. }
  clear -Hpre. induction Hpre as [|e d es ds He _ IH]; [done|]. cbn [concat].
  destruct He as [r ->]. apply submseteq_app; [by apply submseteq_inserts_r|done].
Qed.

Lemma since_sublist fd h : since fd h `sublist_of` h.
Proof.
  induction h as [|o h IH] using rev_ind; [done|]. unfold since in *. rewrite foldl_app. cbn [foldl].
  case_decide; [|by apply sublist_inserts_r]. case_match; [apply sublist_nil_l|]. by apply sublist_app.
Qed.
Lemma outs_of_sublist {A} i (l : list (nat * A)) : outs_of i l `sublist_of` l.*2.
Proof.
  unfold outs_of. induction l as [|[j o] l IH]; [done|]. rewrite filter_cons. cbn [fst].
  case_decide; csimpl; [by apply sublist_skip|by apply sublist_cons].
Qed.
Lemma messages_sublist h h' : h `sublist_of` h' -> messages h `sublist_of` messages h'.
Proof.
  unfold messages. induction 1 as [|o h h' _ IH|o h h' _ IH]; cbn; [done| |].
  - destruct o; try done. by apply sublist_skip.
  - destruct o; try done. by apply sublist_cons.
Qed.

(** When the executor is idle, all has been handled. *)
Lemma front_idle m p ex os h :
  (0 < m)%nat -> front_inv m p ex os h -> executor_idle ex ->
  tcp_handled h ≡ₚ all_messages os
  /\ forall i l fd d ms,
       tcp_pool.loops p !! i = Some l -> tcp_pool.user l !! fd = Some d -> Forall carried ms ->
       Z.of_nat (length ms * length (riemann_tcp_connection.generate_msg_ok msg_ok))
       <= tcp_connection.k_default_buffer_size ->
       received (since fd (outs_of i os)) = concat (frame <$> ms) -> ms ⊆+ tcp_handled h.
Proof.
  intros Hm [Hp [done Hex] Hh] Hidle.
  assert (tcp_handled h ≡ₚ all_messages os) as Hall by (rewrite Hh; by eapply idle_executed).
  split; [done|]. intros i l fd d ms Hl Hd Hms Hacks Hrec. rewrite Hall.
  destruct (Hp i l Hl) as [He _ _]. specialize (He fd). rewrite Hd in He.
  destruct (tcp_pool.fds l !! fd), (tcp_pool.conn_map l !! fd) as [cn|]; try done.
  destruct He as (_ & _ & Hinv). specialize (Hinv ms [] Hms Hacks). rewrite app_nil_r in Hinv.
  specialize (Hinv Hrec). apply sublist_submseteq.
  rewrite <- (all_delivered msg_ok ms _ Hms Hinv eq_refl). cbn [delivered]. unfold all_messages.
  apply messages_sublist. etransitivity; [apply since_sublist|apply outs_of_sublist].
Qed.

End end_to_end.

(** ** A run *)

(** One client on one loop, two threads; a message that has one event. *)
Definition sample_parse (raw : list Z) : option (bool * list Event) :=
  match raw with [10; k] => Some (false, [Event.set_time k Event.empty]) | _ => None end.

Definition sample_run : list core_op :=
  [ TcpServer (riemann_tcp_pool.AddClient 7); TcpServer (riemann_tcp_pool.Async 0);
    TcpServer (riemann_tcp_pool.Ready 0 7 (sample_ready [0; 0; 0; 2; 10; 1; 0; 0; 0; 2; 10]));
    TakeTask 0; TcpServer (riemann_tcp_pool.Ready 0 7 (sample_ready [2])); TakeTask 1;
    EndTask 1 20; EndTask 0 21; Datagram false (Some [10; 3]) 22 ].

