(* ===== verification/Process.v ===== *)
(** * The process

    [src/config/config.cpp], the command line ([copy_args], [free_args] and [ld_environment] of
    [src/util/util.cpp]), threads that are waited for ([src/websocket/worker_threads.cpp] and
    [executor_thread_pool::stop]), and the life of the core ([src/core/real_core.cpp]): it is started, the main
    loop is left, and the services are stopped one after the other while the threads of those that are
    not stopped yet go on. *)

From stdpp Require Import strings.
From S2P Require Import Prelude Events Infra Dispatch ThreadPools Tcp TcpPool RiemannPool Core.

Local Open Scope Z_scope.

(** ** Configuration *)

(** The flags: [DEFINE_int32], [DEFINE_string] and [DEFINE_bool]. *)
Record flags : Type := MkFlags {
  FLAGS_events_port : Z;
  FLAGS_riemann_tcp_pool_size : Z;
  FLAGS_ws_port : Z;
  FLAGS_ws_pool_size : Z;
  FLAGS_executor_pool_size : Z;
  FLAGS_index_expire_interval : Z;
  FLAGS_rules_directory : string;
  FLAGS_pagerduty_pool_size : Z;
  FLAGS_mail_pool_size : Z;
  FLAGS_graphite_pool_size : Z;
  FLAGS_forward_pool_size : Z;
  FLAGS_enable_mail_debug : bool;
  FLAGS_enable_pagerduty_debug : bool;
  FLAGS_enable_internal_metrics : bool
}.

(** Their values if the command line does not set them; [k_cores] is
    [std::thread::hardware_concurrency()], which is 0 if it is not known. *)
Definition default_flags (k_cores : Z) : flags :=
  MkFlags 5555 4 5556 4 k_cores 60 "." 1 1 4 4 false false false.

(** [struct config]: [uint32_t] ports, [size_t] sizes. *)
Record config : Type := MkConfiguration {
  events_port : Z;
  riemann_tcp_pool_size : Z;
  ws_port : Z;
  ws_pool_size : Z;
  executor_pool_size : Z;
  index_expire_interval : Z;
  rules_directory : string;
  pagerduty_pool_size : Z;
  mail_pool_size : Z;
  graphite_pool_size : Z;
  forward_pool_size : Z;
  enable_mail_debug : bool;
  enable_pagerduty_debug : bool;
  enable_internal_metrics : bool
}.

Definition to_size (n : Z) : Z := n mod two64.

Definition create_config (f : flags) : config :=
  MkConfiguration (wrap32 (FLAGS_events_port f)) (to_size (FLAGS_riemann_tcp_pool_size f)) (wrap32 (FLAGS_ws_port f))
    (to_size (FLAGS_ws_pool_size f)) (to_size (FLAGS_executor_pool_size f)) (to_size (FLAGS_index_expire_interval f))
    (FLAGS_rules_directory f) (to_size (FLAGS_pagerduty_pool_size f)) (to_size (FLAGS_mail_pool_size f))
    (to_size (FLAGS_graphite_pool_size f)) (to_size (FLAGS_forward_pool_size f)) (FLAGS_enable_mail_debug f)
    (FLAGS_enable_pagerduty_debug f) (FLAGS_enable_internal_metrics f).

(** ** The command line *)

(** Blocks of memory: the next address and the blocks that are allocated, with what they hold. *)
Record heap : Type := MkHeap { next_block : nat; blocks : gmap nat (list ascii) }.

Definition malloc (s : list ascii) (h : heap) : nat * heap :=
  (next_block h, MkHeap (S (next_block h)) (<[next_block h := s]> (blocks h))).
(** Of a block that is not allocated it is undefined. *)
Definition free (p : nat) (h : heap) : result heap :=
  match blocks h !! p with
  | Some _ => Ok (MkHeap (next_block h) (delete p (blocks h)))
  | None => Throw undefined_behaviour
  end.

(** The loop of [copy_args], with [strdup]. *)
Fixpoint strdups (argv : list (list ascii)) (h : heap) : list nat * heap :=
  match argv with
  | [] => ([], h)
  | s :: argv' => let '(p, h) := malloc s h in let '(ps, h) := strdups argv' h in (p :: ps, h)
  end.
(** The block of the array, the pointers in it. *)
Definition copy_args (argv : list (list ascii)) (h : heap) : nat * list nat * heap :=
  let '(copy_argv, h) := malloc [] h in
  let '(ps, h) := strdups argv h in (copy_argv, ps, h).

Fixpoint free_each (ps : list nat) (h : heap) : result heap :=
  match ps with [] => Ok h | p :: ps' => res_bind (free_each ps') (free p h) end.
Definition free_args (aux : nat) (ps : list nat) (h : heap) : result heap := res_bind (free aux) (free_each ps h).

(** [ld_environment]: the process goes on, or it is replaced by itself with another environment.  [readlink]
    and [execv] may fail. *)
Inductive ld_result : Type :=
| Continues (env : gmap string string)
| Replaced (env : gmap string string).
Definition ld_environment (dir : string) (readlink_ok execv_ok : bool) (env : gmap string string) : ld_result :=
  match env !! "LD_LIBRARY_PATH"%string with
  | Some _ => Continues env
  | None =>
      let env := <["LD_LIBRARY_PATH"%string := dir]> env in
      if negb readlink_ok then Continues env
      else if execv_ok then Replaced env
      else Continues env
  end.

(** [start_core] up to the construction of the core: the configuration, or nothing if the process has been replaced.
    [f]: the flags as the command line sets them. *)
Definition start_core (argv : list (list ascii)) (f : flags) (readlink_ok execv_ok : bool) (env : gmap string string)
    (h : heap) : result (option (config * heap)) :=
  let '(orig_argv, ps, h) := copy_args argv h in
  let conf := create_config f in
  match ld_environment (rules_directory conf) readlink_ok execv_ok env with
  | Replaced _ => Ok None
  | Continues _ => res_bind (fun h => Ok (Some (conf, h))) (free_args orig_argv ps h)
  end.

(** ** Waiting for threads *)

Module worker_threads.
Definition k_stop_attempts : nat := 50.

(** Where the thread that calls [stop] is, and the threads of the pool that have ended. *)
Inductive phase : Type := Polling (attempts : nat) | Joining (i : nat) | Returned.
Record t : Type := Mk { finished_threads_ : list bool; waiting : phase }.

(** The threads run; [stop] is called. *)
Definition new (threads : nat) : t := Mk (replicate threads false) (Polling k_stop_attempts).

(** [run_tasks]: the task of thread [i] returns. *)
Definition end_tasks (i : nat) (w : t) : t := Mk (<[i := true]> (finished_threads_ w)) (waiting w).

Definition stopped (w : t) : nat := length (filter (fun b => b = true) (finished_threads_ w)).

(** A turn of one of the two loops of [stop]; [None] while [join] waits. *)
Definition stop_turn (w : t) : option t :=
  match waiting w with
  | Polling 0 => Some (Mk (finished_threads_ w) (Joining 0))
  | Polling (S attempts) =>
      if (stopped w =? length (finished_threads_ w))%nat then Some (Mk (finished_threads_ w) (Joining 0))
      else Some (Mk (finished_threads_ w) (Polling attempts))
  | Joining i =>
      match finished_threads_ w !! i with
      | None => Some (Mk (finished_threads_ w) Returned)
      | Some true => Some (Mk (finished_threads_ w) (Joining (S i)))
      | Some false => None
      end
  | Returned => Some w
  end.

Inductive op : Type := EndTasks (i : nat) | Turn.
Definition step (o : op) (w : t) : option t :=
  match o with EndTasks i => Some (end_tasks i w) | Turn => stop_turn w end.
Fixpoint run (os : list op) (w : t) : option t :=
  match os with [] => Some w | o :: os' => w ← step o w; run os' w end.
End worker_threads.

(** ** The core *)

Inductive service : Type := Scheduler | Executor | Streams | TcpServers | UdpServer | WsServer | Externals.

#[export] Instance service_eq_dec : EqDecision service.
Proof. solve_decision. Defined.

(** The order in which [real_core::start] stops them. *)
Definition stop_order : list service := [Scheduler; Executor; Streams; TcpServers; UdpServer; WsServer; Externals].

Section lifecycle.
Import riemann_tcp_pool.
Context {B : Type} `{CircularBuffer B}.
Variable msg_ok : list Z.
Variable parse_msg : list Z -> option (bool * list Event).

(** The core; whether the main loop has been left; whether [executor_thread_pool::stop] waits for its threads; and
    the services that have been stopped. *)
Record process : Type := MkProcess {
  the_core : core B;
  main_left : bool;
  joining : bool;
  stopped : list service
}.
Definition process_new (riemann_tcp_pool_size executor_pool_size : nat) (s : streams) : process :=
  MkProcess (core_new riemann_tcp_pool_size executor_pool_size s) false false [].

Definition with_executor (ex : executor_thread_pool.t (list Z)) (c : core B) : core B :=
  MkCore (tcp_server_ c) ex (streams_ c) (outs c) (handled c).

(** Who does a step: the main thread accepts clients, the threads of the servers serve them. *)
Definition enabled (o : core_op) (p : process) : bool :=
  match o with
  | TcpServer (AddClient _) => negb (main_left p)
  | TcpServer _ => bool_decide (TcpServers ∉ stopped p)
  | Datagram _ _ _ => bool_decide (UdpServer ∉ stopped p)
  | _ => true
  end.

(** The next line of [start] behind the main loop. *)
Definition stop_next (p : process) : option process :=
  if negb (main_left p) then None
  else
    match drop (length (stopped p)) stop_order with
    | [] => None
    | Executor :: _ =>
        let ex := executor_pool_ (the_core p) in
        if joining p then
          if bool_decide (Forall (fun b => b = true) (executor_thread_pool.finished_threads_ ex))
          then Some (MkProcess (the_core p) true false (stopped p ++ [Executor]))
          else None
        else Some (MkProcess (with_executor (executor_thread_pool.stop ex) (the_core p)) true true (stopped p))
    | s :: _ => Some (MkProcess (the_core p) true (joining p) (stopped p ++ [s]))
    end.

Inductive process_op : Type := CoreStep (o : core_op) | LeaveMainLoop | StopNext.

Definition process_step (o : process_op) (p : process) : option process :=
  match o with
  | CoreStep o =>
      if enabled o p then
        c ← Core.step msg_ok parse_msg o (the_core p); Some (MkProcess c (main_left p) (joining p) (stopped p))
      else None
  | LeaveMainLoop => Some (MkProcess (the_core p) true (joining p) (stopped p))
  | StopNext => stop_next p
  end.
Fixpoint process_run (os : list process_op) (p : process) : option process :=
  match os with [] => Some p | o :: os' => p ← process_step o p; process_run os' p end.
End lifecycle.
Arguments process : clear implicits.

(** ** Configuration and command line *)

(** Flags that are not negative are the configuration; a negative size becomes a very large one. *)
Lemma to_size_spec n : - 2 ^ 31 <= n < 2 ^ 31 -> to_size n = if 0 <=? n then n else 2 ^ 64 + n.
Proof.
  intros Hn. unfold to_size, two64. destruct (0 <=? n) eqn:H0.
  - apply Z.leb_le in H0. rewrite Z.mod_small; [done|]. split; [done|]. lia.
  - apply Z.leb_gt in H0. symmetry. apply (Z.mod_unique_pos n (2 ^ 64) (-1)); lia.
Qed.

(** If the number of processors is not known the executor has no thread, and a task goes outside its vector. *)
Example no_executor_threads :
  executor_pool_size (create_config (default_flags 0)) = 0
  /\ executor_thread_pool.add_task [1] (executor_thread_pool.new 0) = None.
Proof. done. Qed.

Definition fresh_heap (h : heap) : Prop := forall p, (next_block h <= p)%nat -> blocks h !! p = None.

Lemma strdups_blocks argv : forall h,
  let '(ps, h') := strdups argv h in
  ps = seq (next_block h) (length argv) /\ next_block h' = (next_block h + length argv)%nat
  /\ forall p, blocks h' !! p = if decide (next_block h <= p < next_block h + length argv)%nat
                               then argv !! (p - next_block h)%nat else blocks h !! p.
Proof.
  induction argv as [|s argv IH]; intros h; cbn [strdups].
  { split_and!; [done|cbn; lia|]. intros p. by rewrite decide_False by (cbn; lia). }
  cbn [malloc]. specialize (IH (MkHeap (S (next_block h)) (<[next_block h := s]> (blocks h)))).
  destruct (strdups argv _) as [ps h']. destruct IH as (-> & Hn & Hb). cbn [next_block] in *.
  split_and!; [done|cbn; lia|]. intros p. rewrite Hb. cbn [blocks length].
  destruct (decide (p = next_block h)) as [->|Hne].
  - rewrite decide_False, decide_True, Nat.sub_diag by lia. by rewrite lookup_insert_eq.
  - rewrite lookup_insert_ne by done. destruct (decide (S (next_block h) <= p < S (next_block h) + length argv)%nat).
    + rewrite decide_True by lia. by replace (p - next_block h)%nat with (S (p - S (next_block h))) by lia.
    + by rewrite decide_False by lia.
Qed.

Lemma free_each_blocks ps : forall h,
  NoDup ps -> (forall p, p ∈ ps -> is_Some (blocks h !! p)) ->
  exists h', free_each ps h = Ok h' /\ forall p, blocks h' !! p = if decide (p ∈ ps) then None else blocks h !! p.
Proof.
  induction ps as [|q ps IH]; intros h Hnd Hin; cbn [free_each].
  { exists h. split; [done|]. intros p. by rewrite decide_False by apply not_elem_of_nil. }
  apply list.NoDup_cons in Hnd as [Hq Hnd]. unfold free. destruct (Hin q) as [s Hs]; [by left|]. rewrite Hs. cbn [res_bind].
  destruct (IH (MkHeap (next_block h) (delete q (blocks h))) Hnd) as (h' & -> & Hb).
  { intros p Hp. cbn [blocks]. rewrite lookup_delete_ne by (by intros ->). apply Hin. by right. }
  exists h'. split; [done|]. intros p. rewrite Hb. cbn [blocks]. destruct (decide (p = q)) as [->|Hne].
  - rewrite decide_False, decide_True by (done || by left). apply lookup_delete_eq.
  - rewrite lookup_delete_ne by done. destruct (decide (p ∈ ps)); [by rewrite decide_True by (by right)|].
    rewrite decide_False; [done|]. by intros [?|?]%elem_of_cons.
Qed.

(** The copy of the command line holds its arguments, and freeing it frees every block that was allocated for
    it, once, and no other. *)
Lemma args_copied_and_freed (argv : list (list ascii)) (h : heap) :
  fresh_heap h ->
  let '(copy, ps, h1) := copy_args argv h in
  length ps = length argv /\ (forall i s, argv !! i = Some s -> exists p, ps !! i = Some p /\ blocks h1 !! p = Some s)
  /\ exists h2, free_args copy ps h1 = Ok h2 /\ blocks h2 = blocks h.
Proof.
  intros Hf. unfold copy_args. cbn [malloc]. set (h0 := MkHeap (S (next_block h)) (<[next_block h := []]> (blocks h))).
  pose proof (strdups_blocks argv h0) as Hs. destruct (strdups argv h0) as [ps h1]. destruct Hs as (-> & Hn & Hb).
  cbn [next_block h0] in *. split; [apply length_seq|]. split.
  - intros i s Hi. pose proof (lookup_lt_Some _ _ _ Hi). exists (S (next_block h) + i)%nat.
    split; [apply lookup_seq; lia|]. rewrite Hb, decide_True by lia. by replace (_ - _)%nat with i by lia.
  - destruct (free_each_blocks (seq (S (next_block h)) (length argv)) h1) as (h2 & Hfree & Hb2); [apply NoDup_seq| |].
    { intros p Hp%elem_of_seq. rewrite Hb, decide_True by lia. apply lookup_lt_is_Some_2. lia. }
    unfold free_args. rewrite Hfree. cbn [res_bind]. unfold free. rewrite Hb2, decide_False by (rewrite elem_of_seq; lia).
    rewrite Hb, decide_False by lia. cbn [blocks h0]. rewrite lookup_insert_eq. eexists. split; [reflexivity|].
    apply map_eq. intros p. cbn [blocks]. destruct (decide (p = next_block h)) as [->|Hne].
    + rewrite lookup_delete_eq, Hf; done.
    + rewrite lookup_delete_ne, Hb2, Hb by done. cbn [blocks h0]. rewrite lookup_insert_ne by done.
      destruct (decide (p ∈ _)) as [Hp|Hp]; rewrite elem_of_seq in Hp.
      * symmetry. apply Hf. lia.
      * by rewrite decide_False by lia.
Qed.

(** The process replaces itself at most once: what it is replaced by has the variable and goes on. *)
Lemma replaced_once (dir dir' : string) (r x r' x' : bool) (env env' : gmap string string) :
  ld_environment dir r x env = Replaced env' -> ld_environment dir' r' x' env' = Continues env'.
Proof.
  unfold ld_environment. destruct (env !! _); [done|]. destruct r; [|done]. destruct x; [|done]. cbn [negb].
  intros [= <-]. by rewrite lookup_insert_eq.
Qed.

(** A process that is not replaced goes on with the configuration of its flags, and its memory is as before. *)
Lemma start_core_heap argv f r x env h :
  fresh_heap h ->
  match ld_environment (FLAGS_rules_directory f) r x env with
  | Replaced _ => start_core argv f r x env h = Ok None
  | Continues _ => exists h', start_core argv f r x env h = Ok (Some (create_config f, h')) /\ blocks h' = blocks h
  end.
Proof.
  intros Hf. pose proof (args_copied_and_freed argv h Hf) as Ha. unfold start_core.
  destruct (copy_args argv h) as [[copy ps] h1]. destruct Ha as (_ & _ & h2 & Hfree & Hb).
  cbn [rules_directory create_config]. destruct (ld_environment _ r x env); [|done].
  exists h2. by rewrite Hfree.
Qed.

(** ** Waiting for threads *)

Section waiting.
Import worker_threads.

(** The threads that were joined have ended. *)
Definition joined (w : t) : Prop :=
  match waiting w with
  | Polling _ => True
  | Joining i => Forall (fun b => b = true) (take i (finished_threads_ w))
  | Returned => Forall (fun b => b = true) (finished_threads_ w)
  end.

Lemma insert_true i (l : list bool) : Forall (fun b => b = true) l -> Forall (fun b => b = true) (<[i := true]> l).
Proof. intros Hl. by apply Forall_insert. Qed.

Lemma step_joined o w w' : joined w -> step o w = Some w' -> joined w'.
Proof.
  unfold joined. destruct w as [fin ph]. destruct o as [i|]; cbn.
  - intros Hj [= <-]. cbn. destruct ph as [|j|]; [done| |by apply insert_true].
    destruct (decide (i < j)%nat).
    + rewrite take_insert_lt by done. by apply insert_true.
    + by rewrite take_insert_ge by lia.
  - intros Hj. unfold stop_turn. cbn. destruct ph as [[|n]|j|].
    + intros [= <-]. constructor.
    + destruct (_ =? _)%nat; intros [= <-]; [constructor|done].
    + destruct (fin !! j) as [[]|] eqn:Hf; [|done|]; intros [= <-]; cbn.
      * rewrite (take_S_r _ _ _ Hf). apply Forall_app; auto.
      * rewrite take_ge in Hj; [done|]. by apply lookup_ge_None_1.
    + by intros [= <-].
Qed.

(** [stop] returns only when every thread has ended, whatever the order of the steps. *)
Lemma stop_waits threads os w :
  run os (new threads) = Some w -> waiting w = Returned -> Forall (fun b => b = true) (finished_threads_ w).
Proof.
  intros Hrun Hret. assert (joined w) as Hj; [|unfold joined in Hj; by rewrite Hret in Hj].
  assert (joined (new threads)) as Hnew by done. revert Hrun Hnew. generalize (new threads).
  induction os as [|o os IH]; cbn [run]; intros w0; [by intros [= ->]|].
  destruct (step o w0) as [w1|] eqn:Hs; [|done]. cbn. intros Hrun Hj. apply (IH w1 Hrun). by eapply step_joined.
Qed.

(** The 50 attempts do not bound the waiting: a thread that does not end is joined. *)
Example stop_blocks :
  exists w, run (replicate 51 Turn) (new 1) = Some w /\ waiting w = Joining 0 /\ step Turn w = None.
Proof. eexists. split; [vm_compute; reflexivity|]. done. Qed.
End waiting.

(** ** Stopping the services *)

Section stopping.
Import executor_thread_pool.
Context {B : Type} `{CircularBuffer B}.
Variable msg_ok : list Z.
Variable parse_msg : list Z -> option (bool * list Event).

(** A thread that runs a task has not ended. *)
Definition parked (ex : t (list Z)) : Prop :=
  forall i f, running ex !! i = Some (Some f) -> finished_threads_ ex !! i = Some false.
Definition all_ended (ex : t (list Z)) : Prop := Forall (fun b => b = true) (finished_threads_ ex).

Lemma parked_ended ex i f : parked ex -> all_ended ex -> running ex !! i <> Some (Some f).
Proof. intros Hp Ha Hr. specialize (Hp i f Hr). pose proof (Forall_lookup_1 _ _ _ _ Ha Hp). done. Qed.

Lemma income_keeps msgs : forall ex ex', income_tcp_events msgs ex = Some ex' ->
  running ex' = running ex /\ finished_threads_ ex' = finished_threads_ ex.
Proof.
  induction msgs as [|m msgs IH]; cbn [income_tcp_events]; intros ex ex'; [by intros [= ->]|].
  unfold add_task. destruct (tasks_ ex !! _) as [q|]; [|done]. cbn. destruct (_ <=? _); [done|]. cbn.
  intros Hi. by destruct (IH _ _ Hi).
Qed.

Lemma take_parked i ex ex' : take_task i ex = Some ex' -> parked ex -> parked ex'.
Proof.
  unfold take_task, parked. destruct (finished_threads_ ex !! i) as [[]|] eqn:Hf; [done| |done].
  destruct (running ex !! i) as [[]|] eqn:Hr; [done| |done].
  destruct (tasks_ ex !! i) as [[|[f|] q]|]; [done| | |done]; intros [= <-] Hp j g; cbn.
  - destruct (decide (j = i)) as [->|]; [done|]. rewrite list_lookup_insert_ne by done. apply Hp.
  - intros Hj. destruct (decide (j = i)) as [->|]; [congruence|]. rewrite list_lookup_insert_ne by done. by eapply Hp.
Qed.

Lemma take_ended i ex ex' : take_task i ex = Some ex' -> all_ended ex -> all_ended ex'.
Proof.
  unfold take_task, all_ended. intros Ht Ha. destruct (finished_threads_ ex !! i) as [[]|] eqn:Hf; [done| |done].
  by pose proof (Forall_lookup_1 _ _ _ _ Ha Hf).
Qed.

Lemma end_parked i ex ex' : end_task i ex = Some ex' -> parked ex ->
  parked ex' /\ finished_threads_ ex' = finished_threads_ ex.
Proof.
  unfold end_task, parked. destruct (running ex !! i) as [[f|]|] eqn:Hr; [|done|done].
  destruct (executed ex !! i); [|done]. intros [= <-] Hp. split; [|done]. cbn. intros j g.
  destruct (decide (j = i)) as [->|].
  - rewrite list_lookup_insert_eq by (by eapply lookup_lt_Some). done.
  - rewrite list_lookup_insert_ne by done. apply Hp.
Qed.

Lemma udp_keeps now msgs : forall (c c' : core B), income_udp_events parse_msg now msgs c = Some c' ->
  executor_pool_ c' = executor_pool_ c /\ tcp_handled (handled c') = tcp_handled (handled c).
Proof.
  induction msgs as [|m msgs IH]; cbn [income_udp_events]; intros c c'; [by intros [= ->]|].
  unfold dispatch. destruct (incoming_event _ _ _ _) as [[s ?] [[]|]]; [|done]. cbn. intros Hi.
  destruct (IH _ _ Hi) as [-> ->]. split; [done|]. cbn. unfold tcp_handled. rewrite omap_app. cbn. apply app_nil_r.
Qed.

(** What a step of the core keeps; if the threads of the executor have ended, no message of a TCP client is handled. *)
Lemma core_step_ended o (c c' : core B) :
  Core.step msg_ok parse_msg o c = Some c' -> parked (executor_pool_ c) ->
  parked (executor_pool_ c')
  /\ (all_ended (executor_pool_ c) ->
        all_ended (executor_pool_ c') /\ tcp_handled (handled c') = tcp_handled (handled c)).
Proof.
  destruct o as [o|i|i now|error recvfrom now]; cbn [Core.step]; intros Hs Hp.
  - destruct (riemann_tcp_pool.step _ _ _) as [[p out]|]; [|done].
    destruct (income_tcp_events _ _) as [ex|] eqn:Hi; [|done]. revert Hs. intros [= <-]. cbn.
    destruct (income_keeps _ _ _ Hi) as [Hr Hf]. unfold parked, all_ended. rewrite Hr, Hf. done.
  - destruct (take_task _ _) as [ex|] eqn:Ht; [|done]. revert Hs. intros [= <-]. cbn.
    split; [by eapply take_parked|]. intros Ha. split; [by eapply take_ended|done].
  - destruct (running _ !! i) as [[raw|]|] eqn:Hr; [|done|done]. destruct (end_task _ _) as [ex|] eqn:He; [|done].
    destruct (end_parked _ _ _ He Hp) as [Hp' Hf]. revert Hs. cbn. unfold dispatch.
    destruct (incoming_event _ _ _ _) as [[s ?] [[]|]]; [|done]. intros [= <-]. cbn. split; [done|].
    intros Ha. exfalso. exact (parked_ended _ _ _ Hp Ha Hr).
  - destruct (udp_pool.socket_callback _ _) as [msgs|]; [|done]. destruct (udp_keeps _ _ _ _ Hs) as [-> ->]. done.
Qed.

Definition stopping_inv (p : process B) : Prop :=
  parked (executor_pool_ (the_core p)) /\ stopped p `prefix_of` stop_order
  /\ (Executor ∈ stopped p -> all_ended (executor_pool_ (the_core p))).

Lemma stop_next_inv (p p' : process B) :
  stop_next p = Some p' -> stopping_inv p -> stopping_inv p' /\ handled (the_core p') = handled (the_core p).
Proof.
  unfold stop_next. destruct (main_left p); [|done]. cbn [negb]. intros Hs (Hp & [r Hr] & Ha).
  revert Hs. rewrite Hr, drop_app_length. destruct r as [|s r]; [done|].
  assert (stopped p ++ [s] `prefix_of` stop_order) as Hpre by (exists r; rewrite Hr, <- app_assoc; done).
  destruct (decide (s = Executor)) as [->|Hne].
  - destruct (joining p).
    + destruct (bool_decide _) eqn:Hb; [|done]. apply bool_decide_eq_true in Hb. intros [= <-]. unfold stopping_inv. done.
    + intros [= <-]. unfold stopping_inv. cbn. split_and!; try done. by exists (Executor :: r).
  - assert (Some (MkProcess (the_core p) true (joining p) (stopped p ++ [s])) = Some p' ->
            stopping_inv p' /\ handled (the_core p') = handled (the_core p)) as Hgo.
    { intros [= <-]. unfold stopping_inv. cbn. split_and!; try done. intros [?|?%list_elem_of_singleton]%elem_of_app; [auto|congruence]. }
    by destruct s.
Qed.

Lemma process_step_inv o (p p' : process B) :
  process_step msg_ok parse_msg o p = Some p' -> stopping_inv p ->
  stopping_inv p' /\ (Executor ∈ stopped p -> Executor ∈ stopped p'
                       /\ tcp_handled (handled (the_core p')) = tcp_handled (handled (the_core p))).
Proof.
  destruct o as [o| |]; cbn [process_step]; intros Hs Hi.
  - destruct (enabled o p); [|done]. destruct (Core.step _ _ _ _) as [c|] eqn:Hc; [|done]. revert Hs. intros [= <-].
    destruct Hi as (Hp & Hpre & Ha). destruct (core_step_ended _ _ _ Hc Hp) as [Hp' Ha']. unfold stopping_inv. cbn.
    split; [split_and!; [done|done|]|]; intros Hex; by destruct (Ha' (Ha Hex)).
  - revert Hs. intros [= <-]. done.
  - destruct (stop_next_inv _ _ Hs Hi) as [Hi' ->]. split; [done|]. intros Hex. split; [|done].
    revert Hs. unfold stop_next. destruct (negb _); [done|]. destruct (drop _ _) as [|[] ?]; try done; [..|];
      repeat case_match; intros [= <-]; cbn; try apply elem_of_app; auto.
Qed.

Lemma process_run_inv os : forall p p' : process B,
  process_run msg_ok parse_msg os p = Some p' -> stopping_inv p ->
  stopping_inv p' /\ (Executor ∈ stopped p -> tcp_handled (handled (the_core p')) = tcp_handled (handled (the_core p))).
Proof.
  induction os as [|o os IH]; cbn [process_run]; intros p p'; [by intros [= ->]|].
  destruct (process_step _ _ _ _) as [p1|] eqn:Hs; [|done]. cbn. intros Hrun Hi.
  destruct (process_step_inv _ _ _ Hs Hi) as [Hi1 Hk]. destruct (IH _ _ Hrun Hi1) as [Hi' Hk'].
  split; [done|]. intros Hex. destruct (Hk Hex) as [Hex1 <-]. auto.
Qed.

Lemma process_new_inv n m s : stopping_inv (process_new n m s).
Proof.
  split_and!; [|by exists stop_order|].
  2:{ intros Hx. by apply elem_of_nil in Hx. }
  intros i f. cbn. intros Hr%lookup_replicate. by destruct Hr.
Qed.

(** C23. The services are stopped in the order in which [start] names them, and as soon as the executor is stopped,
    no message of a TCP client reaches the rules, whatever the servers, which are stopped after it, still take in. *)
Theorem late_messages_lost (n m : nat) (s : streams) (os os' : list process_op) (p p' : process B) :
  process_run msg_ok parse_msg os (process_new n m s) = Some p ->
  Executor ∈ stopped p ->
  process_run msg_ok parse_msg os' p = Some p' ->
  stopped p' `prefix_of` stop_order
  /\ tcp_handled (handled (the_core p')) = tcp_handled (handled (the_core p)).
Proof.
  intros Hrun Hex Hrun'. destruct (process_run_inv _ _ _ Hrun (process_new_inv n m s)) as [Hi _].
  destruct (process_run_inv _ _ _ Hrun' Hi) as [(_ & Hpre & _) Hk]. auto.
Qed.
End stopping.

Definition stop_executor : list process_op :=
  [ CoreStep (TcpServer (riemann_tcp_pool.AddClient 7)); CoreStep (TcpServer (riemann_tcp_pool.Async 0));
    LeaveMainLoop; StopNext; StopNext; CoreStep (TakeTask 0); StopNext ].
Definition late_message : list process_op :=
  [ CoreStep (TcpServer (riemann_tcp_pool.Ready 0 7 (sample_ready [0; 0; 0; 2; 10; 1]))) ].

(** A message that a client sends when the executor has been stopped is acknowledged, and lost. *)
Lemma late_messages_lost_witness :
  exists p p' : process ring,
    process_run [16; 1] sample_parse stop_executor (process_new 1 1 streams_new) = Some p
    /\ process_run [16; 1] sample_parse late_message p = Some p'
    /\ all_messages (outs (the_core p')) = [[10; 1]]
    /\ stopped p' `prefix_of` stop_order
    /\ tcp_handled (handled (the_core p')) = tcp_handled (handled (the_core p)).
Proof.
  destruct (process_run (B := ring) [16; 1] sample_parse stop_executor (process_new 1 1 streams_new)) as [p|] eqn:Hrun;
    [|exfalso; vm_compute in Hrun; discriminate].
  destruct (process_run (B := ring) [16; 1] sample_parse late_message p) as [p'|] eqn:Hrun';
    [|exfalso; vm_compute in Hrun; injection Hrun as <-; vm_compute in Hrun'; discriminate].
  exists p, p'. split; [done|]. split; [done|]. split.
  - vm_compute in Hrun. injection Hrun as <-. vm_compute in Hrun'. by injection Hrun' as <-.
  - eapply (late_messages_lost (B := ring) [16; 1] sample_parse 1 1 streams_new stop_executor late_message p p'); try done.
    vm_compute in Hrun. injection Hrun as <-. right. by left.
Defined.
