(* ===== verification/WsPool.v ===== *)
(** * The websocket pool

    [src/websocket/websocket_pool.cpp] and [src/websocket/worker_pool.cpp]: clients connect,
    ask for a query in the URI of their handshake, get the events of the index that match,
    and from then on those that are published.  A published event goes through a queue
    to the worker threads, which try the filters of all clients, and from there through
    the queue of a loop to the queue of a client.

    The loops and the workers are threads; every operation below is what one of them does
    between two points where it waits.  A worker uses a copy of the filters, which it
    renews from time to time. *)

From S2P Require Import Prelude Ieee Containers Events Codec Tcp WebSocket Query Flex.

Local Open Scope Z_scope.

Definition k_max_ws_queue_size : Z := 200000.
Definition k_worker_threads : nat := 4.

(** What a filter needs: the descriptor, the function of the query, which may be
    empty, and the token of the connection. *)
Record filter_t : Type := MkFilter {
  f_fd : Z;
  f_query : option query_node;
  f_token : Z
}.

(** [event_t] of the pool. *)
Record ws_event : Type := MkWsEvent { e_event : Event; e_fd : Z; e_token : Z }.

(** What can be observed of a loop: a client has got its query, an event was put into
    the queue of a client. *)
Inductive ws_out : Type :=
| Subscribed (fd token : Z) (q : query_node)
| Delivered (fd token : Z) (e : Event).

(** ** [worker_pool] *)

Module worker_pool.
Section worker_pool.
Variable regex_match : string -> string -> result bool.
Variable stod : list ascii -> result double.

(** In the queue [None] tells a worker to end; a worker is its copy of the filters, and
    [None] when it has ended. *)
Record t : Type := Mk {
  stop_ : bool;
  has_clients_ : bool;
  filters_ : gmap nat (list filter_t);
  event_queue_ : list (option Event);
  workers : list (option (gmap nat (list filter_t)))
}.

Definition new : t := Mk false false ∅ [] (replicate k_worker_threads (Some ∅)).

Definition add_event (e : Event) (w : t) : t :=
  if stop_ w || negb (has_clients_ w) then w
  else if k_max_ws_queue_size <=? Z.of_nat (length (event_queue_ w)) then w
  else Mk (stop_ w) (has_clients_ w) (filters_ w) (event_queue_ w ++ [Some e]) (workers w).

Definition update_filters (id : nat) (filters : list filter_t) (w : t) : t :=
  let fs := <[id := filters]> (filters_ w) in
  Mk (stop_ w) (existsb (fun kv => negb (bool_decide (kv.2 = []))) (map_to_list fs)) fs
    (event_queue_ w) (workers w).

Definition stop (w : t) : t :=
  Mk true (has_clients_ w) (filters_ w) (replicate k_worker_threads None) (workers w).

(** The function that [websocket_pool::update_filters] makes for a client: an empty
    function throws, and an event that matches is pushed if there is room. *)
Definition run_filter (e : Event) (f : filter_t) (q : list ws_event) : result (list ws_event) :=
  match f_query f with
  | None => Throw bad_function_call
  | Some query =>
      res_map (fun ok : bool =>
          if ok && (Z.of_nat (length q) <? k_max_ws_queue_size)
          then q ++ [MkWsEvent e (f_fd f) (f_token f)] else q)
        (evaluate regex_match stod query e)
  end.

Fixpoint run_filters (e : Event) (fs : list filter_t) (q : list ws_event) : result (list ws_event) :=
  match fs with
  | [] => Ok q
  | f :: fs' => res_bind (run_filters e fs') (run_filter e f q)
  end.

(** The filters of all loops, on the queues of the loops. *)
Fixpoint run_loops (e : Event) (fs : list (nat * list filter_t)) (qs : list (list ws_event))
  : result (list (list ws_event)) :=
  match fs with
  | [] => Ok qs
  | (i, fs_i) :: fs' =>
      match qs !! i with
      | None => Throw undefined_behaviour
      | Some q => res_bind (fun q => run_loops e fs' (<[i := q]> qs)) (run_filters e fs_i q)
      end
  end.

(** A turn of the loop of [process_events] in worker [k]; [renew]: the copy of the filters
    is older than two seconds.  An exception that leaves it ends the process. *)
Definition process_event (k : nat) (renew : bool) (w : t) (qs : list (list ws_event))
  : result (t * list (list ws_event)) :=
  match workers w !! k, event_queue_ w with
  | Some (Some fns), None :: queue =>
      Ok (Mk (stop_ w) (has_clients_ w) (filters_ w) queue (<[k := None]> (workers w)), qs)
  | Some (Some fns), Some e :: queue =>
      res_map (fun qs =>
          (Mk (stop_ w) (has_clients_ w) (filters_ w) queue
             (<[k := Some (if renew then filters_ w else fns)]> (workers w)), qs))
        (run_loops e (map_to_list fns) qs)
  | _, _ => Ok (w, qs)
  end.
End worker_pool.
End worker_pool.

(** ** [websocket_pool] *)

Module websocket_pool.
Section pool.
Context {B : Type} `{CircularBuffer B}.
Variable split_spaces : list ascii -> list (list ascii).
Variable sha1 : list ascii -> list Z.
Variable uri_unescape : string -> string.
Variable regex_match : string -> string -> result bool.
Variable stod : list ascii -> result double.
Variable toStyledString : gmap string jvalue -> string.

(** With the mode of its descriptor in the loop. *)
Record fd_ctx_t : Type := MkCtx {
  ws_cnx : ws_connection.state B;
  query_fn : option query_node;
  queue : list string;
  token : Z;
  mode : fd_mode
}.

(** [next_token_] is the global [token], an [std::atomic<int>]; [fetched_] are the loops that have
    done their [fetch_add] and have not read it yet. *)
Record t : Type := Mk {
  fd_ctxes_ : list (gmap Z fd_ctx_t);
  event_queues_ : list (list ws_event);
  next_token_ : Z;
  fetched_ : gset nat;
  worker_pool_ : worker_pool.t
}.

Definition new (thread_num : nat) : t :=
  Mk (replicate thread_num ∅) (replicate thread_num []) 0 ∅ worker_pool.new.

(** The query of a URI; [None] is the empty function. *)
Definition filter_query (uri : string) : result (option query_node) :=
  match parse_uri uri_unescape uri "" ∅ with
  | Throw x => Throw x
  | Ok (false, _, _) => Ok None
  | Ok (true, _, params) => parse_string (chars (default "" (params !! "query")))
  end.

Definition on_new_cnx (fd : Z) (cnx : tcp_connection.t B) (ctxes : gmap Z fd_ctx_t) (token : Z)
  : gmap Z fd_ctx_t :=
  match ctxes !! fd with
  | Some _ => ctxes
  | None => <[fd := MkCtx (ws_connection.new_state cnx) None [] token mode_read]> ctxes
  end.

(** [next_token]: [fetch_add] on an [int], and its value as a [size_t], in two steps. *)
Definition fetch_add (tok : Z) : Z := (tok + 1 + 2 ^ 31) mod two32 - 2 ^ 31.
Definition fetch_token (i : nat) (p : t) : t :=
  if bool_decide (i ∈ fetched_ p) then p
  else Mk (fd_ctxes_ p) (event_queues_ p) (fetch_add (next_token_ p)) ({[i]} ∪ fetched_ p)
         (worker_pool_ p).
Definition next_token (i : nat) (p : t) : Z * t :=
  let p := fetch_token i p in
  (next_token_ p mod two64,
   Mk (fd_ctxes_ p) (event_queues_ p) (next_token_ p) (fetched_ p ∖ {[i]}) (worker_pool_ p)).

(** The text of an event as bytes. *)
Definition payload (s : string) : list Z := byte_of <$> chars s.

(** [flush_fd_queue]: frames until the write buffer is full. *)
Fixpoint flush_queue (q : list string) (c : ws_connection.state B)
  : list string * ws_connection.state B * bool :=
  match q with
  | [] => ([], c, true)
  | s :: q' =>
      match ws_connection.send_frame (payload s) c with
      | (c, true) => flush_queue q' c
      | (c, false) => (q, c, false)
      end
  end.
Definition flush_fd_queue (x : fd_ctx_t) : fd_ctx_t * bool :=
  let '(q, c, ok) := flush_queue (queue x) (ws_cnx x) in
  (MkCtx c (query_fn x) q (token x) (if bool_decide (q = queue x) then mode x else mode_readwrite), ok).

Definition conn_to_mode (c : tcp_connection.t B) : fd_mode :=
  if tcp_connection.pending_read c && tcp_connection.pending_write c then mode_readwrite
  else if tcp_connection.pending_read c then mode_read
  else if tcp_connection.pending_write c then mode_write
  else mode_none.

Definition pending_ws_init (x : fd_ctx_t) : bool :=
  bool_decide (query_fn x = None)
  && negb (Z.lor (ws_connection.state_ (ws_cnx x)) ws_connection.k_read_frame_header =? 0).

(** [index_.query_index(query_fn, max)] on the events of the index, in the order in which
    it is walked. *)
Fixpoint query_index (q : query_node) (max : Z) (indexed : list Event) : result (list Event) :=
  match indexed with
  | [] => Ok []
  | e :: indexed' =>
      match evaluate regex_match stod q e with
      | Throw x => Throw x
      | Ok false => query_index q max indexed'
      | Ok true => if max =? 1 then Ok [e] else res_map (cons e) (query_index q (max - 1) indexed')
      end
  end.

(** [handle_ws_init]: the context with its query, or nothing if there is none. *)
Definition handle_ws_init (indexed : list Event) (fd : Z) (x : fd_ctx_t)
  : result (option (fd_ctx_t * list ws_out)) :=
  match filter_query (String.string_of_list_ascii
          (ws_util.uri (ws_connection.header_vals (ws_cnx x)))) with
  | Throw x => Throw x
  | Ok None => Ok None
  | Ok (Some q) =>
      res_map (fun events =>
          let x := MkCtx (ws_cnx x) (Some q)
                     (queue x ++ (json_str toStyledString <$> events)) (token x) (mode x) in
          Some (if bool_decide (queue x = []) then x else (flush_fd_queue x).1,
                Subscribed fd (token x) q :: (Delivered fd (token x) <$> events)))
        (query_index q k_max_ws_queue_size indexed)
  end.

Definition filters_of (ctxes : gmap Z fd_ctx_t) : list filter_t :=
  (fun kv => MkFilter kv.1 (query_fn kv.2) (token kv.2)) <$> map_to_list ctxes.

Definition update_filters (i : nat) (ctxes : gmap Z fd_ctx_t) (p : t) : t :=
  Mk (<[i := ctxes]> (fd_ctxes_ p)) (event_queues_ p) (next_token_ p) (fetched_ p)
    (worker_pool.update_filters i (filters_of ctxes) (worker_pool_ p)).

Definition set_ctxes (i : nat) (ctxes : gmap Z fd_ctx_t) (p : t) : t :=
  Mk (<[i := ctxes]> (fd_ctxes_ p)) (event_queues_ p) (next_token_ p) (fetched_ p) (worker_pool_ p).

(** [on_fd_ready]: [rd] and [wr] as in [ws_connection], [indexed] the events of the index. *)
Definition on_fd_ready (i : nat) (fd : Z) (rd : option (option (list Z)))
    (wr : option (option nat)) (indexed : list Event) (p : t) : result (t * list ws_out) :=
  match fd_ctxes_ p !! i with
  | None => Throw undefined_behaviour
  | Some ctxes =>
      match ctxes !! fd with
      | None => Throw (user_exception "CHECK")
      | Some x =>
          match ws_connection.callback split_spaces sha1 rd wr (ws_cnx x) with
          | Throw e => Throw e
          | Ok c =>
              let x := MkCtx c (query_fn x) (queue x) (token x)
                         (conn_to_mode (ws_connection.tcp_connection_ c)) in
              if tcp_connection.close_connection (ws_connection.tcp_connection_ c) then
                Ok (update_filters i (delete fd ctxes) p, [])
              else if pending_ws_init x then
                res_map (fun r =>
                    match r with
                    | Some (x, out) => (update_filters i (<[fd := x]> ctxes) p, out)
                    | None => (set_ctxes i (delete fd ctxes) p, [])
                    end)
                  (handle_ws_init indexed fd x)
              else Ok (set_ctxes i (<[fd := x]> ctxes) p, [])
          end
      end
  end.

(** The loop of [on_async_signal]: the contexts, the events left in the queue.  An event for a
    connection that is gone, or whose descriptor has another connection now, is dropped. *)
Fixpoint drain (available_fds : gset Z) (evs : list ws_event) (ctxes : gmap Z fd_ctx_t)
  : gmap Z fd_ctx_t * list ws_event * list ws_out :=
  match evs with
  | [] => (ctxes, [], [])
  | ev :: evs' =>
      match ctxes !! e_fd ev with
      | None => drain available_fds evs' ctxes
      | Some x =>
          if negb (token x =? e_token ev) then drain available_fds evs' ctxes
          else if k_max_ws_queue_size <? Z.of_nat (length (queue x))
          then drain available_fds evs' ctxes
          else
            let x := MkCtx (ws_cnx x) (query_fn x)
                       (queue x ++ [json_str toStyledString (e_event ev)]) (token x) (mode x) in
            let '(x, ok) := flush_fd_queue x in
            let ctxes := <[e_fd ev := x]> ctxes in
            let out := Delivered (e_fd ev) (e_token ev) (e_event ev) in
            let available_fds := if ok then available_fds else available_fds ∖ {[e_fd ev]} in
            if negb ok && bool_decide (available_fds = ∅) then (ctxes, evs', [out])
            else
              let '(ctxes, evs', outs) := drain available_fds evs' ctxes in
              (ctxes, evs', out :: outs)
      end
  end.

Definition on_async_signal (i : nat) (p : t) : result (t * list ws_out) :=
  match fd_ctxes_ p !! i, event_queues_ p !! i with
  | Some ctxes, Some evs =>
      let '(ctxes, evs, outs) := drain (dom ctxes) evs ctxes in
      Ok (Mk (<[i := ctxes]> (fd_ctxes_ p)) (<[i := evs]> (event_queues_ p)) (next_token_ p)
            (fetched_ p) (worker_pool_ p), outs)
  | _, _ => Throw undefined_behaviour
  end.

(** What happens to the pool: a client connects to a loop (which may have done the first half of
    [next_token] some time before), its descriptor is ready, a loop is
    signalled, an event is published, a worker takes an event, the pool stops. *)
Inductive ws_pool_op : Type :=
| FetchToken (i : nat)
| NewCnx (i : nat) (fd : Z)
| FdReady (i : nat) (fd : Z) (rd : option (option (list Z))) (wr : option (option nat))
    (indexed : list Event)
| AsyncSignal (i : nat)
| Publish (e : Event)
| Work (k : nat) (renew : bool)
| Stop.

(** The outputs carry their loop. *)
Definition step (o : ws_pool_op) (p : t) : result (t * list (nat * ws_out)) :=
  match o with
  | FetchToken i => Ok (fetch_token i p, [])
  | NewCnx i fd =>
      match fd_ctxes_ p !! i with
      | None => Throw undefined_behaviour
      | Some ctxes =>
          let '(token, p) := next_token i p in
          Ok (set_ctxes i (on_new_cnx fd tcp_connection.new ctxes token) p, [])
      end
  | FdReady i fd rd wr indexed =>
      res_map (fun '(p, out) => (p, pair i <$> out)) (on_fd_ready i fd rd wr indexed p)
  | AsyncSignal i => res_map (fun '(p, out) => (p, pair i <$> out)) (on_async_signal i p)
  | Publish e =>
      Ok (Mk (fd_ctxes_ p) (event_queues_ p) (next_token_ p) (fetched_ p)
            (worker_pool.add_event e (worker_pool_ p)), [])
  | Work k renew =>
      res_map (fun '(w, qs) => (Mk (fd_ctxes_ p) qs (next_token_ p) (fetched_ p) w, []))
        (worker_pool.process_event regex_match stod k renew (worker_pool_ p) (event_queues_ p))
  | Stop =>
      Ok (Mk (fd_ctxes_ p) (event_queues_ p) (next_token_ p) (fetched_ p)
            (worker_pool.stop (worker_pool_ p)), [])
  end.

Fixpoint run (ops : list ws_pool_op) (p : t) : result (t * list (nat * ws_out)) :=
  match ops with
  | [] => Ok (p, [])
  | o :: ops' =>
      match step o p with
      | Throw x => Throw x
      | Ok (p, out) => res_map (fun '(p, out') => (p, out ++ out')) (run ops' p)
      end
  end.
End pool.
Arguments t : clear implicits.
Arguments fd_ctx_t : clear implicits.
End websocket_pool.

(** ** Clients get what they asked for *)

Section matches.
Import websocket_pool.
Context {B : Type} `{CircularBuffer B}.
Variable split_spaces : list ascii -> list (list ascii).
Variable sha1 : list ascii -> list Z.
Variable uri_unescape : string -> string.
Variable regex_match : string -> string -> result bool.
Variable stod : list ascii -> result double.
Variable toStyledString : gmap string jvalue -> string.

Abbreviation history := (list (nat * ws_out)).
Abbreviation step := (websocket_pool.step (B := B) split_spaces sha1 uri_unescape regex_match stod toStyledString).
Abbreviation run := (websocket_pool.run (B := B) split_spaces sha1 uri_unescape regex_match stod toStyledString).

(** Who a connection is: its query and its token. *)
Definition ident (x : fd_ctx_t B) : option query_node * Z := (query_fn x, token x).
Definition ids (p : websocket_pool.t B) (i : nat) (fd : Z) : option (option query_node * Z) :=
  ctxes ← fd_ctxes_ p !! i; ident <$> ctxes !! fd.

Definition subscribed (h : history) (i : nat) (fd tok : Z) (q : query_node) : Prop :=
  (i, Subscribed fd tok q) ∈ h.

(** The connection [tok] on the descriptor [fd] has a query that [e] satisfies. *)
Definition matched (h : history) (i : nat) (fd tok : Z) (e : Event) : Prop :=
  exists q, subscribed h i fd tok q /\ evaluate regex_match stod q e = Ok true.

Definition filter_ok (h : history) (i : nat) (f : filter_t) : Prop :=
  forall q, f_query f = Some q -> subscribed h i (f_fd f) (f_token f) q.
Definition filters_ok (h : history) (fs : gmap nat (list filter_t)) : Prop :=
  forall i l, fs !! i = Some l -> Forall (filter_ok h i) l.
Definition queue_ok (h : history) (i : nat) (evs : list ws_event) : Prop :=
  Forall (fun ev => matched h i (e_fd ev) (e_token ev) (e_event ev)) evs.

(** The tokens of a loop are at most this. *)
Definition last_token (p : websocket_pool.t B) (i : nat) : Z :=
  next_token_ p - (if bool_decide (i ∈ fetched_ p) then 1 else 0).

Record pool_inv (p : websocket_pool.t B) (h : history) : Prop := {
  inv_filters : filters_ok h (worker_pool.filters_ (worker_pool_ p));
  inv_workers : forall k fs, worker_pool.workers (worker_pool_ p) !! k = Some (Some fs) -> filters_ok h fs;
  inv_queues : forall i evs, event_queues_ p !! i = Some evs -> queue_ok h i evs;
  inv_delivered : forall i fd tok e, (i, Delivered fd tok e) ∈ h -> matched h i fd tok e;
  inv_ctxes : forall i fd q tok, ids p i fd = Some (Some q, tok) -> subscribed h i fd tok q;
  inv_fresh : forall i fd tok, ids p i fd = Some (None, tok) -> forall fd' q', ~ subscribed h i fd' tok q';
  inv_tokens : forall i fd oq tok, ids p i fd = Some (oq, tok) -> tok <= last_token p i;
  inv_sub_tokens : forall i fd tok q, subscribed h i fd tok q -> tok <= last_token p i;
  inv_distinct : forall i fd oq fd' oq' tok,
    ids p i fd = Some (oq, tok) -> ids p i fd' = Some (oq', tok) -> fd = fd';
  inv_unique : forall i fd q fd' q' tok,
    subscribed h i fd tok q -> subscribed h i fd' tok q' -> fd = fd' /\ q = q'
}.

(** *** What is kept when the history grows *)

Lemma subscribed_mono h h' i fd tok q :
  subscribed h i fd tok q -> subscribed (h ++ h') i fd tok q.
Proof. unfold subscribed. rewrite elem_of_app. auto. Qed.

Lemma matched_mono h h' i fd tok e : matched h i fd tok e -> matched (h ++ h') i fd tok e.
Proof. intros (q & Hs & He). exists q. split; [by apply subscribed_mono|done]. Qed.

Lemma filters_ok_mono h h' fs : filters_ok h fs -> filters_ok (h ++ h') fs.
Proof.
  intros Hf i l Hl. eapply list.Forall_impl; [by apply Hf|]. intros f Hfo q Hq.
  by apply subscribed_mono, Hfo.
Qed.

Lemma queue_ok_mono h h' i evs : queue_ok h i evs -> queue_ok (h ++ h') i evs.
Proof. intros Hq. eapply list.Forall_impl; [done|]. intros ev. apply matched_mono. Qed.

#[local] Hint Resolve subscribed_mono matched_mono filters_ok_mono queue_ok_mono : core.

(** *** The workers *)

Lemma run_filters_ok h i e fs q q' :
  Forall (filter_ok h i) fs -> queue_ok h i q ->
  worker_pool.run_filters regex_match stod e fs q = Ok q' -> queue_ok h i q'.
Proof.
  intros Hfs. revert q. induction Hfs as [|f fs Hf Hfs IH]; intros q Hq;
    cbn [worker_pool.run_filters]; [by intros [= <-]|].
  unfold worker_pool.run_filter. destruct (f_query f) as [query|] eqn:Hfq; [|done].
  destruct (evaluate regex_match stod query e) as [ok|] eqn:He; [|done]. cbn [res_map res_bind].
  apply IH. destruct (ok && _) eqn:Hok; [|done]. apply andb_true_iff in Hok as [-> _].
  apply Forall_app_2; [done|]. constructor; [|constructor].
  exists query. split; [by apply Hf|done].
Qed.

Lemma run_loops_ok h e (fs : list (nat * list filter_t)) qs qs' :
  (forall i l, (i, l) ∈ fs -> Forall (filter_ok h i) l) ->
  (forall i q, qs !! i = Some q -> queue_ok h i q) ->
  worker_pool.run_loops regex_match stod e fs qs = Ok qs' ->
  forall i q, qs' !! i = Some q -> queue_ok h i q.
Proof.
  revert qs. induction fs as [|[j l] fs IH]; intros qs Hfs Hqs; cbn [worker_pool.run_loops];
    [by intros [= <-]|].
  destruct (qs !! j) as [q|] eqn:Hj; [|done].
  destruct (worker_pool.run_filters _ _ e l q) as [q1|] eqn:Hr; [|done]. cbn [res_bind].
  apply IH; [intros i l' Hin; apply Hfs; by right|].
  intros i q2. destruct (decide (i = j)) as [->|Hne].
  - rewrite list_lookup_insert_eq by (by eapply lookup_lt_Some). intros [= <-].
    eapply run_filters_ok; [apply Hfs; by left|by apply Hqs|done].
  - rewrite list_lookup_insert_ne by done. apply Hqs.
Qed.

Lemma process_event_ok h k renew w qs w' qs' :
  filters_ok h (worker_pool.filters_ w) ->
  (forall j fs, worker_pool.workers w !! j = Some (Some fs) -> filters_ok h fs) ->
  (forall i q, qs !! i = Some q -> queue_ok h i q) ->
  worker_pool.process_event regex_match stod k renew w qs = Ok (w', qs') ->
  filters_ok h (worker_pool.filters_ w')
  /\ (forall j fs, worker_pool.workers w' !! j = Some (Some fs) -> filters_ok h fs)
  /\ (forall i q, qs' !! i = Some q -> queue_ok h i q).
Proof.
  intros Hf Hw Hq. unfold worker_pool.process_event.
  destruct (worker_pool.workers w !! k) as [[fns|]|] eqn:Hk; [|by intros [= <- <-]..].
  destruct (worker_pool.event_queue_ w) as [|[e|] queue]; [by intros [= <- <-]| |].
  - destruct (worker_pool.run_loops _ _ e (map_to_list fns) qs) as [qs1|] eqn:Hr; [|done].
    intros [= <- <-]. split; [done|]. split.
    + intros j fs. cbn [worker_pool.workers]. destruct (decide (j = k)) as [->|Hne].
      * rewrite list_lookup_insert_eq by (by eapply lookup_lt_Some). intros [= <-].
        destruct renew; [done|by eapply Hw].
      * rewrite list_lookup_insert_ne by done. apply Hw.
    + eapply run_loops_ok; [|done|done]. intros i l Hin. apply elem_of_map_to_list in Hin.
      by eapply Hw.
  - intros [= <- <-]. split; [done|]. split; [|done]. intros j fs. cbn [worker_pool.workers].
    destruct (decide (j = k)) as [->|Hne].
    + by rewrite list_lookup_insert_eq by (by eapply lookup_lt_Some).
    + rewrite list_lookup_insert_ne by done. apply Hw.
Qed.

(** *** The loops *)

Lemma flush_ident (x : fd_ctx_t B) : ident (flush_fd_queue x).1 = ident x.
Proof. unfold flush_fd_queue. by destruct (flush_queue (queue x) (ws_cnx x)) as [[q c] ok]. Qed.

Lemma drain_spec avail evs (ctxes : gmap Z (fd_ctx_t B)) :
  let '(ctxes', evs', outs) := drain toStyledString avail evs ctxes in
  (forall fd, ident <$> ctxes' !! fd = ident <$> ctxes !! fd)
  /\ (forall ev, ev ∈ evs' -> ev ∈ evs)
  /\ (forall o, o ∈ outs -> exists ev, ev ∈ evs /\ o = Delivered (e_fd ev) (e_token ev) (e_event ev)).
Proof.
  revert avail ctxes. induction evs as [|ev evs IH]; intros avail ctxes; cbn [drain].
  { split; [done|]. split; [done|]. intros o Ho. by apply elem_of_nil in Ho. }
  assert (forall avail ctxes0, (forall fd, ident <$> ctxes0 !! fd = ident <$> ctxes !! fd) ->
    let '(ctxes', evs', outs) := drain toStyledString avail evs ctxes0 in
    (forall fd, ident <$> ctxes' !! fd = ident <$> ctxes !! fd)
    /\ (forall ev0, ev0 ∈ evs' -> ev0 ∈ ev :: evs)
    /\ (forall o, o ∈ outs ->
        exists ev0, ev0 ∈ ev :: evs /\ o = Delivered (e_fd ev0) (e_token ev0) (e_event ev0))) as Hrest.
  { intros avail0 ctxes0 H0. specialize (IH avail0 ctxes0).
    destruct (drain toStyledString avail0 evs ctxes0) as [[c e] o]. destruct IH as (H1 & H2 & H3).
    split; [intros fd; by rewrite H1|]. split; [intros ev0 ?; right; by apply H2|].
    intros o0 Ho0. destruct (H3 o0 Ho0) as (ev0 & ? & ->). exists ev0. by split; [right|]. }
  destruct (ctxes !! e_fd ev) as [x|] eqn:Hx; [|by apply Hrest].
  destruct (negb (token x =? e_token ev)); [by apply Hrest|].
  destruct (k_max_ws_queue_size <? _); [by apply Hrest|].
  set (x1 := MkCtx _ _ _ _ _). pose proof (flush_ident x1) as Hid.
  destruct (flush_fd_queue x1) as [x2 ok]. cbn [fst] in Hid.
  assert (forall fd, ident <$> (<[e_fd ev := x2]> ctxes) !! fd = ident <$> ctxes !! fd) as Hins.
  { intros fd. destruct (decide (fd = e_fd ev)) as [->|Hne];
      [rewrite lookup_insert_eq, Hx; simpl; by rewrite Hid|by rewrite lookup_insert_ne]. }
  destruct (negb ok && _).
  - split; [done|]. split; [by right|]. intros o Ho. apply list_elem_of_singleton in Ho as ->.
    exists ev. by split; [left|].
  - specialize (Hrest (if ok then avail else avail ∖ {[e_fd ev]}) _ Hins).
    destruct (drain toStyledString _ evs _) as [[c e] o]. destruct Hrest as (H1 & H2 & H3).
    split; [done|]. split; [done|]. intros o0 [->|Ho0]%elem_of_cons; [|by apply H3].
    exists ev. by split; [left|].
Qed.

Lemma query_index_matches q max indexed events :
  query_index regex_match stod q max indexed = Ok events ->
  Forall (fun e => evaluate regex_match stod q e = Ok true) events.
Proof.
  revert max events. induction indexed as [|e indexed IH]; intros max events; cbn [query_index].
  { intros [= <-]. constructor. }
  destruct (evaluate regex_match stod q e) as [[]|] eqn:He; [|apply IH|done].
  destruct (max =? 1); [intros [= <-]; by repeat constructor|].
  destruct (query_index _ _ q (max - 1) indexed) as [es|] eqn:Hq; [|done]. intros [= <-].
  constructor; [done|by eapply IH].
Qed.

Lemma handle_ws_init_spec indexed fd (x x' : fd_ctx_t B) out :
  handle_ws_init uri_unescape regex_match stod toStyledString indexed fd x = Ok (Some (x', out)) ->
  exists q es, ident x' = (Some q, token x)
  /\ out = Subscribed fd (token x) q :: (Delivered fd (token x) <$> es)
  /\ Forall (fun e => evaluate regex_match stod q e = Ok true) es.
Proof.
  unfold handle_ws_init. destruct (filter_query _ _) as [[q|]|]; [|done..].
  destruct (query_index _ _ q _ indexed) as [es|] eqn:Hq; [|done]. cbn [res_map].
  intros [= <- <-]. exists q, es. split; [|split; [done|by eapply query_index_matches]].
  case_bool_decide; [done|]. by rewrite flush_ident.
Qed.

Lemma filters_of_ok h i (ctxes : gmap Z (fd_ctx_t B)) :
  (forall fd q tok, ident <$> ctxes !! fd = Some (Some q, tok) -> subscribed h i fd tok q) ->
  Forall (filter_ok h i) (filters_of ctxes).
Proof.
  intros Hc. apply list.Forall_forall. unfold filters_of.
  intros f ([fd x] & -> & Hin)%list_elem_of_fmap q Hq. apply elem_of_map_to_list in Hin.
  cbn [fst snd f_fd f_query f_token] in *. apply Hc. rewrite Hin. simpl. unfold ident. by rewrite Hq.
Qed.

Lemma update_filters_ok h i l w :
  filters_ok h (worker_pool.filters_ w) -> Forall (filter_ok h i) l ->
  filters_ok h (worker_pool.filters_ (worker_pool.update_filters i l w)).
Proof.
  intros Hf Hl j l'. cbn [worker_pool.update_filters worker_pool.filters_].
  rewrite lookup_insert_Some. intros [[<- <-]|[_ Hj]]; [done|by apply Hf].
Qed.

Lemma ids_insert p i (ctxes : gmap Z (fd_ctx_t B)) ctxes' qs next fetched w j fd :
  fd_ctxes_ p !! i = Some ctxes ->
  ids (Mk (<[i := ctxes']> (fd_ctxes_ p)) qs next fetched w) j fd
  = if decide (j = i) then ident <$> ctxes' !! fd else ids p j fd.
Proof.
  intros Hi. unfold ids. cbn [fd_ctxes_]. case_decide as Hj.
  - subst j. by rewrite list_lookup_insert_eq by (by eapply lookup_lt_Some).
  - by rewrite list_lookup_insert_ne.
Qed.

Lemma ids_at p i ctxes fd : fd_ctxes_ p !! i = Some ctxes -> ids p i fd = ident <$> ctxes !! fd.
Proof. intros Hi. unfold ids. by rewrite Hi. Qed.

(** *** The invariant *)

(** Steps after which there are no new connections and no new queries. *)
Lemma pool_inv_less p h p' out :
  pool_inv p h ->
  (forall i fd v, ids p' i fd = Some v -> ids p i fd = Some v) ->
  (forall i, last_token p i <= last_token p' i) ->
  filters_ok h (worker_pool.filters_ (worker_pool_ p')) ->
  (forall k fs, worker_pool.workers (worker_pool_ p') !! k = Some (Some fs) -> filters_ok h fs) ->
  (forall i evs, event_queues_ p' !! i = Some evs -> queue_ok h i evs) ->
  Forall (fun o => match o.2 with
                   | Delivered fd tok e => matched h o.1 fd tok e
                   | Subscribed _ _ _ => False end) out ->
  pool_inv p' (h ++ out).
Proof.
  intros [_ _ _ Hd Hc Hfr Ht Hst Hdi Hu] Hids Hnext Hf Hw Hq Hout.
  rewrite list.Forall_forall in Hout.
  assert (forall i fd tok q, subscribed (h ++ out) i fd tok q -> subscribed h i fd tok q) as Hsub.
  { intros i fd tok q [?|Hin]%elem_of_app; [done|]. by apply Hout in Hin. }
  constructor; eauto.
  - intros i fd tok e [Hin|Hin]%elem_of_app; [eauto|]. apply Hout in Hin. simpl in Hin. eauto.
  - intros i fd tok Hi fd' q' Hs. by eapply Hfr; eauto.
  - intros i fd oq tok Hi. etransitivity; [by eapply Ht, Hids|done].
  - intros i fd tok q Hs. etransitivity; [by eapply Hst, Hsub|done].
Qed.

Lemma new_inv n : pool_inv (websocket_pool.new n) [].
Proof.
  assert (forall i fd v, ids (websocket_pool.new n) i fd = Some v -> False) as Hids.
  { intros i fd v. unfold ids. cbn [websocket_pool.new fd_ctxes_].
    destruct (replicate n ∅ !! i) eqn:Hr; [|done]. apply lookup_replicate in Hr as [-> _].
    simpl. by rewrite lookup_empty. }
  constructor; try (by intros; exfalso; eauto); try (by intros; exfalso; eapply elem_of_nil; eauto).
  - intros i l. cbn. by rewrite lookup_empty.
  - intros k fs. cbn [websocket_pool.new worker_pool_ worker_pool.new worker_pool.workers].
    rewrite lookup_replicate. intros [[= ->] _] i l. by rewrite lookup_empty.
  - intros i evs. cbn [websocket_pool.new event_queues_]. rewrite lookup_replicate.
    intros [-> _]. constructor.
Qed.

(** As long as the [int] does not overflow. *)
Lemma fetch_token_last i p :
  0 <= next_token_ p < 2 ^ 31 - 1 ->
  let p' := fetch_token i p in
  i ∈ fetched_ p' /\ next_token_ p <= next_token_ p' <= next_token_ p + 1 /\ last_token p' i = last_token p i
  /\ (forall j, last_token p j <= last_token p' j).
Proof.
  intros Hn. unfold fetch_token. case_bool_decide as Hi.
  { split; [done|]. split; [lia|]. split; [done|]. intros j. lia. }
  unfold last_token. cbn [fetched_ next_token_].
  assert (fetch_add (next_token_ p) = next_token_ p + 1) as ->.
  { unfold fetch_add, two32. rewrite Z.mod_small; lia. }
  assert (forall j, j ∈ {[i]} ∪ fetched_ p <-> j = i \/ j ∈ fetched_ p) as Hun
    by (intros j; by rewrite elem_of_union, elem_of_singleton).
  split; [apply Hun; auto|]. split; [lia|]. split.
  - rewrite (bool_decide_eq_true_2 (i ∈ {[i]} ∪ fetched_ p)) by (apply Hun; auto).
    rewrite (bool_decide_eq_false_2 (i ∈ fetched_ p)) by done. lia.
  - intros j. destruct (decide (j = i)) as [->|Hne].
    + rewrite (bool_decide_eq_false_2 (i ∈ fetched_ p)) by done. case_bool_decide; lia.
    + rewrite (bool_decide_ext (j ∈ {[i]} ∪ fetched_ p) (j ∈ fetched_ p)) by (rewrite Hun; tauto).
      case_bool_decide; lia.
Qed.

Lemma next_token_last i p :
  0 <= next_token_ p < 2 ^ 31 - 1 ->
  let '(tok, p') := next_token i p in
  next_token_ p <= next_token_ p' <= next_token_ p + 1 /\ last_token p i < tok <= last_token p' i
  /\ (forall j, last_token p j <= last_token p' j).
Proof.
  intros Hn. unfold next_token. destruct (fetch_token_last i p Hn) as (Hin & Hle & Hi & Hj).
  set (p1 := fetch_token i p) in *. rewrite Z.mod_small by (unfold two64; lia).
  cbn [next_token_]. split; [done|]. rewrite <- Hi. unfold last_token in *. cbn [next_token_ fetched_].
  rewrite (bool_decide_eq_true_2 (i ∈ fetched_ p1)) by done.
  assert (forall j, j ∈ fetched_ p1 ∖ {[i]} <-> j ∈ fetched_ p1 /\ j <> i) as Hdiff
    by (intros j; by rewrite elem_of_difference, elem_of_singleton).
  rewrite (bool_decide_eq_false_2 (i ∈ fetched_ p1 ∖ {[i]})) by (rewrite Hdiff; tauto).
  split; [lia|]. intros j. specialize (Hj j). etransitivity; [exact Hj|]. clear Hj Hi.
  case_bool_decide as Hin1; case_bool_decide as Hin2; try lia. apply Hdiff in Hin2. tauto.
Qed.

Lemma fetch_token_same i (p : websocket_pool.t B) :
  fd_ctxes_ (fetch_token i p) = fd_ctxes_ p /\ event_queues_ (fetch_token i p) = event_queues_ p
  /\ worker_pool_ (fetch_token i p) = worker_pool_ p.
Proof. unfold fetch_token. by case_bool_decide. Qed.

Lemma pool_inv_tokens p h p' :
  pool_inv p h -> fd_ctxes_ p' = fd_ctxes_ p -> event_queues_ p' = event_queues_ p ->
  worker_pool_ p' = worker_pool_ p -> (forall i, last_token p i <= last_token p' i) -> pool_inv p' h.
Proof.
  intros Hinv Hc Hq Hw Hl. rewrite <- (app_nil_r h).
  apply (pool_inv_less p); rewrite ?Hq, ?Hw; try apply Hinv; try done.
  intros i fd v. unfold ids. by rewrite Hc.
Qed.

Lemma new_cnx_inv p h i fd p' out :
  pool_inv p h -> 0 <= next_token_ p < 2 ^ 31 - 1 ->
  step (NewCnx i fd) p = Ok (p', out) -> pool_inv p' (h ++ out).
Proof.
  intros Hinv0 Hn. cbn [websocket_pool.step]. pose proof (next_token_last i p Hn) as Hlast.
  destruct (fd_ctxes_ p !! i) as [ctxes|] eqn:Hi; [|done]. unfold next_token in *.
  destruct (fetch_token_same i p) as (Hc0 & Hq0 & Hw0). set (p1 := Mk _ _ _ _ _) in *.
  set (tok := next_token_ (fetch_token i p) mod two64) in *. destruct Hlast as (_ & Htok & Hmono).
  assert (pool_inv p1 h) as [Hf Hw Hq Hd Hc Hfr Ht Hst Hdi Hu] by (by apply (pool_inv_tokens p)).
  assert (forall j fd oq t, ids p1 j fd = Some (oq, t) -> t <= last_token p j) as Ht'.
  { intros j fd' oq t. unfold ids, p1. cbn [fd_ctxes_]. rewrite Hc0. apply Hinv0. }
  intros [= <- <-]. rewrite app_nil_r. unfold on_new_cnx.
  rewrite <- Hc0 in Hi. change (fd_ctxes_ p1 !! i = Some ctxes) in Hi.
  destruct (ctxes !! fd) as [x|] eqn:Hx.
  { unfold set_ctxes. rewrite list_insert_id by done. by constructor. }
  set (ctxes' := <[fd := _]> ctxes).
  assert (forall j fd' v, ids (set_ctxes i ctxes' p1) j fd' = Some v ->
    (j = i /\ fd' = fd /\ v = (None, tok)) \/ ids p1 j fd' = Some v) as Hids.
  { intros j fd' v. unfold set_ctxes. rewrite (ids_insert p1 i ctxes) by done.
    case_decide as Hj; [|auto]. subst j. unfold ctxes'.
    rewrite (ids_at p1 i ctxes) by done. destruct (decide (fd' = fd)) as [->|Hne].
    - rewrite lookup_insert_eq. intros [= <-]. auto.
    - rewrite lookup_insert_ne by done. auto. }
  constructor; eauto.
  - intros j fd' q t [(_ & _ & ?)|?]%Hids; [done|eauto].
  - intros j fd' t [(-> & _ & [= ->])|?]%Hids fd'' q' Hs; [|by eapply Hfr].
    apply (inv_sub_tokens _ _ Hinv0) in Hs. lia.
  - intros j fd' oq t [(-> & _ & [= _ ->])|Hj]%Hids; [apply Htok|by eapply Ht].
  - intros j fd1 oq fd2 oq' t H1%Hids H2%Hids.
    destruct H1 as [(Hj1 & -> & H1)|H1], H2 as [(Hj2 & -> & H2)|H2]; [done| | |by eapply Hdi].
    + injection H1 as -> ->. subst j. apply Ht' in H2. lia.
    + injection H2 as -> ->. subst j. apply Ht' in H1. lia.
Qed.

(** A client gets its query. *)
Lemma subscribe_inv p h i fd ctxes x x' q es :
  pool_inv p h -> fd_ctxes_ p !! i = Some ctxes -> ctxes !! fd = Some x -> query_fn x = None ->
  ident x' = (Some q, token x) ->
  Forall (fun e => evaluate regex_match stod q e = Ok true) es ->
  pool_inv (update_filters i (<[fd := x']> ctxes) p)
    (h ++ (pair i <$> (Subscribed fd (token x) q :: (Delivered fd (token x) <$> es)))).
Proof.
  intros [Hf Hw Hq Hd Hc Hfr Ht Hst Hdi Hu] Hi Hx Hnone Hx' Hes.
  set (out := pair i <$> _).
  assert (ids p i fd = Some (None, token x)) as Hid.
  { rewrite (ids_at p i ctxes), Hx by done. simpl. unfold ident. by rewrite Hnone. }
  assert (subscribed (h ++ out) i fd (token x) q) as Hnew.
  { apply elem_of_app. right. by left. }
  assert (forall j fd' tok q', subscribed (h ++ out) j fd' tok q' ->
    subscribed h j fd' tok q' \/ (j = i /\ fd' = fd /\ tok = token x /\ q' = q)) as Hsub.
  { intros j fd' tok q' [?|Hin]%elem_of_app; [auto|right]. unfold out in Hin.
    rewrite fmap_cons in Hin. apply elem_of_cons in Hin as [[= -> -> -> ->]|Hin]; [done|].
    rewrite <- list_fmap_compose in Hin. apply list_elem_of_fmap in Hin as (e & [=] & _). }
  assert (forall j fd' v, ids (update_filters i (<[fd := x']> ctxes) p) j fd' = Some v ->
    (j = i /\ fd' = fd /\ v = (Some q, token x)) \/ ((j <> i \/ fd' <> fd) /\ ids p j fd' = Some v)) as Hids.
  { intros j fd' v. unfold update_filters. rewrite (ids_insert p i ctxes) by done.
    case_decide as Hj; [|auto]. subst j. rewrite (ids_at p i ctxes) by done.
    destruct (decide (fd' = fd)) as [->|Hne].
    - rewrite lookup_insert_eq. simpl. rewrite Hx'. intros [= <-]. auto.
    - rewrite lookup_insert_ne by done. auto. }
  assert (forall j fd' q' tok, ids (update_filters i (<[fd := x']> ctxes) p) j fd' = Some (Some q', tok) ->
    subscribed (h ++ out) j fd' tok q') as Hctx.
  { intros j fd' q' tok [(-> & -> & [= -> ->])|[_ ?]]%Hids; eauto. }
  constructor; cbn [update_filters worker_pool_ event_queues_ next_token_]; eauto.
  - apply update_filters_ok; [eauto|]. apply filters_of_ok. intros fd' q' tok Hfd'. apply Hctx.
    unfold update_filters. rewrite (ids_insert p i ctxes) by done. by rewrite decide_True.
  - intros j fd' tok e [Hin|Hin]%elem_of_app; [eauto|]. unfold out in Hin. rewrite fmap_cons in Hin.
    apply elem_of_cons in Hin as [[=]|Hin]. rewrite <- list_fmap_compose in Hin.
    apply list_elem_of_fmap in Hin as (e' & [= -> -> -> ->] & He').
    exists q. split; [done|]. rewrite list.Forall_forall in Hes. by apply Hes.
  - intros j fd' tok [(_ & _ & [=])|[Hne Hj]]%Hids fd'' q' [Hs|(-> & -> & -> & ->)]%Hsub.
    + by eapply Hfr.
    + rewrite (Hdi _ _ _ _ _ _ Hj Hid) in Hne. by destruct Hne.
  - intros j fd' oq tok [(-> & _ & [= _ ->])|[_ Hj]]%Hids; by eapply Ht.
  - intros j fd' tok q' [?|(-> & _ & -> & _)]%Hsub; [by eapply Hst|by eapply Ht].
  - intros j fd1 oq fd2 oq' tok H1%Hids H2%Hids.
    destruct H1 as [(Hj1 & -> & H1)|[Hn1 H1]], H2 as [(Hj2 & -> & H2)|[Hn2 H2]];
      [done| | |by eapply Hdi].
    + injection H1 as -> ->. subst j. by eapply Hdi.
    + injection H2 as -> ->. subst j. by eapply Hdi.
  - intros j fd1 q1 fd2 q2 tok [H1|(Hj1 & -> & H1 & ->)]%Hsub [H2|(Hj2 & -> & H2 & ->)]%Hsub;
      [by eapply Hu| | |done]; subst; exfalso; by eapply Hfr.
Qed.

Lemma fd_ready_inv p h i fd rd wr indexed p' out :
  pool_inv p h ->
  on_fd_ready split_spaces sha1 uri_unescape regex_match stod toStyledString i fd rd wr indexed p
  = Ok (p', out) -> pool_inv p' (h ++ (pair i <$> out)).
Proof.
  intros Hinv. unfold on_fd_ready. destruct (fd_ctxes_ p !! i) as [ctxes|] eqn:Hi; [|done].
  destruct (ctxes !! fd) as [x|] eqn:Hx; [|done].
  destruct (ws_connection.callback _ _ rd wr (ws_cnx x)) as [c|]; [|done].
  set (x1 := MkCtx _ _ _ _ _).
  assert (forall j fd' v w, ids (Mk (<[i := delete fd ctxes]> (fd_ctxes_ p)) (event_queues_ p)
    (next_token_ p) (fetched_ p) w) j fd' = Some v -> ids p j fd' = Some v) as Hdel.
  { intros j fd' v w. rewrite (ids_insert p i ctxes) by done. case_decide as Hj; [|done]. subst j.
    rewrite (ids_at p i ctxes) by done. rewrite lookup_delete. by case_decide. }
  destruct (tcp_connection.close_connection _).
  { intros [= <- <-]. apply (pool_inv_less p); try apply Hinv; try done.
    - intros. by eapply Hdel.
    - apply update_filters_ok; [apply Hinv|]. apply filters_of_ok. intros fd' q tok Hfd'.
      apply (inv_ctxes _ _ Hinv). rewrite (ids_at p i ctxes) by done.
      rewrite lookup_delete in Hfd'. by case_decide. }
  destruct (pending_ws_init x1) eqn:Hp.
  - apply andb_true_iff in Hp as [Hp%bool_decide_eq_true _].
    destruct (handle_ws_init _ _ _ _ indexed fd x1) as [[[x' out']|]|] eqn:Hh; [| |done].
    + intros [= <- <-]. destruct (handle_ws_init_spec _ _ _ _ _ Hh) as (q & es & Hid & -> & Hes).
      by apply (subscribe_inv p h i fd ctxes x x' q es).
    + intros [= <- <-]. apply (pool_inv_less p); try apply Hinv; try done. intros. by eapply Hdel.
  - intros [= <- <-]. apply (pool_inv_less p); try apply Hinv; try done.
    intros j fd' v. unfold set_ctxes. rewrite (ids_insert p i ctxes) by done.
    case_decide as Hj; [|done]. subst j. rewrite (ids_at p i ctxes) by done.
    destruct (decide (fd' = fd)) as [->|Hne];
      [by rewrite lookup_insert_eq, Hx|by rewrite lookup_insert_ne].
Qed.

Lemma signal_inv p h i p' out :
  pool_inv p h -> on_async_signal toStyledString i p = Ok (p', out) ->
  pool_inv p' (h ++ (pair i <$> out)).
Proof.
  intros Hinv. unfold on_async_signal. destruct (fd_ctxes_ p !! i) as [ctxes|] eqn:Hi; [|done].
  destruct (event_queues_ p !! i) as [evs|] eqn:He; [|done].
  pose proof (drain_spec (dom ctxes) evs ctxes) as Hd.
  destruct (drain toStyledString (dom ctxes) evs ctxes) as [[ctxes' evs'] outs].
  destruct Hd as (Hids & Hrest & Houts). intros [= <- <-].
  pose proof (inv_queues _ _ Hinv i evs He) as Hq. unfold queue_ok in Hq.
  rewrite list.Forall_forall in Hq.
  apply (pool_inv_less p); try apply Hinv; try done.
  - intros j fd v. rewrite (ids_insert p i ctxes) by done. case_decide as Hj; [|done]. subst j.
    by rewrite Hids, (ids_at p i ctxes).
  - intros j evs0. cbn [event_queues_]. destruct (decide (j = i)) as [->|Hne].
    + rewrite list_lookup_insert_eq by (by eapply lookup_lt_Some). intros [= <-].
      apply list.Forall_forall. intros ev Hin. by apply Hq, Hrest.
    + rewrite list_lookup_insert_ne by done. apply Hinv.
  - apply list.Forall_forall. intros o (o' & -> & Hin)%list_elem_of_fmap.
    destruct (Houts o' Hin) as (ev & Hev & ->). by apply Hq.
Qed.

Lemma fd_ready_token p i fd rd wr indexed p' out :
  on_fd_ready split_spaces sha1 uri_unescape regex_match stod toStyledString i fd rd wr indexed p
  = Ok (p', out) -> next_token_ p' = next_token_ p.
Proof.
  unfold on_fd_ready. destruct (fd_ctxes_ p !! i) as [ctxes|]; [|done].
  destruct (ctxes !! fd) as [x|]; [|done]. destruct (ws_connection.callback _ _ _ _ _); [|done].
  destruct (tcp_connection.close_connection _); [by intros [= <- <-]|].
  destruct (pending_ws_init _); [|by intros [= <- <-]].
  destruct (handle_ws_init _ _ _ _ _ _ _) as [[[x' o]|]|]; [..|done]; by intros [= <- <-].
Qed.

Lemma signal_token (p : websocket_pool.t B) i p' out :
  on_async_signal toStyledString i p = Ok (p', out) -> next_token_ p' = next_token_ p.
Proof.
  unfold on_async_signal. destruct (fd_ctxes_ p !! i); [|done].
  destruct (event_queues_ p !! i); [|done].
  destruct (drain _ _ _ _) as [[c e] o]. by intros [= <- <-].
Qed.

Lemma step_inv o p h p' out :
  pool_inv p h -> 0 <= next_token_ p < 2 ^ 31 - 1 -> step o p = Ok (p', out) ->
  pool_inv p' (h ++ out) /\ 0 <= next_token_ p' <= next_token_ p + 1.
Proof.
  intros Hinv Hn. destruct o as [i|i fd|i fd rd wr indexed|i|e|k renew|].
  - intros [= <- <-]. rewrite app_nil_r. destruct (fetch_token_last i p Hn) as (_ & ? & _ & ?).
    destruct (fetch_token_same i p) as (? & ? & ?). split; [by apply (pool_inv_tokens p)|lia].
  - intros Hs. split; [by eapply new_cnx_inv|]. revert Hs. cbn [websocket_pool.step].
    pose proof (next_token_last i p Hn) as Hl. destruct (next_token i p) as [tok p1].
    destruct (fd_ctxes_ p !! i); [|done]. intros [= <- <-]. cbn [set_ctxes next_token_]. lia.
  - cbn [websocket_pool.step].
    destruct (on_fd_ready _ _ _ _ _ _ i fd rd wr indexed p) as [[p1 out1]|] eqn:Hr; [|done].
    intros [= <- <-]. split; [by eapply fd_ready_inv|]. apply fd_ready_token in Hr. lia.
  - cbn [websocket_pool.step].
    destruct (on_async_signal _ i p) as [[p1 out1]|] eqn:Hr; [|done].
    intros [= <- <-]. split; [by eapply signal_inv|]. apply signal_token in Hr. lia.
  - intros [= <- <-]. split; [|cbn [next_token_]; lia].
    apply (pool_inv_less p); try apply Hinv; try done; cbn [worker_pool_];
      unfold worker_pool.add_event; repeat case_match; apply Hinv.
  - cbn [websocket_pool.step].
    destruct (worker_pool.process_event _ _ k renew _ _) as [[w qs]|] eqn:Hr; [|done].
    intros [= <- <-]. split; [|cbn [next_token_]; lia].
    eapply process_event_ok in Hr as (Hf & Hw & Hq); [|apply Hinv..].
    by apply (pool_inv_less p).
  - intros [= <- <-]. split; [|cbn [next_token_]; lia].
    apply (pool_inv_less p); try apply Hinv; try done.
Qed.

Lemma run_inv ops p h p' out :
  pool_inv p h -> 0 <= next_token_ p -> next_token_ p + Z.of_nat (length ops) < 2 ^ 31 ->
  run ops p = Ok (p', out) -> pool_inv p' (h ++ out).
Proof.
  revert p h out. induction ops as [|o ops IH]; intros p h out Hinv H0 Hlen; cbn [websocket_pool.run].
  { intros [= <- <-]. by rewrite app_nil_r. }
  cbn [length] in Hlen. destruct (step o p) as [[p1 out1]|] eqn:Hs; [|done].
  destruct (run ops p1) as [[p2 out2]|] eqn:Hr; [|done]. intros [= <- <-].
  eapply step_inv in Hs as [Hinv1 Hn1]; [|done|lia].
  rewrite app_assoc. by eapply IH; [..|done]; [|lia|lia].
Qed.

(** C19. A websocket client gets only events that its query accepts.  In every run of the loops, the
    workers and the publishers with fewer than 2^31 steps, each event that is put into the queue
    of a connection satisfies the query that this very connection has asked for: events found for
    an earlier connection on the same descriptor, or by a worker with old filters, do not get
    through.  On one loop no two connections have the same token, however the loops interleave
    the two halves of [next_token]. *)
Theorem ws_pool_matches (n : nat) (ops : list ws_pool_op) (p : websocket_pool.t B)
    (outs : list (nat * ws_out)) :
  Z.of_nat (length ops) < 2 ^ 31 ->
  run ops (websocket_pool.new n) = Ok (p, outs) ->
  (forall i fd tok e, (i, Delivered fd tok e) ∈ outs ->
     exists q, (i, Subscribed fd tok q) ∈ outs /\ evaluate regex_match stod q e = Ok true)
  /\ (forall i fd q fd' q' tok,
     (i, Subscribed fd tok q) ∈ outs -> (i, Subscribed fd' tok q') ∈ outs -> fd = fd' /\ q = q').
Proof.
  intros Hlen Hrun.
  assert (pool_inv p outs) as Hinv.
  { apply (run_inv ops (websocket_pool.new n) [] p outs); [apply new_inv|done|done|done]. }
  split; [apply Hinv|]. intros i fd q fd' q' tok. apply (inv_unique _ _ Hinv).
Qed.
End matches.

(** ** A client without a query *)

Section no_query.
Import websocket_pool.
Context {B : Type} `{CircularBuffer B}.
Variable split_spaces : list ascii -> list (list ascii).
Variable sha1 : list ascii -> list Z.
Variable uri_unescape : string -> string.
Variable regex_match : string -> string -> result bool.
Variable stod : list ascii -> result double.
Variable toStyledString : gmap string jvalue -> string.

Abbreviation step := (websocket_pool.step (B := B) split_spaces sha1 uri_unescape regex_match stod toStyledString).
Abbreviation run := (websocket_pool.run (B := B) split_spaces sha1 uri_unescape regex_match stod toStyledString).

Lemma run_filters_throws e f fs q :
  f ∈ fs -> f_query f = None -> exists x, worker_pool.run_filters regex_match stod e fs q = Throw x.
Proof.
  intros Hin Hf. revert q. induction Hin as [fs|f g fs Hin IH]; intros q;
    cbn [worker_pool.run_filters].
  - unfold worker_pool.run_filter. rewrite Hf. by eexists.
  - destruct (worker_pool.run_filter _ _ e g q); cbn [res_bind]; [by apply IH|by eexists].
Qed.

Lemma run_loops_throws e f i l fs qs :
  (i, l) ∈ fs -> f ∈ l -> f_query f = None ->
  exists x, worker_pool.run_loops regex_match stod e fs qs = Throw x.
Proof.
  intros Hin Hf Hq. revert qs. induction fs as [|[j l'] fs IH]; intros qs;
    [by apply elem_of_nil in Hin|]. cbn [worker_pool.run_loops].
  destruct (qs !! j) as [q|]; [|by eexists]. apply elem_of_cons in Hin as [[= -> ->]|Hin].
  - destruct (run_filters_throws e f l' q Hf Hq) as [x ->]. by eexists.
  - destruct (worker_pool.run_filters _ _ e l' q); cbn [res_bind]; [by apply IH|by eexists].
Qed.

Lemma process_event_throws e f i l k renew w fns queue qs :
  worker_pool.workers w !! k = Some (Some fns) -> worker_pool.event_queue_ w = Some e :: queue ->
  fns !! i = Some l -> f ∈ l -> f_query f = None ->
  exists x, worker_pool.process_event regex_match stod k renew w qs = Throw x.
Proof.
  intros Hk Hq Hi Hf Hn. unfold worker_pool.process_event. rewrite Hk, Hq.
  destruct (run_loops_throws e f i l (map_to_list fns) qs) as [x ->]; [by apply elem_of_map_to_list|done..|].
  by eexists.
Qed.

(** A client that has connected and not asked for its query yet ends the process.  Whenever
    the filters of its loop are made again (another client of the loop has closed or
    got its query), a worker that renews its copy of the filters throws on the next event
    that is published, whatever the event is: the filter calls an empty function. *)
Theorem client_without_query_fatal (p p' : websocket_pool.t B) (out : list (nat * ws_out))
    (i k : nat) (fd : Z) (ctxes : gmap Z (fd_ctx_t B)) (x : fd_ctx_t B)
    (fns : gmap nat (list filter_t)) (e e' : Event) (renew : bool) :
  ctxes !! fd = Some x -> query_fn x = None ->
  worker_pool.stop_ (worker_pool_ p) = false ->
  worker_pool.event_queue_ (worker_pool_ p) = [Some e] ->
  worker_pool.workers (worker_pool_ p) !! k = Some (Some fns) ->
  step (Work k true) (update_filters i ctxes p) = Ok (p', out) ->
  exists err, run [Publish e'; Work k renew] p' = Throw err.
Proof.
  intros Hx Hn Hstop Hq Hk. cbn [websocket_pool.step update_filters worker_pool_ event_queues_].
  unfold worker_pool.process_event, worker_pool.update_filters at 1 2.
  cbn [worker_pool.workers worker_pool.event_queue_]. rewrite Hk, Hq.
  destruct (worker_pool.run_loops _ _ e _ _) as [qs|]; [|done]. intros [= <- <-].
  assert (MkFilter fd None (token x) ∈ filters_of ctxes) as Hf.
  { unfold filters_of. apply list_elem_of_fmap. exists (fd, x). cbn [fst snd]. rewrite Hn.
    split; [done|]. by apply elem_of_map_to_list. }
  set (fs := <[i := filters_of ctxes]> (worker_pool.filters_ (worker_pool_ p))).
  assert (existsb (fun kv : nat * list filter_t => negb (bool_decide (kv.2 = []))) (map_to_list fs) = true)
    as Hclients.
  { apply existsb_exists. exists (i, filters_of ctxes). split.
    - apply list_elem_of_In, elem_of_map_to_list, lookup_insert_eq.
    - cbn [snd]. case_bool_decide as Hnil; [|done]. rewrite Hnil in Hf. by apply elem_of_nil in Hf. }
  cbn [websocket_pool.run websocket_pool.step worker_pool_]. unfold worker_pool.add_event.
  cbn [worker_pool.stop_ worker_pool.has_clients_ worker_pool.event_queue_ worker_pool.filters_
    worker_pool.update_filters]. fold fs. rewrite Hstop, Hclients. cbn [orb negb].
  rewrite (proj2 (Z.leb_gt k_max_ws_queue_size _)) by (by vm_compute). cbn [app].
  set (w := worker_pool.Mk _ _ _ [Some e'] _).
  assert (exists err, worker_pool.process_event regex_match stod k renew w qs = Throw err) as [err Herr].
  { eapply (process_event_throws e' (MkFilter fd None (token x)) i (filters_of ctxes)); [|reflexivity| |exact Hf|done].
    - apply list_lookup_insert_eq. by eapply lookup_lt_Some.
    - apply lookup_insert_eq. }
  cbn [worker_pool_ event_queues_]. rewrite Herr. by eexists.
Qed.
End no_query.

(** ** Bytes to write and the mode of a descriptor *)

Section wakes.
Import websocket_pool.
Context {B : Type} `{CircularBufferLaws B}.
Variable split_spaces : list ascii -> list (list ascii).
Variable sha1 : list ascii -> list Z.
Variable uri_unescape : string -> string.
Variable regex_match : string -> string -> result bool.
Variable stod : list ascii -> result double.
Variable toStyledString : gmap string jvalue -> string.

Abbreviation step := (websocket_pool.step (B := B) split_spaces sha1 uri_unescape regex_match stod toStyledString).
Abbreviation run := (websocket_pool.run (B := B) split_spaces sha1 uri_unescape regex_match stod toStyledString).

Definition conn_of (x : fd_ctx_t B) : tcp_connection.t B := ws_connection.tcp_connection_ (ws_cnx x).

(** The loop waits until the descriptor can be written if there is something to write. *)
Definition awake (x : fd_ctx_t B) : Prop :=
  tcp_connection.pending_write (conn_of x) = true -> mode x = mode_readwrite.
Definition all_awake (ctxes : gmap Z (fd_ctx_t B)) : Prop := map_Forall (fun _ => awake) ctxes.
Definition pool_awake (p : websocket_pool.t B) : Prop := Forall all_awake (fd_ctxes_ p).

Lemma flush_queue_shrinks q (c : ws_connection.state B) :
  let '(q', c', ok) := flush_queue q c in
  (length q' <= length q)%nat
  /\ (q' = q -> ws_connection.tcp_connection_ c' = ws_connection.tcp_connection_ c).
Proof.
  revert c. induction q as [|s q IH]; intros c; cbn [flush_queue]; [done|].
  unfold ws_connection.send_frame, tcp_connection.queue_write.
  destruct (_ <? _); [by split|]. set (c1 := ws_connection.MkWs _ _ _). specialize (IH c1).
  destruct (flush_queue q c1) as [[q' c'] ok]. destruct IH as [Hlen _]. simpl. split; [lia|].
  intros ->. simpl in Hlen. lia.
Qed.

Lemma flush_awake x : awake x -> awake (flush_fd_queue x).1.
Proof.
  unfold awake, flush_fd_queue, conn_of. intros Hx.
  pose proof (flush_queue_shrinks (queue x) (ws_cnx x)) as Hf.
  destruct (flush_queue (queue x) (ws_cnx x)) as [[q c] ok]. destruct Hf as [_ Hsame].
  cbn [fst ws_cnx mode]. case_bool_decide as Hq; [|done]. by rewrite Hsame.
Qed.

Lemma drain_awake avail evs ctxes :
  all_awake ctxes -> all_awake (drain toStyledString avail evs ctxes).1.1.
Proof.
  revert avail ctxes. induction evs as [|ev evs IH]; intros avail ctxes Hc; cbn [drain]; [done|].
  destruct (ctxes !! e_fd ev) as [x|] eqn:Hx; [|by apply IH].
  destruct (negb (token x =? e_token ev)); [by apply IH|].
  destruct (k_max_ws_queue_size <? _); [by apply IH|].
  set (x1 := MkCtx _ _ _ _ _).
  assert (awake (flush_fd_queue x1).1) as Hx2 by (apply flush_awake; by apply (Hc _ _ Hx)).
  destruct (flush_fd_queue x1) as [x2 ok]. cbn [fst] in Hx2.
  assert (all_awake (<[e_fd ev := x2]> ctxes)) as Hc2 by (by apply map_Forall_insert_2).
  destruct (negb ok && _); [done|].
  specialize (IH (if ok then avail else avail ∖ {[e_fd ev]}) _ Hc2).
  by destruct (drain toStyledString _ evs _) as [[c e] o].
Qed.

Lemma handle_ws_init_awake indexed fd x x' out :
  awake x ->
  handle_ws_init uri_unescape regex_match stod toStyledString indexed fd x = Ok (Some (x', out)) ->
  awake x'.
Proof.
  intros Hx. unfold handle_ws_init. destruct (filter_query _ _) as [[q|]|]; [|done..].
  destruct (query_index _ _ q _ indexed) as [es|]; [|done]. cbn [res_map]. intros [= <- _].
  case_bool_decide; [done|]. by apply flush_awake.
Qed.

Lemma set_ctxes_awake i ctxes p :
  pool_awake p -> all_awake ctxes -> pool_awake (set_ctxes i ctxes p).
Proof. intros Hp Hc. by apply Forall_insert. Qed.

Lemma conn_to_mode_awake c oq q tok : awake (MkCtx c oq q tok (conn_to_mode (ws_connection.tcp_connection_ c))).
Proof. unfold awake, conn_of, conn_to_mode. cbn [ws_cnx mode]. by intros ->. Qed.

Lemma fd_ready_awake i fd rd wr indexed p p' out :
  pool_awake p ->
  on_fd_ready split_spaces sha1 uri_unescape regex_match stod toStyledString i fd rd wr indexed p
  = Ok (p', out) -> pool_awake p'.
Proof.
  intros Hp. unfold on_fd_ready. destruct (fd_ctxes_ p !! i) as [ctxes|] eqn:Hi; [|done].
  assert (all_awake ctxes) as Hc by (eapply Forall_lookup_1; eauto).
  destruct (ctxes !! fd) as [x|]; [|done].
  destruct (ws_connection.callback _ _ _ _ _) as [c|]; [|done].
  pose proof (conn_to_mode_awake c (query_fn x) (queue x) (token x)) as Hx.
  set (x1 := MkCtx _ _ _ _ _) in *.
  assert (all_awake (delete fd ctxes)) as Hdel by (by apply map_Forall_delete).
  destruct (tcp_connection.close_connection _); [intros [= <- <-]; by apply set_ctxes_awake|].
  destruct (pending_ws_init x1).
  - destruct (handle_ws_init _ _ _ _ _ _ x1) as [[[x' o]|]|] eqn:Hh; [..|done]; intros [= <- <-];
      apply set_ctxes_awake; try done.
    apply map_Forall_insert_2; [by eapply handle_ws_init_awake|done].
  - intros [= <- <-]. apply set_ctxes_awake; [done|]. by apply map_Forall_insert_2.
Qed.

Lemma step_awake o p p' out : pool_awake p -> step o p = Ok (p', out) -> pool_awake p'.
Proof.
  intros Hp. destruct o as [i|i fd|i fd rd wr indexed|i|e|k renew|]; cbn [websocket_pool.step].
  - intros [= <- <-]. unfold fetch_token. by case_bool_decide.
  - destruct (fd_ctxes_ p !! i) as [ctxes|] eqn:Hi; [|done]. intros [= <- <-].
    apply set_ctxes_awake.
    + unfold fetch_token, pool_awake. by case_bool_decide.
    + assert (all_awake ctxes) as Hc by (eapply Forall_lookup_1; eauto).
      unfold on_new_cnx. destruct (ctxes !! fd); [done|]. apply map_Forall_insert_2; [|done].
      unfold awake, conn_of, tcp_connection.pending_write. cbn.
      unfold cb_size. by rewrite cb_data_new.
  - destruct (on_fd_ready _ _ _ _ _ _ i fd rd wr indexed p) as [[p1 out1]|] eqn:Hr; [|done].
    intros [= <- <-]. by eapply fd_ready_awake.
  - unfold on_async_signal. destruct (fd_ctxes_ p !! i) as [ctxes|] eqn:Hi; [|done].
    destruct (event_queues_ p !! i) as [evs|]; [|done].
    assert (all_awake ctxes) as Hc by (eapply Forall_lookup_1; eauto).
    apply (drain_awake (dom ctxes) evs) in Hc.
    destruct (drain _ _ _ _) as [[c e] o]. intros [= <- <-]. by apply Forall_insert.
  - by intros [= <- <-].
  - destruct (worker_pool.process_event _ _ _ _ _ _) as [[w qs]|]; [|done]. by intros [= <- <-].
  - by intros [= <- <-].
Qed.

(** No connection is left with bytes to write that the loop does not wait for: in every
    run of the pool, a client whose write buffer is not empty has its descriptor
    registered for writing. *)
Theorem ws_pool_awake (n : nat) (ops : list ws_pool_op) (p : websocket_pool.t B)
    (outs : list (nat * ws_out)) :
  run ops (websocket_pool.new n) = Ok (p, outs) -> pool_awake p.
Proof.
  assert (pool_awake (websocket_pool.new n)) as Hp.
  { apply list.Forall_forall. intros ctxes Hin. apply elem_of_replicate in Hin as [-> _].
    apply map_Forall_empty. }
  revert Hp outs. generalize (websocket_pool.new (B := B) n) as p0.
  induction ops as [|o ops IH]; intros p0 Hp outs; cbn [websocket_pool.run].
  { by intros [= <- <-]. }
  destruct (step o p0) as [[p1 out1]|] eqn:Hs; [|done].
  destruct (run ops p1) as [[p2 out2]|] eqn:Hr; [|done]. intros [= <- <-].
  eapply IH; [|done]. by eapply step_awake.
Qed.

(** The queue of a client with a query is left alone when its descriptor is ready,
    even if the write buffer gets empty: what did not fit waits for the next event that
    matches. *)
Lemma fd_ready_keeps_queue i fd rd wr indexed (p p' : websocket_pool.t B) out ctxes ctxes' x x' :
  fd_ctxes_ p !! i = Some ctxes -> ctxes !! fd = Some x -> query_fn x <> None ->
  on_fd_ready split_spaces sha1 uri_unescape regex_match stod toStyledString i fd rd wr indexed p
  = Ok (p', out) ->
  fd_ctxes_ p' !! i = Some ctxes' -> ctxes' !! fd = Some x' -> queue x' = queue x.
Proof.
  intros Hi Hx Hq. unfold on_fd_ready. rewrite Hi, Hx.
  pose proof (lookup_lt_Some _ _ _ Hi) as Hlt.
  destruct (ws_connection.callback _ _ _ _ _) as [c|]; [|done].
  destruct (tcp_connection.close_connection _).
  { intros [= <- <-]. cbn [update_filters fd_ctxes_]. rewrite list_lookup_insert_eq by done.
    intros [= <-]. by rewrite lookup_delete_eq. }
  unfold pending_ws_init. cbn [query_fn].
  rewrite (bool_decide_eq_false_2 (query_fn x = None)) by done. cbn [andb].
  intros [= <- <-]. cbn [set_ctxes fd_ctxes_]. rewrite list_lookup_insert_eq by done.
  intros [= <-]. rewrite lookup_insert_eq. by intros [= <-].
Qed.
End wakes.

(** ** Concrete runs *)

(** An upgrade request for a URI. *)
Definition upgrade (uri : string) : list Z :=
  byte_of <$> print_request (chars "GET") (chars uri) (chars "HTTP/1.1")
    [(chars "Sec-WebSocket-Key", chars "MPowoRLVQ9qicfX4apcBHg==")].

Abbreviation sample_run := (websocket_pool.run (B := ring) (split_on_spaces []) (fun _ => repeat 7 20)
  (fun s => s) (fun _ _ => Ok false) (fun _ => Ok d_zero) (fun _ => "event")).
Abbreviation sample_step := (websocket_pool.step (B := ring) (split_on_spaces []) (fun _ => repeat 7 20)
  (fun s => s) (fun _ _ => Ok false) (fun _ => Ok d_zero) (fun _ => "event")).

(** A client asks for [metric<1.5], gets an event of the index, and then one that is
    published after a worker has seen its filter. *)
Definition sample_ops : list websocket_pool.ws_pool_op :=
  [ websocket_pool.FetchToken 1; websocket_pool.NewCnx 0 5
  ; websocket_pool.FdReady 0 5 (Some (Some (upgrade "/index?query=metric<1.5"))) None [Event.empty]
  ; websocket_pool.Publish Event.empty; websocket_pool.Work 0 true
  ; websocket_pool.Publish (Event.set_metric_d (d_of_Z 7) Event.empty)
  ; websocket_pool.Publish Event.empty
  ; websocket_pool.Work 0 false; websocket_pool.Work 0 false; websocket_pool.AsyncSignal 0 ].

Definition sample_query : query_node :=
  query_field (chars "metric") (VDouble (d_of_ratio 3 2)) LESSER.

Lemma ws_pool_matches_witness :
  exists p, sample_run sample_ops (websocket_pool.new 2)
    = Ok (p, [ (0%nat, Subscribed 5 2 sample_query); (0%nat, Delivered 5 2 Event.empty)
             ; (0%nat, Delivered 5 2 Event.empty) ])
  /\ exists q, (0%nat, Subscribed 5 2 q) ∈
        [ (0%nat, Subscribed 5 2 sample_query); (0%nat, Delivered 5 2 Event.empty)
        ; (0%nat, Delivered 5 2 Event.empty) ]
     /\ evaluate (fun _ _ => Ok false) (fun _ => Ok d_zero) q Event.empty = Ok true.
Proof.
  destruct (sample_run sample_ops (websocket_pool.new 2)) as [[p outs]|x] eqn:Hrun;
    [|vm_compute in Hrun; discriminate Hrun].
  exists p.
  assert (outs = [ (0%nat, Subscribed 5 2 sample_query); (0%nat, Delivered 5 2 Event.empty)
                 ; (0%nat, Delivered 5 2 Event.empty) ]) as Houts
    by (vm_compute in Hrun; injection Hrun as <- <-; reflexivity).
  split; [by rewrite Houts|]. rewrite <- Houts.
  eapply (ws_pool_matches (B := ring)); [|exact Hrun|]; [vm_compute; reflexivity|].
  rewrite Houts. right. left.
Defined.

Lemma ws_pool_awake_witness :
  match sample_run sample_ops (websocket_pool.new 2) with
  | Ok (p, _) => pool_awake p
  | Throw _ => False
  end.
Proof.
  destruct (sample_run sample_ops (websocket_pool.new 2)) as [[p outs]|x] eqn:Hrun.
  - exact (ws_pool_awake (B := ring) _ _ _ _ _ _ 2 sample_ops p outs Hrun).
  - vm_compute in Hrun. discriminate Hrun.
Defined.

(** Two clients connect, the first one gets its query, and the second event ends the process. *)
Definition two_clients : list websocket_pool.ws_pool_op :=
  [ websocket_pool.NewCnx 0 5; websocket_pool.NewCnx 0 6
  ; websocket_pool.FdReady 0 5 (Some (Some (upgrade "/index?query=true"))) None []
  ; websocket_pool.Publish Event.empty ].

Definition two_clients_pool : websocket_pool.t ring :=
  match sample_run two_clients (websocket_pool.new 1) with
  | Ok (p, _) => p
  | Throw _ => websocket_pool.new 1
  end.

Lemma client_without_query_fatal_witness :
  let p := two_clients_pool in
  let ctxes := default ∅ (websocket_pool.fd_ctxes_ p !! 0%nat) in
  match sample_step (websocket_pool.Work 0 true) (websocket_pool.update_filters 0 ctxes p) with
  | Ok (p', _) => exists err,
      sample_run [websocket_pool.Publish Event.empty; websocket_pool.Work 0 false] p' = Throw err
  | Throw _ => False
  end.
Proof.
  intros p ctxes. destruct (ctxes !! 6) as [x|] eqn:Hx; [|vm_compute in Hx; discriminate Hx].
  destruct (worker_pool.workers (websocket_pool.worker_pool_ p) !! 0%nat) as [[fns|]|] eqn:Hk;
    [|vm_compute in Hk; discriminate Hk..].
  destruct (sample_step _ _) as [[p' out]|err] eqn:Hs; [|vm_compute in Hs; discriminate Hs].
  eapply (client_without_query_fatal (B := ring) _ _ _ _ _ _ p p' out 0 0 6 ctxes x fns
    Event.empty); [exact Hx| |reflexivity|reflexivity|exact Hk|exact Hs].
  vm_compute in Hx. by injection Hx as <-.
Defined.

(** A handshake whose first bytes come alone is taken for one that is done: the URI is
    empty then. *)
Example handshake_in_pieces :
  sample_run [ websocket_pool.NewCnx 0 5
             ; websocket_pool.FdReady 0 5 (Some (Some (take 8 (upgrade "/index?query=true")))) None [] ]
    (websocket_pool.new 1) = Throw undefined_behaviour.
Proof. vm_compute. reflexivity. Qed.
