(* ===== verification/Subscriptions.v ===== *)
(** * From the rules to websocket clients

    [src/core/real_core.cpp] and [init_ws_server] of [src/core/real_core_helper.cpp]: the index publishes on
    its topic, the websocket server subscribes to it and queries the index for new clients.
    [System] (rules, index) and [WsPool] (clients, workers) run together here, in any interleaving.

    What a step of the system publishes is handed to the workers at the end of that step. *)

From S2P Require Import Prelude Ieee Containers Events Infra Dispatch Codec Tcp WebSocket Query Instrumentation External Index System WsPool.

Local Open Scope Z_scope.

(** ** The server *)

Section server.
Context {U : Type -> Type} `{UnorderedMap U} {B : Type} `{CircularBuffer B}.
Variable hash_fn : string -> nat.
Variable split_spaces : list ascii -> list (list ascii).
Variable sha1 : list ascii -> list Z.
Variable uri_unescape : string -> string.
Variable regex_match : string -> string -> result bool.
Variable stod : list ascii -> result double.
Variable toStyledString : gmap string jvalue -> string.

Abbreviation pool_step := (websocket_pool.step (B := B) split_spaces sha1 uri_unescape regex_match stod toStyledString).

(** The only subscriber is the websocket pool. *)
Record server : Type := MkServer {
  sys : system U;
  publishers : pub_sub.publishers_t ();
  ws_server_ : websocket_pool.t B;
  ws_outs : list (nat * ws_out)
}.

(** The index adds its topic, then the websocket server subscribes; [None]: a [CHECK] fails. *)
Definition server_new (ws_pool_size : nat) (s : streams) (x : real_external.t) : option server :=
  pubs ← pub_sub.subscribe "index" () (pub_sub.add_publisher "index" ∅);
  Some (MkServer (system_new s x) pubs (websocket_pool.new ws_pool_size) []).

Definition ws_step (o : websocket_pool.ws_pool_op) (v : server) : result server :=
  res_map (fun '(p, out) => MkServer (sys v) (publishers v) p (ws_outs v ++ out)) (pool_step o (ws_server_ v)).

(** [pub_sub::publish] calls [worker_pool::add_event]. *)
Fixpoint notify (es : list Event) (v : server) : result server :=
  match es with
  | [] => Ok v
  | e :: es' =>
      match pub_sub.publish "index" (publishers v) with
      | None => Throw (user_exception "CHECK")
      | Some (Throw x) => Throw x
      | Some (Ok ()) => res_bind (notify es') (ws_step (websocket_pool.Publish e) v)
      end
  end.

(** The events of the index, in the order in which a query walks them. *)
Definition index_events (s : real_index.t U) : list Event := real_index.indexes_ s ≫= (fun m : U Event => (um_items m).*2).

Inductive server_op : Type :=
| SystemOp (o : system_op)
| FetchToken (i : nat)
| NewCnx (i : nat) (fd : Z)
| FdReady (i : nat) (fd : Z) (rd : option (option (list Z))) (wr : option (option nat))
| AsyncSignal (i : nat)
| Work (k : nat) (renew : bool)
| StopServer.

Definition server_step (o : server_op) (v : server) : result server :=
  match o with
  | SystemOp o =>
      res_bind (fun y => notify (drop (length (published (sys v))) (published y))
                           (MkServer y (publishers v) (ws_server_ v) (ws_outs v)))
        (system_step hash_fn o (sys v))
  | FetchToken i => ws_step (websocket_pool.FetchToken i) v
  | NewCnx i fd => ws_step (websocket_pool.NewCnx i fd) v
  | FdReady i fd rd wr => ws_step (websocket_pool.FdReady i fd rd wr (index_events (index_ (sys v)))) v
  | AsyncSignal i => ws_step (websocket_pool.AsyncSignal i) v
  | Work k renew => ws_step (websocket_pool.Work k renew) v
  | StopServer => ws_step websocket_pool.Stop v
  end.
Fixpoint server_run (os : list server_op) (v : server) : result server :=
  match os with [] => Ok v | o :: os' => res_bind (server_run os') (server_step o v) end.
End server.
Arguments server : clear implicits.

(** ** Where the events of the index come from *)

(** A rule has indexed the event, or the event that it announces the end of. *)
Definition from (xs : list effect) (e : Event) : Prop :=
  EIndex e ∈ xs \/ exists e0, EIndex e0 ∈ xs /\ e = Event.set_state "expired" e0.

Section origin.
Context {U : Type -> Type} `{UnorderedMapLaws U}.
Variable hash_fn : string -> nat.

Record index_from (xs : list effect) (s : real_index.t U) : Prop := {
  from_maps : forall i m k e, real_index.indexes_ s !! i = Some m -> um_find k m = Some e -> EIndex e ∈ xs;
  from_expired : forall x, real_index.expiring_ s = Some x -> Forall (fun e => EIndex e ∈ xs) (real_index.expired_events x)
}.

Lemma index_from_mono xs ys s : index_from xs s -> index_from (xs ++ ys) s.
Proof.
  intros [Hm Hx]. split.
  - intros i m k e Hi He. apply elem_of_app. left. eauto.
  - intros x Hs. eapply Forall_impl; [|by apply Hx]. intros e He. apply elem_of_app. by left.
Qed.

Lemma from_mono xs ys e : from xs e -> from (xs ++ ys) e.
Proof. intros [He|(e0 & He & ->)]; [left|right; exists e0; split; [|done]]; apply elem_of_app; by left. Qed.

Lemma index_from_new : index_from [] real_index.new.
Proof. split; [|done]. intros i m k e [-> _]%lookup_replicate. by rewrite um_find_empty. Qed.

Lemma add_from xs e s : index_from xs s -> index_from (xs ++ [EIndex e]) (real_index.add_event hash_fn e s).1.
Proof.
  intros [Hm Hx]%(index_from_mono _ [EIndex e]). split; [|done]. cbn. intros i m k e' Hi He.
  rewrite list_lookup_alter in Hi. destruct (decide _) as [->|]; [|by eapply Hm].
  destruct (real_index.indexes_ s !! i) as [m0|] eqn:Hm0; [|done]. injection Hi as <-.
  rewrite um_find_insert in He. case_decide; [|by eapply Hm]. injection He as <-. apply elem_of_app. right. by left.
Qed.

Lemma timer_from xs now s : index_from xs s -> index_from xs (real_index.timer_cb now s).1.
Proof.
  intros Hs. unfold real_index.timer_cb. destruct (real_index.expiring_ s); [done|]. destruct Hs as [Hm _].
  split; [done|]. cbn. by intros x [= <-].
Qed.

Lemma next_from xs s : index_from xs s -> index_from xs (real_index.expire_next s).1.
Proof.
  intros Hs. unfold real_index.expire_next. destruct (real_index.expiring_ s) as [x|] eqn:Hx; [|done].
  destruct (real_index.indexes_ s !! _) as [m|] eqn:Hi; [|done].
  pose proof (expire_map_spec hash_fn (real_index.x_now x) m) as He. destruct (real_index.expire_map _ m) as [m' old].
  destruct He as [Hf Ho], Hs as [Hm Hold]. split; cbn.
  - intros i m1 k e Hm1 He. apply list_lookup_insert_Some in Hm1 as [(_ & <- & _)|[_ Hm1]]; [|by eapply Hm].
    rewrite Hf in He. destruct (um_find k m) as [e'|] eqn:He'; [|done]. cbn in He.
    destruct (real_index.is_expired _ e'); [done|]. injection He as <-. by eapply Hm.
  - intros x' [= <-]. cbn. apply Forall_app. split; [by apply Hold|]. apply list.Forall_forall. intros e He.
    apply Ho in He as (k & Hk & _). by eapply Hm.
Qed.

Definition out_from (xs : list effect) (o : index_out) : Prop :=
  match o with Publish e | PushEvent e => from xs e | _ => True end.

Lemma report_from xs s : index_from xs s ->
  index_from xs (real_index.expire_report s).1 /\ Forall (out_from xs) (real_index.expire_report s).2.
Proof.
  intros Hs. unfold real_index.expire_report. destruct (real_index.expiring_ s) as [x|] eqn:Hx; [|done].
  case_decide; [|done]. destruct Hs as [Hm Hold]. cbn. split; [by split|]. do 2 constructor; [done..|].
  apply list.Forall_forall. intros o Ho. apply list_elem_of_bind in Ho as (e & Ho & He).
  pose proof (proj1 (list.Forall_forall _ _) (Hold x Hx) e He) as Hin.
  assert (from xs (Event.set_state "expired" e)) as Hfrom by (right; by exists e).
  apply elem_of_cons in Ho as [->|Ho]; [done|]. by apply list_elem_of_singleton in Ho as ->.
Qed.
End origin.

(** ** The system *)

Section system_origin.
Context {U : Type -> Type} `{UnorderedMapLaws U}.
Variable hash_fn : string -> nat.

Record system_from (y : system U) : Prop := {
  from_index : index_from (asked y) (index_ y);
  from_published : Forall (from (asked y)) (published y)
}.

(** What a step adds. *)
Record extends (y y' : system U) : Prop := {
  ext_asked : exists xs, asked y' = asked y ++ xs;
  ext_published : exists es, published y' = published y ++ es
}.

Lemma extends_refl y : extends y y.
Proof. split; exists []; by rewrite app_nil_r. Qed.
Lemma extends_trans y1 y2 y3 : extends y1 y2 -> extends y2 y3 -> extends y1 y3.
Proof.
  intros [[a Ha] [p Hp]] [[a' Ha'] [p' Hp']]. split; [exists (a ++ a')|exists (p ++ p')]; by rewrite ?Ha', ?Hp', ?Ha, ?Hp, app_assoc.
Qed.

Lemma asked_from x y :
  system_from y -> system_from (MkSystem (rules_ y) (index_ y) (externals_ y) (published y) (asked y ++ [x])).
Proof.
  intros [Hi Hp]. split; cbn; [by apply index_from_mono|]. eapply Forall_impl; [|exact Hp]. intros e. apply from_mono.
Qed.

Lemma perform_from x y y' : system_from y -> perform hash_fn x y = Ok y' -> system_from y' /\ extends y y'.
Proof.
  intros Hy Hper. pose proof (asked_from x y Hy) as [Hi Hp].
  assert (asked y' = asked y ++ [x] -> published y' = published y -> index_ y' = index_ y -> system_from y' /\ extends y y') as Hsame.
  { intros Ha Hpub Hidx. split; [split; rewrite Ha, ?Hpub, ?Hidx; assumption|]. split; [by exists [x]|exists []; by rewrite app_nil_r]. }
  unfold perform in Hper. destruct x; cbn [call_of externals_] in Hper;
    try (destruct (do_call _ _); [|discriminate Hper]); injection Hper as <-; try (by apply Hsame).
  split; [split; cbn|split; cbn; [by eexists|by eexists]].
  - apply add_from. by destruct Hy.
  - apply Forall_app. split; [exact Hp|]. constructor; [|done]. left. apply elem_of_app. right. by left.
Qed.

Lemma perform_all_from xs : forall y y', system_from y -> perform_all hash_fn xs y = Ok y' -> system_from y' /\ extends y y'.
Proof.
  induction xs as [|x xs IH]; intros y y' Hy; cbn [perform_all]; [intros [= <-]; split; [done|apply extends_refl]|].
  destruct (perform hash_fn x y) as [y1|] eqn:Hp; [|done]. cbn [res_bind]. intros Hr.
  destruct (perform_from _ _ _ Hy Hp) as [Hy1 He1]. destruct (IH _ _ Hy1 Hr) as [Hy2 He2].
  split; [done|]. by eapply extends_trans.
Qed.

Lemma finish_from r y y' : system_from y -> finish hash_fn r y = Ok y' -> system_from y' /\ extends y y'.
Proof.
  destruct r as [[s w] [[]|x]]; [|done]. intros [Hi Hp] Hf.
  destruct (perform_all_from w (set_rules s y) y') as [Hy' [Ha He]]; [by split|done|]. split; [done|by split].
Qed.

Lemma deliver_from now out : forall y y',
  system_from y -> Forall (out_from (asked y)) out -> deliver hash_fn now out y = Ok y' -> system_from y' /\ extends y y'.
Proof.
  induction out as [|o out IH]; intros y y' Hy Hout; cbn [deliver]; [intros [= <-]; split; [done|apply extends_refl]|].
  apply list.Forall_cons in Hout as [Ho Hout]. destruct o as [e|e|n|n]; [| |by apply IH..].
  - intros Hd. destruct (IH (publish e y) y') as [Hy' He']; [|done|done|].
    + destruct Hy as [Hi Hp]. split; [done|]. cbn. apply Forall_app. auto.
    + split; [done|]. eapply extends_trans; [|exact He']. split; [exists []; by rewrite app_nil_r|by exists [e]].
  - destruct (finish hash_fn _ y) as [y1|] eqn:Hf; [|done]. cbn [res_bind]. intros Hd.
    destruct (finish_from _ _ _ Hy Hf) as [Hy1 He1]. destruct (IH y1 y' Hy1) as [Hy' He']; [|done|].
    + destruct He1 as [[xs ->] _]. eapply Forall_impl; [|exact Hout]. intros []; cbn; try done; apply from_mono.
    + split; [done|]. by eapply extends_trans.
Qed.

Lemma system_step_from o y y' : system_from y -> system_step hash_fn o y = Ok y' -> system_from y' /\ extends y y'.
Proof.
  intros Hy. pose proof Hy as [Hi Hp].
  assert (forall now i out, index_from (asked y) i -> Forall (out_from (asked y)) out ->
    deliver hash_fn now out (set_index i y) = Ok y' -> system_from y' /\ extends y y') as Hgo.
  { intros now i out Hfrom Hout Hd. destruct (deliver_from now out (set_index i y) y') as [Hy' [Ha He]]; [by split|done|done|].
    split; [done|by split]. }
  destruct o as [now es|now| |now]; cbn [system_step].
  - by apply finish_from.
  - pose proof (timer_from _ now _ Hi) as Hf. unfold real_index.timer_cb in *. destruct (real_index.expiring_ (index_ y)); by apply Hgo.
  - pose proof (next_from hash_fn _ _ Hi) as Hf. destruct (real_index.expire_next (index_ y)) as [i out] eqn:Hn.
    assert (out = []) as -> by (unfold real_index.expire_next in Hn; repeat case_match; by injection Hn as _ <-). by apply Hgo.
  - pose proof (report_from _ _ Hi) as [Hf Hout]. destruct (real_index.expire_report (index_ y)) as [i out]. by apply Hgo.
Qed.

Lemma index_events_from xs (s : real_index.t U) e : index_from xs s -> e ∈ index_events s -> EIndex e ∈ xs.
Proof.
  intros [Hm _] He. apply list_elem_of_bind in He as (m & He & Hin). apply list_elem_of_lookup_1 in Hin as [i Hi].
  apply list_elem_of_fmap in He as ([k e'] & -> & He). apply um_items_find in He. by eapply Hm.
Qed.
End system_origin.

(** ** The pool of clients *)

Section pool_origin.
Import websocket_pool.
Context {B : Type} `{CircularBuffer B}.
Variable split_spaces : list ascii -> list (list ascii).
Variable sha1 : list ascii -> list Z.
Variable uri_unescape : string -> string.
Variable regex_match : string -> string -> result bool.
Variable stod : list ascii -> result double.
Variable toStyledString : gmap string jvalue -> string.

Abbreviation step := (websocket_pool.step (B := B) split_spaces sha1 uri_unescape regex_match stod toStyledString).
Abbreviation all_ev P := (Forall (fun ev => P (e_event ev))).

(** All events in the queues have [P]. *)
Record pool_from (P : Event -> Prop) (p : websocket_pool.t B) : Prop := {
  from_work : Forall (fun oe => match oe with Some e => P e | None => True end) (worker_pool.event_queue_ (worker_pool_ p));
  from_queues : forall i evs, event_queues_ p !! i = Some evs -> all_ev P evs
}.
Definition given_from (P : Event -> Prop) (o : ws_out) : Prop :=
  match o with Delivered _ _ e => P e | Subscribed _ _ _ => True end.

Lemma run_filters_from (P : Event -> Prop) e fs : forall q q',
  P e -> all_ev P q -> worker_pool.run_filters regex_match stod e fs q = Ok q' -> all_ev P q'.
Proof.
  induction fs as [|f fs IH]; intros q q' He Hq; cbn [worker_pool.run_filters]; [by intros [= <-]|].
  unfold worker_pool.run_filter. destruct (f_query f) as [query|]; [|done].
  destruct (evaluate _ _ query e) as [ok|]; [|done]. cbn [res_map res_bind]. apply IH; [done|].
  destruct (ok && _); [|done]. apply Forall_app. auto.
Qed.

Lemma run_loops_from (P : Event -> Prop) e fs : forall qs qs',
  P e -> (forall i q, qs !! i = Some q -> all_ev P q) -> worker_pool.run_loops regex_match stod e fs qs = Ok qs' ->
  forall i q, qs' !! i = Some q -> all_ev P q.
Proof.
  induction fs as [|[j l] fs IH]; intros qs qs' He Hq; cbn [worker_pool.run_loops]; [by intros [= <-]|].
  destruct (qs !! j) as [q|] eqn:Hj; [|done]. destruct (worker_pool.run_filters _ _ e l q) as [q'|] eqn:Hr; [|done].
  cbn [res_bind]. intros Hl. eapply IH; [done| |exact Hl]. intros i q1 Hi.
  apply list_lookup_insert_Some in Hi as [(_ & <- & _)|[_ Hi]]; [|by eapply Hq]. eapply run_filters_from; [done| |exact Hr]. by eapply Hq.
Qed.

Lemma drain_from (P : Event -> Prop) evs : forall avail (ctxes : gmap Z (fd_ctx_t B)),
  all_ev P evs ->
  let '(_, evs', outs) := drain toStyledString avail evs ctxes in all_ev P evs' /\ Forall (given_from P) outs.
Proof.
  induction evs as [|ev evs IH]; intros avail ctxes Hev; cbn [drain]; [done|].
  apply list.Forall_cons in Hev as [He Hev]. destruct (ctxes !! e_fd ev) as [x|]; [|by apply IH].
  destruct (negb _); [by apply IH|]. destruct (_ <? _); [by apply IH|]. destruct (flush_fd_queue _) as [x' ok].
  destruct (_ && _); [split; [done|by constructor]|].
  match goal with |- context [drain _ ?a evs ?c] => specialize (IH a c Hev); destruct (drain toStyledString a evs c) as [[? ?] ?] end.
  destruct IH as [Hl Ho]. split; [done|by constructor].
Qed.

Lemma query_index_from (P : Event -> Prop) q indexed : forall max es,
  Forall P indexed -> query_index regex_match stod q max indexed = Ok es -> Forall P es.
Proof.
  induction indexed as [|e indexed IH]; intros max es; cbn [query_index]; [by intros _ [= <-]|].
  intros [He Hi]%list.Forall_cons. destruct (evaluate _ _ q e) as [[]|]; [|by apply IH|done].
  destruct (max =? 1); [intros [= <-]; by constructor|].
  destruct (query_index _ _ q (max - 1) indexed) as [es'|] eqn:Hq; [|done]. intros [= <-]. constructor; [done|by eapply IH].
Qed.

(** The events that an operation brings. *)
Definition brings (o : ws_pool_op) : list Event :=
  match o with Publish e => [e] | websocket_pool.FdReady _ _ _ _ indexed => indexed | _ => [] end.

Lemma ready_from P i fd rd wr indexed p p' out :
  pool_from P p -> Forall P indexed ->
  on_fd_ready split_spaces sha1 uri_unescape regex_match stod toStyledString i fd rd wr indexed p = Ok (p', out) ->
  pool_from P p' /\ Forall (given_from P) out.
Proof.
  intros [Hw Hq] Hi. unfold on_fd_ready. destruct (fd_ctxes_ p !! i) as [ctxes|]; [|done].
  destruct (ctxes !! fd) as [x|]; [|done]. destruct (ws_connection.callback _ _ _ _ _) as [c|]; [|done].
  destruct (tcp_connection.close_connection _); [by intros [= <- <-]|].
  destruct (pending_ws_init _); [|by intros [= <- <-]].
  destruct (handle_ws_init _ _ _ _ _ _ _) as [[[x' out']|]|] eqn:Hh; [|by intros [= <- <-]|done].
  intros [= <- <-]. split; [by split|]. unfold handle_ws_init in Hh.
  destruct (filter_query _ _) as [[q|]|]; [|done|done]. destruct (query_index _ _ q _ _) as [es|] eqn:Hes; [|done].
  injection Hh as _ <-. constructor; [done|]. apply Forall_fmap. eapply Forall_impl; [|by eapply query_index_from]. done.
Qed.

Lemma pool_step_from P o p p' out :
  pool_from P p -> Forall P (brings o) -> step o p = Ok (p', out) -> pool_from P p' /\ Forall (fun o => given_from P o.2) out.
Proof.
  intros Hp Hb. pose proof Hp as [Hw Hq]. destruct o as [i|i fd|i fd rd wr indexed|i|e|k renew|]; cbn [websocket_pool.step brings] in *.
  - intros [= <- <-]. split; [|done]. destruct (fetch_token_same i p) as (_ & Hq' & Hw'). split; by rewrite ?Hw', ?Hq'.
  - destruct (fd_ctxes_ p !! i); [|done]. unfold next_token. destruct (fetch_token_same i p) as (_ & Hq' & Hw').
    intros [= <- <-]. split; [|done]. split; cbn; by rewrite ?Hw', ?Hq'.
  - destruct (on_fd_ready _ _ _ _ _ _ i fd rd wr indexed p) as [[p1 out1]|] eqn:Hr; [|done]. intros [= <- <-].
    destruct (ready_from P _ _ _ _ _ _ _ _ Hp Hb Hr) as [Hp' Ho]. split; [done|]. by apply Forall_fmap.
  - unfold on_async_signal. destruct (fd_ctxes_ p !! i) as [ctxes|]; [|done]. destruct (event_queues_ p !! i) as [evs|] eqn:He; [|done].
    pose proof (drain_from P evs (dom ctxes) ctxes (Hq _ _ He)) as Hd. destruct (drain _ _ evs ctxes) as [[ctxes' evs'] outs].
    destruct Hd as [Hl Ho]. intros [= <- <-]. split; [|by apply Forall_fmap]. split; [done|]. cbn. intros j evs1 Hj.
    apply list_lookup_insert_Some in Hj as [(_ & <- & _)|[_ Hj]]; [done|by eapply Hq].
  - intros [= <- <-]. split; [|done]. split; [|done]. cbn. unfold worker_pool.add_event.
    destruct (_ || _); [done|]. destruct (_ <=? _); [done|]. cbn. apply Forall_app. split; [done|].
    apply list.Forall_cons in Hb as [He _]. by constructor.
  - destruct (worker_pool.process_event _ _ k renew _ _) as [[w qs]|] eqn:Hr; [|done]. intros [= <- <-]. split; [|done].
    unfold worker_pool.process_event in Hr.
    destruct (worker_pool.workers _ !! k) as [[fns|]|]; [|by injection Hr as <- <-|by injection Hr as <- <-].
    destruct (worker_pool.event_queue_ (worker_pool_ p)) as [|[e|] queue] eqn:Hev;
      [injection Hr as <- <-; split; cbn; [by rewrite Hev|done]| |].
    + apply list.Forall_cons in Hw as [He Hw]. destruct (worker_pool.run_loops _ _ e _ _) as [qs'|] eqn:Hl; [|done].
      injection Hr as <- <-. split; [done|]. cbn. by eapply run_loops_from.
    + apply list.Forall_cons in Hw as [_ Hw]. injection Hr as <- <-. by split.
  - intros [= <- <-]. split; [|done]. split; [|done]. cbn. by repeat constructor.
Qed.
End pool_origin.

(** ** The two together *)

Section clients.
Context {U : Type -> Type} `{UnorderedMapLaws U} {B : Type} `{CircularBuffer B}.
Variable hash_fn : string -> nat.
Variable split_spaces : list ascii -> list (list ascii).
Variable sha1 : list ascii -> list Z.
Variable uri_unescape : string -> string.
Variable regex_match : string -> string -> result bool.
Variable stod : list ascii -> result double.
Variable toStyledString : gmap string jvalue -> string.

Abbreviation sstep := (server_step (U := U) (B := B) hash_fn split_spaces sha1 uri_unescape regex_match stod toStyledString).
Abbreviation srun := (server_run (U := U) (B := B) hash_fn split_spaces sha1 uri_unescape regex_match stod toStyledString).
Abbreviation wstep := (ws_step (U := U) (B := B) split_spaces sha1 uri_unescape regex_match stod toStyledString).
Abbreviation tell := (notify (U := U) (B := B) split_spaces sha1 uri_unescape regex_match stod toStyledString).
Abbreviation origin v := (from (asked (sys v))).

(** [n]: how many operations of the websocket server there have been. *)
Record server_inv (n : Z) (v : server U B) : Prop := {
  srv_sys : system_from (sys v);
  srv_pool : pool_from (origin v) (ws_server_ v);
  srv_given : Forall (fun o => given_from (origin v) o.2) (ws_outs v);
  srv_inv : pool_inv regex_match stod (ws_server_ v) (ws_outs v);
  srv_tokens : 0 <= websocket_pool.next_token_ (ws_server_ v) <= n
}.

Lemma pool_from_impl (P Q : Event -> Prop) (p : websocket_pool.t B) : (forall e, P e -> Q e) -> pool_from P p -> pool_from Q p.
Proof.
  intros HPQ [Hw Hq]. split.
  - eapply Forall_impl; [|exact Hw]. intros [e|]; [apply HPQ|done].
  - intros i evs Hi. eapply Forall_impl; [|by eapply Hq]. intros ev. apply HPQ.
Qed.

Lemma ws_step_inv o v v' n :
  server_inv n v -> n < 2 ^ 31 - 1 -> Forall (origin v) (brings o) -> wstep o v = Ok v' ->
  server_inv (n + match o with websocket_pool.Publish _ => 0 | _ => 1 end) v' /\ sys v' = sys v.
Proof.
  intros [Hs Hp Hg Hi Ht] Hn Hb. unfold ws_step.
  destruct (websocket_pool.step _ _ _ _ _ _ o (ws_server_ v)) as [[p out]|] eqn:Hst; [|done]. intros [= <-]. cbn [sys]. split; [|done].
  pose proof (pool_step_from _ _ _ _ _ _ _ _ _ _ _ Hp Hb Hst) as [Hp' Ho]. pose proof Hst as Hst'.
  eapply step_inv in Hst as [Hi' Ht']; [|exact Hi|lia].
  split; [exact Hs|exact Hp'|by apply Forall_app|exact Hi'|]. cbn. destruct o; try lia. injection Hst' as <- _. cbn. lia.
Qed.

Lemma notify_inv es : forall v v' n,
  server_inv n v -> n < 2 ^ 31 - 1 -> Forall (origin v) es -> tell es v = Ok v' -> server_inv n v'.
Proof.
  induction es as [|e es IH]; intros v v' n Hv Hn Hes; cbn [notify]; [by intros [= <-]|].
  apply list.Forall_cons in Hes as [He Hes]. destruct (pub_sub.publish _ _) as [[[]|]|]; [|done..].
  destruct (wstep _ v) as [v1|] eqn:Hst; [|done]. cbn [res_bind]. eapply ws_step_inv in Hst as [Hv1 Hs1]; [|done..|by constructor].
  rewrite Z.add_0_r in Hv1. apply IH; [done..|]. by rewrite Hs1.
Qed.

Lemma server_step_inv o v v' n :
  server_inv n v -> n < 2 ^ 31 - 1 -> sstep o v = Ok v' ->
  server_inv (n + match o with SystemOp _ => 0 | _ => 1 end) v'.
Proof.
  intros Hv Hn. pose proof Hv as [Hs Hp Hg Hi Ht].
  destruct o as [o|i|i fd|i fd rd wr|i|k renew|]; cbn [server_step];
    try (intros Hst; eapply ws_step_inv in Hst as [Hv' _]; [exact Hv'|done..|]; try by constructor).
  - destruct (system_step hash_fn o (sys v)) as [y|] eqn:Hy; [|done]. cbn [res_bind].
    apply system_step_from in Hy as [Hy [[xs Ha] [es He]]]; [|done]. rewrite He, drop_app_length, Z.add_0_r.
    assert (forall e, origin v e -> from (asked y) e) as Hmono by (intros e; rewrite Ha; apply from_mono).
    apply notify_inv; [|done|].
    + split; cbn; [exact Hy|by eapply pool_from_impl| |exact Hi|exact Ht].
      eapply Forall_impl; [|exact Hg]. intros [j []]; cbn; [done|apply Hmono].
    + destruct Hy as [_ Hpub]. rewrite He in Hpub. by apply Forall_app in Hpub as [_ Hpub].
  - cbn. apply list.Forall_forall. intros e He. left. destruct Hs as [Hidx _]. by eapply index_events_from.
Qed.

Lemma server_run_inv os : forall v v' n,
  server_inv n v -> n + Z.of_nat (length os) < 2 ^ 31 -> srun os v = Ok v' -> exists m, server_inv m v'.
Proof.
  induction os as [|o os IH]; intros v v' n Hv Hn; cbn [server_run]; [intros [= <-]; by exists n|].
  cbn [length] in Hn. destruct (sstep o v) as [v1|] eqn:Hst; [|done]. cbn [res_bind].
  eapply server_step_inv in Hst; [|done|lia]. eapply IH; [done|]. destruct o; lia.
Qed.

Lemma server_new_inv k s x v : server_new (U := U) (B := B) k s x = Some v -> server_inv 0 v.
Proof.
  intros [= <-]. split; cbn.
  - split; cbn; [apply index_from_new|done].
  - split; cbn; [done|]. intros i evs Hi. by apply lookup_replicate in Hi as [-> _].
  - done.
  - apply new_inv.
  - change (0 <= 0 <= 0). lia.
Qed.

End clients.

(** ** A concrete run *)

(** A client asks for [metric<1.5]; one event is indexed before, one after; the second
    is reported by the timer, and a third does not satisfy the query. *)
Definition client_ops : list server_op :=
  let request := upgrade "/index?query=metric<1.5" in
  [ SystemOp (Message 2 [index_event "a" 1 120]); NewCnx 0 5; FdReady 0 5 (Some (Some request)) None
  ; SystemOp (Message 3 [index_event "b" 1 10]); Work 0 true
  ; SystemOp (Message 4 [Event.set_metric_d (d_of_Z 7) (index_event "c" 1 120)]) ]
  ++ (SystemOp <$> full_pass 50) ++ repeat (Work 0 false) 3 ++ [AsyncSignal 0].

Abbreviation sample_srun := (server_run (U := hash_map) (B := ring) String.length (split_on_spaces []) (fun _ => repeat 7 20)
  (fun s => s) (fun _ _ => Ok false) (fun _ => Ok d_zero) (fun _ => "event")).

