(* ===== verification/EndToEnd.v ===== *)
(** * From the sockets of senders to websocket clients

    [src/core/real_core.cpp]: the TCP and UDP servers and the executor ([Core]), and the rules, the index and the
    websocket server ([Subscriptions]), run as one process.

    A message goes through the rules, and what they ask for is done, in one step; the steps of all parts come
    in any order.  Events of the instrumentation are left to [Metrics]. *)

From S2P Require Import Prelude Ieee Containers Events Infra Predicates Dispatch ThreadPools Codec Tcp WebSocket Query TcpPool RiemannPool Core External Index System WsPool Subscriptions.

Local Open Scope Z_scope.

(** ** The process *)

Section whole.
Context {U : Type -> Type} `{UnorderedMap U} {B : Type} `{CircularBuffer B}.
Variable hash_fn : string -> nat.
Variable split_spaces : list ascii -> list (list ascii).
Variable sha1 : list ascii -> list Z.
Variable uri_unescape : string -> string.
Variable regex_match : string -> string -> result bool.
Variable stod : list ascii -> result double.
Variable toStyledString : gmap string jvalue -> string.
Variable msg_ok : list Z.
Variable parse_msg : list Z -> option (bool * list Event).

Abbreviation sstep := (server_step (U := U) (B := B) hash_fn split_spaces sha1 uri_unescape regex_match stod toStyledString).

(** The senders' side, the messages that were given to the rules (as in [Core]), and the clients' side. *)
Record whole : Type := MkWhole {
  p_tcp : tcp_pool.t B (gmap Z riemann_tcp_pool.conn_data);
  p_executor : executor_thread_pool.t (list Z);
  p_outs : list (nat * server_out);
  p_handled : list (clock * bool * list Z);
  p_server : server U B
}.
Definition whole_new (riemann_tcp_pool_size executor_pool_size : nat) (v : server U B) : whole :=
  MkWhole (riemann_tcp_pool.new riemann_tcp_pool_size) (executor_thread_pool.new executor_pool_size) [] [] v.

Definition returned {A} (r : result A) : option A := match r with Ok a => Some a | Throw _ => None end.

(** [incoming_event], and what the rules do with the events. *)
Definition incoming (now : clock) (tcp : bool) (raw : list Z) (w : whole) : result whole :=
  res_map (MkWhole (p_tcp w) (p_executor w) (p_outs w) (p_handled w ++ [(now, tcp, raw)]))
    (match parse_msg raw with
     | Some (false, events) => sstep (SystemOp (Message now events)) (p_server w)
     | _ => Ok (p_server w)
     end).

Fixpoint incoming_all (now : clock) (msgs : list (list Z)) (w : whole) : result whole :=
  match msgs with
  | [] => Ok w
  | m :: msgs' => res_bind (incoming_all now msgs') (incoming now false m w)
  end.

Inductive whole_op : Type :=
| Front (o : core_op)
| Inner (o : server_op).

(** [None]: it cannot happen now, or it ends the process.  Messages come from the senders only. *)
Definition whole_step (o : whole_op) (w : whole) : option whole :=
  match o with
  | Front (TcpServer o) =>
      match riemann_tcp_pool.step msg_ok o (p_tcp w) with
      | Throw _ => None
      | Ok (p, out) =>
          ex ← income_tcp_events (all_messages out) (p_executor w);
          Some (MkWhole p ex (p_outs w ++ out) (p_handled w) (p_server w))
      end
  | Front (TakeTask i) =>
      ex ← executor_thread_pool.take_task i (p_executor w);
      Some (MkWhole (p_tcp w) ex (p_outs w) (p_handled w) (p_server w))
  | Front (EndTask i now) =>
      match executor_thread_pool.running (p_executor w) !! i with
      | Some (Some raw) =>
          ex ← executor_thread_pool.end_task i (p_executor w);
          returned (incoming now true raw (MkWhole (p_tcp w) ex (p_outs w) (p_handled w) (p_server w)))
      | _ => None
      end
  | Front (Datagram error recvfrom now) =>
      msgs ← returned (udp_pool.socket_callback error recvfrom);
      returned (incoming_all now msgs w)
  | Inner (SystemOp (Message _ _)) => None
  | Inner o =>
      v ← returned (sstep o (p_server w));
      Some (MkWhole (p_tcp w) (p_executor w) (p_outs w) (p_handled w) v)
  end.
Fixpoint whole_run (ops : list whole_op) (w : whole) : option whole :=
  match ops with [] => Some w | o :: ops' => w ← whole_step o w; whole_run ops' w end.
End whole.
Arguments whole : clear implicits.

(** ** The two sides *)

Definition message_part (o : system_op) : option (clock * list Event) :=
  match o with Message now es => Some (now, es) | _ => None end.
Definition message_of (o : server_op) : option (clock * list Event) :=
  match o with SystemOp o => message_part o | _ => None end.
Definition system_part (o : server_op) : option system_op := match o with SystemOp o => Some o | _ => None end.

Section both.
Context {U : Type -> Type} `{UnorderedMapLaws U} {B : Type} `{CircularBufferLaws B}.
Variable hash_fn : string -> nat.
Variable split_spaces : list ascii -> list (list ascii).
Variable sha1 : list ascii -> list Z.
Variable uri_unescape : string -> string.
Variable regex_match : string -> string -> result bool.
Variable stod : list ascii -> result double.
Variable toStyledString : gmap string jvalue -> string.
Variable msg_ok : list Z.
Variable parse_msg : list Z -> option (bool * list Event).

Abbreviation sstep := (server_step (U := U) (B := B) hash_fn split_spaces sha1 uri_unescape regex_match stod toStyledString).
Abbreviation srun := (server_run (U := U) (B := B) hash_fn split_spaces sha1 uri_unescape regex_match stod toStyledString).
Abbreviation tell := (notify (U := U) (B := B) split_spaces sha1 uri_unescape regex_match stod toStyledString).
Abbreviation incoming := (incoming (U := U) (B := B) hash_fn split_spaces sha1 uri_unescape regex_match stod toStyledString parse_msg).
Abbreviation incoming_all := (incoming_all (U := U) (B := B) hash_fn split_spaces sha1 uri_unescape regex_match stod toStyledString parse_msg).
Abbreviation pstep := (whole_step (U := U) (B := B) hash_fn split_spaces sha1 uri_unescape regex_match stod toStyledString msg_ok parse_msg).
Abbreviation prun := (whole_run (U := U) (B := B) hash_fn split_spaces sha1 uri_unescape regex_match stod toStyledString msg_ok parse_msg).

(** The clients' side has made [n] steps at most, among them, in order, those of the messages handled. *)
Definition inner_inv (n : nat) (v0 v : server U B) (h : list (clock * bool * list Z)) : Prop :=
  exists os, srun os v0 = Ok v /\ (length os <= n)%nat /\ omap message_of os = parsed parse_msg h.

Record whole_inv (m n : nat) (v0 : server U B) (w : whole U B) : Prop := {
  pi_front : front_inv msg_ok m (p_tcp w) (p_executor w) (p_outs w) (p_handled w);
  pi_inner : inner_inv n v0 (p_server w) (p_handled w)
}.

Lemma res_map_Ok {X Y} (f : X -> Y) r y : res_map f r = Ok y -> exists x, r = Ok x /\ y = f x.
Proof. destruct r as [x|]; [|done]. intros [= <-]. by exists x. Qed.

Lemma server_run_snoc o : forall os v v1, srun os v = Ok v1 -> srun (os ++ [o]) v = sstep o v1.
Proof.
  induction os as [|o' os IH]; intros v v1; cbn [app server_run].
  - intros [= <-]. by destruct (sstep o v).
  - destruct (sstep o' v) as [v2|]; [|done]. apply IH.
Qed.

Lemma inner_step n v0 v v' h o :
  inner_inv n v0 v h -> message_of o = None -> sstep o v = Ok v' -> inner_inv (S n) v0 v' h.
Proof.
  intros (os & Hr & Hn & Ho) Hm Hs. exists (os ++ [o]). rewrite (server_run_snoc _ _ _ _ Hr), length_app, omap_app, Ho.
  split; [done|]. cbn. rewrite Hm, app_nil_r. split; [lia|done].
Qed.

Lemma inner_mono n v0 v h : inner_inv n v0 v h -> inner_inv (S n) v0 v h.
Proof. intros (os & Hr & Hn & Ho). exists os. split_and!; [done|lia|done]. Qed.

Lemma incoming_inv m n v0 now tcp raw (w w' : whole U B) :
  front_inv msg_ok m (p_tcp w) (p_executor w) (p_outs w) (p_handled w ++ [(now, tcp, raw)]) ->
  inner_inv n v0 (p_server w) (p_handled w) -> incoming now tcp raw w = Ok w' -> whole_inv m (S n) v0 w'.
Proof.
  intros Hf Hi. unfold EndToEnd.incoming. intros Hin.
  apply res_map_Ok in Hin as (v' & Hv & ->). split; [done|]. cbn [p_server p_handled]. destruct Hi as (os & Hr & Hn & Ho).
  assert (parsed parse_msg (p_handled w ++ [(now, tcp, raw)])
    = omap message_of os ++ match parse_msg raw with Some (false, es) => [(now, es)] | _ => [] end) as Hp.
  { unfold parsed in *. rewrite omap_app, Ho. cbn. by destruct (parse_msg raw) as [[[] es]|]. }
  destruct (parse_msg raw) as [[[] es]|]; [injection Hv as <-| |injection Hv as <-].
  1, 3: exists os; rewrite Hp, app_nil_r; split_and!; [done|lia|done].
  exists (os ++ [SystemOp (Message now es)]). rewrite (server_run_snoc _ _ _ _ Hr), length_app, omap_app, Hp.
  split_and!; [done|cbn; lia|done].
Qed.

Lemma whole_step_inv m n v0 o w w' : whole_inv m n v0 w -> pstep o w = Some w' -> whole_inv m (S n) v0 w'.
Proof.
  intros [Hf Hi]. destruct o as [[o|i|i now|error recv now]|o]; cbn [whole_step].
  - destruct (riemann_tcp_pool.step msg_ok o (p_tcp w)) as [[p out]|] eqn:Hst; [|done].
    destruct (income_tcp_events (all_messages out) (p_executor w)) as [ex|] eqn:Hin; [|done].
    cbn [mbind option_bind]. intros [= <-]. split; [by eapply front_tcp|by apply inner_mono].
  - destruct (executor_thread_pool.take_task i (p_executor w)) as [ex|] eqn:Ht; [|done].
    cbn [mbind option_bind]. intros [= <-]. split; [by eapply front_take|by apply inner_mono].
  - destruct (executor_thread_pool.running (p_executor w) !! i) as [[raw|]|] eqn:Hr; [|done..].
    destruct (executor_thread_pool.end_task i (p_executor w)) as [ex|] eqn:He; [|done]. cbn [mbind option_bind].
    destruct (incoming now true raw _) as [w1|] eqn:Hin; [|done]. intros [= <-].
    eapply incoming_inv; [| |exact Hin]; [by eapply front_end|done].
  - unfold udp_pool.socket_callback. destruct error; [|destruct recv as [d|]; [|done]]; cbn.
    { intros [= <-]. split; [done|by apply inner_mono]. }
    destruct (incoming now false _ w) as [w1|] eqn:Hin; [|done]. cbn. intros [= <-].
    eapply incoming_inv; [| |exact Hin]; [by apply front_udp|done].
  - intros Hs. assert (message_of o = None /\ exists v, sstep o (p_server w) = Ok v
      /\ w' = MkWhole (p_tcp w) (p_executor w) (p_outs w) (p_handled w) v) as (Hm & v & Hv & ->).
    { destruct o as [[]| | | | | |]; try discriminate Hs; (split; [done|]); destruct (sstep _ _) as [v|]; try discriminate Hs;
        injection Hs as <-; by exists v. }
    split; [done|]. by eapply inner_step.
Qed.

Lemma whole_run_inv ops : forall m n v0 w w',
  whole_inv m n v0 w -> prun ops w = Some w' -> whole_inv m (length ops + n) v0 w'.
Proof.
  induction ops as [|o ops IH]; intros m n v0 w w' Hw; cbn [whole_run]; [by intros [= <-]|].
  destruct (pstep o w) as [w1|] eqn:Hs; [|done]. cbn [mbind option_bind length]. intros Hr.
  replace (S (length ops) + n)%nat with (length ops + S n)%nat by lia. eapply IH; [by eapply whole_step_inv|done].
Qed.

Lemma whole_new_inv n m v0 : whole_inv m 0 v0 (whole_new n m v0).
Proof. split; [apply front_new|by exists []]. Qed.

(** The rules and the index do not depend on the clients. *)
Lemma notify_sys es : forall v v', tell es v = Ok v' -> sys v' = sys v.
Proof.
  induction es as [|e es IH]; intros v v'; cbn [notify]; [by intros [= <-]|].
  destruct (pub_sub.publish _ _) as [[[]|]|]; [|done..]. unfold ws_step at 1.
  destruct (websocket_pool.step _ _ _ _ _ _ _ _) as [[p out]|]; [|done]. cbn [res_map res_bind]. intros Hn. by apply IH in Hn.
Qed.

Lemma server_run_sys os : forall v v', srun os v = Ok v' -> system_run hash_fn (omap system_part os) (sys v) = Ok (sys v').
Proof.
  induction os as [|o os IH]; intros v v'; cbn [server_run]; [by intros [= <-]|].
  destruct (sstep o v) as [v1|] eqn:Hs; [|done]. cbn [res_bind]. intros Hr%IH. revert Hs.
  destruct o as [o|i|i fd|i fd rd wr|i|k renew|]; cbn [server_step omap list_omap system_part];
    try (unfold ws_step; destruct (websocket_pool.step _ _ _ _ _ _ _ _) as [[p out]|]; [|done]; intros [= <-]; exact Hr).
  cbn [system_run]. destruct (system_step hash_fn o (sys v)) as [y|]; [|done]. cbn [res_bind]. intros Hn%notify_sys. by rewrite <- Hr, Hn.
Qed.

Lemma system_part_messages (os : list server_op) : omap message_part (omap system_part os) = omap message_of os.
Proof. induction os as [|[o| | | | | |] os IH]; [done| |exact IH..]. csimpl. by rewrite IH. Qed.

(** What is indexed is what the messages hold. *)
Lemma indexed_handled (os : list system_op) h e :
  omap message_part os = parsed parse_msg h -> e ∈ os ≫= indexed_by ->
  exists now tcp raw es e0, (now, tcp, raw) ∈ h /\ parse_msg raw = Some (false, es) /\ e0 ∈ es
    /\ predicates.expired now (stamp now e0) = false /\ e = stamp now e0.
Proof.
  intros Hp (o & He & Ho)%list_elem_of_bind. destruct o as [now es|now| |now]; cbn in He; try by apply not_elem_of_nil in He.
  assert ((now, es) ∈ parsed parse_msg h) as Hin by (rewrite <- Hp; apply list_elem_of_omap; by eexists).
  apply list_elem_of_omap in Hin as ([[now' tcp] raw] & Hh & Hraw). cbn in Hraw.
  destruct (parse_msg raw) as [[[] es']|] eqn:Hparse; try discriminate Hraw. injection Hraw as -> ->.
  apply list_elem_of_bind in He as (e0 & He & He0). exists now, tcp, raw, es, e0. unfold additions in He.
  destruct (predicates.expired now (stamp now e0)); [by apply not_elem_of_nil in He|].
  apply list_elem_of_singleton in He. done.
Qed.

(** What the clients' side holds, with rules that index what they get. *)
Lemma inner_indexed n k x v0 v h :
  server_new k indexing x = Some v0 -> inner_inv n v0 v h -> Z.of_nat n < 2 ^ 31 ->
  exists (os : list system_op) c, omap message_part os = parsed parse_msg h
  /\ index_ (sys v) = (real_index.run hash_fn (os ≫= index_ops) real_index.new).1
  /\ asked (sys v) = EIndex <$> (os ≫= indexed_by)
  /\ server_inv regex_match stod c v.
Proof.
  intros Hnew (os & Hr & Hn & Ho) Hlt. pose proof (server_new_inv regex_match stod k indexing x v0 Hnew) as Hinv.
  eapply server_run_inv in Hinv as [c Hc]; [| |exact Hr]; [|lia]. pose proof (server_run_sys _ _ _ Hr) as Hsys.
  assert (sys v0 = system_new indexing x) as Hs0 by (by injection Hnew as <-). rewrite Hs0 in Hsys.
  destruct (indexing_run hash_fn (omap system_part os) (system_new (U := U) indexing x) eq_refl) as (y & Hy & Hi & Ha).
  rewrite Hsys in Hy. injection Hy as ->. exists (omap system_part os), c. by rewrite system_part_messages.
Qed.

End both.

(** ** A run *)

(** A client asks for [metric<1.5]; two senders, over TCP and by a datagram, send an event each, and a third message
    does not parse.  The worker takes the second event before it knows of the client; the client gets the first, and the notice
    that the second has expired. *)
Definition sender_parse (raw : list Z) : option (bool * list Event) :=
  match raw with
  | [10; 1] => Some (false, [index_event "a" 1 120])
  | [10; 2] => Some (false, [index_event "b" 1 10])
  | _ => None
  end.
Definition whole_ops : list whole_op :=
  [ Inner (NewCnx 0 5); Inner (FdReady 0 5 (Some (Some (upgrade "/index?query=metric<1.5"))) None)
  ; Front (TcpServer (riemann_tcp_pool.AddClient 7)); Front (TcpServer (riemann_tcp_pool.Async 0))
  ; Front (TcpServer (riemann_tcp_pool.Ready 0 7 (sample_ready [0; 0; 0; 2; 10; 1; 0; 0; 0; 1; 9])))
  ; Front (Datagram false (Some [10; 2]) 2); Front (TakeTask 1); Front (TakeTask 0); Front (EndTask 1 2); Front (EndTask 0 3) ]
  ++ (Inner ∘ SystemOp <$> full_pass 50) ++ [Inner (Work 0 true)] ++ repeat (Inner (Work 0 false)) 3 ++ [Inner (AsyncSignal 0)].

Abbreviation sample_prun := (whole_run (U := hash_map) (B := ring) String.length (split_on_spaces []) (fun _ => repeat 7 20)
  (fun s => s) (fun _ _ => Ok false) (fun _ => Ok d_zero) (fun _ => "event") [16; 1] sender_parse).

