(* ===== verification/RuleTester.v ===== *)
(** * The rule tester

    [src/rule_tester.cpp] and [src/rule_tester_util.cpp], with [src/index/mock_index.cpp] and
    [src/core/mock_core.cpp]: events are read from a text, sorted by their times and pushed
    through the streams of the libraries in a directory, with a clock that follows the events;
    what the streams sent to the index and to external services is printed.

    JsonCpp is outside: reading a text and the tests and conversions of its values are variables,
    and what is printed is the value that is built for it. *)

From S2P Require Import Prelude Ieee Containers Events Infra Predicates Aggregates Streams Scheduler Dispatch External.

Local Open Scope Z_scope.

(** ** Reading events *)

(** [std::stable_sort] with [compare_time_events]. *)
Fixpoint insert_event (e : Event) (l : list Event) : list Event :=
  match l with
  | [] => [e]
  | e' :: l' => if Event.time e' <? Event.time e then e' :: insert_event e l' else e :: l
  end.
Definition stable_sort (l : list Event) : list Event := foldr insert_event [] l.

(** What is used of [Json::Value]; conversions may throw. *)
Class JsonValue (V : Type) : Type := {
  isString : V -> bool;
  isDouble : V -> bool;
  isIntegral : V -> bool;
  asString : V -> result string;
  asDouble : V -> result double;
  asInt : V -> result Z;
  values : V -> list V;                        (** what [begin] and [end] enumerate *)
  members : V -> result (list (string * V))    (** [getMemberNames] with the values *)
}.

Section read.
Context {V : Type} `{JsonValue V}.
Variable parse : string -> option V.

Fixpoint add_tags (tags : list V) (event : Event) : result Event :=
  match tags with
  | [] => Ok event
  | tag :: tags' => res_bind (fun s => add_tags tags' (Event.add_tag s event)) (asString tag)
  end.

Definition set_member (m : string) (v : V) (event : Event) : result Event :=
  if decide (m = "tags") then add_tags (values v) event
  else if isString v then res_map (fun s => set_event_value m (CVString s) true event) (asString v)
  else if isDouble v then res_map (fun d => set_event_value m (CVDouble d) true event) (asDouble v)
  else if isIntegral v then res_map (fun i => set_event_value m (CVInt i) true event) (asInt v)
  else Ok event.

Fixpoint set_members (ms : list (string * V)) (event : Event) : result Event :=
  match ms with
  | [] => Ok event
  | (m, v) :: ms' => res_bind (set_members ms') (set_member m v event)
  end.

Fixpoint to_events (l : list V) : result (list Event) :=
  match l with
  | [] => Ok []
  | v :: l' =>
      res_bind (fun ms => res_bind (fun e => res_map (cons e) (to_events l')) (set_members ms Event.empty))
        (members v)
  end.

(** A text that cannot be parsed ends the program, so that [ok] is never false. *)
Definition json_to_events (json : string) : result (list Event) :=
  match parse json with
  | None => Throw (user_exception "FATAL")
  | Some root => res_map stable_sort (to_events (values root))
  end.
End read.

(** ** The mock core *)

(** A periodic task: the slot of its library and its place there. *)
Definition task : Type := nat * list hop.

Record world : Type := MkWorld {
  slots : list stream_lib;
  events_ : list (Z * Event);                       (** of [mock_index] *)
  calls_ : list mock_external.external_event_t;     (** of [mock_external] *)
  thrown : option exn                               (** what ended the program *)
}.

Definition set_slot (i : nat) (s : stream_lib) (w : world) : world :=
  MkWorld (<[i := s]> (slots w)) (events_ w) (calls_ w) (thrown w).
Definition set_thrown (x : exn) (w : world) : world :=
  MkWorld (slots w) (events_ w) (calls_ w) (Some x).
(** [mock_index::add_event]. *)
Definition add_event (now : Z) (e : Event) (w : world) : world :=
  MkWorld (slots w) (events_ w ++ [(now, e)]) (calls_ w) (thrown w).
Definition call (f : list mock_external.external_event_t -> list mock_external.external_event_t) (w : world)
  : world := MkWorld (slots w) (events_ w) (f (calls_ w)) (thrown w).

(** What a stream asks of the core.  Tasks go to the scheduler. *)
Definition perform (i : nat) (now : Z) (x : effect) (w : world) : world * list (add_call task) :=
  match x with
  | EPrn _ _ => (w, [])
  | EIndex e => (add_event now e w, [])
  | EGraphite host port e => (call (mock_external.graphite now host port e) w, [])
  | EForward host port e => (call (mock_external.forward now host port e) w, [])
  | EEmail server from to e => (call (mock_external.email now server from to e) w, [])
  | EPagerduty action key e =>
      (call (if decide (action = "trigger") then mock_external.pager_duty_trigger now key e
             else if decide (action = "resolve") then mock_external.pager_duty_resolve now key e
             else mock_external.pager_duty_acknowledge now key e) w, [])
  | EAddPeriodicTask path interval => (w, [MkAdd false (f_of_Z interval) (i, path)])
  end.
Fixpoint perform_all (i : nat) (now : Z) (xs : list effect) (w : world) : world * list (add_call task) :=
  match xs with
  | [] => (w, [])
  | x :: xs' =>
      let '(w, adds) := perform i now x w in
      let '(w, adds') := perform_all i now xs' w in (w, adds ++ adds')
  end.

(** Running something on the stream of a slot.  Nothing catches an exception. *)
Definition on_slot {A} (i : nat) (now : Z) (m : forall c, M (chain_state c) A) (w : world)
  : world * list (add_call task) :=
  match thrown w, slots w !! i with
  | None, Some s =>
      match stream s with
      | None => (set_thrown undefined_behaviour w, [])
      | Some l =>
          let '(st, xs, r) := m (l_chain l) now (l_state l) in
          let '(w, adds) := perform_all i now xs (set_slot i (set_stream (MkLoaded (l_chain l) st) s) w) in
          (match r with Ok _ => w | Throw x => set_thrown x w end, adds)
      end
  | _, _ => (w, [])
  end.

Definition run_task (k : task) (now : Z) (w : world) : world * list (add_call task) :=
  on_slot k.1 now (fun c => chain_timer c k.2) w.

(** ** The main loop *)

(** The loop over the streams, from slot [i] on. *)
Fixpoint push_from (now : Z) (e : Event) (n i : nat) (w : world) : world * list (add_call task) :=
  match n with
  | O => (w, [])
  | S n' =>
      let '(w, adds) :=
        match slots w !! i with
        | Some s => if used s then on_slot i now (fun c => chain_push c e) w else (w, [])
        | None => (w, [])
        end in
      let '(w, adds') := push_from now e n' (S i) w in (w, adds ++ adds')
  end.
Definition push_all (now : Z) (e : Event) (w : world) : world * list (add_call task) :=
  push_from now e (length (slots w)) 0 w.

Section main.
Context {Q : Type -> Type} `{PriorityQueue Q}.

Fixpoint replay (fuel : nat) (events : list Event) (sched : mock_scheduler.t Q task) (w : world)
  : option (mock_scheduler.t Q task * world) :=
  match events with
  | [] => Some (sched, w)
  | e :: events' =>
      match mock_scheduler.set_time run_task fuel (Event.time e) sched w with
      | None => None
      | Some (sched, w) =>
          let '(w, adds) := push_all (mock_scheduler.unix_time sched) e w in
          replay fuel events' (foldl mock_scheduler.add sched adds) w
      end
  end.

(** The tasks that the streams register when the libraries are loaded, at time 0; the
    libraries are in the order in which they were loaded. *)
Fixpoint init_slots (i : nat) (ss : list stream_lib) (w : world) : world * list (add_call task) :=
  match ss with
  | [] => (w, [])
  | s :: ss' =>
      let '(w, adds) :=
        match used s, stream s with
        | true, Some l => perform_all i 0 (chain_init 0 (l_chain l) 0).2 w
        | _, _ => (w, [])
        end in
      let '(w, adds') := init_slots (S i) ss' w in (w, adds ++ adds')
  end.

Definition k_tester_streams : nat := 100.

Variable open_library : string -> Z -> option (list stream_node_t).

(** [main] after the events are read; [None] when the fuel runs out, and the exit code when there is
    no library in the first slot. *)
Definition rule_tester (fuel : nat) (dir : list (string * Z)) (events : list Event)
  : option (world + Z) :=
  let ss := load_rules open_library (fun _ => true) 0 dir (replicate k_tester_streams empty_slot) in
  match ss !! 0%nat with
  | Some s =>
      if used s then
        let '(w, adds) := init_slots 0 ss (MkWorld ss [] [] None) in
        (fun r => inl r.2) <$> replay fuel events (foldl mock_scheduler.add mock_scheduler.empty adds) w
      else Some (inr (-1))
  | None => Some (inr (-1))
  end.
End main.

(** ** Printing *)

Definition event_to_jsoncpp (e : Event) : gmap string jvalue :=
  <["tags" := JStrings (p_tags e)]>
  (<["state" := JString (Event.state e)]>
  (<["time" := JUInt64 (Event.time e mod two64)]>
  (<["metric" := JDouble (Event.metric e)]>
  (<["state" := JString (Event.state e)]>
  (<["description" := JString (Event.description e)]>
  (<["service" := JString (Event.service e)]>
  (<["host" := JString (Event.host e)]> ∅))))))).

(** An object with the members [time] and [event]. *)
Definition index_event_to_json (x : Z * Event) : jvalue * gmap string jvalue :=
  (JUInt64 (x.1 mod two64), event_to_jsoncpp x.2).
Definition index_to_json (l : list (Z * Event)) : list (jvalue * gmap string jvalue) :=
  index_event_to_json <$> l.

(** A pair of the method and an object with the members [time], [message] and [extra], and [event]. *)
Definition external_event_to_json (c : mock_external.external_event_t)
  : string * gmap string jvalue * gmap string jvalue :=
  (mock_external.external_method c,
   <["extra" := JString (mock_external.extra c)]>
   (<["message" := JString (mock_external.message c)]>
   (<["time" := JUInt64 (mock_external.time c mod two64)]> ∅)),
   event_to_jsoncpp (mock_external.e c)).

(** The members [reports] and [index]. *)
Definition results (index_events : list (Z * Event)) (calls : list mock_external.external_event_t) :=
  (external_event_to_json <$> calls, index_to_json index_events).

(** ** The order of the events *)

Lemma insert_event_perm e l : insert_event e l ≡ₚ e :: l.
Proof.
  induction l as [|x l IH]; simpl; [done|]. case_match; [|done]. by rewrite IH, Permutation_swap.
Qed.
Lemma stable_sort_events l : stable_sort l ≡ₚ l.
Proof. induction l as [|e l IH]; simpl; [done|]. by rewrite insert_event_perm, IH. Qed.

Lemma insert_event_sorted e l :
  StronglySorted (fun a b => Event.time a <= Event.time b) l ->
  StronglySorted (fun a b => Event.time a <= Event.time b) (insert_event e l).
Proof.
  induction 1 as [|x l Hl IH Hx]; simpl; [by repeat constructor|]. case_match; bool_to_prop.
  - constructor; [done|]. rewrite insert_event_perm. constructor; [lia|done].
  - constructor; [by constructor|]. constructor; [lia|].
    eapply Forall_impl; [|exact Hx]. simpl. lia.
Qed.
Lemma sort_sorted l : StronglySorted (fun a b => Event.time a <= Event.time b) (stable_sort l).
Proof. induction l; simpl; [constructor|by apply insert_event_sorted]. Qed.

Lemma insert_event_stable t e l :
  filter (fun x => Event.time x = t) (insert_event e l) = filter (fun x => Event.time x = t) (e :: l).
Proof.
  induction l as [|x l IH]; [done|]. simpl insert_event. case_match; bool_to_prop; [|done].
  rewrite (filter_cons _ x), IH, !filter_cons. repeat case_decide; try done. lia.
Qed.

(** The events that are replayed are those of the text, earlier ones first and those of the
    same time in the order of the text. *)
Theorem events_replayed {V : Type} `{JsonValue V} (parse : string -> option V) (json : string) (es : list Event) :
  json_to_events parse json = Ok es ->
  exists root es0, parse json = Some root /\ to_events (values root) = Ok es0
  /\ es ≡ₚ es0
  /\ StronglySorted (fun a b => Event.time a <= Event.time b) es
  /\ (forall t, filter (fun e => Event.time e = t) es = filter (fun e => Event.time e = t) es0).
Proof.
  unfold json_to_events. destruct (parse json) as [root|]; [|done].
  destruct (to_events (values root)) as [es0|] eqn:He; [|done]. intros [= <-].
  exists root, es0. do 2 (split; [done|]). split; [apply stable_sort_events|].
  split; [apply sort_sorted|]. intros t. clear He.
  induction es0 as [|e es0 IH]; [done|]. simpl stable_sort. rewrite insert_event_stable.
  rewrite !filter_cons, IH. done.
Qed.

(** ** Streams that register tasks with reasonable periods *)

Section periods.
Variable p_max : Z.

Definition effect_ok (x : effect) : Prop :=
  match x with EAddPeriodicTask _ i => 1 <= i64_of_sf (f_of_Z i) <= p_max | _ => True end.
Definition comp_ok {S A} (m : M S A) : Prop := forall now s, Forall effect_ok (m now s).1.2.

Record machine_ok (m : machine) : Prop := {
  mo_init : forall now, Forall effect_ok (m_init m now).2;
  mo_event : forall e, comp_ok (m_event m e);
  mo_timer : forall p, comp_ok (m_timer m p)
}.

Lemma at_hop_ok h w : Forall effect_ok w -> Forall effect_ok (at_hop h <$> w).
Proof. intros Hw. apply Forall_fmap. eapply Forall_impl; [|exact Hw]. by intros [] Hx. Qed.

Lemma ret_ok {S A} (a : A) : comp_ok (ret (S := S) a).
Proof. intros now s. constructor. Qed.
Lemma bind_ok {S A B} (m : M S A) (f : A -> M S B) :
  comp_ok m -> (forall a, comp_ok (f a)) -> comp_ok (bind m f).
Proof.
  intros Hm Hf now s. specialize (Hm now s). unfold bind. destruct (m now s) as [[s1 w1] [a|x]]; [|done].
  specialize (Hf a now s1). destruct (f a now s1) as [[s2 w2] r]. by apply Forall_app.
Qed.
Lemma on_fst_ok {S T A} (m : M S A) : comp_ok m -> comp_ok (on_fst (T := T) m).
Proof. intros Hm now [s t]. specialize (Hm now s). unfold on_fst. cbn [fst]. by destruct (m now s) as [[? ?] ?]. Qed.
Lemma on_snd_ok {S T A} (m : M T A) : comp_ok m -> comp_ok (on_snd (S := S) m).
Proof. intros Hm now [s t]. specialize (Hm now t). unfold on_snd. cbn [snd]. by destruct (m now t) as [[? ?] ?]. Qed.
Lemma below_ok {S A} h (m : M S A) : comp_ok m -> comp_ok (below h m).
Proof.
  intros Hm now s. specialize (Hm now s). unfold below. destruct (m now s) as [[? w] ?]. by apply at_hop_ok.
Qed.
Lemma concatM_ok {S A B} (f : A -> M S (list B)) l : (forall a, comp_ok (f a)) -> comp_ok (concatM f l).
Proof.
  intros Hf. induction l as [|a l IH]; [apply ret_ok|]. apply bind_ok; [done|]. intros b.
  apply bind_ok; [done|]. intros bs. apply ret_ok.
Qed.
Lemma forM_ok {S A} (f : A -> M S unit) l : (forall a, comp_ok (f a)) -> comp_ok (forM f l).
Proof. intros Hf. induction l as [|a l IH]; [apply ret_ok|]. by apply bind_ok. Qed.

Lemma chain_init_ok i c now : Forall machine_ok c -> Forall effect_ok (chain_init i c now).2.
Proof.
  revert i. induction c as [|m c IH]; intros i Hc; cbn [chain_init]; [constructor|].
  apply Forall_cons_iff in Hc as [Hm Hc]. specialize (IH (S i) Hc).
  destruct (chain_init (S i) c now) as [s' w']. pose proof (mo_init m Hm now) as Hi.
  destruct (m_init m now) as [s w]. apply Forall_app. split; [done|by apply at_hop_ok].
Qed.

Lemma push_loop_ok c : Forall machine_ok c -> forall i e next, comp_ok (push_loop i c e next).
Proof.
  induction c as [|m c IH]; intros Hc i e next; [apply ret_ok|].
  apply Forall_cons_iff in Hc as [Hm Hc]. cbn [push_loop]. apply bind_ok.
  - apply on_fst_ok, below_ok. destruct next; [apply Hm|]. apply concatM_ok, Hm.
  - intros [|x l]; [apply ret_ok|]. by apply on_snd_ok, IH.
Qed.
Lemma chain_push_ok c e : Forall machine_ok c -> comp_ok (chain_push c e).
Proof. intros Hc. by apply push_loop_ok. Qed.

Lemma chain_timer_ok c p : Forall machine_ok c -> comp_ok (chain_timer c p).
Proof.
  intros Hc. unfold chain_timer. destruct p as [|[i| | |] p]; try apply ret_ok. generalize 0%nat as j.
  induction c as [|m c IH]; intros j; cbn [chain_timer_at]; [apply ret_ok|].
  apply Forall_cons_iff in Hc as [Hm Hc]. case_decide; [apply on_fst_ok, below_ok, Hm|by apply on_snd_ok, IH].
Qed.

(** ** Worlds *)

Definition slot_ok (s : stream_lib) : Prop :=
  match stream s with Some l => Forall machine_ok (l_chain l) | None => True end.
Definition world_ok (w : world) : Prop := Forall slot_ok (slots w).

Lemma perform_ok i now x w :
  effect_ok x -> slots (perform i now x w).1 = slots w /\ adds_ok p_max (perform i now x w).2.
Proof. intros Hx. destruct x; (split; [reflexivity|]); try constructor; [exact Hx|constructor]. Qed.

Lemma perform_all_ok i now xs w :
  Forall effect_ok xs -> slots (perform_all i now xs w).1 = slots w /\ adds_ok p_max (perform_all i now xs w).2.
Proof.
  intros Hxs. revert w. induction Hxs as [|x xs Hx _ IH]; intros w; cbn [perform_all]; [by split; [|constructor]|].
  destruct (perform_ok i now x w Hx) as [H1 H2]. destruct (perform i now x w) as [w1 a1]. cbn [fst snd] in *.
  destruct (IH w1) as [H3 H4]. destruct (perform_all i now xs w1) as [w2 a2]. cbn [fst snd] in *.
  split; [congruence|]. by apply Forall_app.
Qed.

Lemma on_slot_ok {A} i now (m : forall c, M (chain_state c) A) w :
  (forall c, Forall machine_ok c -> comp_ok (m c)) -> world_ok w ->
  world_ok (on_slot i now m w).1 /\ adds_ok p_max (on_slot i now m w).2.
Proof.
  intros Hm Hw. unfold on_slot. destruct (thrown w); [by split; [|constructor]|].
  destruct (slots w !! i) as [s|] eqn:Hs; [|by split; [|constructor]].
  pose proof (Forall_lookup_1 _ _ _ _ Hw Hs) as Hso. unfold slot_ok in Hso.
  destruct (stream s) as [l|]; [|by split; [|constructor]].
  pose proof (Hm _ Hso now (l_state l)) as Hx. destruct (m (l_chain l) now (l_state l)) as [[st xs] r].
  destruct (perform_all_ok i now xs (set_slot i (set_stream (MkLoaded (l_chain l) st) s) w) Hx) as [H1 H2].
  destruct (perform_all i now xs _) as [w1 a1]. cbn [fst snd] in *. split; [|done].
  assert (world_ok w1); [|by destruct r].
  unfold world_ok. rewrite H1. cbn. by apply Forall_insert.
Qed.

Lemma run_task_ok k now w : world_ok w -> world_ok (run_task k now w).1 /\ adds_ok p_max (run_task k now w).2.
Proof. apply on_slot_ok. intros c Hc. by apply chain_timer_ok. Qed.

Lemma push_from_ok now e n i w :
  world_ok w -> world_ok (push_from now e n i w).1 /\ adds_ok p_max (push_from now e n i w).2.
Proof.
  revert i w. induction n as [|n IH]; intros i w Hw; cbn [push_from]; [by split; [|constructor]|].
  match goal with |- context [let '(_, _) := ?x in _] => set (r := x) end.
  assert (world_ok r.1 /\ adds_ok p_max r.2) as [H1 H2].
  { unfold r. destruct (slots w !! i) as [s|]; [|by split; [|constructor]].
    destruct (used s); [|by split; [|constructor]]. apply on_slot_ok; [|done]. intros c Hc. by apply chain_push_ok. }
  destruct r as [w1 a1]. cbn [fst snd] in *. destruct (IH (S i) w1 H1) as [H3 H4].
  destruct (push_from now e n (S i) w1) as [w2 a2]. split; [done|]. by apply Forall_app.
Qed.

Lemma init_slots_ok i ss w :
  Forall slot_ok ss -> slots (init_slots i ss w).1 = slots w /\ adds_ok p_max (init_slots i ss w).2.
Proof.
  intros Hss. revert i w. induction Hss as [|s ss Hs _ IH]; intros i w; cbn [init_slots]; [by split; [|constructor]|].
  match goal with |- context [let '(_, _) := ?x in _] => set (r := x) end.
  assert (slots r.1 = slots w /\ adds_ok p_max r.2) as [H1 H2].
  { unfold r, slot_ok in *. destruct (used s), (stream s) as [l|]; try (by split; [|constructor]).
    apply perform_all_ok. by apply chain_init_ok. }
  destruct r as [w1 a1]. cbn [fst snd] in *. destruct (IH (S i) w1) as [H3 H4].
  destruct (init_slots (S i) ss w1) as [w2 a2]. cbn [fst snd] in *. split; [congruence|]. by apply Forall_app.
Qed.
End periods.

(** ** The timeline *)

(** What happens at a time: a task runs, or an event is pushed into all streams. *)
Inductive activity : Type := ATask (k : task) | AEvent (e : Event).
Definition act (a : activity) (now : Z) (w : world) : world * list (add_call task) :=
  match a with ATask k => run_task k now w | AEvent e => push_all now e w end.

Definition the_task (x : Z * activity) : option (Z * task) :=
  match x.2 with ATask k => Some (x.1, k) | AEvent _ => None end.
Definition the_event (x : Z * activity) : option (Z * Event) :=
  match x.2 with ATask _ => None | AEvent e => Some (x.1, e) end.

(** The tasks of the time of an event run before it. *)
Fixpoint tasks_first (tl : list (Z * activity)) : Prop :=
  match tl with
  | [] => True
  | (t, AEvent _) :: tl' => Forall (fun x => t < x.1) (omap the_task tl') /\ tasks_first tl'
  | _ :: tl' => tasks_first tl'
  end.

Definition last_time (t : Z) (events : list Event) : Z := foldl (fun _ e => Event.time e) t events.

Section timeline.
Context {Q : Type -> Type} `{PriorityQueueLaws Q}.
Variables p_max t_max : Z.
Hypothesis t_max_ok : in_i64 (t_max + p_max).
Hypothesis p_max_ok : 0 <= p_max.

Lemma act_ok a now w : world_ok p_max w -> world_ok p_max (act a now w).1 /\ adds_ok p_max (act a now w).2.
Proof. destruct a; [apply run_task_ok|apply push_from_ok]. Qed.

Lemma exec_tasks (trace : list (Z * task)) w : exec act w (prod_map id ATask <$> trace) = exec run_task w trace.
Proof.
  revert w. induction trace as [|[c k] trace IH]; intros w; [done|]. cbn.
  destruct (run_task k c w) as [w1 adds]. by rewrite IH.
Qed.
Lemma tasks_of_tasks (trace : list (Z * task)) : omap the_task (prod_map id ATask <$> trace) = trace.
Proof. induction trace as [|[c k] trace IH]; [done|]. cbn. by rewrite IH. Qed.
Lemma events_of_tasks (trace : list (Z * task)) : omap the_event (prod_map id ATask <$> trace) = [].
Proof. induction trace as [|[c k] trace IH]; [done|]. cbn. by rewrite IH. Qed.
Lemma tasks_first_tasks (trace : list (Z * task)) tl : tasks_first tl -> tasks_first ((prod_map id ATask <$> trace) ++ tl).
Proof. intros Htl. induction trace as [|[c k] trace IH]; done. Qed.

(** Tasks that are due come after the time at which they are all in the future. *)
Lemma due_strict (c e : Z) (l : list (queue_element_t task)) :
  Forall (fun x => c < q_time x /\ 0 <= q_interval x) l -> Forall (fun x => c < x.1) (l ≫= due e).
Proof.
  induction 1 as [|x l [Hc Hi] _ IH]; [constructor|]. rewrite bind_cons. apply Forall_app. split; [|done].
  eapply Forall_impl; [|apply (due_after e x Hi)]. simpl. lia.
Qed.

Lemma bind_due_later (e e' : Z) (l : list (queue_element_t task)) :
  e <= e' -> Forall (fun x => 0 <= q_interval x) l ->
  l ≫= due e' ≡ₚ (l ≫= due e) ++ ((l ≫= left_over e) ≫= due e').
Proof.
  intros He. induction 1 as [|x l Hx _ IH]; [done|]. rewrite !bind_cons, bind_app, IH.
  destruct (due_later e e' x He Hx) as [-> _]. rewrite <- !app_assoc. apply Permutation_app_head.
  rewrite !app_assoc. apply Permutation_app_tail, Permutation_app_comm.
Qed.

Definition in_future (s : mock_scheduler.t Q task) : Prop :=
  Forall (fun x => mock_scheduler.unix_time_ s < q_time x) (pq_elems (mock_scheduler.tasks_ s)).

Lemma sched_future s :
  sched_ok p_max s -> in_future s ->
  Forall (fun x => mock_scheduler.unix_time_ s < q_time x /\ 0 <= q_interval x) (pq_elems (mock_scheduler.tasks_ s)).
Proof.
  intros [_ Hs] Hf. unfold in_future in Hf. rewrite list.Forall_forall in Hs, Hf |- *.
  intros x Hx. destruct (Hs x Hx) as (_ & _ & ?). split; [by apply Hf|lia].
Qed.

Lemma registration_future c adds :
  adds_ok p_max adds ->
  Forall (fun x : queue_element_t task => c < q_time x /\ 0 <= q_interval x) (map (registration c) adds).
Proof.
  intros Ha. apply Forall_map. eapply Forall_impl; [|exact Ha]. intros a Ha'. unfold registration.
  cbn [q_interval q_time]. cbv beta in Ha'. destruct (a_once a); lia.
Qed.

(** Adding tasks keeps the scheduler in order. *)
Lemma add_calls_future adds s :
  adds_ok p_max adds -> mock_scheduler.unix_time_ s <= t_max -> sched_ok p_max s -> in_future s ->
  let s' := foldl mock_scheduler.add s adds in
  mock_scheduler.unix_time_ s' = mock_scheduler.unix_time_ s
  /\ pq_elems (mock_scheduler.tasks_ s') ≡ₚ
     map (registration (mock_scheduler.unix_time_ s)) adds ++ pq_elems (mock_scheduler.tasks_ s)
  /\ sched_ok p_max s' /\ in_future s'.
Proof.
  intros Ha Hu Hs Hf. cbv zeta.
  destruct (add_calls t_max p_max t_max_ok adds s Ha Hu Hs) as (H1 & H2 & H3).
  do 2 (split; [done|]). split; [done|]. unfold in_future. rewrite H1, H2. apply Forall_app. split; [|done].
  eapply Forall_impl; [|by apply registration_future]. simpl. tauto.
Qed.

(** What [replay] does from a state of the scheduler, as a timeline. *)
Record timeline_of (events : list Event) (s : mock_scheduler.t Q task) (w : world)
    (tl : list (Z * activity)) : Prop := {
  tl_events : omap the_event tl = (fun e => (Event.time e, e)) <$> events;
  tl_sorted : StronglySorted (fun a b => a.1 <= b.1) tl;
  tl_start : Forall (fun x => mock_scheduler.unix_time_ s <= x.1) tl;
  tl_first : tasks_first tl;
  tl_tasks : omap the_task tl ≡ₚ
    (pq_elems (mock_scheduler.tasks_ s) ++ (exec act w tl).2)
      ≫= due (last_time (mock_scheduler.unix_time_ s) events)
}.

(** The tasks of a timeline are after its start. *)
Lemma timeline_tasks_later events s w tl :
  sched_ok p_max s -> in_future s -> world_ok p_max w -> timeline_of events s w tl ->
  Forall (fun x => mock_scheduler.unix_time_ s < x.1) (omap the_task tl).
Proof.
  intros Hs Hf Hw [_ _ H3 _ H5]. rewrite H5. apply due_strict, Forall_app. split; [by apply sched_future|].
  destruct (exec_regs act p_max (world_ok p_max) act_ok _ tl w Hw H3) as [_ Hr].
  eapply Forall_impl; [|exact Hr]. simpl. intros x Hx. split; [apply Hx|lia].
Qed.

Lemma sorted_app_le (l1 l2 : list (Z * activity)) c :
  StronglySorted (fun a b => a.1 <= b.1) l1 -> Forall (fun x => x.1 <= c) l1 ->
  StronglySorted (fun a b => a.1 <= b.1) l2 -> Forall (fun x => c <= x.1) l2 ->
  StronglySorted (fun a b => a.1 <= b.1) (l1 ++ l2).
Proof.
  intros H1 Hc H2 H2c. induction H1 as [|x l1 Hl IH Hx]; [done|]. apply Forall_cons_iff in Hc as [Hxc Hc].
  cbn [app]. constructor; [by apply IH|]. apply Forall_app. split; [done|].
  eapply Forall_impl; [|exact H2c]. simpl. lia.
Qed.

(** One event in front: the tasks until its time, the event, and the rest. *)
Lemma timeline_cons e events s w (trace : list (Z * task)) s1 w2 adds s2 tl :
  sched_ok p_max s -> in_future s -> world_ok p_max w ->
  mock_scheduler.unix_time_ s <= Event.time e ->
  Event.time e <= last_time (Event.time e) events ->
  trace ≡ₚ (pq_elems (mock_scheduler.tasks_ s) ++ (exec run_task w trace).2) ≫= due (Event.time e) ->
  StronglySorted (fun a b => a.1 <= b.1) trace ->
  Forall (fun a => mock_scheduler.unix_time_ s <= a.1 <= Event.time e) trace ->
  pq_elems (mock_scheduler.tasks_ s1) ≡ₚ
    (pq_elems (mock_scheduler.tasks_ s) ++ (exec run_task w trace).2) ≫= left_over (Event.time e) ->
  push_all (Event.time e) e (exec run_task w trace).1 = (w2, adds) ->
  mock_scheduler.unix_time_ s2 = Event.time e ->
  pq_elems (mock_scheduler.tasks_ s2) ≡ₚ
    map (registration (Event.time e)) adds ++ pq_elems (mock_scheduler.tasks_ s1) ->
  sched_ok p_max s2 -> in_future s2 -> world_ok p_max w2 ->
  timeline_of events s2 w2 tl ->
  timeline_of (e :: events) s w ((prod_map id ATask <$> trace) ++ (Event.time e, AEvent e) :: tl).
Proof.
  intros Hs Hf Hw He Hlast Htr Hsort Hin Hq1 Hpush Hu2 Hq2 Hs2 Hf2 Hw2 Htl.
  pose proof (timeline_tasks_later _ _ _ _ Hs2 Hf2 Hw2 Htl) as Hlater. rewrite Hu2 in Hlater.
  destruct Htl as [H1 H2 H3 H4 H5]. rewrite Hu2 in H3, H5.
  constructor.
  - rewrite omap_app, events_of_tasks. cbn. by rewrite H1.
  - eapply (sorted_app_le _ _ (Event.time e)).
    + clear -Hsort. induction Hsort as [|[c k] l _ IH Hx]; [constructor|]. cbn. constructor; [done|]. by apply Forall_fmap.
    + apply Forall_fmap. eapply Forall_impl; [|exact Hin]. intros [c k] [_ Hc]. exact Hc.
    + by constructor.
    + constructor; [done|]. exact H3.
  - apply Forall_app. split; [apply Forall_fmap; eapply Forall_impl; [|exact Hin]; by intros [c k] [Hc _]|].
    constructor; [done|]. eapply Forall_impl; [|exact H3]. simpl. lia.
  - apply tasks_first_tasks. by split.
  - rewrite omap_app, tasks_of_tasks, exec_app, exec_tasks. cbn [omap list_omap the_task snd fst].
    pose proof (exec_regs run_task p_max (world_ok p_max) (run_task_ok p_max) (mock_scheduler.unix_time_ s) trace w Hw)
      as [_ Hregs]. { eapply Forall_impl; [|exact Hin]. simpl. lia. }
    destruct (exec run_task w trace) as [w1 regs1]. cbn [fst snd] in *.
    cbn [exec act]. rewrite Hpush. destruct (exec act w2 tl) as [w3 regs3]. cbn [fst snd] in *.
    change (last_time (mock_scheduler.unix_time_ s) (e :: events)) with (last_time (Event.time e) events).
    rewrite H5, Hq2, Hq1, Htr.
    rewrite (app_assoc (pq_elems (mock_scheduler.tasks_ s))), (bind_app _ (pq_elems (mock_scheduler.tasks_ s) ++ regs1)).
    assert (Forall (fun x : queue_element_t task => 0 <= q_interval x)
      (pq_elems (mock_scheduler.tasks_ s) ++ regs1)) as Hint.
    { apply Forall_app. split; [|eapply Forall_impl; [|exact Hregs]; simpl; lia].
      eapply Forall_impl; [|by apply sched_future]. simpl. lia. }
    rewrite (bind_due_later (Event.time e) _ _ Hlast Hint). generalize (pq_elems (mock_scheduler.tasks_ s) ++ regs1) as X.
    intros X. rewrite !bind_app, <- !app_assoc. apply Permutation_app_head, Permutation_app_swap_app.
Qed.

Lemma last_time_le t events :
  StronglySorted (fun a b => Event.time a <= Event.time b) events ->
  Forall (fun e => t <= Event.time e) events -> t <= last_time t events.
Proof.
  unfold last_time. revert t. induction events as [|e events IH]; intros t Hs Hf; [simpl; lia|].
  apply Forall_cons_iff in Hf as [He _]. apply StronglySorted_inv in Hs as [Hs Hes].
  simpl. specialize (IH (Event.time e) Hs Hes). lia.
Qed.

Lemma replay_timeline events : forall s w,
  sched_ok p_max s -> in_future s -> world_ok p_max w ->
  StronglySorted (fun a b => Event.time a <= Event.time b) events ->
  Forall (fun e => mock_scheduler.unix_time_ s <= Event.time e <= t_max) events ->
  exists n s' tl, (forall fuel, (n <= fuel)%nat -> replay fuel events s w = Some (s', (exec act w tl).1))
  /\ timeline_of events s w tl.
Proof.
  induction events as [|e events IH]; intros s w Hs Hf Hw Hsort Hev.
  { exists 0%nat, s, []. split; [done|]. constructor; try done; [constructor..|]. cbn [exec snd omap list_omap].
    rewrite app_nil_r. unfold in_future in Hf. cbn. clear -Hf.
    induction Hf as [|x l Hx _ IH]; [done|]. rewrite bind_cons, <- IH.
    by destruct (due_none (mock_scheduler.unix_time_ s) x ltac:(lia)) as [-> _]. }
  apply Forall_cons_iff in Hev as [[He Het] Hev]. apply StronglySorted_inv in Hsort as [Hsort Hes].
  assert (in_i64 (Event.time e) /\ in_i64 (Event.time e + p_max)) as [Hi Him].
  { destruct Hs as [Hu _]. unfold in_i64 in *. lia. }
  destruct (set_time_total run_task (Event.time e) p_max (world_ok p_max) Him (run_task_ok p_max) s w Hs Hw Hi He)
    as (n1 & s1 & trace & Hst & Htr & Hsrt & Hin & Hq1 & Hf1 & Hu1 & Hs1 & Hw1).
  destruct (push_all (Event.time e) e (exec run_task w trace).1) as [w2 adds] eqn:Hpush.
  pose proof (push_from_ok p_max (Event.time e) e (length (slots (exec run_task w trace).1)) 0 _ Hw1) as [Hw2 Ha].
  unfold push_all in Hpush. rewrite Hpush in Hw2, Ha. cbn [fst snd] in Hw2, Ha.
  assert (in_future s1) as Hf1' by (unfold in_future; by rewrite Hu1).
  destruct (add_calls_future adds s1 Ha ltac:(lia) Hs1 Hf1') as (Hu2 & Hq2 & Hs2 & Hf2).
  rewrite Hu1 in Hu2, Hq2.
  destruct (IH (foldl mock_scheduler.add s1 adds) w2 Hs2 Hf2 Hw2 Hsort) as (n2 & s' & tl & Hrep & Htl).
  { rewrite Hu2. rewrite list.Forall_forall in Hev, Hes |- *. intros x Hx. split; [by apply Hes|by apply Hev]. }
  exists (n1 + n2)%nat, s', ((prod_map id ATask <$> trace) ++ (Event.time e, AEvent e) :: tl). split.
  - intros fuel Hfuel. cbn [replay]. rewrite Hst by lia. unfold mock_scheduler.unix_time, push_all.
    rewrite Hu1, Hpush, Hrep by lia. f_equal. f_equal. rewrite exec_app, exec_tasks.
    destruct (exec run_task w trace) as [w1 regs1]. cbn [fst snd] in *. cbn [exec act]. unfold push_all.
    rewrite Hpush. by destruct (exec act w2 tl).
  - eapply timeline_cons; try done. by apply last_time_le.
Qed.
End timeline.

(** ** Loading *)

Section tester.
Context {Q : Type -> Type} `{PriorityQueueLaws Q}.
Variable open_library : string -> Z -> option (list stream_node_t).
Variables p_max t_max : Z.

(** The streams of the libraries register tasks with periods of a second or more. *)
Hypothesis libraries_ok : forall f t nodes,
  open_library f t = Some nodes -> Forall (machine_ok p_max) (init_streams nodes).

Lemma load_library_ok now lib s : slot_ok p_max s -> slot_ok p_max (load_library open_library now lib s).
Proof.
  intros Hs. unfold load_library. destruct (open_library lib.1 lib.2) eqn:Ho; [|done].
  unfold slot_ok. cbn. by eapply libraries_ok.
Qed.
Lemma close_library_ok f s : slot_ok p_max s -> slot_ok p_max (close_library f s).1.
Proof. intros Hs. unfold close_library. by case_match. Qed.

Lemma load_rules_ok f now dir ss :
  Forall (slot_ok p_max) ss -> Forall (slot_ok p_max) (load_rules open_library f now dir ss).
Proof.
  intros Hss. unfold load_rules. set (cm := make_curr_map 0 ss ∅).
  assert (forall libs unused ss, Forall (slot_ok p_max) ss ->
    Forall (slot_ok p_max) (load_loop open_library f now cm libs unused ss).2) as Hloop.
  { induction libs as [|lib libs IH]; intros unused ss1 H1; cbn [load_loop]; [done|]. apply IH.
    destruct (cm !! lib.1) as [i|].
    - unfold reload_slot. destruct (ss1 !! i) as [s|] eqn:Hs; [|done]. case_decide; [done|].
      pose proof (close_library_ok f s (Forall_lookup_1 _ _ _ _ H1 Hs)) as Hc.
      destruct (close_library f s) as [s' []]; (apply Forall_insert; [done|]); [by apply load_library_ok|done].
    - destruct (first_unused 0 ss1) as [i|]; [|done]. destruct (ss1 !! i) as [s|] eqn:Hs; [|done].
      apply Forall_insert; [done|]. apply load_library_ok. by eapply Forall_lookup_1. }
  specialize (Hloop (so_files dir) (dom cm) ss Hss). destruct (load_loop _ _ _ _ _ _ _) as [unused ss1].
  cbn [snd] in Hloop. generalize (elements unused) as l. intros l. revert ss1 Hloop.
  induction l as [|g l IH]; intros ss1 H1; [done|]. cbn [foldl]. apply IH. unfold close_unused.
  destruct (cm !! g) as [i|]; [|done]. destruct (ss1 !! i) as [s|] eqn:Hs; [|done].
  apply Forall_insert; [done|]. apply close_library_ok. by eapply Forall_lookup_1.
Qed.

End tester.

(** ** A rule with a periodic task *)

Section rate.
Variable p_max : Z.

Lemma stateless_ok fn : (forall e, comp_ok p_max (fn e)) -> machine_ok p_max (stateless fn).
Proof. intros Hf. constructor; [constructor|done|]. intros p. apply ret_ok. Qed.

Lemma send_index_ok e :
  comp_ok p_max (S := unit) (bind ask (fun now =>
    bind (if predicates.expired now e then ret () else tell (EIndex e)) (fun _ => ret (@nil Event)))).
Proof.
  apply bind_ok; [by intros ? ?; constructor|]. intros now.
  apply bind_ok; [|intros ?; apply ret_ok]. destruct (predicates.expired now e); intros ? ?; by repeat constructor.
Qed.

Lemma rate_ok interval c :
  1 <= i64_of_sf (f_of_Z interval) <= p_max -> Forall (machine_ok p_max) c ->
  machine_ok p_max (rate_ interval (Infra.forward c)).
Proof.
  intros Hi Hc. constructor; cbn [m_init m_event m_timer rate_].
  - intros now. unfold rate_init. cbn [f_new Infra.forward]. pose proof (chain_init_ok p_max 0 c now Hc) as Hw.
    destruct (chain_init 0 c now) as [s w]. apply Forall_app. split; [by apply at_hop_ok|constructor; [exact Hi|constructor]].
  - intros e. apply bind_ok; [|intros ?; apply ret_ok]. apply on_fst_ok. by intros ? ?; constructor.
  - intros [|[| | |] p]; try apply ret_ok; cbn [rate_timer].
    + apply bind_ok; [apply on_fst_ok; by intros ? ?; constructor|]. intros r.
      apply bind_ok; [by intros ? ?; constructor|]. intros now. apply on_snd_ok, below_ok, forM_ok. intros e.
      apply bind_ok; [by apply chain_push_ok|intros ?; apply ret_ok].
    + by apply on_snd_ok, below_ok, chain_timer_ok.
Qed.
End rate.

(** Two events with metrics 10 and 20; the rate of every five seconds is indexed. *)
Definition sample_library (f : string) (_ : Z) : option (list stream_node_t) :=
  if decide (f = "rate.so") then Some (rate 5 ++ fns.send_index) else None.
Definition sample_events : list Event :=
  [ Event.set_time 2 (Event.set_metric_d (d_of_Z 10) Event.empty);
    Event.set_time 12 (Event.set_metric_d (d_of_Z 20) Event.empty) ].

Lemma sample_library_ok f t nodes :
  sample_library f t = Some nodes -> Forall (machine_ok 100) (init_streams nodes).
Proof.
  unfold sample_library. case_decide; [|done]. intros [= <-].
  assert (Forall (machine_ok 100) (init_streams fns.send_index)) as Hi.
  { repeat constructor. apply stateless_ok. intros e. apply send_index_ok. }
  constructor; [|exact Hi]. apply rate_ok; [vm_compute; split; discriminate|exact Hi].
Qed.


(** The rates at 5 and 10 are in the index when the second event arrives; what it adds is never reported. *)
Example sample_run :
  match rule_tester (Q := heap) sample_library 10 [("rate.so", 1)] sample_events with
  | Some (inl w) => map (fun x => (x.1, Event.metric x.2)) (events_ w) = [(5, d_of_Z 2); (10, d_of_Z 0)]
                    /\ thrown w = None
  | _ => False
  end.
Proof. vm_compute. by split. Qed.

(** ** A text *)

(** A number for which [isDouble] holds, integers included, does not set the time or the ttl. *)
Lemma double_not_time {V : Type} `{JsonValue V} (v : V) (d : double) (m : string) (e : Event) :
  m = "time" \/ m = "ttl" -> isString v = false -> isDouble v = true -> asDouble v = Ok d ->
  set_member m v e = Ok e.
Proof. intros Hm Hs Hd Had. unfold set_member. rewrite Hs, Hd, Had. by destruct Hm as [-> | ->]. Qed.

(** Arrays and objects are chains of items, those of an array without names. *)
Inductive sample_json : Type :=
| SStr (s : string)
| SInt (z : Z)
| SEnd
| SItem (name : string) (v rest : sample_json).

Fixpoint sample_items (v : sample_json) : list (string * sample_json) :=
  match v with SItem name v rest => (name, v) :: sample_items rest | _ => [] end.

Definition sample_parse (_ : string) : option sample_json :=
  Some (SItem "" (SItem "host" (SStr "b") (SItem "time" (SInt 7) SEnd))
       (SItem "" (SItem "host" (SStr "a") (SItem "tags" (SItem "" (SStr "x") SEnd) (SItem "time" (SInt 3) SEnd)))
       (SItem "" (SItem "host" (SStr "c") (SItem "time" (SInt 7) SEnd)) SEnd))).

Lemma events_replayed_witness :
  let ops : JsonValue sample_json := {|
    isString := fun v => match v with SStr _ => true | _ => false end;
    isDouble := fun _ => false;
    isIntegral := fun v => match v with SInt _ => true | _ => false end;
    asString := fun v => match v with SStr s => Ok s | _ => Throw (user_exception "not a string") end;
    asDouble := fun _ => Throw (user_exception "not a double");
    asInt := fun v => match v with SInt z => Ok z | _ => Throw (user_exception "not an int") end;
    values := fun v => snd <$> sample_items v;
    members := fun v => match v with
                        | SStr _ | SInt _ => Throw (user_exception "not an object")
                        | _ => Ok (sample_items v)
                        end
  |} in
  exists es, json_to_events sample_parse "" = Ok es /\ Event.host <$> es = ["a"; "b"; "c"]
  /\ StronglySorted (fun a b => Event.time a <= Event.time b) es.
Proof.
  intros ops. destruct (json_to_events sample_parse "") as [es|] eqn:He; [|vm_compute in He; discriminate He].
  destruct (events_replayed sample_parse "" es He) as (root & es0 & _ & _ & _ & Hs & _).
  exists es. split; [reflexivity|]. split; [|exact Hs].
  vm_compute in He. injection He as <-. reflexivity.
Defined.
