(* ===== verification/CurlPool.v ===== *)
(** * The HTTP pool

    [src/transport/curl_pool.cpp], through which mails and pages are sent, on top of [tcp_pool].

    Every loop has a queue of events, the requests that are under way ([curl_conns_], by their
    easy handles) and those that libcurl has reported as done.  libcurl is the environment: a call
    into its multi interface comes with a script of the callbacks that it makes, which may
    call into it again, and with what it returns. *)

From S2P Require Import Prelude Events Tcp TcpPool.

Local Open Scope Z_scope.

(** [CURL_POLL_*] for a socket. *)
Inductive curl_poll : Type := POLL_NONE | POLL_IN | POLL_OUT | POLL_INOUT | POLL_REMOVE | POLL_OTHER.

(** [CURLMsg]: the handle, and whether it is done. *)
Definition curl_msg : Type := bool * Z.

(** The callbacks of a call: a socket is opened for a handle, its mode changes, it is
    closed, or a timeout is set, which may lead to a call of [curl_multi_socket_action] with a
    script of its own, its result and the messages that can be read afterwards. *)
Inductive script : Type :=
| ScriptEnd
| OpenSocket (easy fd : Z) (rest : script)
| CloseSocket (fd : Z) (rest : script)
| SetSocket (fd : Z) (mode : curl_poll) (rest : script)
| SetTimer (ms : Z) (nested : script) (rc_ok : bool) (msgs : list curl_msg) (rest : script).

Module curl_pool.
Section pool.
Context {B : Type} `{CircularBuffer B}.
(** What is queued with an event, and the options that [curl_event_fn_] sets. *)
Context {X R : Type}.
Variable curl_event_fn_ : Event * X -> R.

Definition k_queue_capacity : Z := 10000.
Definition k_max_concurrent_conns : nat := 50.

(** What can be observed: an event is taken or not, a request is made, could not be added, or is
    cleaned up, and an action is passed to libcurl. *)
Inductive curl_out : Type :=
| Accepted (e : Event * X)
| Refused (e : Event * X)
| Submitted (easy : Z) (e : Event * X) (options : R)
| NotAdded (easy : Z)
| Cleaned (easy : Z)
| SocketAction (fd : Z) (action : curl_poll).

(** The entries of a loop: [thread_event_queues_], the descriptors in [curl_conns_] and
    [finished_conns_]. *)
Record conns : Type := MkConns {
  event_queue : list (Event * X);
  curl_conns : gmap Z (gset Z);
  finished_conns : list Z
}.
Abbreviation loop := (tcp_pool.loop_t B conns).
Abbreviation pool := (tcp_pool.t B conns).

Definition set_user (u : conns) (l : loop) : loop :=
  tcp_pool.MkLoop (tcp_pool.signalled l) (tcp_pool.new_fds l) (tcp_pool.fds l) (tcp_pool.conn_map l) u.
Definition set_conns (cs : gmap Z (gset Z)) (l : loop) : loop :=
  set_user (MkConns (event_queue (tcp_pool.user l)) cs (finished_conns (tcp_pool.user l))) l.
Definition set_finished (fs : list Z) (l : loop) : loop :=
  set_user (MkConns (event_queue (tcp_pool.user l)) (curl_conns (tcp_pool.user l)) fs) l.
Definition set_queue (q : list (Event * X)) (l : loop) : loop :=
  set_user (MkConns q (curl_conns (tcp_pool.user l)) (finished_conns (tcp_pool.user l))) l.

Definition curl_to_async_mode (mode : curl_poll) : fd_mode :=
  match mode with
  | POLL_NONE => mode_none
  | POLL_IN => mode_read
  | POLL_OUT => mode_write
  | POLL_INOUT => mode_readwrite
  | POLL_REMOVE | POLL_OTHER => mode_none
  end.

(** ** Callbacks of libcurl *)

Definition add_fd (curl_conn fd : Z) (l : loop) : result loop :=
  match curl_conns (tcp_pool.user l) !! curl_conn with
  | None => Throw (user_exception "CHECK")
  | Some fds =>
      Ok (tcp_pool.add_client_sync fd
            (set_conns (<[curl_conn := {[fd]} ∪ fds]> (curl_conns (tcp_pool.user l))) l))
  end.

Definition create_socket_fn (easy fd : Z) (l : loop) : result loop :=
  if 0 <? fd then add_fd easy fd l else Ok l.
Definition close_socket_fn (fd : Z) (l : loop) : result loop :=
  if 0 <? fd then tcp_pool.set_fd_mode fd mode_none l else Ok l.

Definition multi_socket (fd : Z) (mode : curl_poll) (l : loop) : result loop :=
  match mode with
  | POLL_REMOVE => Ok l
  | _ => tcp_pool.set_fd_mode fd (curl_to_async_mode mode) l
  end.

Definition check_multi_info (msgs : list curl_msg) (l : loop) : loop :=
  set_finished (finished_conns (tcp_pool.user l)
                ++ omap (fun m : curl_msg => if m.1 then Some m.2 else None) msgs) l.

(** [multi_timer] sets the interval of the loop's task, which does nothing, or calls
    [multi_socket_action]. *)
Fixpoint callbacks (s : script) (l : loop) : result loop :=
  match s with
  | ScriptEnd => Ok l
  | OpenSocket easy fd rest => res_bind (callbacks rest) (create_socket_fn easy fd l)
  | CloseSocket fd rest => res_bind (callbacks rest) (close_socket_fn fd l)
  | SetSocket fd mode rest => res_bind (callbacks rest) (multi_socket fd mode l)
  | SetTimer ms nested rc_ok msgs rest =>
      if (0 <? ms) && (ms <? 5000) then callbacks rest l
      else
        res_bind (fun l => callbacks rest (if rc_ok then check_multi_info msgs l else l))
          (callbacks nested l)
  end.

Definition multi_socket_action (s : script) (rc_ok : bool) (msgs : list curl_msg) (l : loop)
  : result loop :=
  res_map (fun l => if rc_ok : bool then check_multi_info msgs l else l) (callbacks s l).

(** ** Callbacks of the loop *)

(** [async.ready_read() ? CURL_POLL_IN : 0 | async.ready_write() ? CURL_POLL_OUT : 0], where the
    first conditional has all the rest as its last operand. *)
Definition ready_action (r : fd_ready) : curl_poll :=
  if decide (is_Some (ready_read r)) then POLL_IN
  else if decide (is_Some (ready_write r)) then POLL_OUT
  else POLL_NONE.

Definition on_ready (s : script) (msgs : list curl_msg) (r : fd_ready) (fd : Z) (l : loop)
  : result (loop * list curl_out) :=
  if ready_error r then Ok (l, [])
  else res_map (fun l => (check_multi_info msgs l, [SocketAction fd (ready_action r)])) (callbacks s l).

(** What libcurl does for an event of the queue: the new handle, and whether and with which
    callbacks it is added. *)
Record curl_add : Type := MkAdd { a_easy : Z; a_ok : bool; a_script : script }.

(** [curl_conns_.insert], which keeps an entry that is there. *)
Definition new_conn (easy : Z) (cs : gmap Z (gset Z)) : gmap Z (gset Z) := insert_new easy ∅ cs.

(** The loop of [async] over the events of the queue. *)
Fixpoint submit (adds : nat -> curl_add) (q : list (Event * X)) (l : loop) : result (loop * list curl_out) :=
  match q with
  | [] => Ok (l, [])
  | e :: q' =>
      let a := adds O in
      let l := set_queue q' l in
      let l := set_conns (new_conn (a_easy a) (curl_conns (tcp_pool.user l))) l in
      match callbacks (a_script a) l with
      | Throw x => Throw x
      | Ok l =>
          let '(l, out) :=
            if a_ok a then (l, [Submitted (a_easy a) e (curl_event_fn_ e)])
            else (set_conns (delete (a_easy a) (curl_conns (tcp_pool.user l))) l,
                  [Submitted (a_easy a) e (curl_event_fn_ e); NotAdded (a_easy a)]) in
          res_map (fun '(l, out') => (l, out ++ out')) (submit (fun k => adds (S k)) q' l)
      end
  end.

Definition async (adds : nat -> curl_add) (l : loop) : result (loop * list curl_out) :=
  if decide (k_max_concurrent_conns < size (curl_conns (tcp_pool.user l)))%nat then Ok (l, [])
  else submit adds (event_queue (tcp_pool.user l)) l.

(** [remove_fds]. *)
Fixpoint remove_fds (fds : list Z) (l : loop) : result loop :=
  match fds with
  | [] => Ok l
  | fd :: fds' => res_bind (remove_fds fds') (tcp_pool.remove_client_sync fd l)
  end.

(** [cleanup_conns], with the callbacks of [curl_multi_remove_handle] for each handle and
    those of [curl_easy_cleanup].  A message read meanwhile changes the vector that is walked. *)
Fixpoint cleanup (removes : nat -> script * script) (fs : list Z) (l : loop) : result (loop * list curl_out) :=
  match fs with
  | [] => Ok (l, [])
  | easy :: fs' =>
      match curl_conns (tcp_pool.user l) !! easy with
      | None => Throw (user_exception "CHECK")
      | Some _ =>
          let finished := finished_conns (tcp_pool.user l) in
          match callbacks (removes O).1 l with
          | Throw x => Throw x
          | Ok l =>
              match curl_conns (tcp_pool.user l) !! easy with
              | None => Throw undefined_behaviour
              | Some fds =>
                  match res_bind (fun l => callbacks (removes O).2
                           (set_conns (delete easy (curl_conns (tcp_pool.user l))) l))
                         (remove_fds (elements fds) l) with
                  | Throw x => Throw x
                  | Ok l =>
                      if decide (finished_conns (tcp_pool.user l) = finished) then
                        res_map (fun '(l, out) => (l, Cleaned easy :: out))
                          (cleanup (fun k => removes (S k)) fs' l)
                      else Throw undefined_behaviour
                  end
              end
          end
      end
  end.

Definition cleanup_conns (removes : nat -> script * script) (l : loop) : result (loop * list curl_out) :=
  res_map (fun '(l, out) => (set_finished [] l, out))
    (cleanup removes (finished_conns (tcp_pool.user l)) l).

Definition timer (removes : nat -> script * script) (s : script) (rc_ok : bool) (msgs : list curl_msg)
    (l : loop) : result (loop * list curl_out) :=
  res_bind (fun '(l, out) => res_map (fun l => (l, out)) (multi_socket_action s rc_ok msgs l))
    (cleanup_conns removes l).

(** ** The pool *)

Inductive pool_op : Type :=
| PushEvent (e : Event * X)
| Async (loop_id : nat) (adds : nat -> curl_add)
| Ready (loop_id : nat) (fd : Z) (r : fd_ready) (s : script) (msgs : list curl_msg)
| Timer (loop_id : nat) (removes : nat -> script * script) (s : script) (rc_ok : bool)
    (msgs : list curl_msg).

Definition new (thread_num : nat) : pool := tcp_pool.new thread_num (MkConns [] ∅ []).

(** There is no function for a new connection. *)
Definition no_create (_ : Z) (u : conns) : conns * list curl_out := (u, []).

(** A full queue keeps the event out and its turn. *)
Definition push_event (e : Event * X) (p : pool) : result (pool * list (nat * curl_out)) :=
  let i := tcp_pool.next_thread_ p in
  match tcp_pool.loops p !! i with
  | None => Throw undefined_behaviour
  | Some l =>
      let q := event_queue (tcp_pool.user l) in
      if k_queue_capacity <=? Z.of_nat (length q) then Ok (p, [(i, Refused e)])
      else
        Ok (tcp_pool.Mk (<[i := tcp_pool.signal_thread (set_queue (q ++ [e]) l)]> (tcp_pool.loops p))
              ((i + 1) mod length (tcp_pool.loops p)),
            [(i, Accepted e)])
  end.

Definition step (o : pool_op) (p : pool) : result (pool * list (nat * curl_out)) :=
  match o with
  | PushEvent e => push_event e p
  | Async i adds =>
      tcp_pool.on_loop i
        (fun l => if tcp_pool.signalled l then tcp_pool.async_hook no_create (async adds) l
                  else Ok (l, [])) p
  | Ready i fd r s msgs =>
      tcp_pool.on_loop i
        (fun l => match tcp_pool.fds l !! fd with
                  | Some _ => tcp_pool.socket_callback (on_ready s msgs) r fd l
                  | None => Ok (l, [])
                  end) p
  | Timer i removes s rc_ok msgs => tcp_pool.on_loop i (timer removes s rc_ok msgs) p
  end.

Fixpoint run (ops : list pool_op) (p : pool) : result (pool * list (nat * curl_out)) :=
  match ops with
  | [] => Ok (p, [])
  | o :: ops' =>
      match step o p with
      | Throw x => Throw x
      | Ok (p, out) => res_map (fun '(p, out') => (p, out ++ out')) (run ops' p)
      end
  end.

(** [stop], once the threads have been joined. *)
Fixpoint stop_from (i : nat) (removes : nat -> nat -> script * script) (ls : list loop)
  : result (list loop * list (nat * curl_out)) :=
  match ls with
  | [] => Ok ([], [])
  | l :: ls' =>
      match cleanup_conns (removes i) l with
      | Throw x => Throw x
      | Ok (l, out) =>
          res_map (fun '(ls, out') => (l :: ls, (pair i <$> out) ++ out')) (stop_from (S i) removes ls')
      end
  end.
Definition stop (removes : nat -> nat -> script * script) (p : pool)
  : result (pool * list (nat * curl_out)) :=
  res_map (fun '(ls, out) => (tcp_pool.Mk ls (tcp_pool.next_thread_ p), out))
    (stop_from 0 removes (tcp_pool.loops p)).
End pool.
Arguments conns : clear implicits.
Arguments curl_out : clear implicits.
Arguments pool_op : clear implicits.
End curl_pool.

(** ** What libcurl promises

    The requests that are under way and those reported as done and not yet removed, in order;
    whose each descriptor is that was opened for a request and not removed since, and the
    sockets that libcurl has open. *)
Record libcurl : Type := MkCurl {
  active : gset Z;
  completed : list Z;
  owner : gmap Z Z;
  open : gset Z
}.

(** Messages: a request is done once. *)
Fixpoint libcurl_msgs (msgs : list curl_msg) (a : libcurl) : option libcurl :=
  match msgs with
  | [] => Some a
  | (false, _) :: msgs' => libcurl_msgs msgs' a
  | (true, h) :: msgs' =>
      if decide (h ∈ active a) then
        libcurl_msgs msgs' (MkCurl (active a ∖ {[h]}) (completed a ++ [h]) (owner a) (open a))
      else None
  end.

(** Callbacks: sockets are opened for requests that are under way, with descriptors that are not in
    use, and only open sockets are changed or closed. *)
Fixpoint libcurl_script (s : script) (a : libcurl) : option libcurl :=
  match s with
  | ScriptEnd => Some a
  | OpenSocket h fd rest =>
      if 0 <? fd then
        if decide (h ∈ active a /\ owner a !! fd = None) then
          libcurl_script rest (MkCurl (active a) (completed a) (<[fd := h]> (owner a)) ({[fd]} ∪ open a))
        else None
      else libcurl_script rest a
  | CloseSocket fd rest =>
      if 0 <? fd then
        if decide (fd ∈ open a) then
          libcurl_script rest (MkCurl (active a) (completed a) (owner a) (open a ∖ {[fd]}))
        else None
      else libcurl_script rest a
  | SetSocket fd mode rest =>
      match mode with
      | POLL_REMOVE => libcurl_script rest a
      | _ => if decide (fd ∈ open a) then libcurl_script rest a else None
      end
  | SetTimer ms nested rc_ok msgs rest =>
      if (0 <? ms) && (ms <? 5000) then libcurl_script rest a
      else
        a ← libcurl_script nested a;
        a ← (if rc_ok then libcurl_msgs msgs a else Some a);
        libcurl_script rest a
  end.

(** Adding requests for [n] events: handles that are not in use; one that could not be added has no
    sockets and is not done. *)
Fixpoint libcurl_adds (n : nat) (adds : nat -> curl_pool.curl_add) (a : libcurl) : option libcurl :=
  match n with
  | O => Some a
  | S n' =>
      let h := curl_pool.a_easy (adds O) in
      if decide (h ∈ active a \/ h ∈ completed a) then None
      else
        a ← libcurl_script (curl_pool.a_script (adds O))
              (MkCurl ({[h]} ∪ active a) (completed a) (owner a) (open a));
        if curl_pool.a_ok (adds O) then libcurl_adds n' (fun k => adds (S k)) a
        else if decide (h ∈ active a /\ map_Forall (fun _ h' => h' <> h) (owner a)) then
          libcurl_adds n' (fun k => adds (S k))
            (MkCurl (active a ∖ {[h]}) (completed a) (owner a) (open a))
        else None
  end.

(** Removing the requests that are done: no message is read meanwhile, and what is left of the
    sockets of a request is closed before it is removed. *)
Fixpoint libcurl_removes (fs : list Z) (removes : nat -> script * script) (a : libcurl) : option libcurl :=
  match fs with
  | [] => Some a
  | h :: fs' =>
      a1 ← libcurl_script (removes O).1 a;
      if decide (completed a1 = completed a) then
        let own := filter (fun x => x.2 <> h) (owner a1) in
        let a2 := MkCurl (active a1) fs' own (filter (fun fd => is_Some (own !! fd)) (open a1)) in
        a3 ← libcurl_script (removes O).2 a2;
        if decide (completed a3 = fs') then libcurl_removes fs' (fun k => removes (S k)) a3 else None
      else None
  end.

Section curl.
Import curl_pool.
Context {B : Type} `{CircularBuffer B}.
Context {X R : Type}.
Variable curl_event_fn_ : Event * X -> R.

Abbreviation loop := (tcp_pool.loop_t B (conns X)).
Abbreviation pool := (tcp_pool.t B (conns X)).
Abbreviation user := tcp_pool.user.
Abbreviation out := (curl_out X R).

(** *** The queue *)

(** What the callbacks leave as it is. *)
Definition same_queue (l l' : loop) : Prop :=
  event_queue (user l') = event_queue (user l) /\ tcp_pool.new_fds l' = tcp_pool.new_fds l.

Lemma same_queue_trans l1 l2 l3 : same_queue l1 l2 -> same_queue l2 l3 -> same_queue l1 l3.
Proof. intros [H1 H2] [H3 H4]. split; congruence. Qed.

Lemma set_fd_mode_queue fd m (l l' : loop) : tcp_pool.set_fd_mode fd m l = Ok l' -> same_queue l l'.
Proof. unfold tcp_pool.set_fd_mode. case_match; [|done]. by intros [= <-]. Qed.

Lemma callbacks_queue s (l l' : loop) : callbacks s l = Ok l' -> same_queue l l'.
Proof.
  revert l l'. induction s as [|h fd s IH|fd s IH|fd m s IH|ms nested IHn ok msgs s IH]; intros l l';
    cbn [callbacks].
  - by intros [= <-].
  - unfold create_socket_fn, add_fd. case_match; [|apply IH]. case_match; [|done]. cbn [res_bind].
    intros Hc%IH. exact Hc.
  - unfold close_socket_fn. case_match; [|apply IH].
    destruct (tcp_pool.set_fd_mode fd mode_none l) eqn:Hm; [|done]. cbn [res_bind]. intros Hc%IH.
    eapply same_queue_trans; [by eapply set_fd_mode_queue|done].
  - unfold multi_socket. intros Hc. destruct m;
      try (by apply IH); match type of Hc with res_bind _ ?r = _ => destruct r eqn:Hm end;
      try done; cbn [res_bind] in Hc; apply IH in Hc;
      (eapply same_queue_trans; [by eapply set_fd_mode_queue|done]).
  - case_match; [apply IH|]. destruct (callbacks nested l) as [l1|] eqn:Hn; [|done]. cbn [res_bind].
    intros Hc%IH. apply IHn in Hn. eapply same_queue_trans; [exact Hn|]. by destruct ok.
Qed.

Definition accepted (outs : list out) : list (Event * X) :=
  omap (fun o => match o with Accepted e => Some e | _ => None end) outs.
Definition submitted (outs : list out) : list (Event * X) :=
  omap (fun o => match o with Submitted _ e _ => Some e | _ => None end) outs.

Lemma accepted_app a b : accepted (a ++ b) = accepted a ++ accepted b.
Proof. apply omap_app. Qed.
Lemma submitted_app a b : submitted (a ++ b) = submitted a ++ submitted b.
Proof. apply omap_app. Qed.

(** Every request has the options of its event. *)
Definition options_ok (outs : list out) : Prop :=
  Forall (fun o => match o with Submitted _ e r => r = curl_event_fn_ e | _ => True end) outs.

Record queue_inv (l : loop) (outs : list out) : Prop := {
  qi_queue : accepted outs = submitted outs ++ event_queue (user l);
  qi_options : options_ok outs;
  qi_new : tcp_pool.new_fds l = []
}.

(** Outputs that are neither. *)
Definition other_outs (outs : list out) : Prop :=
  accepted outs = [] /\ submitted outs = [] /\ options_ok outs.

Lemma queue_inv_other l l' outs o :
  queue_inv l outs -> same_queue l l' -> other_outs o -> queue_inv l' (outs ++ o).
Proof.
  intros [H1 H2 H3] [H4 H5] (H6 & H7 & H8). constructor.
  - by rewrite accepted_app, submitted_app, H6, H7, !app_nil_r, H4.
  - by apply Forall_app.
  - by rewrite H5.
Qed.

Lemma submit_inv adds q (l l' : loop) outs o :
  queue_inv l outs -> event_queue (user l) = q ->
  submit curl_event_fn_ adds q l = Ok (l', o) -> queue_inv l' (outs ++ o).
Proof.
  revert adds l outs o. induction q as [|e q IH]; intros adds l outs o [Hq Ho Hn] Heq; cbn [submit].
  { intros [= <- <-]. rewrite app_nil_r. by constructor. }
  destruct (callbacks (a_script (adds 0%nat)) _) as [l1|] eqn:Hc; [|done].
  apply callbacks_queue in Hc as [Hc1 Hc2]. cbn in Hc1, Hc2. rewrite Heq in Hq.
  set (h := a_easy (adds 0%nat)).
  assert (forall o1, submitted o1 = [e] -> accepted o1 = [] -> options_ok o1 ->
    forall l2, same_queue l1 l2 -> queue_inv l2 (outs ++ o1)) as Hnext.
  { intros o1 Hs Ha Hopt l2 [Hl1 Hl2]. constructor.
    - by rewrite accepted_app, submitted_app, Hs, Ha, app_nil_r, Hq, <- app_assoc, Hl1, Hc1.
    - by apply Forall_app.
    - by rewrite Hl2, Hc2. }
  destruct (a_ok (adds 0%nat)).
  - destruct (submit curl_event_fn_ _ q l1) as [[l2 o2]|] eqn:Hs; [|done]. intros [= <- <-].
    change (?a :: o2) with ([a] ++ o2). rewrite app_assoc. eapply IH; [|exact Hc1|exact Hs].
    apply Hnext; try done. by repeat constructor.
  - destruct (submit curl_event_fn_ _ q _) as [[l2 o2]|] eqn:Hs; [|done]. intros [= <- <-].
    change (?a :: ?b :: o2) with ([a; b] ++ o2). rewrite app_assoc. eapply IH; [| |exact Hs].
    + apply Hnext; try done. by repeat constructor.
    + exact Hc1.
Qed.

Lemma remove_fds_queue fds (l l' : loop) : remove_fds fds l = Ok l' -> same_queue l l'.
Proof.
  revert l. induction fds as [|fd fds IH]; intros l; cbn [remove_fds]; [by intros [= <-]|].
  unfold tcp_pool.remove_client_sync. case_match; [|done]. cbn [res_bind]. intros Hr%IH. exact Hr.
Qed.

Lemma cleanup_queue removes fs (l l' : loop) (o : list out) :
  cleanup removes fs l = Ok (l', o) -> same_queue l l' /\ other_outs o.
Proof.
  revert removes l o. induction fs as [|h fs IH]; intros removes l o; cbn [cleanup].
  { intros [= <- <-]. by repeat constructor. }
  destruct (curl_conns (user l) !! h); [|done].
  destruct (callbacks (removes 0%nat).1 l) as [l1|] eqn:H1; [|done].
  destruct (curl_conns (user l1) !! h) as [fds|]; [|done].
  destruct (remove_fds (elements fds) l1) as [l2|] eqn:H2; [|done]. cbn [res_bind].
  destruct (callbacks (removes 0%nat).2 _) as [l3|] eqn:H3; [|done]. case_decide; [|done].
  destruct (cleanup _ fs l3) as [[l4 o4]|] eqn:H4; [|done]. intros [= <- <-].
  apply IH in H4 as [H4 (Ha & Hs & Ho)]. apply callbacks_queue in H1, H3. apply remove_fds_queue in H2.
  split; [|split; [done|split; [done|by constructor]]].
  eapply same_queue_trans; [exact H1|]. eapply same_queue_trans; [exact H2|].
  eapply same_queue_trans; [exact H3|exact H4].
Qed.

Lemma timer_inv removes s ok msgs (l l' : loop) outs o :
  queue_inv l outs -> timer removes s ok msgs l = Ok (l', o) -> queue_inv l' (outs ++ o).
Proof.
  intros Hl. unfold timer, cleanup_conns, multi_socket_action.
  destruct (cleanup removes _ l) as [[l1 o1]|] eqn:H1; [|done]. cbn [res_map res_bind].
  destruct (callbacks s _) as [l2|] eqn:H2; [|done]. intros [= <- <-].
  apply cleanup_queue in H1 as [H1 Ho]. apply callbacks_queue in H2.
  eapply queue_inv_other; [done| |done]. eapply same_queue_trans; [exact H1|].
  eapply same_queue_trans; [exact H2|]. by destruct ok.
Qed.

Lemma ready_inv s msgs r fd (l l' : loop) outs (o : list out) :
  queue_inv l outs -> tcp_pool.socket_callback (on_ready s msgs) r fd l = Ok (l', o) ->
  queue_inv l' (outs ++ o).
Proof.
  intros Hl. unfold tcp_pool.socket_callback. case_match; [|done].
  unfold on_ready. destruct (ready_error r).
  - cbn [res_bind]. case_match; [|done]. intros Hr. eapply queue_inv_other; [done| |].
    + case_match; injection Hr as <- <-; done.
    + case_match; injection Hr as <- <-; by repeat constructor.
  - destruct (callbacks s l) as [l1|] eqn:Hc; [|done]. cbn [res_map res_bind].
    case_match; [|done]. apply callbacks_queue in Hc. intros Hr. eapply queue_inv_other; [done| |].
    + case_match; injection Hr as <- <-; (eapply same_queue_trans; [exact Hc|done]).
    + case_match; injection Hr as <- <-; by repeat constructor.
Qed.

Lemma curl_async_inv adds (l l' : loop) outs (o : list out) :
  queue_inv l outs ->
  tcp_pool.async_hook no_create (async curl_event_fn_ adds) l = Ok (l', o) -> queue_inv l' (outs ++ o).
Proof.
  intros [H1 H2 H3]. unfold tcp_pool.async_hook, tcp_pool.add_fds. cbn [tcp_pool.new_fds].
  rewrite H3. cbn [tcp_pool.add_each app]. unfold async. case_decide.
  - intros [= <- <-]. rewrite app_nil_r. by constructor.
  - destruct (submit _ _ _ _) as [[l1 o1]|] eqn:Hs; [|done]. intros [= <- <-].
    eapply submit_inv; [|reflexivity|exact Hs]. by constructor.
Qed.

Abbreviation step := (curl_pool.step curl_event_fn_).
Abbreviation run := (curl_pool.run (B := B) curl_event_fn_).

Definition pool_inv (p : pool) (outs : list (nat * out)) : Prop :=
  forall i l, tcp_pool.loops p !! i = Some l -> queue_inv l (outs_of i outs).

Lemma on_loop_inv i f (p p' : pool) outs o :
  pool_inv p outs ->
  (forall l l' o, queue_inv l (outs_of i outs) -> f l = Ok (l', o) -> queue_inv l' (outs_of i outs ++ o)) ->
  tcp_pool.on_loop i f p = Ok (p', o) -> pool_inv p' (outs ++ o).
Proof.
  intros Hp Hf. unfold tcp_pool.on_loop. destruct (tcp_pool.loops p !! i) as [l|] eqn:Hi.
  - destruct (f l) as [[l1 o1]|] eqn:Hfl; [|done]. intros [= <- <-] j l2 Hj. cbn [tcp_pool.loops] in Hj.
    rewrite outs_of_app, outs_of_pair. destruct (decide (j = i)) as [->|Hne].
    + rewrite list_lookup_insert_eq in Hj by (by eapply lookup_lt_Some). injection Hj as <-.
      eapply Hf; [by apply Hp|done].
    + rewrite list_lookup_insert_ne in Hj by done. rewrite app_nil_r. by apply Hp.
  - intros [= <- <-]. by rewrite app_nil_r.
Qed.

Lemma push_event_inv e (p p' : pool) outs (o : list (nat * out)) :
  pool_inv p outs -> push_event e p = Ok (p', o) -> pool_inv p' (outs ++ o).
Proof.
  intros Hp. unfold push_event. set (k := tcp_pool.next_thread_ p).
  destruct (tcp_pool.loops p !! k) as [l|] eqn:Hk; [|done]. case_match; intros [= <- <-] i l' Hi;
    rewrite outs_of_app; change [(k, ?x)] with (pair k <$> [x]); rewrite outs_of_pair.
  - eapply queue_inv_other; [by apply Hp|done|]. case_decide; by repeat constructor.
  - cbn [tcp_pool.loops] in Hi. destruct (decide (i = k)) as [->|Hne].
    + rewrite list_lookup_insert_eq in Hi by (by eapply lookup_lt_Some). injection Hi as <-.
      destruct (Hp k l Hk) as [H1 H2 H3]. constructor; cbn.
      * by rewrite accepted_app, submitted_app, H1, <- !app_assoc.
      * apply Forall_app. split; [done|by repeat constructor].
      * done.
    + rewrite list_lookup_insert_ne in Hi by done. rewrite app_nil_r. by apply Hp.
Qed.

Lemma curl_step_inv o (p p' : pool) outs out' :
  pool_inv p outs -> step o p = Ok (p', out') -> pool_inv p' (outs ++ out').
Proof.
  intros Hp. destruct o as [e|i adds|i fd r s msgs|i removes s ok msgs]; cbn [curl_pool.step].
  - by apply push_event_inv.
  - apply on_loop_inv; [done|]. intros l l' o Hl. case_match; [by apply curl_async_inv|].
    intros [= <- <-]. by rewrite app_nil_r.
  - apply on_loop_inv; [done|]. intros l l' o Hl. case_match; [by apply ready_inv|].
    intros [= <- <-]. by rewrite app_nil_r.
  - apply on_loop_inv; [done|]. intros l l' o Hl. by apply timer_inv.
Qed.

Lemma curl_run_inv ops (p p' : pool) outs out' :
  pool_inv p outs -> run ops p = Ok (p', out') -> pool_inv p' (outs ++ out').
Proof.
  revert p outs out'. induction ops as [|o ops IH]; intros p outs out' Hp; cbn [curl_pool.run].
  { intros [= <- <-]. by rewrite app_nil_r. }
  destruct (step o p) as [[p1 o1]|] eqn:Hs; [|done].
  destruct (run ops p1) as [[p2 o2]|] eqn:Hr; [|done]. intros [= <- <-].
  rewrite app_assoc. eapply IH; [|done]. by eapply curl_step_inv.
Qed.

Lemma curl_new_inv n : pool_inv (curl_pool.new n) [].
Proof. intros i l [-> _]%lookup_replicate. by repeat constructor. Qed.

(** Mails and pages are sent once and in order: in every run of the pool, whatever libcurl calls
    back and returns, the events that a loop has accepted are those for which it has made a request, in the
    order in which they came and each with the options that belong to it, followed by those still
    in its queue. *)
Theorem curl_pool_submits (thread_num : nat) (ops : list (pool_op X)) (p : pool)
    (outs : list (nat * out)) :
  run ops (curl_pool.new thread_num) = Ok (p, outs) ->
  forall i l, tcp_pool.loops p !! i = Some l ->
  accepted (outs_of i outs) = submitted (outs_of i outs) ++ event_queue (user l)
  /\ Forall (fun o => match o with Submitted _ e r => r = curl_event_fn_ e | _ => True end)
       (outs_of i outs).
Proof.
  intros Hrun i l Hi. apply (curl_run_inv _ _ _ []) in Hrun; [|apply curl_new_inv].
  destruct (Hrun i l Hi). done.
Qed.
End curl.

(** ** A libcurl that keeps its promises *)

Section curl_safe.
Import curl_pool.
Context {B : Type} `{CircularBuffer B}.
Context {X R : Type}.
Variable curl_event_fn_ : Event * X -> R.

Abbreviation loop := (tcp_pool.loop_t B (conns X)).
Abbreviation pool := (tcp_pool.t B (conns X)).
Abbreviation user := tcp_pool.user.
Abbreviation out := (curl_out X R).

(** A loop and libcurl agree; [gone] are the requests that [cleanup_conns] has removed already. *)
Record agree (gone : list Z) (l : loop) (a : libcurl) : Prop := {
  ag_finished : finished_conns (user l) = gone ++ completed a;
  ag_nodup : NoDup (completed a);
  ag_disjoint : forall h, h ∈ active a -> h ∉ completed a;
  ag_conns : forall h, is_Some (curl_conns (user l) !! h) <-> h ∈ active a \/ h ∈ completed a;
  ag_fds : forall h fds fd, curl_conns (user l) !! h = Some fds -> fd ∈ fds <-> owner a !! fd = Some h;
  ag_owner : forall fd h, owner a !! fd = Some h -> h ∈ active a \/ h ∈ completed a;
  ag_conn : forall fd, tcp_pool.conn_map l !! fd = (fun _ => tcp_connection.new) <$> owner a !! fd;
  ag_loop : forall fd, is_Some (tcp_pool.fds l !! fd) <-> is_Some (owner a !! fd);
  ag_open : forall fd, fd ∈ open a -> is_Some (owner a !! fd)
}.

Lemma set_fd_mode_agree gone fd m (l : loop) a :
  agree gone l a -> is_Some (owner a !! fd) ->
  exists l', tcp_pool.set_fd_mode fd m l = Ok l' /\ agree gone l' a.
Proof.
  intros [H1 H2 H3 H4 H5 H6 H7 H8 H9] Hfd. unfold tcp_pool.set_fd_mode.
  destruct (tcp_pool.fds l !! fd) eqn:Hl; [|apply H8 in Hfd as [? ?]; congruence].
  eexists. split; [reflexivity|]. constructor; try done. cbn. intros fd'. rewrite <- H8.
  destruct (decide (fd' = fd)) as [->|Hne]; [rewrite lookup_insert_eq, Hl; split; by eexists|].
  by rewrite lookup_insert_ne.
Qed.

Lemma open_socket_agree gone h fd (l : loop) a :
  agree gone l a -> h ∈ active a -> owner a !! fd = None ->
  exists l', add_fd h fd l = Ok l'
  /\ agree gone l' (MkCurl (active a) (completed a) (<[fd := h]> (owner a)) ({[fd]} ∪ open a)).
Proof.
  intros [H1 H2 H3 H4 H5 H6 H7 H8 H9] Hh Hfd. unfold add_fd.
  destruct (curl_conns (user l) !! h) as [fds|] eqn:Hc;
    [|destruct (proj2 (H4 h) (or_introl Hh)) as [? ?]; congruence].
  eexists. split; [reflexivity|].
  assert (tcp_pool.fds l !! fd = None) as Hlf.
  { apply eq_None_not_Some. rewrite H8, Hfd. by intros [? ?]. }
  assert (tcp_pool.conn_map l !! fd = None) as Hcm by (by rewrite H7, Hfd).
  constructor; cbn; rewrite ?insert_new_fresh by done; try done.
  - intros h'. rewrite <- H4. destruct (decide (h' = h)) as [->|Hne].
    + rewrite lookup_insert_eq, Hc. split; by eexists.
    + by rewrite lookup_insert_ne.
  - intros h' fds' fd'. destruct (decide (h' = h)) as [->|Hne].
    + rewrite lookup_insert_eq. intros [= <-]. rewrite elem_of_union, elem_of_singleton.
      rewrite (H5 h fds fd' Hc). destruct (decide (fd' = fd)) as [->|Hf].
      * rewrite lookup_insert_eq. split; [done|by left].
      * rewrite lookup_insert_ne by done. split; [by intros [?|?]|by right].
    + rewrite lookup_insert_ne by done. intros Hc'. rewrite (H5 h' fds' fd' Hc').
      destruct (decide (fd' = fd)) as [->|Hf]; [|by rewrite lookup_insert_ne].
      rewrite lookup_insert_eq, Hfd. split; [done|congruence].
  - intros fd' h'. destruct (decide (fd' = fd)) as [->|Hf].
    + rewrite lookup_insert_eq. intros [= <-]. by left.
    + rewrite lookup_insert_ne by done. apply H6.
  - intros fd'. destruct (decide (fd' = fd)) as [->|Hf]; [by rewrite !lookup_insert_eq|].
    by rewrite !lookup_insert_ne by done.
  - intros fd'. destruct (decide (fd' = fd)) as [->|Hf];
      [rewrite !lookup_insert_eq; split; by eexists|]. by rewrite !lookup_insert_ne by done.
  - intros fd' [->%elem_of_singleton|Ho]%elem_of_union; [rewrite lookup_insert_eq; by eexists|].
    destruct (decide (fd' = fd)) as [->|Hf]; [rewrite lookup_insert_eq; by eexists|].
    rewrite lookup_insert_ne by done. by apply H9.
Qed.

Lemma check_multi_info_cons m msgs (l : loop) :
  check_multi_info (m :: msgs) l = check_multi_info msgs (check_multi_info [m] l).
Proof. destruct m as [[] h]; unfold check_multi_info; cbn; [by rewrite <- app_assoc|by rewrite app_nil_r]. Qed.

Lemma msgs_agree gone msgs (l : loop) a a' :
  agree gone l a -> libcurl_msgs msgs a = Some a' -> agree gone (check_multi_info msgs l) a'.
Proof.
  revert l a. induction msgs as [|[[] h] msgs IH]; intros l a Ha; cbn [libcurl_msgs].
  - intros [= <-]. destruct Ha. constructor; try done. cbn. by rewrite app_nil_r.
  - case_decide as Hh; [|done]. intros Hm.
    rewrite check_multi_info_cons. eapply IH; [|exact Hm]. destruct Ha as [H1 H2 H3 H4 H5 H6 H7 H8 H9].
    assert (forall h', h' ∈ active a \/ h' ∈ completed a
      <-> h' ∈ active a ∖ {[h]} \/ h' ∈ completed a ++ [h]) as Hiff.
    { intros h'. rewrite elem_of_difference, elem_of_singleton, elem_of_app, list_elem_of_singleton.
      destruct (decide (h' = h)) as [->|]; tauto. }
    constructor; cbn; try done.
    + by rewrite H1, <- app_assoc.
    + apply list.NoDup_app. split; [done|]. split; [|apply NoDup_singleton].
      intros x Hx Hxh%list_elem_of_singleton. subst x. by apply (H3 h).
    + intros h' [Hh' Hne]%elem_of_difference. rewrite elem_of_app, list_elem_of_singleton.
      intros [Hc| ->]; [by apply (H3 h')|]. by apply Hne, elem_of_singleton.
    + intros h'. rewrite <- Hiff. apply H4.
    + intros fd h' Ho. apply Hiff. by eapply H6.
  - apply IH, Ha.
Qed.

Lemma callbacks_agree gone s (l : loop) a a' :
  agree gone l a -> libcurl_script s a = Some a' ->
  exists l', callbacks s l = Ok l' /\ agree gone l' a'.
Proof.
  revert l a a'. induction s as [|h fd s IH|fd s IH|fd m s IH|ms nested IHn ok msgs s IH]; intros l a a' Ha;
    cbn [callbacks libcurl_script].
  - intros [= <-]. by exists l.
  - unfold create_socket_fn. case_match; [|by apply IH]. case_decide as Hd; [|done].
    destruct (open_socket_agree gone h fd l a Ha) as (l1 & -> & Ha1); [tauto..|]. by apply IH.
  - unfold close_socket_fn. case_match; [|by apply IH]. case_decide as Hd; [|done].
    destruct (set_fd_mode_agree gone fd mode_none l a Ha) as (l1 & -> & Ha1); [by apply (ag_open _ _ _ Ha)|].
    apply IH. destruct Ha1. constructor; try done. cbn. intros fd' [Ho _]%elem_of_difference. by apply (ag_open _ _ _ Ha).
  - unfold multi_socket. destruct m; try (by apply IH); (case_decide as Hd; [|done]);
      match goal with |- context [tcp_pool.set_fd_mode fd ?md l] =>
        destruct (set_fd_mode_agree gone fd md l a Ha (ag_open _ _ _ Ha fd Hd)) as (l1 & -> & Ha1) end;
      by apply IH.
  - case_match; [by apply IH|]. destruct (libcurl_script nested a) as [a1|] eqn:Hn; [|done].
    cbn [mbind option_bind]. destruct (IHn l a a1 Ha Hn) as (l1 & -> & Ha1). cbn [res_bind].
    destruct ok.
    + destruct (libcurl_msgs msgs a1) as [a2|] eqn:Hm; [|done]. cbn [mbind option_bind].
      apply IH. by eapply msgs_agree.
    + cbn [mbind option_bind]. by apply IH.
Qed.

Lemma set_queue_agree gone q (l : loop) a : agree gone l a -> agree gone (set_queue q l) a.
Proof. intros []. by constructor. Qed.

Lemma new_conn_agree gone h (l : loop) a :
  agree gone l a -> ~ (h ∈ active a \/ h ∈ completed a) ->
  agree gone (set_conns (new_conn h (curl_conns (user l))) l)
    (MkCurl ({[h]} ∪ active a) (completed a) (owner a) (open a)).
Proof.
  intros [H1 H2 H3 H4 H5 H6 H7 H8 H9] Hh.
  assert (curl_conns (user l) !! h = None) as Hc by (apply eq_None_not_Some; by rewrite H4).
  unfold new_conn. constructor; cbn; rewrite ?insert_new_fresh by done; try done.
  - intros h'. rewrite elem_of_union, elem_of_singleton. intros [->|Hin]; [tauto|by apply H3].
  - intros h'. rewrite elem_of_union, elem_of_singleton. destruct (decide (h' = h)) as [->|Hne].
    + rewrite lookup_insert_eq. split; [by left; left|by eexists].
    + rewrite lookup_insert_ne, H4 by done. tauto.
  - intros h' fds fd. destruct (decide (h' = h)) as [->|Hne].
    + rewrite lookup_insert_eq. intros [= <-]. split; [by intros ?%elem_of_empty|].
      intros Ho. apply H6 in Ho. done.
    + rewrite lookup_insert_ne by done. apply H5.
  - intros fd h' Ho. rewrite elem_of_union. apply H6 in Ho. tauto.
Qed.

Lemma drop_conn_agree gone h (l : loop) a :
  agree gone l a -> h ∈ active a -> map_Forall (fun _ h' => h' <> h) (owner a) ->
  agree gone (set_conns (delete h (curl_conns (user l))) l)
    (MkCurl (active a ∖ {[h]}) (completed a) (owner a) (open a)).
Proof.
  intros [H1 H2 H3 H4 H5 H6 H7 H8 H9] Hh Hown. constructor; cbn; try done.
  - intros h' [Hin _]%elem_of_difference. by apply H3.
  - intros h'. rewrite elem_of_difference, elem_of_singleton. destruct (decide (h' = h)) as [->|Hne].
    + rewrite lookup_delete_eq. split; [by intros [? ?]|]. intros [[_ ?]|Hc]; [done|].
      by destruct (H3 h Hh).
    + rewrite lookup_delete_ne, H4 by done. tauto.
  - intros h' fds fd. destruct (decide (h' = h)) as [->|Hne]; [by rewrite lookup_delete_eq|].
    rewrite lookup_delete_ne by done. apply H5.
  - intros fd h' Ho. rewrite elem_of_difference, elem_of_singleton. pose proof (Hown fd h' Ho) as Hne.
    cbn in Hne. apply H6 in Ho. tauto.
Qed.

Lemma submit_agree gone adds q (l : loop) a a' :
  agree gone l a -> libcurl_adds (length q) adds a = Some a' ->
  exists l' o, submit curl_event_fn_ adds q l = Ok (l', o) /\ agree gone l' a'.
Proof.
  revert adds l a. induction q as [|e q IH]; intros adds l a Ha; cbn [submit libcurl_adds length].
  { intros [= <-]. by exists l, []. }
  case_decide as Hd; [done|].
  destruct (libcurl_script _ _) as [a1|] eqn:Hs; [|done]. cbn [mbind option_bind].
  eapply callbacks_agree in Hs as (l1 & Hl1 & Ha1);
    [|apply new_conn_agree; [apply (set_queue_agree _ q), Ha|done]].
  rewrite Hl1. intros Hadds. destruct (a_ok (adds 0%nat)).
  - destruct (IH _ _ _ Ha1 Hadds) as (l2 & o & -> & Ha2). by eexists _, _.
  - case_decide as Hd1; [|done]. destruct Hd1 as [Hact Hown].
    destruct (IH _ _ _ (drop_conn_agree _ _ _ _ Ha1 Hact Hown) Hadds) as (l2 & o & -> & Ha2).
    by eexists _, _.
Qed.

Lemma remove_fds_spec ks (l : loop) :
  NoDup ks -> (forall fd, fd ∈ ks -> is_Some (tcp_pool.conn_map l !! fd)) ->
  exists l', remove_fds ks l = Ok l' /\ user l' = user l
  /\ (forall fd, tcp_pool.conn_map l' !! fd = if decide (fd ∈ ks) then None else tcp_pool.conn_map l !! fd)
  /\ (forall fd, tcp_pool.fds l' !! fd = if decide (fd ∈ ks) then None else tcp_pool.fds l !! fd).
Proof.
  revert l. induction ks as [|k ks IH]; intros l Hnd Hks; cbn [remove_fds].
  { exists l. split; [done|]. split; [done|]. split; intros fd; by rewrite decide_False by (apply not_elem_of_nil). }
  apply list.NoDup_cons in Hnd as [Hk Hnd]. unfold tcp_pool.remove_client_sync.
  destruct (tcp_pool.conn_map l !! k) eqn:Hc; [|destruct (Hks k) as [? ?]; [by left|congruence]].
  cbn [res_bind]. destruct (IH (tcp_pool.MkLoop (tcp_pool.signalled l) (tcp_pool.new_fds l)
    (delete k (tcp_pool.fds l)) (delete k (tcp_pool.conn_map l)) (user l))) as (l' & -> & Hu & Hcm & Hf); [done| |].
  { intros fd Hin. cbn. rewrite lookup_delete_ne by (by intros ->). apply Hks. by right. }
  exists l'. split; [done|]. split; [done|]. cbn in Hcm, Hf.
  split; intros fd; rewrite ?Hcm, ?Hf; destruct (decide (fd = k)) as [->|Hne].
  1,3: by rewrite decide_False, lookup_delete_eq, decide_True by (done || by left).
  all: rewrite lookup_delete_ne by done; destruct (decide (fd ∈ ks)) as [Hin|Hni];
    [by rewrite decide_True by (by right)|rewrite decide_False; [done|]; by intros [?|?]%elem_of_cons].
Qed.

(** Removing a request that is done, with its descriptors. *)
Lemma remove_conn_agree gone h fs fds (l : loop) a :
  agree gone l a -> completed a = h :: fs -> curl_conns (user l) !! h = Some fds ->
  let own := filter (fun x => x.2 <> h) (owner a) in
  exists l', remove_fds (elements fds) l = Ok l'
  /\ agree (gone ++ [h]) (set_conns (delete h (curl_conns (user l'))) l')
       (MkCurl (active a) fs own (filter (fun fd => is_Some (own !! fd)) (open a))).
Proof.
  intros [H1 H2 H3 H4 H5 H6 H7 H8 H9] Hfs Hc own. rewrite Hfs in *.
  apply list.NoDup_cons in H2 as [Hh H2].
  assert (forall fd h', own !! fd = Some h' <-> owner a !! fd = Some h' /\ h' <> h) as Hown.
  { intros fd h'. unfold own. by rewrite map_lookup_filter_Some. }
  assert (forall fd, fd ∈ elements fds <-> owner a !! fd = Some h) as Hel
    by (intros fd; rewrite elem_of_elements; by apply H5).
  assert (forall fd, own !! fd = if decide (fd ∈ elements fds) then None else owner a !! fd) as Heq.
  { intros fd. destruct (own !! fd) as [h'|] eqn:Ho.
    - apply Hown in Ho as [Ho Hne]. rewrite decide_False; [done|]. rewrite Hel. congruence.
    - case_decide as Hin; [done|]. destruct (owner a !! fd) as [h'|] eqn:Ho'; [|done].
      rewrite Hel in Hin. assert (own !! fd = Some h') by (apply Hown; split; congruence). congruence. }
  destruct (remove_fds_spec (elements fds) l) as (l' & -> & Hu & Hcm & Hf); [apply NoDup_elements| |].
  { intros fd Hin%Hel. rewrite H7, Hin. by eexists. }
  exists l'. split; [done|]. constructor; cbn; rewrite ?Hu.
  - by rewrite H1, <- app_assoc.
  - done.
  - intros h' Hin ?. apply (H3 h' Hin). by right.
  - intros h'. destruct (decide (h' = h)) as [->|Hne].
    + rewrite lookup_delete_eq. split; [by intros [? ?]|]. intros [Ha|?]; [|done].
      destruct (H3 h Ha). by left.
    + rewrite lookup_delete_ne, H4, elem_of_cons by done. tauto.
  - intros h' fds' fd. destruct (decide (h' = h)) as [->|Hne]; [by rewrite lookup_delete_eq|].
    rewrite lookup_delete_ne by done. intros Hc'. rewrite (H5 h' fds' fd Hc'), Hown. tauto.
  - intros fd h' [Ho Hne]%Hown. apply H6 in Ho as [?|Hin]; [by left|right].
    by apply elem_of_cons in Hin as [?|?].
  - intros fd. rewrite Hcm, Heq, H7. by case_decide.
  - intros fd. rewrite Hf, Heq. case_decide; [split; by intros [? ?]|apply H8].
  - intros fd [? _]%elem_of_filter. done.
Qed.

Lemma cleanup_agree removes fs gone (l : loop) a a' :
  agree gone l a -> completed a = fs -> libcurl_removes fs removes a = Some a' ->
  exists l' (o : list out), cleanup removes fs l = Ok (l', o) /\ agree (gone ++ fs) l' a' /\ completed a' = [].
Proof.
  revert removes gone l a. induction fs as [|h fs IH]; intros removes gone l a Ha Hfs;
    cbn [cleanup libcurl_removes].
  { intros [= <-]. exists l, []. by rewrite app_nil_r. }
  destruct (libcurl_script (removes 0%nat).1 a) as [a1|] eqn:H1; [|done]. cbn [mbind option_bind].
  case_decide as Hc1; [|done]. destruct (libcurl_script (removes 0%nat).2 _) as [a3|] eqn:H3; [|done].
  cbn [mbind option_bind]. case_decide as Hc3; [|done]. intros Hr.
  destruct (curl_conns (user l) !! h) as [fds0|] eqn:Hl;
    [|destruct (proj2 (ag_conns _ _ _ Ha h)) as [? ?]; [right; rewrite Hfs; by left|congruence]].
  destruct (callbacks_agree _ _ _ _ _ Ha H1) as (l1 & -> & Ha1). rewrite Hfs in Hc1.
  destruct (curl_conns (user l1) !! h) as [fds|] eqn:Hl1;
    [|destruct (proj2 (ag_conns _ _ _ Ha1 h)) as [? ?]; [right; rewrite Hc1; by left|congruence]].
  destruct (remove_conn_agree _ h fs fds l1 a1 Ha1 Hc1 Hl1) as (l2 & -> & Ha2). cbn [res_bind].
  destruct (callbacks_agree _ _ _ _ _ Ha2 H3) as (l3 & -> & Ha3).
  rewrite decide_True by (rewrite (ag_finished _ _ _ Ha3), (ag_finished _ _ _ Ha), Hc3, Hfs;
    by rewrite <- app_assoc).
  destruct (IH _ _ l3 a3 Ha3 Hc3 Hr) as (l4 & o & -> & Ha4 & Hnil). cbn [res_map].
  eexists _, _. split; [reflexivity|]. rewrite <- app_assoc in Ha4. done.
Qed.

Lemma libcurl_msgs_owner msgs a a' : libcurl_msgs msgs a = Some a' -> owner a' = owner a.
Proof.
  revert a. induction msgs as [|[[] h] msgs IH]; intros a; cbn [libcurl_msgs];
    [by intros [= <-]| |apply IH]. case_decide; [|done]. by intros Hm%IH.
Qed.

(** Callbacks do not take a descriptor away. *)
Lemma libcurl_script_owner fd s a a' :
  libcurl_script s a = Some a' -> is_Some (owner a !! fd) -> is_Some (owner a' !! fd).
Proof.
  revert a a'. induction s as [|h fd' s IH|fd' s IH|fd' m s IH|ms nested IHn ok msgs s IH]; intros a a';
    cbn [libcurl_script].
  - by intros [= <-].
  - case_match; [|apply IH]. case_decide as Hd; [|done]. intros Hs Ho. apply (IH _ _ Hs). cbn.
    destruct (decide (fd' = fd)) as [->|]; [rewrite lookup_insert_eq; by eexists|by rewrite lookup_insert_ne].
  - case_match; [|apply IH]. case_decide; [|done]. intros Hs Ho. by apply (IH _ _ Hs).
  - destruct m; try apply IH; (case_decide; [apply IH|done]).
  - case_match; [apply IH|]. destruct (libcurl_script nested a) as [a1|] eqn:Hn; [|done].
    cbn [mbind option_bind]. intros Hs Ho. apply (IHn _ _ Hn) in Ho. destruct ok; [|by apply (IH _ _ Hs)].
    destruct (libcurl_msgs msgs a1) as [a2|] eqn:Hm; [|done]. apply (IH _ _ Hs).
    by rewrite (libcurl_msgs_owner _ _ _ Hm).
Qed.

Lemma submit_new_fds q adds (l l' : loop) (o : list out) :
  submit curl_event_fn_ adds q l = Ok (l', o) -> tcp_pool.new_fds l' = tcp_pool.new_fds l.
Proof.
  revert adds l o. induction q as [|e q IH]; intros adds l o; cbn [submit]; [by intros [= <- <-]|].
  destruct (callbacks _ _) as [l1|] eqn:Hc; [|done]. apply callbacks_queue in Hc as [_ Hc]. cbn in Hc.
  destruct (a_ok _); (destruct (submit _ _ q _) as [[l2 o2]|] eqn:Hs; [|done]); intros [= <- <-];
    apply IH in Hs; by rewrite Hs.
Qed.

(** What libcurl promises of an operation, by the loops and the libcurl of every loop. *)
Definition promised_loop (o : pool_op X) (l : loop) (a : libcurl) : option libcurl :=
  match o with
  | PushEvent _ => Some a
  | Async _ adds =>
      if tcp_pool.signalled l && bool_decide (size (curl_conns (user l)) <= k_max_concurrent_conns)%nat
      then libcurl_adds (length (event_queue (user l))) adds a else Some a
  | Ready _ fd r s msgs =>
      if bool_decide (is_Some (tcp_pool.fds l !! fd)) && negb (ready_error r)
      then a ← libcurl_script s a; libcurl_msgs msgs a else Some a
  | Timer _ removes s rc_ok msgs =>
      a ← libcurl_removes (completed a) removes a;
      a ← libcurl_script s a;
      if rc_ok then libcurl_msgs msgs a else Some a
  end.

Definition op_loop (o : pool_op X) : nat :=
  match o with PushEvent _ => 0 | Async i _ => i | Ready i _ _ _ _ => i | Timer i _ _ _ _ => i end.

Definition promised (o : pool_op X) (p : pool) (cs : list libcurl) : option (list libcurl) :=
  match tcp_pool.loops p !! op_loop o, cs !! op_loop o with
  | Some l, Some a => a' ← promised_loop o l a; Some (<[op_loop o := a']> cs)
  | _, _ => Some cs
  end.

Fixpoint promised_run (ops : list (pool_op X)) (p : pool) (cs : list libcurl) : option (list libcurl) :=
  match ops with
  | [] => Some cs
  | o :: ops' =>
      cs' ← promised o p cs;
      match curl_pool.step curl_event_fn_ o p with
      | Ok (p', _) => promised_run ops' p' cs'
      | Throw _ => Some cs'
      end
  end.

(** The loops agree with libcurl, and no descriptors come in from outside. *)
Definition loop_agrees (l : loop) (a : libcurl) : Prop := agree [] l a /\ tcp_pool.new_fds l = [].

Lemma async_agrees i adds (l : loop) a a' :
  loop_agrees l a -> promised_loop (Async i adds) l a = Some a' ->
  exists l' o, (if tcp_pool.signalled l
                then tcp_pool.async_hook no_create (async curl_event_fn_ adds) l else Ok (l, [])) = Ok (l', o)
  /\ loop_agrees l' a'.
Proof.
  intros [Ha Hn]. cbn [promised_loop]. destruct (tcp_pool.signalled l); cbn [andb]; [|intros [= <-]; by exists l, []].
  unfold tcp_pool.async_hook, tcp_pool.add_fds. cbn [tcp_pool.new_fds]. rewrite Hn.
  cbn [tcp_pool.add_each tcp_pool.user tcp_pool.fds tcp_pool.conn_map tcp_pool.signalled].
  set (l0 := tcp_pool.MkLoop false [] (tcp_pool.fds l) (tcp_pool.conn_map l) (user l)).
  assert (agree [] l0 a) as Ha0 by (destruct Ha; by constructor).
  unfold async. case_bool_decide as Hs.
  - rewrite decide_False by (cbn; lia). intros Hadds.
    destruct (submit_agree [] adds _ l0 a a' Ha0 Hadds) as (l1 & o & Hsub & Ha1).
    change (event_queue (user l0)) with (event_queue (user l)). rewrite Hsub. eexists _, _.
    split; [reflexivity|]. split; [done|]. by rewrite (submit_new_fds _ _ _ _ _ Hsub).
  - rewrite decide_True by (cbn; lia). intros [= <-]. by eexists _, _.
Qed.

Lemma ready_agrees i fd r s msgs (l : loop) a a' :
  loop_agrees l a -> promised_loop (Ready i fd r s msgs) l a = Some a' ->
  exists l' (o : list out), match tcp_pool.fds l !! fd with
                | Some _ => tcp_pool.socket_callback (on_ready s msgs) r fd l
                | None => Ok (l, [])
                end = Ok (l', o) /\ loop_agrees l' a'.
Proof.
  intros [Ha Hn]. cbn [promised_loop]. destruct (tcp_pool.fds l !! fd) as [m|] eqn:Hfd;
    [|intros [= <-]; by exists l, []].
  rewrite bool_decide_true by (by eexists). cbn [andb].
  assert (is_Some (owner a !! fd)) as [h Ho] by (apply (ag_loop _ _ _ Ha); by rewrite Hfd).
  unfold tcp_pool.socket_callback. rewrite (ag_conn _ _ _ Ha), Ho. cbn [fmap option_fmap option_map].
  unfold on_ready. destruct (ready_error r); cbn [negb].
  - intros [= <-]. cbn [res_bind]. rewrite (ag_conn _ _ _ Ha), Ho. cbn. by eexists _, _.
  - destruct (libcurl_script s a) as [a1|] eqn:Hs; [|done]. cbn [mbind option_bind]. intros Hm.
    destruct (callbacks_agree _ _ _ _ _ Ha Hs) as (l1 & Hc & Ha1). rewrite Hc. cbn [res_map res_bind].
    pose proof (msgs_agree _ _ _ _ _ Ha1 Hm) as Ha2.
    apply callbacks_queue in Hc as [_ Hq].
    change (tcp_pool.conn_map (check_multi_info msgs l1)) with (tcp_pool.conn_map l1).
    rewrite (ag_conn _ _ _ Ha1). destruct (owner a1 !! fd) as [h1|] eqn:Ho1; cbn.
    + eexists _, _. split; [reflexivity|]. split; [done|]. by rewrite <- Hn, <- Hq.
    + exfalso. destruct (libcurl_script_owner fd s a a1 Hs) as [? ?]; [by rewrite Ho|congruence].
Qed.

Lemma cleanup_conns_agrees removes (l : loop) a a' :
  loop_agrees l a -> libcurl_removes (completed a) removes a = Some a' ->
  exists l' (o : list out), cleanup_conns removes l = Ok (l', o) /\ loop_agrees l' a' /\ completed a' = [].
Proof.
  intros [Ha Hn] Hr. destruct (cleanup_agree removes _ [] l a a' Ha eq_refl Hr) as (l1 & o & Hc & Ha1 & Hnil).
  unfold cleanup_conns. rewrite (ag_finished _ _ _ Ha). cbn [app]. rewrite Hc.
  eexists _, _. split; [reflexivity|]. split; [|done]. split.
  - destruct Ha1. by constructor.
  - apply (cleanup_queue curl_event_fn_) in Hc as [[_ Hc] _]. cbn. by rewrite Hc.
Qed.

Lemma timer_agrees i removes s ok msgs (l : loop) a a' :
  loop_agrees l a -> promised_loop (Timer i removes s ok msgs) l a = Some a' ->
  exists l' (o : list out), timer removes s ok msgs l = Ok (l', o) /\ loop_agrees l' a'.
Proof.
  intros [Ha Hn]. cbn [promised_loop].
  destruct (libcurl_removes (completed a) removes a) as [a1|] eqn:Hr; [|done]. cbn [mbind option_bind].
  destruct (libcurl_script s a1) as [a2|] eqn:Hs; [|done]. cbn [mbind option_bind]. intros Hm.
  destruct (cleanup_conns_agrees removes l a a1 (conj Ha Hn) Hr) as (l1 & o & Hc & [Ha1 Hn1] & _).
  unfold timer. rewrite Hc. cbn [res_map res_bind].
  destruct (callbacks_agree _ _ _ _ _ Ha1 Hs) as (l2 & Hc2 & Ha2).
  unfold multi_socket_action. rewrite Hc2. eexists _, _. split; [reflexivity|].
  apply callbacks_queue in Hc2 as [_ Hc2].
  destruct ok.
  - split; [by eapply msgs_agree|]. cbn. by rewrite Hc2.
  - injection Hm as <-. split; [done|]. by rewrite Hc2.
Qed.

Definition pool_agrees (p : pool) (cs : list libcurl) : Prop :=
  Forall2 loop_agrees (tcp_pool.loops p) cs.

Lemma on_loop_agrees i f (p : pool) cs (g : loop -> libcurl -> option libcurl) cs' :
  pool_agrees p cs ->
  (forall l a a', loop_agrees l a -> g l a = Some a' ->
     exists l' (o : list out), f l = Ok (l', o) /\ loop_agrees l' a') ->
  match tcp_pool.loops p !! i, cs !! i with
  | Some l, Some a => a' ← g l a; Some (<[i := a']> cs)
  | _, _ => Some cs
  end = Some cs' ->
  exists p' o, tcp_pool.on_loop i f p = Ok (p', o) /\ pool_agrees p' cs'
  /\ length (tcp_pool.loops p') = length (tcp_pool.loops p)
  /\ tcp_pool.next_thread_ p' = tcp_pool.next_thread_ p.
Proof.
  intros Hp Hf. unfold tcp_pool.on_loop. destruct (tcp_pool.loops p !! i) as [l|] eqn:Hl.
  - destruct (Forall2_lookup_l _ _ _ _ _ Hp Hl) as (a & Ha & Hla). rewrite Ha.
    destruct (g l a) as [a'|] eqn:Hg; [|done]. intros [= <-].
    destruct (Hf l a a' Hla Hg) as (l' & o & -> & Hl'). eexists _, _. split; [reflexivity|].
    cbn [tcp_pool.loops]. split; [by apply Forall2_insert|]. split; [apply length_insert|done].
  - intros [= <-]. by exists p, [].
Qed.

Lemma push_event_agrees e (p : pool) cs :
  pool_agrees p cs -> (tcp_pool.next_thread_ p < length (tcp_pool.loops p))%nat ->
  exists p' (o : list (nat * out)), push_event e p = Ok (p', o) /\ pool_agrees p' cs
  /\ length (tcp_pool.loops p') = length (tcp_pool.loops p)
  /\ (tcp_pool.next_thread_ p' < length (tcp_pool.loops p'))%nat.
Proof.
  intros Hp Hn. unfold push_event. destruct (lookup_lt_is_Some_2 _ _ Hn) as [l Hl]. rewrite Hl.
  case_match; [by eexists _, _|]. eexists _, _. split; [reflexivity|]. cbn [tcp_pool.loops tcp_pool.next_thread_].
  rewrite length_insert. split; [|split; [done|apply Nat.mod_upper_bound; lia]].
  destruct (Forall2_lookup_l _ _ _ _ _ Hp Hl) as (a & Ha & [Hla Hnf]).
  unfold pool_agrees. cbn [tcp_pool.loops]. rewrite <- (list_insert_id cs _ a Ha).
  apply Forall2_insert; [done|]. split; [|done]. destruct Hla. by constructor.
Qed.

Definition has_turn (p : pool) : Prop := (tcp_pool.next_thread_ p < length (tcp_pool.loops p))%nat.

Lemma step_agrees o (p : pool) cs cs' :
  pool_agrees p cs -> has_turn p -> promised o p cs = Some cs' ->
  exists p' out', curl_pool.step curl_event_fn_ o p = Ok (p', out') /\ pool_agrees p' cs' /\ has_turn p'.
Proof.
  intros Hp Ht Hpr. unfold has_turn in *.
  destruct o as [e|i adds|i fd r s msgs|i removes s ok msgs]; cbn [curl_pool.step].
  - destruct (push_event_agrees e p cs Hp Ht) as (p' & o & -> & Hp' & _ & Ht').
    assert (cs' = cs) as ->; [|by eexists _, _].
    revert Hpr. unfold promised. cbn [op_loop promised_loop]. repeat case_match; intros [= <-]; [|done..].
    by apply list_insert_id.
  - destruct (on_loop_agrees i _ p cs _ cs' Hp (async_agrees i adds) Hpr) as (p' & o & -> & Hp' & Hlen & Hnt).
    eexists _, _. split; [reflexivity|]. split; [done|lia].
  - destruct (on_loop_agrees i _ p cs _ cs' Hp (ready_agrees i fd r s msgs) Hpr) as (p' & o & -> & Hp' & Hlen & Hnt).
    eexists _, _. split; [reflexivity|]. split; [done|lia].
  - destruct (on_loop_agrees i _ p cs _ cs' Hp (timer_agrees i removes s ok msgs) Hpr) as (p' & o & -> & Hp' & Hlen & Hnt).
    eexists _, _. split; [reflexivity|]. split; [done|lia].
Qed.

Lemma run_agrees ops (p : pool) cs cs' :
  pool_agrees p cs -> has_turn p -> promised_run ops p cs = Some cs' ->
  exists p' outs, curl_pool.run curl_event_fn_ ops p = Ok (p', outs) /\ pool_agrees p' cs'.
Proof.
  revert p cs. induction ops as [|o ops IH]; intros p cs Hp Ht; cbn [promised_run curl_pool.run].
  { intros [= <-]. by exists p, []. }
  destruct (promised o p cs) as [cs1|] eqn:Hpr; [|done]. cbn [mbind option_bind].
  destruct (step_agrees o p cs cs1 Hp Ht Hpr) as (p1 & o1 & -> & Hp1 & Ht1). intros Hr.
  destruct (IH p1 cs1 Hp1 Ht1 Hr) as (p2 & o2 & -> & Hp2). by eexists _, _.
Qed.

(** What [stop] leaves: the requests that are done are cleaned up in every loop, and those under way stay. *)
Lemma stop_agrees (removes : nat -> nat -> script * script) (p : pool) cs cs' :
  pool_agrees p cs ->
  Forall2 (fun (x : nat * libcurl) a' => libcurl_removes (completed x.2) (removes x.1) x.2 = Some a')
    (zip (seq 0 (length cs)) cs) cs' ->
  exists p' (outs : list (nat * out)), curl_pool.stop removes p = Ok (p', outs) /\ pool_agrees p' cs'
  /\ Forall (fun l : loop => finished_conns (user l) = []) (tcp_pool.loops p').
Proof.
  intros Hp. unfold stop, pool_agrees in *. destruct p as [ls nt]. cbn [tcp_pool.loops tcp_pool.next_thread_] in *.
  enough (forall i, Forall2 (fun (x : nat * libcurl) a' =>
      libcurl_removes (completed x.2) (removes x.1) x.2 = Some a') (zip (seq i (length cs)) cs) cs' ->
    exists ls' (outs : list (nat * out)), stop_from i removes ls = Ok (ls', outs) /\ Forall2 loop_agrees ls' cs'
      /\ Forall (fun l : loop => finished_conns (user l) = []) ls') as Hall.
  { intros Hcs. destruct (Hall _ Hcs) as (ls' & outs & -> & H1 & H2). by eexists _, _. }
  revert cs'. induction Hp as [|l a ls cs Hl Hls IH]; intros cs' i; cbn [length seq zip_with stop_from].
  - intros ->%Forall2_nil_inv_l. by exists [], [].
  - intros (a' & cs1 & Ha & Hcs & ->)%Forall2_cons_inv_l. cbn [fst snd] in Ha.
    destruct (cleanup_conns_agrees (removes i) l a a' Hl Ha) as (l' & o & -> & Hl' & Hnil).
    destruct (IH cs1 (S i) Hcs) as (ls' & outs & -> & H1 & H2). eexists _, _. split; [reflexivity|].
    split; constructor; try done. destruct Hl' as [Hl' _]. by rewrite (ag_finished _ _ _ Hl'), Hnil.
Qed.

End curl_safe.

(** ** A run *)

Section sample.
Import curl_pool.

(** A request is made, connects, is done and is cleaned up by the timer. *)
Definition sample_add : curl_add :=
  MkAdd 7 true (SetTimer 0 (OpenSocket 7 12 (SetSocket 12 POLL_OUT ScriptEnd)) true [] ScriptEnd).
Definition sample_curl : list (pool_op string) :=
  [ PushEvent (Event.empty, "a"); Async 0 (fun _ => sample_add);
    Ready 0 12 (MkReady false None (Some None))
      (SetSocket 12 POLL_REMOVE (CloseSocket 12 ScriptEnd)) [(true, 7)];
    PushEvent (Event.empty, "b");
    Timer 0 (fun _ => (SetTimer 100 ScriptEnd true [] ScriptEnd, ScriptEnd)) ScriptEnd true [] ].

Lemma curl_pool_submits_witness :
  exists p outs, curl_pool.run (B := ring) (snd : Event * string -> string) sample_curl (curl_pool.new 1) = Ok (p, outs)
  /\ accepted (outs_of 0 outs) = [(Event.empty, "a"); (Event.empty, "b")].
Proof.
  destruct (curl_pool.run (B := ring) (snd : Event * string -> string) sample_curl (curl_pool.new 1))
    as [[p outs]|] eqn:Hrun; [|vm_compute in Hrun; discriminate Hrun].
  exists p, outs. split; [reflexivity|].
  pose proof (curl_pool_submits (B := ring) snd 1 sample_curl p outs Hrun 0) as Hall.
  vm_compute in Hrun. injection Hrun as <- <-. destruct (Hall _ eq_refl) as [-> _]. reflexivity.
Defined.


(** The number of connections is checked once for all events in the queue: from an idle loop sixty
    events make sixty connections. *)
Example limit_not_kept :
  match curl_pool.run (B := ring) (snd : Event * nat -> nat)
          (map (fun k => PushEvent (Event.empty, k)) (seq 0 60)
           ++ [Async 0 (fun k => MkAdd (1 + Z.of_nat k) true ScriptEnd)]) (curl_pool.new 1) with
  | Ok (p, _) => size <$> (curl_conns ∘ tcp_pool.user <$> tcp_pool.loops p) = [60%nat]
  | Throw _ => False
  end.
Proof. vm_compute. reflexivity. Qed.

(** A descriptor that is ready for both is reported as readable only. *)
Example ready_for_both :
  ready_action (MkReady false (Some None) (Some None)) = POLL_IN.
Proof. reflexivity. Qed.
End sample.
